(* ===== verification/_CoqProject ===== *)
-Q . S2P
Prelude.v
Utils.v
Futures.v
Addr.v
SigStr.v
StdPath.v
ObjPath.v
Body.v
Message.v
PathTraits.v
Header.v
DBusWire.v
HdrFields.v
Builders.v
Hierarchy.v
EmptyMap.v
Order.v
MatchRule.v
UnitTests.v
Sender.v
Ancillary.v
SendLoop.v
Descriptors.v
Recv.v
RecvFds.v
RawBuf.v
Rpc.v
Inbox.v
Client.v
Queues.v
Auth.v
Conn.v
FdLink.v
Connect.v
Sockets.v
Progress.v
Wakeup.v
RoundTrip.v
