(* ===== verification/Prelude.v ===== *)
(** * async-rustbus: an asynchronous D-Bus client, verified in parts

    The crate (src/) connects to a D-Bus bus, sends and receives messages over a
    stream socket, answers calls along a tree of object paths, and hands signals and
    replies to the futures that wait for them.

    ** The parts and how they interact

    A user talks to [RpcConn] (lib.rs), which finds the bus (conn/addr.rs), opens and
    authenticates a [Conn] (conn/mod.rs) and says Hello.  To send, it numbers the message,
    marshals its header (message_builder/mod.rs) and gives header and body to the send queue
    (conn/sender.rs), whose descriptors travel in control messages (conn/ancillary.rs).  To
    receive, whichever future holds the receive lock asks the receive state machine
    (conn/recv.rs) for the next message, which unmarshals the header again, and sorts it: a
    reply to the channel of its call, a signal to the queue of the most specific match rule
    (routing.rs), a call to a node of the call hierarchy (routing.rs).  Bodies are built and
    read with message_builder/body.rs, whose signatures a scanner checks; object paths are
    rustbus_core/path.rs.

    ** Files

    - Prelude.v: results that can panic ([outcome]), I/O errors, bytes, splitting.
    - Utils.v (utils.rs): [parse_u32], [align_num] and the inverse [u32_bytes]; Futures.v
      (utils.rs): [poll_once] and [EitherFut].
    - Addr.v (conn/addr.rs): bus addresses, read from the environment or the file system.
    - SigStr.v (body.rs, [validate_sig_str]): the scanner with its bounded stack and
      its counters, against a relational grammar of D-Bus signatures.
    - StdPath.v: the part of [std::path] the crate uses; ObjPath.v (path.rs):
      [ObjectPath] and [ObjectPathBuf] on top of it; PathTraits.v (path.rs): their order,
      equality, hash, encoding and conversions, and the type invariant.
    - Body.v (body.rs): [MarshalledMessageBody] and [MessageBodyParser].
    - Message.v (mod.rs, standard_messages.rs): messages, settings, replies; Builders.v
      (mod.rs): the builders as programs of settings.
    - Header.v (mod.rs): marshalling and unmarshalling of headers over the interface
      [WireLib] with the laws [WireLaws]; DBusWire.v: an instance of both; HdrFields.v
      (mod.rs, hdr_var.rs, path.rs): the fields of a header composed of the encodings of
      paths and signatures the crate has itself, over the interface [FieldLib] of the rest.
    - Hierarchy.v (routing.rs): the call hierarchy; EmptyMap.v (routing.rs): its static
      empty map, initialised by whichever thread comes first.
    - Order.v: composition of comparison functions, [slice::binary_search];
      MatchRule.v (routing.rs, lib.rs): match rules, their order, the rule list.
    - Sender.v (conn/sender.rs): the send queue against an arbitrary socket;
      Descriptors.v: the destructors that close what it duplicates.
    - Ancillary.v (conn/ancillary.rs): control buffers over the interface [Cmsg] of the
      macros of libc, with an instance for 64-bit Linux.
    - SendLoop.v (lib.rs): [send_msg_loop], run by many tasks against one send queue.
    - Recv.v (conn/recv.rs): the receive state machine against an arbitrary socket;
      RecvFds.v: the descriptors it gets, hands on and closes; RawBuf.v: the memory of its
      vectors, which the kernel writes to through raw slices.
    - Rpc.v (lib.rs): serials, the reply map, [queue_msg] and response futures; Inbox.v:
      [queue_msg] on the receive state of Recv.v instead of a list of results.
    - Client.v (lib.rs): the operations of [RpcConn] as programs that run in turns with
      other tasks; Queues.v: [get_signal], [get_call] and what the queues hold.
    - Auth.v (conn/mod.rs): the authentication dialogue, in a monad of operations that may
      wait for ever; Conn.v (conn/mod.rs): opening and using a [Conn], and two of them
      as a link; FdLink.v: such a link with descriptors; Connect.v (lib.rs): the
      constructors of [RpcConn]; Sockets.v (conn/mod.rs, lib.rs): [GenStream] and the life
      of the socket's descriptor.
    - Progress.v (lib.rs): what is waited for is returned, whatever the other tasks do;
      Wakeup.v (lib.rs): [get_msg] with its points of interruption, over the interfaces
      [AsyncFd] and [AsyncFdLaws] of tokio's readiness.
    - RoundTrip.v: a call from one [RpcConn] to another and its answer, through all layers,
      also between programs in which other tasks run.
    - UnitTests.v: the crate's unit tests, run on the model.

    ** Conventions

    A function that can panic or fail returns an [outcome]: [Ok], [Err] or [Panic]
    (index out of bounds, [unwrap], arithmetic overflow, failed assertions; debug
    assertions depend on a flag [dbg]).  A mutated object is returned next to the
    result.  Texts and buffers are lists of 8-bit [ascii]; [usize] is [nat] where the
    source only adds lengths, and 32-bit integers are [N] with their wrap-around
    written out.  A [HashMap] is a [gmap], its iteration order a parameter.  Channels
    are numbers into a store of message lists, so that sharing a queue is visible.

    Sockets are lists of answers: any partial write, any short read, any error.  The code
    of the rustbus crate (marshalling of values, name checks, the fixed header) is a
    parameter with the laws it documents as a type class; every theorem that uses such a
    class is also run on a concrete instance.  Tasks interleave at the points where the
    source awaits: an operation is a program (Client.v, [prog]) resumed by a script whose
    turns say what other tasks did and what the socket answered; threads that share an
    atomic (EmptyMap.v) interleave at every access.  A turn in which a program finds nothing
    to do is a return to the executor; that it is polled again is the subject of Wakeup.v,
    whose tasks stop at every await of [get_msg] and are polled only when woken.

    ** What the theorems show

    - Sending (Sender.v, SendLoop.v): for every behaviour of the socket the bytes and
      descriptors on the wire followed by those queued are unchanged by a drain, and a
      message goes behind the queue, if it has descriptors or none wait behind the front;
      without descriptors, and errors of the socket, the messages of many tasks are on the
      wire whole and in one order, and the loop of one ends when the socket takes bytes; and
      the cases in which it fails: a message without descriptors written behind descriptors
      that wait, a loop that spins.
    - Descriptors (Descriptors.v, RecvFds.v, Sockets.v, Ancillary.v): each duplicate is
      closed once, and not before it was sent; each descriptor received goes to one message
      or is closed once, and at most 32 wait; no path through connecting leaks the socket or
      closes it twice; control messages read back as they were written, and walking over
      control data of any bytes ends.
    - Memory (RawBuf.v): the raw reads stay within the blocks of the vectors, use none that
      is freed and show no uninitialised byte; but the slices are made over bytes that
      nobody has written, against the contract of [slice::from_raw_parts_mut].
    - Receiving (Recv.v, Inbox.v): the state machine returns exactly the messages that a
      one-shot parser finds in the stream, however it is cut, and complete messages
      are returned; a sent message is received (with Header.v's round trip); the sorting
      loop on it refines the one on a list of messages.
    - End to end (Conn.v, FdLink.v, RoundTrip.v): two connections are a queue of messages,
      and with descriptors each message arrives with its own; a call arrives at [get_call]
      of the callee, and its answer ends the future of the caller, also while other tasks
      call, read and drop in every turn.
    - Correlation (Rpc.v): for every interleaving of calls, arrivals, polls and drops
      each call gets the first answer to its serial; serials are distinct in a cycle.
    - Progress (Progress.v, Wakeup.v): a call, [get_signal] and [get_call] end within as many
      turns of their own as results had come in and one more, whichever task reads the
      message; on one thread no task sleeps while it has a message or there is something
      to read, as long as the replies it sends go out at once; and the two ways in which a
      task does sleep with its answer in its channel: another thread reads between its poll
      and its wait, or another task while it sends a reply.
    - Routing (Hierarchy.v, MatchRule.v, Queues.v): delivery to the deepest handler,
      refinement of a flat longest-prefix table, agreement of [is_match] and [send]; rules
      as a sorted list with the specificity order, delivery to the most specific match;
      queues that hold only what was asked for; and the inputs on which these fail:
      over a nested and an unrelated namespace the rule list can always lose a rule.
    - Operations (Client.v, Queues.v): [insert_sig_match], [remove_sig_match],
      [get_signal], [get_call], [request_name] and the others, while other tasks interfere
      in ways stated as a rely condition; the errors of a program itself are told from those
      of its calls ([own]); [get_signal] gets on without a panic unless what came in panics
      the sorting ([harmless] says what does not); without interference, they succeed.
    - Connecting (Addr.v, Auth.v, Conn.v, Connect.v): addresses are read by a grammar,
      lines are read the same however they arrive, the user id is encoded digit by digit,
      with a peer that answers in lines the dialogue succeeds exactly when an offered
      mechanism is accepted, and a connection comes up exactly when every stage does; and a closed stream is read
      for ever.
    - Shared state (EmptyMap.v): one initialisation, no data race, no deadlock.
    - Data (SigStr.v, ObjPath.v, PathTraits.v, Body.v, Header.v, Message.v): validators
      equal to grammars, values of a type that are valid wherever they come from, atomic
      pushes and reads, round trips, replies addressed to the caller.
    - Headers (HdrFields.v, Builders.v): the crate's encodings of paths and signatures meet
      the laws Header.v relies on, and nothing unchecked comes out of a received field; a
      peer reads from a built message what was set last.
    - Tests (UnitTests.v): every assertion of the tests holds; the order of match rules is
      checked for every shuffled array and every way of sorting it.

    ** Bounds and fuel

    [read_fields] has the array length as fuel: every field uses a byte.  [scan_chars]
    and the other parsers recurse on their input, the loops on sockets on the list of
    answers, [queue_msg] on the messages at hand.  [queue_msg_on] has a round for each
    byte to come and one more, the iterators of Ancillary.v one for each byte of the
    buffer, and both are shown to end within it.  [allocate_idx] goes round at most twice,
    and so does the loop of [Conn::write_next_message].  The loops of [do_external_auth]
    need nine rounds for ids below 10^9 and have fuel for 32.  The executions of Rpc.v and
    Client.v are limited to fewer than 2^32 serials, after which one could be used again
    while its first call still waits; a link (Conn.v), which counts in twos, to fewer than
    2^31 messages.

    ** Not modelled

    System calls ([sendmsg], [recvmsg], [connect], [fcntl], the environment), the tokio
    runtime with its readiness flags, channels and mutexes, and libc's layout of control
    messages are parameters or their documented behaviour; errors of [readable], which only
    a runtime that shuts down returns, and the watch channel of [get_msg], which nobody
    reads, have no part in Wakeup.v.  The allocator's growth is a parameter of RawBuf.v,
    and its failure is left out, as is the capacity of the other buffers.  Left out are
    [Debug], the further [Borrow] and [AsRef] instances that return the same value, accessors
    of single fields, the re-exports of rustbus_core/mod.rs, and the two unit tests whose
    subject is rustbus.  Theorems on [RpcConn] as a whole carry no descriptors (FdLink.v has
    them on [Conn]), and several threads in [get_msg] are covered by the lost wakeup only. *)

From Stdlib Require Export Ascii.
From stdpp Require Export base gmap strings list fin_maps relations.
From Stdlib Require Import Lia.

(** ** Bytes and text

    A Rust [u8] is an [ascii] (eight bits), and a Rust [&str], [String],
    [&[u8]] or [Vec<u8>] is a list of them: a [str] is modelled by its UTF-8
    bytes.  [lit] turns a source literal into that list. *)

Abbreviation u8 := ascii (only parsing).
Abbreviation bytes := (list ascii) (only parsing).

Definition lit (s : string) : bytes := String.list_ascii_of_string s.
Arguments lit s%_string_scope.

(** The numeric value of a byte, and the byte of a number (mod 256). *)
Definition u8_val (c : u8) : N := N_of_ascii c.
Definition u8_of (n : N) : u8 := ascii_of_N n.

(** ** Outcomes: Rust's [Result], with panics made explicit *)

Inductive outcome (E A : Type) : Type :=
| Ok (a : A)
| Err (e : E)
| Panic.
Arguments Ok {E A} a.
Arguments Err {E A} e.
Arguments Panic {E A}.

#[export] Instance outcome_ret {E} : MRet (outcome E) := λ A a, Ok a.
#[export] Instance outcome_bind {E} : MBind (outcome E) := λ A B f m,
  match m with
  | Ok a => f a
  | Err e => Err e
  | Panic => Panic
  end.
#[export] Instance outcome_fmap {E} : FMap (outcome E) := λ A B f m,
  match m with
  | Ok a => Ok (f a)
  | Err e => Err e
  | Panic => Panic
  end.

(** [Result::map_err]. *)
Definition map_err {E F A} (f : E → F) (m : outcome E A) : outcome F A :=
  match m with
  | Ok a => Ok a
  | Err e => Err (f e)
  | Panic => Panic
  end.

(** [Option::ok_or]. *)
Definition ok_or {E A} (o : option A) (e : E) : outcome E A :=
  match o with
  | Some a => Ok a
  | None => Err e
  end.

(** [Option::unwrap] and [Option::expect]. *)
Definition unwrap {E A} (o : option A) : outcome E A :=
  match o with
  | Some a => Ok a
  | None => Panic
  end.

Definition is_ok {E A} (m : outcome E A) : bool :=
  match m with Ok _ => true | _ => false end.

Section outcome.
Context {E A B : Type}.
Implicit Types (m : outcome E A) (f : A → outcome E B).

Lemma bind_Ok_inv m f b : (m ≫= f) = Ok b ↔ ∃ a, m = Ok a ∧ f a = Ok b.
Proof. destruct m; cbn; naive_solver. Qed.

Lemma bind_Ok_r m : (m ≫= λ a, Ok a) = m.
Proof. by destruct m. Qed.

Lemma ok_or_Ok (o : option A) (e : E) a : ok_or o e = Ok a ↔ o = Some a.
Proof. destruct o; cbn; naive_solver. Qed.

Lemma unwrap_Ok (o : option A) a : unwrap (E:=E) o = Ok a ↔ o = Some a.
Proof. destruct o; cbn; naive_solver. Qed.

Lemma is_ok_spec m : is_ok m = true ↔ ∃ a, m = Ok a.
Proof. destruct m; cbn; naive_solver. Qed.
End outcome.

(** ** I/O errors: [std::io::Error] as its kind *)

Inductive ErrorKind :=
| NotFound
| PermissionDenied
| ConnectionRefused
| ConnectionAborted
| BrokenPipe
| WouldBlock
| InvalidInput
| InvalidData
| Interrupted
| Other.

#[export] Instance ErrorKind_eq_dec : EqDecision ErrorKind.
Proof. solve_decision. Defined.

Abbreviation io_result A := (outcome ErrorKind A).

(** ** Machine integers *)

Definition u32_mod : N := 4294967296.
Definition wrap32 (n : N) : N := (n mod u32_mod)%N.

Lemma wrap32_lt n : (wrap32 n < u32_mod)%N.
Proof. apply N.mod_lt. done. Qed.

Lemma wrap32_small n : (n < u32_mod)%N → wrap32 n = n.
Proof. apply N.mod_small. Qed.

(** ** Comparison of texts: [str::cmp] is the byte-wise lexicographic order,
    and [Option]'s derived order puts [None] first. *)

Fixpoint str_cmp (s t : bytes) : comparison :=
  match s, t with
  | [], [] => Eq
  | [], _ :: _ => Lt
  | _ :: _, [] => Gt
  | a :: s', b :: t' =>
      match N.compare (u8_val a) (u8_val b) with
      | Eq => str_cmp s' t'
      | c => c
      end
  end.

Definition option_cmp {A} (cmp : A → A → comparison) (x y : option A) : comparison :=
  match x, y with
  | None, None => Eq
  | None, Some _ => Lt
  | Some _, None => Gt
  | Some a, Some b => cmp a b
  end.

(** [Ordering::then_with]. *)
Definition then_with (c d : comparison) : comparison :=
  match c with Eq => d | _ => c end.

(** What a comparison function of a total order satisfies. *)
Class CmpOrder {A} (cmp : A → A → comparison) : Prop := {
  cmp_eq_iff x y : cmp x y = Eq ↔ x = y;
  cmp_flip x y : cmp y x = CompOpp (cmp x y);
  cmp_lt_trans x y z : cmp x y = Lt → cmp y z = Lt → cmp x z = Lt;
}.

Lemma u8_val_inj a b : u8_val a = u8_val b → a = b.
Proof.
  intros H. rewrite <- (ascii_N_embedding a), <- (ascii_N_embedding b).
  unfold u8_val in H. by rewrite H.
Qed.

Lemma u8_val_lt a : (u8_val a < 256)%N.
Proof. apply N_ascii_bounded. Qed.

#[export] Instance str_cmp_order : CmpOrder str_cmp.
Proof.
  split.
  - induction x as [|a x IH]; destruct y as [|b y]; cbn; try done.
    destruct (N.compare_spec (u8_val a) (u8_val b)) as [Hc|Hc|Hc].
    + rewrite IH. apply u8_val_inj in Hc as ->. naive_solver.
    + split; [done|]. intros [= -> ->]. lia.
    + split; [done|]. intros [= -> ->]. lia.
  - induction x as [|a x IH]; destruct y as [|b y]; cbn; try done.
    rewrite (N.compare_antisym (u8_val a) (u8_val b)).
    destruct (u8_val a ?= u8_val b)%N; cbn; auto.
  - induction x as [|a x IH]; destruct y as [|b y], z as [|c z]; cbn; try done.
    destruct (N.compare_spec (u8_val a) (u8_val b)) as [Hab|Hab|Hab],
      (N.compare_spec (u8_val b) (u8_val c)) as [Hbc|Hbc|Hbc]; try done;
      destruct (N.compare_spec (u8_val a) (u8_val c)); try done; try lia; eauto.
Qed.

#[export] Instance option_cmp_order {A} (cmp : A → A → comparison) :
  CmpOrder cmp → CmpOrder (option_cmp cmp).
Proof.
  intros Hc. split.
  - intros [x|] [y|]; cbn; try done. rewrite cmp_eq_iff. naive_solver.
  - intros [x|] [y|]; cbn; try done. apply cmp_flip.
  - intros [x|] [y|] [z|]; cbn; try done. apply cmp_lt_trans.
Qed.

(** ** Splitting on a separator: [slice::split] and [str::split] *)

Section split.
Context {A : Type} `{EqDecision A}.

Fixpoint split_on (sep : A) (l : list A) : list (list A) :=
  match l with
  | [] => [[]]
  | x :: l' =>
      if decide (x = sep) then [] :: split_on sep l'
      else match split_on sep l' with
           | [] => [[x]]
           | w :: ws => (x :: w) :: ws
           end
  end.

Lemma split_on_not_nil sep l : split_on sep l ≠ [].
Proof. destruct l; cbn; [done|]. repeat case_match; done. Qed.

(** Text without the separator is one piece. *)
Lemma split_on_no_sep sep l : sep ∉ l → split_on sep l = [l].
Proof.
  induction l as [|x l IH]; cbn; [done|].
  intros [? ?]%not_elem_of_cons. rewrite decide_False by done.
  by rewrite IH.
Qed.

Lemma split_on_app_sep sep w l :
  sep ∉ w → split_on sep (w ++ sep :: l) = w :: split_on sep l.
Proof.
  induction w as [|x w IH]; cbn.
  - intros _. by rewrite decide_True.
  - intros [? ?]%not_elem_of_cons. rewrite decide_False by done.
    by rewrite IH.
Qed.

(** [slice::join] with a one-element separator. *)
Fixpoint join (sep : A) (ws : list (list A)) : list A :=
  match ws with
  | [] => []
  | [w] => w
  | w :: ws' => w ++ sep :: join sep ws'
  end.

Lemma join_cons sep w ws :
  ws ≠ [] → join sep (w :: ws) = w ++ sep :: join sep ws.
Proof. by destruct ws. Qed.

Lemma split_join sep ws :
  ws ≠ [] → Forall (λ w, sep ∉ w) ws → split_on sep (join sep ws) = ws.
Proof.
  intros Hne Hws. induction Hws as [|w ws Hw Hws IH]; [done|].
  destruct ws as [|w' ws]; [by apply split_on_no_sep|].
  rewrite join_cons, split_on_app_sep by done. by rewrite IH.
Qed.

Lemma join_split sep l : join sep (split_on sep l) = l.
Proof.
  induction l as [|x l IH]; [done|]. cbn [split_on]. case_decide as Hx.
  - rewrite join_cons by apply split_on_not_nil. by rewrite IH, Hx.
  - pose proof (split_on_not_nil sep l).
    destruct (split_on sep l) as [|w [|w' ws]] eqn:E; [done|cbn in *; congruence|].
    rewrite join_cons in IH |- * by done. cbn [app]. by rewrite IH.
Qed.

Lemma join_app sep ws vs :
  ws ≠ [] → vs ≠ [] → join sep (ws ++ vs) = join sep ws ++ sep :: join sep vs.
Proof.
  induction ws as [|w [|w' ws] IH]; intros Hws Hvs; [done| |].
  - cbn [app]. by rewrite join_cons.
  - change ((w :: w' :: ws) ++ vs) with (w :: ((w' :: ws) ++ vs)).
    rewrite (join_cons sep w (w' :: ws)), (join_cons sep w ((w' :: ws) ++ vs)) by done.
    rewrite IH by done. by rewrite <- app_assoc.
Qed.

Lemma split_on_pieces sep l : Forall (λ w, sep ∉ w) (split_on sep l).
Proof.
  induction l as [|x l IH]; cbn; [repeat constructor; apply not_elem_of_nil|].
  case_decide; [constructor; [apply not_elem_of_nil|done]|].
  case_match; [repeat constructor; set_solver|].
  inversion IH; subst. constructor; [set_solver|done].
Qed.
End split.

(** Concatenation of a list of texts. *)
Lemma mjoin_app {A} (ls ks : list (list A)) : mjoin (ls ++ ks) = mjoin ls ++ mjoin ks.
Proof.
  induction ls as [|l ls IH]; [done|].
  change (l ++ mjoin (ls ++ ks) = (l ++ mjoin ls) ++ mjoin ks). by rewrite IH, app_assoc.
Qed.

(** A separator ends the text before it in one way. *)
Lemma sep_app_inj {A} (sep : A) u v x y :
  sep ∉ u → sep ∉ v → u ++ sep :: x = v ++ sep :: y → u = v ∧ x = y.
Proof.
  revert v. induction u as [|a u IH]; intros [|b v] Hu Hv; cbn.
  - by intros [= ->].
  - intros [= -> _]. set_solver.
  - intros [= -> _]. set_solver.
  - intros [= -> Heq]. destruct (IH v) as [-> ->]; set_solver.
Qed.

(** ** UTF-8: [str::from_utf8] accepts exactly the well-formed byte strings *)

Fixpoint utf8_valid_fuel (fuel : nat) (l : bytes) : bool :=
  let cont b := (128 <=? u8_val b)%N && (u8_val b <? 192)%N in
  let within lo b hi := (lo <=? u8_val b)%N && (u8_val b <=? hi)%N in
  match fuel, l with
  | O, _ => false
  | _, [] => true
  | S fuel', b0 :: l0 =>
      if (u8_val b0 <? 128)%N then utf8_valid_fuel fuel' l0 else
      if within 194 b0 223 then
        match l0 with
        | b1 :: l1 => cont b1 && utf8_valid_fuel fuel' l1
        | _ => false
        end else
      if within 224 b0 239 then
        match l0 with
        | b1 :: b2 :: l2 =>
            within (if u8_val b0 =? 224 then 160 else 128) b1
                   (if u8_val b0 =? 237 then 159 else 191) && cont b2
            && utf8_valid_fuel fuel' l2
        | _ => false
        end else
      if within 240 b0 244 then
        match l0 with
        | b1 :: b2 :: b3 :: l3 =>
            within (if u8_val b0 =? 240 then 144 else 128) b1
                   (if u8_val b0 =? 244 then 143 else 191) && cont b2 && cont b3
            && utf8_valid_fuel fuel' l3
        | _ => false
        end
      else false
  end%N.

(** Each step consumes at least one byte, so the length is enough fuel. *)
Definition utf8_valid (l : bytes) : bool := utf8_valid_fuel (S (length l)) l.

Lemma utf8_valid_ascii l : Forall (λ b, (u8_val b < 128)%N) l → utf8_valid l = true.
Proof.
  unfold utf8_valid. induction 1 as [|b l Hb Hl IH]; [done|].
  cbn [length utf8_valid_fuel]. apply N.ltb_lt in Hb. by rewrite Hb.
Qed.

(** ** Hints and tactics shared by the components *)

Create HintDb rustbus.
#[export] Hint Resolve wrap32_lt u8_val_lt split_on_not_nil split_on_pieces : rustbus.

(** Inverts every [_ = Ok _] hypothesis built from binds. *)
Ltac outcome_inv :=
  repeat match goal with
  | H : context [mbind _ _ = Ok _] |- _ => rewrite bind_Ok_inv in H
  | H : ok_or _ _ = Ok _ |- _ => rewrite ok_or_Ok in H
  | H : unwrap _ = Ok _ |- _ => rewrite unwrap_Ok in H
  | H : ∃ _, _ |- _ => destruct H
  | H : _ ∧ _ |- _ => destruct H
  | H : mret _ = Ok _ |- _ => cbv [mret outcome_ret] in H
  | H : Ok _ = Ok _ |- _ => injection H as H
  end; subst; try discriminate.
