(* ===== verification/Utils.v ===== *)
(** * utils.rs: the numeric helpers of the wire code

    [parse_u32] reads a 32-bit integer of either byte order and [align_num]
    rounds an offset up to an alignment (src/utils.rs).  [insert_u32]'s
    counterpart, the encoding of a 32-bit integer, is [u32_bytes], the inverse
    that the round trips of the header code use. *)

From S2P Require Import Prelude.
From Stdlib Require Import Lia.

#[local] Ltac Zify.zify_post_hook ::= Z.to_euclidean_division_equations.

(** [rustbus::ByteOrder]. *)
Inductive ByteOrder := LittleEndian | BigEndian.

#[export] Instance ByteOrder_eq_dec : EqDecision ByteOrder.
Proof. solve_decision. Defined.

(** [u32::from_le_bytes], on the four bytes in the order given. *)
Definition from_le_bytes (b0 b1 b2 b3 : u8) : N :=
  (u8_val b0 + 256 * (u8_val b1 + 256 * (u8_val b2 + 256 * u8_val b3)))%N.

(** [parse_u32]: [try_into().unwrap()] panics unless there are four bytes. *)
Definition parse_u32 (number : bytes) (bo : ByteOrder) : outcome unit N :=
  match number with
  | [b0; b1; b2; b3] =>
      match bo with
      | BigEndian => Ok (from_le_bytes b3 b2 b1 b0)
      | LittleEndian => Ok (from_le_bytes b0 b1 b2 b3)
      end
  | _ => Panic
  end.

(** [u32::to_le_bytes] / [to_be_bytes]. *)
Definition u32_bytes (bo : ByteOrder) (n : N) : bytes :=
  let l := [u8_of (n mod 256); u8_of (n / 256 mod 256);
            u8_of (n / 65536 mod 256); u8_of (n / 16777216 mod 256)]%N in
  match bo with LittleEndian => l | BigEndian => reverse l end.

(** [align_num] at [usize]. *)
Definition align_num (num alignment : nat) : nat :=
  (alignment - num mod alignment) mod alignment + num.

#[global] Arguments align_num : simpl never.

Section utils.
Implicit Types (a : nat) (l : bytes) (bo : ByteOrder).

Lemma parse_u32_total l bo : length l = 4 → ∃ n : N, parse_u32 l bo = Ok n.
Proof. destruct l as [|? [|? [|? [|? [|]]]]]; try done. destruct bo; cbn; eauto. Qed.

Lemma parse_u32_bound l bo (n : N) : parse_u32 l bo = Ok n → (n < u32_mod)%N.
Proof.
  destruct l as [|b0 [|b1 [|b2 [|b3 [|]]]]]; try done.
  pose proof (u8_val_lt b0); pose proof (u8_val_lt b1);
    pose proof (u8_val_lt b2); pose proof (u8_val_lt b3).
  destruct bo; cbn; intros [= <-]; unfold from_le_bytes, u32_mod; lia.
Qed.

Lemma u8_val_of m : (m < 256)%N → u8_val (u8_of m) = m.
Proof. apply N_ascii_embedding. Qed.

(** decoding inverts encoding on the whole 32-bit range. *)
Lemma parse_u32_bytes bo (m : N) : (m < u32_mod)%N → parse_u32 (u32_bytes bo m) bo = Ok m.
Proof.
  intros Hm. unfold u32_mod in Hm.
  assert (∀ x y z w : N, x = (m mod 256)%N → y = (m / 256 mod 256)%N →
    z = (m / 65536 mod 256)%N → w = (m / 16777216 mod 256)%N →
    x + 256 * (y + 256 * (z + 256 * w)) = m)%N as Hk.
  { intros x y z w -> -> -> ->.
    replace (m / 65536)%N with (m / 256 / 256)%N by (rewrite N.Div0.div_div; done).
    replace (m / 16777216)%N with (m / 256 / 256 / 256)%N
      by (rewrite !N.Div0.div_div; done).
    lia. }
  destruct bo; cbn -[u8_of N.div N.modulo]; f_equal; unfold from_le_bytes;
    rewrite !u8_val_of by (apply N.mod_lt; done); by apply Hk.
Qed.

Lemma length_u32_bytes bo (m : N) : length (u32_bytes bo m) = 4.
Proof. by destruct bo. Qed.

Lemma align_num_ge (n : nat) a : n ≤ align_num n a.
Proof. unfold align_num. lia. Qed.

(** [align_num] is the least multiple of the alignment above its argument. *)
Lemma align_num_mod (n : nat) a : a ≠ 0 → align_num n a mod a = 0.
Proof.
  intros Ha. unfold align_num.
  pose proof (Nat.mod_upper_bound n a Ha) as Hub.
  pose proof (Nat.div_mod_eq n a) as Hdm.
  destruct (decide (n mod a = 0)) as [H0|H0].
  - rewrite H0, Nat.sub_0_r, Nat.Div0.mod_same. done.
  - rewrite (Nat.mod_small (a - n mod a)) by lia.
    replace (a - n mod a + n) with ((n / a + 1) * a) by nia.
    apply Nat.Div0.mod_mul.
Qed.

Lemma align_num_lt (n : nat) a : a ≠ 0 → align_num n a < n + a.
Proof.
  intros Ha. unfold align_num.
  pose proof (Nat.mod_upper_bound (a - n mod a) a Ha). lia.
Qed.

Lemma align_num_id (n : nat) a : a ≠ 0 → n mod a = 0 → align_num n a = n.
Proof.
  intros Ha H0. unfold align_num. rewrite H0, Nat.sub_0_r, Nat.Div0.mod_same. done.
Qed.
End utils.

#[export] Hint Resolve align_num_ge parse_u32_bound length_u32_bytes : rustbus.
