(* ===== verification/Futures.v ===== *)
(** * utils.rs: futures

    [poll_once] asks a future for its result without waiting; [EitherFut] is one of two
    futures.  A future is a state that is polled with a waker in a world that changes
    between two polls, and is awaited by polling it until it is ready.  [get_msg] first
    polls the future of its own message once and awaits what is left of it only then, which
    loses no result; how long it can then have to wait is the subject of Wakeup.v. *)

From S2P Require Import Prelude.

Inductive Poll (O : Type) := Ready (o : O) | Pending.
#[global] Arguments Ready {_} _.
#[global] Arguments Pending {_}.

(** [noop_waker_ref()], or the waker of a task. *)
Inductive Waker := Noop | Task (id : nat).

(** [Future::poll], in a world [W]. *)
Class Future (W O F : Type) := poll : Waker → F → W → Poll O * F * W.

(** [futures::future::Either] as a value. *)
Inductive Either (L R : Type) := EitherLeft (l : L) | EitherRight (r : R).
#[global] Arguments EitherLeft {_ _} _.
#[global] Arguments EitherRight {_ _} _.

Inductive EitherFut (L R : Type) := FutLeft (l : L) | FutRight (r : R).
#[global] Arguments FutLeft {_ _} _.
#[global] Arguments FutRight {_ _} _.

Section utils.
Context {W O : Type}.

Definition poll_once `{Future W O F} (fut : F) (w : W) : Either O F * W :=
  match poll Noop fut w with
  | (Ready o, _, w) => (EitherLeft o, w)
  | (Pending, fut, w) => (EitherRight fut, w)
  end.

#[export] Instance either_poll `{Future W O L} `{Future W O R} : Future W O (EitherFut L R) :=
  λ cx self w,
    match self with
    | FutLeft fut => let '(p, fut, w) := poll cx fut w in (p, FutLeft fut, w)
    | FutRight fut => let '(p, fut, w) := poll cx fut w in (p, FutRight fut, w)
    end.

(** [.await] of task [id]: what happens between the polls is a list of changes. *)
Fixpoint await `{Future W O F} (id : nat) (fut : F) (w : W) (changes : list (W → W))
    : Either (O * W) (F * W) :=
  match poll (Task id) fut w with
  | (Ready o, _, w) => EitherLeft (o, w)
  | (Pending, fut, w) =>
      match changes with
      | [] => EitherRight (fut, w)
      | change :: changes => await id fut (change w) changes
      end
  end.

(** [match poll_once(fut) { Left(res) => return res, Right(f) => f }], and [f.await] after
    the first change. *)
Definition once_await `{Future W O F} (id : nat) (fut : F) (w : W) (changes : list (W → W))
    : Either (O * W) (F * W) :=
  match poll_once fut w with
  | (EitherLeft o, w) => EitherLeft (o, w)
  | (EitherRight fut, w) =>
      match changes with
      | [] => EitherRight (fut, w)
      | change :: changes => await id fut (change w) changes
      end
  end.

(** The result, and the world it came in. *)
Definition result_of {F} (r : Either (O * W) (F * W)) : option (O * W) :=
  match r with EitherLeft res => Some res | EitherRight _ => None end.

(** An [EitherFut] is the future it holds, polled as often and with the same waker. *)
Lemma await_either_left `{Future W O L} `{Future W O R} id (fut : L) w changes :
  await id (FutLeft (R:=R) fut) w changes =
    match await id fut w changes with
    | EitherLeft res => EitherLeft res
    | EitherRight (fut, w) => EitherRight (FutLeft fut, w)
    end.
Proof.
  revert fut w. induction changes as [|c changes IH]; intros fut w; cbn;
    destruct (poll (Task id) fut w) as [[[o|] fut'] w']; done.
Qed.

Lemma await_either_right `{Future W O L} `{Future W O R} id (fut : R) w changes :
  await id (FutRight (L:=L) fut) w changes =
    match await id fut w changes with
    | EitherLeft res => EitherLeft res
    | EitherRight (fut, w) => EitherRight (FutRight fut, w)
    end.
Proof.
  revert fut w. induction changes as [|c changes IH]; intros fut w; cbn;
    destruct (poll (Task id) fut w) as [[[o|] fut'] w']; done.
Qed.

(** A future that differs in nothing but the waker it remembers: [same] is kept by polls,
    whose answer does not depend on the waker. *)
Class WakerFree `{Future W O F} (same : relation F) : Prop := {
  same_refl :: Reflexive same;
  same_poll cx cx' f g w : same f g →
    let '(p, f', w1) := poll cx f w in
    let '(q, g', w2) := poll cx' g w in p = q ∧ same f' g' ∧ w1 = w2;
}.

Lemma await_same `{Future W O F} same `{!WakerFree same} id f g w changes :
  same f g → result_of (await id f w changes) = result_of (await id g w changes).
Proof.
  revert f g w. induction changes as [|c changes IH]; intros f g w Hs; cbn;
    pose proof (same_poll (Task id) (Task id) f g w Hs) as Hp;
    destruct (poll _ f w) as [[[o|] f'] w1], (poll _ g w) as [[[o'|] g'] w2];
    destruct Hp as (Hp & Hs' & ->); try done; [by injection Hp as ->..|by apply IH].
Qed.

(** Polling once and awaiting the rest finishes when awaiting would, with the same result. *)
Lemma once_await_spec `{Future W O F} same `{!WakerFree same} id f w changes :
  result_of (once_await id f w changes) = result_of (await id f w changes).
Proof.
  unfold once_await, poll_once. destruct changes as [|c changes]; cbn;
    pose proof (same_poll Noop (Task id) f f w (same_refl f)) as Hp;
    destruct (poll Noop f w) as [[[o|] f'] w1], (poll (Task id) f w) as [[[o'|] g'] w2];
    destruct Hp as (Hp & Hs' & ->); try done; [by injection Hp as ->..|by apply (await_same same)].
Qed.
End utils.

(** ** A value that arrives

    The receiving end of a one-shot channel: the world is the value once it is sent, the
    future remembers whom to wake. *)

#[local] Instance arrival_poll : Future (option nat) nat (option Waker) :=
  λ cx self w, match w with Some v => (Ready v, None, w) | None => (Pending, Some cx, w) end.

#[local] Instance arrival_waker_free : WakerFree (F:=option Waker) (λ _ _, True).
Proof. split; [done|]. intros cx cx' f g [v|] _; by cbn. Qed.

Lemma poll_once_is_right : poll_once (F:=option Waker) None None = (EitherRight (Some Noop), None).
Proof. reflexivity. Qed.

(** Nobody would be woken by [Noop]: the waker of the task is there once it awaits. *)
Example awaited_registers :
  once_await (F:=option Waker) 4 None None [id] = EitherRight (Some (Task 4), None).
Proof. reflexivity. Qed.

Example once_await_arrives :
  result_of (once_await (F:=option Waker) 4 None None [id; λ _, Some 7]) = Some (7, Some 7).
Proof.
  rewrite (once_await_spec (λ _ _, True)). reflexivity.
Qed.
