(* ===== verification/Addr.v ===== *)
(** * conn/addr.rs: bus addresses

    An address is the path of a socket, a TCP address, or the name of an abstract socket.
    The session bus is found through the text of an environment variable, a family, a
    colon and a comma-separated list of [name=value] pairs.

    The environment and the file system are parameters: the value of the variable and
    the answers of [Path::exists]. *)

From S2P Require Import Prelude Utils.

Inductive DBusAddr (P S B : Type) : Type :=
| Path (p : P)
| Tcp (s : S)
| Abstract (b : B).
Arguments Path {P S B} p.
Arguments Tcp {P S B} s.
Arguments Abstract {P S B} b.

Definition unix_path {P} (path : P) : DBusAddr P bytes bytes := Path path.
Definition tcp_addr {S} (s : S) : DBusAddr bytes S bytes := Tcp s.
Definition unx_abstract {B} (b : B) : DBusAddr bytes bytes B := Abstract b.

Definition DBUS_SYS_PATH : bytes := lit "/run/dbus/system_bus_socket".
Definition DBUS_SESS_ENV : bytes := lit "DBUS_SESSION_BUS_ADDRESS".

Abbreviation text_addr := (DBusAddr bytes bytes bytes).

Definition default_session_err : ErrorKind := InvalidData.

(** The closure of [filter_map]: a pair has exactly one [=]. *)
Definition split_pair (pair : bytes) : option (bytes * bytes) :=
  match split_on "="%char pair with
  | [name; data] => Some (name, data)
  | _ => None
  end.

(** Collected into a [HashMap], the last pair of a name stays. *)
Definition data_pairs (data : bytes) : gmap bytes bytes :=
  foldl (λ m nd, <[nd.1 := nd.2]> m) ∅ (omap split_pair (split_on ","%char data)).

Section bus.
Context (exists_ : bytes → bool).

Definition get_system_bus_addr : io_result text_addr :=
  if exists_ DBUS_SYS_PATH then Ok (Path DBUS_SYS_PATH) else Err NotFound.

Definition unix_addr (pairs : gmap bytes bytes) : io_result text_addr :=
  match pairs !! lit "abstract" with
  | Some abs => Ok (Abstract abs)
  | None =>
      match pairs !! lit "path" with
      | Some path => if exists_ path then Ok (Path path) else Err NotFound
      | None => Err default_session_err
      end
  end.

(** The closure [addr]: [from_utf8] on both values, then [host:port]. *)
Definition host_port (pairs : gmap bytes bytes) : option bytes :=
  let from_utf8 l := if utf8_valid l then Some l else None in
  host_data ← pairs !! lit "host"; host_str ← from_utf8 host_data;
  port_data ← pairs !! lit "port"; port_str ← from_utf8 port_data;
  mret (host_str ++ [":"%char] ++ port_str).

Definition get_session_bus_addr (env : option bytes) : io_result text_addr :=
  bytes ← ok_or env NotFound;
  family ← unwrap (head (split_on ":"%char bytes));
  if decide (length family = length bytes) then Err default_session_err else
  if decide (S (length family) ≤ length bytes) then
    let pairs := data_pairs (drop (S (length family)) bytes) in
    if decide (family = lit "unix") then unix_addr pairs
    else if decide (family = lit "tcp") then
      addr ← ok_or (host_port pairs) default_session_err; mret (Tcp addr)
    else Err default_session_err
  else Panic.
End bus.

(** ** The pairs of an address text *)

(** The text of a pair. *)
Definition pair_text (nd : bytes * bytes) : bytes := nd.1 ++ "="%char :: nd.2.

(** A text that can stand for a name or a value: the code has no escapes. *)
Definition plain (t : bytes) : Prop := "="%char ∉ t ∧ ","%char ∉ t.

(** The data gives [v] to [name]: a piece [name=v] comes after which no piece of this form
    with the same name comes. *)
Definition is_pair (name p : bytes) : Prop := ∃ v, "="%char ∉ v ∧ p = pair_text (name, v).

Definition last_with {A} (P : A → Prop) (x : A) (l : list A) : Prop :=
  ∃ before after, l = before ++ x :: after ∧ Forall (λ y, ¬ P y) after.

Definition assigns (data name v : bytes) : Prop :=
  ∃ pieces, pieces ≠ [] ∧ data = join ","%char pieces ∧ Forall (λ p, ","%char ∉ p) pieces ∧
    plain name ∧ plain v ∧ last_with (is_pair name) (pair_text (name, v)) pieces.

Lemma last_with_snoc {A} (P : A → Prop) (x w : A) l :
  P x → last_with P x (l ++ [w]) ↔ w = x ∨ (¬ P w ∧ last_with P x l).
Proof.
  intros Hx. split.
  - intros (before & after & Heq & Hlast). destruct after as [|a after _] using rev_ind.
    + apply app_inj_tail in Heq as [_ ->]. by left.
    + rewrite app_comm_cons, app_assoc in Heq. apply app_inj_tail in Heq as [-> ->].
      rewrite Forall_app, Forall_singleton in Hlast. destruct Hlast as [? Ha].
      right. split; [exact Ha|].
      exists before, after. done.
  - intros [->|(Hw & before & after & -> & Hlast)]; [by exists l, []|].
    exists before, (after ++ [w]). rewrite <- app_assoc. split; [done|].
    by rewrite Forall_app, Forall_singleton.
Qed.

Lemma split_pair_Some p name v :
  split_pair p = Some (name, v) ↔ p = pair_text (name, v) ∧ "="%char ∉ name ∧ "="%char ∉ v.
Proof.
  unfold split_pair, pair_text. split.
  - intros H. pose proof (join_split "="%char p) as Hj. pose proof (split_on_pieces "="%char p) as Hf.
    destruct (split_on "="%char p) as [|n [|d [|? ?]]]; [done..| |done].
    injection H as -> ->. rewrite !Forall_cons in Hf. split; [|naive_solver].
    rewrite <- Hj. rewrite join_cons by done. done.
  - intros (-> & Hn & Hv). by rewrite split_on_app_sep, (split_on_no_sep _ v).
Qed.

Lemma pair_text_inj n v n' v' :
  "="%char ∉ n → "="%char ∉ n' → pair_text (n, v) = pair_text (n', v') → n = n' ∧ v = v'.
Proof. apply sep_app_inj. Qed.

(** Folding the pieces into a map leaves the last value of a name. *)
Lemma pieces_lookup ws name v :
  "="%char ∉ name → "="%char ∉ v →
  foldl (λ m nd, <[nd.1 := nd.2]> m) (∅ : gmap bytes bytes) (omap split_pair ws) !! name = Some v ↔
  last_with (is_pair name) (pair_text (name, v)) ws.
Proof.
  intros Hn Hv. induction ws as [|w ws IH] using rev_ind.
  { split; [done|]. by intros ([|? ?] & after & ? & _). }
  rewrite omap_app, foldl_app, last_with_snoc by by exists v. cbn.
  destruct (split_pair w) as [[n d]|] eqn:Hw; cbn.
  - apply split_pair_Some in Hw as (-> & Hn' & Hd). rewrite lookup_insert. case_decide as Heq.
    + subst n. split; [intros [= ->]; by left|].
      intros [[_ ->]%pair_text_inj|[Hno _]]; [done..|]. destruct Hno. by exists d.
    + rewrite IH. split; [|intros [[? _]%pair_text_inj|[_ ?]]; done].
      intros Hl. right. split; [|done]. by intros (v' & _ & [-> _]%pair_text_inj).
  - assert (∀ v', "="%char ∉ v' → w ≠ pair_text (name, v')) as Hno.
    { intros v' Hv' ->. by rewrite (proj2 (split_pair_Some _ name v')) in Hw. }
    rewrite IH. split; [intros Hl; right; split; [intros (v' & ? & ?); by eapply Hno|done]|].
    intros [->|[_ ?]]; [by destruct (Hno v Hv)|done].
Qed.

Lemma piece_plain name v pieces :
  Forall (λ p, ","%char ∉ p) pieces → last_with (is_pair name) (pair_text (name, v)) pieces →
  ","%char ∉ name ∧ ","%char ∉ v.
Proof.
  intros Hp (before & after & -> & _). apply Forall_app in Hp as [_ [Hp _]%Forall_cons].
  unfold pair_text in Hp. cbn in Hp. set_solver.
Qed.

Lemma data_pairs_lookup data name v : data_pairs data !! name = Some v ↔ assigns data name v.
Proof.
  unfold data_pairs, assigns. split.
  - intros Hl. assert ("="%char ∉ name ∧ "="%char ∉ v) as [Hn Hv].
    { revert Hl. generalize (split_on ","%char data). intros ws.
      induction ws as [|w ws IH] using rev_ind; [done|]. rewrite omap_app, foldl_app. cbn.
      destruct (split_pair w) as [[n d]|] eqn:Hw; cbn; [|done].
      apply split_pair_Some in Hw as (_ & ? & ?). intros [[-> ->]|[_ ?]]%lookup_insert_Some; auto. }
    apply pieces_lookup in Hl; [|done..].
    pose proof (split_on_pieces ","%char data) as Hp.
    destruct (piece_plain _ _ _ Hp Hl). exists (split_on ","%char data).
    split_and!; [apply split_on_not_nil|by rewrite join_split|done..].
  - intros (pieces & Hne & -> & Hp & [Hn _] & [Hv _] & Hl). rewrite split_join by done.
    by apply pieces_lookup.
Qed.

(** ** The session address *)

Section session.
Context (exists_ : bytes → bool).

(** The addresses a text stands for. *)
Inductive session_addr (text : bytes) : text_addr → Prop :=
| session_abstract data abs :
    text = lit "unix" ++ ":"%char :: data → assigns data (lit "abstract") abs →
    session_addr text (Abstract abs)
| session_path data path :
    text = lit "unix" ++ ":"%char :: data → (∀ abs, ¬ assigns data (lit "abstract") abs) →
    assigns data (lit "path") path → exists_ path = true → session_addr text (Path path)
| session_tcp data host port :
    text = lit "tcp" ++ ":"%char :: data →
    assigns data (lit "host") host → utf8_valid host = true →
    assigns data (lit "port") port → utf8_valid port = true →
    session_addr text (Tcp (host ++ [":"%char] ++ port)).

(** The socket of the text is not there. *)
Definition socket_missing (text : bytes) : Prop :=
  ∃ data path, text = lit "unix" ++ ":"%char :: data ∧
    (∀ abs, ¬ assigns data (lit "abstract") abs) ∧ assigns data (lit "path") path ∧
    exists_ path = false.

Lemma not_assigned data name : data_pairs data !! name = None ↔ ∀ v, ¬ assigns data name v.
Proof.
  split.
  - intros Hn v Hv%data_pairs_lookup. congruence.
  - intros Hn. destruct (data_pairs data !! name) as [v|] eqn:Hl; [|done].
    by apply data_pairs_lookup, Hn in Hl.
Qed.

(** The text with its family taken off. *)
Lemma get_session_bus_addr_text family data :
  ":"%char ∉ family →
  get_session_bus_addr exists_ (Some (family ++ ":"%char :: data)) =
    let pairs := data_pairs data in
    if decide (family = lit "unix") then unix_addr exists_ pairs
    else if decide (family = lit "tcp") then
      addr ← ok_or (host_port pairs) default_session_err; mret (Tcp addr)
    else Err default_session_err.
Proof.
  intros Hf. unfold get_session_bus_addr. cbn [ok_or mbind outcome_bind].
  rewrite split_on_app_sep by done. cbn [head unwrap mbind outcome_bind].
  rewrite length_app. cbn [length]. destruct (decide _) as [|_]; [lia|].
  destruct (decide _) as [_|]; [|lia].
  replace (drop (S (length family)) (family ++ ":"%char :: data)) with data; [done|].
  rewrite drop_app_ge by lia. by replace (S (length family) - length family) with 1 by lia.
Qed.

Lemma get_session_bus_addr_no_colon text :
  ":"%char ∉ text → get_session_bus_addr exists_ (Some text) = Err InvalidData.
Proof.
  intros Ht. unfold get_session_bus_addr. cbn [ok_or mbind outcome_bind].
  rewrite split_on_no_sep by done. cbn [head unwrap mbind outcome_bind]. by destruct (decide _).
Qed.

Lemma host_port_Some data s :
  host_port (data_pairs data) = Some s ↔
  ∃ host port, s = host ++ [":"%char] ++ port ∧ assigns data (lit "host") host ∧
    utf8_valid host = true ∧ assigns data (lit "port") port ∧ utf8_valid port = true.
Proof.
  unfold host_port. split.
  - destruct (data_pairs data !! lit "host") as [h|] eqn:Hh; cbn [mbind option_bind]; [|done].
    destruct (utf8_valid h) eqn:Hu; cbn [mbind option_bind]; [|done].
    destruct (data_pairs data !! lit "port") as [p|] eqn:Hp; cbn [mbind option_bind]; [|done].
    destruct (utf8_valid p) eqn:Hv; cbn [mbind option_bind]; [|done].
    intros [= <-]. exists h, p. rewrite <- !data_pairs_lookup. auto.
  - intros (h & p & -> & Hh & Hu & Hp & Hv). apply data_pairs_lookup in Hh, Hp.
    rewrite Hh. cbn [mbind option_bind]. rewrite Hu. cbn [mbind option_bind].
    rewrite Hp. cbn [mbind option_bind]. by rewrite Hv.
Qed.

Lemma unix_addr_spec data :
  let text := lit "unix" ++ ":"%char :: data in
  match unix_addr exists_ (data_pairs data) with
  | Ok a => session_addr text a
  | Err NotFound => socket_missing text
  | Err e => e = InvalidData ∧ ¬ socket_missing text ∧ ∀ a, ¬ session_addr text a
  | Panic => False
  end.
Proof.
  unfold unix_addr. destruct (data_pairs data !! lit "abstract") as [abs|] eqn:Ha.
  - apply data_pairs_lookup in Ha. by econstructor.
  - pose proof (proj1 (not_assigned _ _) Ha) as Hna.
    destruct (data_pairs data !! lit "path") as [path|] eqn:Hp.
    + apply data_pairs_lookup in Hp.
      destruct (exists_ path) eqn:He; [by eapply session_path|by exists data, path].
    + pose proof (proj1 (not_assigned _ _) Hp) as Hnp. split_and!; [done| |].
      * intros (data' & path & [= <-] & _ & Hpath & _). by apply (Hnp path).
      * intros a Hs. inversion Hs as [d abs Hd Habs|d path Hd _ Hpath _|d h p Hd];
          [injection Hd as <-; by apply (Hna abs)|injection Hd as <-; by apply (Hnp path)|done].
Qed.

(** The three kinds of text, and the result on each. *)
Inductive session_verdict (text : bytes) : io_result text_addr → Prop :=
| verdict_ok a : session_addr text a → ¬ socket_missing text →
    (∀ a', session_addr text a' → a' = a) → session_verdict text (Ok a)
| verdict_missing : socket_missing text → (∀ a, ¬ session_addr text a) →
    session_verdict text (Err NotFound)
| verdict_bad : ¬ socket_missing text → (∀ a, ¬ session_addr text a) →
    session_verdict text (Err InvalidData).

Lemma assigns_unique data name v v' : assigns data name v → assigns data name v' → v = v'.
Proof. rewrite <- !data_pairs_lookup. congruence. Qed.

Lemma session_addr_unique text a b : session_addr text a → session_addr text b → a = b.
Proof.
  intros [d abs -> Ha|d p -> Hna Hp He|d h p -> Hh _ Hp _] Hb;
    inversion Hb as [d' abs' Hd Ha'|d' p' Hd Hna' Hp' _|d' h' p' Hd Hh' _ Hp' _];
    try discriminate Hd; injection Hd as <-; try by naive_solver.
  - by rewrite (assigns_unique _ _ _ _ Ha Ha').
  - by rewrite (assigns_unique _ _ _ _ Hp Hp').
  - by rewrite (assigns_unique _ _ _ _ Hp Hp'), (assigns_unique _ _ _ _ Hh Hh').
Qed.

Lemma session_addr_present text a : session_addr text a → ¬ socket_missing text.
Proof.
  intros [d abs -> Ha|d p -> Hna Hp He|d h p -> _ _ _ _] (d' & p' & Hd & Hna' & Hp' & He');
    try discriminate Hd; injection Hd as <-; [by apply (Hna' abs)|].
  rewrite (assigns_unique _ _ _ _ Hp Hp') in He. congruence.
Qed.

(** Neither family has a colon in it. *)
Lemma family_text family data f data' :
  ":"%char ∉ family → f = lit "unix" ∨ f = lit "tcp" →
  family ++ ":"%char :: data = f ++ ":"%char :: data' → family = f ∧ data = data'.
Proof.
  intros Hf Hu. apply sep_app_inj; [done|].
  destruct Hu as [-> | ->]; by apply (bool_decide_unpack _).
Qed.

Lemma session_verdict_ok text :
  session_verdict text (get_session_bus_addr exists_ (Some text)).
Proof.
  assert (∀ a, session_addr text a → session_verdict text (Ok a)) as Hok.
  { intros a Ha. constructor; [done|by eapply session_addr_present|].
    intros a' Ha'. by apply (session_addr_unique text). }
  assert (socket_missing text → session_verdict text (Err NotFound)) as Hmiss.
  { intros Hm. constructor; [done|]. intros a Ha. by apply (session_addr_present text a). }
  destruct (decide (":"%char ∈ text)) as [Hin|Hin].
  - destruct (list_elem_of_split_l _ _ Hin) as (family & data & -> & Hf).
    rewrite get_session_bus_addr_text by done. cbv zeta.
    destruct (decide (family = lit "unix")) as [->|Hnu].
    { pose proof (unix_addr_spec data) as Hu. cbv zeta in Hu.
      destruct (unix_addr _ _) as [a|[]|]; try (by destruct Hu); auto; by destruct Hu as (? & ? & ?);
        constructor. }
    assert (¬ socket_missing (family ++ ":"%char :: data)) as Hnm.
    { intros (d & p & Heq & _). apply family_text in Heq as [? _]; auto. }
    destruct (decide (family = lit "tcp")) as [->|Hnt].
    + destruct (host_port (data_pairs data)) as [s|] eqn:Hs; cbn.
      * apply host_port_Some in Hs as (h & p & -> & ? & ? & ? & ?). apply Hok. by eapply session_tcp.
      * constructor; [done|]. intros a Ha. inversion Ha as [? ? Hd|? ? Hd|d h p Hd Hh Hu Hp Hv]; try discriminate Hd.
        injection Hd as <-. assert (host_port (data_pairs data) = Some (h ++ [":"%char] ++ p)); [|congruence].
        apply host_port_Some. by exists h, p.
    + constructor; [done|]. intros a Ha.
      inversion Ha as [d abs Hd|d p Hd|d h p Hd]; apply family_text in Hd as [? _]; auto.
  - rewrite get_session_bus_addr_no_colon by done. constructor.
    + intros (d & p & -> & _). apply Hin. set_solver.
    + intros a Ha. inversion Ha as [d abs Hd|d p Hd|d h p Hd]; subst; apply Hin; set_solver.
Qed.

(** C36: the session bus is read from the environment by its grammar.  The text gives an
    address exactly when it is a family [unix] with an abstract name, or else the path of
    an existing socket, or a family [tcp] with a host and a port in UTF-8, where the last
    pair of a name counts; a missing variable or socket is [NotFound], every other text
    [InvalidData], and no text makes the function panic. *)
Theorem get_session_bus_addr_grammar env :
  (∀ a, get_session_bus_addr exists_ env = Ok a ↔
     ∃ text, env = Some text ∧ session_addr text a) ∧
  (get_session_bus_addr exists_ env = Err NotFound ↔
     env = None ∨ ∃ text, env = Some text ∧ socket_missing text) ∧
  (get_session_bus_addr exists_ env = Err InvalidData ↔
     ∃ text, env = Some text ∧ ¬ socket_missing text ∧ ∀ a, ¬ session_addr text a) ∧
  get_session_bus_addr exists_ env ≠ Panic.
Proof.
  destruct env as [text|]; [|cbn; naive_solver].
  assert (session_verdict text (get_session_bus_addr exists_ (Some text))) as Hv
    by apply session_verdict_ok.
  destruct Hv as [a Ha Hm Hu|Hm Hn|Hm Hn]; naive_solver.
Qed.
End session.
