(* ===== verification/SigStr.v ===== *)
(** * message_builder/body.rs: [validate_sig_str]

    The signature scanner: a pushdown automaton over the characters of a
    signature with a fixed-capacity stack ([ArrayVec<_, 64>]) and two nesting
    counters.  The scanner is [validate_sig_str]; [single] and [many] are the
    reference grammar of D-Bus signatures (one complete type, a sequence of
    complete types) with the nesting budgets the scanner enforces. *)

From S2P Require Import Prelude.
From Stdlib Require Import Lia.

Inductive SigErr :=
| TooLong
| NonBaseDictKey
| ArraysTooNested
| StructsTooNested
| UnexpectedClosingParenthesis
| UnexpectedClosingBracket
| DictEntryNotInArray
| UnknownCharacter
| UnclosedStruct
| UnclosedDictEntry
| ArrayWithNoType
| TooManyTypesInDictEntry.

Definition MAX_NESTING_DEPTH : nat := 32.
(** The capacity of the scanner's [ArrayVec]. *)
Definition STACK_CAPACITY : nat := 64.

(** [enum Nest]: the [u8] of [DictEntry] never exceeds 2. *)
Inductive Nest :=
| NArray
| NDictEntry (cnt : nat)
| NStruct (non_empty : bool).

(** The scanner's locals; the top of the stack is the head of the list. *)
Record scan := Scan { stack : list Nest; a_cnt : nat; b_cnt : nat }.

Definition scan_init : scan := Scan [] 0 0.

(** [ArrayVec::push] panics when the vector is full. *)
Definition push (x : Nest) (st : list Nest) : outcome SigErr (list Nest) :=
  if decide (length st < STACK_CAPACITY) then Ok (x :: st) else Panic.

(** [cnt -= 1] on a [u8]: underflow is a panic. *)
Definition dec (n : nat) : outcome SigErr nat :=
  match n with O => Panic | S n' => Ok n' end.

(** The characters the [match] distinguishes. *)
Inductive sig_char := ChArray | ChOpenStruct | ChCloseStruct | ChOpenDict
  | ChCloseDict | ChVariant | ChBase | ChUnknown.

Definition classify (c : u8) : sig_char :=
  match c with
  | "a" => ChArray
  | "(" => ChOpenStruct
  | ")" => ChCloseStruct
  | "{" => ChOpenDict
  | "}" => ChCloseDict
  | "v" => ChVariant
  | "y" | "b" | "n" | "q" | "i" | "u" | "x" | "t" | "d" | "s" | "o" | "g"
  | "h" => ChBase
  | _ => ChUnknown
  end%char.

(** [while matches!(stack.last(), Some(&Nest::Array)) { stack.pop(); a_cnt -= 1; }] *)
Fixpoint pop_arrays (st : list Nest) (a : nat) : outcome SigErr (list Nest * nat) :=
  match st with
  | NArray :: st' => a' ← dec a; pop_arrays st' a'
  | _ => Ok (st, a)
  end.

(** [match stack.last_mut()] at the end of the loop body. *)
Definition count_element (st : list Nest) : outcome SigErr (list Nest) :=
  match st with
  | NDictEntry cnt :: st' =>
      if decide (2 ≤ cnt) then Err TooManyTypesInDictEntry
      else Ok (NDictEntry (S cnt) :: st')
  | NStruct _ :: st' => Ok (NStruct true :: st')
  | _ => Ok st
  end.

(** The part of the loop body after the [match c]: a complete type was read. *)
Definition complete (s : scan) : outcome SigErr scan :=
  '(st, a) ← pop_arrays (stack s) (a_cnt s);
  st' ← count_element st;
  mret (Scan st' a (b_cnt s)).

(** One iteration of [for c in sig.chars()]. *)
Definition scan_char (c : u8) (s : scan) : outcome SigErr scan :=
  match classify c, stack s with
  | (ChVariant | ChArray | ChOpenDict | ChOpenStruct), NDictEntry 0 :: _ =>
      Err NonBaseDictKey
  | ChArray, _ =>
      if decide (MAX_NESTING_DEPTH ≤ a_cnt s) then Err ArraysTooNested else
      st ← push NArray (stack s);
      mret (Scan st (S (a_cnt s)) (b_cnt s))
  | ChOpenStruct, _ =>
      if decide (MAX_NESTING_DEPTH ≤ b_cnt s) then Err StructsTooNested else
      st ← push (NStruct false) (stack s);
      mret (Scan st (a_cnt s) (S (b_cnt s)))
  | ChCloseStruct, NStruct true :: st =>
      b ← dec (b_cnt s);
      complete (Scan st (a_cnt s) b)
  | ChCloseStruct, _ => Err UnexpectedClosingParenthesis
  | ChOpenDict, NArray :: _ =>
      st ← push (NDictEntry 0) (stack s);
      mret (Scan st (a_cnt s) (b_cnt s))
  | ChOpenDict, _ => Err DictEntryNotInArray
  | ChCloseDict, NDictEntry 2 :: st => complete (Scan st (a_cnt s) (b_cnt s))
  | ChCloseDict, _ => Err UnexpectedClosingBracket
  | (ChVariant | ChBase), _ => complete s
  | ChUnknown, _ => Err UnknownCharacter
  end.

Fixpoint scan_chars (sig : bytes) (s : scan) : outcome SigErr scan :=
  match sig with
  | [] => Ok s
  | c :: sig' => s' ← scan_char c s; scan_chars sig' s'
  end.

Definition validate_sig_str (sig : bytes) : outcome SigErr unit :=
  if decide (255 < length sig) then Err TooLong else
  s ← scan_chars sig scan_init;
  match stack s with
  | [] => Ok ()
  | NStruct _ :: _ => Err UnclosedStruct
  | NDictEntry _ :: _ => Err UnclosedDictEntry
  | NArray :: _ => Err ArrayWithNoType
  end.

(** ** The reference grammar

    [single a b c t]: [t] is one complete type whose nesting needs at most [a]
    arrays, [b] structs and [c] stack slots; a dict entry takes a slot of its
    own above its array's.  [many] is a sequence of complete types. *)

Inductive single : nat → nat → nat → bytes → Prop :=
| single_base a b c ch :
    classify ch = ChBase ∨ classify ch = ChVariant → single a b c [ch]
| single_array a b c t :
    single a b c t → single (S a) b (S c) ("a"%char :: t)
| single_dict a b c k t :
    classify k = ChBase → single a b c t →
    single (S a) b (S (S c)) ("a"%char :: "{"%char :: k :: t ++ ["}"%char])
| single_struct a b c t :
    t ≠ [] → many a b c t → single a (S b) (S c) ("("%char :: t ++ [")"%char])
with many : nat → nat → nat → bytes → Prop :=
| many_nil a b c : many a b c []
| many_cons a b c t u : single a b c t → many a b c u → many a b c (t ++ u).

Scheme single_mut := Induction for single Sort Prop
with many_mut := Induction for many Sort Prop.
Combined Scheme single_many_ind from single_mut, many_mut.

(** How many entries of each counted kind a stack holds. *)
Fixpoint arrays (st : list Nest) : nat :=
  match st with
  | [] => 0
  | NArray :: st' => S (arrays st')
  | _ :: st' => arrays st'
  end.

Fixpoint structs (st : list Nest) : nat :=
  match st with
  | [] => 0
  | NStruct _ :: st' => S (structs st')
  | _ :: st' => structs st'
  end.

(** The scanner state whose counters agree with its stack. *)
Definition scan_of (st : list Nest) : scan := Scan st (arrays st) (structs st).

(** The next character is the key of a dict entry. *)
Definition at_key (st : list Nest) : Prop :=
  match st with NDictEntry 0 :: _ => True | _ => False end.

Definition is_key (t : bytes) : Prop := ∃ k, t = [k] ∧ classify k = ChBase.

(** A complete type that fits in what is left of the budgets above [st]. *)
Definition fits (st : list Nest) (t : bytes) : Prop :=
  single (MAX_NESTING_DEPTH - arrays st) (MAX_NESTING_DEPTH - structs st)
         (STACK_CAPACITY - length st) t.

Definition fits_many (st : list Nest) (t : bytes) : Prop :=
  many (MAX_NESTING_DEPTH - arrays st) (MAX_NESTING_DEPTH - structs st)
       (STACK_CAPACITY - length st) t.

Lemma classify_a : classify "a" = ChArray. Proof. done. Qed.

Lemma classify_inv c :
  (classify c = ChArray → c = "a"%char) ∧
  (classify c = ChOpenStruct → c = "("%char) ∧
  (classify c = ChCloseStruct → c = ")"%char) ∧
  (classify c = ChOpenDict → c = "{"%char) ∧
  (classify c = ChCloseDict → c = "}"%char).
Proof. destruct c as [[] [] [] [] [] [] [] []]; cbv; naive_solver. Qed.

Lemma many_snoc a b c t u : many a b c t → single a b c u → many a b c (t ++ u).
Proof.
  intros Ht Hu. induction Ht as [|a b c v w Hv Hw IH].
  - rewrite <- (app_nil_r ([] ++ u)). apply many_cons; [done|constructor].
  - rewrite <- app_assoc. apply many_cons; auto.
Qed.

Lemma single_not_nil a b c t : single a b c t → t ≠ [].
Proof. by inversion 1. Qed.

(** ** Soundness: what the scanner's stack says about the text consumed *)

Inductive ctx : list Nest → bytes → Prop :=
| ctx_nil p : fits_many [] p → ctx [] p
| ctx_array st p :
    ctx st p → ¬ at_key st → arrays st < MAX_NESTING_DEPTH →
    length st < STACK_CAPACITY → ctx (NArray :: st) (p ++ ["a"%char])
| ctx_dict0 st p :
    ctx (NArray :: st) p → length (NArray :: st) < STACK_CAPACITY →
    ctx (NDictEntry 0 :: NArray :: st) (p ++ ["{"%char])
| ctx_dict1 st p t :
    ctx (NDictEntry 0 :: st) p → is_key t → ctx (NDictEntry 1 :: st) (p ++ t)
| ctx_dict2 st p t :
    ctx (NDictEntry 1 :: st) p → fits (NDictEntry 1 :: st) t →
    ctx (NDictEntry 2 :: st) (p ++ t)
| ctx_struct st p t ne :
    ctx st p → ¬ at_key st → structs st < MAX_NESTING_DEPTH →
    length st < STACK_CAPACITY → fits_many (NStruct false :: st) t →
    (ne = true ↔ t ≠ []) → ctx (NStruct ne :: st) (p ++ "("%char :: t).

Lemma fits_array st t :
  arrays st < MAX_NESTING_DEPTH → length st < STACK_CAPACITY →
  fits (NArray :: st) t → fits st ("a"%char :: t).
Proof.
  unfold fits. cbn [arrays structs length]. intros ?? Ht.
  replace (MAX_NESTING_DEPTH - arrays st) with (S (MAX_NESTING_DEPTH - S (arrays st))) by lia.
  replace (STACK_CAPACITY - length st) with (S (STACK_CAPACITY - S (length st))) by lia.
  by constructor.
Qed.

Lemma fits_dict st k t :
  arrays st < MAX_NESTING_DEPTH → S (length st) < STACK_CAPACITY → classify k = ChBase →
  fits (NDictEntry 1 :: NArray :: st) t →
  fits st ("a"%char :: "{"%char :: k :: t ++ ["}"%char]).
Proof.
  unfold fits. cbn [arrays structs length]. intros ??? Ht.
  replace (MAX_NESTING_DEPTH - arrays st) with (S (MAX_NESTING_DEPTH - S (arrays st))) by lia.
  replace (STACK_CAPACITY - length st)
    with (S (S (STACK_CAPACITY - S (S (length st))))) by lia.
  by constructor.
Qed.

Lemma fits_struct st t :
  structs st < MAX_NESTING_DEPTH → length st < STACK_CAPACITY → t ≠ [] →
  fits_many (NStruct false :: st) t → fits st ("("%char :: t ++ [")"%char]).
Proof.
  unfold fits, fits_many. cbn [arrays structs length]. intros ??? Ht.
  replace (MAX_NESTING_DEPTH - structs st)
    with (S (MAX_NESTING_DEPTH - S (structs st))) by lia.
  replace (STACK_CAPACITY - length st) with (S (STACK_CAPACITY - S (length st))) by lia.
  by constructor.
Qed.

(** The counters never underflow, and popping the arrays below a completed
    type is completing the array type. *)
Lemma complete_array st b :
  complete (Scan (NArray :: st) (arrays (NArray :: st)) b) = complete (Scan st (arrays st) b).
Proof. done. Qed.

Lemma complete_sound st p t s' :
  ctx st p → fits st t → (at_key st → is_key t) →
  complete (scan_of st) = Ok s' → s' = scan_of (stack s') ∧ ctx (stack s') (p ++ t).
Proof.
  revert p t. induction st as [|n st IH]; intros p t Hctx Ht Hkey Hs.
  - cbn in Hs. injection Hs as <-. split; [done|]. constructor.
    inversion Hctx; subst. by apply many_snoc.
  - destruct n as [|cnt|ne].
    + inversion Hctx; subst. unfold scan_of in Hs. rewrite complete_array in Hs.
      cbn [structs] in Hs. rewrite <- app_assoc. apply IH; auto.
      * by apply fits_array.
      * done.
    + destruct cnt as [|[|cnt]]; cbn in Hs; [| |by case_decide; [|lia]];
        injection Hs as <-; (split; [done|]); cbn.
      * apply ctx_dict1; [done|by apply Hkey].
      * by apply ctx_dict2.
    + cbn in Hs. injection Hs as <-. split; [done|]. cbn.
      inversion Hctx; subst. rewrite <- app_assoc. cbn.
      apply ctx_struct; auto.
      * by apply many_snoc.
      * split; [|done]. intros _ []%app_eq_nil.
        by eapply single_not_nil.
Qed.

Lemma fits_char st c :
  classify c = ChBase ∨ classify c = ChVariant → fits st [c].
Proof. apply single_base. Qed.

Lemma push_Ok x st st' : push x st = Ok st' → st' = x :: st ∧ length st < STACK_CAPACITY.
Proof. unfold push. case_decide; [|done]. by intros [= <-]. Qed.

(** The two characters that open a level. *)
Lemma scan_char_array st c s' :
  classify c = ChArray → scan_char c (scan_of st) = Ok s' →
  s' = scan_of (NArray :: st) ∧ ¬ at_key st ∧ arrays st < MAX_NESTING_DEPTH ∧
  length st < STACK_CAPACITY.
Proof.
  intros Hc Hs. unfold scan_char in Hs. rewrite Hc in Hs.
  assert (¬ at_key st) by (intros ?; by destruct st as [|[|[]|]]).
  assert (Hif : (if decide (MAX_NESTING_DEPTH ≤ arrays st) then Err ArraysTooNested else
      st' ← push NArray st; mret (Scan st' (S (arrays st)) (structs st))) = Ok s')
    by (by destruct st as [|[|[]|]]).
  case_decide; [done|]. outcome_inv.
  match goal with Hp : push _ _ = Ok _ |- _ => apply push_Ok in Hp as [-> ?] end.
  repeat split; auto. lia.
Qed.

Lemma scan_char_open st c s' :
  classify c = ChOpenStruct → scan_char c (scan_of st) = Ok s' →
  s' = scan_of (NStruct false :: st) ∧ ¬ at_key st ∧ structs st < MAX_NESTING_DEPTH ∧
  length st < STACK_CAPACITY.
Proof.
  intros Hc Hs. unfold scan_char in Hs. rewrite Hc in Hs.
  assert (¬ at_key st) by (intros ?; by destruct st as [|[|[]|]]).
  assert (Hif : (if decide (MAX_NESTING_DEPTH ≤ structs st) then Err StructsTooNested else
      st' ← push (NStruct false) st; mret (Scan st' (arrays st) (S (structs st)))) = Ok s')
    by (by destruct st as [|[|[]|]]).
  case_decide; [done|]. outcome_inv.
  match goal with Hp : push _ _ = Ok _ |- _ => apply push_Ok in Hp as [-> ?] end.
  repeat split; auto. lia.
Qed.

Lemma scan_char_sound st p c s' :
  ctx st p → scan_char c (scan_of st) = Ok s' →
  s' = scan_of (stack s') ∧ ctx (stack s') (p ++ [c]).
Proof.
  intros Hctx Hs.
  destruct (classify_inv c) as (Ha & Hos & Hcs & Hod & Hcd).
  destruct (classify c) eqn:Hc.
  - rewrite Ha by done. apply scan_char_array in Hs as (-> & ? & ? & ?); [|done].
    split; [done|]. by apply ctx_array.
  - rewrite Hos by done. apply scan_char_open in Hs as (-> & ? & ? & ?); [|done].
    split; [done|]. apply ctx_struct; auto; [constructor|done].
  - unfold scan_char in Hs. rewrite Hc in Hs. rewrite Hcs by done. destruct st as [|[|[]|[]] st]; try done. cbn in Hs.
    inversion Hctx; subst. rewrite <- app_assoc. cbn.
    apply complete_sound with st; auto; [|done].
    apply fits_struct; auto. naive_solver.
  - unfold scan_char in Hs. rewrite Hc in Hs. rewrite Hod by done. destruct st as [|[|[]|] st]; try done.
    cbn in Hs. outcome_inv.
    match goal with Hp : push _ _ = Ok _ |- _ => apply push_Ok in Hp as [-> ?] end.
    split; [done|]. by apply ctx_dict0.
  - unfold scan_char in Hs. rewrite Hc in Hs. rewrite Hcd by done. destruct st as [|[|[|[|[]]]|[]] st]; try done.
    inversion Hctx as [| | | |st1 p1 t Hc1 Hfit|]; subst.
    inversion Hc1 as [| | |st2 p2 k Hc0 [k' [-> Hk]]| |]; subst.
    inversion Hc0 as [| |st3 p3 Harr Hlen| | |]; subst.
    inversion Harr; subst. cbn in Hlen.
    unfold complete in Hs. cbn [stack a_cnt b_cnt structs arrays] in Hs.
    change (complete (scan_of st3) = Ok s') in Hs.
    rewrite <- !app_assoc. cbn. apply complete_sound with st3; auto; [|done].
    apply fits_dict; auto.
  - unfold scan_char in Hs. rewrite Hc in Hs.
    assert (complete (scan_of st) = Ok s' ∧ ¬ at_key st) as [Hs' ?].
    { destruct st as [|[|[]|]]; try done; (split; [exact Hs|by intros []]). }
    apply complete_sound with st; auto using fits_char. done.
  - unfold scan_char in Hs. rewrite Hc in Hs.
    assert (complete (scan_of st) = Ok s') as Hs' by (destruct st as [|[|[]|]]; exact Hs).
    apply complete_sound with st; auto using fits_char. intros _. by exists c.
  - unfold scan_char in Hs. rewrite Hc in Hs. by destruct st as [|[|[]|]].
Qed.

Lemma scan_chars_sound sig st p s' :
  ctx st p → scan_chars sig (scan_of st) = Ok s' →
  s' = scan_of (stack s') ∧ ctx (stack s') (p ++ sig).
Proof.
  revert st p. induction sig as [|c sig IH]; intros st p Hctx Hs; cbn in Hs.
  - injection Hs as <-. by rewrite app_nil_r.
  - apply bind_Ok_inv in Hs as (s1 & H1 & Hs).
    apply scan_char_sound with (p := p) in H1 as [Heq Hc]; [|done].
    rewrite Heq in Hs. apply IH with (p := p ++ [c]) in Hs; [|done].
    by rewrite <- app_assoc in Hs.
Qed.

(** ** Completeness: the scanner follows the grammar *)

(** An open struct, or the top level: where a sequence of types goes. *)
Definition mark (st : list Nest) (t : bytes) : list Nest :=
  match st with
  | NStruct ne :: st' => NStruct (ne || negb (bool_decide (t = []))) :: st'
  | _ => st
  end.

Definition is_open (st : list Nest) : Prop :=
  match st with [] | NStruct _ :: _ => True | _ => False end.

Definition room (st : list Nest) (a b c : nat) : Prop :=
  a + arrays st ≤ MAX_NESTING_DEPTH ∧ b + structs st ≤ MAX_NESTING_DEPTH ∧
  c + length st ≤ STACK_CAPACITY.

Lemma push_room x st : length st < STACK_CAPACITY → push x st = Ok (x :: st).
Proof. intros. unfold push. by rewrite decide_True. Qed.

Lemma complete_mark st t :
  is_open st → t ≠ [] → complete (scan_of st) = Ok (scan_of (mark st t)).
Proof.
  destruct st as [|[| |ne]]; try done. intros _ Ht. cbn.
  rewrite bool_decide_eq_false_2 by done. by rewrite orb_true_r.
Qed.

Lemma is_open_mark st t : is_open st → is_open (mark st t).
Proof. by destruct st as [|[]]. Qed.

Lemma room_mark st t a b c : room (mark st t) a b c ↔ room st a b c.
Proof. by destruct st as [|[]]. Qed.

Lemma mark_app st t u : t ≠ [] → mark (mark st t) u = mark st (t ++ u).
Proof.
  intros Ht. destruct st as [|[| |ne]]; cbn; try done.
  rewrite (bool_decide_eq_false_2 (t = [])) by done.
  rewrite (bool_decide_eq_false_2 (t ++ u = [])) by (by intros []%app_eq_nil).
  by rewrite !orb_true_r.
Qed.

Lemma scan_char_complete st c :
  classify c = ChBase ∨ (classify c = ChVariant ∧ ¬ at_key st) →
  scan_char c (scan_of st) = complete (scan_of st).
Proof.
  unfold scan_char. intros [->|[-> Hk]]; [by destruct st as [|[|[]|]]|].
  destruct st as [|[|[]|]]; try done.
Qed.

Lemma scan_char_push_array st a b c :
  ¬ at_key st → room st (S a) b (S c) →
  scan_char "a" (scan_of st) = Ok (scan_of (NArray :: st)) ∧ room (NArray :: st) a b c.
Proof.
  intros Hk (Ha & Hb & Hc). split; [|unfold room; cbn; lia].
  unfold scan_char. rewrite classify_a. cbn [stack scan_of a_cnt b_cnt].
  rewrite decide_False by lia. rewrite push_room by lia.
  destruct st as [|[|[]|]]; try done.
Qed.

Lemma scan_char_push_struct st a b c :
  ¬ at_key st → room st a (S b) (S c) →
  scan_char "(" (scan_of st) = Ok (scan_of (NStruct false :: st)) ∧
  room (NStruct false :: st) a b c.
Proof.
  intros Hk (Ha & Hb & Hc). split; [|unfold room; cbn; lia].
  unfold scan_char. change (classify "(") with ChOpenStruct. cbn [stack scan_of a_cnt b_cnt].
  rewrite decide_False by lia. rewrite push_room by lia.
  destruct st as [|[|[]|]]; try done.
Qed.

Lemma scan_char_push_dict st :
  S (length st) < STACK_CAPACITY →
  scan_char "{" (scan_of (NArray :: st)) = Ok (scan_of (NDictEntry 0 :: NArray :: st)).
Proof.
  intros Hc. unfold scan_char. change (classify "{") with ChOpenDict.
  cbn [stack scan_of]. by rewrite push_room.
Qed.

Lemma scan_chars_app u t s :
  scan_chars (t ++ u) s = s' ← scan_chars t s; scan_chars u s'.
Proof.
  revert s. induction t as [|c t IH]; intros s; cbn; [done|].
  destruct (scan_char c s); cbn; auto.
Qed.

Lemma complete_dict n st :
  n < 2 → complete (scan_of (NDictEntry n :: st)) = Ok (scan_of (NDictEntry (S n) :: st)).
Proof. intros. unfold complete. cbn. by rewrite decide_False by lia. Qed.

Lemma scan_char_close_dict st :
  scan_char "}" (scan_of (NDictEntry 2 :: NArray :: st)) = complete (scan_of st).
Proof. done. Qed.

Lemma scan_char_close_struct st :
  scan_char ")" (scan_of (NStruct true :: st)) = complete (scan_of st).
Proof. done. Qed.

Lemma grammar_complete :
  (∀ a b c t, single a b c t → ∀ st, room st a b c → (at_key st → is_key t) →
    scan_chars t (scan_of st) = complete (scan_of st)) ∧
  (∀ a b c t, many a b c t → ∀ st, room st a b c → is_open st →
    scan_chars t (scan_of st) = Ok (scan_of (mark st t))).
Proof.
  apply single_many_ind.
  - intros a b c ch Hch st _ Hkey. cbn [scan_chars]. rewrite scan_char_complete.
    + apply bind_Ok_r.
    + destruct Hch as [|Hv]; [by left|right]. split; [done|].
      intros (k & [= ->] & ?)%Hkey. congruence.
  - intros a b c t Ht IH st Hroom Hkey.
    assert (¬ at_key st) as Hk by (intros (k & [= <- ->] & ?)%Hkey; done).
    destruct (scan_char_push_array st a b c Hk Hroom) as [Hp Hroom'].
    cbn [scan_chars]. rewrite Hp. apply (IH (NArray :: st)); done.
  - intros a b c k t Hk Ht IH st Hroom Hkey.
    assert (¬ at_key st) as Hnk by (intros (? & [=] & ?)%Hkey).
    destruct (scan_char_push_array st a b (S c) Hnk Hroom) as [Hp Hroom'].
    cbn [scan_chars]. rewrite Hp. cbn [mbind outcome_bind].
    rewrite scan_char_push_dict by (unfold room in Hroom; cbn in *; lia).
    cbn [mbind outcome_bind]. rewrite scan_char_complete, complete_dict by auto.
    cbn [mbind outcome_bind]. rewrite scan_chars_app, IH; [| |done].
    + rewrite complete_dict by lia. cbn [mbind outcome_bind scan_chars].
      rewrite scan_char_close_dict. apply bind_Ok_r.
    + unfold room in *; cbn in *; lia.
  - intros a b c t Hne Ht IH st Hroom Hkey.
    assert (¬ at_key st) as Hnk.
    { intros (? & [= <- ?] & ?)%Hkey. by destruct t. }
    destruct (scan_char_push_struct st a b c Hnk Hroom) as [Hp Hroom'].
    cbn [scan_chars]. rewrite Hp. cbn [mbind outcome_bind].
    rewrite scan_chars_app, IH by done. cbn [mbind outcome_bind scan_chars mark].
    rewrite bool_decide_eq_false_2 by done. cbn [orb negb].
    rewrite scan_char_close_struct. apply bind_Ok_r.
  - intros a b c st _ Hop. cbn.
    destruct st as [|[| |ne]]; try done. cbn. by rewrite orb_false_r.
  - intros a b c t u Ht IHt Hu IHu st Hroom Hop.
    assert (t ≠ []) by eauto using single_not_nil.
    rewrite scan_chars_app, IHt, complete_mark with (t := t); auto.
    2: { intros Hk. by destruct st as [|[]]. }
    cbn. rewrite IHu, mark_app; auto using is_open_mark. by apply room_mark.
Qed.

(** ** The scanner decides the grammar *)

(** The scanner accepts the grammar, within its limits. *)
Lemma scanner_grammar sig :
  validate_sig_str sig = Ok () ↔
  length sig ≤ 255 ∧ many MAX_NESTING_DEPTH MAX_NESTING_DEPTH STACK_CAPACITY sig.
Proof.
  unfold validate_sig_str. case_decide; [by split; [|intros []; lia]|]. split.
  - intros (s & Hs & Hfin)%bind_Ok_inv. split; [lia|].
    apply (scan_chars_sound sig [] []) in Hs as [_ Hctx]; [|repeat constructor].
    destruct (stack s) as [|[]]; try done. by inversion Hctx.
  - intros [_ Hm]. change scan_init with (scan_of []).
    erewrite (proj2 grammar_complete) by (done || (unfold room; cbn; lia)). done.
Qed.

(** C21: [validate_sig_str] accepts exactly the sequences of at most 255
    characters of complete D-Bus types whose nesting stays within 32 arrays,
    32 structs and the 64 stack slots. *)
Theorem validate_sig_str_iff sig :
  validate_sig_str sig = Ok () ↔
  length sig ≤ 255 ∧ many MAX_NESTING_DEPTH MAX_NESTING_DEPTH STACK_CAPACITY sig.
Proof. apply scanner_grammar. Qed.

(** The counters stay exact, so neither the [u8] decrements nor the pops panic:
    only the stack's capacity can. *)
Lemma complete_no_panic st : complete (scan_of st) ≠ Panic.
Proof.
  induction st as [|[|cnt|ne] st IH]; try done.
  unfold complete. cbn. by case_decide.
Qed.

Definition opens (c : u8) : Prop :=
  classify c = ChArray ∨ classify c = ChOpenStruct ∨ classify c = ChOpenDict.

Lemma push_Panic x st : push x st = Panic → STACK_CAPACITY ≤ length st.
Proof. unfold push. case_decide; [done|lia]. Qed.

Lemma bind_push_Panic x st a b :
  (st' ← push x st; mret (Scan st' a b)) = (Panic : outcome SigErr scan) →
  STACK_CAPACITY ≤ length st.
Proof. unfold push. case_decide; [done|]. intros _. lia. Qed.

Lemma scan_char_Panic st c :
  scan_char c (scan_of st) = Panic → opens c ∧ STACK_CAPACITY ≤ length st.
Proof.
  unfold scan_char, opens. intros Hs. destruct (classify c) eqn:Hc.
  - split; [auto|]. cbn [stack scan_of a_cnt b_cnt] in Hs.
    assert (Hif : (if decide (MAX_NESTING_DEPTH ≤ arrays st) then Err ArraysTooNested else
      st' ← push NArray st; mret (Scan st' (S (arrays st)) (structs st))) = Panic)
      by (by destruct st as [|[|[]|]]).
    case_decide; [done|]. by eapply bind_push_Panic.
  - split; [auto|]. cbn [stack scan_of a_cnt b_cnt] in Hs.
    assert (Hif : (if decide (MAX_NESTING_DEPTH ≤ structs st) then Err StructsTooNested else
      st' ← push (NStruct false) st; mret (Scan st' (arrays st) (S (structs st)))) = Panic)
      by (by destruct st as [|[|[]|]]).
    case_decide; [done|]. by eapply bind_push_Panic.
  - exfalso. destruct st as [|[|[]|[]] st]; try done. cbn in Hs.
    by apply (complete_no_panic st).
  - split; [auto|]. destruct st as [|[|[]|] st]; try done.
    exact (bind_push_Panic _ _ _ _ Hs).
  - exfalso. destruct st as [|[|[|[|[]]]|[]] st]; try done.
    by apply (complete_no_panic st).
  - exfalso. destruct st as [|[|[|n]|] st]; try done.
    + by apply (complete_no_panic (NArray :: st)).
    + by apply (complete_no_panic (NDictEntry (S n) :: st)).
  - exfalso. apply (complete_no_panic st). by destruct st as [|[|[]|]].
  - by destruct st as [|[|[]|]].
Qed.

Lemma ctx_length st p : ctx st p → length st ≤ STACK_CAPACITY.
Proof. induction 1; cbn in *; lia. Qed.

Lemma scan_chars_Panic sig st p :
  ctx st p → scan_chars sig (scan_of st) = Panic →
  ∃ q c u st', sig = q ++ c :: u ∧ scan_chars q (scan_of st) = Ok (scan_of st') ∧
    opens c ∧ length st' = STACK_CAPACITY.
Proof.
  revert st p. induction sig as [|c sig IH]; intros st p Hctx Hs; cbn in Hs; [done|].
  destruct (scan_char c (scan_of st)) as [s'| |] eqn:Hc; [| done |].
  - destruct (scan_char_sound _ _ _ _ Hctx Hc) as [Heq Hctx'].
    cbn in Hs. rewrite Heq in Hs. destruct (IH _ _ Hctx' Hs) as (q & d & u & st' & -> & Hq & ?).
    exists (c :: q), d, u, st'. split; [done|]. split; [|done].
    cbn. rewrite Hc. cbn. by rewrite Heq.
  - apply scan_char_Panic in Hc as [? ?]. exists [], c, sig, st. repeat split; auto.
    apply ctx_length in Hctx. lia.
Qed.

(** the only panic of [validate_sig_str] is a push on the full
    [ArrayVec<_, 64>]: the counters never underflow. *)
Theorem validate_sig_str_panic sig :
  validate_sig_str sig = Panic →
  ∃ q c u st, sig = q ++ c :: u ∧ scan_chars q scan_init = Ok (scan_of st) ∧
    opens c ∧ length st = STACK_CAPACITY.
Proof.
  unfold validate_sig_str. case_decide; [done|]. intros Hs.
  apply (scan_chars_Panic sig [] []); [repeat constructor|].
  change (scan_of []) with scan_init.
  destruct (scan_chars sig scan_init) as [s| |]; try done. cbn in Hs.
  by destruct (stack s) as [|[]].
Qed.

(** [n] nested dictionaries around a struct. *)
Definition nest_dicts (n : nat) : bytes :=
  Nat.iter n (λ t, "a"%char :: "{"%char :: "s"%char :: t ++ ["}"%char]) (lit "(y)").

Lemma single_nest_dicts n b c : single n (S b) (2 * n + S c) (nest_dicts n).
Proof.
  induction n as [|n IH].
  - apply (single_struct 0 b c (lit "y")); [done|].
    apply (many_cons 0 b c (lit "y") []); [by apply single_base; left|constructor].
  - replace (2 * S n + S c) with (S (S (2 * n + S c))) by lia.
    by apply single_dict.
Qed.

(** thirty-two nested dictionaries around a struct stay inside both nesting
    limits the code checks (32 arrays, 32 structs) and inside 255 characters,
    but need 65 stack slots: [validate_sig_str] panics instead of answering. *)
Theorem validate_sig_str_deep_panics :
  validate_sig_str (nest_dicts 32) = Panic ∧ length (nest_dicts 32) ≤ 255 ∧
  many MAX_NESTING_DEPTH MAX_NESTING_DEPTH (S STACK_CAPACITY) (nest_dicts 32).
Proof.
  split; [by vm_compute|]. split; [by apply Nat.leb_le; vm_compute|].
  rewrite <- (app_nil_r (nest_dicts 32)). apply many_cons; [|constructor].
  apply (single_nest_dicts 32 31 0).
Qed.

(** The signatures of the unit tests. *)
Lemma validate_sig_str_iff_accepts :
  Forall (λ s, validate_sig_str (lit s) = Ok ())
    ["aaai"; "a{ii}"; "(ii)"; "(i)"; "a{i(i)}"; ""]%string.
Proof. repeat constructor. Qed.

Lemma validate_sig_str_rejects :
  map (λ s, validate_sig_str (lit s))
    ["{ii}"; "a{i(i})"; "()"; "a{}"; "a{iii}"; "((i)"; "(i))"; "a{{i}i}"; "a{ii}}";
     "!!!"; "(i)a"]%string =
  map Err [DictEntryNotInArray; UnexpectedClosingBracket; UnexpectedClosingParenthesis;
     UnexpectedClosingBracket; TooManyTypesInDictEntry; UnclosedStruct;
     UnexpectedClosingParenthesis; NonBaseDictKey; UnexpectedClosingBracket;
     UnknownCharacter; ArrayWithNoType].
Proof. by vm_compute. Qed.

(** The panic theorem at the signature of C3. *)
Lemma validate_sig_str_panic_witness :
  validate_sig_str (nest_dicts 32) = Panic ∧
  ∃ q c u st, nest_dicts 32 = q ++ c :: u ∧ scan_chars q scan_init = Ok (scan_of st) ∧
    opens c ∧ length st = STACK_CAPACITY.
Proof.
  assert (validate_sig_str (nest_dicts 32) = Panic) as H by (by vm_compute).
  split; [exact H|]. exact (validate_sig_str_panic _ H).
Defined.
