(* ===== verification/StdPath.v ===== *)
(** * std::path on Unix

    The part of [std::path::Path] and [PathBuf] the crate uses: a path is its
    bytes, [Components] is the standard library's iterator (its front state and
    the unread pieces between separators), and equality, [starts_with],
    [strip_prefix], [parent], [file_name], [push] and [pop] are the documented
    component-wise operations.  Nothing here is code of the crate: object paths
    (ObjPath.v) and match rules (MatchRule.v) are built on it. *)

From S2P Require Import Prelude.

Definition SEP : u8 := "/"%char.

Inductive Component :=
| RootDir
| CurDir
| ParentDir
| Normal (name : bytes).

#[export] Instance Component_eq_dec : EqDecision Component.
Proof. solve_decision. Defined.

(** [Components::parse_single_component]: empty pieces and [.] are skipped. *)
Definition parse_single (w : bytes) : option Component :=
  if decide (w = []) then None
  else if decide (w = lit ".") then None
  else if decide (w = lit "..") then Some ParentDir
  else Some (Normal w).

Inductive front_state := StartDir | Body.

Record Components := MkComponents {
  has_root : bool;
  front : front_state;
  pieces : list bytes;
}.

(** [Path::components]. *)
Definition components_of (p : bytes) : Components :=
  match p with
  | c :: p' =>
      if decide (c = SEP) then MkComponents true StartDir (split_on SEP p')
      else MkComponents false StartDir (split_on SEP p)
  | [] => MkComponents false StartDir (split_on SEP p)
  end.

(** Reading on from the body. *)
Fixpoint body_next (ws : list bytes) : option (Component * list bytes) :=
  match ws with
  | [] => None
  | w :: ws' =>
      match parse_single w with
      | Some c => Some (c, ws')
      | None => body_next ws'
      end
  end.

(** [Components::next]. *)
Definition comps_next (c : Components) : option (Component * Components) :=
  let body ws := '(k, ws') ← body_next ws; Some (k, MkComponents (has_root c) Body ws') in
  match front c with
  | Body => body (pieces c)
  | StartDir =>
      if has_root c then Some (RootDir, MkComponents true Body (pieces c)) else
      match pieces c with
      | w :: ws =>
          if decide (w = lit ".") then Some (CurDir, MkComponents false Body ws)
          else body (pieces c)
      | [] => None
      end
  end.

(** All the components, front to back. *)
Definition comps_list (c : Components) : list Component :=
  match front c with
  | Body => omap parse_single (pieces c)
  | StartDir =>
      if has_root c then RootDir :: omap parse_single (pieces c) else
      match pieces c with
      | w :: ws =>
          if decide (w = lit ".") then CurDir :: omap parse_single ws
          else omap parse_single (pieces c)
      | [] => []
      end
  end.

Definition path_components (p : bytes) : list Component := comps_list (components_of p).

(** [trim_left] and [trim_right]: skipped pieces at either end. *)
Fixpoint trim_left (ws : list bytes) : list bytes :=
  match ws with
  | w :: ws' =>
      match parse_single w with Some _ => ws | None => trim_left ws' end
  | [] => []
  end.

Definition trim_right (ws : list bytes) : list bytes := reverse (trim_left (reverse ws)).

Arguments trim_right : simpl never.

(** [Components::as_path]: the unread text. *)
Definition as_path (c : Components) : bytes :=
  match front c with
  | Body => join SEP (trim_right (trim_left (pieces c)))
  | StartDir =>
      if has_root c then SEP :: join SEP (trim_right (pieces c)) else
      match pieces c with
      | w :: ws =>
          if decide (w = lit ".") then join SEP (w :: trim_right ws)
          else join SEP (trim_right (pieces c))
      | [] => []
      end
  end.

(** [Path == Path]. *)
Definition path_eqb (p q : bytes) : bool :=
  bool_decide (path_components p = path_components q).

(** [iter_after], on the components of the prefix. *)
Fixpoint iter_after (c : Components) (prefix : list Component) : option Components :=
  match prefix with
  | [] => Some c
  | k :: prefix' =>
      '(k', c') ← comps_next c;
      if decide (k' = k) then iter_after c' prefix' else None
  end.

(** [Path::strip_prefix]; [None] is [StripPrefixError]. *)
Definition path_strip_prefix (p base : bytes) : option bytes :=
  as_path <$> iter_after (components_of p) (path_components base).

(** [Path::starts_with]. *)
Definition path_starts_with (p base : bytes) : bool :=
  match iter_after (components_of p) (path_components base) with
  | Some _ => true
  | None => false
  end.

(** [Components::next_back] on a fresh iterator, and what it leaves. *)
Definition comps_next_back (c : Components) : option (Component * Components) :=
  match trim_left (reverse (pieces c)) with
  | w :: ws =>
      k ← parse_single w;
      Some (k, MkComponents (has_root c) (front c) (reverse ws))
  | [] =>
      if has_root c then Some (RootDir, MkComponents false Body []) else
      match front c, pieces c with
      | StartDir, w :: _ =>
          if decide (w = lit ".") then Some (CurDir, MkComponents false Body []) else None
      | _, _ => None
      end
  end.

(** [Path::parent] and [Path::file_name]. *)
Definition path_parent (p : bytes) : option bytes :=
  match comps_next_back (components_of p) with
  | Some ((Normal _ | CurDir | ParentDir), c) => Some (as_path c)
  | _ => None
  end.

Definition path_file_name (p : bytes) : option bytes :=
  match comps_next_back (components_of p) with
  | Some (Normal w, _) => Some w
  | _ => None
  end.

(** [Path::has_root] (which on Unix is [is_absolute]). *)
Definition path_has_root (p : bytes) : bool :=
  match p with c :: _ => bool_decide (c = SEP) | [] => false end.

(** [PathBuf::push] and [PathBuf::pop]. *)
Definition pathbuf_push (buf p : bytes) : bytes :=
  if path_has_root p then p else
  match last buf with
  | Some c => if decide (c = SEP) then buf ++ p else buf ++ SEP :: p
  | None => p
  end.

Definition pathbuf_pop (buf : bytes) : bytes * bool :=
  match path_parent buf with
  | Some q => (take (length q) buf, true)
  | None => (buf, false)
  end.

(** ** Lemmas *)

Lemma body_next_list ws :
  match body_next ws with
  | Some (k, ws') => omap parse_single ws = k :: omap parse_single ws'
  | None => omap parse_single ws = []
  end.
Proof. induction ws as [|w ws IH]; cbn; [done|]. by destruct (parse_single w). Qed.

(** [next] pops the head of the component list. *)
Lemma comps_next_list c :
  match comps_next c with
  | Some (k, c') => comps_list c = k :: comps_list c'
  | None => comps_list c = []
  end.
Proof.
  destruct c as [hr fr ws]. unfold comps_next, comps_list. cbn.
  pose proof (body_next_list ws) as Hb.
  destruct fr; [destruct hr; [done|]; destruct ws as [|w ws']; [done|]; case_decide; [done|]|];
    by destruct (body_next _) as [[]|].
Qed.

Lemma iter_after_list c prefix :
  match iter_after c prefix with
  | Some c' => comps_list c = prefix ++ comps_list c'
  | None => ¬ prefix `prefix_of` comps_list c
  end.
Proof.
  revert c. induction prefix as [|k prefix IH]; intros c; cbn; [done|].
  pose proof (comps_next_list c) as Hn.
  destruct (comps_next c) as [[k' c']|]; cbn; rewrite Hn; [|by intros [? [=]]].
  case_decide as Hk; [subst|by intros Hp%prefix_cons_inv_1].
  specialize (IH c'). destruct (iter_after c' prefix); [by rewrite IH|].
  by intros Hp%prefix_cons_inv_2.
Qed.

Lemma path_starts_with_spec p base :
  path_starts_with p base = true ↔ path_components base `prefix_of` path_components p.
Proof.
  unfold path_starts_with. change (path_components p) with (comps_list (components_of p)).
  pose proof (iter_after_list (components_of p) (path_components base)) as Hi.
  destruct (iter_after _ _) as [c|]; split; try done.
  intros _. rewrite Hi. by exists (comps_list c).
Qed.

(** ** Texts whose pieces are all ordinary names *)

Definition plain (w : bytes) : Prop := parse_single w = Some (Normal w).

Lemma omap_plain ws : Forall plain ws → omap parse_single ws = map Normal ws.
Proof. induction 1 as [|w ws Hw _ IH]; cbn; [done|]. by rewrite Hw, IH. Qed.

Lemma trim_left_plain ws : Forall plain ws → trim_left ws = ws.
Proof. intros [|w ws' Hw _]; cbn; [done|]. by rewrite Hw. Qed.

Lemma trim_right_plain ws : Forall plain ws → trim_right ws = ws.
Proof.
  intros Hws. unfold trim_right. rewrite trim_left_plain by by apply Forall_reverse.
  apply reverse_involutive.
Qed.

Lemma iter_after_plain hr vs ws :
  Forall plain vs →
  iter_after (MkComponents hr Body (vs ++ ws)) (map Normal vs) = Some (MkComponents hr Body ws).
Proof.
  induction 1 as [|v vs Hv _ IH]; cbn; [done|].
  unfold comps_next. cbn. rewrite Hv. cbn. by rewrite decide_True.
Qed.

(** ** What trimming leaves *)

Lemma trim_left_head ws w ws' : trim_left ws = w :: ws' → parse_single w ≠ None.
Proof.
  induction ws as [|v ws IH]; cbn; [done|].
  destruct (parse_single v) eqn:Hv; [|done]. intros [= -> ->]. by rewrite Hv.
Qed.

Lemma trim_left_suffix ws : trim_left ws `suffix_of` ws.
Proof.
  induction ws as [|v ws IH]; cbn; [done|].
  destruct (parse_single v); [done|by apply suffix_cons_r].
Qed.

Lemma trim_left_snoc ws v :
  parse_single v ≠ None → ∃ m, trim_left (ws ++ [v]) = m ++ [v].
Proof.
  intros Hv. induction ws as [|w ws IH]; cbn.
  - destruct (parse_single v); [by exists []|done].
  - destruct (parse_single w); [by exists (w :: ws)|done].
Qed.

Lemma trim_right_cons v vs :
  parse_single v ≠ None → ∃ m, trim_right (v :: vs) = v :: m.
Proof.
  intros Hv. unfold trim_right. rewrite reverse_cons.
  destruct (trim_left_snoc (reverse vs) v Hv) as [m ->].
  exists (reverse m). by rewrite reverse_snoc.
Qed.

Lemma path_has_root_join w ws : w ≠ [] → SEP ∉ w → path_has_root (join SEP (w :: ws)) = false.
Proof.
  intros Hne Hw. destruct w as [|c w]; [done|].
  assert (bool_decide (c = SEP) = false) by (apply bool_decide_eq_false; set_solver).
  by destruct ws.
Qed.

(** What is left of a path after some component is relative. *)
Lemma as_path_relative c :
  front c = Body → Forall (λ w, SEP ∉ w) (pieces c) → path_has_root (as_path c) = false.
Proof.
  destruct c as [hr fr ws]. cbn. intros -> Hws. unfold as_path. cbn.
  destruct (trim_left ws) as [|v vs] eqn:Htw; [done|].
  pose proof (trim_left_head _ _ _ Htw) as Hv.
  destruct (trim_right_cons v vs Hv) as [m ->]. apply path_has_root_join.
  - by intros ->.
  - destruct (trim_left_suffix ws) as [k Hk]. rewrite Htw in Hk. rewrite Hk in Hws.
    by apply Forall_app in Hws as [_ [? _]%Forall_cons].
Qed.

Lemma parse_single_not_root w : parse_single w ≠ Some RootDir.
Proof. unfold parse_single. by repeat case_decide. Qed.

Lemma omap_not_root (ws : list bytes) : RootDir ∉ omap parse_single ws.
Proof. intros (w & _ & Hw)%list_elem_of_omap. by apply parse_single_not_root in Hw. Qed.

(** A relative path has no root component, so no absolute path is its prefix. *)
Lemma relative_no_root p : path_has_root p = false → RootDir ∉ path_components p.
Proof.
  unfold path_components, components_of. destruct p as [|c p]; intros Hr; [by apply omap_not_root|].
  unfold path_has_root in Hr. apply bool_decide_eq_false in Hr. rewrite decide_False by done.
  unfold comps_list. cbn [front has_root pieces].
  destruct (split_on SEP (c :: p)) as [|w ws]; [by apply not_elem_of_nil|].
  case_decide; [|apply omap_not_root].
  apply not_elem_of_cons. split; [done|apply omap_not_root].
Qed.

Lemma path_strip_prefix_relative p base :
  path_has_root p = false → RootDir ∈ path_components base → path_strip_prefix p base = None.
Proof.
  intros Hr%relative_no_root Hb. unfold path_strip_prefix.
  pose proof (iter_after_list (components_of p) (path_components base)) as Hi.
  destruct (iter_after _ _) as [c|]; [|done]. exfalso. apply Hr.
  unfold path_components. rewrite Hi. set_solver.
Qed.
