(* ===== verification/ObjPath.v ===== *)
(** * rustbus_core/path.rs: D-Bus object paths

    [ObjectPath] is a validated [Path] and [ObjectPathBuf] an [Option<PathBuf>]
    whose [None] stands for the root.  The validator is a character loop; the
    other operations go through [std::path] (StdPath.v).  [mk_path] is the
    reference: an object path is a list of non-empty elements over
    [[A-Za-z0-9_]], and every operation is characterised on that list. *)

From S2P Require Import Prelude StdPath.
From Stdlib Require Import Lia.

Inductive InvalidObjectPath :=
| NoRoot
| ContainsInvalidCharacters
| ConsecutiveSlashes
| TrailingSlash.

(** The unit struct [std::path::StripPrefixError]. *)
Inductive StripPrefixError := PrefixNotFound.

(** ['A'..='Z' | 'a'..='z' | '0'..='9' | '_']. *)
Definition name_char (c : u8) : bool :=
  let n := u8_val c in
  ((65 <=? n) && (n <=? 90) || (97 <=? n) && (n <=? 122) ||
   (48 <=? n) && (n <=? 57) || (n =? 95))%N.

(** The [for character in path_str.chars()] loop of [validate_skip_root].  A
    non-ASCII character is rejected at its first byte. *)
Fixpoint validate_chars (path_str : bytes) (last_was_sep : bool)
    : outcome InvalidObjectPath unit :=
  match path_str with
  | [] => Ok ()
  | c :: rest =>
      if name_char c then validate_chars rest false
      else if decide (c = SEP) then
        if last_was_sep then Err ConsecutiveSlashes else validate_chars rest true
      else Err ContainsInvalidCharacters
  end.

Definition validate_skip_root (path_str : bytes) : outcome InvalidObjectPath unit :=
  _ ← validate_chars path_str false;
  if decide (length path_str ≠ 1 ∧ last path_str = Some SEP) then Err TrailingSlash
  else Ok ().

Definition validate_str (path_str : bytes) : outcome InvalidObjectPath unit :=
  if path_has_root path_str then validate_skip_root path_str else Err NoRoot.

(** [validate], on a [Path]: [to_str] fails on bytes that are not UTF-8. *)
Definition validate (path : bytes) : outcome InvalidObjectPath unit :=
  if path_has_root path then
    if utf8_valid path then validate_skip_root path else Err ContainsInvalidCharacters
  else Err NoRoot.

Definition from_path (p : bytes) : outcome InvalidObjectPath bytes :=
  _ ← validate p; mret p.

Definition from_str (s : bytes) : outcome InvalidObjectPath bytes :=
  _ ← validate_str s; mret s.

Definition root_path : bytes := lit "/".

Section debug.
(** Whether the crate is built with [debug_assertions]. *)
Context (debug_assertions : bool).

Definition debug_assert_validitity {E} (self : bytes) : outcome E unit :=
  if debug_assertions then
    match validate self with Ok _ => Ok () | _ => Panic end
  else Ok ().

Definition as_str {E} (self : bytes) : outcome E bytes :=
  _ ← debug_assert_validitity self; mret self.

(** [ObjectPath::strip_prefix].  [self_len - 1 - stripped_len] is [usize]
    arithmetic: an underflow is a panic in debug builds, and in release builds
    an out-of-range slice, which panics as well. *)
Definition strip_prefix (self p : bytes) : outcome StripPrefixError bytes :=
  stripped ← ok_or (path_strip_prefix self p) PrefixNotFound;
  if path_eqb stripped [] then Ok root_path else
  let self_len := length self in
  let stripped_len := length stripped in
  if decide (self_len < 1 + stripped_len) then Panic else
  let ret := drop (self_len - 1 - stripped_len) self in
  _ ← debug_assert_validitity ret;
  mret ret.

Definition parent {E} (self : bytes) : outcome E (option bytes) :=
  match path_parent self with
  | None => Ok None
  | Some pp => _ ← debug_assert_validitity pp; mret (Some pp)
  end.

Definition file_name {E} (self : bytes) : outcome E (option bytes) :=
  _ ← debug_assert_validitity self; mret (path_file_name self).

(** [components]: the elements after the root; any other component is the
    [unreachable!]. *)
Definition component_str {E} (c : Component) : outcome E bytes :=
  match c with Normal os => Ok os | _ => Panic end.

Fixpoint map_components {E} (cs : list Component) : outcome E (list bytes) :=
  match cs with
  | [] => Ok []
  | c :: cs' => w ← component_str c; ws ← map_components cs'; mret (w :: ws)
  end.

Definition components {E} (self : bytes) : outcome E (list bytes) :=
  _ ← debug_assert_validitity self;
  map_components (drop 1 (path_components self)).

(** ** [ObjectPathBuf] *)

Record ObjectPathBuf := MkBuf { inner : option bytes }.

Definition buf_new : ObjectPathBuf := MkBuf None.

Definition with_capacity (capacity : nat) : ObjectPathBuf :=
  if decide (capacity = 0) then MkBuf None else MkBuf (Some (pathbuf_push [] root_path)).

Definition from_path_buf (pb : bytes) : ObjectPathBuf := MkBuf (Some pb).

(** [Deref]. *)
Definition deref (b : ObjectPathBuf) : bytes :=
  match inner b with Some buf => buf | None => root_path end.

(** [PathBuf::clear] empties the text. *)
Definition clear (b : ObjectPathBuf) : ObjectPathBuf :=
  match inner b with Some _ => MkBuf (Some []) | None => b end.

Definition reserve (b : ObjectPathBuf) (additional : nat) : ObjectPathBuf :=
  if decide (additional = 0) then b else
  match inner b with
  | Some _ => b
  | None => with_capacity (additional + 1)
  end.

Definition reserve_exact (b : ObjectPathBuf) (additional : nat) : ObjectPathBuf :=
  if decide (additional = 0) then b else
  match inner b with
  | Some _ => b
  | None => MkBuf (Some [])
  end.

Definition push_path_unchecked {E} (b : ObjectPathBuf) (path : bytes)
    : outcome E ObjectPathBuf :=
  if decide (length path = 0) then Ok b else
  let b' := reserve b (length path + 1) in
  buf ← unwrap (inner b');
  let b'' := MkBuf (Some (pathbuf_push buf path)) in
  _ ← debug_assert_validitity (deref b'');
  mret b''.

Definition push {E} (b : ObjectPathBuf) (path : bytes) : outcome E ObjectPathBuf :=
  p ← unwrap (path_strip_prefix path root_path);
  push_path_unchecked b p.

Definition push_path_checked (b : ObjectPathBuf) (path : bytes)
    : outcome InvalidObjectPath ObjectPathBuf :=
  let p := default path (path_strip_prefix path root_path) in
  path_str ← ok_or (if utf8_valid p then Some p else None) ContainsInvalidCharacters;
  _ ← validate_skip_root path_str;
  push_path_unchecked b p.

(** [push_path] is [push_path_checked(..).expect(..)]. *)
Definition push_path {E} (b : ObjectPathBuf) (path : bytes) : outcome E ObjectPathBuf :=
  match push_path_checked b path with Ok b' => Ok b' | _ => Panic end.

Definition pop (b : ObjectPathBuf) : ObjectPathBuf * bool :=
  match inner b with
  | Some buf => let '(buf', r) := pathbuf_pop buf in (MkBuf (Some buf'), r)
  | None => (b, false)
  end.

(** [From<&ObjectPath> for ObjectPathBuf] (and [to_owned]). *)
Definition to_object_path_buf {E} (path : bytes) : outcome E ObjectPathBuf :=
  let ret := if path_eqb path root_path then buf_new else from_path_buf path in
  _ ← debug_assert_validitity (deref ret);
  mret ret.

(** [TryFrom<OsString>], [TryFrom<String>] and [TryFrom<PathBuf>]. *)
Definition try_from_os_string (value : bytes) : outcome InvalidObjectPath ObjectPathBuf :=
  _ ← validate value; mret (from_path_buf value).

(** [FromStr] and [TryFrom<&str>]. *)
Definition buf_from_str (s : bytes) : outcome InvalidObjectPath ObjectPathBuf :=
  p ← from_str s; to_object_path_buf p.

(** [TryFrom<&OsStr>] and [TryFrom<&Path>]. *)
Definition buf_from_path (s : bytes) : outcome InvalidObjectPath ObjectPathBuf :=
  p ← from_path s; to_object_path_buf p.

(** [From<ObjectPathBuf> for PathBuf] and for [String]. *)
Definition into_path_buf (b : ObjectPathBuf) : bytes :=
  match inner b with Some buf => buf | None => root_path end.

Definition into_string {E} (b : ObjectPathBuf) : outcome E bytes :=
  _ ← debug_assert_validitity (deref b); mret (into_path_buf b).
End debug.

(** ** The reference: an object path is its list of elements *)

Definition element (w : bytes) : Prop := w ≠ [] ∧ Forall name_char w.

Definition mk_path (ws : list bytes) : bytes := SEP :: join SEP ws.

#[export] Instance element_dec w : Decision (element w).
Proof. apply _. Defined.

Lemma name_char_not_sep c : name_char c → c ≠ SEP.
Proof. by intros ? ->. Qed.

Lemma name_char_ascii c : name_char c → (u8_val c < 128)%N.
Proof.
  unfold name_char. cbv zeta. intros H%Is_true_true.
  rewrite !orb_true_iff, !andb_true_iff, !N.leb_le, N.eqb_eq in H. lia.
Qed.

Lemma name_not_sep w : Forall name_char w → SEP ∉ w.
Proof. rewrite Forall_forall. intros Hw Hin. by apply Hw in Hin. Qed.

Lemma element_not_sep w : element w → SEP ∉ w.
Proof. intros [_ ?]. by apply name_not_sep. Qed.

(** Neither [.] nor [..] is an element. *)
Lemma element_plain w : element w → plain w.
Proof.
  intros [Hne Hw]. unfold plain, parse_single.
  rewrite decide_False by done.
  destruct w as [|c w]; [done|]. inversion Hw as [|? ? Hc]; subst.
  rewrite !decide_False; [done| |]; intros [= -> _]; done.
Qed.

Lemma elements_plain ws : Forall element ws → Forall plain ws.
Proof. intros Hws. eapply Forall_impl; [done|]. apply element_plain. Qed.

Lemma elements_not_sep ws : Forall element ws → Forall (λ w, SEP ∉ w) ws.
Proof. intros Hws. eapply Forall_impl; [done|]. apply element_not_sep. Qed.

#[export] Hint Resolve elements_plain elements_not_sep element_plain : rustbus.

(** ** The validator *)

(** What the character loop checks, piece by piece. *)
Fixpoint pieces_ok (last_was_sep : bool) (ps : list bytes) : Prop :=
  match ps with
  | [] => True
  | [w] => Forall name_char w
  | w :: ps' => Forall name_char w ∧ (last_was_sep = true → w ≠ []) ∧ pieces_ok true ps'
  end.

Lemma pieces_ok_cons b w ps :
  ps ≠ [] →
  pieces_ok b (w :: ps) ↔
    Forall name_char w ∧ (b = true → w ≠ []) ∧ pieces_ok true ps.
Proof. by destruct ps. Qed.

Lemma validate_chars_pieces l b :
  validate_chars l b = Ok () ↔ pieces_ok b (split_on SEP l).
Proof.
  revert b. induction l as [|c l IH]; intros b; cbn [validate_chars split_on].
  { split; [constructor|done]. }
  pose proof (split_on_not_nil SEP l) as Hne.
  destruct (name_char c) eqn:Hc.
  - rewrite decide_False by (apply name_char_not_sep; by rewrite Hc). rewrite IH.
    destruct (split_on SEP l) as [|w [|w' ws]]; [done| |].
    + cbn. rewrite Forall_cons, Hc. naive_solver.
    + rewrite (pieces_ok_cons false), (pieces_ok_cons b), Forall_cons, Hc by done. naive_solver.
  - case_decide as Hs.
    + subst. rewrite pieces_ok_cons by done. destruct b; [naive_solver|].
      rewrite IH. naive_solver.
    + split; [done|]. destruct (split_on SEP l) as [|w [|w' ws]]; [done| |].
      * cbn. rewrite Forall_cons, Hc. naive_solver.
      * rewrite pieces_ok_cons, Forall_cons, Hc by done. naive_solver.
Qed.

Lemma last_join_sep (ps : list bytes) :
  ps ≠ [] → Forall (λ w, SEP ∉ w) ps →
  last (SEP :: join SEP ps) = Some SEP ↔ last ps = Some [].
Proof.
  intros Hne Hps. induction Hps as [|w ps Hw Hps IH]; [done|].
  destruct ps as [|w' ps].
  - cbn [join]. destruct w as [|c w]; [done|]. cbn [last]. split; [|done].
    intros Hl. assert (SEP ∈ c :: w); [|done].
    apply last_Some in Hl as [l' ->]. set_solver.
  - rewrite join_cons by done.
    rewrite app_comm_cons, last_app_cons, last_cons_cons. by apply IH.
Qed.

(** All pieces but the last are non-empty when the loop accepts, and the last one
    is when there is no trailing slash. *)
Lemma pieces_ok_elements ps :
  last ps ≠ Some [] → pieces_ok true ps ↔ Forall element ps.
Proof.
  induction ps as [|w [|w' ps] IH]; intros Hl; [done| |].
  - cbn in *. rewrite Forall_singleton. unfold element. naive_solver.
  - rewrite pieces_ok_cons, Forall_cons, IH by done. unfold element. naive_solver.
Qed.

Lemma elements_last ws : Forall element ws → last ws ≠ Some [].
Proof.
  intros Hws Hl. apply last_Some in Hl as [ws' ->].
  apply Forall_app in Hws as [_ Hw]. by apply Forall_singleton in Hw as [? _].
Qed.

(** After the root separator: nothing, or elements joined by separators. *)
Lemma validate_skip_root_body body :
  validate_skip_root (SEP :: body) = Ok () ↔
  body = [] ∨ Forall element (split_on SEP body).
Proof.
  unfold validate_skip_root.
  change (validate_chars (SEP :: body) false) with (validate_chars body true).
  pose proof (last_join_sep _ (split_on_not_nil SEP body) (split_on_pieces SEP body)) as Hlast.
  rewrite join_split in Hlast.
  destruct (decide (body = [])) as [->|Hbody]; [by split; [left|]|].
  assert (length (SEP :: body) ≠ 1) by (by destruct body).
  rewrite bind_Ok_inv. split.
  - intros ([] & Hv & Ht). right. apply validate_chars_pieces in Hv.
    case_decide as Hd; [done|]. apply pieces_ok_elements; [|done].
    intros Hl. apply Hd. tauto.
  - intros [?|Hws]; [done|]. pose proof (elements_last _ Hws) as Hl.
    exists (). rewrite validate_chars_pieces, pieces_ok_elements by done. split; [done|].
    rewrite decide_False; [done|]. tauto.
Qed.

Lemma split_mk_path ws :
  Forall element ws → split_on SEP (join SEP ws) = if decide (ws = []) then [[]] else ws.
Proof.
  intros Hws. case_decide as Hd; [by subst|]. by apply split_join; auto with rustbus.
Qed.

Lemma join_elements_nil ws : Forall element ws → join SEP ws = [] → ws = [].
Proof.
  intros Hws Hj. destruct Hws as [|w ws [Hw _] Hws]; [done|].
  destruct ws; [done|]. rewrite join_cons in Hj by done. by destruct w.
Qed.

(** [validate_str] (and so [ObjectPath::from_str]) accepts exactly the object
    paths of the D-Bus grammar: a root separator followed by elements. *)
Lemma validate_str_iff p :
  validate_str p = Ok () ↔ ∃ ws, Forall element ws ∧ p = mk_path ws.
Proof.
  unfold validate_str, path_has_root, mk_path. destruct p as [|c p]; [naive_solver|].
  case_bool_decide as Hc; [subst|naive_solver].
  rewrite validate_skip_root_body. split.
  - intros [->|Hws]; [by exists []|]. exists (split_on SEP p). by rewrite join_split.
  - intros (ws & Hws & [= ->]). destruct (decide (ws = [])) as [->|Hne]; [by left|right].
    rewrite split_mk_path by done. by rewrite decide_False.
Qed.

(** The relative form [push_path_checked] accepts. *)
Lemma validate_skip_root_relative l :
  path_has_root l = false →
  validate_skip_root l = Ok () ↔ l = [] ∨ Forall element (split_on SEP l).
Proof.
  intros Hrel. destruct (decide (l = [])) as [->|Hl]; [by split; [left|]|].
  pose proof (last_join_sep _ (split_on_not_nil SEP l) (split_on_pieces SEP l)) as Hlast.
  rewrite join_split in Hlast.
  destruct l as [|c l]; [done|]. rewrite last_cons_cons in Hlast.
  unfold path_has_root in Hrel. apply bool_decide_eq_false in Hrel.
  assert (pieces_ok false (split_on SEP (c :: l)) ↔ pieces_ok true (split_on SEP (c :: l)))
    as Hfirst.
  { cbn [split_on]. rewrite decide_False by done. pose proof (split_on_not_nil SEP l).
    destruct (split_on SEP l) as [|w [|w' ws]]; [done..|].
    rewrite !(pieces_ok_cons _ (c :: w)) by done. naive_solver. }
  unfold validate_skip_root. rewrite bind_Ok_inv. split.
  - intros ([] & Hv & Ht). right. apply validate_chars_pieces in Hv.
    case_decide as Hd; [done|]. apply pieces_ok_elements; [|tauto].
    intros Hp. apply Hlast in Hp. apply Hd. split; [|done].
    destruct l; [|done]. by injection Hp.
  - intros [?|Hws]; [done|]. pose proof (elements_last _ Hws).
    exists (). rewrite validate_chars_pieces, Hfirst, pieces_ok_elements by done.
    split; [done|]. rewrite decide_False; tauto.
Qed.

Lemma mk_path_ascii ws : Forall element ws → Forall (λ b, (u8_val b < 128)%N) (mk_path ws).
Proof.
  intros Hws. unfold mk_path. constructor; [done|].
  induction Hws as [|w ws [_ Hw] _ IH]; [constructor|].
  assert (Forall (λ b, (u8_val b < 128)%N) w)
    by (eapply Forall_impl; [done|apply name_char_ascii]).
  destruct ws; [done|]. rewrite join_cons by done.
  apply Forall_app; split; [done|]. by constructor.
Qed.

(** The validators never panic. *)
Lemma validate_skip_root_no_panic p : validate_skip_root p ≠ Panic.
Proof.
  unfold validate_skip_root.
  assert (∀ l f, validate_chars l f ≠ Panic) as Hn.
  { induction l as [|c l IH]; intros f; cbn; [done|]. repeat case_match; done. }
  specialize (Hn p false). destruct (validate_chars p false); [|done..].
  cbn. by case_decide.
Qed.

Lemma validate_str_no_panic p : validate_str p ≠ Panic.
Proof. unfold validate_str. case_match; [apply validate_skip_root_no_panic|done]. Qed.

(** [validate] on paths and [validate_str] on texts agree on object paths. *)
Lemma validate_iff p :
  validate p = Ok () ↔ ∃ ws, Forall element ws ∧ p = mk_path ws.
Proof.
  rewrite <- validate_str_iff. unfold validate, validate_str.
  destruct (path_has_root p) eqn:Hr; [|done].
  destruct (utf8_valid p) eqn:Hu; [done|]. split; [done|]. intros Hv. exfalso.
  assert (validate_str p = Ok ()) as Hs by (unfold validate_str; by rewrite Hr).
  apply validate_str_iff in Hs as (ws & Hws & ->).
  by rewrite (utf8_valid_ascii _ (mk_path_ascii _ Hws)) in Hu.
Qed.

Lemma validate_mk_path ws : Forall element ws → validate (mk_path ws) = Ok ().
Proof. intros. apply validate_iff. eauto. Qed.

Lemma debug_assert_mk_path {E} dbg ws :
  Forall element ws → debug_assert_validitity (E:=E) dbg (mk_path ws) = Ok ().
Proof.
  intros Hws. unfold debug_assert_validitity. rewrite validate_mk_path by done.
  by destruct dbg.
Qed.

(** ** Taking object paths apart *)

Lemma components_of_mk_path ws :
  Forall element ws →
  components_of (mk_path ws) =
    MkComponents true StartDir (if decide (ws = []) then [[]] else ws).
Proof.
  intros Hws. unfold components_of, mk_path. rewrite decide_True by done.
  by rewrite split_mk_path.
Qed.

Arguments components_of : simpl never.

Lemma path_components_mk_path ws :
  Forall element ws → path_components (mk_path ws) = RootDir :: map Normal ws.
Proof.
  intros Hws. unfold path_components. rewrite components_of_mk_path by done.
  unfold comps_list. cbn. case_decide as Hd; [by subst|].
  by rewrite omap_plain by auto with rustbus.
Qed.

Lemma map_components_normal {E} ws : map_components (E:=E) (map Normal ws) = Ok ws.
Proof. induction ws as [|w ws IH]; cbn; [done|]. by rewrite IH. Qed.

(** Printing a list of elements and taking the path apart are inverse. *)
Lemma components_path {E} dbg ws :
  Forall element ws → components (E:=E) dbg (mk_path ws) = Ok ws.
Proof.
  intros Hws. unfold components. rewrite debug_assert_mk_path by done.
  rewrite path_components_mk_path by done. cbn [mbind outcome_bind drop].
  apply map_components_normal.
Qed.

Lemma validate_str_mk_path ws : Forall element ws → validate_str (mk_path ws) = Ok ().
Proof. intros. apply validate_str_iff. eauto. Qed.

(** C31: the two validators accept the same texts, exactly the object paths of the
    D-Bus grammar (a root separator followed by non-empty elements of letters,
    digits and underscores), and [components] takes such a path apart into the
    elements it is written with. *)
Theorem object_path_grammar {E} dbg p :
  (validate_str p = Ok () ↔
     ∃ ws, Forall element ws ∧ p = mk_path ws ∧ components (E:=E) dbg p = Ok ws) ∧
  (validate p = Ok () ↔ validate_str p = Ok ()).
Proof.
  split; [|by rewrite validate_iff, validate_str_iff]. rewrite validate_str_iff. split.
  - intros (ws & Hws & ->). exists ws. by rewrite components_path.
  - intros (ws & Hws & -> & _). eauto.
Qed.

Lemma path_components_rel ws :
  ws ≠ [] → Forall element ws → path_components (join SEP ws) = map Normal ws.
Proof.
  intros Hne Hws. destruct Hws as [|w ws Hw Hws]; [done|].
  assert (components_of (join SEP (w :: ws)) = MkComponents false StartDir (w :: ws)) as Hc.
  { assert (split_on SEP (join SEP (w :: ws)) = w :: ws) as Hsp
      by (apply split_join; [done|apply elements_not_sep; by constructor]).
    destruct Hw as [Hne' Hname]. destruct w as [|c w]; [done|].
    apply Forall_cons in Hname as [Hc _].
    assert (∃ l, join SEP ((c :: w) :: ws) = c :: l) as [l Hl] by (destruct ws; by eexists).
    rewrite Hl in *. unfold components_of. rewrite decide_False by (intros ->; done).
    by rewrite Hsp. }
  unfold path_components. rewrite Hc. unfold comps_list. cbn -[decide].
  rewrite decide_False.
  - rewrite (element_plain _ Hw). by rewrite omap_plain by auto with rustbus.
  - intros ->. by destruct Hw as [_ [? _]%Forall_cons].
Qed.

(** Stripping the root and the elements [vs] of a path leaves the rest. *)
Lemma path_strip_prefix_mk_path vs us :
  Forall element (vs ++ us) →
  as_path <$> iter_after (components_of (mk_path (vs ++ us))) (RootDir :: map Normal vs) =
    Some (join SEP us).
Proof.
  intros Hws. rewrite components_of_mk_path by done. cbn.
  case_decide; [|done]. case_decide as Hd.
  - apply app_eq_nil in Hd as [-> ->]. done.
  - rewrite iter_after_plain by (apply Forall_app in Hws as [? _]; auto with rustbus).
    apply Forall_app in Hws as [_ Hus]. apply elements_plain in Hus.
    cbn [fmap option_fmap option_map as_path front pieces].
    by rewrite trim_left_plain, trim_right_plain.
Qed.

Lemma drop_mk_path vs us :
  us ≠ [] → Forall element (vs ++ us) →
  length (join SEP us) < length (mk_path (vs ++ us)) ∧
  drop (length (mk_path (vs ++ us)) - 1 - length (join SEP us)) (mk_path (vs ++ us)) =
    mk_path us.
Proof.
  intros Hus Hws. unfold mk_path. destruct (decide (vs = [])) as [->|Hvs].
  - cbn [app length]. split; [lia|]. by rewrite Nat.sub_succ, Nat.sub_0_r, Nat.sub_diag.
  - rewrite join_app by done. cbn [length]. rewrite length_app. cbn [length].
    split; [lia|].
    replace (_ - 1 - _) with (length (SEP :: join SEP vs)) by (cbn; lia).
    by rewrite app_comm_cons, drop_app_length.
Qed.

(** [ObjectPath::strip_prefix] by an arbitrary path [p], on every branch: a
    component-wise prefix is removed and the rest is again a valid object path
    (no panic, and the debug assertion holds); a non-prefix is an error; and a
    [p] without components (the empty path) panics. *)
Theorem strip_prefix_spec dbg ws p :
  Forall element ws →
  (∀ vs us, path_components p = RootDir :: map Normal vs → ws = vs ++ us →
    strip_prefix dbg (mk_path ws) p = Ok (mk_path us)) ∧
  (¬ path_components p `prefix_of` RootDir :: map Normal ws →
    strip_prefix dbg (mk_path ws) p = Err PrefixNotFound) ∧
  (path_components p = [] → strip_prefix dbg (mk_path ws) p = Panic).
Proof.
  intros Hws. unfold strip_prefix, path_strip_prefix. split_and!.
  - intros vs us Hp ->. rewrite Hp, path_strip_prefix_mk_path by done.
    cbn [ok_or mbind outcome_bind]. apply Forall_app in Hws as Hws'. destruct Hws' as [_ Hus].
    unfold path_eqb. case_bool_decide as Heq.
    + destruct (decide (us = [])) as [->|Hne]; [done|].
      rewrite path_components_rel in Heq by done. by destruct us.
    + assert (us ≠ []) as Hne by (intros ->; done).
      destruct (drop_mk_path vs us Hne Hws) as [Hlt Hdrop].
      rewrite decide_False by lia. rewrite Hdrop, debug_assert_mk_path by done. done.
  - intros Hn. rewrite <- path_components_mk_path in Hn by done.
    pose proof (iter_after_list (components_of (mk_path ws)) (path_components p)) as Hi.
    destruct (iter_after _ _) as [c|]; [|done]. exfalso. apply Hn.
    change (path_components (mk_path ws)) with (comps_list (components_of (mk_path ws))).
    rewrite Hi. by eexists.
  - intros ->. cbn [iter_after fmap option_fmap option_map ok_or mbind outcome_bind].
    rewrite components_of_mk_path by done. unfold as_path. cbn [front has_root].
    assert (join SEP (trim_right (pieces (MkComponents true StartDir
      (if decide (ws = []) then [[]] else ws)))) = join SEP ws) as ->.
    { cbn. case_decide; [by subst|]. by rewrite trim_right_plain by auto with rustbus. }
    change (SEP :: join SEP ws) with (mk_path ws).
    unfold path_eqb. rewrite path_components_mk_path by done. cbn.
    by rewrite decide_True by lia.
Qed.

Lemma reverse_snoc_plain (ws : list bytes) w :
  plain w → trim_left (reverse (ws ++ [w])) = w :: reverse ws.
Proof. intros Hw. rewrite reverse_snoc. cbn. by rewrite Hw. Qed.

Lemma next_back_mk_path ws w :
  Forall element (ws ++ [w]) →
  comps_next_back (components_of (mk_path (ws ++ [w]))) =
    Some (Normal w, MkComponents true StartDir ws).
Proof.
  intros Hws. rewrite components_of_mk_path, decide_False by (done || by destruct ws).
  unfold comps_next_back. cbn [pieces has_root front].
  apply Forall_app in Hws as [_ Hw%Forall_singleton%element_plain].
  rewrite reverse_snoc_plain by done. cbn. rewrite Hw. cbn. by rewrite reverse_involutive.
Qed.

Lemma path_parent_mk_path ws w :
  Forall element (ws ++ [w]) → path_parent (mk_path (ws ++ [w])) = Some (mk_path ws).
Proof.
  intros Hws. unfold path_parent. rewrite next_back_mk_path by done.
  apply Forall_app in Hws as [Hws _]. apply elements_plain in Hws.
  unfold as_path. cbn [front has_root pieces]. by rewrite trim_right_plain.
Qed.

(** [parent] removes the last element and [file_name] returns it; the root has
    neither.  Both results are valid, so the debug assertions never fire. *)
Theorem parent_file_name_spec {E} dbg ws w :
  Forall element (ws ++ [w]) →
  parent (E:=E) dbg (mk_path (ws ++ [w])) = Ok (Some (mk_path ws)) ∧
  file_name (E:=E) dbg (mk_path (ws ++ [w])) = Ok (Some w) ∧
  parent (E:=E) dbg (mk_path []) = Ok None ∧
  file_name (E:=E) dbg (mk_path []) = Ok None.
Proof.
  intros Hws. split_and!.
  - unfold parent. rewrite path_parent_mk_path by done.
    apply Forall_app in Hws as [? _]. by rewrite debug_assert_mk_path.
  - unfold file_name. rewrite debug_assert_mk_path by done. cbn.
    unfold path_file_name. by rewrite next_back_mk_path.
  - done.
  - unfold file_name. by rewrite debug_assert_mk_path.
Qed.

(** ** [ObjectPathBuf] *)

(** The buffer holds the object path with the given elements. *)
Definition holds (b : ObjectPathBuf) (ws : list bytes) : Prop :=
  deref b = mk_path ws ∧ Forall element ws.

Lemma last_element w : element w → last w ≠ Some SEP.
Proof. intros Hw (l & ->)%last_Some. apply element_not_sep in Hw. set_solver. Qed.

Lemma pathbuf_push_mk_path ws vs :
  Forall element ws → Forall element vs → vs ≠ [] →
  pathbuf_push (mk_path ws) (join SEP vs) = mk_path (ws ++ vs).
Proof.
  intros Hws Hvs Hne. unfold pathbuf_push.
  assert (path_has_root (join SEP vs) = false) as ->.
  { destruct Hvs as [|v vs [Hv1 Hv2] _]; [done|]. destruct v as [|c v]; [done|].
    apply Forall_cons in Hv2 as [Hc _].
    assert (bool_decide (c = SEP) = false) by (apply bool_decide_eq_false; by intros ->).
    by destruct vs. }
  destruct (decide (ws = [])) as [->|Hws0]; [done|].
  assert (last (mk_path ws) ≠ Some SEP) as Hl.
  { unfold mk_path. rewrite last_join_sep by auto with rustbus. by apply elements_last. }
  unfold mk_path at 1. destruct (last (mk_path ws)) as [c|] eqn:Hc.
  - unfold mk_path in Hc. rewrite Hc. rewrite decide_False by congruence.
    unfold mk_path. by rewrite join_app.
  - by apply last_None in Hc.
Qed.

Lemma holds_reserve b ws n : holds b ws → n ≠ 0 → inner (reserve b n) = Some (mk_path ws).
Proof.
  intros [Hd Hws] Hn. unfold reserve. rewrite decide_False by done.
  destruct b as [[buf|]]; cbn in *; [by subst|].
  unfold with_capacity. rewrite decide_False by lia. rewrite <- Hd. done.
Qed.

Lemma push_path_unchecked_spec {E} dbg b ws vs :
  holds b ws → Forall element vs →
  ∃ b', push_path_unchecked (E:=E) dbg b (join SEP vs) = Ok b' ∧ holds b' (ws ++ vs).
Proof.
  intros Hb Hvs. unfold push_path_unchecked. case_decide as Hl.
  - apply length_zero_iff_nil, join_elements_nil in Hl as ->; [|done].
    exists b. by rewrite app_nil_r.
  - erewrite holds_reserve by (done || lia). cbn.
    assert (vs ≠ []) by (by intros ->). destruct Hb as [Hd Hws].
    rewrite pathbuf_push_mk_path by done.
    assert (Forall element (ws ++ vs)) by by apply Forall_app.
    rewrite debug_assert_mk_path by done. cbn. eexists. split; [done|]. done.
Qed.

(** [push] appends the elements of its argument. *)
Lemma push_appends {E} dbg b ws vs :
  holds b ws → Forall element vs →
  ∃ b', push (E:=E) dbg b (mk_path vs) = Ok b' ∧ holds b' (ws ++ vs).
Proof.
  intros Hb Hvs. unfold push, path_strip_prefix.
  change (path_components root_path) with (RootDir :: map Normal []).
  pose proof (path_strip_prefix_mk_path [] vs Hvs) as Hs. cbn [app] in Hs. rewrite Hs.
  by apply push_path_unchecked_spec.
Qed.

(** Popping undoes pushing one element; the root cannot be popped. *)
Lemma pop_spec b ws :
  holds b ws →
  (ws = [] → pop b = (b, false)) ∧
  (∀ vs v, ws = vs ++ [v] → holds (pop b).1 vs ∧ (pop b).2 = true).
Proof.
  intros [Hd Hws]. destruct b as [[buf|]]; cbn in Hd; subst; split.
  - by intros ->.
  - intros vs v ->. unfold pop, pathbuf_pop. cbn [inner].
    rewrite path_parent_mk_path by done. cbn [fst snd].
    apply Forall_app in Hws as [Hvs _]. split; [|done]. split; [|done]. cbn [deref inner].
    assert (∃ l, mk_path (vs ++ [v]) = mk_path vs ++ l) as [l ->]; [|apply take_app_length].
    destruct (decide (vs = [])) as [->|]; [by exists v|].
    unfold mk_path. rewrite join_app by done. by eexists.
  - done.
  - intros vs v ->. injection Hd as Hd. symmetry in Hd.
    apply join_elements_nil in Hd; [|done]. by destruct vs.
Qed.

(** What [push_path_checked] validates is relative, whatever the argument. *)
Lemma strip_root_relative p : path_has_root (default p (path_strip_prefix p root_path)) = false.
Proof.
  destruct (path_has_root p) eqn:Hr.
  - destruct p as [|c p]; [done|]. apply bool_decide_eq_true in Hr as ->.
    unfold path_strip_prefix. change (path_components root_path) with [RootDir].
    apply (as_path_relative (MkComponents true Body (split_on SEP p))); [done|].
    apply split_on_pieces.
  - rewrite path_strip_prefix_relative by (done || by left). done.
Qed.

(** [push_path_checked] appends the elements its argument spells, or fails. *)
Lemma push_path_checked_appends dbg b ws path :
  holds b ws →
  (∃ e, push_path_checked dbg b path = Err e) ∨
  (∃ vs b', Forall element vs ∧
    default path (path_strip_prefix path root_path) = join SEP vs ∧
    push_path_checked dbg b path = Ok b' ∧ holds b' (ws ++ vs)).
Proof.
  intros Hb. unfold push_path_checked. pose proof (strip_root_relative path) as Hrel.
  set (p := default path (path_strip_prefix path root_path)) in *.
  destruct (utf8_valid p); cbn; [|eauto].
  destruct (validate_skip_root p) as [[]|e|] eqn:Hv; cbn; [|eauto|].
  - right. apply validate_skip_root_relative in Hv; [|done].
    assert (∃ vs, Forall element vs ∧ p = join SEP vs) as (vs & Hvs & ->).
    { destruct Hv as [->|Hv]; [by exists []|]. exists (split_on SEP p). by rewrite join_split. }
    destruct (push_path_unchecked_spec (E:=InvalidObjectPath) dbg b ws vs Hb Hvs)
      as (b' & Hp & Hb').
    eauto 10.
  - by apply validate_skip_root_no_panic in Hv.
Qed.

(** pushing on a valid buffer.  [push] appends the elements of an object path;
    [push_path_checked] appends the elements any text spells after an optional root,
    or reports an error; neither ever panics; and [pop] undoes a push of one
    element. *)
Theorem push_spec dbg b ws :
  holds b ws →
  (∀ vs, Forall element vs →
     ∃ b', push (E:=unit) dbg b (mk_path vs) = Ok b' ∧ holds b' (ws ++ vs)) ∧
  (∀ path, (∃ e, push_path_checked dbg b path = Err e) ∨
     (∃ vs b', Forall element vs ∧
       default path (path_strip_prefix path root_path) = join SEP vs ∧
       push_path_checked dbg b path = Ok b' ∧ holds b' (ws ++ vs))) ∧
  (∀ w, element w → ∃ b', push (E:=unit) dbg b (mk_path [w]) = Ok b' ∧
     holds (pop b').1 ws ∧ (pop b').2 = true).
Proof.
  intros Hb. split_and!.
  - intros vs. by apply push_appends.
  - intros path. by apply push_path_checked_appends.
  - intros w Hw. destruct (push_appends (E:=unit) dbg b ws [w] Hb) as (b' & Hp & Hb');
      [by apply Forall_singleton|]. exists b'. split; [done|].
    by apply (proj2 (pop_spec b' (ws ++ [w]) Hb') ws w).
Qed.

(** ** The validity invariant of [ObjectPathBuf] *)

Definition valid_buf (b : ObjectPathBuf) : Prop := validate (deref b) = Ok ().

Lemma valid_buf_holds b : valid_buf b ↔ ∃ ws, holds b ws.
Proof. unfold valid_buf, holds. rewrite validate_iff. naive_solver. Qed.

(** The mutating methods; [push] takes an [&ObjectPath]. *)
Inductive buf_op :=
| OpPush (p : bytes)
| OpPushPathChecked (p : bytes)
| OpPop
| OpReserve (n : nat)
| OpReserveExact (n : nat)
| OpClear.

Definition run_op (dbg : bool) (op : buf_op) (b : ObjectPathBuf)
    : outcome InvalidObjectPath ObjectPathBuf :=
  match op with
  | OpPush p => push dbg b p
  | OpPushPathChecked p => push_path_checked dbg b p
  | OpPop => Ok (pop b).1
  | OpReserve n => Ok (reserve b n)
  | OpReserveExact n => Ok (reserve_exact b n)
  | OpClear => Ok (clear b)
  end.

(** [clear] on a heap buffer and [reserve_exact] on the root leave the empty text:
    the last theorem of this file shows what that breaks. *)
Definition op_safe (op : buf_op) (b : ObjectPathBuf) : Prop :=
  match op with
  | OpPush p => validate p = Ok ()
  | OpReserveExact n => n = 0 ∨ inner b ≠ None
  | OpClear => inner b = None
  | _ => True
  end.

(** every other method keeps a valid buffer valid, and does not panic. *)
Theorem run_op_valid dbg op b :
  valid_buf b → op_safe op b →
  (∃ b', run_op dbg op b = Ok b' ∧ valid_buf b') ∨ (∃ e, run_op dbg op b = Err e).
Proof.
  rewrite valid_buf_holds. intros [ws Hb] Hop. destruct op as [p|p| |n|n|]; cbn in *.
  - apply validate_iff in Hop as (vs & Hvs & ->). left.
    destruct (push_appends (E:=InvalidObjectPath) dbg b ws vs Hb Hvs) as (b' & -> & Hb').
    exists b'. split; [done|]. apply valid_buf_holds. eauto.
  - destruct (push_path_checked_appends dbg b ws p Hb) as [?|(vs & b' & _ & _ & -> & Hb')];
      [by right|]. left. exists b'. split; [done|]. apply valid_buf_holds. eauto.
  - left. eexists. split; [done|]. apply valid_buf_holds.
    destruct (pop_spec b ws Hb) as [Hnil Hsnoc].
    destruct ws as [|v vs _] using rev_ind; [rewrite Hnil by done; eauto|].
    eexists. by apply (Hsnoc vs v).
  - left. eexists. split; [done|]. apply valid_buf_holds. exists ws.
    destruct (decide (n = 0)) as [->|Hn]; [done|].
    split; [|apply Hb]. unfold deref. by erewrite holds_reserve.
  - left. eexists. split; [done|]. apply valid_buf_holds. exists ws.
    unfold reserve_exact. case_decide; [done|]. by destruct (inner b), Hop.
  - left. eexists. split; [done|]. apply valid_buf_holds. exists ws.
    unfold clear. by rewrite Hop.
Qed.

(** [clear] on a buffer with a heap allocation, and [reserve_exact] on one
    without, leave the empty text instead of the root [/]: the buffer is no
    longer an object path, and pushing an element then yields a relative path. *)
Theorem clear_reserve_exact_invalid b n :
  (inner b ≠ None → validate (deref (clear b)) = Err NoRoot) ∧
  (inner b = None → n ≠ 0 → validate (deref (reserve_exact b n)) = Err NoRoot) ∧
  (inner b ≠ None → deref <$> push (E:=unit) false (clear b) (lit "/a") = Ok (lit "a")).
Proof.
  destruct b as [[buf|]]; split_and!; try done.
  intros _ Hn. unfold reserve_exact. by rewrite decide_False.
Qed.

(** ** The theorems at concrete paths *)

Definition usr_local : list bytes := [lit "usr"; lit "local"].

Lemma usr_local_elements : Forall element usr_local.
Proof. by apply (bool_decide_unpack _); vm_compute. Qed.

Lemma strip_prefix_spec_witness :
  strip_prefix true (lit "/usr/local") (lit "/usr/") = Ok (lit "/local").
Proof.
  refine (proj1 (strip_prefix_spec true usr_local (lit "/usr/") usr_local_elements)
    [lit "usr"] [lit "local"] _ _); reflexivity.
Defined.

Lemma parent_file_name_spec_witness :
  parent (E:=unit) true (lit "/usr/local") = Ok (Some (lit "/usr")).
Proof. exact (proj1 (parent_file_name_spec true [lit "usr"] (lit "local") usr_local_elements)). Defined.

Lemma push_spec_witness :
  (∃ b', push (E:=unit) true buf_new (lit "/usr/local") = Ok b' ∧ holds b' usr_local) ∧
  ∃ e, push_path_checked true buf_new (lit "usr//local") = Err e.
Proof.
  assert (holds buf_new []) as Hb by (split; [reflexivity|constructor]).
  split; [exact (proj1 (push_spec true buf_new [] Hb) usr_local usr_local_elements)|].
  destruct (proj1 (proj2 (push_spec true buf_new [] Hb)) (lit "usr//local"))
    as [He|(vs & b' & _ & _ & Hok & _)]; [exact He|vm_compute in Hok; discriminate Hok].
Defined.

Lemma run_op_valid_witness :
  (∃ b', run_op true (OpPush (lit "/usr")) buf_new = Ok b' ∧ valid_buf b') ∨
  (∃ e, run_op true (OpPush (lit "/usr")) buf_new = Err e).
Proof. refine (run_op_valid true (OpPush (lit "/usr")) buf_new _ _); vm_compute; reflexivity. Defined.
