(* ===== verification/Body.v ===== *)
(** * message_builder/body.rs: message bodies

    [MarshalledMessageBody] with its push operations (each rolls the body back
    when marshalling fails) and [MessageBodyParser] with its get operations
    (each leaves the parser alone when unmarshalling fails).

    What a value of a Rust type marshals to is code of rustbus, so a value to
    push is a [Param]: its [Marshal] implementation as functions on the marshal
    context, with [appends] the law of that trait.  The signature types, their
    parser and the raw validator are parameters of the parser's section.  The
    [Arc] around the buffer is copy-on-write ([Arc::make_mut]), so a body's
    buffer is a value here. *)

From S2P Require Import Prelude Utils SigStr.
From Stdlib Require Import Lia.

(** A file descriptor ([UnixFd]), by its number. *)
Definition Fd := nat.

(** [rustbus::Error], as far as the crate constructs it; [LibError] stands for the
    errors rustbus itself returns. *)
Inductive SigError := TooManyTypes | NestingTooDeep.

Inductive Error :=
| InvalidSignature (e : SigError)
| InvalidObjectPathErr
| LibError (code : N).

(** [rustbus::wire::marshal::MarshalContext]. *)
Record MarshalContext := MkCtx {
  ctx_byteorder : ByteOrder;
  ctx_buf : bytes;
  ctx_fds : list Fd;
}.

(** A value with its [Marshal] implementation: [marshal], [marshal_as_variant]
    and [sig_str].  A failing [marshal] may already have written. *)
Record Param := MkParam {
  marshal : MarshalContext → MarshalContext * outcome Error unit;
  marshal_as_variant : MarshalContext → MarshalContext * outcome Error unit;
  sig_str : bytes → bytes;
}.

(** The law of the trait: implementations only append. *)
Definition ctx_extends (c c' : MarshalContext) : Prop :=
  ctx_byteorder c' = ctx_byteorder c ∧
  ctx_buf c `prefix_of` ctx_buf c' ∧ ctx_fds c `prefix_of` ctx_fds c'.

Class Appends (p : Param) : Prop := {
  marshal_extends c : ctx_extends c (marshal p c).1;
  marshal_as_variant_extends c : ctx_extends c (marshal_as_variant p c).1;
  sig_str_extends s : s `prefix_of` sig_str p s;
}.

Record MarshalledMessageBody := MkBody {
  buf : bytes;
  sig : bytes;
  raw_fds : list Fd;
  byteorder : ByteOrder;
}.

Definition with_byteorder (b : ByteOrder) : MarshalledMessageBody := MkBody [] [] [] b.

Definition body_new : MarshalledMessageBody := with_byteorder LittleEndian.

Definition from_parts (b : bytes) (fds : list Fd) (s : bytes) (bo : ByteOrder)
    : MarshalledMessageBody := MkBody b s fds bo.

(** [reset]. *)
Definition reset (b : MarshalledMessageBody) : MarshalledMessageBody :=
  MkBody [] [] (raw_fds b) (byteorder b).

(** What [create_ctx2] hands to the closures, and what they leave. *)
Definition push_state : Type := MarshalContext * bytes.

Definition push_fn : Type := push_state → push_state * outcome Error unit.

Definition create_ctx2 (b : MarshalledMessageBody) : push_state :=
  (MkCtx (byteorder b) (buf b) (raw_fds b), sig b).

Definition of_ctx (b : MarshalledMessageBody) (s : push_state) : MarshalledMessageBody :=
  MkBody (ctx_buf s.1) s.2 (ctx_fds s.1) (byteorder b).

(** [push_param_helper]: on an error everything is truncated back. *)
Definition push_param_helper (f : push_fn) (b : MarshalledMessageBody)
    : MarshalledMessageBody * outcome Error unit :=
  let fd_pre_cnt := length (raw_fds b) in
  let buf_pre_len := length (buf b) in
  let sig_pre_len := length (sig b) in
  let '(s, r) := f (create_ctx2 b) in
  let b' := of_ctx b s in
  match r with
  | Err e =>
      (MkBody (take buf_pre_len (buf b')) (take sig_pre_len (sig b'))
              (take fd_pre_cnt (raw_fds b')) (byteorder b'), Err e)
  | r => (b', r)
  end.

(** [push_param_core]. *)
Definition push_param_core (p : Param) : push_fn := λ '(ctx, s),
  let '(ctx', r) := marshal p ctx in
  match r with
  | Ok _ =>
      let pre_len := length s in
      let s' := sig_str p s in
      if decide (255 < length s') then ((ctx', s'), Err (InvalidSignature TooManyTypes)) else
      match validate_sig_str (drop pre_len s') with
      | Ok _ => ((ctx', s'), Ok ())
      | Err (ArraysTooNested | StructsTooNested) =>
          ((ctx', s'), Err (InvalidSignature NestingTooDeep))
      | _ => ((ctx', s'), Panic)
      end
  | r => ((ctx', s), r)
  end.

(** [f?; g] on closures. *)
Definition and_then (f g : push_fn) : push_fn := λ s,
  let '(s', r) := f s in
  match r with
  | Ok _ => g s'
  | r => (s', r)
  end.

Definition push_ok : push_fn := λ s, (s, Ok ()).

Definition push_param (p : Param) := push_param_helper (push_param_core p).

Definition push_param2 (p1 p2 : Param) :=
  push_param_helper (and_then (push_param_core p1) (push_param_core p2)).

Definition push_param3 (p1 p2 p3 : Param) :=
  push_param_helper (and_then (push_param_core p1)
    (and_then (push_param_core p2) (push_param_core p3))).

Definition push_param4 (p1 p2 p3 p4 : Param) :=
  push_param_helper (and_then (push_param_core p1)
    (and_then (push_param_core p2) (and_then (push_param_core p3) (push_param_core p4)))).

Definition push_param5 (p1 p2 p3 p4 p5 : Param) :=
  push_param_helper (and_then (push_param_core p1)
    (and_then (push_param_core p2) (and_then (push_param_core p3)
      (and_then (push_param_core p4) (push_param_core p5))))).

(** The loop of [push_params]. *)
Fixpoint push_all (ps : list Param) : push_fn :=
  match ps with
  | [] => push_ok
  | p :: ps' => and_then (push_param_core p) (push_all ps')
  end.

Definition push_params (ps : list Param) := push_param_helper (push_all ps).

Definition push_variant_fn (p : Param) : push_fn := λ '(ctx, s),
  let '(ctx', r) := marshal_as_variant p ctx in
  match r with
  | Ok _ =>
      let s' := s ++ lit "v" in
      if decide (255 < length s') then ((ctx', s'), Err (InvalidSignature TooManyTypes))
      else ((ctx', s'), Ok ())
  | r => ((ctx', s), r)
  end.

Definition push_variant (p : Param) := push_param_helper (push_variant_fn p).

(** ** Pushing: rollback and the signature invariant *)

Definition state_extends (s s' : push_state) : Prop :=
  ctx_extends s.1 s'.1 ∧ s.2 `prefix_of` s'.2.

(** A body whose signature is a legal D-Bus signature. *)
Definition sig_legal (s : bytes) : Prop :=
  length s ≤ 255 ∧ many MAX_NESTING_DEPTH MAX_NESTING_DEPTH STACK_CAPACITY s.

(** The closures the push methods build. *)
Record push_fn_ok (f : push_fn) : Prop := {
  pf_extends s : state_extends s (f s).1;
  pf_legal s : (f s).2 = Ok () → sig_legal s.2 → sig_legal (f s).1.2;
}.

#[export] Instance ctx_extends_preorder : PreOrder ctx_extends.
Proof.
  split; [by split|].
  intros a b c (H1 & H2 & H3) (H4 & H5 & H6). split_and!; [congruence| |]; by etrans.
Qed.

#[export] Instance state_extends_preorder : PreOrder state_extends.
Proof.
  split; [by split|]. intros a b c [H1 H2] [H3 H4]. split; by etrans.
Qed.

Lemma many_app a b c s t : many a b c s → many a b c t → many a b c (s ++ t).
Proof.
  intros Hs Ht. induction Hs as [|a b c u v Hu Hv IH]; [done|].
  rewrite <- app_assoc. apply many_cons; auto.
Qed.

Lemma push_param_core_ok p : Appends p → push_fn_ok (push_param_core p).
Proof.
  intros Hp. split.
  - intros [ctx s]. unfold push_param_core. pose proof (marshal_extends (p:=p) ctx) as Hm.
    destruct (marshal p ctx) as [ctx' r]. cbn in Hm.
    pose proof (sig_str_extends (p:=p) s).
    destruct r; [|by split|by split].
    repeat case_match; by split.
  - intros [ctx s]. unfold push_param_core. destruct (marshal p ctx) as [ctx' r].
    pose proof (sig_str_extends (p:=p) s) as [k Hk].
    destruct r; [|done|done]. case_decide; [done|].
    destruct (validate_sig_str _) as [[]|[]|] eqn:Hv; try done.
    intros _ [_ Hs]. cbn. apply scanner_grammar in Hv as [_ Hv]. split; [lia|].
    rewrite Hk in *. rewrite drop_app_length in Hv. by apply many_app.
Qed.

Lemma and_then_ok f g : push_fn_ok f → push_fn_ok g → push_fn_ok (and_then f g).
Proof.
  intros [Hf1 Hf2] [Hg1 Hg2]. split; intros s; unfold and_then;
    specialize (Hf1 s); specialize (Hf2 s); destruct (f s) as [s' r]; cbn in *.
  - destruct r as [[]| |]; cbn; [|done|done]. by etrans.
  - destruct r as [[]| |]; cbn; [|done|done]. auto.
Qed.

Lemma push_all_ok ps : Forall Appends ps → push_fn_ok (push_all ps).
Proof.
  induction 1; cbn; [by split|]. apply and_then_ok; [by apply push_param_core_ok|done].
Qed.

Lemma push_variant_fn_ok p : Appends p → push_fn_ok (push_variant_fn p).
Proof.
  intros Hp. split.
  - intros [ctx s]. unfold push_variant_fn.
    pose proof (marshal_as_variant_extends (p:=p) ctx) as Hm.
    destruct (marshal_as_variant p ctx) as [ctx' r]. cbn in Hm.
    destruct r; [|by split|by split].
    case_decide; (split; [done|by apply prefix_app_r]).
  - intros [ctx s]. unfold push_variant_fn. destruct (marshal_as_variant p ctx) as [ctx' r].
    destruct r; [|done|done]. case_decide; [done|]. intros _ [_ Hs].
    cbn. change (lit "v") with ["v"%char] in *. split; [lia|].
    apply many_snoc; [done|]. apply single_base. by right.
Qed.

(** C34: the push methods are atomic and keep the signature legal.  For the
    closure [f] of any of them: on an error the body is exactly what it was; on
    success the buffer, the signature and the descriptors are extended, and a
    legal signature stays legal (at most 255 characters of complete types within
    the nesting limits). *)
Theorem push_param_helper_atomic f b :
  push_fn_ok f →
  (∀ e, (push_param_helper f b).2 = Err e → (push_param_helper f b).1 = b) ∧
  ((push_param_helper f b).2 = Ok () →
    let b' := (push_param_helper f b).1 in
    buf b `prefix_of` buf b' ∧ sig b `prefix_of` sig b' ∧
    raw_fds b `prefix_of` raw_fds b' ∧ byteorder b' = byteorder b ∧
    (sig_legal (sig b) → sig_legal (sig b'))).
Proof.
  intros [Hf1 Hf2]. specialize (Hf1 (create_ctx2 b)). specialize (Hf2 (create_ctx2 b)).
  unfold push_param_helper. destruct (f (create_ctx2 b)) as [[ctx s] r]. cbn in *.
  destruct Hf1 as [(_ & [k1 Hk1] & [k2 Hk2]) [k3 Hk3]]. cbn in *.
  destruct r as [[]|e|]; cbn; split; try done.
  - intros _. split_and!; [by exists k1|by exists k3|by exists k2|done|auto].
  - intros ? _. destruct b as [b1 b2 b3 b4]. cbn in *.
    rewrite Hk1, Hk2, Hk3. by rewrite !take_app_length.
Qed.

(** Every public push method is an instance. *)
Lemma push_methods_ok p1 p2 p3 p4 p5 ps :
  Appends p1 → Appends p2 → Appends p3 → Appends p4 → Appends p5 → Forall Appends ps →
  Forall push_fn_ok
    [push_param_core p1; and_then (push_param_core p1) (push_param_core p2);
     and_then (push_param_core p1) (and_then (push_param_core p2) (push_param_core p3));
     and_then (push_param_core p1)
       (and_then (push_param_core p2) (and_then (push_param_core p3) (push_param_core p4)));
     and_then (push_param_core p1) (and_then (push_param_core p2)
       (and_then (push_param_core p3) (and_then (push_param_core p4) (push_param_core p5))));
     push_all ps; push_variant_fn p1].
Proof.
  intros. rewrite !Forall_cons. split_and!; try by constructor.
  all: auto 10 using push_param_core_ok, and_then_ok, push_all_ok, push_variant_fn_ok.
Qed.

(** [reset] gives the empty buffer and signature of a new body, but keeps the
    file descriptors: it is [with_byteorder] exactly when there are none. *)
Theorem reset_spec b :
  buf (reset b) = [] ∧ sig (reset b) = [] ∧ raw_fds (reset b) = raw_fds b ∧
  (reset b = with_byteorder (byteorder b) ↔ raw_fds b = []).
Proof.
  split_and!; try done. unfold reset, with_byteorder.
  split; [congruence|]. by intros ->.
Qed.

(** ** [MessageBodyParser] *)

(** [unmarshal::Error], as far as the crate constructs it. *)
Inductive UnmarshalError :=
| EndOfMessage
| WrongSignature
| NotAllBytesUsed
| NotEnoughBytes
| NotEnoughBytesForCollection
| InvalidHeaderField
| InvalidType
| LibUnmarshalError (code : N).

Record UnmarshalContext := MkUCtx {
  u_byteorder : ByteOrder;
  u_buf : bytes;
  u_offset : nat;
  u_fds : list Fd;
}.

Section parser.
(** [rustbus::signature::Type], its parser and the raw validator. *)
Context {Ty : Type} `{EqDecision Ty}.
Context (parse_description : bytes → outcome UnmarshalError (list Ty)).
Context (validate_marshalled :
  ByteOrder → nat → bytes → Ty → outcome UnmarshalError nat).

(** The loop of [validate]. *)
Fixpoint validate_types (b : MarshalledMessageBody) (types : list Ty) (used : nat)
    : outcome UnmarshalError nat :=
  match types with
  | [] => Ok used
  | typ :: types' =>
      u ← validate_marshalled (byteorder b) used (buf b) typ;
      validate_types b types' (used + u)
  end.

(** [MarshalledMessageBody::validate]. *)
Definition validate (b : MarshalledMessageBody) : outcome UnmarshalError unit :=
  if decide (sig b = [] ∧ buf b = []) then Ok () else
  types ← parse_description (sig b);
  used ← validate_types b types 0;
  if decide (used = length (buf b)) then Ok () else Err NotAllBytesUsed.

Record MessageBodyParser := MkParser {
  buf_idx : nat;
  sig_idx : nat;
  sigs : list Ty;
  body : MarshalledMessageBody;
}.

(** [MessageBodyParser::new]: [is_empty_signature] recognises
    [signature::Error::EmptySignature]; any other error is a panic. *)
Context (is_empty_signature : UnmarshalError → bool).

Definition parser_new (b : MarshalledMessageBody) : outcome UnmarshalError MessageBodyParser :=
  match parse_description (sig b) with
  | Ok s => Ok (MkParser 0 0 s b)
  | Err e => if is_empty_signature e then Ok (MkParser 0 0 [] b) else Panic
  | Panic => Panic
  end.

Definition get_next_sig (p : MessageBodyParser) : option Ty := sigs p !! sig_idx p.

Definition get_left_sigs (p : MessageBodyParser) : option (list Ty) :=
  if decide (sig_idx p ≤ length (sigs p)) then Some (drop (sig_idx p) (sigs p)) else None.

(** A type with its [Unmarshal] implementation. *)
Record Unmarshal (T : Type) := MkUnmarshal {
  u_signature : Ty;
  u_unmarshal : UnmarshalContext → outcome UnmarshalError (nat * T);
}.
Arguments u_signature {T}.
Arguments u_unmarshal {T}.

(** A get operation: the result and the parser afterwards. *)
Definition getter (T : Type) : Type :=
  MessageBodyParser → outcome UnmarshalError T * MessageBodyParser.

(** [get]. *)
Definition get {T} (U : Unmarshal T) : getter T := λ p,
  if decide (length (sigs p) ≤ sig_idx p) then (Err EndOfMessage, p) else
  match sigs p !! sig_idx p with
  | None => (Panic, p)
  | Some t =>
      if decide (t = u_signature U) then
        let ctx := MkUCtx (byteorder (body p)) (buf (body p)) (buf_idx p)
                          (raw_fds (body p)) in
        match u_unmarshal U ctx with
        | Ok (n, res) =>
            (Ok res, MkParser (buf_idx p + n) (sig_idx p + 1) (sigs p) (body p))
        | Err e => (Err e, p)
        | Panic => (Panic, p)
        end
      else (Err WrongSignature, p)
  end.

(** [get_mult_helper]. *)
Definition get_mult_helper {T} (count : nat) (get_calls : getter T) : getter T := λ p,
  if decide (length (sigs p) < sig_idx p + count) then (Err EndOfMessage, p) else
  match get_calls p with
  | (Err err, p') => (Err err, MkParser (buf_idx p) (sig_idx p) (sigs p') (body p'))
  | r => r
  end.

(** [let ret = f()?; g(ret)] on getters. *)
Definition get_then {T U} (f : getter T) (g : T → getter U) : getter U := λ p,
  match f p with
  | (Ok x, p') => g x p'
  | (Err e, p') => (Err e, p')
  | (Panic, p') => (Panic, p')
  end.

Definition get_ret {T} (x : T) : getter T := λ p, (Ok x, p).

Definition get2 {T1 T2} (U1 : Unmarshal T1) (U2 : Unmarshal T2) : getter (T1 * T2) :=
  get_mult_helper 2 (get_then (get U1) (λ r1, get_then (get U2) (λ r2, get_ret (r1, r2)))).

Definition get3 {T1 T2 T3} (U1 : Unmarshal T1) (U2 : Unmarshal T2) (U3 : Unmarshal T3)
    : getter (T1 * T2 * T3) :=
  get_mult_helper 3 (get_then (get U1) (λ r1, get_then (get U2) (λ r2,
    get_then (get U3) (λ r3, get_ret (r1, r2, r3))))).

Definition get4 {T1 T2 T3 T4} (U1 : Unmarshal T1) (U2 : Unmarshal T2) (U3 : Unmarshal T3)
    (U4 : Unmarshal T4) : getter (T1 * T2 * T3 * T4) :=
  get_mult_helper 4 (get_then (get U1) (λ r1, get_then (get U2) (λ r2,
    get_then (get U3) (λ r3, get_then (get U4) (λ r4, get_ret (r1, r2, r3, r4)))))).

Definition get5 {T1 T2 T3 T4 T5} (U1 : Unmarshal T1) (U2 : Unmarshal T2)
    (U3 : Unmarshal T3) (U4 : Unmarshal T4) (U5 : Unmarshal T5)
    : getter (T1 * T2 * T3 * T4 * T5) :=
  get_mult_helper 5 (get_then (get U1) (λ r1, get_then (get U2) (λ r2,
    get_then (get U3) (λ r3, get_then (get U4) (λ r4,
    get_then (get U5) (λ r5, get_ret (r1, r2, r3, r4, r5))))))).

(** A getter of [n] parameters: on success it consumes exactly [n] types; the
    signatures and the body never change. *)
Definition reads {T} (n : nat) (g : getter T) : Prop := ∀ p,
  sigs (g p).2 = sigs p ∧ body (g p).2 = body p ∧
  (∀ x, sig_idx p ≤ length (sigs p) → (g p).1 = Ok x →
    sig_idx (g p).2 = sig_idx p + n ∧ sig_idx p + n ≤ length (sigs p)).

Lemma get_reads {T} (U : Unmarshal T) : reads 1 (get U).
Proof.
  intros p. unfold get. case_decide; [done|].
  repeat case_match; cbn; split_and!; try done. intros. lia.
Qed.

Lemma get_ret_reads {T} (x : T) : reads 0 (get_ret x).
Proof. intros p. split_and!; try done. cbn. intros. lia. Qed.

Lemma get_then_reads {T V} m n (f : getter T) (g : T → getter V) :
  reads m f → (∀ x, reads n (g x)) → reads (m + n) (get_then f g).
Proof.
  intros Hf Hg p. unfold get_then. specialize (Hf p).
  destruct (f p) as [[x| |] p'] eqn:Hp; cbn in *; destruct Hf as (H1 & H2 & H3).
  - destruct (Hg x p') as (G1 & G2 & G3). rewrite <- H1, <- H2. split_and!; try done.
    intros y Hle Hy. rewrite H1 in *. destruct (H3 x Hle eq_refl) as [Hi Hj].
    rewrite Hi in G3. destruct (G3 y Hj Hy). lia.
  - split_and!; done.
  - split_and!; done.
Qed.

(** the multi-parameter getters are atomic: an error, from whichever of the
    parameters, leaves the parser exactly where it was, and success consumes
    exactly the number of parameters asked for. *)
Theorem get_mult_helper_atomic {T} n (g : getter T) p :
  reads n g →
  (∀ e, (get_mult_helper n g p).1 = Err e → (get_mult_helper n g p).2 = p) ∧
  (∀ x, (get_mult_helper n g p).1 = Ok x →
    sig_idx (get_mult_helper n g p).2 = sig_idx p + n ∧
    sig_idx p + n ≤ length (sigs p)).
Proof.
  intros Hg. unfold get_mult_helper. case_decide; [by split|].
  destruct (Hg p) as (H1 & H2 & H3). destruct (g p) as [[x|e|] p']; cbn in *.
  - split; [done|]. intros y [= ->]. apply (H3 y); [lia|done].
  - split; [|done]. intros _ _. rewrite H1, H2. by destruct p.
  - done.
Qed.

(** [get] itself, on every branch. *)
Lemma get_spec {T} (U : Unmarshal T) p :
  (length (sigs p) ≤ sig_idx p → get U p = (Err EndOfMessage, p)) ∧
  (∀ t, sigs p !! sig_idx p = Some t → t ≠ u_signature U →
    get U p = (Err WrongSignature, p)) ∧
  (∀ e, (get U p).1 = Err e → (get U p).2 = p).
Proof.
  unfold get. split_and!.
  - intros. by rewrite decide_True.
  - intros t Ht Hne. apply lookup_lt_Some in Ht as Hl.
    rewrite decide_False by lia. rewrite Ht. by rewrite decide_False.
  - intros e. case_decide; [done|]. by repeat case_match.
Qed.

(** The closures of the public getters. *)
Lemma getters_read {T1 T2 T3 T4 T5} (U1 : Unmarshal T1) (U2 : Unmarshal T2)
    (U3 : Unmarshal T3) (U4 : Unmarshal T4) (U5 : Unmarshal T5) :
  reads 2 (get_then (get U1) (λ r1, get_then (get U2) (λ r2, get_ret (r1, r2)))) ∧
  reads 3 (get_then (get U1) (λ r1, get_then (get U2) (λ r2,
    get_then (get U3) (λ r3, get_ret (r1, r2, r3))))) ∧
  reads 4 (get_then (get U1) (λ r1, get_then (get U2) (λ r2,
    get_then (get U3) (λ r3, get_then (get U4) (λ r4, get_ret (r1, r2, r3, r4)))))) ∧
  reads 5 (get_then (get U1) (λ r1, get_then (get U2) (λ r2,
    get_then (get U3) (λ r3, get_then (get U4) (λ r4,
    get_then (get U5) (λ r5, get_ret (r1, r2, r3, r4, r5))))))).
Proof.
  split_and!;
    repeat (apply (get_then_reads 1); [apply get_reads|intros]; try apply get_ret_reads).
Qed.
End parser.

#[global] Arguments u_signature {Ty T}.
#[global] Arguments u_unmarshal {Ty T}.

(** ** The theorems at concrete values

    A one-byte parameter and signature types that are single characters. *)

Definition byte_param (c : u8) : Param := MkParam
  (λ x, (MkCtx (ctx_byteorder x) (ctx_buf x ++ [c]) (ctx_fds x), Ok ()))
  (λ x, (MkCtx (ctx_byteorder x) (ctx_buf x ++ lit "y" ++ [c]) (ctx_fds x), Ok ()))
  (λ s, s ++ lit "y").

(** A parameter that writes a byte and a descriptor and then fails. *)
Definition failing_param : Param := MkParam
  (λ x, (MkCtx (ctx_byteorder x) (ctx_buf x ++ lit "!") (ctx_fds x ++ [7]), Err (LibError 1)))
  (λ x, (x, Err (LibError 1)))
  (λ s, s ++ lit "h").

#[export] Instance byte_param_appends c : Appends (byte_param c).
Proof. split; intros; cbn; repeat split; done || by apply prefix_app_r. Qed.

#[export] Instance failing_param_appends : Appends failing_param.
Proof. split; intros; cbn; repeat split; try done; by apply prefix_app_r. Qed.

Lemma push_param_helper_atomic_witness :
  let b := (push_param (byte_param "x") body_new).1 in
  sig b = lit "y" ∧ push_param2 (byte_param "z") failing_param b = (b, Err (LibError 1)).
Proof.
  intros b. split; [reflexivity|].
  assert (push_fn_ok (and_then (push_param_core (byte_param "z"))
    (push_param_core failing_param))) as Hok
    by (apply and_then_ok; apply push_param_core_ok; apply _).
  pose proof (proj1 (push_param_helper_atomic _ b Hok) (LibError 1) eq_refl) as Hb.
  unfold push_param2. rewrite (surjective_pairing (push_param_helper _ b)), Hb. reflexivity.
Defined.

Definition char_unmarshal (t : u8) : Unmarshal (Ty:=u8) u8 :=
  MkUnmarshal u8 t (λ ctx, c ← ok_or (u_buf ctx !! u_offset ctx) NotEnoughBytes; mret (1, c)).

Lemma get_mult_helper_atomic_witness :
  let p := MkParser (Ty:=u8) 0 0 (lit "yy") (MkBody (lit "a") (lit "yy") [] LittleEndian) in
  get2 (char_unmarshal "y") (char_unmarshal "y") p = (Err NotEnoughBytes, p).
Proof.
  intros p. unfold get2.
  pose proof (proj1 (getters_read (char_unmarshal "y") (char_unmarshal "y")
    (char_unmarshal "y") (char_unmarshal "y") (char_unmarshal "y"))) as Hr.
  pose proof (proj1 (get_mult_helper_atomic 2 _ p Hr) NotEnoughBytes eq_refl) as Hp.
  rewrite (surjective_pairing (get_mult_helper _ _ p)), Hp. reflexivity.
Defined.
