(* ===== verification/Message.v ===== *)
(** * message_builder/mod.rs and standard_messages.rs: messages

    [DynamicHeader], [MarshalledMessage], the builders, the response
    constructors and the standard D-Bus messages.  How rustbus marshals a text or
    a [u32] is the [BasicMarshal] interface. *)

From S2P Require Import Prelude Utils Body.
From Stdlib Require Import Lia.

(** [rustbus::message_builder::MessageType]. *)
Inductive MessageType := TInvalid | TCall | TReply | TError | TSignal.

#[export] Instance MessageType_eq_dec : EqDecision MessageType.
Proof. solve_decision. Defined.

(** Serials are [NonZeroU32]. *)
Record DynamicHeader := MkDyn {
  interface : option bytes;
  member : option bytes;
  object : option bytes;
  destination : option bytes;
  serial : option N;
  sender : option bytes;
  signature : option bytes;
  error_name : option bytes;
  response_serial : option N;
  num_fds : option N;
}.

Definition dyn_default : DynamicHeader :=
  MkDyn None None None None None None None None None None.

Record MarshalledMessage := MkMsg {
  m_body : MarshalledMessageBody;
  dynheader : DynamicHeader;
  typ : MessageType;
  flags : N;
}.

Definition msg_with_byteorder (b : ByteOrder) : MarshalledMessage :=
  MkMsg (with_byteorder b) dyn_default TInvalid 0.

Definition msg_new : MarshalledMessage := msg_with_byteorder LittleEndian.

(** ** Builders: [MessageBuilder], [CallBuilder] and [SignalBuilder] wrap the
    message under construction. *)

Definition set_dyn (m : MarshalledMessage) (d : DynamicHeader) : MarshalledMessage :=
  MkMsg (m_body m) d (typ m) (flags m).

Definition set_body (m : MarshalledMessage) (b : MarshalledMessageBody) : MarshalledMessage :=
  MkMsg b (dynheader m) (typ m) (flags m).

Definition call (name : bytes) (m : MarshalledMessage) : MarshalledMessage :=
  let d := dynheader m in
  MkMsg (m_body m)
    (MkDyn (interface d) (Some name) (object d) (destination d) (serial d) (sender d)
       (signature d) (error_name d) (response_serial d) (num_fds d))
    TCall (flags m).

Definition signal (iface name obj : bytes) (m : MarshalledMessage) : MarshalledMessage :=
  let d := dynheader m in
  MkMsg (m_body m)
    (MkDyn (Some iface) (Some name) (Some obj) (destination d) (serial d) (sender d)
       (signature d) (error_name d) (response_serial d) (num_fds d))
    TSignal (flags m).

Definition on (object_path : bytes) (m : MarshalledMessage) : MarshalledMessage :=
  let d := dynheader m in
  set_dyn m (MkDyn (interface d) (member d) (Some object_path) (destination d) (serial d)
    (sender d) (signature d) (error_name d) (response_serial d) (num_fds d)).

Definition with_interface (iface : bytes) (m : MarshalledMessage) : MarshalledMessage :=
  let d := dynheader m in
  set_dyn m (MkDyn (Some iface) (member d) (object d) (destination d) (serial d)
    (sender d) (signature d) (error_name d) (response_serial d) (num_fds d)).

(** [CallBuilder::at] and [SignalBuilder::to]. *)
Definition at_dest (dest : bytes) (m : MarshalledMessage) : MarshalledMessage :=
  let d := dynheader m in
  set_dyn m (MkDyn (interface d) (member d) (object d) (Some dest) (serial d)
    (sender d) (signature d) (error_name d) (response_serial d) (num_fds d)).

(** How rustbus marshals texts and [u32]s. *)
Class BasicMarshal := {
  str_param : bytes → Param;
  u32_param : N → Param;
}.

(** [b.push_param(p).unwrap()]. *)
Definition push_unwrap {E} (p : Param) (b : MarshalledMessageBody)
    : outcome E MarshalledMessageBody :=
  match push_param p b with
  | (b', Ok _) => Ok b'
  | _ => Panic
  end.

(** ** Responses *)

Definition make_response (d : DynamicHeader) : MarshalledMessage :=
  MkMsg body_new
    (MkDyn None None None (sender d) None None None None (serial d) None) TReply 0.

Section responses.
Context `{BasicMarshal}.

Definition make_error_response {E} (d : DynamicHeader) (name : bytes)
    (error_msg : option bytes) : outcome E MarshalledMessage :=
  let err_resp := MkMsg body_new
    (MkDyn None None None (sender d) None None None (Some name) (serial d) None)
    TError 0 in
  match error_msg with
  | None => Ok err_resp
  | Some text => b ← push_unwrap (str_param text) (m_body err_resp);
                 mret (set_body err_resp b)
  end.

(** ** standard_messages.rs *)

Definition make_standard_msg (name : bytes) : MarshalledMessage :=
  at_dest (lit "org.freedesktop.DBus")
    (with_interface (lit "org.freedesktop.DBus")
      (on (lit "/org/freedesktop/DBus") (call name msg_new))).

Definition hello : MarshalledMessage := make_standard_msg (lit "Hello").

Definition list_names : MarshalledMessage := make_standard_msg (lit "ListNames").

Definition ping_bus : MarshalledMessage :=
  with_interface (lit "org.freedesktop.DBus.Peer")
    (on (lit "/org/freedesktop/DBus") (call (lit "Ping") msg_new)).

Definition ping (dest : bytes) : MarshalledMessage := at_dest dest ping_bus.

Definition DBUS_NAME_FLAG_ALLOW_REPLACEMENT : N := 1.
Definition DBUS_NAME_FLAG_REPLACE_EXISTING : N := N.shiftl 1 1.
Definition DBUS_NAME_FLAG_DO_NOT_QUEUE : N := N.shiftl 1 2.
Definition DBUS_REQUEST_NAME_REPLY_PRIMARY_OWNER : N := 1.
Definition DBUS_REQUEST_NAME_REPLY_IN_QUEUE : N := 2.
Definition DBUS_REQUEST_NAME_REPLY_EXISTS : N := 3.
Definition DBUS_REQUEST_NAME_REPLY_ALREADY_OWNER : N := 4.

Definition request_name {E} (name : bytes) (fl : N) : outcome E MarshalledMessage :=
  let msg := make_standard_msg (lit "RequestName") in
  b ← push_unwrap (str_param name) (m_body msg);
  b' ← push_unwrap (u32_param fl) b;
  mret (set_body msg b').

Definition push_text {E} (member_name text : bytes) : outcome E MarshalledMessage :=
  let msg := make_standard_msg member_name in
  b ← push_unwrap (str_param text) (m_body msg);
  mret (set_body msg b).

Definition release_name {E} (name : bytes) : outcome E MarshalledMessage :=
  push_text (lit "ReleaseName") name.

Definition add_match {E} (match_rule : bytes) : outcome E MarshalledMessage :=
  push_text (lit "AddMatch") match_rule.

Definition remove_match {E} (match_rule : bytes) : outcome E MarshalledMessage :=
  push_text (lit "RemoveMatch") match_rule.

(** The [format!] of [unknown_method] and [invalid_args]. *)
Definition call_text (d : DynamicHeader) (middle : bytes) : bytes :=
  default [] (interface d) ++ lit "." ++ default [] (member d) ++ middle ++
  default [] (object d).

Definition unknown_method {E} (d : DynamicHeader) : outcome E MarshalledMessage :=
  make_error_response d (lit "org.freedesktop.DBus.Error.UnknownMethod")
    (Some (lit "No calls to " ++ call_text d (lit " are accepted for object "))).

Definition invalid_args {E} (d : DynamicHeader) (sg : option bytes)
    : outcome E MarshalledMessage :=
  make_error_response d (lit "org.freedesktop.DBus.Error.InvalidArgs")
    (Some (lit "Invalid arguments for calls to " ++ call_text d (lit " on object ") ++
      lit " " ++
      match sg with Some s => lit "expected signature: " ++ s | None => [] end)).
End responses.

(** ** lib.rs: [expects_reply] *)

Definition NO_REPLY_EXPECTED : N := 1.

Definition expects_reply (msg : MarshalledMessage) : bool :=
  bool_decide (typ msg = TCall) && (N.land (flags msg) NO_REPLY_EXPECTED =? 0)%N.

(** A response goes back to the sender of the message it answers, quoting its
    serial, and asks for no reply itself. *)
Definition answers (d : DynamicHeader) (r : MarshalledMessage) : Prop :=
  destination (dynheader r) = sender d ∧ response_serial (dynheader r) = serial d ∧
  serial (dynheader r) = None ∧ expects_reply r = false.

Lemma make_response_answers d : answers d (make_response d) ∧ typ (make_response d) = TReply.
Proof. done. Qed.

(** both response constructors, and the two standard error messages, produce
    correctly addressed replies: to the caller, with its serial, and never
    expecting a reply, so that [send_msg_wo_rsp]'s assertion holds for them. *)
Theorem responses_answer `{BasicMarshal} {E} d name text sg r :
  make_error_response (E:=E) d name text = Ok r ∨ unknown_method (E:=E) d = Ok r ∨
  invalid_args (E:=E) d sg = Ok r ∨ r = make_response d →
  answers d r ∧ (typ r = TError ∨ typ r = TReply).
Proof.
  assert (∀ n t, make_error_response (E:=E) d n t = Ok r → answers d r ∧ typ r = TError) as He.
  { intros n [t|] Hr; unfold make_error_response in Hr; outcome_inv; done. }
  unfold unknown_method, invalid_args. intros [Hr|[Hr|[Hr| -> ]]].
  - destruct (He _ _ Hr); auto.
  - destruct (He _ _ Hr); auto.
  - destruct (He _ _ Hr); auto.
  - split; [done|by right].
Qed.

(** A concrete [BasicMarshal]: texts with their length byte, numbers as four
    bytes. *)
Definition text_marshal : BasicMarshal := {|
  str_param s := MkParam
    (λ x, (MkCtx (ctx_byteorder x) (ctx_buf x ++ u8_of (N.of_nat (length s)) :: s)
             (ctx_fds x), Ok ()))
    (λ x, (x, Ok ())) (λ g, g ++ lit "s");
  u32_param n := MkParam
    (λ x, (MkCtx (ctx_byteorder x) (ctx_buf x ++ u32_bytes (ctx_byteorder x) n)
             (ctx_fds x), Ok ()))
    (λ x, (x, Ok ())) (λ g, g ++ lit "u");
|}.

Lemma responses_answer_witness :
  answers dyn_default (make_response dyn_default) ∧
  (typ (make_response dyn_default) = TError ∨ typ (make_response dyn_default) = TReply).
Proof.
  refine (responses_answer (H:=text_marshal) (E:=unit) dyn_default [] None None _ _).
  right; right; right; reflexivity.
Defined.
