(* ===== verification/PathTraits.v ===== *)
(** * path.rs: the traits of object paths

    Equality, order and hash of [ObjectPath] and [ObjectPathBuf], their D-Bus encoding,
    and what holds of every value of the two types: the safe functions of path.rs only
    give object paths, whichever way they are composed. *)

From S2P Require Import Prelude Utils Body StdPath ObjPath Message.
From Stdlib Require Import Lia.

(** ** Comparing *)

(** [Ord for Component] is derived, in the order of the constructors. *)
Definition component_rank (c : Component) : N :=
  match c with RootDir => 0 | CurDir => 1 | ParentDir => 2 | Normal _ => 3 end.

Definition component_cmp (c d : Component) : comparison :=
  match c, d with
  | Normal v, Normal w => str_cmp v w
  | _, _ => N.compare (component_rank c) (component_rank d)
  end.

Fixpoint components_cmp (cs ds : list Component) : comparison :=
  match cs, ds with
  | [], [] => Eq
  | [], _ :: _ => Lt
  | _ :: _, [] => Gt
  | c :: cs', d :: ds' => then_with (component_cmp c d) (components_cmp cs' ds')
  end.

(** [Ord for Path]. *)
Definition path_cmp (p q : bytes) : comparison :=
  components_cmp (path_components p) (path_components q).

(** [ObjectPath]: the derived traits are those of its [Path]. *)
Definition op_eq (p q : bytes) : bool := path_eqb p q.
Definition op_cmp (p q : bytes) : comparison := path_cmp p q.

(** [ObjectPathBuf]: by [deref]. *)
Definition buf_eq (a b : ObjectPathBuf) : bool := op_eq (deref a) (deref b).
Definition buf_eq_path (a : ObjectPathBuf) (p : bytes) : bool := op_eq (deref a) p.
Definition buf_cmp (a b : ObjectPathBuf) : comparison := op_cmp (deref a) (deref b).
Definition buf_partial_cmp (a b : ObjectPathBuf) : option comparison := Some (buf_cmp a b).

Section hash.
(** [Hash for Path]: what the hasher is fed; equal paths hash alike. *)
Context {H : Type} (path_hash : bytes → H).

Definition op_hash (p : bytes) : H := path_hash p.
Definition buf_hash (b : ObjectPathBuf) : H := op_hash (deref b).
End hash.

(** ** Conversions *)

Section conversions.
Context (dbg : bool).

(** [Display], [AsRef<str>] and [From<&ObjectPath> for &str]; [write!] of the text. *)
Definition path_to_string {E} (p : bytes) : outcome E bytes := as_str dbg p.

(** [Display for ObjectPathBuf] and its [AsRef<str>]. *)
Definition buf_to_string {E} (b : ObjectPathBuf) : outcome E bytes := path_to_string (deref b).

(** [TryFrom<&str>] and [TryFrom<&Path>] for [&ObjectPath]. *)
Definition path_try_from_str (s : bytes) : outcome InvalidObjectPath bytes := from_str s.
Definition path_try_from_path (p : bytes) : outcome InvalidObjectPath bytes := from_path p.

(** [ToOwned::to_owned], and [Borrow<ObjectPath> for ObjectPathBuf]. *)
Definition to_owned {E} (p : bytes) : outcome E ObjectPathBuf := to_object_path_buf dbg p.
Definition buf_borrow (b : ObjectPathBuf) : bytes := deref b.

(** [TryFrom<&str> for ObjectPathBuf]. *)
Definition buf_try_from_str (s : bytes) : outcome InvalidObjectPath ObjectPathBuf := buf_from_str dbg s.
End conversions.

(** ** Encoding *)

Section encoding.
Context `{BasicMarshal} (dbg : bool).
(** [<&str as Unmarshal>::unmarshal]. *)
Context (str_unmarshal : UnmarshalContext → outcome UnmarshalError (nat * bytes)).

(** [Marshal for &ObjectPath] and [for ObjectPathBuf]: the text of [as_str]. *)
Definition path_marshal (p : bytes) (ctx : MarshalContext) : MarshalContext * outcome Error unit :=
  match as_str (E:=Error) dbg p with
  | Ok s => marshal (str_param s) ctx
  | Err e => (ctx, Err e)
  | Panic => (ctx, Panic)
  end.

Definition buf_marshal (b : ObjectPathBuf) (ctx : MarshalContext)
    : MarshalContext * outcome Error unit := path_marshal (deref b) ctx.

(** [Signature::sig_str]. *)
Definition path_sig_str (s_buf : bytes) : bytes := s_buf ++ lit "o".
Definition buf_sig_str (s_buf : bytes) : bytes := path_sig_str s_buf.

Definition path_unmarshal (ctx : UnmarshalContext) : outcome UnmarshalError (nat * bytes) :=
  '(n, val) ← str_unmarshal ctx;
  path ← map_err (λ _, InvalidType) (from_str val);
  mret (n, path).

Definition buf_unmarshal (ctx : UnmarshalContext) : outcome UnmarshalError (nat * ObjectPathBuf) :=
  '(size, op) ← path_unmarshal ctx;
  b ← to_object_path_buf dbg op;
  mret (size, b).

(** ** The values of the two types *)

(** Every way the safe functions give an [ObjectPath], and an [ObjectPathBuf];
    [clear] and [reserve_exact] only where [op_safe] allows them. *)
Inductive a_path : bytes → Prop :=
| made_from_str s p : from_str s = Ok p → a_path p
| made_from_path s p : from_path s = Ok p → a_path p
| made_root : a_path root_path
| made_parent p q : a_path p → parent (E:=unit) dbg p = Ok (Some q) → a_path q
| made_stripped p base q : a_path p → strip_prefix dbg p base = Ok q → a_path q
| made_unmarshal ctx n p : path_unmarshal ctx = Ok (n, p) → a_path p
| made_deref b : a_buf b → a_path (deref b)
with a_buf : ObjectPathBuf → Prop :=
| made_new : a_buf buf_new
| made_capacity n : a_buf (with_capacity n)
| made_to_owned p b : a_path p → to_object_path_buf (E:=unit) dbg p = Ok b → a_buf b
| made_try_from s b : try_from_os_string s = Ok b → a_buf b
| made_buf_from_str s b : buf_from_str dbg s = Ok b → a_buf b
| made_buf_from_path s b : buf_from_path dbg s = Ok b → a_buf b
| made_buf_unmarshal ctx n b : buf_unmarshal ctx = Ok (n, b) → a_buf b
| made_pushed b p b' : a_buf b → a_path p → push (E:=unit) dbg b p = Ok b' → a_buf b'
| made_edited b op b' : a_buf b → (∀ p, op ≠ OpPush p) → op_safe op b →
    run_op dbg op b = Ok b' → a_buf b'.

Scheme a_path_mut := Induction for a_path Sort Prop
with a_buf_mut := Induction for a_buf Sort Prop.
Combined Scheme a_path_buf_ind from a_path_mut, a_buf_mut.
End encoding.

(** ** Order and equality *)

#[export] Instance component_cmp_order : CmpOrder component_cmp.
Proof.
  split.
  - intros c d. destruct c, d; cbn; try done. rewrite cmp_eq_iff. naive_solver.
  - intros c d. destruct c, d; cbn; try done. apply cmp_flip.
  - intros c d e. destruct c, d, e; cbn; try done. apply cmp_lt_trans.
Qed.

#[export] Instance components_cmp_order : CmpOrder components_cmp.
Proof.
  split.
  - induction x as [|c x IH]; intros [|d y]; cbn; try done.
    destruct (component_cmp c d) eqn:Hc; cbn.
    + apply cmp_eq_iff in Hc as ->. rewrite IH. naive_solver.
    + split; [done|]. intros [= -> _]. assert (component_cmp d d = Eq) by (by apply cmp_eq_iff). congruence.
    + split; [done|]. intros [= -> _]. assert (component_cmp d d = Eq) by (by apply cmp_eq_iff). congruence.
  - induction x as [|c x IH]; intros [|d y]; cbn; try done.
    rewrite (cmp_flip c d), IH. by destruct (component_cmp c d).
  - induction x as [|c x IH]; intros [|d y] [|e z]; cbn; try done.
    destruct (component_cmp c d) eqn:Hcd; cbn; [| |done].
    + apply cmp_eq_iff in Hcd as ->. destruct (component_cmp d e); cbn; [apply IH|done|done].
    + intros _. destruct (component_cmp d e) eqn:Hde; cbn; [|intros _|done].
      * apply cmp_eq_iff in Hde as ->. by rewrite Hcd.
      * by rewrite (cmp_lt_trans _ _ _ Hcd Hde).
Qed.

(** What follows the root of a path, element by element. *)
Definition tail_text (ws : list bytes) : bytes :=
  match ws with [] => [] | _ => SEP :: join SEP ws end.

Lemma tail_text_cons w ws : tail_text (w :: ws) = SEP :: w ++ tail_text ws.
Proof. unfold tail_text. destruct ws; cbn; [by rewrite app_nil_r|done]. Qed.

(** [/] comes before every character of an element. *)
Lemma sep_before_name c : name_char c → N.compare (u8_val SEP) (u8_val c) = Lt.
Proof.
  unfold name_char. intros Hc. apply N.compare_lt_iff. change (u8_val SEP) with 47%N.
  destruct (N.ltb_spec 47 (u8_val c)); [done|exfalso]. revert Hc.
  generalize dependent (u8_val c). intros n Hn Hc.
  destruct (N.leb_spec 65 n), (N.leb_spec 97 n), (N.leb_spec 48 n), (N.eqb_spec n 95);
    cbn in Hc; (lia || done).
Qed.

Lemma sep_after_name c : name_char c → N.compare (u8_val c) (u8_val SEP) = Gt.
Proof. intros Hc. rewrite N.compare_antisym. by rewrite sep_before_name. Qed.

Lemma str_cmp_elements w v ws vs :
  Forall name_char w → Forall name_char v →
  str_cmp (w ++ tail_text ws) (v ++ tail_text vs) =
    then_with (str_cmp w v) (str_cmp (tail_text ws) (tail_text vs)).
Proof.
  intros Hw. revert v. induction Hw as [|c w Hc Hw IH]; intros v Hv; destruct Hv as [|d v Hd Hv].
  - done.
  - destruct ws; cbn; [done|]. by rewrite sep_before_name.
  - destruct vs; cbn; [done|]. by rewrite sep_after_name.
  - cbn. destruct (N.compare _ _); [by apply IH|done..].
Qed.

Lemma elements_cmp ws vs :
  Forall element ws → Forall element vs →
  components_cmp (map Normal ws) (map Normal vs) = str_cmp (tail_text ws) (tail_text vs).
Proof.
  intros Hws. revert vs. induction Hws as [|w ws [_ Hw] Hws IH]; intros vs Hvs;
    destruct Hvs as [|v vs [_ Hv] Hvs]; [done..|].
  cbn [map components_cmp component_cmp]. rewrite !tail_text_cons, IH by done.
  change (str_cmp (SEP :: ?x) (SEP :: ?y)) with (str_cmp x y). by rewrite str_cmp_elements.
Qed.

Lemma mk_path_cmp ws vs :
  Forall element ws → Forall element vs →
  op_cmp (mk_path ws) (mk_path vs) = str_cmp (mk_path ws) (mk_path vs).
Proof.
  intros Hws Hvs. unfold op_cmp, path_cmp. rewrite !path_components_mk_path by done.
  cbn [components_cmp component_cmp component_rank N.compare then_with].
  rewrite elements_cmp by done.
  destruct Hws as [|w ws [Hw _] _], Hvs as [|v vs [Hv _] _]; [done| | |done].
  - destruct v; [done|]. by destruct vs.
  - destruct w; [done|]. by destruct ws.
Qed.

Lemma mk_path_eq ws vs :
  Forall element ws → Forall element vs →
  op_eq (mk_path ws) (mk_path vs) = bool_decide (mk_path ws = mk_path vs).
Proof.
  intros Hws Hvs. unfold op_eq, path_eqb. apply bool_decide_ext.
  split; [|by intros ->]. rewrite !path_components_mk_path by done.
  intros [= Heq]. assert (ws = vs) as ->; [|done].
  apply (f_equal (map_components (E:=unit))) in Heq.
  rewrite !map_components_normal in Heq. by injection Heq.
Qed.

(** object paths are equal, and ordered, as their texts, although the comparison
    goes component by component: [/] comes before every character of an element.  An
    [ObjectPathBuf] compares, and hashes, as the path it holds, whether it is the root
    without an allocation or the text [/]; and equal values hash alike. *)
Theorem object_path_order {H} (path_hash : bytes → H) p q :
  ObjPath.validate p = Ok () → ObjPath.validate q = Ok () →
  op_eq p q = bool_decide (p = q) ∧
  op_cmp p q = str_cmp p q ∧
  (op_cmp p q = Eq ↔ op_eq p q = true) ∧
  (∀ a b, deref a = p → deref b = q →
    buf_eq a b = op_eq p q ∧ buf_eq_path a q = op_eq p q ∧
    buf_partial_cmp a b = Some (op_cmp p q) ∧
    (buf_eq a b = true → buf_hash path_hash a = buf_hash path_hash b ∧
      buf_hash path_hash a = op_hash path_hash q)).
Proof.
  intros (ws & Hws & ->)%validate_iff (vs & Hvs & ->)%validate_iff.
  rewrite mk_path_eq, mk_path_cmp by done. split_and!; [done..| |].
  - by rewrite bool_decide_eq_true, cmp_eq_iff.
  - intros a b Ha Hb. unfold buf_eq, buf_eq_path, buf_partial_cmp, buf_cmp, buf_hash, op_hash.
    rewrite Ha, Hb, mk_path_eq, mk_path_cmp by done. split_and!; [done..|].
    by intros ->%bool_decide_eq_true.
Qed.

Lemma object_path_order_witness :
  op_cmp (lit "/a/z") (lit "/a0") = Lt ∧ op_eq (lit "/a") (lit "/a") = true ∧
  buf_eq buf_new (MkBuf (Some (lit "/"))) = true.
Proof.
  destruct (object_path_order (H:=unit) (λ _, ()) (lit "/a/z") (lit "/a0")) as (_ & -> & _);
    [reflexivity..|]. repeat split.
Defined.

(** ** What the safe functions give *)

Lemma from_str_valid s p : from_str s = Ok p → p = s ∧ ObjPath.validate p = Ok ().
Proof.
  unfold from_str. intros Hs. outcome_inv. split; [done|].
  match goal with u : () |- _ => destruct u end.
  by apply validate_iff, validate_str_iff.
Qed.

Lemma strip_prefix_path dbg p base q :
  ObjPath.validate p = Ok () → strip_prefix dbg p base = Ok q → ObjPath.validate q = Ok ().
Proof.
  intros (ws & Hws & ->)%validate_iff Hq.
  destruct (strip_prefix_spec dbg ws base Hws) as (Hok & Herr & Hnone).
  destruct (path_components base) as [|c cs] eqn:Hb; [by rewrite Hnone in Hq|].
  destruct (decide (c :: cs `prefix_of` RootDir :: map Normal ws)) as [Hpre|Hpre];
    [|by rewrite Herr in Hq].
  destruct Hpre as [l [= <- Hl]].
  apply map_eq_app in Hl as (vs & us & -> & <- & <-).
  rewrite (Hok vs us) in Hq by done. injection Hq as <-.
  apply Forall_app in Hws as [_ Hus]. by apply validate_mk_path.
Qed.

Lemma parent_path {E} dbg p q :
  ObjPath.validate p = Ok () → parent (E:=E) dbg p = Ok (Some q) → ObjPath.validate q = Ok ().
Proof.
  intros (ws & Hws & ->)%validate_iff Hq.
  destruct ws as [|w ws _] using rev_ind; [done|].
  rewrite (proj1 (parent_file_name_spec dbg ws w Hws)) in Hq. injection Hq as <-.
  apply Forall_app in Hws as [Hws _]. by apply validate_mk_path.
Qed.

Lemma to_object_path_buf_eq {E} dbg p :
  ObjPath.validate p = Ok () →
  to_object_path_buf (E:=E) dbg p =
    Ok (if path_eqb p root_path then buf_new else from_path_buf p).
Proof.
  intros (ws & Hws & ->)%validate_iff. unfold to_object_path_buf.
  destruct (path_eqb _ _); [by destruct dbg|]. cbn. by rewrite debug_assert_mk_path.
Qed.

Lemma to_object_path_buf_ok {E} dbg p :
  ObjPath.validate p = Ok () → ∃ b, to_object_path_buf (E:=E) dbg p = Ok b ∧ deref b = p.
Proof.
  intros Hp. rewrite to_object_path_buf_eq by done. eexists. split; [done|].
  apply validate_iff in Hp as (ws & Hws & ->).
  change (path_eqb (mk_path ws) root_path) with (op_eq (mk_path ws) (mk_path [])).
  rewrite mk_path_eq by done. case_bool_decide as Heq; [by rewrite Heq|done].
Qed.

Lemma to_object_path_buf_valid {E} dbg p b :
  ObjPath.validate p = Ok () → to_object_path_buf (E:=E) dbg p = Ok b → deref b = p.
Proof.
  intros Hp Hb. destruct (to_object_path_buf_ok (E:=E) dbg p Hp) as (b' & Hb' & Hd).
  congruence.
Qed.

(** Text, borrowed and owned path are one: what is parsed prints as it was, and borrowing
    what was made an owned path gives the path back. *)
Lemma path_text_round_trip dbg s p :
  path_try_from_str s = Ok p →
  path_to_string (E:=unit) dbg p = Ok s ∧
  ∃ b, to_owned (E:=unit) dbg p = Ok b ∧ buf_borrow b = p ∧ buf_try_from_str dbg s = Ok b ∧
    buf_to_string (E:=unit) dbg b = Ok s ∧ into_string (E:=unit) dbg b = Ok s.
Proof.
  intros Hs. pose proof Hs as Hp. apply from_str_valid in Hp as [-> Hv].
  destruct (to_object_path_buf_ok (E:=unit) dbg s Hv) as (b & Hb & Hd).
  assert (∀ E, path_to_string (E:=E) dbg s = Ok s) as Hprint.
  { intros E. apply validate_iff in Hv as (ws & Hws & ->). unfold path_to_string, as_str.
    by rewrite debug_assert_mk_path. }
  assert (to_object_path_buf (E:=InvalidObjectPath) dbg s = Ok b) as Hb'
    by (rewrite to_object_path_buf_eq in Hb by done; rewrite to_object_path_buf_eq by done; congruence).
  split; [done|]. exists b. split_and!; [done|done| |by unfold buf_to_string; rewrite Hd|].
  - unfold buf_try_from_str, buf_from_str. unfold path_try_from_str in Hs. by rewrite Hs.
  - apply validate_iff in Hv as (ws & Hws & ->). unfold into_string.
    rewrite Hd, debug_assert_mk_path by done. cbn. f_equal. unfold into_path_buf, deref in *.
    by destruct (inner b).
Qed.

Section values.
Context (dbg : bool) (str_unmarshal : UnmarshalContext → outcome UnmarshalError (nat * bytes)).

Lemma path_unmarshal_inv ctx n p :
  path_unmarshal str_unmarshal ctx = Ok (n, p) →
  str_unmarshal ctx = Ok (n, p) ∧ ObjPath.validate p = Ok ().
Proof.
  unfold path_unmarshal. destruct (str_unmarshal ctx) as [[m val]|e|]; [|done..].
  cbn. destruct (from_str val) as [q|e|] eqn:Hq; [|done..].
  apply from_str_valid in Hq as [-> Hv]. by intros [= -> ->].
Qed.

Lemma buf_unmarshal_inv ctx n b :
  buf_unmarshal dbg str_unmarshal ctx = Ok (n, b) →
  str_unmarshal ctx = Ok (n, deref b) ∧ ObjPath.validate (deref b) = Ok ().
Proof.
  unfold buf_unmarshal. destruct (path_unmarshal _ ctx) as [[m p]|e|] eqn:Hp; [|done..].
  apply path_unmarshal_inv in Hp as [Hs Hv]. cbn.
  destruct (to_object_path_buf dbg p) as [q|e|] eqn:Hq; [|done..].
  apply to_object_path_buf_valid in Hq as <-; [|done]. by intros [= -> ->].
Qed.

(** Outside of [op_safe], [clear] and [reserve_exact] leave the empty text. *)
Lemma unsafe_ops_break b op :
  (∀ p, op ≠ OpPush p) → ¬ op_safe op b → ∃ b', run_op dbg op b = Ok b' ∧ ¬ valid_buf b'.
Proof.
  unfold valid_buf. intros Hp Hop. destruct op as [p|p| |n|n|]; cbn in Hop |- *; try by destruct Hop.
  - by destruct (Hp p).
  - destruct (clear_reserve_exact_invalid b n) as (_ & He & _).
    destruct (inner b) eqn:Hb; [destruct Hop; by right|].
    eexists. split; [done|]. rewrite He; [done|done|]. intros ->. destruct Hop. by left.
  - destruct (clear_reserve_exact_invalid b 0) as (He & _).
    eexists. split; [done|]. by rewrite He.
Qed.

(** C20: the type invariant.  Made by any sequence of the safe functions (checked
    constructors, texts read from a message, [parent], [strip_prefix] by any path, [push],
    [push_path_checked], [pop], [reserve], conversions between the owned and the borrowed
    type) an [ObjectPath] is an object path and an [ObjectPathBuf] holds one.  This leaves
    out two safe functions where they do not keep the root: [clear] of a buffer with an
    allocation and [reserve_exact] on one without; and it has to, for there each of them
    leaves a buffer that holds no object path. *)
Theorem object_path_type :
  (∀ p, a_path dbg str_unmarshal p → ObjPath.validate p = Ok ()) ∧
  (∀ b, a_buf dbg str_unmarshal b → valid_buf b) ∧
  (∀ b op, (∀ p, op ≠ OpPush p) → ¬ op_safe op b → ∃ b', run_op dbg op b = Ok b' ∧ ¬ valid_buf b').
Proof.
  apply and_assoc. split; [|exact unsafe_ops_break].
  unfold valid_buf. apply (a_path_buf_ind dbg str_unmarshal
    (λ p _, ObjPath.validate p = Ok ()) (λ b _, ObjPath.validate (deref b) = Ok ())).
  - intros s p Hp. by apply from_str_valid in Hp as [_ ?].
  - intros s p Hp. unfold from_path in Hp. destruct (ObjPath.validate s) as [[]| |] eqn:Hs; [|done..].
    by injection Hp as <-.
  - done.
  - intros p q _ IH. by apply parent_path.
  - intros p base q _ IH. by apply strip_prefix_path.
  - intros ctx n p Hp. by apply path_unmarshal_inv in Hp as [_ ?].
  - done.
  - done.
  - intros n. unfold with_capacity. by case_decide.
  - intros p b _ IH Hb. by apply to_object_path_buf_valid in Hb as ->.
  - intros s b Hb. unfold try_from_os_string in Hb.
    destruct (ObjPath.validate s) as [[]| |] eqn:Hs; [|done..]. by injection Hb as <-.
  - intros s b Hb. unfold buf_from_str in Hb.
    destruct (from_str s) as [p| |] eqn:Hp; [|done..]. apply from_str_valid in Hp as [_ Hv].
    by apply to_object_path_buf_valid in Hb as ->.
  - intros s b Hb. unfold buf_from_path, from_path in Hb.
    destruct (ObjPath.validate s) as [[]| |] eqn:Hs; [|done..].
    by apply to_object_path_buf_valid in Hb as ->.
  - intros ctx n b Hb. by apply buf_unmarshal_inv in Hb as [_ ?].
  - intros b p b' _ Hb _ Hp Hpush.
    apply valid_buf_holds in Hb as [ws Hb]. apply validate_iff in Hp as (vs & Hvs & ->).
    destruct (push_appends (E:=unit) dbg b ws vs Hb Hvs) as (b'' & Hr & Hb'').
    rewrite Hr in Hpush. injection Hpush as <-. apply valid_buf_holds. eauto.
  - intros b op b' _ Hb _ Hop Hr.
    destruct (run_op_valid dbg op b Hb Hop) as [(b'' & Hr' & Hv)|[e Hr']]; [|congruence].
    rewrite Hr' in Hr. by injection Hr as <-.
Qed.

Lemma path_marshal_valid `{BasicMarshal} p ctx :
  ObjPath.validate p = Ok () → path_marshal dbg p ctx = marshal (str_param p) ctx.
Proof.
  intros (ws & Hws & ->)%validate_iff. unfold path_marshal, as_str.
  by rewrite debug_assert_mk_path.
Qed.

(** [<&str>::marshal] and [<&str>::unmarshal]: a text reads back as it was written. *)
Definition str_codec `{BasicMarshal} : Prop :=
  ∀ s ctx ctx' fds, marshal (str_param s) ctx = (ctx', Ok ()) →
    ∃ n, str_unmarshal (MkUCtx (ctx_byteorder ctx) (ctx_buf ctx') (length (ctx_buf ctx)) fds)
           = Ok (n, s).

(** an object path reads back as it was encoded, as a borrowed path and as a
    buffer, on either byte order; a text that is not an object path is [InvalidType];
    an error of the text itself is passed on; and nothing read ever panics. *)
Theorem object_path_codec `{BasicMarshal} :
  str_codec →
  (∀ p ctx ctx' fds, ObjPath.validate p = Ok () → path_marshal dbg p ctx = (ctx', Ok ()) →
    let u := MkUCtx (ctx_byteorder ctx) (ctx_buf ctx') (length (ctx_buf ctx)) fds in
    ∃ n b, path_unmarshal str_unmarshal u = Ok (n, p) ∧
      buf_unmarshal dbg str_unmarshal u = Ok (n, b) ∧ deref b = p) ∧
  (∀ u n s, str_unmarshal u = Ok (n, s) → ObjPath.validate s ≠ Ok () →
    path_unmarshal str_unmarshal u = Err InvalidType ∧
    buf_unmarshal dbg str_unmarshal u = Err InvalidType) ∧
  (∀ u e, str_unmarshal u = Err e →
    path_unmarshal str_unmarshal u = Err e ∧ buf_unmarshal dbg str_unmarshal u = Err e).
Proof.
  intros Hcodec. split_and!.
  - intros p ctx ctx' fds Hp Hm. rewrite path_marshal_valid in Hm by done.
    destruct (Hcodec p ctx ctx' fds Hm) as [n Hn]. exists n.
    destruct (to_object_path_buf_ok (E:=UnmarshalError) dbg p Hp) as (b & Hb & Hd). exists b.
    assert (from_str p = Ok p) as Hs.
    { apply validate_iff, validate_str_iff in Hp. unfold from_str. by rewrite Hp. }
    unfold buf_unmarshal, path_unmarshal. rewrite Hn. cbn. rewrite Hs. cbn. by rewrite Hb.
  - intros u n s Hs Hv. assert (∃ e, from_str s = Err e) as [e He].
    { unfold from_str. destruct (validate_str s) as [[]|e|] eqn:Hvs; [|by eexists|].
      - by apply validate_str_iff, validate_iff in Hvs.
      - exfalso. by eapply validate_str_no_panic. }
    unfold buf_unmarshal, path_unmarshal. rewrite Hs. cbn. by rewrite He.
  - intros u e He. unfold buf_unmarshal, path_unmarshal. by rewrite He.
Qed.
End values.

(** ** The theorems at concrete values *)

(** A text behind its length byte, as [text_marshal] writes it. *)
Definition text_unmarshal (ctx : UnmarshalContext) : outcome UnmarshalError (nat * bytes) :=
  match drop (u_offset ctx) (u_buf ctx) with
  | [] => Err NotEnoughBytes
  | n :: s => Ok (length s + 1, s)
  end.

Lemma text_codec : str_codec (H:=text_marshal) text_unmarshal.
Proof.
  intros s ctx ctx' fds [= <-]. unfold text_unmarshal. cbn.
  rewrite drop_app_length. by eexists.
Qed.

Lemma object_path_codec_witness :
  buf_unmarshal true text_unmarshal
    (MkUCtx LittleEndian (ctx_buf (path_marshal (H:=text_marshal) true (lit "/a/b")
       (MkCtx LittleEndian [] [])).1) 0 []) = Ok (5, MkBuf (Some (lit "/a/b"))) ∧
  path_unmarshal text_unmarshal (MkUCtx BigEndian (lit "_/a/") 0 []) = Err InvalidType.
Proof.
  destruct (object_path_codec true text_unmarshal (H:=text_marshal) text_codec)
    as (Hr & Hi & _). split.
  - destruct (Hr (lit "/a/b") (MkCtx LittleEndian [] []) _ [] eq_refl eq_refl)
      as (n & b & _ & Hb & Hd).
    etransitivity; [exact Hb|]. vm_compute in Hb. by injection Hb as <- <-.
  - apply (Hi _ 4 (lit "/a/")); [reflexivity|]. vm_compute. discriminate.
Defined.

(** The root, one element pushed and another text pushed, popped, and its parent. *)
Lemma object_path_type_witness :
  let b := MkBuf (Some (lit "/usr/local")) in
  ObjPath.validate (lit "/usr/local") = Ok () ∧ valid_buf (pop b).1.
Proof.
  intros b. destruct (object_path_type true text_unmarshal) as (Hp & Hb & _).
  assert (a_buf true text_unmarshal b) as Hab.
  { apply (made_edited _ _ (MkBuf (Some (lit "/usr"))) (OpPushPathChecked (lit "local")));
      [|done|exact I|reflexivity].
    apply (made_pushed _ _ buf_new (lit "/usr")); [apply made_new| |reflexivity].
    by apply (made_from_str _ _ (lit "/usr")). }
  split.
  - apply (Hp (deref b)). by apply made_deref.
  - apply Hb. by apply (made_edited _ _ b OpPop).
Defined.
