(* ===== verification/Header.v ===== *)
(** * message_builder/mod.rs: message headers

    [marshal_header] writes the fixed header and the array of header fields;
    [DynamicHeader::unmarshal] reads the array back.  How rustbus encodes one byte,
    one [u32] and one header field, and what it accepts as names, is the interface
    [WireLib], with the laws of the D-Bus wire format in [WireLaws]. *)

From S2P Require Import Prelude Utils SigStr Body Message StdPath ObjPath.
From Stdlib Require Import Lia.

(** [dbus_variant_var!(HdrVar, ...)]; the macro adds [Catchall]. *)
Inductive HdrVar :=
| HPath (p : bytes)
| HStr (s : bytes)
| HU32 (n : N)
| HSig (s : bytes)
| HCatchall.

(** [rustbus::wire::unmarshal::HEADER_LEN]: the fixed header up to the array. *)
Definition HEADER_LEN : nat := 12.

Class WireLib := {
  validate_interface : bytes → outcome Error unit;
  validate_membername : bytes → outcome Error unit;
  validate_errorname : bytes → outcome Error unit;
  validate_busname : bytes → outcome Error unit;
  validate_signature : bytes → outcome Error unit;
  (* Marshalling appends to the buffer. *)
  put_u8 : N → bytes → outcome Error bytes;
  put_u32 : ByteOrder → N → bytes → outcome Error bytes;
  put_field : ByteOrder → N * HdrVar → bytes → outcome Error bytes;
  pad8 : bytes → bytes;
  (* [insert_u32] overwrites the start of a slice. *)
  insert_u32 : ByteOrder → N → bytes → bytes;
  (* Unmarshalling advances the context and returns the bytes used. *)
  read_u32 : UnmarshalContext → outcome UnmarshalError (UnmarshalContext * (nat * N));
  read_field : UnmarshalContext →
    outcome UnmarshalError (UnmarshalContext * (nat * (N * HdrVar)));
  align8 : UnmarshalContext → outcome UnmarshalError UnmarshalContext;
}.

Section header.
Context `{WireLib} (dbg : bool).

(** [.unwrap()]. *)
Definition must (m : outcome Error bytes) : outcome Error bytes :=
  match m with Ok b => Ok b | _ => Panic end.

(** [if let Some(x) = o { f(x) }]. *)
Definition put_opt {A} (o : option A) (f : A → bytes → outcome Error bytes) (buf : bytes)
    : outcome Error bytes :=
  match o with Some x => f x buf | None => Ok buf end.

Definition bo_byte (bo : ByteOrder) : N :=
  match bo with LittleEndian => 108 | BigEndian => 66 end.

Definition t_byte (t : MessageType) : N :=
  match t with TInvalid => 0 | TCall => 1 | TReply => 2 | TError => 3 | TSignal => 4 end.

(** A validated text field. *)
Definition put_name (bo : ByteOrder) (check : bytes → outcome Error unit) (code : N)
    (o : option bytes) (hdr_buf : bytes) : outcome Error bytes :=
  put_opt o (λ s hdr_buf, _ ← check s; must (put_field bo (code, HStr s) hdr_buf)) hdr_buf.

(** The first sixteen bytes; the array length is filled in at the end. *)
Definition marshal_fixed (msg : MarshalledMessage) (serial : N) : outcome Error bytes :=
  let bo := byteorder (m_body msg) in
  hdr_buf ← must (put_u8 (bo_byte bo) []);
  hdr_buf ← must (put_u8 (t_byte (typ msg)) hdr_buf);
  hdr_buf ← must (put_u8 (flags msg) hdr_buf);
  hdr_buf ← must (put_u8 1 hdr_buf);
  hdr_buf ← must (put_u32 bo (wrap32 (N.of_nat (length (buf (m_body msg))))) hdr_buf);
  hdr_buf ← must (put_u32 bo serial hdr_buf);
  must (put_u32 bo 0 hdr_buf).

(** The fields that are not names. *)
Definition put_object (bo : ByteOrder) (o : option bytes) (hdr_buf : bytes)
    : outcome Error bytes :=
  put_opt o (λ obj hdr_buf,
    path ← map_err (λ _, InvalidObjectPathErr) (from_str obj);
    must (put_field bo (1%N, HPath path) hdr_buf)) hdr_buf.

Definition put_response_serial (bo : ByteOrder) (o : option N) (hdr_buf : bytes)
    : outcome Error bytes :=
  put_opt o (λ rsp_idx hdr_buf, must (put_field bo (5%N, HU32 rsp_idx) hdr_buf)) hdr_buf.

Definition put_signature (bo : ByteOrder) (body : MarshalledMessageBody) (hdr_buf : bytes)
    : outcome Error bytes :=
  if decide (buf body = []) then Ok hdr_buf else
  if dbg && negb (is_ok (validate_signature (sig body))) then Panic else
  must (put_field bo (8%N, HSig (sig body)) hdr_buf).

Definition put_fd_cnt (bo : ByteOrder) (body : MarshalledMessageBody) (hdr_buf : bytes)
    : outcome Error bytes :=
  let fd_cnt := wrap32 (N.of_nat (length (raw_fds body))) in
  if decide (fd_cnt = 0%N) then Ok hdr_buf else
  must (put_field bo (9%N, HU32 fd_cnt) hdr_buf).

(** The end of [marshal_header]: the array length and the padding. *)
Definition finish (bo : ByteOrder) (hdr_buf : bytes) : bytes :=
  let len := length hdr_buf - (HEADER_LEN + 4) in
  pad8 (take HEADER_LEN hdr_buf ++
    insert_u32 bo (wrap32 (N.of_nat len)) (drop HEADER_LEN hdr_buf)).

Definition marshal_header (msg : MarshalledMessage) (serial : N) : outcome Error bytes :=
  let bo := byteorder (m_body msg) in
  let d := dynheader msg in
  hdr_buf ← marshal_fixed msg serial;
  hdr_buf ← put_object bo (object d) hdr_buf;
  hdr_buf ← put_name bo validate_interface 2 (interface d) hdr_buf;
  hdr_buf ← put_name bo validate_membername 3 (member d) hdr_buf;
  hdr_buf ← put_name bo validate_errorname 4 (error_name d) hdr_buf;
  hdr_buf ← put_response_serial bo (response_serial d) hdr_buf;
  hdr_buf ← put_name bo validate_busname 6 (destination d) hdr_buf;
  hdr_buf ← put_name bo validate_busname 7 (sender d) hdr_buf;
  hdr_buf ← put_signature bo (m_body msg) hdr_buf;
  hdr_buf ← put_fd_cnt bo (m_body msg) hdr_buf;
  mret (finish bo hdr_buf).

(** [DynamicHeader::validate]. *)
Definition opt_valid {E A} (check : bytes → outcome E A) (o : option bytes) : bool :=
  match o with Some s => is_ok (check s) | None => true end.

Definition validate_dynheader (d : DynamicHeader) : bool :=
  if negb (opt_valid validate_interface (interface d)) then false else
  if negb (opt_valid from_str (object d)) then false else
  if negb (opt_valid validate_membername (member d)) then false else
  if negb (opt_valid validate_errorname (error_name d)) then false else
  if negb (opt_valid validate_busname (destination d)) then false else
  if negb (opt_valid validate_busname (sender d)) then false else
  if negb (opt_valid validate_signature (signature d)) then false else
  true.

(** The loop of [unmarshal]: [fields[idx as usize] = Some(var)] on ten slots. *)
Fixpoint read_fields (fuel : nat) (ctx : UnmarshalContext) (array_used len : nat)
    (fields : list (option HdrVar))
    : outcome UnmarshalError (UnmarshalContext * list (option HdrVar)) :=
  if decide (array_used < len) then
    match fuel with
    | O => Panic
    | S fuel' =>
        '(ctx', (u, (idx, var))) ← read_field ctx;
        if decide (N.to_nat idx < length fields) then
          read_fields fuel' ctx' (array_used + u) len (<[N.to_nat idx := Some var]> fields)
        else Panic
    end
  else if decide (array_used = len) then Ok (ctx, fields)
  else Err NotEnoughBytesForCollection.

(** What each kind of field must hold. *)
Definition get_path (f : option HdrVar) : outcome UnmarshalError (option bytes) :=
  match f with
  | None => Ok None
  | Some (HPath p) => Ok (Some p)
  | Some _ => Err InvalidHeaderField
  end.

Definition get_str (f : option HdrVar) : outcome UnmarshalError (option bytes) :=
  match f with
  | None => Ok None
  | Some (HStr p) => Ok (Some p)
  | Some _ => Err InvalidHeaderField
  end.

Definition get_sig (f : option HdrVar) : outcome UnmarshalError (option bytes) :=
  match f with
  | None => Ok None
  | Some (HSig p) => Ok (Some p)
  | Some _ => Err InvalidHeaderField
  end.

Definition get_u32 (f : option HdrVar) : outcome UnmarshalError (option N) :=
  match f with
  | None => Ok None
  | Some (HU32 p) => Ok (Some p)
  | Some _ => Err InvalidHeaderField
  end.

Definition get_nonzero (f : option HdrVar) : outcome UnmarshalError (option N) :=
  match f with
  | None => Ok None
  | Some (HU32 p) => if decide (p = 0%N) then Err InvalidHeaderField else Ok (Some p)
  | Some _ => Err InvalidHeaderField
  end.

(** [fields[i]], an array of ten. *)
Definition field_at (fields : list (option HdrVar)) (i : nat) : option HdrVar :=
  default None (fields !! i).

Definition header_of_fields (fields : list (option HdrVar))
    : outcome UnmarshalError DynamicHeader :=
  obj ← get_path (field_at fields 1);
  iface ← get_str (field_at fields 2);
  mem ← get_str (field_at fields 3);
  err ← get_str (field_at fields 4);
  rsp ← get_nonzero (field_at fields 5);
  dest ← get_str (field_at fields 6);
  snd ← get_str (field_at fields 7);
  sg ← get_sig (field_at fields 8);
  nfds ← get_u32 (field_at fields 9);
  mret (MkDyn iface mem obj dest None snd sg err rsp nfds).

(** [DynamicHeader::unmarshal].  Every field uses at least a byte, so [len] bounds
    the iterations. *)
Definition unmarshal_dynheader (ctx : UnmarshalContext)
    : outcome UnmarshalError (UnmarshalContext * (nat * DynamicHeader)) :=
  let start := u_offset ctx in
  '(ctx, (_, len)) ← read_u32 ctx;
  let len := N.to_nat len in
  let end_ := align_num (u_offset ctx + len) 8 in
  if decide (length (u_buf ctx) < end_) then Err NotEnoughBytes else
  '(ctx, fields) ← read_fields len ctx 0 len (replicate 10 None);
  ret ← header_of_fields fields;
  if validate_dynheader ret then
    ctx ← align8 ctx;
    mret (ctx, (u_offset ctx - start, ret))
  else Err InvalidHeaderField.
End header.

(** ** The laws of the wire format *)

Definition ZERO : u8 := u8_of 0.

(** The zero bytes that align an offset. *)
Definition padding (off : nat) : bytes := replicate (align_num off 8 - off) ZERO.

(** The fields the crate marshals: what it has validated. *)
Definition field_valid `{WireLib} (f : N * HdrVar) : Prop :=
  (f.1 < 10)%N ∧
  match f.2 with
  | HPath p => validate_str p = Ok () ∧ (N.of_nat (length p) < u32_mod)%N
  | HStr s => is_ok (validate_interface s) = true ∨ is_ok (validate_membername s) = true ∨
      is_ok (validate_errorname s) = true ∨ is_ok (validate_busname s) = true
  | HU32 n => (n < u32_mod)%N
  | HSig s => is_ok (validate_signature s) = true
  | HCatchall => False
  end.

(** All but the fields, and with them. *)
Class BaseLaws `{WireLib} : Prop := {
  put_u8_ok n b : put_u8 n b = Ok (b ++ [u8_of n]);
  put_u32_ok bo n b : length b mod 4 = 0 → put_u32 bo n b = Ok (b ++ u32_bytes bo n);
  insert_u32_ok bo n l r : length l = 4 → insert_u32 bo n (l ++ r) = u32_bytes bo n ++ r;
  pad8_ok b : pad8 b = b ++ padding (length b);
  read_u32_ok bo l n r fds : length l mod 4 = 0 → (n < u32_mod)%N →
    read_u32 (MkUCtx bo (l ++ u32_bytes bo n ++ r) (length l) fds) =
      Ok (MkUCtx bo (l ++ u32_bytes bo n ++ r) (length l + 4) fds, (4, n));
  align8_ok bo l r fds :
    align8 (MkUCtx bo (l ++ padding (length l) ++ r) (length l) fds) =
      Ok (MkUCtx bo (l ++ padding (length l) ++ r) (align_num (length l) 8) fds);
}.

Class WireLaws `{WireLib} : Prop := {
  wire_base :: BaseLaws;
  (* A field's encoding depends on the offset only, and is read back. *)
  field_ok bo f b : field_valid f → ∃ enc, put_field bo f b = Ok (b ++ enc) ∧ enc ≠ [] ∧
    ∀ b' r fds, length b' = length b →
      read_field (MkUCtx bo (b' ++ enc ++ r) (length b) fds) =
        Ok (MkUCtx bo (b' ++ enc ++ r) (length b + length enc) fds, (length enc, f));
}.

Section laws.
Context `{WireLaws} (dbg : bool).

Fixpoint put_fields (bo : ByteOrder) (fs : list (N * HdrVar)) (b : bytes)
    : outcome Error bytes :=
  match fs with
  | [] => Ok b
  | f :: fs' => b ← must (put_field bo f b); put_fields bo fs' b
  end.

Lemma put_fields_app bo fs gs b :
  put_fields bo (fs ++ gs) b = b ← put_fields bo fs b; put_fields bo gs b.
Proof.
  revert b. induction fs as [|f fs IH]; intros b; cbn; [done|].
  destruct (must (put_field bo f b)); cbn; [apply IH|done..].
Qed.

Definition opt_field {A} (code : N) (mk : A → HdrVar) (o : option A) : list (N * HdrVar) :=
  match o with Some x => [(code, mk x)] | None => [] end.

Definition sig_sent (msg : MarshalledMessage) : option bytes :=
  if decide (buf (m_body msg) = []) then None else Some (sig (m_body msg)).

Definition fds_sent (msg : MarshalledMessage) : option N :=
  if decide (raw_fds (m_body msg) = []) then None
  else Some (N.of_nat (length (raw_fds (m_body msg)))).

(** The fields a message's header lists, in order. *)
Definition hdr_fields (msg : MarshalledMessage) : list (N * HdrVar) :=
  let d := dynheader msg in
  opt_field 1 HPath (object d) ++ opt_field 2 HStr (interface d) ++
  opt_field 3 HStr (member d) ++ opt_field 4 HStr (error_name d) ++
  opt_field 5 HU32 (response_serial d) ++ opt_field 6 HStr (destination d) ++
  opt_field 7 HStr (sender d) ++ opt_field 8 HSig (sig_sent msg) ++
  opt_field 9 HU32 (fds_sent msg).

(** The header as the peer receives it; the serial is in the fixed part. *)
Definition received (msg : MarshalledMessage) : DynamicHeader :=
  let d := dynheader msg in
  MkDyn (interface d) (member d) (object d) (destination d) None (sender d) (sig_sent msg)
    (error_name d) (response_serial d) (fds_sent msg).

(** A message whose header the peer accepts. *)
Record header_ok (msg : MarshalledMessage) : Prop := {
  ok_valid : validate_dynheader (received msg) = true;
  ok_serial n : response_serial (dynheader msg) = Some n → (0 < n < u32_mod)%N;
  ok_path p : object (dynheader msg) = Some p → (N.of_nat (length p) < u32_mod)%N;
  ok_fds : (N.of_nat (length (raw_fds (m_body msg))) < u32_mod)%N;
}.

Lemma put_fields_single bo f b : put_fields bo [f] b = must (put_field bo f b).
Proof. cbn. apply bind_Ok_r. Qed.

Lemma put_name_fields bo check code o b :
  opt_valid check o = true →
  put_name bo check code o b = put_fields bo (opt_field code HStr o) b.
Proof.
  destruct o as [s|]; [|done]. cbn [opt_valid opt_field]. rewrite put_fields_single.
  unfold put_name. cbn. by destruct (check s).
Qed.

Lemma validate_dynheader_true d :
  validate_dynheader d = true →
  opt_valid validate_interface (interface d) = true ∧
  opt_valid from_str (object d) = true ∧
  opt_valid validate_membername (member d) = true ∧
  opt_valid validate_errorname (error_name d) = true ∧
  opt_valid validate_busname (destination d) = true ∧
  opt_valid validate_busname (sender d) = true ∧
  opt_valid validate_signature (signature d) = true.
Proof.
  unfold validate_dynheader. destruct (opt_valid validate_interface _); [|done].
  do 6 (destruct (opt_valid _ _); [|done]). auto 10.
Qed.

Lemma put_object_fields bo o b :
  opt_valid from_str o = true → put_object bo o b = put_fields bo (opt_field 1 HPath o) b.
Proof.
  destruct o as [o|]; [|done]. cbn [opt_valid opt_field]. rewrite put_fields_single.
  unfold put_object, from_str. cbn [put_opt]. by destruct (validate_str o) as [[]| |].
Qed.

Lemma put_response_serial_fields bo o b :
  put_response_serial bo o b = put_fields bo (opt_field 5 HU32 o) b.
Proof. destruct o as [o|]; [|done]. cbn [opt_field]. by rewrite put_fields_single. Qed.

Lemma put_signature_fields bo msg b :
  opt_valid validate_signature (sig_sent msg) = true →
  put_signature dbg bo (m_body msg) b = put_fields bo (opt_field 8 HSig (sig_sent msg)) b.
Proof.
  unfold put_signature, sig_sent. case_decide; [done|]. cbn [opt_valid opt_field]. intros ->.
  by rewrite andb_false_r, put_fields_single.
Qed.

Lemma put_fd_cnt_fields bo msg b :
  (N.of_nat (length (raw_fds (m_body msg))) < u32_mod)%N →
  put_fd_cnt bo (m_body msg) b = put_fields bo (opt_field 9 HU32 (fds_sent msg)) b.
Proof.
  intros Hf. unfold put_fd_cnt, fds_sent. rewrite wrap32_small by done.
  destruct (raw_fds (m_body msg)) as [|fd fds]; [done|].
  rewrite !decide_False by done. cbn [opt_field]. by rewrite put_fields_single.
Qed.

(** [marshal_header] writes the fixed part, the listed fields, their length, and
    the padding. *)
Lemma marshal_header_fields msg serial :
  header_ok msg →
  marshal_header dbg msg serial =
    b ← marshal_fixed msg serial;
    b' ← put_fields (byteorder (m_body msg)) (hdr_fields msg) b;
    mret (finish (byteorder (m_body msg)) b').
Proof.
  intros [Hv Hs Hp Hf]. apply validate_dynheader_true in Hv as (Hi & Ho & Hm & He & Hd & Hn & Hg).
  cbn in Hi, Ho, Hm, He, Hd, Hn, Hg. unfold marshal_header, hdr_fields. cbv zeta.
  destruct (marshal_fixed msg serial) as [b| |]; cbn [mbind outcome_bind]; [|done..].
  rewrite put_object_fields, put_fields_app by done.
  destruct (put_fields _ (opt_field 1 _ _) _) as [b1| |]; cbn [mbind outcome_bind]; [|done..].
  do 3 (rewrite put_name_fields, put_fields_app by done;
    match goal with |- context [put_fields ?bo (opt_field ?c HStr ?o) ?x] =>
      destruct (put_fields bo (opt_field c HStr o) x) end; cbn [mbind outcome_bind]; [|done..]).
  rewrite put_response_serial_fields, put_fields_app.
  destruct (put_fields _ (opt_field 5 _ _) _); cbn [mbind outcome_bind]; [|done..].
  do 2 (rewrite put_name_fields, put_fields_app by done;
    match goal with |- context [put_fields ?bo (opt_field ?c HStr ?o) ?x] =>
      destruct (put_fields bo (opt_field c HStr o) x) end; cbn [mbind outcome_bind]; [|done..]).
  rewrite put_signature_fields, put_fields_app by done.
  destruct (put_fields _ (opt_field 8 _ _) _); cbn [mbind outcome_bind]; [|done..].
  by rewrite put_fd_cnt_fields.
Qed.

(** The fixed part up to the array length. *)
Definition fixed_head (msg : MarshalledMessage) (serial : N) : bytes :=
  let bo := byteorder (m_body msg) in
  ([u8_of (bo_byte bo); u8_of (t_byte (typ msg)); u8_of (flags msg); u8_of 1] ++
   u32_bytes bo (wrap32 (N.of_nat (length (buf (m_body msg)))))) ++ u32_bytes bo serial.

Lemma length_fixed_head msg serial : length (fixed_head msg serial) = HEADER_LEN.
Proof. unfold fixed_head. cbv zeta. by rewrite !length_app, !length_u32_bytes. Qed.

Lemma marshal_fixed_bytes msg serial :
  marshal_fixed msg serial =
    Ok (fixed_head msg serial ++ u32_bytes (byteorder (m_body msg)) 0).
Proof.
  unfold marshal_fixed, fixed_head. cbv zeta.
  do 4 (rewrite put_u8_ok; cbn [must mbind outcome_bind]).
  do 3 (rewrite put_u32_ok by (by rewrite !length_app, ?length_u32_bytes);
        cbn [must mbind outcome_bind]).
  done.
Qed.

(** The slots after reading a list of fields. *)
Definition put_slot (fields : list (option HdrVar)) (f : N * HdrVar) : list (option HdrVar) :=
  <[N.to_nat f.1 := Some f.2]> fields.

Lemma read_fields_put bo fs b :
  Forall field_valid fs →
  ∃ enc, put_fields bo fs b = Ok (b ++ enc) ∧
    ∀ b' r fds fuel used len fields,
      length b' = length b → length fields = 10 → used + length enc = len → len - used ≤ fuel →
      read_fields fuel (MkUCtx bo (b' ++ enc ++ r) (length b) fds) used len fields =
        Ok (MkUCtx bo (b' ++ enc ++ r) (length b + length enc) fds, foldl put_slot fields fs).
Proof.
  intros Hfs. revert b. induction Hfs as [|f fs Hf Hfs IH]; intros b.
  - exists []. split; [by rewrite app_nil_r|]. intros b' r fds fuel used len fields _ _ Hl _.
    cbn in Hl |- *. destruct fuel; cbn [read_fields];
      rewrite decide_False, decide_True, Nat.add_0_r by lia; done.
  - destruct (field_ok bo f b Hf) as (enc1 & Hput & Hne & Hread).
    destruct (IH (b ++ enc1)) as (enc2 & Hput2 & Hread2). exists (enc1 ++ enc2).
    split. { cbn. rewrite Hput. cbn. by rewrite Hput2, app_assoc. }
    intros b' r fds fuel used len fields Hb' Hfl Hl Hfuel. rewrite length_app in Hl.
    assert (length enc1 ≠ 0) as Hnz by (by destruct enc1).
    destruct fuel as [|fuel]; [lia|]. cbn [read_fields]. rewrite decide_True by lia.
    rewrite <- app_assoc, (Hread b' (enc2 ++ r) fds Hb'). cbn [mbind outcome_bind].
    destruct f as [i v]. destruct Hf as [Hi _]. cbn [fst] in Hi. rewrite decide_True by lia.
    specialize (Hread2 (b' ++ enc1) r fds fuel (used + length enc1) len
      (<[N.to_nat i := Some v]> fields)).
    rewrite !length_app, <- !app_assoc in Hread2.
    rewrite Hread2 by (rewrite ?length_insert; lia). cbn [foldl].
    by rewrite length_app, Nat.add_assoc.
Qed.

Lemma put_slot_opt {A} code (mk : A → HdrVar) o fields :
  fields !! N.to_nat code = Some None →
  foldl put_slot fields (opt_field code mk o) = <[N.to_nat code := mk <$> o]> fields.
Proof. destruct o; [done|]. intros Hc. cbn. by rewrite list_insert_id. Qed.

Lemma slots_of_header msg :
  foldl put_slot (replicate 10 None) (hdr_fields msg) =
    let d := dynheader msg in
    [None; HPath <$> object d; HStr <$> interface d; HStr <$> member d; HStr <$> error_name d;
     HU32 <$> response_serial d; HStr <$> destination d; HStr <$> sender d;
     HSig <$> sig_sent msg; HU32 <$> fds_sent msg].
Proof.
  unfold hdr_fields. rewrite !foldl_app.
  rewrite (put_slot_opt 1), (put_slot_opt 2), (put_slot_opt 3), (put_slot_opt 4),
    (put_slot_opt 5), (put_slot_opt 6), (put_slot_opt 7), (put_slot_opt 8), (put_slot_opt 9)
    by done.
  done.
Qed.

Lemma get_path_fmap o : get_path (HPath <$> o) = Ok o.
Proof. by destruct o. Qed.

Lemma get_str_fmap o : get_str (HStr <$> o) = Ok o.
Proof. by destruct o. Qed.

Lemma get_sig_fmap o : get_sig (HSig <$> o) = Ok o.
Proof. by destruct o. Qed.

Lemma get_u32_fmap o : get_u32 (HU32 <$> o) = Ok o.
Proof. by destruct o. Qed.

Lemma get_nonzero_fmap o : (∀ n, o = Some n → (0 < n)%N) → get_nonzero (HU32 <$> o) = Ok o.
Proof.
  destruct o as [n|]; [|done]. intros Hn. specialize (Hn n eq_refl). cbn.
  by rewrite decide_False by lia.
Qed.

Lemma header_of_ten f1 f2 f3 f4 f5 f6 f7 f8 f9 :
  header_of_fields [None; f1; f2; f3; f4; f5; f6; f7; f8; f9] =
    obj ← get_path f1; iface ← get_str f2; mem ← get_str f3; err ← get_str f4;
    rsp ← get_nonzero f5; dest ← get_str f6; snd ← get_str f7; sg ← get_sig f8;
    nfds ← get_u32 f9; mret (MkDyn iface mem obj dest None snd sg err rsp nfds).
Proof. done. Qed.

Lemma header_of_slots msg :
  header_ok msg →
  header_of_fields (foldl put_slot (replicate 10 None) (hdr_fields msg)) = Ok (received msg).
Proof.
  intros [_ Hs _ _]. rewrite slots_of_header. cbv zeta. rewrite header_of_ten.
  rewrite get_path_fmap, !get_str_fmap, get_sig_fmap, get_u32_fmap, get_nonzero_fmap
    by (intros n Hn; by apply Hs in Hn as [??]).
  done.
Qed.

Lemma opt_field_valid {A} code (mk : A → HdrVar) o :
  (∀ x, o = Some x → field_valid (code, mk x)) → Forall field_valid (opt_field code mk o).
Proof. destruct o; cbn; intros Hx; [apply Forall_singleton; auto|constructor]. Qed.

Lemma hdr_fields_valid msg : header_ok msg → Forall field_valid (hdr_fields msg).
Proof.
  intros [Hv Hs Hp Hf]. apply validate_dynheader_true in Hv as (Hi & Ho & Hm & He & Hd & Hn & Hg).
  cbn in Hi, Ho, Hm, He, Hd, Hn, Hg. unfold hdr_fields.
  rewrite !Forall_app. split_and!; apply opt_field_valid; intros x Hx;
    rewrite ?Hx in *; cbn [opt_valid] in *; (split; [done|]); cbn [snd]; auto.
  - unfold from_str in Ho. destruct (validate_str x) as [[]| |]; [|done..]. auto.
  - by apply Hs.
  - unfold fds_sent in Hx. case_decide; [done|]. by injection Hx as <-.
Qed.

Lemma length_padding (l : bytes) : length (l ++ padding (length l)) = align_num (length l) 8.
Proof.
  unfold padding. rewrite length_app, length_replicate.
  pose proof (align_num_ge (length l) 8). lia.
Qed.

Lemma finish_bytes bo head enc :
  length head = HEADER_LEN →
  finish bo (head ++ u32_bytes bo 0 ++ enc) =
    (head ++ u32_bytes bo (wrap32 (N.of_nat (length enc))) ++ enc) ++
    padding (HEADER_LEN + 4 + length enc).
Proof.
  intros Hh. unfold finish. cbv zeta.
  rewrite take_app_length', drop_app_length', insert_u32_ok, pad8_ok
    by (auto using length_u32_bytes).
  rewrite !length_app, !length_u32_bytes, Hh, Nat.add_assoc.
  replace (HEADER_LEN + 4 + length enc - (HEADER_LEN + 4)) with (length enc) by lia. done.
Qed.

(** Reading what was written, whatever follows: the array length, the fields and the
    padding. *)
Lemma unmarshal_bytes msg head enc rest fds :
  let bo := byteorder (m_body msg) in
  let l := head ++ u32_bytes bo (N.of_nat (length enc)) ++ enc in
  let b := (l ++ padding (length l)) ++ rest in
  header_ok msg → length head = HEADER_LEN → (N.of_nat (length enc) < u32_mod)%N →
  (∀ b' r, length b' = HEADER_LEN + 4 →
    read_fields (length enc) (MkUCtx bo (b' ++ enc ++ r) (HEADER_LEN + 4) fds) 0 (length enc)
      (replicate 10 None) =
    Ok (MkUCtx bo (b' ++ enc ++ r) (HEADER_LEN + 4 + length enc) fds,
        foldl put_slot (replicate 10 None) (hdr_fields msg))) →
  unmarshal_dynheader (MkUCtx bo b HEADER_LEN fds) =
    Ok (MkUCtx bo b (align_num (length l) 8) fds,
        (align_num (length l) 8 - HEADER_LEN, received msg)).
Proof.
  cbv zeta. intros Hok Hh Hlt Hread. set (bo := byteorder (m_body msg)).
  set (l := head ++ u32_bytes bo (N.of_nat (length enc)) ++ enc).
  set (tail := padding (length l) ++ rest).
  assert (length l = HEADER_LEN + 4 + length enc) as Hl
    by (unfold l; rewrite !length_app, length_u32_bytes, Hh; lia).
  assert ((l ++ padding (length l)) ++ rest = l ++ tail) as ->
    by (unfold tail; by rewrite <- app_assoc).
  unfold unmarshal_dynheader. cbn [u_offset].
  pose proof (read_u32_ok bo head (N.of_nat (length enc)) (enc ++ tail) fds) as Hu.
  rewrite Hh in Hu. unfold l at 1. rewrite <- !app_assoc, Hu by done.
  cbn [mbind outcome_bind u_offset u_buf]. rewrite Nat2N.id, <- Hl.
  assert (head ++ u32_bytes bo (N.of_nat (length enc)) ++ enc ++ tail = l ++ tail) as ->
    by (unfold l; by rewrite <- !app_assoc).
  assert (length (l ++ tail) = align_num (length l) 8 + length rest) as Hlen
    by (unfold tail; by rewrite app_assoc, length_app, length_padding).
  rewrite Hlen, decide_False by lia.
  specialize (Hread (head ++ u32_bytes bo (N.of_nat (length enc))) tail).
  rewrite length_app, length_u32_bytes, Hh in Hread. specialize (Hread eq_refl).
  assert ((head ++ u32_bytes bo (N.of_nat (length enc))) ++ enc ++ tail = l ++ tail) as Heq
    by (unfold l; by rewrite <- !app_assoc).
  fold bo in Hread. rewrite Heq in Hread. rewrite Hread. cbn [mbind outcome_bind].
  rewrite header_of_slots by done. cbn [mbind outcome_bind].
  rewrite (ok_valid _ Hok), <- Hl. unfold tail. by rewrite (align8_ok bo l rest fds).
Qed.

(** The bytes of a marshalled header, and what reading its fields gives in front of [rest]. *)
Lemma marshal_header_read msg serial rest fds :
  header_ok msg →
  let bo := byteorder (m_body msg) in
  ∃ enc hdr, marshal_header dbg msg serial = Ok hdr ∧
    hdr = fixed_head msg serial ++ u32_bytes bo (wrap32 (N.of_nat (length enc))) ++ enc ++
      padding (HEADER_LEN + 4 + length enc) ∧
    length hdr = align_num (HEADER_LEN + 4 + length enc) 8 ∧
    ((N.of_nat (length hdr) < u32_mod)%N →
     unmarshal_dynheader (MkUCtx bo (hdr ++ rest) HEADER_LEN fds) =
       Ok (MkUCtx bo (hdr ++ rest) (length hdr) fds, (length hdr - HEADER_LEN, received msg))).
Proof.
  intros Hok bo. set (head := fixed_head msg serial).
  pose proof (length_fixed_head msg serial) as Hh. fold head in Hh.
  destruct (read_fields_put bo (hdr_fields msg) (head ++ u32_bytes bo 0)
    (hdr_fields_valid msg Hok)) as (enc & Hput & Hread).
  set (len := u32_bytes bo (wrap32 (N.of_nat (length enc)))).
  assert (length (head ++ len ++ enc) = HEADER_LEN + 4 + length enc) as Hl
    by (unfold len; rewrite !length_app, length_u32_bytes, Hh; lia).
  exists enc, ((head ++ len ++ enc) ++ padding (HEADER_LEN + 4 + length enc)).
  rewrite <- Hl, length_padding. split_and!.
  - rewrite marshal_header_fields, marshal_fixed_bytes by done. cbn [mbind outcome_bind].
    fold bo head. rewrite Hput. cbn [mbind outcome_bind]. unfold mret, outcome_ret. f_equal.
    rewrite <- app_assoc, finish_bytes by done. by rewrite Hl.
  - by rewrite <- !app_assoc.
  - done.
  - intros Hlt. pose proof (align_num_ge (length (head ++ len ++ enc)) 8) as Hge.
    assert (N.of_nat (length enc) < u32_mod)%N as Henc by lia.
    assert (len = u32_bytes bo (N.of_nat (length enc))) as -> by (unfold len; by rewrite wrap32_small).
    apply (unmarshal_bytes msg head enc rest fds Hok Hh Henc). fold bo. intros b' r Hb'.
    specialize (Hread b' r fds (length enc) 0 (length enc) (replicate 10 None)).
    rewrite length_app, length_u32_bytes, Hh in Hread.
    apply Hread; [done|done|done|lia].
Qed.

(** The same at the end of the buffer. *)
Lemma marshal_header_shape msg serial fds :
  header_ok msg →
  let bo := byteorder (m_body msg) in
  ∃ enc hdr, marshal_header dbg msg serial = Ok hdr ∧
    hdr = fixed_head msg serial ++ u32_bytes bo (wrap32 (N.of_nat (length enc))) ++ enc ++
      padding (HEADER_LEN + 4 + length enc) ∧
    length hdr = align_num (HEADER_LEN + 4 + length enc) 8 ∧
    ((N.of_nat (length hdr) < u32_mod)%N →
     unmarshal_dynheader (MkUCtx bo hdr HEADER_LEN fds) =
       Ok (MkUCtx bo hdr (length hdr) fds, (length hdr - HEADER_LEN, received msg))).
Proof.
  intros Hok bo. destruct (marshal_header_read msg serial [] fds Hok) as (enc & hdr & H1 & H2 & H3 & H4).
  rewrite app_nil_r in H4. by exists enc, hdr.
Qed.

(** The numbers of the fixed part, read back with [parse_u32]. *)
Lemma fixed_head_numbers msg serial rest :
  let bo := byteorder (m_body msg) in
  parse_u32 (take 4 (drop 4 (fixed_head msg serial ++ rest))) bo =
    Ok (wrap32 (N.of_nat (length (buf (m_body msg))))) ∧
  ((serial < u32_mod)%N → parse_u32 (take 4 (drop 8 (fixed_head msg serial ++ rest))) bo = Ok serial).
Proof.
  intros bo. unfold fixed_head. fold bo. cbv zeta. rewrite <- !app_assoc.
  set (four := [_; _; _; _]).
  rewrite (drop_app_length' four) by done.
  rewrite take_app_length' by (by rewrite length_u32_bytes).
  split; [apply parse_u32_bytes, wrap32_lt|]. intros Hs.
  rewrite (app_assoc four), drop_app_length' by (by rewrite length_app, length_u32_bytes).
  rewrite take_app_length' by (by rewrite length_u32_bytes). by apply parse_u32_bytes.
Qed.

(** C22: [unmarshal] inverts [marshal_header].  The header of a message whose names
    are valid marshals without a panic into a multiple of eight bytes.  It starts with
    the fixed part, in which the length of the body (below 2^32) and the serial read back;
    and at the offset of the field array the rest is read back, whatever bytes follow the
    header, as the header of the message with the signature and descriptor count of its
    body, using up exactly the header. *)
Theorem header_roundtrip msg serial rest fds :
  header_ok msg →
  let bo := byteorder (m_body msg) in
  let body_len := N.of_nat (length (buf (m_body msg))) in
  ∃ hdr, marshal_header dbg msg serial = Ok hdr ∧
    take HEADER_LEN hdr = fixed_head msg serial ∧ length hdr mod 8 = 0 ∧
    ((body_len < u32_mod)%N → parse_u32 (take 4 (drop 4 (hdr ++ rest))) bo = Ok body_len) ∧
    ((serial < u32_mod)%N → parse_u32 (take 4 (drop 8 (hdr ++ rest))) bo = Ok serial) ∧
    ((N.of_nat (length hdr) < u32_mod)%N →
     unmarshal_dynheader (MkUCtx bo (hdr ++ rest) HEADER_LEN fds) =
       Ok (MkUCtx bo (hdr ++ rest) (length hdr) fds,
           (length hdr - HEADER_LEN, received msg))).
Proof.
  intros Hok bo body_len.
  destruct (marshal_header_read msg serial rest fds Hok) as (enc & hdr & Hm & Hb & Hl & Hu).
  exists hdr. split; [done|]. split_and!; [|rewrite Hl; by apply align_num_mod| | |done].
  - rewrite Hb. by rewrite take_app_length' by (by rewrite length_fixed_head).
  - intros Hlen. rewrite Hb, <- !app_assoc.
    rewrite (proj1 (fixed_head_numbers msg serial _)). by rewrite wrap32_small.
  - intros Hs. rewrite Hb, <- !app_assoc. by apply fixed_head_numbers.
Qed.

(** a field code above nine panics the reader instead of being an error: the
    code is used as an index into ten slots. *)
Theorem unknown_field_panics ctx ctx1 ctx2 len u idx var :
  read_u32 ctx = Ok (ctx1, (4, len)) → len ≠ 0%N →
  align_num (u_offset ctx1 + N.to_nat len) 8 ≤ length (u_buf ctx1) →
  read_field ctx1 = Ok (ctx2, (u, (idx, var))) → (10 ≤ idx)%N →
  unmarshal_dynheader ctx = Panic.
Proof.
  intros Hu Hlen Hbuf Hf Hidx. unfold unmarshal_dynheader. rewrite Hu.
  cbn [mbind outcome_bind]. rewrite decide_False by lia.
  destruct (N.to_nat len) as [|n] eqn:Hn; [lia|]. cbn [read_fields].
  rewrite decide_True by lia. rewrite Hf. cbn [mbind outcome_bind].
  by rewrite decide_False by (rewrite length_replicate; lia).
Qed.
End laws.
