(* ===== verification/DBusWire.v ===== *)
(** * The D-Bus wire format, concretely

    An executable instance of the [WireLib] interface that follows the D-Bus
    specification (alignment, lengths, terminators), with its laws.  The crate
    takes these functions from rustbus; this instance shows the laws can be met and
    runs the concrete examples. *)

From S2P Require Import Prelude Utils SigStr Body Message StdPath ObjPath Header.
From Stdlib Require Import Lia.

(** Names of all kinds: up to 255 letters, digits, underscores and dots. *)
Definition wire_char (c : u8) : bool := name_char c || bool_decide (c = "."%char).

Definition check_name (s : bytes) : outcome Error unit :=
  if decide (s ≠ [] ∧ length s ≤ 255 ∧ Forall wire_char s) then Ok () else Err (LibError 1).

Definition check_signature (s : bytes) : outcome Error unit :=
  match validate_sig_str s with Ok _ => Ok () | _ => Err (LibError 2) end.

(** ** Header fields: a byte and a variant, at a multiple of eight *)

Definition text_bytes (bo : ByteOrder) (s : bytes) : bytes :=
  u32_bytes bo (N.of_nat (length s)) ++ s ++ [ZERO].

Definition var_bytes (bo : ByteOrder) (v : HdrVar) : bytes :=
  match v with
  | HPath p => u8_of 1 :: "o"%char :: ZERO :: text_bytes bo p
  | HStr s => u8_of 1 :: "s"%char :: ZERO :: text_bytes bo s
  | HU32 n => u8_of 1 :: "u"%char :: ZERO :: u32_bytes bo n
  | HSig s => u8_of 1 :: "g"%char :: ZERO :: u8_of (N.of_nat (length s)) :: s ++ [ZERO]
  | HCatchall => [ZERO]
  end.

Definition read_text (bo : ByteOrder) (l : bytes) : option bytes :=
  match parse_u32 (take 4 l) bo with
  | Ok n =>
      let s := take (N.to_nat n) (drop 4 l) in
      if decide (length s = N.to_nat n) then Some s else None
  | _ => None
  end.

Definition read_var (bo : ByteOrder) (l : bytes) : option (nat * HdrVar) :=
  match l with
  | _ :: c :: _ :: l' =>
      if decide (c = "o"%char) then p ← read_text bo l'; Some (8 + length p, HPath p)
      else if decide (c = "s"%char) then s ← read_text bo l'; Some (8 + length s, HStr s)
      else if decide (c = "u"%char) then
        match parse_u32 (take 4 l') bo with Ok n => Some (7, HU32 n) | _ => None end
      else if decide (c = "g"%char) then
        match l' with
        | n :: l'' => let s := take (N.to_nat (u8_val n)) l'' in Some (5 + length s, HSig s)
        | [] => None
        end
      else None
  | _ => None
  end.

Definition wire_read_field (ctx : UnmarshalContext)
    : outcome UnmarshalError (UnmarshalContext * (nat * (N * HdrVar))) :=
  let start := align_num (u_offset ctx) 8 in
  match drop start (u_buf ctx) with
  | i :: l =>
      match read_var (u_byteorder ctx) l with
      | Some (n, v) =>
          Ok (MkUCtx (u_byteorder ctx) (u_buf ctx) (start + S n) (u_fds ctx),
              (start + S n - u_offset ctx, (u8_val i, v)))
      | None => Err InvalidType
      end
  | [] => Err NotEnoughBytes
  end.

Definition wire_read_u32 (ctx : UnmarshalContext)
    : outcome UnmarshalError (UnmarshalContext * (nat * N)) :=
  let start := align_num (u_offset ctx) 4 in
  match parse_u32 (take 4 (drop start (u_buf ctx))) (u_byteorder ctx) with
  | Ok n => Ok (MkUCtx (u_byteorder ctx) (u_buf ctx) (start + 4) (u_fds ctx),
                (start + 4 - u_offset ctx, n))
  | _ => Err NotEnoughBytes
  end.

Definition wire_align8 (ctx : UnmarshalContext) : outcome UnmarshalError UnmarshalContext :=
  let stop := align_num (u_offset ctx) 8 in
  if decide (length (u_buf ctx) < stop) then Err NotEnoughBytes else
  if decide (Forall (λ c, c = ZERO) (take (stop - u_offset ctx) (drop (u_offset ctx) (u_buf ctx))))
  then Ok (MkUCtx (u_byteorder ctx) (u_buf ctx) stop (u_fds ctx))
  else Err InvalidType.

#[export] Instance dbus_wire : WireLib := {|
  validate_interface := check_name;
  validate_membername := check_name;
  validate_errorname := check_name;
  validate_busname := check_name;
  validate_signature := check_signature;
  put_u8 n b := Ok (b ++ [u8_of n]);
  put_u32 bo n b := Ok (b ++ replicate (align_num (length b) 4 - length b) ZERO ++ u32_bytes bo n);
  put_field bo f b := Ok (b ++ padding (length b) ++ u8_of f.1 :: var_bytes bo f.2);
  pad8 b := b ++ padding (length b);
  insert_u32 bo n l := u32_bytes bo n ++ drop 4 l;
  read_u32 := wire_read_u32;
  read_field := wire_read_field;
  align8 := wire_align8;
|}.

(** ** The laws *)

Lemma read_text_bytes bo s r :
  (N.of_nat (length s) < u32_mod)%N → read_text bo (text_bytes bo s ++ r) = Some s.
Proof.
  intros Hs. unfold read_text, text_bytes. rewrite <- app_assoc.
  rewrite take_app_length', drop_app_length' by (by rewrite length_u32_bytes).
  rewrite parse_u32_bytes by done. rewrite Nat2N.id, <- app_assoc, take_app_length.
  by rewrite decide_True.
Qed.

Lemma check_name_length s : is_ok (check_name s) = true → (N.of_nat (length s) < u32_mod)%N.
Proof. unfold check_name, u32_mod. case_decide; [|done]. intros _. lia. Qed.

Lemma check_signature_length s : is_ok (check_signature s) = true → length s ≤ 255.
Proof.
  unfold check_signature. destruct (validate_sig_str s) as [[]| |] eqn:Hv; [|done..].
  by apply scanner_grammar in Hv as [? _].
Qed.

Lemma read_var_bytes bo i v r :
  field_valid (i, v) → read_var bo (var_bytes bo v ++ r) = Some (length (var_bytes bo v), v).
Proof.
  assert (∀ s, length (text_bytes bo s) = 5 + length s) as Hl.
  { intros s. unfold text_bytes. rewrite !length_app, length_u32_bytes. cbn. lia. }
  intros [_ Hv]. cbn [fst snd] in Hv. destruct v as [p|s|n|s|]; cbn [var_bytes app read_var length].
  - rewrite decide_True, read_text_bytes by (done || apply Hv). cbn. by rewrite Hl.
  - rewrite decide_False, decide_True by done.
    rewrite read_text_bytes by (destruct Hv as [?|[?|[?|?]]]; by apply check_name_length).
    cbn. by rewrite Hl.
  - rewrite !decide_False, decide_True by done.
    rewrite take_app_length' by (by rewrite length_u32_bytes).
    by rewrite parse_u32_bytes, length_u32_bytes.
  - rewrite !decide_False, decide_True by done. apply check_signature_length in Hv.
    rewrite u8_val_of, Nat2N.id, <- app_assoc, take_app_length by lia.
    do 2 f_equal. rewrite length_app. cbn. lia.
  - done.
Qed.

Lemma length_app_padding (l : bytes) r : length (l ++ padding (length l) ++ r) = align_num (length l) 8 + length r.
Proof. by rewrite app_assoc, length_app, length_padding. Qed.

#[export] Instance dbus_base_laws : BaseLaws.
Proof.
  split.
  - done.
  - intros bo n b Hb. cbn. by rewrite align_num_id, Nat.sub_diag.
  - intros bo n l r Hl. cbn. by rewrite drop_app_length'.
  - done.
  - intros bo l n r fds Hl Hn. cbn. unfold wire_read_u32. cbn [u_offset u_buf u_byteorder u_fds].
    rewrite align_num_id, drop_app_length by done.
    rewrite take_app_length', parse_u32_bytes by (done || by rewrite length_u32_bytes).
    do 3 f_equal. lia.
  - intros bo l r fds. cbn. unfold wire_align8. cbn [u_offset u_buf u_byteorder u_fds].
    rewrite length_app_padding, decide_False by lia.
    rewrite drop_app_length, (take_app_length' (padding (length l)) r)
      by (unfold padding; by rewrite length_replicate).
    by rewrite decide_True by (by apply Forall_replicate).
Qed.

#[export] Instance dbus_wire_laws : WireLaws.
Proof.
  split; [apply _|].
  intros bo [i v] b Hf. exists (padding (length b) ++ u8_of i :: var_bytes bo v).
  split; [done|]. split; [by destruct (padding (length b))|].
  intros b' r fds Hb'. cbn [read_field dbus_wire]. unfold wire_read_field.
  cbn [u_offset u_buf u_byteorder u_fds]. rewrite <- Hb', <- app_assoc, app_assoc.
  rewrite drop_app_length' by (by rewrite length_padding). cbn [app].
  rewrite (read_var_bytes bo i v r Hf).
  pose proof (align_num_ge (length b') 8). destruct Hf as [Hi _]. cbn in Hi.
  rewrite u8_val_of by lia. rewrite length_app. cbn [length]. unfold padding at 3 4.
  rewrite length_replicate. set (n := length (var_bytes bo v)).
  set (al := align_num (length b') 8) in *.
  replace (length b' + (al - length b' + S n)) with (al + S n) by lia.
  by replace (al - length b' + S n) with (al + S n - length b') by lia.
Qed.

(** ** Concrete headers *)

Definition ping_call : MarshalledMessage := ping (lit "org.example").

Lemma ping_call_ok : header_ok ping_call.
Proof.
  split; [by vm_compute|done| |done]. intros p [= <-]. by vm_compute.
Qed.

Lemma header_roundtrip_witness :
  ∃ hdr, marshal_header true ping_call 7 = Ok hdr ∧
    parse_u32 (take 4 (drop 4 (hdr ++ lit "more"))) LittleEndian = Ok 0%N ∧
    parse_u32 (take 4 (drop 8 (hdr ++ lit "more"))) LittleEndian = Ok 7%N ∧
    unmarshal_dynheader (MkUCtx LittleEndian (hdr ++ lit "more") HEADER_LEN []) =
      Ok (MkUCtx LittleEndian (hdr ++ lit "more") (length hdr) [],
          (length hdr - HEADER_LEN, received ping_call)).
Proof.
  destruct (header_roundtrip true ping_call 7 (lit "more") [] ping_call_ok)
    as (hdr & Hm & _ & _ & Hb & Hs & Hu).
  exists hdr. split; [exact Hm|]. split; [exact (Hb eq_refl)|]. split; [exact (Hs eq_refl)|].
  apply Hu. vm_compute in Hm. injection Hm as <-. vm_compute. reflexivity.
Defined.

(** The field array of one field with code ten. *)
Definition strange_field : bytes :=
  u32_bytes LittleEndian 8 ++ [u8_of 10; u8_of 1; "u"%char; ZERO] ++ u32_bytes LittleEndian 5.

Lemma unknown_field_panics_witness :
  unmarshal_dynheader
    (MkUCtx LittleEndian (replicate HEADER_LEN ZERO ++ strange_field) HEADER_LEN []) = Panic.
Proof.
  refine (unknown_field_panics _ _ _ 8 8 10 (HU32 5) _ _ _ _ _);
    [vm_compute; reflexivity|done|vm_compute; lia|vm_compute; reflexivity|done].
Defined.
