(* ===== verification/HdrFields.v ===== *)
(** * message_builder/mod.rs and path.rs: the values of header fields

    A header field is a byte and a variant that holds an object path, a text, a number or a
    signature.  Header.v takes the encoding of a whole field as given; here it is composed
    of what the crate has of it, the [Marshal] and [Unmarshal] of [&ObjectPath] and of
    [&SigStr] and the types [HdrVar] lists, over the rest, which is rustbus: texts, numbers,
    signatures and the frame of a field, the interface [FieldLib].  The composition meets the
    laws that Header.v relies on. *)

From S2P Require Import Prelude Utils SigStr Body Message StdPath ObjPath PathTraits Header DBusWire.
From Stdlib Require Import Lia.

(** What rustbus has: the alignment, the code and the variant signature of a field; a
    [&str]; a signature; the value of a variant of another type; and the error of
    [validate_signature] as one of unmarshalling. *)
Class FieldLib := {
  open_field : N → bytes → bytes → outcome Error bytes;
  read_open : UnmarshalContext →
    outcome UnmarshalError (UnmarshalContext * (nat * (N * bytes)));
  put_str : ByteOrder → bytes → bytes → outcome Error bytes;
  read_str : UnmarshalContext → outcome UnmarshalError (UnmarshalContext * (nat * bytes));
  write_signature : bytes → bytes → bytes;
  unmarshal_signature : bytes → outcome UnmarshalError (nat * bytes);
  put_catchall : bytes → outcome Error bytes;
  read_catchall : UnmarshalContext → bytes → outcome UnmarshalError (UnmarshalContext * nat);
  validation_error : Error → UnmarshalError;
}.

(** [ctx.offset += used]. *)
Definition advance_ctx (ctx : UnmarshalContext) (used : nat) : UnmarshalContext :=
  MkUCtx (u_byteorder ctx) (u_buf ctx) (u_offset ctx + used) (u_fds ctx).

Section fields.
Context `{WireLib} `{FieldLib} (dbg : bool).

(** ** [SigStr] *)

Definition sigstr_new (sig : bytes) : outcome Error bytes :=
  _ ← validate_signature sig; mret sig.

Definition sigstr_sig_str (s_buf : bytes) : bytes := s_buf ++ lit "g".

Definition sigstr_marshal (self : bytes) (buf : bytes) : outcome Error bytes :=
  Ok (write_signature self buf).

(** [&ctx.buf[ctx.offset..]] panics out of range. *)
Definition sigstr_unmarshal (ctx : UnmarshalContext)
    : outcome UnmarshalError (UnmarshalContext * (nat * bytes)) :=
  if decide (length (u_buf ctx) < u_offset ctx) then Panic else
  '(used, sig) ← unmarshal_signature (drop (u_offset ctx) (u_buf ctx));
  let ctx := advance_ctx ctx used in
  ret ← map_err validation_error (sigstr_new sig);
  mret (ctx, (used, ret)).

(** ** [&ObjectPath] *)

Definition path_put (bo : ByteOrder) (path : bytes) (buf : bytes) : outcome Error bytes :=
  s ← as_str dbg path; put_str bo s buf.

Definition path_read (ctx : UnmarshalContext)
    : outcome UnmarshalError (UnmarshalContext * (nat * bytes)) :=
  '(ctx, (bytes, val)) ← read_str ctx;
  path ← map_err (λ _, InvalidType) (from_str val);
  mret (ctx, (bytes, path)).

(** ** [dbus_variant_var!(HdrVar, Path => &ObjectPath; Str => &str; U32 => u32; Sig => &SigStr)]

    A variant is marshalled as the type of its constructor, and read as the type whose
    signature it has. *)

Definition hdrvar_put (bo : ByteOrder) (f : N * HdrVar) (buf : bytes) : outcome Error bytes :=
  match f.2 with
  | HPath p => buf ← open_field f.1 (path_sig_str []) buf; path_put bo p buf
  | HStr s => buf ← open_field f.1 (lit "s") buf; put_str bo s buf
  | HU32 n => buf ← open_field f.1 (lit "u") buf; put_u32 bo n buf
  | HSig s => buf ← open_field f.1 (sigstr_sig_str []) buf; sigstr_marshal s buf
  | HCatchall => put_catchall buf
  end.

Definition hdrvar_read (ctx : UnmarshalContext)
    : outcome UnmarshalError (UnmarshalContext * (nat * (N * HdrVar))) :=
  '(ctx, (used, (code, sig))) ← read_open ctx;
  if decide (sig = path_sig_str []) then
    '(ctx, (n, p)) ← path_read ctx; mret (ctx, (used + n, (code, HPath p)))
  else if decide (sig = lit "s") then
    '(ctx, (n, s)) ← read_str ctx; mret (ctx, (used + n, (code, HStr s)))
  else if decide (sig = lit "u") then
    '(ctx, (n, v)) ← read_u32 ctx; mret (ctx, (used + n, (code, HU32 v)))
  else if decide (sig = sigstr_sig_str []) then
    '(ctx, (n, s)) ← sigstr_unmarshal ctx; mret (ctx, (used + n, (code, HSig s)))
  else '(ctx, n) ← read_catchall ctx sig; mret (ctx, (used + n, (code, HCatchall))).

(** The interface of Header.v with these fields. *)
Definition crate_wire : WireLib := {|
  validate_interface := validate_interface;
  validate_membername := validate_membername;
  validate_errorname := validate_errorname;
  validate_busname := validate_busname;
  validate_signature := validate_signature;
  put_u8 := put_u8;
  put_u32 := put_u32;
  put_field := hdrvar_put;
  pad8 := pad8;
  insert_u32 := insert_u32;
  read_u32 := read_u32;
  read_field := hdrvar_read;
  align8 := align8;
|}.

(** What rustbus documents of its part.  A codec of [A] at a multiple of four: what it
    appends depends on the value only, and is read back wherever it stands. *)
Definition codec4 {A} (put : ByteOrder → A → bytes → outcome Error bytes)
    (read : UnmarshalContext → outcome UnmarshalError (UnmarshalContext * (nat * A)))
    (x : A) : Prop :=
  ∀ bo, ∃ enc, (∀ b, length b mod 4 = 0 → put bo x b = Ok (b ++ enc)) ∧
    ∀ b r fds, length b mod 4 = 0 →
      read (MkUCtx bo (b ++ enc ++ r) (length b) fds) =
        Ok (MkUCtx bo (b ++ enc ++ r) (length b + length enc) fds, (length enc, x)).

Class FieldLaws : Prop := {
  open_ok code c b : (code < 256)%N → ∃ enc, open_field code [c] b = Ok (b ++ enc) ∧ enc ≠ [] ∧
    (length b + length enc) mod 4 = 0 ∧
    ∀ bo b' r fds, length b' = length b →
      read_open (MkUCtx bo (b' ++ enc ++ r) (length b) fds) =
        Ok (MkUCtx bo (b' ++ enc ++ r) (length b + length enc) fds, (length enc, (code, [c])));
  str_codec4 s : (N.of_nat (length s) < u32_mod)%N → codec4 put_str read_str s;
  signature_ok s : length s ≤ 255 → ∃ enc, (∀ b, write_signature s b = b ++ enc) ∧
    ∀ r, unmarshal_signature (enc ++ r) = Ok (length enc, s);
  name_short s : is_ok (validate_interface s) = true ∨ is_ok (validate_membername s) = true ∨
    is_ok (validate_errorname s) = true ∨ is_ok (validate_busname s) = true → length s ≤ 255;
  signature_short s : is_ok (validate_signature s) = true → length s ≤ 255;
}.

Context `{!BaseLaws} `{!FieldLaws}.

Lemma path_codec4 p :
  ObjPath.validate p = Ok () → (N.of_nat (length p) < u32_mod)%N → codec4 path_put path_read p.
Proof.
  intros Hp Hl bo. destruct (str_codec4 p Hl bo) as (enc & Hput & Hread). exists enc. split.
  - intros b Hb. apply validate_iff in Hp as (ws & Hws & ->). unfold path_put, as_str.
    rewrite debug_assert_mk_path by done. by apply Hput.
  - intros b r fds Hb. unfold path_read. rewrite Hread by done. cbn [mbind outcome_bind].
    apply validate_iff, validate_str_iff in Hp. unfold from_str. by rewrite Hp.
Qed.

Lemma u32_codec4 n : (n < u32_mod)%N → codec4 put_u32 read_u32 n.
Proof.
  intros Hn bo. exists (u32_bytes bo n). rewrite length_u32_bytes. split; intros.
  - by apply put_u32_ok.
  - by apply read_u32_ok.
Qed.

(** [SigStr] checks what it reads, so only what is a signature reads back. *)
Lemma sig_codec4 s :
  is_ok (validate_signature s) = true → codec4 (λ _, sigstr_marshal) sigstr_unmarshal s.
Proof.
  intros Hs bo. destruct (signature_ok s (signature_short s Hs)) as (enc & Hput & Hread).
  exists enc. split.
  - intros b _. unfold sigstr_marshal. by rewrite Hput.
  - intros b r fds _. unfold sigstr_unmarshal. cbn [u_buf u_offset].
    rewrite decide_False by (rewrite length_app; lia). rewrite drop_app_length, Hread.
    cbn [mbind outcome_bind]. unfold sigstr_new.
    destruct (validate_signature s) as [[]| |]; done.
Qed.

(** A frame and a value make a field. *)
Lemma field_of_codec4 {A} put read (x : A) (v : A → HdrVar) c bo code b :
  (code < 256)%N → codec4 put read x →
  (∀ buf, hdrvar_put bo (code, v x) buf = buf ← open_field code [c] buf; put bo x buf) →
  (∀ ctx ctx' n, read_open ctx = Ok (ctx', (n, (code, [c]))) →
     hdrvar_read ctx = '(ctx, (m, y)) ← read ctx'; mret (ctx, (n + m, (code, v y)))) →
  ∃ enc, hdrvar_put bo (code, v x) b = Ok (b ++ enc) ∧ enc ≠ [] ∧
    ∀ b' r fds, length b' = length b →
      hdrvar_read (MkUCtx bo (b' ++ enc ++ r) (length b) fds) =
        Ok (MkUCtx bo (b' ++ enc ++ r) (length b + length enc) fds, (length enc, (code, v x))).
Proof.
  intros Hcode Hx Hput Hread.
  destruct (open_ok code c b Hcode) as (e1 & Ho & Hne & Hmod & Hro).
  destruct (Hx bo) as (e2 & Hp2 & Hr2). exists (e1 ++ e2). split_and!.
  - rewrite Hput, Ho. cbn [mbind outcome_bind]. rewrite Hp2 by (by rewrite length_app).
    by rewrite <- app_assoc.
  - by destruct e1.
  - intros b' r fds Hb'. rewrite <- !app_assoc.
    rewrite (Hread _ _ _ (Hro bo b' (e2 ++ r) fds Hb')).
    replace (b' ++ e1 ++ e2 ++ r) with ((b' ++ e1) ++ e2 ++ r) by (by rewrite <- app_assoc).
    replace (length b + length e1) with (length (b' ++ e1)) by (rewrite length_app; lia).
    rewrite Hr2 by (rewrite length_app; by rewrite Hb').
    cbn [mbind outcome_bind mret outcome_ret]. rewrite !length_app, Hb'. by rewrite Nat.add_assoc.
Qed.

Lemma names_fit s :
  is_ok (validate_interface s) = true ∨ is_ok (validate_membername s) = true ∨
    is_ok (validate_errorname s) = true ∨ is_ok (validate_busname s) = true →
  (N.of_nat (length s) < u32_mod)%N.
Proof. intros Hs%name_short. unfold u32_mod. lia. Qed.

(** Every field the crate validates is written, and read back wherever it stands. *)
Lemma hdrvar_round_trip bo f b :
  field_valid f → ∃ enc, hdrvar_put bo f b = Ok (b ++ enc) ∧ enc ≠ [] ∧
    ∀ b' r fds, length b' = length b →
      hdrvar_read (MkUCtx bo (b' ++ enc ++ r) (length b) fds) =
        Ok (MkUCtx bo (b' ++ enc ++ r) (length b + length enc) fds, (length enc, f)).
Proof.
  destruct f as [code v]. intros [Hcode Hv]. cbn [fst snd] in Hcode, Hv.
  assert (code < 256)%N as Hc by lia.
  destruct v as [p|s|n|s|]; [| | | |done].
  - destruct Hv as [Hp%validate_str_iff Hl].
    apply (field_of_codec4 path_put path_read p HPath "o"%char); [done| |done|].
    + by apply path_codec4; [apply validate_iff|].
    + intros ctx ctx' n Ho. unfold hdrvar_read. rewrite Ho. cbn [mbind outcome_bind].
      by rewrite decide_True by done.
  - apply (field_of_codec4 put_str read_str s HStr "s"%char); [done| |done|].
    + by apply str_codec4, names_fit.
    + intros ctx ctx' n Ho. unfold hdrvar_read. rewrite Ho. cbn [mbind outcome_bind].
      by rewrite decide_False, decide_True by done.
  - apply (field_of_codec4 put_u32 read_u32 n HU32 "u"%char); [done| |done|].
    + by apply u32_codec4.
    + intros ctx ctx' m Ho. unfold hdrvar_read. rewrite Ho. cbn [mbind outcome_bind].
      by rewrite !decide_False, decide_True by done.
  - apply (field_of_codec4 (λ _, sigstr_marshal) sigstr_unmarshal s HSig "g"%char);
      [done| |done|].
    + by apply sig_codec4.
    + intros ctx ctx' m Ho. unfold hdrvar_read. rewrite Ho. cbn [mbind outcome_bind].
      by rewrite !decide_False, decide_True by done.
Qed.

(** The interface of Header.v with the crate's fields keeps the laws. *)
Lemma crate_wire_laws : @WireLaws crate_wire.
Proof.
  split.
  - split; intros; cbn.
    + apply put_u8_ok.
    + by apply put_u32_ok.
    + by apply insert_u32_ok.
    + apply pad8_ok.
    + by apply read_u32_ok.
    + apply align8_ok.
  - exact hdrvar_round_trip.
Qed.

(** What is read holds what it says, whatever was received. *)
Lemma hdrvar_read_checked ctx ctx' used code v :
  hdrvar_read ctx = Ok (ctx', (used, (code, v))) →
  match v with
  | HPath p => validate_str p = Ok ()
  | HSig s => is_ok (validate_signature s) = true
  | _ => True
  end.
Proof.
  unfold hdrvar_read. destruct (read_open ctx) as [(c1 & u1 & code1 & sg)| |]; [|done..].
  cbn [mbind outcome_bind]. repeat case_decide.
  - unfold path_read. destruct (read_str c1) as [(c2 & n & t)| |]; [|done..].
    cbn [mbind outcome_bind]. unfold from_str, map_err.
    destruct (validate_str t) as [[]| |] eqn:Ht; [|done..]. by intros [= _ _ _ <-].
  - destruct (read_str c1) as [(c2 & n & t)| |]; [|done..]. by intros [= _ _ _ <-].
  - destruct (read_u32 c1) as [(c2 & n & t)| |]; [|done..]. by intros [= _ _ _ <-].
  - unfold sigstr_unmarshal. case_decide; [done|].
    destruct (unmarshal_signature _) as [(n & t)| |]; [|done..].
    cbn [mbind outcome_bind]. unfold sigstr_new.
    destruct (validate_signature t) as [[]| |] eqn:Ht; [|done..].
    intros [= _ _ _ <-]. by rewrite Ht.
  - destruct (read_catchall c1 sg) as [(c2 & n)| |]; [|done..]. by intros [= _ _ _ <-].
Qed.

(** C23: header fields as the crate composes them from its own object paths and signatures
    are a codec: a valid field is appended to the header whatever was written before it, in
    bytes that read back as the same field wherever the reader finds them, with the number
    of bytes counted; and whatever bytes are read, an object path that comes out of them is
    valid and a signature is one, so nothing unchecked enters a received header. *)
Theorem header_fields_codec bo f b :
  field_valid f →
  (∃ enc, hdrvar_put bo f b = Ok (b ++ enc) ∧ enc ≠ [] ∧
    ∀ b' r fds, length b' = length b →
      hdrvar_read (MkUCtx bo (b' ++ enc ++ r) (length b) fds) =
        Ok (MkUCtx bo (b' ++ enc ++ r) (length b + length enc) fds, (length enc, f))) ∧
  (∀ ctx ctx' used code v, hdrvar_read ctx = Ok (ctx', (used, (code, v))) →
    match v with
    | HPath p => validate_str p = Ok ()
    | HSig s => is_ok (validate_signature s) = true
    | _ => True
    end).
Proof.
  intros Hf. split; [by apply hdrvar_round_trip|]. intros. by eapply hdrvar_read_checked.
Qed.
End fields.

(** ** The D-Bus encoding of what rustbus has *)

Definition dbus_open_field (code : N) (sg b : bytes) : bytes :=
  b ++ padding (length b) ++ u8_of code :: u8_of (N.of_nat (length sg)) :: sg ++ [ZERO].

Definition dbus_read_open (ctx : UnmarshalContext)
    : outcome UnmarshalError (UnmarshalContext * (nat * (N * bytes))) :=
  let start := align_num (u_offset ctx) 8 in
  match drop start (u_buf ctx) with
  | i :: n :: l =>
      let sg := take (N.to_nat (u8_val n)) l in
      let used := start - u_offset ctx + 3 + length sg in
      Ok (advance_ctx ctx used, (used, (u8_val i, sg)))
  | _ => Err NotEnoughBytes
  end.

Definition dbus_put_str (bo : ByteOrder) (s b : bytes) : outcome Error bytes :=
  Ok (b ++ replicate (align_num (length b) 4 - length b) ZERO ++ text_bytes bo s).

Definition dbus_read_str (ctx : UnmarshalContext)
    : outcome UnmarshalError (UnmarshalContext * (nat * bytes)) :=
  let start := align_num (u_offset ctx) 4 in
  match read_text (u_byteorder ctx) (drop start (u_buf ctx)) with
  | Some s => let used := start - u_offset ctx + 5 + length s in
      Ok (advance_ctx ctx used, (used, s))
  | None => Err NotEnoughBytes
  end.

Definition dbus_read_signature (l : bytes) : outcome UnmarshalError (nat * bytes) :=
  match l with
  | n :: l => let s := take (N.to_nat (u8_val n)) l in Ok (2 + length s, s)
  | [] => Err NotEnoughBytes
  end.

#[export] Instance dbus_fields : FieldLib := {|
  open_field code sg b := Ok (dbus_open_field code sg b);
  read_open := dbus_read_open;
  put_str := dbus_put_str;
  read_str := dbus_read_str;
  write_signature s b := b ++ u8_of (N.of_nat (length s)) :: s ++ [ZERO];
  unmarshal_signature := dbus_read_signature;
  put_catchall _ := Err (LibError 3);
  read_catchall ctx _ := Ok (ctx, 0);
  validation_error _ := InvalidType;
|}.

#[export] Instance dbus_field_laws : FieldLaws.
Proof.
  split.
  - intros code c b Hc. eexists. split; [done|]. split; [by destruct (padding (length b))|].
    pose proof (align_num_mod (length b) 8 ltac:(done)) as Hm. pose proof (length_padding b) as Hl.
    rewrite length_app in Hl. rewrite length_app. cbn [length app]. split.
    { apply Nat.Div0.mod_divides in Hm as [k Hm].
      replace (_ + _) with ((2 * k + 1) * 4) by lia. apply Nat.Div0.mod_mul. }
    intros bo b' r fds Hb'. cbn [read_open dbus_fields]. unfold dbus_read_open.
    cbn [u_offset u_buf]. rewrite <- Hb', <- app_assoc, app_assoc.
    rewrite drop_app_length' by (by rewrite length_padding). cbn [app].
    rewrite !u8_val_of by lia. cbn [N.of_nat N.to_nat take length].
    change (take _ _) with [c]. cbn [length]. rewrite <- Nat.add_assoc.
    change (3 + 1) with 4. unfold padding at 3 4. by rewrite length_replicate.
  - intros s Hs bo. exists (text_bytes bo s). split.
    + intros b Hb. cbn. unfold dbus_put_str. by rewrite align_num_id, Nat.sub_diag.
    + intros b r fds Hb. cbn [read_str dbus_fields]. unfold dbus_read_str. cbn [u_offset u_buf u_byteorder].
      rewrite align_num_id, drop_app_length, read_text_bytes by done.
      unfold advance_ctx, text_bytes. cbn [u_offset u_buf u_byteorder u_fds].
      rewrite !length_app, length_u32_bytes. cbn [length]. do 3 f_equal; [f_equal|]; lia.
  - intros s Hs. eexists. split; [done|]. intros r. cbn [unmarshal_signature dbus_fields].
    cbn. rewrite u8_val_of, Nat2N.id, <- app_assoc, take_app_length by lia.
    do 2 f_equal. rewrite length_app. cbn. lia.
  - assert (∀ s, is_ok (check_name s) = true → length s ≤ 255) as Hn.
    { intros s. unfold check_name. case_decide; [|done]. intros _. lia. }
    intros s [?|[?|[?|?]]]; by apply Hn.
  - exact check_signature_length.
Qed.

(** ** Concrete fields *)

(** The path of a call after three bytes, and the signature of a body. *)
Lemma header_fields_codec_witness :
  hdrvar_put true LittleEndian (1%N, HPath (lit "/org")) [ZERO; ZERO; ZERO] =
    Ok (replicate 8 ZERO ++ u8_of 1 :: u8_of 1 :: "o"%char :: ZERO ::
        text_bytes LittleEndian (lit "/org")) ∧
  ∃ enc, hdrvar_put true BigEndian (8%N, HSig (lit "a{sv}")) [] = Ok enc ∧
    hdrvar_read (MkUCtx BigEndian (enc ++ [ZERO]) 0 []) =
      Ok (MkUCtx BigEndian (enc ++ [ZERO]) (length enc) [], (length enc, (8%N, HSig (lit "a{sv}")))).
Proof.
  split; [vm_compute; reflexivity|].
  destruct (header_fields_codec true BigEndian (8%N, HSig (lit "a{sv}")) [])
    as [(enc & Hput & _ & Hread) _]; [by vm_compute|].
  exists enc. split; [exact Hput|]. exact (Hread [] [ZERO] [] eq_refl).
Defined.

(** A path that is none and a signature that is none are refused when read. *)
Example bad_path_refused :
  hdrvar_read (MkUCtx LittleEndian
    (u8_of 1 :: u8_of 1 :: "o"%char :: ZERO :: text_bytes LittleEndian (lit "/a//b")) 0 []) =
    Err InvalidType.
Proof. vm_compute. reflexivity. Qed.

Example bad_signature_refused :
  hdrvar_read (MkUCtx LittleEndian
    (u8_of 8 :: u8_of 1 :: "g"%char :: ZERO :: u8_of 2 :: lit "a(" ++ [ZERO]) 0 []) =
    Err InvalidType.
Proof. vm_compute. reflexivity. Qed.

(** A header marshalled and read back with these fields. *)
Example ping_with_fields :
  match marshal_header (H:=crate_wire true) true ping_call 7 with
  | Ok hdr => unmarshal_dynheader (H:=crate_wire true) (MkUCtx LittleEndian hdr HEADER_LEN []) =
      Ok (MkUCtx LittleEndian hdr (length hdr) [], (length hdr - HEADER_LEN, received ping_call))
  | _ => False
  end.
Proof. vm_compute. reflexivity. Qed.
