(* ===== verification/Builders.v ===== *)
(** * message_builder/mod.rs: the builders

    [MessageBuilder] starts a call or a signal; [CallBuilder] and [SignalBuilder] wrap the
    message while the caller fills in where it goes, one setting at a time and in any order.
    Message.v has what each setting does to the message; here they are a program of settings,
    and what a peer reads in the header of the message built is what was set last. *)

From S2P Require Import Prelude Utils SigStr Body Message StdPath ObjPath Header DBusWire.
From Stdlib Require Import Lia.

Record MessageBuilder := MkMessageBuilder { mb_msg : MarshalledMessage }.
Record CallBuilder := MkCallBuilder { cb_msg : MarshalledMessage }.
Record SignalBuilder := MkSignalBuilder { sb_msg : MarshalledMessage }.

Definition builder_new : MessageBuilder := MkMessageBuilder msg_new.

Definition builder_with_byteorder (b : ByteOrder) : MessageBuilder :=
  MkMessageBuilder (msg_with_byteorder b).

Definition builder_call (self : MessageBuilder) (member : bytes) : CallBuilder :=
  MkCallBuilder (call member (mb_msg self)).

Definition builder_signal (self : MessageBuilder) (interface member object : bytes) : SignalBuilder :=
  MkSignalBuilder (signal interface member object (mb_msg self)).

Definition call_on (self : CallBuilder) (object_path : bytes) : CallBuilder :=
  MkCallBuilder (on object_path (cb_msg self)).

Definition call_with_interface (self : CallBuilder) (interface : bytes) : CallBuilder :=
  MkCallBuilder (with_interface interface (cb_msg self)).

Definition call_at (self : CallBuilder) (destination : bytes) : CallBuilder :=
  MkCallBuilder (at_dest destination (cb_msg self)).

Definition call_build (self : CallBuilder) : MarshalledMessage := cb_msg self.

Definition signal_to (self : SignalBuilder) (destination : bytes) : SignalBuilder :=
  MkSignalBuilder (at_dest destination (sb_msg self)).

Definition signal_build (self : SignalBuilder) : MarshalledMessage := sb_msg self.

(** [MarshalledMessage::get_buf] and [get_sig]. *)
Definition get_buf (msg : MarshalledMessage) : bytes := buf (m_body msg).
Definition get_sig (msg : MarshalledMessage) : bytes := sig (m_body msg).

(** ** Programs of settings *)

Inductive setting := On (p : bytes) | WithInterface (i : bytes) | At (d : bytes).

Definition set_one (b : CallBuilder) (s : setting) : CallBuilder :=
  match s with
  | On p => call_on b p
  | WithInterface i => call_with_interface b i
  | At d => call_at b d
  end.

(** [MessageBuilder::with_byteorder(bo).call(member)], the settings, [.build()]. *)
Definition build_call (bo : ByteOrder) (member : bytes) (settings : list setting)
    : MarshalledMessage :=
  call_build (foldl set_one (builder_call (builder_with_byteorder bo) member) settings).

(** The same for a signal and its destinations. *)
Definition build_signal (bo : ByteOrder) (interface member object : bytes) (dests : list bytes)
    : MarshalledMessage :=
  signal_build (foldl signal_to
    (builder_signal (builder_with_byteorder bo) interface member object) dests).

(** The reference: the last setting of a field counts. *)
Definition the_on (s : setting) : option bytes := match s with On p => Some p | _ => None end.
Definition the_interface (s : setting) : option bytes :=
  match s with WithInterface i => Some i | _ => None end.
Definition the_at (s : setting) : option bytes := match s with At d => Some d | _ => None end.

Definition called (member : bytes) (settings : list setting) : DynamicHeader :=
  MkDyn (last (omap the_interface settings)) (Some member) (last (omap the_on settings))
    (last (omap the_at settings)) None None None None None None.

Definition signalled (interface member object : bytes) (dests : list bytes) : DynamicHeader :=
  MkDyn (Some interface) (Some member) (Some object) (last dests) None None None None None None.

Lemma last_omap_snoc {A} (f : setting → option A) l s :
  last (omap f (l ++ [s])) = match f s with Some x => Some x | None => last (omap f l) end.
Proof.
  rewrite omap_app. cbn. destruct (f s) as [x|]; [by rewrite last_snoc|by rewrite app_nil_r].
Qed.

Lemma build_call_eq bo member settings :
  build_call bo member settings = MkMsg (with_byteorder bo) (called member settings) TCall 0.
Proof.
  unfold build_call. induction settings as [|s settings IH] using rev_ind; [done|].
  rewrite foldl_app. cbn [foldl]. unfold call_build in *.
  destruct s; cbn [set_one call_on call_with_interface call_at cb_msg]; rewrite IH;
    unfold called; by rewrite !last_omap_snoc.
Qed.

Lemma build_signal_eq bo interface member object dests :
  build_signal bo interface member object dests =
    MkMsg (with_byteorder bo) (signalled interface member object dests) TSignal 0.
Proof.
  unfold build_signal. induction dests as [|d dests IH] using rev_ind; [done|].
  rewrite foldl_app. cbn [foldl]. unfold signal_build in *. cbn [signal_to sb_msg]. rewrite IH. unfold signalled. by rewrite last_snoc.
Qed.

Section built.
Context `{WireLib} `{!WireLaws} (dbg : bool).

(** A header that can be sent is read as it is. *)
Lemma built_header msg d bo t n fds :
  msg = MkMsg (with_byteorder bo) d t 0 → serial d = None → response_serial d = None →
  signature d = None → num_fds d = None →
  validate_dynheader d = true →
  (∀ p, object d = Some p → (N.of_nat (length p) < u32_mod)%N) →
  ∃ hdr, marshal_header dbg msg n = Ok hdr ∧
    ((N.of_nat (length hdr) < u32_mod)%N →
     unmarshal_dynheader (MkUCtx bo hdr HEADER_LEN fds) =
       Ok (MkUCtx bo hdr (length hdr) fds, (length hdr - HEADER_LEN, d))).
Proof.
  intros -> Hs Hr Hg Hf Hv Hp. set (msg := MkMsg _ d t 0).
  assert (received msg = d) as Hd.
  { unfold received, sig_sent, fds_sent. cbn. destruct d; cbn in *. by subst. }
  assert (header_ok msg) as Hok.
  { split; [by rewrite Hd|cbn; by rewrite Hr|exact Hp|done]. }
  destruct (marshal_header_shape dbg msg n fds Hok) as (enc & hdr & Hm & _ & _ & Hu).
  exists hdr. split; [done|]. by rewrite Hd in Hu.
Qed.

(** C33: a peer reads from a built call what was set last.  Whatever settings are made, in
    whatever order and however often, the message is a call with an empty body in the byte
    order of the builder; when the names and the path it ends up with are valid, its header
    marshals, and the header read back has the member, the last path, interface and
    destination, and no field more. *)
Theorem built_call_arrives bo member settings n fds :
  validate_dynheader (called member settings) = true →
  (∀ p, last (omap the_on settings) = Some p → (N.of_nat (length p) < u32_mod)%N) →
  let msg := build_call bo member settings in
  typ msg = TCall ∧ m_body msg = with_byteorder bo ∧
  ∃ hdr, marshal_header dbg msg n = Ok hdr ∧
    ((N.of_nat (length hdr) < u32_mod)%N →
     unmarshal_dynheader (MkUCtx bo hdr HEADER_LEN fds) =
       Ok (MkUCtx bo hdr (length hdr) fds, (length hdr - HEADER_LEN, called member settings))).
Proof.
  intros Hv Hp msg. pose proof (build_call_eq bo member settings) as Hm. fold msg in Hm.
  rewrite Hm at 1 2. split; [done|]. split; [done|]. by apply (built_header msg _ bo TCall).
Qed.

(** A built signal as well. *)
Lemma built_signal_arrives bo interface member object dests n fds :
  validate_dynheader (signalled interface member object dests) = true →
  (N.of_nat (length object) < u32_mod)%N →
  let msg := build_signal bo interface member object dests in
  typ msg = TSignal ∧ m_body msg = with_byteorder bo ∧
  ∃ hdr, marshal_header dbg msg n = Ok hdr ∧
    ((N.of_nat (length hdr) < u32_mod)%N →
     unmarshal_dynheader (MkUCtx bo hdr HEADER_LEN fds) =
       Ok (MkUCtx bo hdr (length hdr) fds,
           (length hdr - HEADER_LEN, signalled interface member object dests))).
Proof.
  intros Hv Hp msg. pose proof (build_signal_eq bo interface member object dests) as Hm. fold msg in Hm.
  rewrite Hm at 1 2. split; [done|]. split; [done|].
  apply (built_header msg _ bo TSignal); try done. by intros p [= <-].
Qed.
End built.

(** ** A call whose destination is corrected *)

Definition corrected : list setting :=
  [At (lit "org.wrong"); On (lit "/org/a"); At (lit "org.right"); WithInterface (lit "org.I")].

Lemma built_call_arrives_witness :
  called (lit "Get") corrected = MkDyn (Some (lit "org.I")) (Some (lit "Get")) (Some (lit "/org/a"))
    (Some (lit "org.right")) None None None None None None ∧
  ∃ hdr, marshal_header true (build_call BigEndian (lit "Get") corrected) 3 = Ok hdr ∧
    unmarshal_dynheader (MkUCtx BigEndian hdr HEADER_LEN []) =
      Ok (MkUCtx BigEndian hdr (length hdr) [],
          (length hdr - HEADER_LEN, called (lit "Get") corrected)).
Proof.
  split; [reflexivity|].
  destruct (built_call_arrives true BigEndian (lit "Get") corrected 3 []) as (_ & _ & hdr & Hm & Hu);
    [by vm_compute|by intros p [= <-]|].
  exists hdr. split; [exact Hm|]. apply Hu. vm_compute in Hm. injection Hm as <-.
  vm_compute. reflexivity.
Defined.
