(* ===== verification/Hierarchy.v ===== *)
(** * routing.rs: the call hierarchy

    [CallHierarchy] is a tree of path elements whose nodes carry a handler; an
    incoming method call is routed by [send], a waiting [get_call] recognises its
    own messages by [is_match], and [insert_path] edits the tree and trims it.

    A [MsgQueue] is an unbounded channel whose two ends the queue keeps open, so
    sending never fails; it is named by its identity ([queue]), and the contents
    of all channels are a store from identities to message lists.  The identity a
    [MsgQueue::new()] allocates is an argument of the insertion. *)

From S2P Require Import Prelude Utils Body Message StdPath ObjPath.
From Stdlib Require Import Lia.

Definition queue := nat.

Inductive CallHandler :=
| HQueue (q : queue)
| HExact (q : queue)
| HIntro
| HNothing
| HDrop.

Inductive CallAction := ADrop | AQueue | AExact | AIntro | ANothing.

#[export] Instance CallHandler_eq_dec : EqDecision CallHandler.
Proof. solve_decision. Defined.
#[export] Instance CallAction_eq_dec : EqDecision CallAction.
Proof. solve_decision. Defined.

Definition is_nothing (h : CallHandler) : bool :=
  match h with HNothing => true | _ => false end.

(** [CallHandler::get_queue]. *)
Definition handler_queue (h : CallHandler) : option queue :=
  match h with HQueue q | HExact q => Some q | _ => None end.

(** [From<CallAction> for CallHandler]; [q] is the queue [MsgQueue::new] makes. *)
Definition handler_of (action : CallAction) (q : queue) : CallHandler :=
  match action with
  | AQueue => HQueue q
  | AExact => HExact q
  | ADrop => HDrop
  | ANothing => HNothing
  | AIntro => HIntro
  end.

(** [From<&CallHandler> for CallAction]. *)
Definition action_of (h : CallHandler) : CallAction :=
  match h with
  | HExact _ => AExact
  | HQueue _ => AQueue
  | HDrop => ADrop
  | HNothing => ANothing
  | HIntro => AIntro
  end.

#[warnings="-register-all"]
Inductive CallHierarchy := MkHier {
  children : gmap bytes CallHierarchy;
  handler : CallHandler;
}.

Abbreviation child_map := (gmap bytes CallHierarchy) (only parsing).

(** The iterators of [Status] are the maps they iterate over. *)
Inductive Status :=
| SQueue (q : queue)
| SIntro (keys : child_map)
| SDropped
| SUnhandled (keys : child_map).

Definition hierarchy_new : CallHierarchy := MkHier ∅ HDrop.

(** [get_empty_map()] (see EmptyMap.v for its initialisation). *)
Definition empty_map : child_map := ∅.

Fixpoint send_inner (tar_comps : list bytes) (self : CallHierarchy) : Status :=
  match tar_comps with
  | child :: tar_comps' =>
      match children self !! child with
      | Some c =>
          match send_inner tar_comps' c with
          | SUnhandled keys =>
              match handler self with
              | HNothing => SUnhandled keys
              | HQueue q => SQueue q
              | HIntro => SIntro keys
              | HExact _ | HDrop => SDropped
              end
          | handled => handled
          end
      | None =>
          match handler self with
          | HQueue q => SQueue q
          | HNothing => SUnhandled empty_map
          | HIntro | HExact _ | HDrop => SDropped
          end
      end
  | [] =>
      match handler self with
      | HQueue q | HExact q => SQueue q
      | HNothing => SUnhandled (children self)
      | HDrop => SDropped
      | HIntro => SIntro (children self)
      end
  end.

(** [insert_inner]: the updated node and whether it is still needed. *)
Fixpoint insert_inner (tar_comps : list bytes) (action : CallAction) (q : queue)
    (self : CallHierarchy) : CallHierarchy * bool :=
  match tar_comps with
  | child :: tar_comps' =>
      match children self !! child with
      | Some entry =>
          let '(entry', keep) := insert_inner tar_comps' action q entry in
          if keep then (MkHier (<[child := entry']> (children self)) (handler self), true)
          else
            let children' := delete child (children self) in
            (MkHier children' (handler self),
             negb (bool_decide (children' = ∅) && is_nothing (handler self)))
      | None =>
          let '(hierarchy, keep) := insert_inner tar_comps' action q (MkHier ∅ HNothing) in
          if keep then (MkHier (<[child := hierarchy]> (children self)) (handler self), true)
          else (self, negb (is_nothing (handler self)))
      end
  | [] =>
      let handler' := handler_of action q in
      (MkHier (children self) handler',
       if is_nothing handler' then negb (bool_decide (children self = ∅)) else true)
  end.

Fixpoint find_inner (tar_comps : list bytes) (self : CallHierarchy) : option CallHandler :=
  match tar_comps with
  | child :: tar_comps' => c ← children self !! child; find_inner tar_comps' c
  | [] => Some (handler self)
  end.

Fixpoint is_match_inner (org_comps msg_comps : list bytes) (self : CallHierarchy) : bool :=
  match msg_comps with
  | msg :: msg_comps' =>
      match org_comps with
      | org :: org_comps' =>
          if decide (org = msg) then
            match children self !! org with
            | Some child => is_match_inner org_comps' msg_comps' child
            | None => false
            end
          else false
      | [] =>
          match children self !! msg with
          | Some child =>
              match send_inner msg_comps' child with
              | SQueue _ | SDropped | SIntro _ => false
              | SUnhandled _ => bool_decide (is_Some (handler_queue (handler self)))
              end
          | None => match handler self with HQueue _ => true | _ => false end
          end
      end
  | [] =>
      match org_comps with
      | _ :: _ => false
      | [] => bool_decide (is_Some (handler_queue (handler self)))
      end
  end.

(** ** The public operations, on object paths *)

Section paths.
Context (dbg : bool).

Definition insert_path {E : Type} (self : CallHierarchy) (path : bytes) (action : CallAction)
    (q : queue) : outcome E CallHierarchy :=
  tar_comps ← components dbg path;
  mret (insert_inner tar_comps action q self).1.

Definition find_handler {E : Type} (self : CallHierarchy) (path : bytes)
    : outcome E (option CallHandler) :=
  tar_comps ← components dbg path;
  mret (find_inner tar_comps self).

Definition get_queue {E : Type} (self : CallHierarchy) (path : bytes) : outcome E (option queue) :=
  h ← find_handler self path;
  mret (h ≫= handler_queue).

Definition get_action {E : Type} (self : CallHierarchy) (path : bytes)
    : outcome E (option CallAction) :=
  h ← find_handler (E:=E) self path;
  Ok (option_map action_of h).

Definition is_match {E : Type} (self : CallHierarchy) (org_path msg_path : bytes)
    : outcome E bool :=
  org_comps ← components dbg org_path;
  msg_comps ← components dbg msg_path;
  mret (is_match_inner org_comps msg_comps self).

(** ** Replies made by the router *)

Context `{BasicMarshal}.

(** The iteration order of a [HashMap]. *)
Context (hash_iter : child_map → list (bytes * CallHierarchy)).

Definition make_object_not_found {E : Type} (msg : MarshalledMessage)
    : outcome E MarshalledMessage :=
  make_error_response (dynheader msg) (lit "org.freedesktop.DBus.Error.UnknownObject") None.

(** The XML constants: apostrophes here stand for the source's double quotes. *)
Definition quoted (s : string) : bytes :=
  map (λ c, if decide (c = "'"%char) then u8_of 34 else c) (lit s).
Definition newline : bytes := [u8_of 10].
Definition tab : bytes := [u8_of 9].

Definition INTRO_START : bytes :=
  quoted "<!DOCTYPE node PUBLIC '-//freedesktop//DTD D-BUS Object Introspection 1.0//EN' " ++
  quoted "'http://www.freedesktop.org/standards/dbus/1.0/introspect.dtd'>" ++ newline ++
  lit " <node>" ++ newline ++
  tab ++ quoted "<interface name='org.freedesktop.DBus.Introspectable'>" ++ newline ++
  tab ++ tab ++ quoted "<method name='Introspect'>" ++ newline ++
  tab ++ tab ++ tab ++ quoted "<arg name='xml_data' type='s' direction='out'/>" ++ newline ++
  tab ++ tab ++ lit "</method>" ++ newline ++
  tab ++ lit "</interface>" ++ newline.

Definition INTRO_END : bytes := lit " </node>".

Definition intro_node (child : bytes) : bytes :=
  tab ++ quoted "<node name='" ++ child ++ quoted "'/>" ++ newline.

(** The children an introspection lists: all but the dropped ones. *)
Definition intro_children (children : child_map) : list bytes :=
  omap (λ '(s, c), match handler c with HDrop => None | _ => Some s end)
    (hash_iter children).

Definition make_intro_msg {E : Type} (msg : MarshalledMessage) (children : child_map)
    : outcome E MarshalledMessage :=
  iface ← unwrap (interface (dynheader msg));
  if decide (iface = lit "org.freedesktop.DBus.Introspectable") then
    let res := make_response (dynheader msg) in
    let intro_str := INTRO_START ++ mjoin (map intro_node (intro_children children))
                       ++ INTRO_END in
    b ← push_unwrap (str_param intro_str) (m_body res);
    mret (set_body res b)
  else make_error_response (dynheader msg) (lit "UnknownInterface") None.

(** [CallHierarchy::send]: [Ok] with the updated channels, or [Err] with the
    reply to send back. *)
Definition send (self : CallHierarchy) (chans : gmap queue (list MarshalledMessage))
    (msg : MarshalledMessage)
    : outcome MarshalledMessage (gmap queue (list MarshalledMessage)) :=
  obj ← unwrap (object (dynheader msg));
  path ← unwrap (match from_str obj with Ok p => Some p | _ => None end);
  tar_comps ← components dbg path;
  match send_inner tar_comps self with
  | SQueue q => Ok (<[q := default [] (chans !! q) ++ [msg]]> chans)
  | SIntro keys => reply ← make_intro_msg msg keys; Err reply
  | SUnhandled _ | SDropped => reply ← make_object_not_found msg; Err reply
  end.
End paths.

(** ** Nodes by path *)

Fixpoint node_at (comps : list bytes) (h : CallHierarchy) : option CallHierarchy :=
  match comps with
  | [] => Some h
  | c :: comps' => n ← children h !! c; node_at comps' n
  end.

Lemma find_inner_node comps h : find_inner comps h = handler <$> node_at comps h.
Proof.
  revert h. induction comps as [|c comps IH]; intros h; cbn; [done|].
  destruct (children h !! c); cbn; auto.
Qed.

Lemma node_at_app p s h : node_at (p ++ s) h = n ← node_at p h; node_at s n.
Proof.
  revert h. induction p as [|c p IH]; intros h; cbn; [done|].
  destruct (children h !! c); cbn; auto.
Qed.

(** The unit test [call_hierarchy_insert]. *)
Definition sample_tree : CallHierarchy :=
  (insert_inner [lit "var"; lit "log"; lit "journal"] AQueue 2
    (insert_inner [lit "var"] AExact 1
      (insert_inner [] AQueue 0 hierarchy_new).1).1).1.

(** ** Routing: [send] against its specification

    [decides comps p hd]: on the way down [comps], the node at the prefix [p] is
    the deepest one with a handler that is not [Nothing]. *)

Definition decides (h : CallHierarchy) (comps p : list bytes) (hd : CallHandler) : Prop :=
  p `prefix_of` comps ∧ find_inner p h = Some hd ∧ hd ≠ HNothing ∧
  ∀ p', p `prefix_of` p' → p' ≠ p → p' `prefix_of` comps →
    find_inner p' h = None ∨ find_inner p' h = Some HNothing.

(** No node on the way has a handler. *)
Definition undecided (h : CallHierarchy) (comps : list bytes) : Prop :=
  ∀ p', p' `prefix_of` comps → find_inner p' h = None ∨ find_inner p' h = Some HNothing.

Lemma find_inner_cons c p h :
  find_inner (c :: p) h = n ← children h !! c; find_inner p n.
Proof. done. Qed.

Lemma undecided_cons h c comps :
  undecided h (c :: comps) ↔
    handler h = HNothing ∧ ∀ n, children h !! c = Some n → undecided n comps.
Proof.
  split.
  - intros Hu. split.
    + destruct (Hu [] (prefix_nil _)) as [[=]|[= ->]]. done.
    + intros n Hn p Hp. specialize (Hu (c :: p) (prefix_cons _ _ _ Hp)).
      rewrite find_inner_cons, Hn in Hu. done.
  - intros [Hh Hn] [|c' p] Hp.
    + right. cbn. by rewrite Hh.
    + apply prefix_cons_inv_1 in Hp as Hc. subst. apply prefix_cons_inv_2 in Hp.
      rewrite find_inner_cons. destruct (children h !! c) as [n|] eqn:E; [|by left].
      by apply (Hn n).
Qed.

(** The node below does not decide: this one does, if it has a handler. *)
Lemma decides_here h c comps hd :
  (∀ n, children h !! c = Some n → undecided n comps) → hd ≠ HNothing →
  decides h (c :: comps) [] hd ↔ handler h = hd.
Proof.
  intros Hn Hne. split; [by intros (_ & [= ->] & _)|].
  intros <-. split_and!; [apply prefix_nil|done|done|].
  intros [|c' p] _ Hp0 Hp; [done|].
  apply prefix_cons_inv_1 in Hp as Hc. subst. apply prefix_cons_inv_2 in Hp.
  rewrite find_inner_cons. destruct (children h !! c) as [n|] eqn:E; [|by left].
  by apply (Hn n).
Qed.

Lemma decides_below h c comps p hd n :
  children h !! c = Some n → decides n comps p hd → decides h (c :: comps) (c :: p) hd.
Proof.
  intros Hn (Hp & Hf & Hne & Hmax). split_and!.
  - by apply prefix_cons.
  - by rewrite find_inner_cons, Hn.
  - done.
  - intros [|c' p'] Hpp Hneq Hcomps.
    + by apply prefix_nil_not in Hpp.
    + apply prefix_cons_inv_1 in Hpp as Hc. subst. apply prefix_cons_inv_2 in Hpp, Hcomps.
      rewrite find_inner_cons, Hn. apply Hmax; auto. congruence.
Qed.

(** The deciding node is unique. *)
Lemma decides_unique h comps p1 p2 hd1 hd2 :
  decides h comps p1 hd1 → decides h comps p2 hd2 → p1 = p2 ∧ hd1 = hd2.
Proof.
  intros (Hp1 & Hf1 & Hn1 & Hm1) (Hp2 & Hf2 & Hn2 & Hm2).
  assert (p1 = p2) as ->; [|by rewrite Hf1 in Hf2; injection Hf2].
  destruct (decide (p1 = p2)) as [|Hne]; [done|exfalso].
  destruct (prefix_weak_total p1 p2 comps Hp1 Hp2) as [Hp|Hp].
  - destruct (Hm1 p2) as [H|H]; auto; congruence.
  - destruct (Hm2 p1) as [H|H]; auto; congruence.
Qed.

Lemma decides_not_undecided h comps p hd : decides h comps p hd → ¬ undecided h comps.
Proof. intros (Hp & Hf & Hne & _) Hu. destruct (Hu p Hp); congruence. Qed.

(** What a deciding handler does with the call; [exact] says the whole path was
    the deciding one, [keys] are the children an introspection reports. *)
Definition verdict (hd : CallHandler) (exact : bool) (keys : option child_map) : Status :=
  match hd with
  | HQueue q => SQueue q
  | HExact q => if exact then SQueue q else SDropped
  | HIntro => match keys with Some k => SIntro k | None => SDropped end
  | HNothing | HDrop => SDropped
  end.

Definition reported (h : CallHierarchy) (comps p : list bytes) : option child_map :=
  match node_at comps h, node_at (take (S (length p)) comps) h with
  | Some n, _ => Some (children n)
  | None, Some _ => Some empty_map
  | None, None => None
  end.

Lemma verdict_handled hd ex keys k : verdict hd ex keys ≠ SUnhandled k.
Proof. destruct hd, ex, keys; done. Qed.

(** [send_inner] implements the routing specification.  If some node on the
    way down the path has a handler other than [Nothing], the deepest such node
    decides: [Queue] takes the call, [Exact] takes it only for its own path,
    [Intro] answers it when the path continues below it, everything else drops
    it.  Otherwise the call is unhandled. *)
Lemma send_inner_verdict h comps :
  (∃ p hd, decides h comps p hd ∧
    send_inner comps h = verdict hd (bool_decide (p = comps)) (reported h comps p)) ∨
  (undecided h comps ∧
    send_inner comps h = SUnhandled (default empty_map (children <$> node_at comps h))).
Proof.
  revert h. induction comps as [|c comps IH]; intros h.
  - destruct (decide (handler h = HNothing)) as [Hh|Hh].
    + right. cbn. rewrite Hh. split; [|done].
      intros p ->%prefix_nil_inv. right. cbn. by rewrite Hh.
    + left. exists [], (handler h). split.
      * split_and!; [done..|]. by intros p _ ? ->%prefix_nil_inv.
      * cbn. by destruct (handler h).
  - cbn [send_inner]. destruct (children h !! c) as [n|] eqn:Hc.
    + destruct (IH n) as [(p & hd & Hd & ->)|[Hu ->]].
      * left. exists (c :: p), hd. split; [by eapply decides_below|].
        assert (reported h (c :: comps) (c :: p) = reported n comps p) as ->
          by (unfold reported; cbn; by rewrite Hc).
        rewrite (bool_decide_ext (c :: p = c :: comps) (p = comps)) by naive_solver.
        destruct (verdict _ _ _) eqn:Hv; try done. by apply verdict_handled in Hv.
      * assert (∀ m, children h !! c = Some m → undecided m comps) as Hu'
          by (intros m; by rewrite Hc; intros [= <-]).
        destruct (decide (handler h = HNothing)) as [Hh|Hh].
        -- right. rewrite undecided_cons. split; [done|]. rewrite Hh. cbn. by rewrite Hc.
        -- left. exists [], (handler h). split; [by apply decides_here|].
           rewrite bool_decide_eq_false_2 by done. unfold reported. cbn. rewrite Hc. cbn.
           destruct (node_at comps n); by destruct (handler h).
    + assert (∀ m, children h !! c = Some m → undecided m comps) as Hu' by by rewrite Hc.
      destruct (decide (handler h = HNothing)) as [Hh|Hh].
      * right. rewrite undecided_cons. split; [done|]. rewrite Hh. cbn. by rewrite Hc.
      * left. exists [], (handler h). split; [by apply decides_here|].
        rewrite bool_decide_eq_false_2 by done. unfold reported. cbn. rewrite Hc. cbn.
        by destruct (handler h).
Qed.

Lemma send_inner_undecided h comps keys :
  send_inner comps h = SUnhandled keys → undecided h comps.
Proof.
  destruct (send_inner_verdict h comps) as [(p & hd & _ & ->)|[? _]]; [|done].
  intros Hv. by apply verdict_handled in Hv.
Qed.

(** The calls the channel [q] receives: those its node decides, which for
    [Exact] must be calls to the node's own path. *)
Definition receives (h : CallHierarchy) (comps : list bytes) (q : queue) : Prop :=
  (∃ p, decides h comps p (HQueue q)) ∨ decides h comps comps (HExact q).

Lemma receives_decided h comps p hd q :
  decides h comps p hd →
  receives h comps q ↔ hd = HQueue q ∨ (p = comps ∧ hd = HExact q).
Proof.
  intros Hd. split.
  - intros [[p' Hp]|Hp]; destruct (decides_unique _ _ _ _ _ _ Hd Hp) as [-> ->]; auto.
  - intros [->|[-> ->]]; [left; by exists p|by right].
Qed.

Lemma send_inner_queue h comps q : send_inner comps h = SQueue q ↔ receives h comps q.
Proof.
  destruct (send_inner_verdict h comps) as [(p & hd & Hd & ->)|[Hu ->]]; split.
  - destruct hd; cbn; try done.
    + intros [= ->]. left. eauto.
    + case_bool_decide; [|done]. intros [= ->]. subst. by right.
    + by destruct (reported _ _ _).
  - intros [[p' Hp]|Hp].
    + by destruct (decides_unique _ _ _ _ _ _ Hd Hp) as [-> ->].
    + destruct (decides_unique _ _ _ _ _ _ Hd Hp) as [-> ->]. cbn.
      by rewrite bool_decide_eq_true_2.
  - done.
  - intros [[p Hp]|Hp]; by destruct (decides_not_undecided _ _ _ _ Hp).
Qed.

(** ** [is_match] against [send] *)

Lemma handler_queue_not_nothing hd q : handler_queue hd = Some q → hd ≠ HNothing.
Proof. by intros ? ->. Qed.

Lemma is_match_inner_iff h org msg :
  is_match_inner org msg h = true ↔
  ∃ q hd, decides h msg org hd ∧ handler_queue hd = Some q ∧
    (hd = HQueue q ∨ reported h msg org ≠ None).
Proof.
  revert h org. induction msg as [|m msg IH]; intros h org; destruct org as [|o org]; cbn [is_match_inner].
  - rewrite bool_decide_eq_true. split.
    * intros [q Hq]. exists q, (handler h). split_and!.
      -- split_and!; [done..|by eapply handler_queue_not_nothing|].
         by intros p _ ? ->%prefix_nil_inv.
      -- done.
      -- by right.
    * intros (q & hd & (_ & [= <-] & _) & ? & _). by exists q.
  - split; [done|]. intros (q & hd & (Hp & _) & _). by apply prefix_nil_not in Hp.
  - destruct (children h !! m) as [n|] eqn:Hm.
    + destruct (send_inner msg n) as [q0|k0| |keys] eqn:Hs.
      4: { apply send_inner_undecided in Hs as Hu.
        assert (∀ n', children h !! m = Some n' → undecided n' msg) as Hu'
          by (intros n'; rewrite Hm; by intros [= <-]).
        rewrite bool_decide_eq_true. split.
        - intros [q Hq]. exists q, (handler h).
          split; [by apply decides_here; [|eapply handler_queue_not_nothing|]|].
          split; [done|]. right. unfold reported. cbn. rewrite Hm. cbn.
          by destruct (node_at msg n).
        - intros (q & hd & (_ & [= <-] & _) & ? & _). by exists q. }
      all: split; [done|]; intros (q & hd & Hd & Hq & _);
        assert (undecided n msg) as Hu by
          (intros p Hp; destruct Hd as (_ & _ & _ & Hd);
           specialize (Hd (m :: p) (prefix_nil _) ltac:(done) (prefix_cons _ _ _ Hp));
           by rewrite find_inner_cons, Hm in Hd);
        destruct (send_inner_verdict n msg) as [(p & hd' & Hd' & _)|[_ Hs']];
        [by apply decides_not_undecided in Hd'|congruence].
    + assert (reported h (m :: msg) [] = None) as Hr by (unfold reported; cbn; by rewrite Hm).
      assert (∀ n, children h !! m = Some n → undecided n msg) as Hu' by by rewrite Hm.
      split.
      * destruct (handler h) as [q| | | |] eqn:Hh; try done. intros _. exists q, (HQueue q).
         split; [by apply decides_here|]. auto.
      * intros (q & hd & (_ & [= <-] & _) & ? & [->|?]); done.
  - case_decide as Hom.
    + subst. destruct (children h !! m) as [n|] eqn:Hm.
      * rewrite IH. assert (reported h (m :: msg) (m :: org) = reported n msg org) as ->
           by (unfold reported; cbn; by rewrite Hm).
         assert (∀ hd, decides n msg org hd ↔ decides h (m :: msg) (m :: org) hd) as Hiff;
           [|by setoid_rewrite Hiff].
         intros hd. split; [by apply decides_below|].
         intros (Hp & Hf & Hne & Hmax). rewrite find_inner_cons, Hm in Hf.
         split_and!; [by apply prefix_cons_inv_2 in Hp|done|done|].
         intros p' Hp' Hneq Hpm.
         specialize (Hmax (m :: p') (prefix_cons _ _ _ Hp') ltac:(congruence)
           (prefix_cons _ _ _ Hpm)).
         by rewrite find_inner_cons, Hm in Hmax.
      * split; [done|]. intros (q & hd & (_ & Hf & _) & _).
         by rewrite find_inner_cons, Hm in Hf.
    + split; [done|]. intros (q & hd & (Hp & _) & _). by apply prefix_cons_inv_1 in Hp.
Qed.

(** No two nodes share a queue: every [MsgQueue::new()] is a fresh channel. *)
Definition queues_unique (h : CallHierarchy) : Prop := ∀ p1 p2 hd1 hd2 q,
  find_inner p1 h = Some hd1 → find_inner p2 h = Some hd2 →
  handler_queue hd1 = Some q → handler_queue hd2 = Some q → p1 = p2.

Lemma is_match_sent h org msg hd q :
  queues_unique h → find_inner org h = Some hd → handler_queue hd = Some q →
  send_inner msg h = SQueue q → is_match_inner org msg h = true.
Proof.
  intros Huniq Horg Hq. rewrite is_match_inner_iff. intros [[p Hp]|Hp]%send_inner_queue.
  - assert (p = org) as -> by (destruct Hp as (_ & Hf & _); by eapply Huniq).
    exists q, (HQueue q). auto.
  - assert (msg = org) as -> by (destruct Hp as (_ & Hf & _); by eapply Huniq).
    exists q, (HExact q). split_and!; [done|done|]. right. unfold reported.
    destruct Hp as (_ & Hf & _). rewrite find_inner_node in Hf. by destruct (node_at org h).
Qed.

(** C27: a waiting [get_call] takes its messages off the wire with [is_match]
    exactly when [send] would have queued them for it.  It never misses one; and
    with a [Queue] action it never takes one that belongs elsewhere. *)
Theorem is_match_send h org msg hd q :
  queues_unique h → find_inner org h = Some hd → handler_queue hd = Some q →
  (send_inner msg h = SQueue q → is_match_inner org msg h = true) ∧
  (hd = HQueue q → is_match_inner org msg h = true → send_inner msg h = SQueue q).
Proof.
  intros Huniq Horg Hq. split; [by apply (is_match_sent h org msg hd)|].
  rewrite is_match_inner_iff. intros -> (q' & hd' & Hd & Hq' & _). apply send_inner_queue. left. exists org.
  assert (hd' = HQueue q) as ->; [|done].
  destruct Hd as (_ & Hf & _). congruence.
Qed.

(** for an [Exact] path [is_match] is too generous: where the tree has an
    intermediate node below the exact path, it claims a call to that child, which
    [send] refuses and which [Exact] promises not to accept. *)
Theorem is_match_exact_child :
  find_inner [lit "var"] sample_tree = Some (HExact 1) ∧
  is_match_inner [lit "var"] [lit "var"; lit "log"] sample_tree = true ∧
  send_inner [lit "var"; lit "log"] sample_tree = SDropped.
Proof. by vm_compute. Qed.

(** ** Insertion *)

Lemma find_inner_fresh p :
  find_inner p (MkHier ∅ HNothing) = if decide (p = []) then Some HNothing else None.
Proof. by destruct p. Qed.

(** The handler found at [p] once [new] is inserted at [comps], where [old] was
    found before: the new one at [comps] itself, [Nothing] at the missing nodes
    above it, the old one elsewhere. *)
Definition inserted (comps : list bytes) (new : CallHandler) (p : list bytes)
    (old : option CallHandler) : option CallHandler :=
  if decide (p = comps) then Some new else
  match old with
  | Some hd => Some hd
  | None => if decide (p `prefix_of` comps) then Some HNothing else None
  end.

Lemma inserted_cons c comps new p old :
  inserted (c :: comps) new (c :: p) old = inserted comps new p old.
Proof.
  unfold inserted.
  rewrite (decide_ext (c :: p = c :: comps) (p = comps)) by naive_solver.
  destruct old; [done|]. case_decide; [done|]. apply decide_ext.
  split; [apply prefix_cons_inv_2|apply prefix_cons].
Qed.

Lemma inserted_other c d comps new p old :
  d ≠ c → inserted (c :: comps) new (d :: p) old = old.
Proof.
  intros Hd. unfold inserted. rewrite decide_False by congruence. destruct old; [done|].
  by rewrite decide_False by (intros Hp%prefix_cons_inv_1; congruence).
Qed.

(** Finding below an updated child. *)
Lemma find_inner_update h c n d p :
  find_inner (d :: p) (MkHier (<[c := n]> (children h)) (handler h)) =
    if decide (d = c) then find_inner p n else find_inner (d :: p) h.
Proof.
  rewrite !find_inner_cons. cbn [children]. case_decide as Hd.
  - subst. by rewrite lookup_insert_eq.
  - by rewrite lookup_insert_ne.
Qed.

Lemma find_inner_delete h c d p :
  find_inner (d :: p) (MkHier (delete c (children h)) (handler h)) =
    if decide (d = c) then None else find_inner (d :: p) h.
Proof.
  rewrite !find_inner_cons. cbn [children]. case_decide as Hd.
  - subst. by rewrite lookup_delete_eq.
  - by rewrite lookup_delete_ne.
Qed.

Lemma insert_inner_set_aux comps action q h :
  action ≠ ANothing →
  (insert_inner comps action q h).2 = true ∧
  ∀ p, find_inner p (insert_inner comps action q h).1 =
    inserted comps (handler_of action q) p (find_inner p h).
Proof.
  intros Ha. revert h. induction comps as [|c comps IH]; intros h.
  - cbn [insert_inner fst snd]. split; [by destruct action|].
    intros [|d p]; [done|]. unfold inserted. rewrite decide_False, find_inner_cons by done.
    rewrite find_inner_cons. cbn [children]. destruct (children h !! d ≫= _); [done|].
    rewrite decide_False; [done|apply prefix_nil_not].
  - cbn [insert_inner]. destruct (children h !! c) as [n|] eqn:Hc.
    + destruct (IH n) as [Hk Hf]. destruct (insert_inner comps action q n) as [n' k].
      cbn in Hk, Hf. subst k. split; [done|]. intros [|d p]; [done|]. cbn [fst].
      rewrite find_inner_update. case_decide as Hd.
      * subst. by rewrite Hf, find_inner_cons, Hc, inserted_cons.
      * by rewrite inserted_other.
    + destruct (IH (MkHier ∅ HNothing)) as [Hk Hf].
      destruct (insert_inner comps action q (MkHier ∅ HNothing)) as [n' k].
      cbn in Hk, Hf. subst k. split; [done|]. intros [|d p]; [done|]. cbn [fst].
      rewrite find_inner_update. case_decide as Hd.
      * subst. rewrite Hf, find_inner_cons, Hc, inserted_cons. by destruct p.
      * by rewrite inserted_other.
Qed.

Lemma insert_nothing_aux comps q h :
  find_inner comps h ≠ None →
  (∀ p, p ≠ comps → ∀ hd, hd ≠ HNothing →
    find_inner p (insert_inner comps ANothing q h).1 = Some hd ↔ find_inner p h = Some hd) ∧
  (∀ hd, find_inner comps (insert_inner comps ANothing q h).1 = Some hd → hd = HNothing) ∧
  ((insert_inner comps ANothing q h).2 = false →
    ∀ p hd, find_inner p (insert_inner comps ANothing q h).1 = Some hd → hd = HNothing).
Proof.
  revert h. induction comps as [|c comps IH]; intros h Hf.
  - cbn [insert_inner fst snd]. split_and!.
    + intros [|d p] ? hd Hhd; [done|]. by rewrite !find_inner_cons.
    + by intros hd [= <-].
    + cbn. intros He%negb_false_iff%bool_decide_eq_true [|d p] hd; [by intros [= <-]|].
      rewrite find_inner_cons. cbn. by rewrite He.
  - rewrite find_inner_cons in Hf. cbn [insert_inner].
    destruct (children h !! c) as [n|] eqn:Hc; [|done]. cbn in Hf.
    destruct (IH n Hf) as (H1 & H2 & H3).
    destruct (insert_inner comps ANothing q n) as [n' k]. cbn in H1, H2, H3.
    destruct k; cbn [fst snd]; split_and!.
    + intros [|d p] Hp hd Hhd; [done|]. rewrite find_inner_update. case_decide as Hd; [|done].
      subst. rewrite find_inner_cons, Hc. apply H1; congruence.
    + intros hd. rewrite find_inner_update, decide_True by done. apply H2.
    + done.
    + intros [|d p] Hp hd Hhd; [done|]. rewrite find_inner_delete. case_decide as Hd; [|done].
      subst. rewrite find_inner_cons, Hc. cbn. split; [done|]. intros Hs. exfalso.
      apply Hhd, (H3 eq_refl p). apply H1; [congruence|done|done].
    + intros hd. by rewrite find_inner_delete, decide_True.
    + intros [He Hn]%negb_false_iff%andb_true_iff [|d p] hd.
      * cbn. intros [= <-]. by destruct (handler h).
      * apply bool_decide_eq_true in He. rewrite find_inner_cons. cbn [children].
        by rewrite He.
Qed.

(** nullifying a path that is in the tree removes its handler and keeps every
    other path's. *)
Theorem insert_inner_nothing comps q h :
  find_inner comps h ≠ None →
  (∀ p hd, p ≠ comps → hd ≠ HNothing →
    find_inner p (insert_inner comps ANothing q h).1 = Some hd ↔ find_inner p h = Some hd) ∧
  (∀ hd, find_inner comps (insert_inner comps ANothing q h).1 = Some hd → hd = HNothing).
Proof.
  intros Hf. destruct (insert_nothing_aux comps q h Hf) as (H1 & H2 & _).
  split; [|done]. intros. by apply H1.
Qed.

(** nullifying a path that is not in the tree can remove handlers it does not
    name: below a [Nothing] node the missing child is reported as "not needed",
    and the parent then deletes the node with all its other children. *)
Theorem insert_inner_nothing_absent h c d q n p :
  children h !! c = Some n → handler n = HNothing → children n !! d = None →
  find_inner (c :: p) (insert_inner [c; d] ANothing q h).1 = None.
Proof.
  intros Hc Hn Hd. cbn [insert_inner]. rewrite Hc, Hd, Hn. cbn [handler_of is_nothing children].
  rewrite bool_decide_eq_true_2 by done. cbn [negb fst].
  by rewrite find_inner_delete, decide_True.
Qed.

(** *** Invariants of the tree

    [trimmed]: every node below the root has a handler or children, so the tree
    keeps no nodes an earlier nullification left without use. *)

Definition useful (h : CallHierarchy) : Prop := handler h ≠ HNothing ∨ children h ≠ ∅.

Definition trimmed (h : CallHierarchy) : Prop :=
  ∀ p n, p ≠ [] → node_at p h = Some n → useful n.

Lemma trimmed_child h c n : trimmed h → children h !! c = Some n → useful n ∧ trimmed n.
Proof.
  intros Ht Hc. split.
  - apply (Ht [c]); [done|]. cbn. by rewrite Hc.
  - intros p n' _ Hn. apply (Ht (c :: p)); [done|]. cbn. by rewrite Hc.
Qed.

Lemma trimmed_children h :
  (∀ c n, children h !! c = Some n → useful n ∧ trimmed n) → trimmed h.
Proof.
  intros Hc [|c p] n Hp; [done|]. cbn. destruct (children h !! c) as [m|] eqn:Hm; [|done].
  destruct (Hc c m Hm) as [Hu Ht]. destruct p; [by intros [= <-]|]. by apply Ht.
Qed.

Lemma is_nothing_false hd : is_nothing hd = false ↔ hd ≠ HNothing.
Proof. by destruct hd. Qed.

Lemma trimmed_insert_child h c n :
  trimmed h → useful n → trimmed n →
  trimmed (MkHier (<[c := n]> (children h)) (handler h)).
Proof.
  intros Ht Hu Hn. apply trimmed_children. intros d m. cbn.
  intros [[<- <-]|[_ Hm]]%lookup_insert_Some; [done|]. eauto using trimmed_child.
Qed.

Lemma trimmed_delete_child h c :
  trimmed h → trimmed (MkHier (delete c (children h)) (handler h)).
Proof.
  intros Ht. apply trimmed_children. intros d m. cbn.
  intros [_ Hm]%lookup_delete_Some. eauto using trimmed_child.
Qed.

Lemma useful_insert h c n : useful (MkHier (<[c := n]> (children h)) (handler h)).
Proof. right. apply insert_non_empty. Qed.

Lemma trimmed_fresh : trimmed (MkHier ∅ HNothing).
Proof. by apply trimmed_children. Qed.

Lemma insert_inner_trimmed_aux comps action q h :
  trimmed h →
  trimmed (insert_inner comps action q h).1 ∧
  ((insert_inner comps action q h).2 = true → useful (insert_inner comps action q h).1).
Proof.
  revert h. induction comps as [|c comps IH]; intros h Ht.
  - cbn [insert_inner fst snd]. split.
    + apply trimmed_children. intros d m Hd. eauto using trimmed_child.
    + destruct (is_nothing _) eqn:Hh.
      * intros He%negb_true_iff%bool_decide_eq_false. by right.
      * intros _. left. by apply is_nothing_false.
  - cbn [insert_inner]. destruct (children h !! c) as [n|] eqn:Hc.
    + destruct (trimmed_child _ _ _ Ht Hc) as [_ Hn]. destruct (IH n Hn) as [Ht' Hu'].
      destruct (insert_inner comps action q n) as [n' []]; cbn [fst snd] in *.
      * split; [|intros _; by apply useful_insert]. by apply trimmed_insert_child; [|apply Hu'|].
      * split; [by apply trimmed_delete_child|].
        intros [He|Hh]%negb_true_iff%andb_false_iff.
        -- right. by apply bool_decide_eq_false in He.
        -- left. by apply is_nothing_false.
    + destruct (IH _ trimmed_fresh) as [Ht' Hu'].
      destruct (insert_inner comps action q _) as [n' []]; cbn [fst snd] in *.
      * split; [|intros _; by apply useful_insert]. by apply trimmed_insert_child; [|apply Hu'|].
      * split; [done|]. intros Hh%negb_true_iff%is_nothing_false. by left.
Qed.

(** [insert_path] keeps the tree trimmed, whatever is inserted. *)
Theorem insert_inner_trimmed comps action q h :
  trimmed h → trimmed (insert_inner comps action q h).1.
Proof. apply insert_inner_trimmed_aux. Qed.

(** Every handler found after an insertion is [Nothing], the new one, or old. *)
Lemma insert_inner_sound comps action q h p hd :
  find_inner p (insert_inner comps action q h).1 = Some hd →
  hd = HNothing ∨ (p = comps ∧ hd = handler_of action q) ∨ find_inner p h = Some hd.
Proof.
  revert h p. induction comps as [|c comps IH]; intros h p.
  - cbn [insert_inner fst]. destruct p as [|d p]; [|by auto]. intros [= <-]. auto.
  - cbn [insert_inner]. destruct (children h !! c) as [n|] eqn:Hc.
    + specialize (IH n). destruct (insert_inner comps action q n) as [n' []]; cbn [fst] in *;
        (destruct p as [|d p]; [by auto|]).
      * rewrite find_inner_update. case_decide; [|by auto]. subst.
        rewrite find_inner_cons, Hc. intros [->|[[-> ->]|Hf]]%IH; auto.
      * rewrite find_inner_delete. case_decide; by auto.
    + specialize (IH (MkHier ∅ HNothing)).
      destruct (insert_inner comps action q _) as [n' []]; cbn [fst] in *; [|by auto].
      destruct p as [|d p]; [by auto|]. rewrite find_inner_update. case_decide; [|by auto].
      subst. intros [->|[[-> ->]|Hf]]%IH; auto.
      rewrite find_inner_fresh in Hf. case_decide; [|done]. injection Hf as <-. auto.
Qed.

(** No node of the tree uses the channel [q]. *)
Definition fresh_queue (q : queue) (h : CallHierarchy) : Prop :=
  ∀ p hd, find_inner p h = Some hd → handler_queue hd ≠ Some q.

(** inserting with a new channel keeps every channel owned by one path. *)
Theorem insert_inner_queues_unique comps action q h :
  fresh_queue q h → queues_unique h → queues_unique (insert_inner comps action q h).1.
Proof.
  intros Hq Hu p1 p2 hd1 hd2 q' H1 H2 Hq1 Hq2.
  apply insert_inner_sound in H1, H2.
  assert (∀ hd, hd = handler_of action q → handler_queue hd = Some q' → q' = q) as Hnew
    by (intros ? ->; destruct action; cbn; congruence).
  destruct H1 as [->|[[-> ->]|H1]], H2 as [->|[[-> ->]|H2]]; try done.
  - rewrite (Hnew _ eq_refl Hq1) in *. by destruct (Hq _ _ H2).
  - rewrite (Hnew _ eq_refl Hq2) in *. by destruct (Hq _ _ H1).
  - by eapply Hu.
Qed.

(** ** The routing table a hierarchy implements

    Abstractly the router is a map from paths to handlers, a call goes to the
    entry with the longest matching path, and an edit sets or removes one entry. *)

Abbreviation table := (gmap (list bytes) CallHandler) (only parsing).

Record edit := MkEdit { e_path : list bytes; e_action : CallAction; e_queue : queue }.

Definition apply_edit (h : CallHierarchy) (e : edit) : CallHierarchy :=
  (insert_inner (e_path e) (e_action e) (e_queue e) h).1.

Definition table_edit (t : table) (e : edit) : table :=
  match e_action e with
  | ANothing => delete (e_path e) t
  | a => <[e_path e := handler_of a (e_queue e)]> t
  end.

(** The delivery of the longest entry among the first [n] components. *)
Fixpoint table_deliver (t : table) (comps : list bytes) (n : nat) : option queue :=
  match t !! take n comps with
  | Some (HQueue q) => Some q
  | Some (HExact q) => if decide (take n comps = comps) then Some q else None
  | Some _ => None
  | None => match n with O => None | S n' => table_deliver t comps n' end
  end.

Definition route (h : CallHierarchy) (p : list bytes) : option CallHandler :=
  hd ← find_inner p h; if is_nothing hd then None else Some hd.

Definition refines (h : CallHierarchy) (t : table) : Prop := ∀ p, route h p = t !! p.

Lemma route_Some h p hd : route h p = Some hd ↔ find_inner p h = Some hd ∧ hd ≠ HNothing.
Proof.
  unfold route. destruct (find_inner p h) as [hd'|]; cbn; [|naive_solver].
  destruct (is_nothing hd') eqn:Hn.
  - destruct hd'; naive_solver.
  - apply is_nothing_false in Hn. naive_solver.
Qed.

Lemma route_None h p :
  route h p = None ↔ find_inner p h = None ∨ find_inner p h = Some HNothing.
Proof.
  unfold route. destruct (find_inner p h) as [hd'|]; cbn; [|naive_solver].
  destruct hd'; naive_solver.
Qed.

(** An edit is well timed when it does not nullify a path that is not there. *)
Definition well_timed (h : CallHierarchy) (e : edit) : Prop :=
  e_action e = ANothing → find_inner (e_path e) h ≠ None.

#[export] Instance well_timed_dec h e : Decision (well_timed h e).
Proof. unfold well_timed. solve_decision. Defined.

Fixpoint all_well_timed (h : CallHierarchy) (es : list edit) : bool :=
  match es with
  | [] => true
  | e :: es' => bool_decide (well_timed h e) && all_well_timed (apply_edit h e) es'
  end.

Lemma apply_edit_refines h t e :
  refines h t → well_timed h e → refines (apply_edit h e) (table_edit t e).
Proof.
  destruct e as [comps action q]. unfold refines, well_timed, apply_edit, table_edit. cbn.
  intros Hr Hw p. destruct (decide (action = ANothing)) as [->|Ha].
  - destruct (insert_nothing_aux comps q h (Hw eq_refl)) as (H1 & H2 & _).
    destruct (decide (p = comps)) as [->|Hp].
    + rewrite lookup_delete_eq. apply route_None.
      destruct (find_inner comps (insert_inner _ _ _ _).1) as [hd|] eqn:Hf; [|by left].
      right. f_equal. by apply H2.
    + rewrite lookup_delete_ne by done. rewrite <- Hr. apply option_eq. intros hd.
      rewrite !route_Some. split; intros [Hf Hn]; (split; [|done]); by apply (H1 p Hp hd Hn).
  - assert (∀ o, route (insert_inner comps action q h).1 p = o →
      (if decide (p = comps) then Some (handler_of action q) else route h p) = o) as Hgoal.
    { intros o <-. unfold route. rewrite (proj2 (insert_inner_set_aux comps action q h Ha)). unfold inserted.
      case_decide; [by destruct action|]. destruct (find_inner p h); [done|].
      by case_decide. }
    rewrite <- (Hgoal _ eq_refl). rewrite Hr. destruct action; try done; case_decide; subst;
      by rewrite ?lookup_insert_eq, ?lookup_insert_ne.
Qed.

Lemma hierarchy_new_refines : refines hierarchy_new {[ [] := HDrop ]}.
Proof. intros [|c p]; [by rewrite lookup_singleton_eq|]. by rewrite lookup_singleton_ne. Qed.

Lemma table_entry_decides h t comps p hd :
  refines h t → t !! p = Some hd → p `prefix_of` comps →
  (∀ p', p' `prefix_of` comps → length p < length p' → t !! p' = None) →
  decides h comps p hd.
Proof.
  intros Hr Ht Hp Hmax. rewrite <- Hr in Ht. apply route_Some in Ht as [Hf Hn].
  split_and!; [done..|]. intros p' [[|x s] ->] Hne Hp'; [by rewrite app_nil_r in Hne|].
  apply route_None. rewrite Hr. apply Hmax; [done|]. rewrite length_app. cbn. lia.
Qed.

Lemma table_deliver_receives h t comps n q :
  refines h t → n ≤ length comps →
  (∀ p, p `prefix_of` comps → n < length p → t !! p = None) →
  table_deliver t comps n = Some q ↔ receives h comps q.
Proof.
  intros Hr Hn Hmax. induction n as [n IH] using lt_wf_ind.
  assert (take n comps `prefix_of` comps) as Hpre by
    (exists (drop n comps); by rewrite take_drop).
  assert (length (take n comps) = n) as Hlen by (rewrite length_take; lia).
  destruct (t !! take n comps) as [hd|] eqn:Ht.
  - assert (decides h comps (take n comps) hd) as Hd by
      (eapply table_entry_decides; eauto; rewrite Hlen; eauto).
    rewrite (receives_decided _ _ _ _ _ Hd). destruct n; cbn [table_deliver]; rewrite Ht;
      destruct hd; try case_decide; naive_solver.
  - destruct n as [|n]; cbn [table_deliver]; rewrite Ht.
    + split; [done|]. intros [[p (Hp & Hf & Hd & _)]|(Hp & Hf & Hd & _)]; exfalso;
        (pose proof (conj Hf Hd) as Hs; apply route_Some in Hs; rewrite Hr in Hs).
      all: match type of Hs with _ !! ?p = _ => destruct p; [rewrite take_0 in Ht; congruence|] end.
      all: rewrite Hmax in Hs; [done|done|cbn; lia].
    + apply IH; [lia|lia|]. intros p Hp Hlt. destruct (decide (S n < length p)); [by apply Hmax|].
      assert (p = take (S n) comps) as ->; [|done].
      destruct Hp as [s ->]. by rewrite take_app_length' by lia.
Qed.

(** C9: after any well-timed sequence of edits, [send] delivers as the routing
    table the edits describe: into the queue of the longest entry on the path. *)
Theorem hierarchy_routes es comps q :
  all_well_timed hierarchy_new es = true →
  send_inner comps (foldl apply_edit hierarchy_new es) = SQueue q ↔
  table_deliver (foldl table_edit {[ [] := HDrop ]} es) comps (length comps) = Some q.
Proof.
  intros Hw. assert (refines (foldl apply_edit hierarchy_new es)
                       (foldl table_edit {[ [] := HDrop ]} es)) as Hr.
  { generalize hierarchy_new_refines. revert Hw.
    generalize hierarchy_new, ({[ [] := HDrop ]} : table).
    induction es as [|e es IH]; intros h t; [done|]. cbn.
    intros [Hw%bool_decide_eq_true Hes]%andb_true_iff Hr.
    apply IH; [done|]. by apply apply_edit_refines. }
  rewrite send_inner_queue. symmetry. apply table_deliver_receives; [done|lia|].
  intros p Hp%prefix_length Hl. lia.
Qed.

Lemma send_delivers_aux `{BasicMarshal} dbg hash_iter h chans msg comps :
  Forall element comps → object (dynheader msg) = Some (mk_path comps) →
  ∀ chans', send dbg hash_iter h chans msg = Ok chans' ↔
    ∃ q, receives h comps q ∧ chans' = <[q := default [] (chans !! q) ++ [msg]]> chans.
Proof.
  intros Hc Hobj chans'. unfold send. rewrite Hobj. unfold from_str.
  cbn [unwrap mbind outcome_bind mret outcome_ret].
  rewrite validate_str_mk_path by done. cbn [unwrap mbind outcome_bind mret outcome_ret].
  rewrite components_path by done. cbn [mbind outcome_bind].
  setoid_rewrite <- send_inner_queue. destruct (send_inner comps h) as [q|k| |k].
  - split; [intros [= <-]; by exists q|]. by intros (q' & [= <-] & ->).
  - split; [|naive_solver]. intros Hs. outcome_inv.
  - split; [|naive_solver]. intros Hs. outcome_inv.
  - split; [|naive_solver]. intros Hs. outcome_inv.
Qed.

(** C26: [send] appends a call to the channel of the deepest node on its path that
    has a handler, which for [Exact] must be the node of the whole path, and
    changes nothing else; and this is the only way it accepts a call. *)
Theorem send_delivers `{BasicMarshal} dbg hash_iter h chans msg comps :
  Forall element comps → object (dynheader msg) = Some (mk_path comps) →
  ∀ chans', send dbg hash_iter h chans msg = Ok chans' ↔
    ∃ q, receives h comps q ∧ chans' = <[q := default [] (chans !! q) ++ [msg]]> chans.
Proof. apply send_delivers_aux. Qed.

(** a method call need not name an interface, but the router unwraps it to
    answer an introspection: such a call panics exactly where the deciding node
    introspects, and is routed normally everywhere else. *)
Theorem send_without_interface `{BasicMarshal} dbg hash_iter h chans msg comps :
  Forall element comps → object (dynheader msg) = Some (mk_path comps) →
  interface (dynheader msg) = None →
  send dbg hash_iter h chans msg = Panic ↔ ∃ keys, send_inner comps h = SIntro keys.
Proof.
  intros Hc Hobj Hi. unfold send. rewrite Hobj. unfold from_str.
  cbn [unwrap mbind outcome_bind mret outcome_ret].
  rewrite validate_str_mk_path by done. cbn [unwrap mbind outcome_bind mret outcome_ret].
  rewrite components_path by done. cbn [mbind outcome_bind].
  destruct (send_inner comps h) as [q|k| |k]; cbn [mbind outcome_bind].
  1, 3, 4: by split; [|intros [? [=]]].
  unfold make_intro_msg. rewrite Hi. cbn. split; [intros _; by exists k|done].
Qed.

(** ** Concrete runs *)

Definition sample_edits : list edit :=
  [MkEdit [] AQueue 0; MkEdit [lit "var"] AExact 1;
   MkEdit [lit "var"; lit "log"; lit "journal"] AQueue 2].

Lemma sample_edits_tree : foldl apply_edit hierarchy_new sample_edits = sample_tree.
Proof. done. Qed.

Definition call_to (path : bytes) : MarshalledMessage := on path (call (lit "Go") msg_new).

Lemma var_log_element : Forall element [lit "var"; lit "log"].
Proof. by apply (bool_decide_unpack _); vm_compute. Qed.

Lemma hierarchy_new_queues_unique : queues_unique hierarchy_new.
Proof. intros [|? ?] p2 hd1 ? q; cbn; [intros [= <-]; done|done]. Qed.

Lemma sample_tree_queues_unique :
  queues_unique (insert_inner [lit "var"] AQueue 1 hierarchy_new).1.
Proof.
  assert (∀ p hd q,
      find_inner p (insert_inner [lit "var"] AQueue 1 hierarchy_new).1 = Some hd →
      handler_queue hd = Some q → p = [lit "var"]) as Hone.
  { intros p hd q [->|[[-> ->]|Hf]]%insert_inner_sound; [done|done|].
    destruct p; cbn in Hf; [injection Hf as <-|]; done. }
  intros p1 p2 hd1 hd2 q H1 H2 Hq1 Hq2. transitivity [lit "var"]; [|symmetry]; eauto.
Qed.

Definition sample_chans : gmap queue (list MarshalledMessage) :=
  {[ 0 := [call_to (lit "/var/run")] ]}.

(** A call to [/] goes to the root's channel, behind the one waiting there. *)
Lemma send_delivers_witness :
  ∃ q, receives sample_tree [] q ∧
    <[0 := [call_to (lit "/var/run"); call_to (lit "/")]]> sample_chans =
      <[q := default [] (sample_chans !! q) ++ [call_to (lit "/")]]> sample_chans.
Proof.
  refine (proj1 (send_delivers (H:=text_marshal) true map_to_list sample_tree sample_chans
    (call_to (lit "/")) [] (List.Forall_nil _) eq_refl _) _).
  by vm_compute.
Defined.

Lemma is_match_send_witness :
  is_match_inner [lit "var"] [lit "var"; lit "run"]
    (insert_inner [lit "var"] AQueue 1 hierarchy_new).1 = true.
Proof.
  refine (proj1 (is_match_send _ [lit "var"] [lit "var"; lit "run"] (HQueue 1) 1
    sample_tree_queues_unique eq_refl eq_refl) _).
  by vm_compute.
Defined.

Lemma insert_inner_nothing_witness :
  find_inner [lit "var"] sample_tree ≠ None ∧
  ∀ hd, find_inner [lit "var"] (insert_inner [lit "var"] ANothing 3 sample_tree).1 = Some hd →
    hd = HNothing.
Proof.
  assert (find_inner [lit "var"] sample_tree ≠ None) as Hf by (vm_compute; congruence).
  split; [exact Hf|]. exact (proj2 (insert_inner_nothing [lit "var"] 3 sample_tree Hf)).
Defined.

(** Nullifying the absent [/var/log/other] loses the channel of
    [/var/log/journal]. *)
Lemma insert_inner_nothing_absent_witness :
  let h := (insert_inner [lit "log"; lit "journal"] AQueue 2 hierarchy_new).1 in
  find_inner [lit "log"; lit "journal"] h = Some (HQueue 2) ∧
  find_inner [lit "log"; lit "journal"]
    (insert_inner [lit "log"; lit "other"] ANothing 3 h).1 = None.
Proof.
  intros h. split; [reflexivity|].
  refine (insert_inner_nothing_absent h (lit "log") (lit "other") 3
    (MkHier {[ lit "journal" := MkHier ∅ (HQueue 2) ]} HNothing) [lit "journal"] _ _ _);
    by vm_compute.
Defined.

Lemma insert_inner_trimmed_witness :
  trimmed (MkHier ∅ HNothing) ∧
  trimmed (insert_inner [lit "var"; lit "log"] AIntro 0 (MkHier ∅ HNothing)).1.
Proof.
  split; [exact trimmed_fresh|]. exact (insert_inner_trimmed _ _ _ _ trimmed_fresh).
Defined.

Lemma insert_inner_queues_unique_witness :
  queues_unique (insert_inner [lit "var"; lit "log"] AExact 0 hierarchy_new).1.
Proof.
  refine (insert_inner_queues_unique _ _ _ _ _ hierarchy_new_queues_unique).
  intros [|? ?] hd; cbn; [by intros [= <-]|done].
Defined.

Lemma hierarchy_routes_witness :
  send_inner [lit "var"; lit "log"; lit "journal"; lit "x"]
    (foldl apply_edit hierarchy_new sample_edits) = SQueue 2.
Proof.
  refine (proj2 (hierarchy_routes sample_edits _ 2 _) _); by vm_compute.
Defined.

Lemma send_without_interface_witness :
  send (H:=text_marshal) true map_to_list
    (insert_inner [lit "var"] AIntro 0 hierarchy_new).1 ∅ (call_to (lit "/var/log")) = Panic ↔
  ∃ keys, send_inner [lit "var"; lit "log"]
    (insert_inner [lit "var"] AIntro 0 hierarchy_new).1 = SIntro keys.
Proof.
  exact (send_without_interface true map_to_list _ ∅ (call_to (lit "/var/log"))
    [lit "var"; lit "log"] var_log_element eq_refl eq_refl).
Defined.
