(* ===== verification/EmptyMap.v ===== *)
(** * routing.rs: the shared empty map

    [get_empty_map] initialises a static [HashMap] once, guarded by an atomic flag: 0 not
    begun, 1 being written, 2 ready.  Threads interleave at every access of the flag and
    of the map.  Loads of the flag may be stale, as the memory model allows: a load gives
    any value the flag has had since the last one the thread saw.  The plain write of the
    map is a step of its own, [view] tells whether it happens before what the thread
    does next: the writer knows it, and an acquire load of 2 learns what the release store
    of 2 published. *)

From S2P Require Import Prelude.
From Stdlib Require Import Lia.

(** Where a thread is: the load of [get_empty_map], the test of [init_empty_map] with the
    flag it was given, the write of the map, the store of 2, the spin loop, and after the
    reference was returned. *)
Inductive pc := AtLoad | AtInit (flag : nat) | AtWrite | AtStore | AtSpin | AtUse.

Record thread := MkThread { at_pc : pc; seen : nat; view : bool }.

(** [MAP_TUPLE]: the flag and whether the map is initialised; how often it was written,
    and what the store of 2 published. *)
Record state := MkState {
  flag : nat;
  cell : bool;
  writes : nat;
  published : bool;
  threads : gmap nat thread;
}.

Definition set_thread (s : state) (i : nat) (t : thread) : state :=
  MkState (flag s) (cell s) (writes s) (published s) (<[i := t]> (threads s)).

(** A load of the flag by [t] may give [n]. *)
Definition may_load (s : state) (t : thread) (n : nat) : Prop := seen t ≤ n ≤ flag s.

(** What an acquire load of [n] teaches. *)
Definition acquired (s : state) (t : thread) (n : nat) : bool :=
  view t || (bool_decide (n = 2) && published s).

Inductive step (s : state) : state → Prop :=
| get_ready i t : threads s !! i = Some t → at_pc t = AtLoad → may_load s t 2 →
    step s (set_thread s i (MkThread AtUse 2 (acquired s t 2)))
| get_not_ready i t n : threads s !! i = Some t → at_pc t = AtLoad → may_load s t n → n ≠ 2 →
    step s (set_thread s i (MkThread (AtInit n) n (acquired s t n)))
| init_won i t : threads s !! i = Some t → at_pc t = AtInit 0 → flag s = 0 →
    step s (MkState 1 (cell s) (writes s) (published s)
              (<[i := MkThread AtWrite 1 (view t)]> (threads s)))
| init_lost i t n : threads s !! i = Some t → at_pc t = AtInit 0 → flag s ≠ 0 →
    may_load s t n → n ≠ 0 →
    step s (set_thread s i (MkThread AtSpin n (view t)))
| init_begun i t n : threads s !! i = Some t → at_pc t = AtInit n → n ≠ 0 →
    step s (set_thread s i (MkThread AtSpin (seen t) (view t)))
| write_map i t : threads s !! i = Some t → at_pc t = AtWrite →
    step s (MkState (flag s) true (S (writes s)) (published s)
              (<[i := MkThread AtStore (seen t) true]> (threads s)))
| store_ready i t : threads s !! i = Some t → at_pc t = AtStore →
    step s (MkState 2 (cell s) (writes s) (view t)
              (<[i := MkThread AtUse 2 (view t)]> (threads s)))
| spin_again i t n : threads s !! i = Some t → at_pc t = AtSpin → may_load s t n → n ≠ 2 →
    step s (set_thread s i (MkThread AtSpin n (acquired s t n)))
| spin_ready i t : threads s !! i = Some t → at_pc t = AtSpin → may_load s t 2 →
    step s (set_thread s i (MkThread AtUse 2 (acquired s t 2))).

(** [n] threads that call [get_empty_map]. *)
Definition start (n : nat) : state :=
  MkState 0 false 0 false (gset_to_gmap (MkThread AtLoad 0 false) (set_seq 0 n)).

(** The thread that initialises. *)
Definition owns (t : thread) : Prop := at_pc t = AtWrite ∨ at_pc t = AtStore.

(** ** The invariant *)

(** What a thread may assume, by its place. *)
Definition thread_ok (s : state) (t : thread) : Prop :=
  seen t ≤ flag s ∧
  match at_pc t with
  | AtLoad => True
  | AtInit n => n = seen t ∧ n ≠ 2
  | AtWrite => flag s = 1 ∧ cell s = false ∧ writes s = 0
  | AtStore => flag s = 1 ∧ cell s = true ∧ writes s = 1 ∧ view t = true
  | AtSpin => flag s ≠ 0
  | AtUse => flag s = 2 ∧ view t = true
  end.

Record once (s : state) : Prop := {
  once_thread i t : threads s !! i = Some t → thread_ok s t;
  once_owner i j ti tj : threads s !! i = Some ti → threads s !! j = Some tj →
    owns ti → owns tj → i = j;
  once_flag : match flag s with
    | 0 => cell s = false ∧ writes s = 0
    | 1 => ∃ i t, threads s !! i = Some t ∧ owns t
    | 2 => cell s = true ∧ writes s = 1 ∧ published s = true
    | _ => False
    end;
}.

(** A step that only moves one thread, to a place where it does not initialise. *)
Lemma once_move s i t t' :
  once s → threads s !! i = Some t → thread_ok s t' → ¬ owns t' → ¬ owns t → once (set_thread s i t').
Proof.
  intros Hs Hi Ht' Hn' Hn. split; cbn.
  - intros j tj [[_ <-]|[_ Hj]]%lookup_insert_Some; [done|]. by apply (once_thread s Hs j).
  - intros j k tj tk [[_ <-]|[_ Hj]]%lookup_insert_Some [[_ <-]|[_ Hk]]%lookup_insert_Some Hoj Hok;
      try done. by apply (once_owner s Hs j k tj tk).
  - pose proof (once_flag s Hs) as Hf. destruct (flag s) as [|[|]]; [done| |done].
    destruct Hf as (j & tj & Hj & Ho). exists j, tj. split; [|done].
    rewrite lookup_insert_ne; [done|]. intros <-. rewrite Hi in Hj. by injection Hj as <-.
Qed.

Lemma once_flag_le s : once s → flag s ≤ 2.
Proof. intros Hs. pose proof (once_flag s Hs). destruct (flag s) as [|[|[|]]]; [lia..|done]. Qed.

(** Reading 2 is enough to use the map. *)
Lemma use_ok s t : once s → may_load s t 2 → thread_ok s (MkThread AtUse 2 (acquired s t 2)).
Proof.
  intros Hs [_ H2]. pose proof (once_flag_le s Hs). assert (flag s = 2) as Hf by lia.
  pose proof (once_flag s Hs) as Hc. rewrite Hf in Hc.
  split; [cbn; lia|]. split; [done|]. cbn. unfold acquired. destruct Hc as (_ & _ & ->). by rewrite bool_decide_eq_true_2, orb_true_r.
Qed.

(** The others are not where the owner is. *)
Lemma other_not_owner s i j ti tj :
  once s → threads s !! i = Some ti → owns ti → j ≠ i → threads s !! j = Some tj → ¬ owns tj.
Proof. intros Hs Hi Ho Hne Hj Hoj. apply Hne. by apply (once_owner s Hs j i tj ti). Qed.

Lemma owner_flag s i t : once s → threads s !! i = Some t → owns t → flag s = 1.
Proof.
  intros Hs Hi Ho. destruct (once_thread s Hs i t Hi) as [_ Ht].
  destruct Ho as [Ho|Ho]; rewrite Ho in Ht; by destruct Ht as (? & _).
Qed.

(** A thread that is not at the map keeps its place when the flag grows or the map is
    written. *)
Lemma thread_ok_grow s s' t :
  thread_ok s t → ¬ owns t → flag s ≤ flag s' → flag s < 2 → thread_ok s' t.
Proof.
  intros [Hseen Ht] Hn Hle Hlt. unfold thread_ok, owns in *. split; [lia|].
  destruct (at_pc t); naive_solver lia.
Qed.

Lemma step_once s s' : once s → step s s' → once s'.
Proof.
  intros Hs Hstep.
  assert (∀ i t p, threads s !! i = Some t → at_pc t = p → p ≠ AtWrite → p ≠ AtStore → ¬ owns t) as Hno
    by (intros i t p _ <- ? ? [?|?]; done).
  destruct Hstep as [i t Hi Hp Hl|i t n Hi Hp Hl Hne|i t Hi Hp Hf|i t n Hi Hp Hf Hl Hne|i t n Hi Hp Hne
    |i t Hi Hp|i t Hi Hp|i t n Hi Hp Hl Hne|i t Hi Hp Hl].
  - apply (once_move s i t); [done..|by apply use_ok|by intros [?|?]|by eapply Hno].
  - apply (once_move s i t); [done..| |by intros [?|?]|by eapply Hno].
    destruct Hl. split; [done|]. by split.
  - assert (∀ j tj, threads s !! j = Some tj → ¬ owns tj) as Hnobody
      by (intros j tj Hj Ho; pose proof (owner_flag s j tj Hs Hj Ho); congruence).
    pose proof (once_flag s Hs) as Hc. rewrite Hf in Hc. destruct Hc as [Hc Hw]. split; cbn.
    + intros j tj [[_ <-]|[_ Hj]]%lookup_insert_Some; [by split; [cbn; lia|]|].
      apply (thread_ok_grow s); cbn; [by apply (once_thread s Hs j)|by eapply Hnobody|lia|lia].
    + intros j k tj tk [[<- _]|[_ Hj]]%lookup_insert_Some [[<- _]|[_ Hk]]%lookup_insert_Some Hoj Hok;
        [done|by destruct (Hnobody k tk)|by destruct (Hnobody j tj)..].
    + eexists i, _. rewrite lookup_insert_eq. split; [done|by left].
  - apply (once_move s i t); [done..| |by intros [?|?]|by eapply Hno]. destruct Hl. by split.
  - apply (once_move s i t); [done..| |by intros [?|?]|by eapply Hno].
    destruct (once_thread s Hs i t Hi) as [Hseen Ht]. rewrite Hp in Ht. destruct Ht as [-> _].
    split; [done|]. cbn in *. lia.
  - assert (owns t) as Ho by (by left). pose proof (owner_flag s i t Hs Hi Ho) as Hf.
    destruct (once_thread s Hs i t Hi) as [Hseen Ht]. rewrite Hp in Ht. destruct Ht as (_ & Hc & Hw).
    split; cbn.
    + intros j tj [[_ <-]|[Hne Hj]]%lookup_insert_Some; [by split; cbn; rewrite ?Hw|].
      apply (thread_ok_grow s); cbn; [by apply (once_thread s Hs j)| |lia|lia].
      by apply (other_not_owner s i j t tj).
    + intros j k tj tk [[<- _]|[Hj1 Hj]]%lookup_insert_Some [[<- _]|[Hk1 Hk]]%lookup_insert_Some Hoj Hok;
        [done|by destruct (other_not_owner s i k t tk)|by destruct (other_not_owner s i j t tj)|].
      by apply (once_owner s Hs j k tj tk).
    + rewrite Hf. eexists i, _. rewrite lookup_insert_eq. split; [done|by right].
  - assert (owns t) as Ho by (by right). pose proof (owner_flag s i t Hs Hi Ho) as Hf.
    destruct (once_thread s Hs i t Hi) as [Hseen Ht]. rewrite Hp in Ht. destruct Ht as (_ & Hc & Hw & Hv).
    assert (∀ j tj, j ≠ i → threads s !! j = Some tj → ¬ owns tj) as Hrest
      by (intros; by apply (other_not_owner s i j t tj)).
    split; cbn.
    + intros j tj [[_ <-]|[Hne Hj]]%lookup_insert_Some; [by split|].
      apply (thread_ok_grow s); cbn; [by apply (once_thread s Hs j)|by eapply Hrest|lia|lia].
    + intros j k tj tk [[_ <-]|[Hj1 Hj]]%lookup_insert_Some [[_ <-]|[Hk1 Hk]]%lookup_insert_Some Hoj Hok;
        [by destruct Hoj|by destruct Hoj|by destruct Hok|by destruct (Hrest j tj)].
    + done.
  - apply (once_move s i t); [done..| |by intros [?|?]|by eapply Hno].
    destruct Hl as [_ Hl]. destruct (once_thread s Hs i t Hi) as [_ Ht]. rewrite Hp in Ht. by split.
  - apply (once_move s i t); [done..|by apply use_ok|by intros [?|?]|by eapply Hno].
Qed.

Lemma start_once n : once (start n).
Proof.
  split; cbn.
  - intros i t [_ <-]%lookup_gset_to_gmap_Some. by split.
  - intros i j ti tj [_ <-]%lookup_gset_to_gmap_Some _ [?|?]; done.
  - done.
Qed.

Lemma reachable_once n s : rtc step (start n) s → once s.
Proof.
  intros Hr. pose proof (start_once n) as Hs. revert Hs. induction Hr; [done|].
  intros Hs. by eapply IHHr, step_once.
Qed.

(** C18: the empty map is initialised once, without a data race.  Whatever the
    interleaving of any number of threads and however stale their loads of the flag, the
    map is written at most once; a thread that was given the reference finds it written,
    with the write before its own reads; and while one thread writes, no other writes or
    uses the map. *)
Theorem empty_map_once n s :
  rtc step (start n) s →
  writes s ≤ 1 ∧
  (∀ i t, threads s !! i = Some t → at_pc t = AtUse → cell s = true ∧ writes s = 1 ∧ view t = true) ∧
  (∀ i j ti tj, threads s !! i = Some ti → threads s !! j = Some tj → at_pc ti = AtWrite →
     owns tj ∨ at_pc tj = AtUse → i = j).
Proof.
  intros Hs%reachable_once. pose proof (once_flag s Hs) as Hf. split_and!.
  - destruct (flag s) as [|[|[|]]]; [lia| |lia|done]. destruct Hf as (i & t & Hi & Ho).
    destruct (once_thread s Hs i t Hi) as [_ Ht]. destruct Ho as [Ho|Ho]; rewrite Ho in Ht; lia.
  - intros i t Hi Hp. destruct (once_thread s Hs i t Hi) as [_ Ht]. rewrite Hp in Ht.
    destruct Ht as [Hfl Hv]. rewrite Hfl in Hf. by destruct Hf as (? & ? & _).
  - intros i j ti tj Hi Hj Hp [Ho|Hu]; [apply (once_owner s Hs i j ti tj); [done..|by left|done]|].
    destruct (once_thread s Hs j tj Hj) as [_ Ht]. rewrite Hu in Ht. destruct Ht as [Hfl _].
    pose proof (owner_flag s i ti Hs Hi ltac:(by left)). congruence.
Qed.

(** ** Nobody waits for ever *)

(** The same threads, and those that use the map still do. *)
Definition served (s : state) (i : nat) : Prop :=
  ∀ t, threads s !! i = Some t → at_pc t = AtUse.

Definition later (s s' : state) : Prop :=
  rtc step s s' ∧ ∀ i, served s i → served s' i.

#[export] Instance later_preorder : PreOrder later.
Proof.
  split; [intros s; by split|]. intros s1 s2 s3 [R1 H1] [R2 H2].
  split; [by etrans|auto].
Qed.

(** A step of a thread that does not use the map yet. *)
Lemma later_step s s' i t t' :
  step s s' → threads s !! i = Some t → at_pc t ≠ AtUse → threads s' = <[i := t']> (threads s) →
  later s s'.
Proof.
  intros Hs Hi Hp Ht. split; [by apply rtc_once|]. intros j Hj tj. rewrite Ht.
  intros [[<- <-]|[_ Htj]]%lookup_insert_Some; [by destruct Hp; apply Hj|by apply Hj].
Qed.

Lemma once_later s s' : once s → later s s' → once s'.
Proof. intros Hs [Hr _]. revert Hs. induction Hr; [done|]. intros Hs. by eapply IHHr, step_once. Qed.

(** The writer and the store. *)
Lemma store_finishes s i t :
  threads s !! i = Some t → at_pc t = AtStore → ∃ s', later s s' ∧ flag s' = 2.
Proof.
  intros Hi Hp. exists (MkState 2 (cell s) (writes s) (view t) (<[i := MkThread AtUse 2 (view t)]> (threads s))).
  split; [|done]. by eapply later_step; [apply (store_ready s i t)|exact Hi|rewrite Hp|].
Qed.

Lemma writer_finishes s i t :
  threads s !! i = Some t → owns t → ∃ s', later s s' ∧ flag s' = 2.
Proof.
  intros Hi [Hp|Hp]; [|by apply (store_finishes s i t)].
  set (s1 := MkState (flag s) true (S (writes s)) (published s)
    (<[i := MkThread AtStore (seen t) true]> (threads s))).
  destruct (store_finishes s1 i (MkThread AtStore (seen t) true)) as (s' & Hl & Hf);
    [apply lookup_insert_eq|done|].
  exists s'. split; [|done]. transitivity s1; [|done].
  by eapply later_step; [by apply (write_map s i t)|exact Hi|rewrite Hp|].
Qed.

Lemma init_finishes s i t :
  threads s !! i = Some t → at_pc t = AtInit 0 → flag s = 0 → ∃ s', later s s' ∧ flag s' = 2.
Proof.
  intros Hi Hp Hfl.
  set (s1 := MkState 1 (cell s) (writes s) (published s) (<[i := MkThread AtWrite 1 (view t)]> (threads s))).
  destruct (writer_finishes s1 i (MkThread AtWrite 1 (view t))) as (s' & Hl & Hf);
    [apply lookup_insert_eq|by left|].
  exists s'. split; [|done]. transitivity s1; [|done].
  by eapply later_step; [by apply (init_won s i t)|exact Hi|rewrite Hp|].
Qed.

Lemma becomes_ready s i t :
  once s → threads s !! i = Some t → ∃ s', later s s' ∧ flag s' = 2.
Proof.
  intros Hs Hi. pose proof (once_flag s Hs) as Hf. destruct (flag s) as [|[|[|]]] eqn:Hfl; [| | |done].
  - destruct (once_thread s Hs i t Hi) as [Hseen Ht]. rewrite Hfl in Hseen, Ht.
    destruct (at_pc t) as [|n| | | |] eqn:Hp; try (by destruct Ht); try by destruct Ht as (? & _).
    + set (s1 := set_thread s i (MkThread (AtInit 0) 0 (acquired s t 0))).
      destruct (init_finishes s1 i (MkThread (AtInit 0) 0 (acquired s t 0))) as (s' & Hl & Hf');
        [apply lookup_insert_eq|done|done|].
      exists s'. split; [|done]. transitivity s1; [|done].
      eapply later_step; [apply (get_not_ready s i t 0)|exact Hi|by rewrite Hp|]; try done.
      unfold may_load. lia.
    + destruct Ht as [-> _]. apply (init_finishes s i t); [done| |done]. rewrite Hp. f_equal. lia.
  - destruct Hf as (j & tj & Hj & Ho). by apply (writer_finishes s j tj).
  - exists s. by split.
Qed.

(** Once the flag is 2 a thread needs at most two steps of its own. *)
Lemma served_here s i t : at_pc t = AtUse → served (set_thread s i t) i.
Proof. intros Hp t'. cbn. rewrite lookup_insert_eq. by intros [= <-]. Qed.

Lemma spin_served s i t :
  threads s !! i = Some t → at_pc t = AtSpin → flag s = 2 → seen t ≤ 2 →
  ∃ s', later s s' ∧ flag s' = 2 ∧ served s' i.
Proof.
  intros Hi Hp Hfl Hseen. exists (set_thread s i (MkThread AtUse 2 (acquired s t 2))).
  split_and!; [|done|by apply served_here].
  eapply later_step; [apply (spin_ready s i t)|exact Hi|by rewrite Hp|]; try done. unfold may_load. lia.
Qed.

Lemma one_served s i : once s → flag s = 2 → ∃ s', later s s' ∧ flag s' = 2 ∧ served s' i.
Proof.
  intros Hs Hfl. destruct (threads s !! i) as [t|] eqn:Hi;
    [|exists s; split_and!; [done..|intros t Ht; congruence]].
  destruct (once_thread s Hs i t Hi) as [Hseen Ht]. rewrite Hfl in Hseen, Ht.
  assert (∀ s1 t1, step s s1 → threads s1 = <[i := t1]> (threads s) → at_pc t ≠ AtUse →
    at_pc t1 = AtSpin → flag s1 = 2 → seen t1 ≤ 2 → ∃ s', later s s' ∧ flag s' = 2 ∧ served s' i) as Hvia.
  { intros s1 t1 Hstep Hth Hp Hp1 Hf1 Hseen1.
    destruct (spin_served s1 i t1) as (s' & Hl & ? & ?); [rewrite Hth; apply lookup_insert_eq|done..|].
    exists s'. split_and!; [|done..]. transitivity s1; [|done]. by eapply later_step. }
  destruct (at_pc t) as [|n| | | |] eqn:Hp; [| |by destruct Ht as (? & _)..| |].
  - exists (set_thread s i (MkThread AtUse 2 (acquired s t 2))). split_and!; [|done|by apply served_here].
    eapply later_step; [apply (get_ready s i t)|exact Hi|by rewrite Hp|]; try done. unfold may_load. lia.
  - destruct (decide (n = 0)) as [->|Hn].
    + apply (Hvia (set_thread s i (MkThread AtSpin 2 (view t))) (MkThread AtSpin 2 (view t))); try done.
      apply (init_lost s i t 2); [done..|lia|unfold may_load; lia|done].
    + apply (Hvia (set_thread s i (MkThread AtSpin (seen t) (view t))) (MkThread AtSpin (seen t) (view t)));
        try done. by apply (init_begun s i t n).
  - by apply (spin_served s i t).
  - exists s. split_and!; [done..|]. intros t' Ht'. congruence.
Qed.

(** nobody waits for ever for the empty map.  From every state that threads calling
    [get_empty_map] can reach, running them on leads to a state in which each has its
    reference: there is no deadlock, and the spin loop is left once the writer has
    gone on. *)
Theorem empty_map_served n s :
  rtc step (start n) s → ∃ s', rtc step s s' ∧ ∀ i t, threads s' !! i = Some t → at_pc t = AtUse.
Proof.
  intros Hs%reachable_once.
  assert (∃ s1, later s s1 ∧ (flag s1 = 2 ∨ threads s1 = ∅)) as (s1 & H1 & Hf).
  { destruct (decide (threads s = ∅)) as [He|[i [t Hi]]%map_choose]; [exists s; by split; [|right]|].
    destruct (becomes_ready s i t Hs Hi) as (s1 & Hl & Hf). exists s1. by split; [|left]. }
  pose proof (once_later s s1 Hs H1) as Hs1.
  destruct Hf as [Hf|He]; [|exists s1; split; [apply H1|intros i t; by rewrite He]].
  assert (∀ l : list nat, ∃ s', later s1 s' ∧ flag s' = 2 ∧ ∀ i, i ∈ l → served s' i) as Hall.
  { induction l as [|i l (s2 & Hl2 & Hf2 & Hserved)]; [exists s1; split_and!; [done..|]; by intros i Hi%not_elem_of_nil|].
    destruct (one_served s2 i (once_later s1 s2 Hs1 Hl2) Hf2) as (s3 & Hl3 & Hf3 & Hi).
    exists s3. split_and!; [by transitivity s2|done|].
    intros j [->|Hj]%elem_of_cons; [done|]. by apply Hl3, Hserved. }
  destruct (Hall (elements (dom (threads s1)))) as (s' & Hl & _ & Hserved).
  exists s'. split; [by transitivity s1; [apply H1|apply Hl]|]. intros i.
  destruct (threads s1 !! i) as [t1|] eqn:Hi.
  - apply Hserved, elem_of_elements, elem_of_dom. by exists t1.
  - apply Hl. intros t Ht. congruence.
Qed.

(** ** Two threads: one initialises, the other has read an old flag *)

Lemma first_thread_done : ∃ s, rtc step (start 2) s ∧ threads s !! 0 = Some (MkThread AtUse 2 true).
Proof.
  eexists. split.
  - eapply rtc_l; [apply (get_not_ready (start 2) 0 (MkThread AtLoad 0 false) 0); [reflexivity|done|done|done]|].
    eapply rtc_l; [eapply (init_won _ 0); reflexivity|].
    eapply rtc_l; [eapply (write_map _ 0); reflexivity|].
    eapply rtc_l; [eapply (store_ready _ 0); reflexivity|]. apply rtc_refl.
  - reflexivity.
Qed.

Lemma empty_map_once_witness :
  ∃ s, rtc step (start 2) s ∧ cell s = true ∧ writes s = 1.
Proof.
  destruct first_thread_done as (s & Hr & H0). exists s. split; [exact Hr|].
  destruct (empty_map_once 2 s Hr) as (_ & Huse & _).
  destruct (Huse 0 _ H0 eq_refl) as (Hc & Hw & _). split; [exact Hc|exact Hw].
Defined.

Lemma empty_map_served_witness :
  ∃ s s', rtc step (start 2) s ∧ rtc step s s' ∧ ∀ i t, threads s' !! i = Some t → at_pc t = AtUse.
Proof.
  destruct first_thread_done as (s & Hr & _).
  destruct (empty_map_served 2 s Hr) as (s' & Hr' & Hall).
  exists s, s'. split; [exact Hr|]. split; [exact Hr'|exact Hall].
Defined.
