(* ===== verification/Order.v ===== *)
(** * Comparison functions: lexicographic composition and binary search

    [Ord::cmp] implementations are built from [if let Some(ord) = step { return ord }]
    steps; this file composes their laws, relative to a domain on which they hold,
    and models [slice::binary_search] with its specification. *)

From S2P Require Import Prelude.
From Stdlib Require Import Lia.

(** A deciding step: [None] lets the comparison go on. *)
Definition lex {A} (s : A → A → option comparison) (c : A → A → comparison) (x y : A)
    : comparison :=
  match s x y with Some o => o | None => c x y end.

Definition step_of {A} (c : A → A → comparison) (x y : A) : option comparison :=
  match c x y with Eq => None | o => Some o end.

Section laws.
Context {A : Type} (D : A → Prop).
Implicit Types (s : A → A → option comparison) (c : A → A → comparison).

(** A strict weak order on [D], as a step and as a comparison. *)
Class StepOrder s : Prop := {
  step_flip x y : s y x = CompOpp <$> s x y;
  step_not_eq x y : s x y ≠ Some Eq;
  step_trans x y z : D x → D y → D z →
    s x y = Some Lt → s y z = Some Lt → s x z = Some Lt;
  step_compat x y z : D x → D y → D z → s x y = None → s x z = s y z;
}.

Class WeakOrder c : Prop := {
  weak_flip x y : c y x = CompOpp (c x y);
  weak_trans x y z : D x → D y → D z → c x y = Lt → c y z = Lt → c x z = Lt;
  weak_compat x y z : D x → D y → D z → c x y = Eq → c x z = c y z;
}.

Lemma step_compat_r s x y z :
  StepOrder s → D x → D y → D z → s y z = None → s x z = s x y.
Proof.
  intros Hs Hx Hy Hz Hyz. rewrite (step_flip z x), (step_flip y x).
  f_equal. symmetry. by apply step_compat.
Qed.

#[export] Instance lex_order s c : StepOrder s → WeakOrder c → WeakOrder (lex s c).
Proof.
  intros Hs Hc. split; unfold lex.
  - intros x y. rewrite (step_flip x y). destruct (s x y) as [o|]; cbn; [done|].
    apply weak_flip.
  - intros x y z Hx Hy Hz Hxy Hyz.
    destruct (s x y) as [o|] eqn:Sxy, (s y z) as [o'|] eqn:Syz; subst.
    + by rewrite (step_trans x y z).
    + by rewrite (step_compat_r s x y z), Sxy.
    + by rewrite (step_compat x y z), Syz.
    + rewrite (step_compat x y z), Syz by done. by apply (weak_trans x y z).
  - intros x y z Hx Hy Hz Hxy. destruct (s x y) as [o|] eqn:Sxy.
    + subst. by destruct (step_not_eq x y).
    + rewrite (step_compat x y z) by done. destruct (s y z); [done|]. by apply weak_compat.
Qed.

#[export] Instance step_of_order c : WeakOrder c → StepOrder (step_of c).
Proof.
  intros Hc. split; unfold step_of.
  - intros x y. rewrite (weak_flip x y). by destruct (c x y).
  - intros x y. by destruct (c x y).
  - intros x y z Hx Hy Hz Hxy Hyz.
    rewrite (weak_trans x y z); [done..| |].
    + by destruct (c x y).
    + by destruct (c y z).
  - intros x y z Hx Hy Hz Hxy. rewrite (weak_compat x y z); [done..|].
    by destruct (c x y).
Qed.
End laws.

(** A total order, compared through a projection. *)
#[export] Instance weak_order_on {A B} (D : A → Prop) (f : A → B) (c : B → B → comparison) :
  CmpOrder c → WeakOrder D (λ x y, c (f x) (f y)).
Proof.
  intros Hc. split.
  - intros x y. apply cmp_flip.
  - intros x y z _ _ _. apply cmp_lt_trans.
  - intros x y z _ _ _ Heq%cmp_eq_iff. by rewrite Heq.
Qed.

Lemma then_with_lex {A} (c d : A → A → comparison) x y :
  then_with (c x y) (d x y) = lex (step_of c) d x y.
Proof. unfold lex, step_of. by destruct (c x y). Qed.

Lemma weak_order_ext {A} (D : A → Prop) (c d : A → A → comparison) :
  (∀ x y, c x y = d x y) → WeakOrder D c → WeakOrder D d.
Proof.
  intros Hcd Hc. split; intros x y; rewrite <- ?Hcd; [apply (weak_flip D)| |];
    intros z; rewrite <- !Hcd; [apply (weak_trans D)|apply (weak_compat D)].
Qed.

#[export] Instance then_with_order {A} (D : A → Prop) (c d : A → A → comparison) :
  WeakOrder D c → WeakOrder D d → WeakOrder D (λ x y, then_with (c x y) (d x y)).
Proof.
  intros Hc Hd. apply (weak_order_ext _ (lex (step_of c) d)); [|apply _].
  intros x y. by rewrite then_with_lex.
Qed.

Lemma then_with_eq c d : then_with c d = Eq ↔ c = Eq ∧ d = Eq.
Proof. destruct c; cbn; naive_solver. Qed.

(** ** [slice::binary_search_by]

    The loop of the Standard Library; [Ok] is the index of an equal element, [Err]
    the insertion point.  [fuel] bounds the iterations. *)

Section binary_search.
Context {A : Type}.

Fixpoint bs_loop (f : A → comparison) (l : list A) (fuel left right : nat)
    : outcome nat nat :=
  if decide (left < right) then
    let mid := left + (right - left) / 2 in
    match fuel, l !! mid with
    | S fuel', Some x =>
        match f x with
        | Lt => bs_loop f l fuel' (S mid) right
        | Gt => bs_loop f l fuel' left mid
        | Eq => Ok mid
        end
    | _, _ => Panic
    end
  else Err left.

Definition binary_search_by (f : A → comparison) (l : list A) : outcome nat nat :=
  bs_loop f l (length l) 0 (length l).

(** [f] finds the elements before the target [Lt] and those after it [Gt]. *)
Definition monotone (f : A → comparison) (l : list A) : Prop :=
  ∀ i j x y, i < j → l !! i = Some x → l !! j = Some y →
    (f y = Lt → f x = Lt) ∧ (f x = Gt → f y = Gt).

Definition bs_post (f : A → comparison) (l : list A) (left right : nat)
    (r : outcome nat nat) : Prop :=
  match r with
  | Ok i => ∃ x, l !! i = Some x ∧ f x = Eq
  | Err i => left ≤ i ≤ right ∧ (monotone f l → ∀ j x, l !! j = Some x →
      (left ≤ j < i → f x = Lt) ∧ (i ≤ j < right → f x = Gt))
  | Panic => False
  end.

Lemma mid_bounds left right :
  left < right → left ≤ left + (right - left) / 2 < right.
Proof.
  intros H. pose proof (Nat.div_lt (right - left) 2 ltac:(lia) ltac:(lia)). lia.
Qed.

Lemma bs_loop_post f l fuel left right :
  right ≤ length l → left ≤ right → right - left ≤ fuel →
  bs_post f l left right (bs_loop f l fuel left right).
Proof.
  revert left right. induction fuel as [|fuel IH]; intros left right Hr Hl Hf;
    cbn [bs_loop]; (case_decide as Hlt; [|split; [lia|intros _ j x _; lia]]); [lia|].
  set (mid := left + _). assert (left ≤ mid < right) as Hm by by apply mid_bounds.
  destruct (l !! mid) as [x|] eqn:Hx; [|apply lookup_ge_None in Hx; lia].
  destruct (f x) eqn:Hfx; [by exists x| |].
  - specialize (IH (S mid) right ltac:(lia) ltac:(lia) ltac:(lia)).
    destruct (bs_loop _ _ _ _ _) as [i|i|]; [done| |done].
    destruct IH as [Hb IH]. split; [lia|]. intros Hmono j y Hy.
    split; [|intros; by apply (IH Hmono j y Hy); lia].
    intros Hj. destruct (decide (j < mid)) as [Hjm|].
    + by apply (Hmono j mid y x).
    + destruct (decide (j = mid)) as [->|]; [congruence|].
      by apply (IH Hmono j y Hy); lia.
  - specialize (IH left mid ltac:(lia) ltac:(lia) ltac:(lia)).
    destruct (bs_loop _ _ _ _ _) as [i|i|]; [done| |done].
    destruct IH as [Hb IH]. split; [lia|]. intros Hmono j y Hy.
    split; [intros; by apply (IH Hmono j y Hy); lia|].
    intros Hj. destruct (decide (mid < j)) as [Hjm|].
    + by apply (Hmono mid j x y).
    + destruct (decide (j = mid)) as [->|]; [congruence|].
      by apply (IH Hmono j y Hy); lia.
Qed.

(** The search terminates without leaving the slice, finds only equal elements,
    and on a monotone slice [Err] splits it at the target. *)
Lemma binary_search_post f l : bs_post f l 0 (length l) (binary_search_by f l).
Proof. apply bs_loop_post; lia. Qed.
End binary_search.

(** ** Sorted lists under a weak order *)

Section sorted.
Context {A : Type} (D : A → Prop) (c : A → A → comparison) `{!WeakOrder D c}.

(** Strictly increasing, so without duplicates. *)
Definition sorted (l : list A) : Prop :=
  Forall D l ∧ ∀ i j x y, i < j → l !! i = Some x → l !! j = Some y → c x y = Lt.

Lemma weak_gt x y : c x y = Gt ↔ c y x = Lt.
Proof. rewrite (weak_flip D y x). destruct (c y x); naive_solver. Qed.

Lemma weak_refl x : c x x = Eq.
Proof. pose proof (weak_flip D x x). destruct (c x x); done. Qed.

Lemma sorted_monotone l t : D t → sorted l → monotone (λ x, c x t) l.
Proof.
  intros Ht [HD Hs] i j x y Hij Hx Hy.
  assert (D x ∧ D y) as [Dx Dy] by (rewrite Forall_lookup in HD; eauto).
  pose proof (Hs _ _ _ _ Hij Hx Hy) as Hlt. split.
  - intros Hyt. by apply (weak_trans D x y t).
  - rewrite !weak_gt. intros Htx. by apply (weak_trans D t x y).
Qed.

Lemma sorted_search l t :
  D t → sorted l →
  match binary_search_by (λ x, c x t) l with
  | Ok i => ∃ x, l !! i = Some x ∧ c x t = Eq
  | Err i => i ≤ length l ∧ ∀ j x, l !! j = Some x →
      (j < i → c x t = Lt) ∧ (i ≤ j → c x t = Gt)
  | Panic => False
  end.
Proof.
  intros Ht Hs. pose proof (binary_search_post (λ x, c x t) l) as Hp.
  destruct (binary_search_by _ _) as [i|i|]; [done| |done].
  destruct Hp as [Hb Hp]. split; [lia|]. intros j x Hx.
  destruct (Hp (sorted_monotone l t Ht Hs) j x Hx) as [H1 H2].
  apply lookup_lt_Some in Hx as Hj. split; intros; [apply H1|apply H2]; lia.
Qed.

(** [Vec::insert] and [Vec::remove]. *)
Definition insert_at (i : nat) (x : A) (l : list A) : list A := take i l ++ x :: drop i l.

Definition remove_at (i : nat) (l : list A) : list A := take i l ++ drop (S i) l.

Lemma insert_at_lookup i x l j y :
  i ≤ length l → insert_at i x l !! j = Some y →
  (j < i ∧ l !! j = Some y) ∨ (j = i ∧ y = x) ∨ (i < j ∧ l !! (j - 1) = Some y).
Proof.
  intros Hi. unfold insert_at. assert (length (take i l) = i) as Hl by (rewrite length_take; lia).
  destruct (decide (j < i)).
  - rewrite lookup_app_l by lia. rewrite lookup_take_lt by lia. auto.
  - rewrite lookup_app_r, Hl by lia. destruct (j - i) as [|k] eqn:Hk.
    + intros [= ->]. right. left. split; [lia|done].
    + change ((x :: drop i l) !! S k) with (drop i l !! k). rewrite lookup_drop. intros Hy. right. right. split; [lia|].
      by replace (j - 1) with (i + k) by lia.
Qed.

Lemma insert_at_sorted i t l :
  D t → sorted l → i ≤ length l →
  (∀ j x, l !! j = Some x → (j < i → c x t = Lt) ∧ (i ≤ j → c x t = Gt)) →
  sorted (insert_at i t l).
Proof.
  intros Ht [HD Hs] Hi Hpos. split.
  - unfold insert_at. apply Forall_app. split; [by apply Forall_take|].
    constructor; [done|by apply Forall_drop].
  - intros j k x y Hjk Hx Hy. apply insert_at_lookup in Hx, Hy; [|done..].
    destruct Hx as [[? Hx]|[[-> ->]|[? Hx]]], Hy as [[? Hy]|[[-> ->]|[? Hy]]]; try lia.
    + by apply (Hs j k).
    + by apply (Hpos j x Hx).
    + apply (Hs j (k - 1)); [lia|done..].
    + apply weak_gt. by apply (Hpos (k - 1) y Hy); lia.
    + apply (Hs (j - 1) (k - 1)); [lia|done..].
Qed.

Lemma remove_at_lookup i l j :
  remove_at i l !! j = if decide (j < i) then l !! j else l !! S j.
Proof.
  unfold remove_at. destruct (decide (i ≤ length l)) as [Hi|Hi].
  - assert (length (take i l) = i) as Hl by (rewrite length_take; lia). case_decide.
    + by rewrite lookup_app_l, lookup_take_lt by lia.
    + rewrite lookup_app_r, Hl, lookup_drop by lia. f_equal. lia.
  - rewrite take_ge, drop_ge, app_nil_r by lia. case_decide; [done|].
    rewrite !lookup_ge_None_2 by lia. done.
Qed.

Lemma remove_at_sorted i l : sorted l → sorted (remove_at i l).
Proof.
  intros [HD Hs]. split.
  - unfold remove_at. apply Forall_app. split; [by apply Forall_take|by apply Forall_drop].
  - intros j k x y Hjk. rewrite !remove_at_lookup. repeat case_decide; intros Hx Hy.
    + by apply (Hs j k).
    + apply (Hs j (S k)); [lia|done..].
    + lia.
    + apply (Hs (S j) (S k)); [lia|done..].
Qed.

(** A sorted list finds what it holds. *)
Lemma sorted_search_found l t x :
  D t → sorted l → x ∈ l → c x t = Eq →
  ∃ i, binary_search_by (λ x, c x t) l = Ok i ∧ l !! i = Some x.
Proof.
  intros Ht Hs [j Hj]%list_elem_of_lookup Heq.
  pose proof (sorted_search l t Ht Hs) as Hp.
  destruct (binary_search_by _ _) as [i|i|]; [| |done].
  - destruct Hp as (y & Hy & Hyt). exists i. split; [done|].
    destruct Hs as [HD Hs]. rewrite Forall_lookup in HD.
    assert (c x y = Eq) as Hxy.
    { rewrite (weak_compat D x t y); eauto.
      rewrite (weak_flip D y t), Hyt. done. }
    destruct (lt_eq_lt_dec i j) as [[Hij| ->]|Hij]; [|congruence|].
    + assert (c y x = Lt) as Hlt by eauto. rewrite (weak_flip D x y), Hxy in Hlt. done.
    + assert (c x y = Lt) by eauto. congruence.
  - exfalso. destruct Hp as [_ Hp]. destruct (Hp j x Hj) as [H1 H2].
    destruct (decide (j < i)); [rewrite H1 in Heq|rewrite H2 in Heq]; (done || lia).
Qed.
End sorted.
