(* ===== verification/MatchRule.v ===== *)
(** * routing.rs: match rules

    [MatchRule], its builder methods, [matches], [match_string], the specificity
    order of its [Ord] implementation, [queue_sig], and the edits of the connection's
    rule list made by [insert_sig_match] and [remove_sig_match] (lib.rs). *)

From S2P Require Import Prelude Order Utils Body StdPath ObjPath Message Hierarchy.
From Stdlib Require Import Lia.

Record MatchRule := MkRule {
  r_sender : option bytes;
  r_path : option bytes;
  r_path_namespace : option bytes;
  r_interface : option bytes;
  r_member : option bytes;
  r_queue : option queue;
}.

#[export] Instance MatchRule_eq_dec : EqDecision MatchRule.
Proof. solve_decision. Defined.

Definition EMPTY_MATCH : MatchRule := MkRule None None None None None None.

Definition rule_new : MatchRule := EMPTY_MATCH.

(** [Clone]: the copy has no queue. *)
Definition rule_clone (r : MatchRule) : MatchRule :=
  MkRule (r_sender r) (r_path r) (r_path_namespace r) (r_interface r) (r_member r) None.

Definition set_sender (v : bytes) (r : MatchRule) : MatchRule :=
  MkRule (Some v) (r_path r) (r_path_namespace r) (r_interface r) (r_member r) (r_queue r).

Definition set_path (v : bytes) (r : MatchRule) : MatchRule :=
  MkRule (r_sender r) (Some v) None (r_interface r) (r_member r) (r_queue r).

Definition set_path_namespace (v : bytes) (r : MatchRule) : MatchRule :=
  MkRule (r_sender r) None (Some v) (r_interface r) (r_member r) (r_queue r).

Definition set_interface (v : bytes) (r : MatchRule) : MatchRule :=
  MkRule (r_sender r) (r_path r) (r_path_namespace r) (Some v) (r_member r) (r_queue r).

Definition set_member (v : bytes) (r : MatchRule) : MatchRule :=
  MkRule (r_sender r) (r_path r) (r_path_namespace r) (r_interface r) (Some v) (r_queue r).

(** [PartialEq]: every field but the queue. *)
Definition rule_eq (self other : MatchRule) : bool :=
  if negb (bool_decide (r_sender self = r_sender other)) then false else
  if negb (bool_decide (r_path self = r_path other)) then false else
  if negb (bool_decide (r_path self = r_path other)) then false else
  if negb (bool_decide (r_path_namespace self = r_path_namespace other)) then false else
  if negb (bool_decide (r_interface self = r_interface other)) then false else
  if negb (bool_decide (r_member self = r_member other)) then false else
  true.

Definition is_empty (self : MatchRule) : bool := rule_eq EMPTY_MATCH self.

(** One [match] of [matches]: does the rule's field let the header's pass? *)
Definition field_matches (test : bytes → bytes → bool) (rule msg : option bytes) : bool :=
  match rule, msg with
  | Some ss, Some ms => test ss ms
  | Some _, None => false
  | None, _ => true
  end.

Definition text_eqb (ss ms : bytes) : bool := bool_decide (ss = ms).

Definition matches (self : MatchRule) (msg : MarshalledMessage) : bool :=
  let d := dynheader msg in
  if negb (bool_decide (typ msg = TSignal)) then false else
  if negb (field_matches text_eqb (r_sender self) (sender d)) then false else
  if negb (field_matches text_eqb (r_path self) (object d)) then false else
  if negb (field_matches (λ ss ms, path_starts_with ms ss) (r_path_namespace self) (object d))
  then false else
  if negb (field_matches text_eqb (r_interface self) (interface d)) then false else
  if negb (field_matches text_eqb (r_member self) (member d)) then false else
  true.

(** [match_string]. *)
Definition push_field (key : string) (v : option bytes) (match_str : bytes) : bytes :=
  match v with
  | Some t => match_str ++ lit key ++ lit "='" ++ t ++ lit "',"
  | None => match_str
  end.

Definition match_string (self : MatchRule) : bytes :=
  let match_str := push_field "sender" (r_sender self) [] in
  let match_str := push_field "path" (r_path self) match_str in
  let match_str := push_field "path_namespace" (r_path_namespace self) match_str in
  let match_str := push_field "interface" (r_interface self) match_str in
  let match_str := push_field "member" (r_member self) match_str in
  match_str ++ lit "type='signal'".

(** ** [Ord]: rules by specificity, the more specific the less *)

Definition option_ord {A} (left right : option A) : option comparison :=
  match left with
  | Some _ => match right with None => Some Lt | Some _ => None end
  | None => match right with Some _ => Some Gt | None => None end
  end.

(** The loop of [path_subset] over the two component iterators. *)
Fixpoint subset_loop (l_path r_path : list Component) : option comparison :=
  match l_path, r_path with
  | l_comp :: l_path', r_comp :: r_path' =>
      if decide (l_comp = r_comp) then subset_loop l_path' r_path' else None
  | _ :: _, [] => Some Lt
  | [], _ :: _ => Some Gt
  | [], [] => None
  end.

Definition path_subset (left right : option bytes) : option comparison :=
  match option_ord left right with
  | Some ord => Some ord
  | None =>
      match left, right with
      | Some l, Some r => subset_loop (path_components l) (path_components r)
      | _, _ => None
      end
  end.

Definition rule_cmp (self other : MatchRule) : comparison :=
  match option_ord (r_sender self) (r_sender other) with Some ord => ord | None =>
  match option_ord (r_path self) (r_path other) with Some ord => ord | None =>
  match path_subset (r_path_namespace self) (r_path_namespace other) with
  | Some ord => ord | None =>
  match option_ord (r_interface self) (r_interface other) with Some ord => ord | None =>
  match option_ord (r_member self) (r_member other) with Some ord => ord | None =>
    then_with (then_with (then_with (then_with
      (option_cmp str_cmp (r_sender self) (r_sender other))
      (option_cmp str_cmp (r_path self) (r_path other)))
      (option_cmp str_cmp (r_path_namespace self) (r_path_namespace other)))
      (option_cmp str_cmp (r_interface self) (r_interface other)))
      (option_cmp str_cmp (r_member self) (r_member other))
  end end end end end.

(** ** The rule list of the connection *)

Definition find_rule (sig_matches : list MatchRule) (r : MatchRule) : outcome nat nat :=
  binary_search_by (λ x, rule_cmp x r) sig_matches.

(** [insert_sig_match] up to the call of the bus; [q] is the new queue. *)
Definition insert_rule (sig_matches : list MatchRule) (sig_match : MatchRule) (q : queue)
    : io_result (list MatchRule) :=
  if bool_decide (is_Some (r_path sig_match)) && bool_decide (is_Some (r_path_namespace sig_match))
  then Panic else
  match find_rule sig_matches sig_match with
  | Ok _ => Err InvalidInput
  | Err i =>
      let c := rule_clone sig_match in
      Ok (insert_at i (MkRule (r_sender c) (r_path c) (r_path_namespace c) (r_interface c)
                         (r_member c) (Some q)) sig_matches)
  | Panic => Panic
  end.

(** [remove_sig_match] up to the call of the bus. *)
Definition remove_rule (sig_matches : list MatchRule) (sig_match : MatchRule)
    : io_result (list MatchRule) :=
  match find_rule sig_matches sig_match with
  | Err _ => Err InvalidInput
  | Ok i => Ok (remove_at i sig_matches)
  | Panic => Panic
  end.

(** The [MessageType::Error] arm of [insert_sig_match]: take the rule out again. *)
Definition rollback_rule (sig_matches : list MatchRule) (sig_match : MatchRule)
    : io_result (list MatchRule) :=
  match find_rule sig_matches sig_match with
  | Ok idx => Ok (remove_at idx sig_matches)
  | Err _ => Ok sig_matches
  | Panic => Panic
  end.

Fixpoint queue_sig {E} (sig_matches : list MatchRule)
    (chans : gmap queue (list MarshalledMessage)) (sig : MarshalledMessage)
    : outcome E (gmap queue (list MarshalledMessage)) :=
  match sig_matches with
  | [] => Ok chans
  | sig_match :: sig_matches' =>
      if matches sig_match sig then
        q ← unwrap (r_queue sig_match);
        Ok (<[q := default [] (chans !! q) ++ [sig]]> chans)
      else queue_sig sig_matches' chans sig
  end.

(** ** Matching *)

Lemma field_matches_iff test rule msg :
  field_matches test rule msg = true ↔
  ∀ ss, rule = Some ss → ∃ ms, msg = Some ms ∧ test ss ms = true.
Proof. destruct rule, msg; cbn; naive_solver. Qed.

Lemma text_matches_iff rule msg :
  field_matches text_eqb rule msg = true ↔ ∀ ss, rule = Some ss → msg = Some ss.
Proof.
  rewrite field_matches_iff. unfold text_eqb. setoid_rewrite bool_decide_eq_true.
  naive_solver.
Qed.

Lemma namespace_matches_iff ns o :
  field_matches (λ ss ms, path_starts_with ms ss) ns o = true ↔
  ∀ s, ns = Some s → ∃ o', o = Some o' ∧ path_components s `prefix_of` path_components o'.
Proof.
  rewrite field_matches_iff. split; intros H s Hs; destruct (H s Hs) as (o' & -> & Ho);
    exists o'; (split; [done|]); by apply path_starts_with_spec.
Qed.

(** a rule matches exactly the signals whose headers agree with every field it
    sets, the object being at or below the namespace, component by component. *)
Theorem matches_iff r msg :
  matches r msg = true ↔
  typ msg = TSignal ∧
  (∀ s, r_sender r = Some s → sender (dynheader msg) = Some s) ∧
  (∀ s, r_path r = Some s → object (dynheader msg) = Some s) ∧
  (∀ s, r_path_namespace r = Some s → ∃ o, object (dynheader msg) = Some o ∧
     path_components s `prefix_of` path_components o) ∧
  (∀ s, r_interface r = Some s → interface (dynheader msg) = Some s) ∧
  (∀ s, r_member r = Some s → member (dynheader msg) = Some s).
Proof.
  rewrite <- !text_matches_iff, <- namespace_matches_iff.
  rewrite <- (bool_decide_eq_true (typ msg = TSignal)). unfold matches.
  destruct (bool_decide _), (field_matches _ (r_sender r) _), (field_matches _ (r_path r) _),
    (field_matches _ (r_path_namespace r) _), (field_matches _ (r_interface r) _),
    (field_matches _ (r_member r) _); cbn; naive_solver.
Qed.

(** ** The specificity order *)

Lemma option_ord_None {A} (l r : option A) : option_ord l r = None ↔ (is_Some l ↔ is_Some r).
Proof.
  destruct l, r; cbn; rewrite ?is_Some_alt; naive_solver.
Qed.

#[export] Instance option_ord_step {A B} (D : A → Prop) (f : A → option B) :
  StepOrder D (λ x y, option_ord (f x) (f y)).
Proof.
  split; intros x y; destruct (f x), (f y); cbn; try done; intros z; by destruct (f z).
Qed.

Lemma subset_loop_flip l r : subset_loop r l = CompOpp <$> subset_loop l r.
Proof.
  revert r. induction l as [|x l IH]; intros [|y r]; cbn; try done.
  destruct (decide (x = y)) as [->|Hne]; [by rewrite decide_True|by rewrite decide_False].
Qed.

(** [Less] is a strict subset: the right-hand path is a proper prefix. *)
Lemma subset_loop_Lt l r : subset_loop l r = Some Lt ↔ r `prefix_of` l ∧ r ≠ l.
Proof.
  revert r. induction l as [|x l IH]; intros [|y r]; cbn.
  - naive_solver.
  - split; [done|]. intros [Hp _]. by apply prefix_nil_not in Hp.
  - split; [intros _; split; [apply prefix_nil|done]|done].
  - case_decide as Hxy.
    + subst. rewrite IH. split.
      * intros [Hp Hne]. split; [by apply prefix_cons|congruence].
      * intros [Hp%prefix_cons_inv_2 Hne]. split; [done|congruence].
    + split; [done|]. intros [Hp%prefix_cons_inv_1 _]. congruence.
Qed.

Lemma subset_loop_not_eq l r : subset_loop l r ≠ Some Eq.
Proof.
  revert r. induction l as [|x l IH]; intros [|y r]; cbn; try done. by case_decide.
Qed.

Lemma path_subset_flip l r : path_subset r l = CompOpp <$> path_subset l r.
Proof. destruct l, r; cbn; try done. apply subset_loop_flip. Qed.

Lemma path_subset_trans x y z :
  path_subset x y = Some Lt → path_subset y z = Some Lt → path_subset x z = Some Lt.
Proof.
  destruct x, y, z; cbn; try done. rewrite !subset_loop_Lt. intros [H1 Hne1] [H2 Hne2].
  split; [by etrans|]. intros Heq. rewrite Heq in H2. by apply Hne1, (anti_symm prefix).
Qed.

(** Whether no set of namespaces among the rules relates two incomparable ones. *)
Definition coherent (D : MatchRule → Prop) : Prop := ∀ x y z, D x → D y → D z →
  path_subset (r_path_namespace x) (r_path_namespace y) = None →
  path_subset (r_path_namespace y) (r_path_namespace z) = None →
  path_subset (r_path_namespace x) (r_path_namespace z) = None.

Lemma path_subset_not_eq l r : path_subset l r ≠ Some Eq.
Proof. destruct l, r; cbn; try done. apply subset_loop_not_eq. Qed.

Lemma path_subset_gt l r : path_subset l r = Some Gt ↔ path_subset r l = Some Lt.
Proof. rewrite (path_subset_flip r l). destruct (path_subset r l) as [[]|]; naive_solver. Qed.

Lemma path_subset_step D :
  coherent D →
  StepOrder D (λ x y, path_subset (r_path_namespace x) (r_path_namespace y)).
Proof.
  intros Hcoh. split.
  - intros x y. apply path_subset_flip.
  - intros x y. apply path_subset_not_eq.
  - intros x y z _ _ _. apply path_subset_trans.
  - intros x y z Hx Hy Hz Hxy. pose proof (Hcoh x y z Hx Hy Hz Hxy) as H1.
    assert (path_subset (r_path_namespace y) (r_path_namespace x) = None) as Hyx
      by by rewrite path_subset_flip, Hxy.
    pose proof (Hcoh y x z Hy Hx Hz Hyx) as H2.
    destruct (path_subset (r_path_namespace x) (r_path_namespace z)) as [[]|] eqn:Hxz,
      (path_subset (r_path_namespace y) (r_path_namespace z)) as [[]|] eqn:Hyz; try done;
      try (by destruct (path_subset_not_eq _ _ Hxz));
      try (by destruct (path_subset_not_eq _ _ Hyz));
      try (by specialize (H1 eq_refl)); try (by specialize (H2 eq_refl)).
    + apply path_subset_gt in Hyz. by rewrite (path_subset_trans _ _ _ Hxz Hyz) in Hxy.
    + apply path_subset_gt in Hxz. by rewrite (path_subset_trans _ _ _ Hyz Hxz) in Hyx.
Qed.

(** [cmp] as a lexicographic composition of its steps. *)
Definition rule_tail (x y : MatchRule) : comparison :=
  then_with (then_with (then_with (then_with
    (option_cmp str_cmp (r_sender x) (r_sender y))
    (option_cmp str_cmp (r_path x) (r_path y)))
    (option_cmp str_cmp (r_path_namespace x) (r_path_namespace y)))
    (option_cmp str_cmp (r_interface x) (r_interface y)))
    (option_cmp str_cmp (r_member x) (r_member y)).

Lemma rule_cmp_lex x y : rule_cmp x y =
  lex (λ x y, option_ord (r_sender x) (r_sender y))
    (lex (λ x y, option_ord (r_path x) (r_path y))
      (lex (λ x y, path_subset (r_path_namespace x) (r_path_namespace y))
        (lex (λ x y, option_ord (r_interface x) (r_interface y))
          (lex (λ x y, option_ord (r_member x) (r_member y)) rule_tail)))) x y.
Proof. done. Qed.

#[export] Instance rule_tail_order D : WeakOrder D rule_tail.
Proof. unfold rule_tail. repeat apply then_with_order; apply weak_order_on, _. Qed.

Lemma rule_cmp_order D : coherent D → WeakOrder D rule_cmp.
Proof.
  intros HD. pose proof (path_subset_step D HD) as Hs.
  exact (_ : WeakOrder D (lex _ _)).
Qed.

Lemma rule_eq_iff x y : rule_eq x y = true ↔
  r_sender x = r_sender y ∧ r_path x = r_path y ∧ r_path_namespace x = r_path_namespace y ∧
  r_interface x = r_interface y ∧ r_member x = r_member y.
Proof. unfold rule_eq. repeat case_bool_decide; cbn; naive_solver. Qed.

Lemma rule_tail_eq x y : rule_tail x y = Eq ↔ rule_eq x y = true.
Proof.
  unfold rule_tail. rewrite !then_with_eq, !cmp_eq_iff, rule_eq_iff. naive_solver.
Qed.

Lemma rule_cmp_flip x y : rule_cmp y x = CompOpp (rule_cmp x y).
Proof.
  assert (WeakOrder (λ _, False) rule_cmp) as Hw by (apply rule_cmp_order; by intros ? ? ? []).
  by apply (weak_flip (λ _, False)).
Qed.

Lemma option_ord_diag {A} (o : option A) : option_ord o o = None.
Proof. by destruct o. Qed.

Lemma path_subset_diag o : path_subset o o = None.
Proof.
  pose proof (path_subset_flip o o) as H. pose proof (path_subset_not_eq o o).
  by destruct (path_subset o o) as [[]|].
Qed.

Lemma rule_cmp_Eq x y : rule_cmp x y = Eq ↔ rule_eq x y = true.
Proof.
  split.
  - unfold rule_cmp. change (then_with _ _) with (rule_tail x y).
    pose proof (path_subset_not_eq (r_path_namespace x) (r_path_namespace y)).
    destruct (r_sender x) eqn:?, (r_sender y) eqn:?, (r_path x) eqn:?, (r_path y) eqn:?;
      cbn [option_ord]; try done;
      (destruct (path_subset _ _) as [[]|]; [done..|]);
      destruct (r_interface x) eqn:?, (r_interface y) eqn:?, (r_member x) eqn:?,
        (r_member y) eqn:?; cbn [option_ord]; try done; by rewrite rule_tail_eq.
  - intros Heq. apply rule_tail_eq in Heq as Ht. apply rule_eq_iff in Heq as (Hs & Hp & Hn & Hi & Hm).
    unfold rule_cmp. change (then_with _ _) with (rule_tail x y).
    by rewrite Hs, Hp, Hn, Hi, Hm, !option_ord_diag, path_subset_diag.
Qed.

(** the order is consistent with equality and antisymmetric on all rules, and
    transitive on every set of rules whose namespaces are coherent, as a rule set
    without [path_namespace] is. *)
Theorem rule_cmp_laws N x y z :
  coherent N → N x → N y → N z →
  (rule_cmp x y = Eq ↔ rule_eq x y = true) ∧ rule_cmp y x = CompOpp (rule_cmp x y) ∧
  (rule_cmp x y = Lt → rule_cmp y z = Lt → rule_cmp x z = Lt).
Proof.
  intros HN Hx Hy Hz. split; [apply rule_cmp_Eq|]. split; [apply rule_cmp_flip|].
  pose proof (rule_cmp_order N HN). by apply (weak_trans N).
Qed.

Lemma coherent_no_namespace : coherent (λ r, r_path_namespace r = None).
Proof. by intros x y z -> -> ->. Qed.

(** in general it is not transitive, so not an order: namespaces are compared
    by inclusion, and a rule unrelated to two nested namespaces can lie between
    them by its interface. *)
Definition ns_rule (ns : bytes) (iface : option bytes) : MatchRule :=
  MkRule None None (Some ns) iface None None.

Theorem rule_cmp_cycle :
  let A := ns_rule (lit "/a/b") None in
  let B := ns_rule (lit "/c") (Some (lit "i.f")) in
  let C := ns_rule (lit "/a") (Some (lit "i.f")) in
  rule_cmp A C = Lt ∧ rule_cmp C B = Lt ∧ rule_cmp B A = Lt.
Proof. by vm_compute. Qed.

(** ** The rule list *)

Definition with_queue (r : MatchRule) (q : queue) : MatchRule :=
  MkRule (r_sender r) (r_path r) (r_path_namespace r) (r_interface r) (r_member r) (Some q).

(** What the connection maintains: rules over the namespaces [N], sorted, each with
    its queue. *)
Definition in_ns (N : option bytes → Prop) (r : MatchRule) : Prop := N (r_path_namespace r).

Definition rules_ok (N : option bytes → Prop) (l : list MatchRule) : Prop :=
  sorted (in_ns N) rule_cmp l ∧ Forall (λ r, is_Some (r_queue r)) l.

Lemma rule_eq_sym x y : rule_eq x y = rule_eq y x.
Proof. apply eq_true_iff_eq. rewrite !rule_eq_iff. naive_solver. Qed.

Lemma rules_ok_nil N : rules_ok N [].
Proof. split; [split|]; [apply Forall_nil_2| |apply Forall_nil_2]. intros i j x y _ Hx. done. Qed.

Lemma insert_at_perm {A} i (x : A) l : insert_at i x l ≡ₚ x :: l.
Proof.
  unfold insert_at. rewrite <- Permutation_middle. by rewrite take_drop.
Qed.

Lemma remove_at_perm {A} i (x : A) l : l !! i = Some x → l ≡ₚ x :: remove_at i l.
Proof.
  intros Hx. unfold remove_at. rewrite Permutation_middle.
  by rewrite take_drop_middle.
Qed.

Section rule_list.
Context (N : option bytes → Prop) (HN : coherent (in_ns N)).

#[local] Instance rules_order : WeakOrder (in_ns N) rule_cmp := rule_cmp_order _ HN.

(** The search decides membership up to [rule_eq]. *)
Lemma find_rule_spec l r :
  sorted (in_ns N) rule_cmp l → in_ns N r →
  match find_rule l r with
  | Ok i => ∃ x, l !! i = Some x ∧ rule_eq x r = true
  | Err i => (∀ x, x ∈ l → rule_eq x r = false) ∧
      ∀ q, sorted (in_ns N) rule_cmp (insert_at i (with_queue r q) l)
  | Panic => False
  end.
Proof.
  intros Hs Hr. pose proof (sorted_search _ _ l r Hr Hs) as Hp. unfold find_rule.
  destruct (binary_search_by _ _) as [i|i|]; [| |done].
  - destruct Hp as (x & Hx & Heq). exists x. by rewrite <- rule_cmp_Eq.
  - destruct Hp as [Hi Hp]. split.
    + intros x [j Hj]%list_elem_of_lookup. destruct (Hp j x Hj) as [H1 H2].
      destruct (rule_eq x r) eqn:He; [|done]. apply rule_cmp_Eq in He.
      destruct (decide (j < i)); [rewrite H1 in He|rewrite H2 in He]; (done || lia).
    + intros q. exact (insert_at_sorted _ _ i (with_queue r q) l Hr Hs Hi Hp).
Qed.

Lemma insert_rule_result l r q :
  rules_ok N l → in_ns N r → (r_path r = None ∨ r_path_namespace r = None) →
  match insert_rule l r q with
  | Ok l' => (∀ x, x ∈ l → rule_eq x r = false) ∧ rules_ok N l' ∧ l' ≡ₚ with_queue r q :: l
  | Err e => e = InvalidInput ∧ ∃ x, x ∈ l ∧ rule_eq x r = true
  | Panic => False
  end.
Proof.
  intros [Hs Hq] Hr Hx. unfold insert_rule. cbv zeta.
  assert (bool_decide (is_Some (r_path r)) && bool_decide (is_Some (r_path_namespace r)) = false)
    as -> by (rewrite andb_false_iff, !bool_decide_eq_false, <- !eq_None_not_Some; done).
  pose proof (find_rule_spec l r Hs Hr) as Hf.
  destruct (find_rule l r) as [i|i|]; [| |done].
  - split; [done|]. destruct Hf as (x & Hx' & He). exists x. split; [|done].
    by eapply list_elem_of_lookup_2.
  - destruct Hf as [Hn Hi]. split; [done|]. change (MkRule _ _ _ _ _ _) with (with_queue r q).
    pose proof (insert_at_perm i (with_queue r q) l) as Hp. split; [|done]. split; [done|].
    rewrite Hp. constructor; [by eexists|done].
Qed.

Lemma remove_rule_result l r :
  rules_ok N l → in_ns N r →
  match remove_rule l r with
  | Ok l' => rules_ok N l' ∧ ∃ x, rule_eq x r = true ∧ l ≡ₚ x :: l'
  | Err e => e = InvalidInput ∧ ∀ x, x ∈ l → rule_eq x r = false
  | Panic => False
  end.
Proof.
  intros [Hs Hq] Hr. unfold remove_rule. pose proof (find_rule_spec l r Hs Hr) as Hf.
  destruct (find_rule l r) as [i|i|]; [| |done].
  - destruct Hf as (x & Hx & He). pose proof (remove_at_perm _ _ _ Hx) as Hp. split.
    + split; [by apply remove_at_sorted|]. rewrite Hp in Hq. by inversion Hq.
    + by exists x.
  - destruct Hf as [Hn _]. done.
Qed.
End rule_list.

(** ** Histories of the rule list *)

Inductive rule_op :=
| RInsert (r : MatchRule) (q : queue)
| RRemove (r : MatchRule)
| RRollback (r : MatchRule).

Definition op_rule (op : rule_op) : MatchRule :=
  match op with RInsert r _ | RRemove r | RRollback r => r end.

(** A refused operation leaves the list as it is. *)
Definition run_rule_op (l : list MatchRule) (op : rule_op) : io_result (list MatchRule) :=
  match match op with
        | RInsert r q => insert_rule l r q
        | RRemove r => remove_rule l r
        | RRollback r => rollback_rule l r
        end with
  | Err _ => Ok l
  | res => res
  end.

Fixpoint run_rule_ops (l : list MatchRule) (ops : list rule_op) : io_result (list MatchRule) :=
  match ops with
  | [] => Ok l
  | op :: ops' => l' ← run_rule_op l op; run_rule_ops l' ops'
  end.

(** Is [r] in the set the operations describe? *)
Definition present_step (r : MatchRule) (b : bool) (op : rule_op) : bool :=
  match op with
  | RInsert r' _ => b || rule_eq r' r
  | RRemove r' | RRollback r' => b && negb (rule_eq r' r)
  end.

Definition op_ok (N : option bytes → Prop) (op : rule_op) : Prop :=
  in_ns N (op_rule op) ∧ (r_path (op_rule op) = None ∨ r_path_namespace (op_rule op) = None).

Section history.
Context (N : option bytes → Prop) (HN : coherent (in_ns N)).

(** [l] holds the rules [f] names. *)
Definition holds (l : list MatchRule) (f : MatchRule → bool) : Prop :=
  ∀ r, (∃ x, x ∈ l ∧ rule_eq x r = true) ↔ f r = true.

Lemma rule_eq_trans x y z : rule_eq x y = true → rule_eq y z = true → rule_eq x z = true.
Proof. rewrite !rule_eq_iff. naive_solver congruence. Qed.

Lemma sorted_unique l x y :
  sorted (in_ns N) rule_cmp l → x ∈ l → y ∈ l → rule_eq x y = true → x = y.
Proof.
  intros [_ Hs] [i Hi]%list_elem_of_lookup [j Hj]%list_elem_of_lookup Heq%rule_cmp_Eq.
  destruct (lt_eq_lt_dec i j) as [[Hij| ->]|Hij]; [|congruence|].
  - rewrite (Hs _ _ _ _ Hij Hi Hj) in Heq. done.
  - pose proof (Hs _ _ _ _ Hij Hj Hi) as Hlt. rewrite rule_cmp_flip, Heq in Hlt. done.
Qed.

Lemma holds_remove l l' f r x :
  rules_ok N l → l ≡ₚ x :: l' → rule_eq x r = true → holds l f →
  holds l' (λ r', f r' && negb (rule_eq r r')).
Proof.
  intros [Hs _] Hp Hx Hf r'. specialize (Hf r'). setoid_rewrite Hp in Hf.
  rewrite andb_true_iff, negb_true_iff, <- Hf. split.
  - intros (y & Hy & Hyr). split; [exists y; set_solver|].
    destruct (rule_eq r r') eqn:Hrr; [|done]. exfalso.
    assert (rule_eq x y = true) as Hxy.
    { apply (rule_eq_trans x r); [done|]. apply (rule_eq_trans r r'); [done|].
      by rewrite rule_eq_sym. }
    assert (x = y) as -> by (apply (sorted_unique l); rewrite ?Hp; set_solver).
    destruct Hs as [_ Hs].
    assert (NoDup l) as Hnd.
    { apply NoDup_alt. intros i j z Hi Hj. destruct (lt_eq_lt_dec i j) as [[Hij|?]|Hij];
        [|done|]; (pose proof (Hs _ _ _ _ Hij ltac:(eassumption) ltac:(eassumption)) as Hlt;
        pose proof (rule_cmp_flip z z) as Hfl; rewrite Hlt in Hfl; done). }
    rewrite Hp in Hnd. by inversion Hnd.
  - intros ((y & Hy & Hyr) & Hrr). exists y. split; [|done].
    apply elem_of_cons in Hy as [->|Hy]; [|done]. exfalso.
    rewrite (rule_eq_trans r x r') in Hrr; [done|by rewrite rule_eq_sym|done].
Qed.

Lemma run_rollback l r : run_rule_op l (RRollback r) = run_rule_op l (RRemove r).
Proof. unfold run_rule_op, rollback_rule, remove_rule. by destruct (find_rule l r). Qed.

Lemma run_rule_op_ok l f op :
  rules_ok N l → op_ok N op → holds l f →
  ∃ l', run_rule_op l op = Ok l' ∧ rules_ok N l' ∧
    holds l' (λ r, present_step r (f r) op).
Proof.
  intros Hl [Hn Hx] Hf.
  assert (∀ r, in_ns N r → ∃ l', run_rule_op l (RRemove r) = Ok l' ∧ rules_ok N l' ∧
    holds l' (λ r', f r' && negb (rule_eq r r'))) as Hremove.
  { clear op Hn Hx. intros r Hn. unfold run_rule_op.
    pose proof (remove_rule_result N HN l r Hl Hn) as Hi.
    destruct (remove_rule l r) as [l'|e|]; [| |done].
    + destruct Hi as (Hl' & x & He & Hp). exists l'. split_and!; [done..|].
      exact (holds_remove l l' f r x Hl Hp He Hf).
    + destruct Hi as [-> Hno]. exists l. split_and!; [done..|]. intros r'.
      rewrite (Hf r'), andb_true_iff, negb_true_iff. split; [|naive_solver].
      intros Hr. split; [done|]. apply Hf in Hr as (x & Hx' & He).
      destruct (rule_eq r r') eqn:Hrr; [|done]. rewrite <- (Hno x Hx').
      symmetry. apply (rule_eq_trans x r'); [done|]. by rewrite rule_eq_sym. }
  destruct op as [r q|r|r]; cbn in Hn, Hx;
    [unfold run_rule_op|by apply Hremove|rewrite run_rollback; by apply Hremove].
  - pose proof (insert_rule_result N HN l r q Hl Hn Hx) as Hi.
    destruct (insert_rule l r q) as [l'|e|]; [| |done].
    + destruct Hi as (Hnew & Hl' & Hp). exists l'. split_and!; [done..|].
      intros r'. cbn. specialize (Hf r'). rewrite orb_true_iff, <- Hf. setoid_rewrite Hp.
      split.
      * intros (x & [->|Hx']%elem_of_cons & He); [by right|]. left. eauto.
      * intros [(x & Hx' & He)|He]; [exists x; set_solver|].
        exists (with_queue r q). split; [set_solver|done].
    + destruct Hi as [-> (x & Hx' & He)]. exists l. split_and!; [done..|].
      intros r'. cbn. rewrite (Hf r'), orb_true_iff. split; [auto|].
      intros [?|Hr]; [done|]. apply Hf. exists x. split; [done|]. by apply (rule_eq_trans x r).
Qed.
End history.

(** C11: after any sequence of inserted, removed and rolled back rules over coherent
    namespaces the rule list is sorted by specificity, every rule in it has its
    queue, nothing panicked, and the binary search finds a rule exactly when the
    operations left it in the set. *)
Theorem rule_list_history N ops :
  coherent (in_ns N) → Forall (op_ok N) ops →
  ∃ l, run_rule_ops [] ops = Ok l ∧ rules_ok N l ∧
    ∀ r, in_ns N r →
      is_ok (find_rule l r) = foldl (present_step r) false ops.
Proof.
  intros HN Hops.
  assert (∀ l f, rules_ok N l → holds l f → ∃ l', run_rule_ops l ops = Ok l' ∧
    rules_ok N l' ∧ holds l' (λ r, foldl (present_step r) (f r) ops)) as Hgen.
  { induction Hops as [|op ops Hop _ IH]; intros l f Hl Hf; cbn; [by exists l|].
    destruct (run_rule_op_ok N HN l f op Hl Hop Hf) as (l1 & -> & Hl1 & Hf1).
    by apply IH. }
  destruct (Hgen [] (λ _, false)) as (l & Hrun & Hl & Hf); [apply rules_ok_nil| |].
  { intros r. split; [|done]. by intros (x & Hx%not_elem_of_nil & _). }
  exists l. split_and!; [done..|]. intros r Hr. apply eq_true_iff_eq.
  rewrite <- (Hf r), is_ok_spec.
  pose proof (find_rule_spec N HN l r (proj1 Hl) Hr) as Hp.
  destruct (find_rule l r) as [i|i|]; [| |done].
  - destruct Hp as (x & Hx & He). split; [|by eauto]. intros _. exists x.
    split; [by eapply list_elem_of_lookup_2|done].
  - destruct Hp as [Hno _]. split; [naive_solver|]. intros (x & Hx & He).
    by rewrite (Hno x Hx) in He.
Qed.

(** C28: a signal goes to the most specific rule that matches it, to no other
    queue, and is dropped when no rule matches. *)
Theorem queue_sig_most_specific {E} N l chans sig :
  rules_ok N l →
  (∃ r q, r ∈ l ∧ r_queue r = Some q ∧ matches r sig = true ∧
     (∀ x, x ∈ l → matches x sig = true → x = r ∨ rule_cmp r x = Lt) ∧
     queue_sig (E:=E) l chans sig = Ok (<[q := default [] (chans !! q) ++ [sig]]> chans)) ∨
  ((∀ x, x ∈ l → matches x sig = false) ∧ queue_sig (E:=E) l chans sig = Ok chans).
Proof.
  intros [[_ Hs] Hq]. induction l as [|r l IH]; cbn.
  - right. split; [|done]. by intros x Hx%not_elem_of_nil.
  - apply Forall_cons in Hq as [[q Hr] Hq]. destruct (matches r sig) eqn:Hm.
    + left. exists r, q. rewrite Hr. split_and!; [set_solver|done..| |done].
      intros x [->|Hx]%elem_of_cons _; [by left|right].
      apply list_elem_of_lookup in Hx as [j Hj]. by apply (Hs 0 (S j)); [lia|..].
    + destruct IH as [(r' & q' & Hin & Hq' & Hm' & Hmin & Hres)|[Hno Hres]].
      * intros i j x y Hij Hx Hy. by apply (Hs (S i) (S j)); [lia|..].
      * done.
      * left. exists r', q'. split_and!; [set_solver|done..| |done].
        intros x [->|Hx]%elem_of_cons Hx'; [congruence|auto].
      * right. split; [|done]. intros x [->|Hx]%elem_of_cons; auto.
Qed.

(** Three rules in a cycle, [A] before [C] before [B] before [A], and two before them all:
    the search for [A] goes wrong at [C], and comes to the gap behind the first two. *)
Definition cycle_ops (A B C D E : MatchRule) : list rule_op :=
  [RInsert C 0; RInsert B 1; RInsert A 2; RInsert D 3; RInsert E 4].

Lemma insert_rule_at l r q i :
  (r_path r = None ∨ r_path_namespace r = None) → find_rule l r = Err i →
  insert_rule l r q = Ok (insert_at i (with_queue r q) l).
Proof.
  intros Hx Hf. unfold insert_rule.
  assert (bool_decide (is_Some (r_path r)) && bool_decide (is_Some (r_path_namespace r)) = false)
    as -> by (rewrite andb_false_iff, !bool_decide_eq_false, <- !eq_None_not_Some; done).
  by rewrite Hf.
Qed.

Lemma run_insert_at l r q i :
  (r_path r = None ∨ r_path_namespace r = None) → find_rule l r = Err i →
  run_rule_op l (RInsert r q) = Ok (insert_at i (with_queue r q) l).
Proof. intros Hx Hf. unfold run_rule_op. by rewrite (insert_rule_at l r q i Hx Hf). Qed.

Lemma cycle_loses A B C D E :
  Forall (λ r, r_path r = None ∨ r_path_namespace r = None) [A; B; C; D; E] →
  rule_cmp A C = Lt → rule_cmp C B = Lt → rule_cmp B A = Lt → rule_cmp D E = Lt →
  Forall (λ r, rule_cmp D r = Lt ∧ rule_cmp E r = Lt) [A; B; C] →
  let l := [with_queue D 3; with_queue E 4; with_queue C 0; with_queue B 1; with_queue A 2] in
  run_rule_ops [] (cycle_ops A B C D E) = Ok l ∧ find_rule l A = Err 2.
Proof.
  intros Hx HAC HCB HBA HDE Hfirst. rewrite !Forall_cons in Hx. rewrite !Forall_cons in Hfirst.
  destruct Hx as (HA & HB & HC & HD & HE & _).
  destruct Hfirst as ([HDA HEA] & [HDB HEB] & [HDC HEC] & _).
  assert (∀ x y, rule_cmp x y = Lt → rule_cmp y x = Gt) as Hgt
    by (intros x y Hxy; by rewrite rule_cmp_flip, Hxy).
  assert (∀ r q x, rule_cmp (with_queue r q) x = rule_cmp r x) as Hw by done.
  (* The search, halving lists of known lengths. *)
  assert (∀ f (a b c d e : MatchRule),
    binary_search_by f [a] = match f a with Lt => Err 1 | Eq => Ok 0 | Gt => Err 0 end ∧
    (f b = Lt → binary_search_by f [a; b] = Err 2) ∧
    (f b = Gt → f a = Gt → binary_search_by f [a; b; c] = Err 0) ∧
    (f c = Gt → f b = Gt → f a = Lt → binary_search_by f [a; b; c; d] = Err 1) ∧
    (f c = Gt → f b = Lt → binary_search_by f [a; b; c; d; e] = Err 2)) as Hbs.
  { intros f a b c d e. split; [cbn; by destruct (f a)|].
    split_and!; intros; cbn; repeat match goal with Hf : f _ = _ |- _ => rewrite Hf; cbn end; done. }
  cbv zeta. unfold cycle_ops. cbn [run_rule_ops].
  rewrite (run_insert_at [] C 0 0 HC eq_refl). cbn [mbind outcome_bind insert_at take drop app].
  erewrite (run_insert_at _ B 1 1 HB) by (unfold find_rule; rewrite (proj1 (Hbs _ _ B B B B)), Hw; by rewrite HCB).
  cbn [mbind outcome_bind insert_at take drop app].
  erewrite (run_insert_at _ A 2 2 HA) by (apply (Hbs _ _ _ A A A); by rewrite Hw).
  cbn [mbind outcome_bind insert_at take drop app].
  erewrite (run_insert_at _ D 3 0 HD) by (apply (Hbs _ _ _ _ A A); rewrite Hw; auto).
  cbn [mbind outcome_bind insert_at take drop app].
  erewrite (run_insert_at _ E 4 1 HE) by (apply (Hbs _ _ _ _ _ A); rewrite Hw; auto).
  cbn [mbind outcome_bind insert_at take drop app].
  split; [done|]. apply (Hbs (λ x, rule_cmp x A)); rewrite Hw; auto.
Qed.

(** C39: the condition of [rule_list_history] is needed: over every set of namespaces in
    which one is nested in another and a third unrelated to both, there are insertions, all
    accepted, after which a rule is in the list and the search denies it, so that it cannot
    be used or removed, and can be inserted twice. *)
Theorem rule_list_loses N inner outer other :
  N (Some inner) → N (Some outer) → N (Some other) →
  path_subset (Some inner) (Some outer) = Some Lt →
  path_subset (Some outer) (Some other) = None → path_subset (Some other) (Some inner) = None →
  ∃ ops l r q, Forall (op_ok N) ops ∧ run_rule_ops [] ops = Ok l ∧
    length l = length ops ∧ foldl (present_step r) false ops = true ∧ with_queue r q ∈ l ∧
    is_ok (find_rule l r) = false ∧ remove_rule l r = Err InvalidInput ∧
    is_ok (insert_rule l r 5) = true.
Proof.
  intros Hi Ho Hu Hio Hou Hui.
  assert (path_subset (Some outer) (Some inner) = Some Gt) as Hoi by by rewrite path_subset_flip, Hio.
  assert (path_subset (Some inner) (Some other) = None) as Hiu by by rewrite path_subset_flip, Hui.
  set (A := ns_rule inner None).
  set (B := ns_rule other (Some (lit "i.f"))).
  set (C := set_member (lit "m") (ns_rule outer (Some (lit "i.f")))).
  set (D := set_sender (lit "x") (set_interface (lit "i.f") (ns_rule inner None))).
  set (E := set_sender (lit "x") (ns_rule inner None)).
  assert (Forall (λ r, r_path r = None ∨ r_path_namespace r = None) [A; B; C; D; E]) as Hx
    by (repeat constructor; by left).
  destruct (cycle_loses A B C D E Hx) as [Hrun Hfind].
  - unfold rule_cmp. cbn -[path_subset]. by rewrite Hio.
  - unfold rule_cmp. cbn -[path_subset]. by rewrite Hou.
  - unfold rule_cmp. cbn -[path_subset]. by rewrite Hui.
  - unfold rule_cmp. cbn -[path_subset]. by rewrite path_subset_diag.
  - by repeat constructor.
  - eexists (cycle_ops A B C D E), _, A, 2. split; [|split; [exact Hrun|]].
    { repeat constructor; done || by left. }
    split_and!; [done| | |by rewrite Hfind|unfold remove_rule; by rewrite Hfind|].
    + cbn [cycle_ops foldl present_step]. rewrite (proj2 (rule_eq_iff A A)) by done.
      by rewrite !orb_true_r.
    + set_solver.
    + by rewrite (insert_rule_at _ A 5 2 (or_introl eq_refl) Hfind).
Qed.

Lemma rule_list_loses_witness :
  ∃ ops l r q, run_rule_ops [] ops = Ok l ∧ with_queue r q ∈ l ∧
    remove_rule l r = Err InvalidInput.
Proof.
  destruct (rule_list_loses (λ _, True) (lit "/a/b") (lit "/a") (lit "/c") I I I)
    as (ops & l & r & q & _ & Hrun & _ & _ & Hin & _ & Hrm & _); [reflexivity..|].
  exists ops, l, r, q. split; [exact Hrun|]. split; [exact Hin|exact Hrm].
Defined.

(** ** The builder methods *)

Inductive rule_setter :=
| SetSender (v : bytes) | SetPath (v : bytes) | SetPathNamespace (v : bytes)
| SetInterface (v : bytes) | SetMember (v : bytes).

Definition run_setter (r : MatchRule) (s : rule_setter) : MatchRule :=
  match s with
  | SetSender v => set_sender v r
  | SetPath v => set_path v r
  | SetPathNamespace v => set_path_namespace v r
  | SetInterface v => set_interface v r
  | SetMember v => set_member v r
  end.

(** A rule made with the builder methods never trips the assertion of
    [insert_sig_match], which rejects a path together with a namespace. *)
Lemma builder_exclusive ss :
  let r := foldl run_setter rule_new ss in r_path r = None ∨ r_path_namespace r = None.
Proof.
  assert (∀ r, r_path r = None ∨ r_path_namespace r = None →
    r_path (foldl run_setter r ss) = None ∨ r_path_namespace (foldl run_setter r ss) = None)
    as H; [|apply H; by left].
  induction ss as [|s ss IH]; intros r Hr; [done|]. apply IH. destruct s; cbn; auto.
Qed.

(** ** [match_string] *)

Definition APOS : u8 := "'"%char.
Definition EQUALS : u8 := "="%char.

(** The rule string as the fields it lists, each with its key. *)
Definition rule_fields (r : MatchRule) : list (bytes * option bytes) :=
  [(lit "sender", r_sender r); (lit "path", r_path r);
   (lit "path_namespace", r_path_namespace r); (lit "interface", r_interface r);
   (lit "member", r_member r)].

Fixpoint emit (fs : list (bytes * option bytes)) : bytes :=
  match fs with
  | [] => lit "type='signal'"
  | (k, Some v) :: fs' => k ++ EQUALS :: APOS :: v ++ APOS :: lit "," ++ emit fs'
  | (k, None) :: fs' => emit fs'
  end.

Lemma match_string_emit r : match_string r = emit (rule_fields r).
Proof.
  destruct r as [s p n i m q].
  destruct s, p, n, i, m; cbn; repeat (rewrite <- app_assoc; cbn [app]); done.
Qed.

(** The text starts with the key of a field it lists, or of the type. *)
Lemma emit_head fs :
  ∃ k rest, emit fs = k ++ EQUALS :: rest ∧ (k ∈ fs.*1 ∨ k = lit "type").
Proof.
  induction fs as [|[k [v|]] fs (k' & rest & Heq & Hk)]; cbn.
  - exists (lit "type"), (lit "'signal'"). auto.
  - exists k, (APOS :: v ++ APOS :: lit "," ++ emit fs). split; [done|]. set_solver.
  - exists k', rest. split; [done|]. set_solver.
Qed.

Definition no_apos (fs : list (bytes * option bytes)) : Prop :=
  Forall (λ f, ∀ v, f.2 = Some v → APOS ∉ v) fs.

(** Text that lists a key lists it among its fields. *)
Lemma emit_key k v gs :
  Forall (λ k, EQUALS ∉ k) (k :: lit "type" :: gs.*1) → emit gs = k ++ EQUALS :: v →
  k ∈ gs.*1 ∨ k = lit "type".
Proof.
  intros Hall Heq. destruct (emit_head gs) as (k' & rest & Hh & Hin). rewrite Hh in Heq.
  rewrite !Forall_cons in Hall. destruct Hall as (Hk & Ht & Hgs). rewrite Forall_forall in Hgs.
  assert (EQUALS ∉ k') as Hk' by (destruct Hin as [Hin| ->]; auto).
  by destruct (sep_app_inj EQUALS k' k rest v Hk' Hk Heq) as [-> _].
Qed.

Lemma emit_inj fs gs :
  fs.*1 = gs.*1 → NoDup fs.*1 → lit "type" ∉ fs.*1 →
  Forall (λ k, EQUALS ∉ k) (lit "type" :: fs.*1) →
  no_apos fs → no_apos gs → emit fs = emit gs → fs = gs.
Proof.
  revert gs. induction fs as [|[k o] fs IH]; intros [|[k' o'] gs] Hkeys Hnd Ht Hall Hf Hg Heq;
    try done. rewrite fmap_cons in Hnd, Ht, Hall, Hkeys. rewrite fmap_cons in Hkeys.
  injection Hkeys as <- Hkeys. apply Forall_cons in Hf as [Ho Hf].
  apply Forall_cons in Hg as [Ho' Hg]. cbn [fst snd] in Ho, Ho', Hnd, Hall, Ht.
  apply NoDup_cons in Hnd as [Hk Hnd]. apply not_elem_of_cons in Ht as [Hkt Ht].
  rewrite !Forall_cons in Hall. destruct Hall as (Htype & Hke & Hall).
  assert (emit fs = emit gs → fs = gs) as Hrec by (apply IH; auto).
  assert (∀ v, emit fs ≠ k ++ EQUALS :: v) as Hkf.
  { intros v Hv. destruct (emit_key k v fs) as [?|?]; [by repeat constructor|done..]. }
  assert (∀ v, emit gs ≠ k ++ EQUALS :: v) as Hkg.
  { intros v Hv. rewrite Hkeys in Hk, Hall. destruct (emit_key k v gs) as [?|?];
      [by repeat constructor|done..]. }
  destruct o as [v|], o' as [v'|]; cbn [emit] in Heq.
  - apply app_inv_head in Heq. injection Heq as Heq.
    apply sep_app_inj in Heq as [-> Heq]; [|by apply Ho|by apply Ho'].
    injection Heq as Heq. by rewrite (Hrec Heq).
  - by destruct (Hkg _ (eq_sym Heq)).
  - by destruct (Hkf _ Heq).
  - by rewrite (Hrec Heq).
Qed.

(** the match rule string determines the rule: two rules whose values contain
    no apostrophe have the same string exactly when they are equal, so removing a
    rule at the bus names the rule that was added. *)
Theorem match_string_inj r1 r2 :
  no_apos (rule_fields r1) → no_apos (rule_fields r2) →
  match_string r1 = match_string r2 ↔ rule_eq r1 r2 = true.
Proof.
  intros H1 H2. rewrite !match_string_emit, rule_eq_iff. split.
  - intros Heq. assert (rule_fields r1 = rule_fields r2) as Hf.
    { apply emit_inj; [done| | | |done..].
      - by apply (bool_decide_unpack _); vm_compute.
      - by apply (bool_decide_unpack _); vm_compute.
      - by apply (bool_decide_unpack _); vm_compute. }
    unfold rule_fields in Hf. by simplify_eq.
  - unfold rule_fields. by intros (-> & -> & -> & -> & ->).
Qed.

(** ** Concrete runs *)

Definition sample_rule : MatchRule :=
  set_member (lit "NameOwnerChanged")
    (set_interface (lit "org.freedesktop.DBus")
      (set_sender (lit "org.freedesktop.DBus") rule_new)).

Definition path_rule (p : bytes) : MatchRule := set_path p rule_new.

Lemma no_ns_coherent : coherent (in_ns (λ ns, ns = None)).
Proof. exact coherent_no_namespace. Qed.

Lemma rule_cmp_laws_witness :
  rule_cmp sample_rule (path_rule (lit "/a")) = Lt ∧
  rule_cmp sample_rule EMPTY_MATCH = Lt.
Proof.
  split; [reflexivity|].
  refine (proj2 (proj2 (rule_cmp_laws (in_ns (λ ns, ns = None)) sample_rule (path_rule (lit "/a"))
    EMPTY_MATCH no_ns_coherent eq_refl eq_refl eq_refl)) _ _); reflexivity.
Defined.

Definition sample_ops : list rule_op :=
  [RInsert EMPTY_MATCH 0; RInsert (path_rule (lit "/a")) 1; RInsert sample_rule 2;
   RInsert (path_rule (lit "/a")) 3; RRemove EMPTY_MATCH].

Lemma sample_ops_ok : Forall (op_ok (λ ns, ns = None)) sample_ops.
Proof. repeat constructor; by right. Qed.

Lemma rule_list_history_witness :
  ∃ l, run_rule_ops [] sample_ops = Ok l ∧ rules_ok (λ ns, ns = None) l ∧
    is_ok (find_rule l EMPTY_MATCH) = false ∧ is_ok (find_rule l sample_rule) = true.
Proof.
  destruct (rule_list_history (λ ns, ns = None) sample_ops no_ns_coherent sample_ops_ok)
    as (l & Hrun & Hl & Hf).
  exists l. split; [exact Hrun|]. split; [exact Hl|].
  split; [rewrite (Hf EMPTY_MATCH eq_refl)|rewrite (Hf sample_rule eq_refl)]; reflexivity.
Defined.

Lemma queue_sig_most_specific_witness :
  rules_ok (λ ns, ns = None) [with_queue EMPTY_MATCH 0] ∧
  queue_sig (E:=unit) [with_queue EMPTY_MATCH 0] ∅ msg_new = Ok ∅.
Proof.
  assert (rules_ok (λ ns, ns = None) [with_queue EMPTY_MATCH 0]) as Hok.
  { pose proof (insert_rule_result _ no_ns_coherent [] EMPTY_MATCH 0 (rules_ok_nil _) eq_refl
      (or_introl eq_refl)) as H. exact (proj1 (proj2 H)). }
  split; [exact Hok|].
  destruct (queue_sig_most_specific (E:=unit) (λ ns, ns = None) _ ∅ msg_new Hok)
    as [(r & q & Hin & _ & Hm & _)|[_ Hres]]; [exfalso|exact Hres].
  apply list_elem_of_singleton in Hin. subst. discriminate Hm.
Defined.

Lemma match_string_inj_witness :
  match_string sample_rule = match_string (rule_clone (with_queue sample_rule 7)).
Proof.
  refine (proj2 (match_string_inj sample_rule (rule_clone (with_queue sample_rule 7)) _ _) eq_refl);
    repeat constructor; intros v [= <-]; apply (bool_decide_unpack _); vm_compute; exact I.
Defined.
