(* ===== verification/UnitTests.v ===== *)
(** * The unit tests of the crate, run on the model

    The tests at the end of utils.rs, path.rs, body.rs and routing.rs as functions of the
    model: [assert!] is [assert_], a failed assertion is the panic it is there, and each
    test is shown to pass.  The test of the order of match rules shuffles an array; here it
    passes for every order of the array and every sorting function. *)

From S2P Require Import Prelude Utils Body StdPath ObjPath SigStr Message PathTraits.
From S2P Require Import Hierarchy Order MatchRule.
From stdpp Require Import sorting.
From Stdlib Require Import Lia.

(** A test: what it gives, unless it panics. *)
Abbreviation test := (outcome Empty_set).

Definition assert_ (b : bool) : test unit := if b then Ok () else Panic.

Definition assert_eq {A} `{EqDecision A} (x y : A) : test unit := assert_ (bool_decide (x = y)).

(** [.unwrap()] of a [Result]. *)
Definition ok_unwrap {E A} (m : outcome E A) : test A :=
  match m with Ok a => Ok a | _ => Panic end.

(** ** utils.rs *)

Fixpoint for_each {A} (f : A → test unit) (l : list A) : test unit :=
  match l with [] => Ok () | x :: l' => _ ← f x; for_each f l' end.

Definition align_num_0_1024 : test unit :=
  for_each (λ target,
    _ ← assert_eq (align_num 0 target) 0;
    let aligned := seq 0 (S (1024 / target)) ≫= λ i, replicate target ((i + 1) * target) in
    for_each (λ '(gen, tar), assert_eq gen tar)
      (zip (map (λ i, align_num i target) (seq 1 1024)) aligned)) (seq 1 32).

Example align_num_0_1024_passes : align_num_0_1024 = Ok ().
Proof. vm_compute. reflexivity. Qed.

(** ** path.rs *)

Definition test_objpaths : test (list bytes) :=
  p ← ok_unwrap (from_str (lit "/org/freedesktop/NetworkManager"));
  q ← ok_unwrap (from_str (lit "/org/freedesktop/NetworkManager/ActiveConnection"));
  mret [p; q].

Section path_tests.
Context (dbg : bool).

Fixpoint owned_all (ps : list bytes) : test (list ObjectPathBuf) :=
  match ps with
  | [] => Ok []
  | p :: ps' => b ← to_object_path_buf dbg p; bs ← owned_all ps'; mret (b :: bs)
  end.

Definition test_objpathbufs : test (list ObjectPathBuf) :=
  ps ← test_objpaths; owned_all ps.

(** [compare_ord_borrow]: the first pair ordered otherwise after [borrow]. *)
Definition compare_ord_borrow {A B} (borrow : A → B) (cmp_pre : A → A → comparison)
    (cmp_post : B → B → comparison) (pre : list A) : option (nat * nat) :=
  head (imap (λ i pre_i, (i, pre_i)) pre ≫= λ '(i, pre_i),
    drop i (imap (λ j pre_j, (j, pre_j)) pre) ≫= λ '(j, pre_j),
      if bool_decide (cmp_pre pre_i pre_j = cmp_post (borrow pre_i) (borrow pre_j)) then []
      else [(i, j)]).

(** [compare_hasher_borrow]: the first value hashed otherwise after [borrow]. *)
Definition compare_hasher_borrow {A B H} `{EqDecision H} (borrow : A → B) (hash_pre : A → H)
    (hash_post : B → H) (pre : list A) : option nat :=
  head (imap (λ i pre, (i, pre)) pre ≫= λ '(i, pre),
    if bool_decide (hash_pre pre = hash_post (borrow pre)) then [] else [i]).

Context {H : Type} `{EqDecision H} (path_hash : bytes → H).

Definition test_objectpathbuf_borrow_objectpath : test unit :=
  objpathbufs ← test_objpathbufs;
  _ ← assert_eq (compare_hasher_borrow deref (buf_hash path_hash) (op_hash path_hash) objpathbufs)
        None;
  assert_eq (compare_ord_borrow deref buf_cmp op_cmp objpathbufs) None.

(** [Borrow<Path>]: the same path. *)
Definition test_objectpath_borrow_path : test unit :=
  objpaths ← test_objpaths;
  _ ← assert_eq (compare_hasher_borrow id (op_hash path_hash) path_hash objpaths) None;
  assert_eq (compare_ord_borrow id op_cmp path_cmp objpaths) None.

Definition test_push : test unit :=
  objpath ← ok_unwrap (from_str (lit "/dbus/test"));
  objpath2 ← ok_unwrap (from_str (lit "/freedesktop/more"));
  objpathbuf ← ObjPath.push dbg buf_new objpath;
  _ ← assert_ (buf_eq_path objpathbuf objpath);
  objpathbuf ← ObjPath.push dbg objpathbuf objpath2;
  expected ← ok_unwrap (from_str (lit "/dbus/test/freedesktop/more"));
  _ ← assert_ (op_eq (deref objpathbuf) expected);
  _ ← assert_ (path_starts_with (deref objpathbuf) objpath);
  _ ← assert_ (negb (path_starts_with (deref objpathbuf) objpath2));
  stripped ← ok_unwrap (ObjPath.strip_prefix dbg (deref objpathbuf) objpath);
  assert_ (op_eq stripped objpath2).

End path_tests.

Lemma test_objpaths_eq : test_objpaths = Ok [lit "/org/freedesktop/NetworkManager";
  lit "/org/freedesktop/NetworkManager/ActiveConnection"].
Proof. by vm_compute. Qed.

Lemma test_objpathbufs_eq dbg :
  test_objpathbufs dbg = Ok [from_path_buf (lit "/org/freedesktop/NetworkManager");
    from_path_buf (lit "/org/freedesktop/NetworkManager/ActiveConnection")].
Proof. destruct dbg; by vm_compute. Qed.

Example path_tests_pass dbg {H : Type} `{EqDecision H} (path_hash : bytes → H) :
  test_objectpathbuf_borrow_objectpath dbg path_hash = Ok () ∧
  test_objectpath_borrow_path path_hash = Ok () ∧ test_push dbg = Ok ().
Proof.
  split_and!; [| |destruct dbg; by vm_compute].
  - unfold test_objectpathbuf_borrow_objectpath. rewrite test_objpathbufs_eq.
    cbn [mbind outcome_bind]. unfold compare_hasher_borrow. cbn.
    rewrite !bool_decide_eq_true_2 by done. by vm_compute.
  - unfold test_objectpath_borrow_path. rewrite test_objpaths_eq.
    cbn [mbind outcome_bind]. unfold compare_hasher_borrow. cbn.
    rewrite !bool_decide_eq_true_2 by done. by vm_compute.
Qed.

(** ** body.rs

    [test_validate_sig_str], the body of its loop.  The tests of rustbus's own validator and
    marshalling are about rustbus. *)

#[export] Instance SigErr_eq_dec : EqDecision SigErr.
Proof. solve_decision. Defined.

Definition assert_sig_err (sig : bytes) (e : SigErr) : test unit :=
  match validate_sig_str sig with
  | Err e' => assert_eq e' e
  | _ => Panic
  end.

Definition test_validate_sig_str : test unit :=
  _ ← ok_unwrap (validate_sig_str (lit "aaai"));
  _ ← ok_unwrap (validate_sig_str (lit "a{ii}"));
  _ ← ok_unwrap (validate_sig_str (lit "(ii)"));
  _ ← ok_unwrap (validate_sig_str (lit "(i)"));
  _ ← ok_unwrap (validate_sig_str (lit "a{i(i)}"));
  _ ← assert_sig_err (lit "{ii}") DictEntryNotInArray;
  _ ← assert_sig_err (lit "a{i(i})") UnexpectedClosingBracket;
  _ ← assert_sig_err (lit "()") UnexpectedClosingParenthesis;
  _ ← assert_sig_err (lit "a{}") UnexpectedClosingBracket;
  _ ← assert_sig_err (lit "a{iii}") TooManyTypesInDictEntry;
  _ ← assert_sig_err (lit "((i)") UnclosedStruct;
  _ ← assert_sig_err (lit "(i))") UnexpectedClosingParenthesis;
  _ ← assert_sig_err (lit "a{{i}i}") NonBaseDictKey;
  _ ← assert_sig_err (lit "a{ii}}") UnexpectedClosingBracket;
  _ ← assert_sig_err (lit "!!!") UnknownCharacter;
  _ ← assert_sig_err (replicate 256 "b"%char) TooLong;
  assert_sig_err (lit "(i)a") ArrayWithNoType.

Example test_validate_sig_str_passes : test_validate_sig_str = Ok ().
Proof. vm_compute. reflexivity. Qed.

(** ** routing.rs *)

Section routing_tests.
Context (dbg : bool).

(** The operations on paths made with [try_into().unwrap()]; [q] is the new queue. *)
Definition insert (hierarchy : CallHierarchy) (path : string) (action : CallAction) (q : queue)
    : test CallHierarchy :=
  p ← ok_unwrap (from_str (lit path)); insert_path dbg hierarchy p action q.

Definition action (hierarchy : CallHierarchy) (path : string) : test CallAction :=
  p ← ok_unwrap (from_str (lit path)); a ← get_action dbg hierarchy p; unwrap a.

Definition is_match_at (hierarchy : CallHierarchy) (org msg : string) : test bool :=
  p ← ok_unwrap (from_str (lit org)); m ← ok_unwrap (from_str (lit msg));
  is_match dbg hierarchy p m.

Definition assert_action (hierarchy : CallHierarchy) (path : string) (a : CallAction) : test unit :=
  b ← action hierarchy path; assert_eq b a.

Definition assert_match (hierarchy : CallHierarchy) (org msg : string) (b : bool) : test unit :=
  m ← is_match_at hierarchy org msg; assert_eq m b.

Definition call_hierarchy_insert : test unit :=
  hierarchy ← insert hierarchy_new "/usr/local/bin" AQueue 0;
  _ ← assert_action hierarchy "/usr/local/bin" AQueue;
  _ ← assert_action hierarchy "/usr/local" ANothing;
  _ ← assert_action hierarchy "/usr" ANothing;
  _ ← assert_action hierarchy "/" ADrop;
  _ ← assert_match hierarchy "/usr/local/bin" "/usr/local/bin/echo" true;
  _ ← assert_match hierarchy "/usr/local/bin" "/usr/local/bin" true;
  _ ← assert_match hierarchy "/usr/local" "/usr/local" false;
  _ ← assert_match hierarchy "/usr" "/usr/local" false;
  _ ← assert_match hierarchy "/" "/usr/local/bin" false;
  _ ← assert_match hierarchy "/" "/usr/local" false;
  hierarchy ← insert hierarchy "/" AQueue 1;
  _ ← assert_match hierarchy "/" "/usr/local" true;
  hierarchy ← insert hierarchy "/var" AExact 2;
  hierarchy ← insert hierarchy "/var/log/journal" AQueue 3;
  _ ← assert_match hierarchy "/var/log/journal" "/var/log/journal" true;
  _ ← assert_match hierarchy "/var" "/var/log" true;
  _ ← assert_match hierarchy "/" "/var/log" false;
  assert_match hierarchy "/" "/var" false.

Definition trimming : test unit :=
  hierarchy ← insert hierarchy_new "/usr/local/bin" AQueue 0;
  hierarchy ← insert hierarchy "/usr/local/bin/hello/find" AQueue 1;
  hierarchy ← insert hierarchy "/usr/local/bin/hello/find" ANothing 2;
  hierarchy ← insert hierarchy "/usr/local/bin" ANothing 3;
  _ ← assert_ (bool_decide (children hierarchy = ∅));
  hierarchy ← insert hierarchy "/usr/local/bin" AQueue 4;
  hierarchy ← insert hierarchy "/usr/local/bin/hello/find" AQueue 5;
  hierarchy ← insert hierarchy "/usr/local/bin" ANothing 6;
  hierarchy ← insert hierarchy "/usr/local/bin/hello/find" ANothing 7;
  assert_ (bool_decide (children hierarchy = ∅)).
End routing_tests.

Example hierarchy_tests_pass dbg : call_hierarchy_insert dbg = Ok () ∧ trimming dbg = Ok ().
Proof. destruct dbg; by vm_compute. Qed.

Definition w_sender : MatchRule := set_sender (lit "org.freedesktop.DBus") rule_new.
Definition w_path : MatchRule := set_path (lit "/hello") rule_new.
Definition w_namespace0 : MatchRule := set_path_namespace (lit "/org") rule_new.
Definition w_namespace1 : MatchRule := set_path_namespace (lit "/org/freedesktop") rule_new.
Definition w_interface : MatchRule := set_interface (lit "org.freedesktop.DBus") rule_new.
Definition w_member : MatchRule := set_member (lit "Peer") rule_new.

Definition match_rules : list MatchRule :=
  [w_sender; w_path; w_namespace0; w_namespace1; w_interface; w_member].

(** [match_order] with the array it shuffled and the sorting function as arguments. *)
Definition match_order (sort_unstable : list MatchRule → list MatchRule) (array : list MatchRule)
    : test unit :=
  let array := sort_unstable array in
  _ ← assert_eq (array !! 0) (Some w_sender);
  _ ← assert_eq (array !! 1) (Some w_path);
  _ ← assert_eq (array !! 2) (Some w_namespace1);
  _ ← assert_eq (array !! 3) (Some w_namespace0);
  _ ← assert_eq (array !! 4) (Some w_interface);
  assert_eq (array !! 5) (Some w_member).

(** What sorting leaves: no element is greater than the next. *)
Definition rule_le (x y : MatchRule) : Prop := rule_cmp x y ≠ Gt.

(** On the elements of [l] the order is transitive and antisymmetric. *)
Definition ordered_on (l : list MatchRule) : bool :=
  forallb (λ x, forallb (λ y, forallb (λ z,
    implb (bool_decide (rule_cmp x y ≠ Gt) && bool_decide (rule_cmp y z ≠ Gt))
      (bool_decide (rule_cmp x z ≠ Gt)) &&
    implb (bool_decide (rule_cmp x y ≠ Gt) && bool_decide (rule_cmp y x ≠ Gt))
      (bool_decide (x = y))) l) l) l.

Lemma ordered_on_spec l x y z :
  ordered_on l → x ∈ l → y ∈ l → z ∈ l →
  (rule_le x y → rule_le y z → rule_le x z) ∧ (rule_le x y → rule_le y x → x = y).
Proof.
  intros Hl Hx Hy Hz. unfold ordered_on in Hl. apply Is_true_true, forallb_forall with (x:=x) in Hl;
    [|by apply list_elem_of_In].
  apply forallb_forall with (x:=y) in Hl; [|by apply list_elem_of_In].
  apply forallb_forall with (x:=z) in Hl; [|by apply list_elem_of_In].
  apply andb_true_iff in Hl as [H1 H2]. unfold rule_le. split; intros Hxy Hyz.
  - rewrite !bool_decide_eq_true_2 in H1 by done. by apply bool_decide_eq_true in H1.
  - rewrite !bool_decide_eq_true_2 in H2 by done. by apply bool_decide_eq_true in H2.
Qed.

(** So there is one way to sort them. *)
Lemma sorted_rules_unique l1 l2 :
  ordered_on l1 → Sorted rule_le l1 → Sorted rule_le l2 → l1 ≡ₚ l2 → l1 = l2.
Proof.
  intros Hl H1 H2 Hp. set (R x y := x ∈ l1 ∧ y ∈ l1 ∧ rule_le x y).
  assert (∀ l, l ⊆ l1 → Sorted rule_le l → Sorted R l) as Hr.
  { intros l Hsub Hs. induction Hs as [|x l Hs IH Hd]; constructor.
    - apply IH. set_solver.
    - destruct Hd; constructor. split_and!; [set_solver..|done]. }
  assert (Transitive R).
  { intros x y z (Hx & Hy & Hxy) (_ & Hz & Hyz). split_and!; [done..|].
    by apply (ordered_on_spec l1 x y z). }
  assert (AntiSymm eq R).
  { intros x y (Hx & Hy & Hxy) (_ & _ & Hyx). by apply (ordered_on_spec l1 x y y). }
  apply (Sorted_unique R); [by apply Hr|apply Hr; [|done]|done]. by rewrite Hp.
Qed.

(** [match_order] passes whatever order the array was shuffled into, and whichever way
    it is sorted. *)
Lemma match_order_passes sort_unstable array :
  array ≡ₚ match_rules → sort_unstable array ≡ₚ array → Sorted rule_le (sort_unstable array) →
  match_order sort_unstable array = Ok ().
Proof.
  intros Ha Hp Hs. unfold match_order.
  assert (sort_unstable array = [w_sender; w_path; w_namespace1; w_namespace0; w_interface; w_member])
    as ->; [|by vm_compute].
  symmetry. apply sorted_rules_unique; [by vm_compute| |done|].
  - repeat constructor; by vm_compute.
  - rewrite Hp, Ha. unfold match_rules. do 2 constructor. apply perm_swap.
Qed.

Definition m1 : MatchRule := rule_clone (set_interface (lit "io.test.Test1") rule_new).
Definition m2 : MatchRule := rule_clone (set_member (lit "TestSig1") rule_new).
Definition m3 : MatchRule :=
  let m := rule_clone m2 in
  MkRule (r_sender m) (r_path m) (r_path_namespace m) (r_interface m1) (r_member m) (r_queue m).
Definition m4 : MatchRule := rule_clone (set_path_namespace (lit "/io/test") rule_new).
Definition m5 : MatchRule := rule_clone (set_path (lit "/io/test/specific") rule_new).
Definition m6 : MatchRule := rule_clone (set_sender (lit "io.test_sender") rule_new).

(** [m.queue = Some(MsgQueue::new())] of a clone. *)
Definition queued (m : MatchRule) : MatchRule := with_queue (rule_clone m) 0.

(** [assert!(m.matches(&msg))] of a rule and of its copy with a queue, or the negations. *)
Definition both_match (m : MatchRule) (msg : MarshalledMessage) (b : bool) : test unit :=
  _ ← assert_eq (matches m msg) b; assert_eq (matches (queued m) msg) b.

(** Assignments to fields of [msg.dynheader]. *)
Definition set_header (i m o s : option bytes) (msg : MarshalledMessage) : MarshalledMessage :=
  let d := dynheader msg in
  set_dyn msg (MkDyn i m o (destination d) (serial d) s (signature d) (error_name d)
    (response_serial d) (num_fds d)).

Definition matches_single : test unit :=
  let i1 := Some (lit "io.test.Test1") in
  let msg := signal (lit "io.test.Test1") (lit "TestSig1") (lit "/") msg_new in
  let msg := set_header i1 (Some (lit "TestSig1")) (Some (lit "/")) (Some (lit "io.other")) msg in
  _ ← assert_ (matches EMPTY_MATCH msg);
  _ ← both_match m1 msg true; _ ← both_match m2 msg true; _ ← both_match m3 msg true;
  _ ← both_match m4 msg false; _ ← both_match m5 msg false; _ ← both_match m6 msg false;
  let msg := set_header (Some (lit "io.test.Test2")) (Some (lit "TestSig1")) (Some (lit "/"))
    (Some (lit "io.other")) msg in
  _ ← both_match m1 msg false; _ ← both_match m2 msg true; _ ← both_match m3 msg false;
  let msg := set_header i1 (Some (lit "TestSig2")) (Some (lit "/")) (Some (lit "io.other")) msg in
  _ ← both_match m1 msg true; _ ← both_match m2 msg false; _ ← both_match m3 msg false;
  let msg := set_header i1 (Some (lit "TestSig2")) (Some (lit "/io/test")) (Some (lit "io.other"))
    msg in
  _ ← both_match m4 msg true; _ ← both_match m5 msg false;
  let msg := set_header i1 (Some (lit "TestSig2")) (Some (lit "/io/test/specific"))
    (Some (lit "io.other")) msg in
  _ ← both_match m4 msg true; _ ← both_match m5 msg true;
  let msg := set_header i1 (Some (lit "TestSig2")) (Some (lit "/io/test/specific/too"))
    (Some (lit "io.other")) msg in
  _ ← both_match m4 msg true; _ ← both_match m5 msg false;
  let msg := set_header i1 (Some (lit "TestSig2")) (Some (lit "/io/test/specific/too"))
    (Some (lit "io.test_sender")) msg in
  _ ← both_match m6 msg true;
  assert_ (matches EMPTY_MATCH msg).

Definition matches_is_empty : test unit :=
  _ ← assert_ (is_empty EMPTY_MATCH);
  let me_q := with_queue rule_new 0 in
  assert_ (is_empty me_q).

Example matches_tests_pass : matches_single = Ok () ∧ matches_is_empty = Ok ().
Proof. by vm_compute. Qed.
