(* ===== verification/Sender.v ===== *)
(** * conn/sender.rs: the send queue

    [SendState] keeps the messages the socket did not take yet.  A message is
    written by [write_next_message], which also drains the queue, and the rest of the
    queue by [finish_sending_next]; both fill one vectored write with the bytes left
    ([populate]) and account for what the kernel took ([update_written]).

    The socket is a list of answers to the successive [sendmsg] calls: [Took n] takes
    the first [n] bytes, [Fails e] is the error; after the list it is not writable
    any more ([WouldBlock]).  What it has taken is a [Wire]: the bytes, and the
    descriptors with the offset of the byte they arrived with. *)

From S2P Require Import Prelude Utils SigStr Body Message Header DBusWire.
From Stdlib Require Import Lia.

Definition DBUS_MAX_FD_MESSAGE : nat := 32.

Record RawOut := MkOut {
  written : nat;
  header : bytes;
  out_body : bytes;
  fds : list Fd;
}.

Record SendState := MkSend {
  with_fd : bool;
  idx : nat;
  queue : list RawOut;
}.

Inductive answer := Took (n : nat) | Fails (e : ErrorKind).

Record Wire := MkWire {
  w_bytes : bytes;
  w_fds : list (nat * list Fd);
}.

(** [&l[n..]]. *)
Definition slice_from {E} (l : bytes) (n : nat) : outcome E bytes :=
  if decide (n ≤ length l) then Ok (drop n l) else Panic.

Definition bufs_left {E} (written : nat) (header body : bytes)
    : outcome E (bytes * option bytes) :=
  if decide (written < length header) then
    let right := if decide (body = []) then None else Some body in
    l ← slice_from header written; mret (l, right)
  else
    let offset := written - length header in
    l ← slice_from body offset; mret (l, None).

(** The methods of [RawOut]. *)
Definition to_write (self : RawOut) : nat :=
  length (header self) + length (out_body self) - written self.

Definition done (self : RawOut) : bool := bool_decide (to_write self = 0).

Definition out_bufs_left {E} (self : RawOut) : outcome E (bytes * option bytes) :=
  bufs_left (written self) (header self) (out_body self).

Definition set_written (self : RawOut) (n : nat) : RawOut :=
  MkOut n (header self) (out_body self) (fds self).

(** [out.written == 0 && !out.fds.is_empty()]: the descriptors still have to go with
    the first byte. *)
Definition blocked (o : RawOut) : Prop := written o = 0 ∧ fds o ≠ [].

#[export] Instance blocked_dec o : Decision (blocked o).
Proof. unfold blocked. apply _. Defined.

(** [advance]: the updated message and what is left of [adv]. *)
Definition advance (self : RawOut) (adv : nat) : RawOut * nat :=
  let first_rem := length (header self) - written self in
  let '(self, adv) :=
    if decide (0 < first_rem) then
      let to_adv := Nat.min first_rem adv in
      (set_written self (written self + to_adv), adv - to_adv)
    else (self, adv) in
  if decide (adv = 0) then (self, 0) else
  let second_rem := to_write self in
  if decide (0 < second_rem) then
    let to_adv := Nat.min second_rem adv in
    (set_written self (written self + to_adv), adv - to_adv)
  else (self, adv).

(** [SocketAncillary]: the size of its buffer, the bytes used, the descriptors in
    it; [CMSG_SPACE] is a macro of libc. *)
Record SocketAncillary := MkAnc {
  anc_capacity : nat;
  anc_length : nat;
  anc_fds : list Fd;
}.

Definition anc_new : SocketAncillary := MkAnc 256 0 [].

Section sender.
Context (cmsg_space : nat → nat).

(** [SocketAncillary::add_fds]: [None] when the buffer is too small. *)
Definition add_fds (anc : SocketAncillary) (l : list Fd) : option SocketAncillary :=
  let new_length := cmsg_space (4 * length l) + anc_length anc in
  if decide (anc_capacity anc < new_length) then None
  else Some (MkAnc (anc_capacity anc) new_length (anc_fds anc ++ l)).

(** The tail of [populate]'s loop body: push the bytes left of one message. *)
Definition push_bufs (cap : nat) (ios : list bytes) (bufs : bytes * option bytes) : list bytes :=
  let ios := ios ++ [bufs.1] in
  match bufs.2, bool_decide (length ios = cap) with
  | Some buf1, false => ios ++ [buf1]
  | _, _ => ios
  end.

Fixpoint populate {E} (cap : nat) (queue : list RawOut) (ios : list bytes)
    (anc : SocketAncillary) : outcome E (list bytes * SocketAncillary) :=
  match queue with
  | [] => Ok (ios, anc)
  | out :: queue' =>
      if decide (length ios = cap) then Ok (ios, anc) else
      if decide (blocked out) then
        if decide (ios = []) then
          anc ← unwrap (add_fds anc (fds out));
          bufs ← out_bufs_left out;
          populate cap queue' (push_bufs cap ios bufs) anc
        else Ok (ios, anc)
      else
        bufs ← out_bufs_left out;
        populate cap queue' (push_bufs cap ios bufs) anc
  end.

Fixpoint update_written (queue : list RawOut) (written : nat) : list RawOut * nat :=
  match queue with
  | [] => ([], written)
  | out :: queue' =>
      let '(out, written) := advance out written in
      if decide (written = 0) then
        if done out then (queue', written) else (out :: queue', written)
      else update_written queue' written
  end.

Definition current_idx (self : SendState) : nat := idx self - length (queue self).

Definition set_queue (self : SendState) (q : list RawOut) : SendState :=
  MkSend (with_fd self) (idx self) q.

(** One accepted write: [n] of the bytes, and the descriptors with the first. *)
Definition wire_add (w : Wire) (ios : list bytes) (anc : SocketAncillary) (n : nat) : Wire :=
  MkWire (w_bytes w ++ take n (mjoin ios))
    (if decide (n = 0 ∨ anc_fds anc = []) then w_fds w
     else w_fds w ++ [(length (w_bytes w), anc_fds anc)]).

Context (dbg : bool).

(** [finish_sending_next]: the result, the state, the wire and the answers left. *)
Fixpoint finish_sending_next (self : SendState) (answers : list answer) (w : Wire)
    : io_result nat * SendState * Wire :=
  if decide (queue self = []) then (Ok (current_idx self), self, w) else
  match populate 32 (queue self) [] anc_new with
  | Ok (ios, anc) =>
      match answers with
      | Took n :: answers' =>
          let written := Nat.min n (length (mjoin ios)) in
          let w := wire_add w ios anc written in
          let '(q, rest) := update_written (queue self) written in
          if dbg && negb (bool_decide (rest = 0)) then (Panic, set_queue self q, w) else
          finish_sending_next (set_queue self q) answers' w
      | [] | Fails WouldBlock :: _ => (Ok (current_idx self), self, w)
      | Fails e :: _ => (Err e, self, w)
      end
  | Err e => (Err e, self, w)
  | Panic => (Panic, self, w)
  end.

(** The vectored write of [write_next_message]: the queue, then the new message. *)
Definition fill_write {E} (queue : list RawOut) (out : RawOut)
    : outcome E (list bytes * SocketAncillary) :=
  '(ios, anc) ← populate 34 queue [] anc_new;
  if decide (length ios ≠ 34 ∧ (fds out = [] ∨ ios = [])) then
    bufs ← out_bufs_left out;
    anc ← (if decide (blocked out) then unwrap (add_fds anc (fds out))
           else Ok anc);
    mret (push_bufs 34 ios bufs, anc)
  else mret (ios, anc).

(** Its loop; [needed] is the size of the new message. *)
Fixpoint write_loop (self : SendState) (out : RawOut) (answers : list answer) (w : Wire)
    : io_result (option nat) * SendState * Wire :=
  let needed := length (header out) + length (out_body out) in
  match fill_write (queue self) out with
  | Ok (ios, anc) =>
      match answers with
      | Took n :: answers' =>
          let sent := Nat.min n (length (mjoin ios)) in
          let w := wire_add w ios anc sent in
          let '(q, rest) := update_written (queue self) sent in
          if decide (rest = 0) then write_loop (set_queue self q) out answers' w else
          let out := set_written out (written out + rest) in
          if decide (written out = needed) then (Ok None, set_queue self q, w) else
          if dbg && negb (bool_decide (written out < needed)) then (Panic, set_queue self q, w) else
          write_loop (set_queue self q) out answers' w
      | [] | Fails WouldBlock :: _ =>
          (Ok (Some (idx self)), MkSend (with_fd self) (S (idx self)) (queue self ++ [out]), w)
      | Fails e :: _ => (Err e, self, w)
      end
  | Err e => (Err e, self, w)
  | Panic => (Panic, self, w)
  end.

(** [UnixFd::dup] of rustbus: the new descriptor, unless it was taken already. *)
Context `{WireLib} (dup : Fd → option Fd).

Definition write_next_message (self : SendState) (msg : MarshalledMessage) (serial : N)
    (answers : list answer) (w : Wire) : io_result (option nat) * SendState * Wire :=
  match marshal_header dbg msg serial with
  | Panic => (Panic, self, w)
  | Err _ => (Err InvalidInput, self, w)
  | Ok hdr =>
      let msg_fds := raw_fds (m_body msg) in
      if decide ((with_fd self = false ∧ msg_fds ≠ []) ∨ DBUS_MAX_FD_MESSAGE < length msg_fds)
      then (Err InvalidInput, self, w) else
      match mapM dup msg_fds with
      | None => (Err InvalidData, self, w)
      | Some new_fds =>
          write_loop self (MkOut 0 hdr (buf (m_body msg)) new_fds) answers w
      end
  end.
End sender.

(** ** What is left to send *)

Definition remaining (o : RawOut) : bytes := drop (written o) (header o ++ out_body o).

Definition pending (q : list RawOut) : bytes := mjoin (map remaining q).

(** A queued message is not complete, and its descriptors fit one write. *)
Definition out_ok (o : RawOut) : Prop :=
  written o < length (header o) + length (out_body o) ∧ length (fds o) ≤ DBUS_MAX_FD_MESSAGE.

(** The messages before the first that cannot share a write with those ahead. *)
Fixpoint unblocked (q : list RawOut) : list RawOut :=
  match q with
  | [] => []
  | o :: q' => if decide (blocked o) then [] else o :: unblocked q'
  end.

(** The descriptors still to send, each with the offset of its message when the
    queue starts at [off]. *)
Fixpoint fd_trace (off : nat) (q : list RawOut) : list (nat * list Fd) :=
  match q with
  | [] => []
  | o :: q' =>
      (if decide (blocked o) then [(off, fds o)] else []) ++ fd_trace (off + to_write o) q'
  end.

Lemma length_remaining o : length (remaining o) = to_write o.
Proof. unfold remaining, to_write. rewrite length_drop, length_app. lia. Qed.

Lemma pending_cons o q : pending (o :: q) = remaining o ++ pending q.
Proof. done. Qed.

Lemma pending_app q q' : pending (q ++ q') = pending q ++ pending q'.
Proof. unfold pending. by rewrite map_app, mjoin_app. Qed.

Lemma set_written_same o : set_written o (written o) = o.
Proof. by destruct o. Qed.

Lemma remaining_advance o n : remaining (set_written o (written o + n)) = drop n (remaining o).
Proof. unfold remaining. cbn. by rewrite drop_drop. Qed.

Lemma advance_spec o n :
  out_ok o →
  advance o n = (set_written o (written o + Nat.min n (to_write o)), n - to_write o).
Proof.
  intros [Ho _]. unfold advance, to_write.
  assert (∀ a b (m m' : nat), a = b → m = m' → (set_written o a, m) = (set_written o b, m')) as Heq
    by (by intros ? ? ? ? -> ->).
  repeat case_decide; cbn [written set_written header out_body] in *; try lia;
    try (apply Heq; lia).
  subst. rewrite Nat.min_0_l, Nat.add_0_r. by destruct o.
Qed.

Lemma update_written_cons o q n :
  out_ok o →
  update_written (o :: q) n =
    if decide (n < to_write o) then (set_written o (written o + n) :: q, 0)
    else if decide (n = to_write o) then (q, 0)
    else update_written q (n - to_write o).
Proof.
  intros Ho. cbn [update_written]. rewrite advance_spec by done.
  assert (0 < to_write o) by (unfold to_write; destruct Ho; lia).
  unfold done. assert (to_write (set_written o (written o + Nat.min n (to_write o))) =
    to_write o - n) as -> by (unfold to_write; cbn; lia).
  case_decide as H1; case_decide as H2.
  - rewrite bool_decide_eq_false_2 by lia. f_equal; [|lia]. do 2 f_equal. lia.
  - rewrite bool_decide_eq_true_2, decide_True by lia. f_equal. lia.
  - lia.
  - by rewrite decide_False by lia.
Qed.

(** What identifies a message while it is sent. *)
Definition out_msg (o : RawOut) : bytes * bytes * list Fd := (header o, out_body o, fds o).

(** [update_written] accounts for the bytes taken, from the front of the queue. *)
Lemma update_written_spec q n :
  Forall out_ok q →
  pending (update_written q n).1 = drop n (pending q) ∧
  (update_written q n).2 = n - length (pending q) ∧
  Forall out_ok (update_written q n).1 ∧
  ∃ p, p ≤ length q ∧ map out_msg (update_written q n).1 = drop p (map out_msg q).
Proof.
  intros Hq. revert n. induction Hq as [|o q Ho Hq IH]; intros n.
  - cbn. rewrite drop_nil, Nat.sub_0_r. split_and!; [done..|by exists 0].
  - rewrite update_written_cons, pending_cons, length_app, length_remaining by done.
    repeat case_decide; cbn [fst snd].
    + split_and!.
      * rewrite pending_cons, remaining_advance, drop_app_le by (rewrite length_remaining; lia). done.
      * lia.
      * constructor; [|done]. destruct Ho. split; [|done]. unfold to_write in *. cbn. lia.
      * exists 0. split; [lia|done].
    + split_and!; [|lia|done|exists 1; split; [cbn; lia|done]].
      subst. rewrite <- length_remaining. by rewrite drop_app_length.
    + destruct (IH (n - to_write o)) as (H1 & H2 & H3 & p & Hp & H4). split_and!.
      * rewrite H1, drop_app_ge by (rewrite length_remaining; lia). by rewrite length_remaining.
      * rewrite H2. lia.
      * done.
      * exists (S p). split; [cbn; lia|done].
Qed.

Lemma not_blocked_advance o n :
  0 < n → ¬ blocked (set_written o (written o + n)).
Proof. intros Hn [Hw _]. cbn in Hw. lia. Qed.

Lemma update_written_zero q : Forall out_ok q → update_written q 0 = (q, 0).
Proof.
  intros [|o q' Ho _]; [done|]. rewrite update_written_cons by done.
  rewrite decide_True by (unfold to_write; destruct Ho; lia).
  by rewrite Nat.add_0_r, set_written_same.
Qed.

(** Bytes of unblocked messages leave the descriptors of the others in place. *)
Lemma fd_trace_update off q n :
  Forall out_ok q → n ≤ length (pending (unblocked q)) →
  fd_trace (off + n) (update_written q n).1 = fd_trace off q.
Proof.
  intros Hq. revert off n. induction Hq as [|o q Ho Hq IH]; intros off n Hn; [done|].
  destruct (decide (n = 0)) as [->|Hn0].
  { by rewrite update_written_zero, Nat.add_0_r by by constructor. }
  cbn [unblocked] in Hn. rewrite update_written_cons by done. cbn [fd_trace].
  destruct (decide (blocked o)) as [Hb|Hb]; [cbn in Hn; lia|]. cbn [app].
  rewrite pending_cons, length_app, length_remaining in Hn.
  repeat case_decide; cbn [fst fd_trace].
  - rewrite decide_False by (apply not_blocked_advance; lia). cbn [app].
    f_equal. unfold to_write in *. cbn. lia.
  - by subst.
  - rewrite <- (IH (off + to_write o) (n - to_write o)) by lia. f_equal. lia.
Qed.

(** The same when the message in front is blocked: its descriptors are taken. *)
Lemma fd_trace_update_head off o q n :
  Forall out_ok (o :: q) → 0 < n → n ≤ length (remaining o ++ pending (unblocked q)) →
  (if decide (blocked o) then [(off, fds o)] else []) ++
    fd_trace (off + n) (update_written (o :: q) n).1 = fd_trace off (o :: q).
Proof.
  intros [Ho Hq]%Forall_cons Hn0 Hn. cbn [fd_trace]. f_equal.
  rewrite length_app, length_remaining in Hn. rewrite update_written_cons by done.
  repeat case_decide; cbn [fst fd_trace].
  - rewrite decide_False by (apply not_blocked_advance; lia). cbn [app].
    f_equal. unfold to_write in *. cbn. lia.
  - by subst.
  - rewrite <- (fd_trace_update (off + to_write o) q (n - to_write o)) by (done || lia).
    f_equal. lia.
Qed.

(** ** What a vectored write contains *)

Lemma out_bufs_left_spec {E} o :
  out_ok o →
  ∃ b0 b1, out_bufs_left (E:=E) o = Ok (b0, b1) ∧ b0 ≠ [] ∧ b0 ++ default [] b1 = remaining o.
Proof.
  intros [Ho _].
  assert (∀ l n, n < length l → slice_from (E:=E) l n = Ok (drop n l) ∧ drop n l ≠ [])
    as Hslice.
  { intros l n Hn. unfold slice_from. rewrite decide_True by lia. split; [done|].
    intros Hd. apply (f_equal length) in Hd. rewrite length_drop in Hd. cbn in Hd. lia. }
  unfold out_bufs_left, bufs_left, remaining. case_decide as Hw.
  - destruct (Hslice (header o) (written o)) as [-> Hne]; [lia|]. cbn [mbind outcome_bind].
    eexists _, _. split; [done|]. split; [done|].
    rewrite drop_app_le by lia. case_decide as Hb; cbn; [by rewrite Hb|done].
  - destruct (Hslice (out_body o) (written o - length (header o))) as [-> Hne]; [lia|].
    cbn [mbind outcome_bind]. eexists _, _. split; [done|]. split; [done|].
    cbn. rewrite app_nil_r, drop_app_ge by lia. done.
Qed.

(** Pushing one message's bytes on a write with room. *)
Lemma push_bufs_spec cap ios b0 b1 :
  length ios < cap →
  ∃ l, push_bufs cap ios (b0, b1) = ios ++ l ∧ l ≠ [] ∧
    mjoin (ios ++ l) `prefix_of` mjoin ios ++ b0 ++ default [] b1 ∧
    b0 `prefix_of` mjoin l ∧ length (ios ++ l) ≤ cap ∧
    (length (ios ++ l) ≠ cap → mjoin (ios ++ l) = mjoin ios ++ b0 ++ default [] b1).
Proof.
  intros Hlt. unfold push_bufs. cbn [fst snd].
  assert (mjoin [b0] = b0) as H0 by (cbn; by rewrite app_nil_r).
  assert (∀ b, mjoin [b0; b] = b0 ++ b) as H1 by (intros; cbn; by rewrite app_nil_r).
  destruct b1 as [b1|]; cbn [default]; [case_bool_decide as Hc|].
  - exists [b0]. split_and!; [done..| | | |].
    + rewrite mjoin_app, H0. apply prefix_app. by eexists.
    + by rewrite H0.
    + by rewrite Hc.
    + done.
  - exists [b0; b1]. rewrite <- app_assoc. split_and!; [done..| | | |].
    + by rewrite mjoin_app, H1.
    + rewrite H1. by eexists.
    + rewrite length_app in Hc. rewrite length_app. cbn [length] in *. lia.
    + intros _. by rewrite mjoin_app, H1.
  - exists [b0]. rewrite app_nil_r. split_and!; [done..| | | |].
    + by rewrite mjoin_app, H0.
    + by rewrite H0.
    + rewrite length_app. cbn. lia.
    + intros _. by rewrite mjoin_app, H0.
Qed.

Lemma push_bufs_length cap ios bufs : length (push_bufs cap ios bufs) ≤ 2 + length ios.
Proof.
  unfold push_bufs. repeat case_match; rewrite ?length_app; cbn [length]; lia.
Qed.

Section populate.
Context (cmsg_space : nat → nat)
  (Hspace : ∀ n, n ≤ DBUS_MAX_FD_MESSAGE → cmsg_space (4 * n) ≤ 256).

Lemma populate_full {E} cap q ios anc :
  length ios = cap → populate (E:=E) cmsg_space cap q ios anc = Ok (ios, anc).
Proof. intros Hl. destruct q; cbn; [done|]. by rewrite decide_True. Qed.

Lemma populate_more {E} cap q ios anc :
  Forall out_ok q → ios ≠ [] → length ios ≤ cap →
  ∃ ios', populate (E:=E) cmsg_space cap q ios anc = Ok (ios', anc) ∧ ios' ≠ [] ∧
    mjoin ios `prefix_of` mjoin ios' ∧
    mjoin ios' `prefix_of` mjoin ios ++ pending (unblocked q) ∧ length ios' ≤ cap ∧
    (length ios' ≠ cap → mjoin ios' = mjoin ios ++ pending (unblocked q)).
Proof.
  intros Hq. revert ios. induction Hq as [|o q Ho Hq IH]; intros ios Hne Hlen.
  - exists ios. cbn. rewrite app_nil_r. split_and!; done.
  - cbn [populate unblocked]. case_decide as Hcap.
    + exists ios. split_and!; [done..|by eexists|done|done].
    + case_decide as Hb.
      * rewrite decide_False by done. exists ios.
        change (pending []) with (@nil u8). rewrite app_nil_r. split_and!; done.
      * destruct (out_bufs_left_spec (E:=E) o Ho) as (b0 & b1 & -> & Hb0 & Hrem).
        cbn [mbind outcome_bind].
        destruct (push_bufs_spec cap ios b0 b1) as (l & -> & Hl & Hpre & Hb0l & Hle & Hfull); [lia|].
        rewrite pending_cons. destruct (decide (length (ios ++ l) = cap)) as [Hf|Hf].
        -- exists (ios ++ l). rewrite populate_full by done. rewrite Hrem in Hpre.
           split_and!; [done|by intros [? ?]%app_nil| | |done|done].
           ++ rewrite mjoin_app. by eexists.
           ++ etrans; [exact Hpre|]. rewrite app_assoc. by eexists.
        -- destruct (IH (ios ++ l)) as (ios' & -> & Hne' & Hp1 & Hp2 & Hle' & Hfull');
             [by intros [? ?]%app_nil|done|].
           rewrite Hrem in Hfull. rewrite Hfull, <- app_assoc in Hp2, Hfull' by done.
           exists ios'. split_and!; [done..| |done|done|done].
           etrans; [|exact Hp1]. rewrite mjoin_app. by eexists.
Qed.

(** The write of a whole queue: never empty, and never past a blocked message. *)
Lemma populate_spec {E} cap o q :
  0 < cap → Forall out_ok (o :: q) →
  ∃ ios anc, populate (E:=E) cmsg_space cap (o :: q) [] anc_new = Ok (ios, anc) ∧
    anc_fds anc = (if decide (blocked o) then fds o else []) ∧
    mjoin ios ≠ [] ∧ ios ≠ [] ∧
    mjoin ios `prefix_of` remaining o ++ pending (unblocked q) ∧ length ios ≤ cap ∧
    (length ios ≠ cap → mjoin ios = remaining o ++ pending (unblocked q)).
Proof.
  intros Hcap [Ho Hq]%Forall_cons.
  assert (∃ anc, anc_fds anc = (if decide (blocked o) then fds o else []) ∧
    populate (E:=E) cmsg_space cap (o :: q) [] anc_new =
      bufs ← out_bufs_left o; populate cmsg_space cap q (push_bufs cap [] bufs) anc)
    as (anc & Hanc & ->).
  { cbn [populate]. destruct (decide (length (@nil bytes) = cap)) as [Hl|_]; [cbn in Hl; lia|].
    case_decide as Hb.
    - rewrite decide_True by done. unfold add_fds. cbn [anc_new anc_capacity anc_length].
      destruct Ho as [_ Hf]. pose proof (Hspace _ Hf). rewrite decide_False by lia.
      by eexists (MkAnc _ _ _).
    - by exists anc_new. }
  destruct (out_bufs_left_spec (E:=E) o Ho) as (b0 & b1 & -> & Hb0 & Hrem).
  cbn [mbind outcome_bind].
  destruct (push_bufs_spec cap [] b0 b1) as (l & -> & Hl & Hpre & Hb0l & Hle & Hfull); [done|].
  cbn [app] in *. rewrite Hrem in *.
  assert (mjoin l ≠ []) as Hlne by (intros Hn; rewrite Hn in Hb0l; by apply prefix_nil_inv in Hb0l).
  destruct (decide (length l = cap)) as [Hf|Hf].
  - exists l, anc. rewrite populate_full by done. split_and!; [done..| |done|done].
    etrans; [exact Hpre|]. by eexists.
  - destruct (populate_more (E:=E) cap q l anc Hq Hl Hle)
      as (ios' & -> & Hne' & Hp1 & Hp2 & Hle' & Hfull').
    rewrite Hfull in Hp2, Hfull' by done. exists ios', anc. split_and!; try done.
    intros Hn. rewrite Hn in Hp1. by apply prefix_nil_inv in Hp1.
Qed.
End populate.

(** ** Nothing is lost, repeated or reordered

    [trace w q]: what the peer has and will have received once [q] is written. *)

Definition trace (w : Wire) (q : list RawOut) : bytes * list (nat * list Fd) :=
  (w_bytes w ++ pending q, w_fds w ++ fd_trace (length (w_bytes w)) q).

(** One accepted write of the queue moves bytes and descriptors to the wire. *)
Lemma trace_step w o q ios anc n :
  Forall out_ok (o :: q) →
  anc_fds anc = (if decide (blocked o) then fds o else []) →
  mjoin ios `prefix_of` remaining o ++ pending (unblocked q) → n ≤ length (mjoin ios) →
  trace (wire_add w ios anc n) (update_written (o :: q) n).1 = trace w (o :: q) ∧
  (update_written (o :: q) n).2 = 0.
Proof.
  intros Hq Hanc Hpre Hn. pose proof (prefix_length _ _ Hpre) as Hlen.
  assert (pending (unblocked q) `prefix_of` pending q) as Hun.
  { clear. induction q as [|o q IH]; [done|]. cbn [unblocked]. case_decide.
    - apply prefix_nil.
    - rewrite !pending_cons. by apply prefix_app. }
  pose proof (prefix_length _ _ Hun). rewrite length_app in Hlen.
  destruct (update_written_spec (o :: q) n Hq) as (Hp & Hr & _).
  split; [|rewrite Hr, pending_cons, length_app; lia].
  unfold trace, wire_add. cbn [w_bytes w_fds]. f_equal.
  - rewrite Hp, <- app_assoc, pending_cons. f_equal.
    assert (take n (mjoin ios) = take n (remaining o ++ pending q)) as ->;
      [|apply take_drop].
    destruct Hpre as [x Hx]. destruct Hun as [y ->]. rewrite app_assoc, Hx, <- !app_assoc.
    by rewrite take_app_le by done.
  - rewrite length_app, length_take_le by done.
    destruct (decide (n = 0)) as [->|Hn0].
    + rewrite decide_True by auto. by rewrite update_written_zero, Nat.add_0_r.
    + pose proof (fd_trace_update_head (length (w_bytes w)) o q n Hq ltac:(lia)) as Hf.
      rewrite <- Hf by (rewrite length_app; lia). rewrite Hanc.
      destruct (decide (blocked o)) as [Hb|Hb].
      * rewrite decide_False by (destruct Hb; naive_solver). by rewrite <- app_assoc.
      * by rewrite decide_True by auto.
Qed.

Section finish.
Context (cmsg_space : nat → nat) (dbg : bool)
  (Hspace : ∀ n, n ≤ DBUS_MAX_FD_MESSAGE → cmsg_space (4 * n) ≤ 256).

(** The state after draining: the same messages, less the finished ones in front. *)
Definition drained (self self' : SendState) : Prop :=
  Forall out_ok (queue self') ∧ idx self' = idx self ∧ with_fd self' = with_fd self ∧
  ∃ p, p ≤ length (queue self) ∧
    map out_msg (queue self') = drop p (map out_msg (queue self)).

Lemma drained_refl self : Forall out_ok (queue self) → drained self self.
Proof. intros. split_and!; [done..|]. exists 0. split; [lia|done]. Qed.

Lemma drained_trans s1 s2 s3 : drained s1 s2 → drained s2 s3 → drained s1 s3.
Proof.
  intros (_ & Hi1 & Hw1 & p1 & Hp1 & H1) (Ho & Hi2 & Hw2 & p2 & Hp2 & H2).
  split_and!; [done|congruence|congruence|].
  exists (p1 + p2). apply (f_equal length) in H1 as Hl.
  rewrite length_drop, !length_map in Hl. split; [lia|]. by rewrite H2, H1, drop_drop.
Qed.

Lemma drained_update self n :
  Forall out_ok (queue self) →
  drained self (set_queue self (update_written (queue self) n).1).
Proof.
  intros Hq. destruct (update_written_spec (queue self) n Hq) as (_ & _ & Ho & Hp). done.
Qed.

Lemma finish_sending_next_spec self answers w :
  Forall out_ok (queue self) →
  ∃ r self' w', finish_sending_next cmsg_space dbg self answers w = (r, self', w') ∧
    trace w' (queue self') = trace w (queue self) ∧ drained self self' ∧
    match r with
    | Ok i => i = current_idx self'
    | Err e => e ≠ WouldBlock ∧ Fails e ∈ answers
    | Panic => False
    end.
Proof.
  revert self w. induction answers as [|a answers IH]; intros self w Hq;
    cbn [finish_sending_next];
    (destruct (decide (queue self = [])) as [Hq0|Hq0];
      [eexists _, _, _; split; [done|]; split; [done|]; split; [by apply drained_refl|done]|]);
    (destruct (queue self) as [|o q] eqn:Hqq; [done|]);
    destruct (populate_spec cmsg_space Hspace (E:=ErrorKind) 32 o q ltac:(lia) Hq)
      as (ios & anc & -> & Hanc & _ & _ & Hpre & _); rewrite <- Hqq in Hq.
  - eexists _, _, _. split; [done|]. rewrite Hqq. split; [done|].
    split; [by apply drained_refl|done].
  - destruct a as [n|e].
    + pose proof (trace_step w o q ios anc (Nat.min n (length (mjoin ios)))) as Hstep.
      rewrite <- Hqq in Hstep |- *. destruct Hstep as [Ht Hr]; [done..|lia|].
      pose proof (drained_update self (Nat.min n (length (mjoin ios))) Hq) as Hd.
      destruct (update_written (queue self) _) as [q' rest]. cbn [fst snd] in *. subst rest.
      rewrite bool_decide_eq_true_2, andb_false_r by done.
      destruct (IH (set_queue self q') (wire_add w ios anc (Nat.min n (length (mjoin ios)))))
        as (r & self' & w' & -> & Ht' & Hd' & Hres); [apply Hd|].
      eexists _, _, _. split; [done|]. split; [by rewrite Ht', <- Ht|].
      split; [by eapply drained_trans|]. destruct r; [done| |done].
      destruct Hres. split; [done|by right].
    + pose proof (drained_refl self Hq) as Hd.
      destruct e; (eexists _, _, _; split; [done|]; rewrite Hqq; split; [done|];
        split; [exact Hd|]); first [done|split; [done|by left]].
Qed.

(** draining the send queue keeps the stream intact.  Whatever the socket
    answers, [finish_sending_next] does not panic; the bytes on the wire followed by
    the bytes still queued, and the descriptors with their positions, are the same
    before and after; and its result is the index below which all messages are out. *)
Theorem finish_sending_next_integrity self answers w :
  Forall out_ok (queue self) →
  ∃ r self' w', finish_sending_next cmsg_space dbg self answers w = (r, self', w') ∧
    trace w' (queue self') = trace w (queue self) ∧ drained self self' ∧
    match r with
    | Ok i => i = current_idx self'
    | Err e => e ≠ WouldBlock ∧ Fails e ∈ answers
    | Panic => False
    end.
Proof. apply finish_sending_next_spec. Qed.

Lemma finish_sending_next_empties self answers w :
  Forall out_ok (queue self) → Forall (λ a, ∃ n, a = Took (S n)) answers →
  length (pending (queue self)) ≤ length answers →
  ∃ self' w', finish_sending_next cmsg_space dbg self answers w = (Ok (idx self), self', w') ∧
    queue self' = [] ∧ w_bytes w' = w_bytes w ++ pending (queue self).
Proof.
  intros Hq Hans. revert self w Hq.
  induction Hans as [|a answers [n ->] Hans IH]; intros self w Hq Hlen; cbn [finish_sending_next];
    (destruct (decide (queue self = [])) as [Hq0|Hq0];
      [eexists _, _; unfold current_idx; rewrite Hq0, app_nil_r; cbn; rewrite Nat.sub_0_r;
       by split_and!|]);
    (destruct (queue self) as [|o q] eqn:Hqq; [done|]).
  - apply Forall_cons in Hq as [[Ho _] _]. cbn [length] in Hlen.
    rewrite pending_cons, length_app, length_remaining in Hlen. unfold to_write in Hlen. lia.
  - destruct (populate_spec cmsg_space Hspace (E:=ErrorKind) 32 o q ltac:(lia) Hq)
      as (ios & anc & -> & Hanc & Hne & _ & Hpre & _).
    pose proof (trace_step w o q ios anc (Nat.min (S n) (length (mjoin ios)))) as Hstep.
    destruct Hstep as [Ht Hr]; [done..|lia|].
    destruct (update_written_spec (o :: q) (Nat.min (S n) (length (mjoin ios))) Hq)
      as (Hp & _ & Hok & _).
    destruct (update_written (o :: q) _) as [q' rest]. cbn [fst snd] in *. subst rest.
    rewrite bool_decide_eq_true_2, andb_false_r by done.
    destruct (IH (set_queue self q') (wire_add w ios anc (Nat.min (S n) (length (mjoin ios)))))
      as (self' & w' & -> & Hemp & Hw); [done| |].
    { cbn [queue set_queue]. rewrite Hp, length_drop. cbn [length] in Hlen.
      assert (length (mjoin ios) ≠ 0) by (by intros ?%length_zero_iff_nil). lia. }
    eexists _, _. split; [done|]. split; [done|].
    rewrite Hw. apply (f_equal fst) in Ht. exact Ht.
Qed.

(** draining makes progress.  When the socket takes at least a byte at each
    call, as many calls as there are bytes queued empty the queue: everything has
    been written and all the messages are reported out. *)
Theorem finish_sending_next_drains self answers w :
  Forall out_ok (queue self) → Forall (λ a, ∃ n, a = Took (S n)) answers →
  length (pending (queue self)) ≤ length answers →
  ∃ self' w', finish_sending_next cmsg_space dbg self answers w = (Ok (idx self), self', w') ∧
    queue self' = [] ∧ w_bytes w' = w_bytes w ++ pending (queue self).
Proof. apply finish_sending_next_empties. Qed.
End finish.

(** ** Writing a new message *)

Lemma update_written_app q1 q2 n :
  Forall out_ok q1 → Forall out_ok q2 →
  update_written (q1 ++ q2) n =
    if decide ((update_written q1 n).2 = 0) then ((update_written q1 n).1 ++ q2, 0)
    else update_written q2 (update_written q1 n).2.
Proof.
  intros H1 H2. revert n. induction H1 as [|o q1 Ho H1 IH]; intros n; cbn [app].
  - cbn. case_decide as Hn; [|done]. subst. by apply update_written_zero.
  - rewrite !update_written_cons by done. repeat (case_decide; cbn [fst snd] in *); try done.
    + rewrite IH. by case_decide.
    + rewrite IH. by case_decide.
Qed.

Lemma pending_nil q : Forall out_ok q → pending q = [] → q = [].
Proof.
  intros [|o q' [Ho _] _]; [done|]. rewrite pending_cons. intros Hp.
  apply (f_equal length) in Hp. rewrite length_app, length_remaining in Hp.
  unfold to_write in Hp. cbn in Hp. lia.
Qed.

(** Bytes are left over only when the whole queue is written. *)
Lemma update_written_rest q n :
  Forall out_ok q → (update_written q n).2 ≠ 0 → (update_written q n).1 = [].
Proof.
  intros Hq Hr. destruct (update_written_spec q n Hq) as (Hp & Hn & Hok & _).
  apply pending_nil; [done|]. rewrite Hp. apply drop_ge. lia.
Qed.

(** Descriptors still to send in front of the queue only. *)
Definition no_barrier (q : list RawOut) : Prop := Forall (λ o, ¬ blocked o) (tail q).

Lemma no_barrier_update q n :
  Forall out_ok q → no_barrier q → no_barrier (update_written q n).1.
Proof.
  intros Hq. revert n. induction Hq as [|o q Ho Hq IH]; intros n Hb; [done|].
  rewrite update_written_cons by done. unfold no_barrier in *. cbn [tail] in Hb.
  assert (Forall (λ o, ¬ blocked o) (tail q)) by (destruct Hb; [constructor|done]).
  repeat case_decide; [done|done|]. by apply IH.
Qed.

Lemma unblocked_all q : Forall (λ o, ¬ blocked o) q → unblocked q = q.
Proof. induction 1; cbn; [done|]. rewrite decide_False by done. by f_equal. Qed.

Lemma unblocked_prefix q o : pending (unblocked q) `prefix_of` pending (unblocked (q ++ [o])).
Proof.
  induction q as [|o' q IH]; cbn [unblocked app]; [apply prefix_nil|].
  case_decide; [done|]. rewrite !pending_cons. by apply prefix_app.
Qed.

Lemma no_barrier_app q o : no_barrier q → (q ≠ [] → ¬ blocked o) → no_barrier (q ++ [o]).
Proof.
  unfold no_barrier. destruct q as [|o' q']; cbn; [done|]. intros Hq Ho.
  apply Forall_app_2; [done|]. constructor; [by apply Ho|done].
Qed.

Definition no_fds (o : RawOut) : Prop := fds o = [].

Lemma no_fds_msgs q q' :
  (∀ m, m ∈ map out_msg q' → m ∈ map out_msg q) → Forall no_fds q → Forall no_fds q'.
Proof.
  rewrite !Forall_forall. intros Hsub Hq o Ho.
  assert (out_msg o ∈ map out_msg q') as Hin by (apply list_elem_of_fmap; by exists o).
  apply Hsub in Hin. apply list_elem_of_fmap in Hin as (o' & Heq & Ho').
  apply Hq in Ho'. unfold out_msg, no_fds in *. congruence.
Qed.

Lemma no_fds_drained s s' : drained s s' → Forall no_fds (queue s) → Forall no_fds (queue s').
Proof.
  intros (_ & _ & _ & p & _ & Hm). apply no_fds_msgs. intros m. rewrite Hm.
  rewrite <- (take_drop p (map out_msg (queue s))) at 2. rewrite elem_of_app. by right.
Qed.

Lemma no_fds_barrier q : Forall no_fds q → no_barrier q.
Proof.
  unfold no_barrier. intros Hq. assert (Forall no_fds (tail q)) as Ht by (destruct Hq; [constructor|done]).
  eapply Forall_impl; [exact Ht|]. intros o Ho [_ Hb]. done.
Qed.

(** Sockets that take bytes or are not ready. *)
Definition soft (a : answer) : Prop := match a with Took _ => True | Fails e => e = WouldBlock end.

Lemma soft_no_error e answers : Forall soft answers → e ≠ WouldBlock → Fails e ∉ answers.
Proof. rewrite Forall_forall. intros Hs He Hin. by apply He, (Hs _ Hin). Qed.

Section write.
Context (cmsg_space : nat → nat) (dbg : bool)
  (Hspace : ∀ n, n ≤ DBUS_MAX_FD_MESSAGE → cmsg_space (4 * n) ≤ 256).

(** The write of a queue and a new message is one of the queue with the message at
    its end, if a message without descriptors waits behind no barrier. *)
Lemma fill_write_spec {E} q out :
  Forall out_ok (q ++ [out]) → (fds out = [] → no_barrier q) →
  ∃ o Q ios anc, q ++ [out] = o :: Q ∧ fill_write (E:=E) cmsg_space q out = Ok (ios, anc) ∧
    anc_fds anc = (if decide (blocked o) then fds o else []) ∧ mjoin ios ≠ [] ∧
    mjoin ios `prefix_of` remaining o ++ pending (unblocked Q).
Proof.
  intros [Hq [Hout _]%Forall_cons]%Forall_app Hbar. unfold fill_write.
  destruct (out_bufs_left_spec (E:=E) out Hout) as (b0 & b1 & Hbufs & Hb0 & Hrem).
  destruct q as [|o q].
  - cbn [populate mbind outcome_bind app]. rewrite decide_True by (split; auto).
    rewrite Hbufs. cbn [mbind outcome_bind].
    destruct (push_bufs_spec 34 [] b0 b1) as (l & -> & Hl & Hpre & Hb0l & _); [cbn; lia|].
    assert (∃ anc, anc_fds anc = (if decide (blocked out) then fds out else []) ∧
      (if decide (blocked out) then unwrap (add_fds cmsg_space anc_new (fds out)) else Ok anc_new)
        = Ok (E:=E) anc) as (anc & Hanc & ->).
    { case_decide as Hb; [|by exists anc_new]. unfold add_fds.
      cbn [anc_new anc_capacity anc_length]. destruct Hout as [_ Hf]. pose proof (Hspace _ Hf).
      rewrite decide_False by lia. by eexists (MkAnc _ _ _). }
    cbn [mbind outcome_bind app] in *. exists out, [], l, anc. rewrite Hrem in Hpre.
    split_and!; try done.
    + intros Hn. rewrite Hn in Hb0l. by apply prefix_nil_inv in Hb0l.
    + etrans; [exact Hpre|]. by eexists.
  - destruct (populate_spec cmsg_space Hspace (E:=E) 34 o q ltac:(lia) Hq)
      as (ios & anc & -> & Hanc & Hne & Hios & Hpre & Hle & Hfull).
    cbn [mbind outcome_bind app]. exists o, (q ++ [out]).
    destruct (decide (length ios ≠ 34 ∧ (fds out = [] ∨ ios = []))) as [Hc|Hc].
    + destruct Hc as [Hlen Hor]. assert (fds out = []) as Hfds by (destruct Hor; done).
      rewrite Hbufs. cbn [mbind outcome_bind].
      destruct (decide (blocked out)) as [Hbl|Hbl]; [by destruct Hbl|].
      cbn [mbind outcome_bind].
      assert (length ios < 34) as Hlt by lia.
      destruct (push_bufs_spec 34 ios b0 b1) as (l & -> & Hl & Hpre' & _); [done|].
      eexists (ios ++ l), anc. split_and!; [done..| |].
      * rewrite mjoin_app. by intros [? ?]%app_nil.
      * etrans; [exact Hpre'|]. rewrite Hrem, (Hfull Hlen), <- app_assoc.
        rewrite !unblocked_all.
        -- by rewrite pending_app, pending_cons, app_nil_r.
        -- apply Forall_app_2; [exact (Hbar Hfds)|by constructor].
        -- exact (Hbar Hfds).
    + exists ios, anc. split_and!; [done..|]. etrans; [exact Hpre|].
      apply prefix_app, unblocked_prefix.
Qed.

(** What a write leaves: the queue drained, and the new message written entirely or
    put at the back with the bytes already taken counted. *)
Definition written_or_queued (self : SendState) (out : RawOut) (r : io_result (option nat))
    (self' : SendState) : Prop :=
  match r with
  | Ok None => queue self' = [] ∧ idx self' = idx self ∧ with_fd self' = with_fd self
  | Ok (Some i) => i = idx self ∧ idx self' = S i ∧
      ∃ s out', drained self s ∧ queue self' = queue s ++ [out'] ∧ out_msg out' = out_msg out ∧
        Forall out_ok (queue self') ∧ with_fd self' = with_fd self
  | _ => True
  end.

Lemma written_or_queued_drained s1 s2 out out' r s3 :
  drained s1 s2 → out_msg out' = out_msg out →
  written_or_queued s2 out' r s3 → written_or_queued s1 out r s3.
Proof.
  intros Hd Hm. pose proof Hd as (_ & Hi & Hw & _). destruct r as [[i|]| |]; cbn; [|intros (? & ? & ?); by rewrite <- Hi, <- Hw|done|done].
  rewrite Hi, Hw. intros (-> & Hi' & s & o & Hs & Hq & Hm' & Hok & Hw'). split_and!; [done..|].
  exists s, o. split_and!; [by eapply drained_trans|done|congruence|done|done].
Qed.

Lemma write_loop_spec self out answers w :
  Forall out_ok (queue self ++ [out]) → (fds out = [] → no_barrier (queue self)) →
  ∃ r self' w', write_loop cmsg_space dbg self out answers w = (r, self', w') ∧
    written_or_queued self out r self' ∧
    match r with
    | Ok _ => trace w' (queue self') = trace w (queue self ++ [out])
    | Err e => e ≠ WouldBlock ∧ Fails e ∈ answers ∧
        ∃ k, trace w' (queue self' ++ [set_written out k]) = trace w (queue self ++ [out])
    | Panic => False
    end.
Proof.
  revert self out w. induction answers as [|a answers IH]; intros self out w Hok Hbar;
    cbn [write_loop];
    destruct (fill_write_spec (E:=ErrorKind) (queue self) out Hok Hbar)
      as (o & Q & ios & anc & HQ & -> & Hanc & Hne & Hpre); cbv zeta;
    pose proof Hok as [Hq [Hout _]%Forall_cons]%Forall_app.
  - eexists _, _, _. split; [done|]. cbn. split; [|done]. split_and!; [done..|].
    exists self, out. by split_and!; [apply drained_refl|..].
  - destruct a as [n|e].
    2:{ assert (∃ s out', drained self s ∧ queue self ++ [out] = queue s ++ [out'] ∧
          out_msg out' = out_msg out ∧ Forall out_ok (queue self ++ [out]) ∧
          with_fd self = with_fd self)
          by (exists self, out; by split_and!; [apply drained_refl|..]).
        destruct e; (eexists _, _, _; split; [done|]); cbn;
          first [by split_and!|split; [done|]; split; [done|]; split; [by left|]];
          exists (written out); by destruct out. }
    remember (Nat.min n (length (mjoin ios))) as sent eqn:Hsent.
    destruct (trace_step w o Q ios anc sent) as [Ht Hr]; [by rewrite <- HQ|done|done|lia|].
    rewrite <- HQ in Ht, Hr. rewrite update_written_app in Ht, Hr by (done || by constructor).
    pose proof (drained_update self sent Hq) as Hd.
    pose proof (update_written_rest (queue self) sent Hq) as Hrest.
    pose proof (no_barrier_update (queue self) sent Hq) as Hnb.
    destruct (update_written (queue self) sent) as [q' rest]. cbn [fst snd] in *.
    destruct (decide (rest = 0)) as [->|Hr0].
    + destruct (IH (set_queue self q') out (wire_add w ios anc sent)) as (r & self' & w' & -> & Hwq & Hres).
      { cbn. apply Forall_app_2; [apply Hd|by constructor]. }
      { auto. }
      eexists _, _, _. split; [done|]. split; [by eapply written_or_queued_drained|].
      destruct r; [by rewrite Hres| |done]. destruct Hres as (? & ? & k & Hk).
      split_and!; [done|by right|]. exists k. by rewrite Hk.
    + specialize (Hrest Hr0). subst q'. rewrite update_written_cons in Ht, Hr by done.
      unfold to_write in Ht, Hr.
      destruct (decide (rest < _)) as [Hlt|Hge]; [|destruct (decide (rest = _)) as [Heq|Hne']].
      * rewrite decide_False by (cbn; lia). rewrite bool_decide_eq_true_2 by (cbn; lia).
        rewrite andb_false_r.
        destruct (IH (set_queue self []) (set_written out (written out + rest))
          (wire_add w ios anc sent)) as (r & self' & w' & -> & Hwq & Hres).
        { cbn. constructor; [|done]. destruct Hout. split; [cbn; lia|done]. }
        { intros _. constructor. }
        eexists _, _, _. split; [done|].
        split; [by eapply written_or_queued_drained|].
        destruct r; [by rewrite Hres| |done]. destruct Hres as (? & ? & k & Hk).
        split_and!; [done|by right|]. exists k. change (set_written out k) with
          (set_written (set_written out (written out + rest)) k). by rewrite Hk.
      * rewrite decide_True by (cbn; destruct Hout; lia).
        eexists _, _, _. split; [done|]. cbn. split; [done|exact Ht].
      * cbn in Hr. lia.
Qed.

(** A message without descriptors is put in the write although the queue's descriptors
    stopped it. *)
Lemma fill_write_behind_barrier {E} a f hdr body :
  out_ok a → blocked f → ¬ blocked a → 0 < length hdr →
  let out := MkOut 0 hdr body [] in
  ∃ ios rest, fill_write (E:=E) cmsg_space [a; f] out = Ok (ios, anc_new) ∧
    mjoin ios = remaining a ++ hdr ++ rest.
Proof.
  intros Ha Hbf Hba Hh out. unfold fill_write. cbn [populate length].
  destruct (out_bufs_left_spec (E:=E) a Ha) as (b0 & b1 & -> & Hb0 & Hrem).
  destruct (decide (0 = 34)) as [|_]; [done|].
  destruct (decide (blocked a)) as [|_]; [done|]. cbn [mbind outcome_bind].
  destruct (push_bufs_spec 34 [] b0 b1) as (l & Hl & Hlne & _ & _ & _ & Hfull); [cbn; lia|].
  assert (length l ≤ 2) as Hl2.
  { pose proof (push_bufs_length 34 [] (b0, b1)) as Hle. rewrite Hl in Hle. exact Hle. }
  rewrite Hl. cbn [app] in Hfull |- *.
  destruct (decide (length l = 34)) as [|_]; [lia|].
  destruct (decide (blocked f)) as [_|]; [|done].
  destruct (decide (l = [])) as [|_]; [done|]. cbn [mbind outcome_bind].
  destruct (decide (length l ≠ 34 ∧ (fds out = [] ∨ l = []))) as [_|Hn];
    [|exfalso; apply Hn; split; [lia|by left]].
  assert (out_bufs_left (E:=E) out =
    Ok (hdr, if decide (body = []) then None else Some (body))) as ->.
  { unfold out_bufs_left, bufs_left. cbn [written header out_body out].
    destruct (decide (0 < length hdr)) as [_|]; [|lia]. unfold slice_from.
    destruct (decide (0 ≤ length hdr)) as [_|]; [done|lia]. }
  cbn [mbind outcome_bind].
  destruct (decide (blocked out)) as [[]|_]; [done|]. cbn [mbind outcome_bind].
  set (b1' := if decide (body = []) then None else Some (body)).
  eexists _, _. split; [done|].
  destruct (push_bufs_spec 34 l hdr b1') as (l' & Hl' & _ & _ & _ & _ & Hfull'); [lia|].
  assert (length (l ++ l') ≤ 4) as Hl4.
  { pose proof (push_bufs_length 34 l (hdr, b1')) as Hle. rewrite Hl' in Hle. lia. }
  rewrite Hl', Hfull', Hfull by lia. rewrite Hrem, <- app_assoc. done.
Qed.

Context `{WireLib} (dup : Fd → option Fd).

Lemma write_next_message_spec self msg serial hdr new_fds answers w :
  Forall out_ok (queue self) →
  marshal_header dbg msg serial = Ok hdr → hdr ≠ [] →
  (raw_fds (m_body msg) ≠ [] → with_fd self = true) →
  length (raw_fds (m_body msg)) ≤ DBUS_MAX_FD_MESSAGE →
  mapM dup (raw_fds (m_body msg)) = Some new_fds →
  (new_fds = [] → no_barrier (queue self)) →
  let out := MkOut 0 hdr (buf (m_body msg)) new_fds in
  ∃ r self' w',
    write_next_message cmsg_space dbg dup self msg serial answers w = (r, self', w') ∧
    written_or_queued self out r self' ∧
    match r with
    | Ok _ => trace w' (queue self') = trace w (queue self ++ [out])
    | Err e => e ≠ WouldBlock ∧ Fails e ∈ answers ∧
        ∃ k, trace w' (queue self' ++ [set_written out k]) = trace w (queue self ++ [out])
    | Panic => False
    end.
Proof.
  intros Hq Hhdr Hne Hfd Hlen Hdup Hbar out. unfold write_next_message. rewrite Hhdr. cbv zeta.
  rewrite decide_False.
  2:{ intros [[Hw Hf]|Hl]; [|lia]. rewrite Hfd in Hw by done. done. }
  rewrite Hdup. apply write_loop_spec; [|done].
  apply Forall_app_2; [done|]. constructor; [|done]. split; cbn.
  - destruct hdr; [done|]. cbn. lia.
  - rewrite <- (length_mapM _ _ _ Hdup). done.
Qed.

(** C5: a new message is written behind the queued ones, whole and in order, when it has
    descriptors or none wait behind the front of the queue ([no_barrier]; without that,
    [write_next_message_overtakes]).  Then, whatever the socket answers,
    [write_next_message] does not panic and keeps the stream: the bytes and descriptors
    (with their positions) written and still queued are those of before followed by the
    message.  [Ok(None)] means all of it has been written; [Ok(Some(i))] that the rest is
    queued under the index [i], the old [idx].  An error is one the socket gave; then what
    is written and still queued, followed by the message from some byte [k] on, is what it
    was before followed by the message: only the rest of the message itself is given up. *)
Theorem write_next_message_integrity self msg serial hdr new_fds answers w :
  Forall out_ok (queue self) →
  marshal_header dbg msg serial = Ok hdr → hdr ≠ [] →
  (raw_fds (m_body msg) ≠ [] → with_fd self = true) →
  length (raw_fds (m_body msg)) ≤ DBUS_MAX_FD_MESSAGE →
  mapM dup (raw_fds (m_body msg)) = Some new_fds →
  (new_fds = [] → no_barrier (queue self)) →
  let out := MkOut 0 hdr (buf (m_body msg)) new_fds in
  ∃ r self' w',
    write_next_message cmsg_space dbg dup self msg serial answers w = (r, self', w') ∧
    written_or_queued self out r self' ∧
    match r with
    | Ok _ => trace w' (queue self') = trace w (queue self ++ [out])
    | Err e => e ≠ WouldBlock ∧ Fails e ∈ answers ∧
        ∃ k, trace w' (queue self' ++ [set_written out k]) = trace w (queue self ++ [out])
    | Panic => False
    end.
Proof. apply write_next_message_spec. Qed.

(** C40: a message without descriptors overtakes descriptors that wait.  When the queue
    is a started message [a] and then one that still has to send its descriptors, the
    first [k] bytes the socket takes of a new message without descriptors are written
    before the queued message [f] but accounted to it: [f] loses its first [k] bytes and
    its descriptors, and those bytes of the new message are written twice. *)
Theorem write_next_message_overtakes a f i msg serial hdr k w :
  out_ok a → out_ok f → blocked f → ¬ blocked a →
  marshal_header dbg msg serial = Ok hdr → raw_fds (m_body msg) = [] →
  0 < k → k < to_write f → k ≤ length hdr →
  let out := MkOut 0 hdr (buf (m_body msg)) [] in
  write_next_message cmsg_space dbg dup (MkSend true i [a; f]) msg serial
    [Took (to_write a + k)] w =
  (Ok (Some i), MkSend true (S i) [set_written f k; out],
   MkWire (w_bytes w ++ remaining a ++ take k hdr) (w_fds w)).
Proof.
  intros Ha Hf Hbf Hba Hhdr Hfds Hk0 Hkf Hkh out. unfold write_next_message.
  rewrite Hhdr, Hfds. cbv zeta.
  rewrite decide_False by (cbn; unfold DBUS_MAX_FD_MESSAGE; intros [[? ?]|?]; [done|lia]).
  cbn [mapM]. change (mret (M:=option) (A:=list Fd) []) with (Some (A:=list Fd) []). cbn [write_loop queue].
  assert (0 < length hdr) as Hh by lia.
  destruct (fill_write_behind_barrier (E:=ErrorKind) a f hdr (buf (m_body msg)) Ha Hbf Hba Hh)
    as (ios & rest & Hfill & Hios).
  rewrite Hfill. rewrite Hios. rewrite Nat.min_l.
  2:{ rewrite !length_app, length_remaining. lia. }
  cbn [queue]. rewrite !update_written_cons by done.
  destruct (decide (_ < to_write a)) as [|_]; [lia|].
  destruct (decide (_ = to_write a)) as [|_]; [lia|].
  rewrite Nat.add_comm, Nat.add_sub.
  destruct (decide (k < to_write f)) as [_|]; [|lia].
  rewrite decide_True by done. cbn [set_queue with_fd idx queue].
  destruct Hbf as [Hwf _]. rewrite Hwf. change (0 + k) with k. fold out.
  assert (wire_add w ios anc_new (k + to_write a) =
    MkWire (w_bytes w ++ remaining a ++ take k hdr) (w_fds w)) as ->.
  { unfold wire_add. rewrite decide_True by auto. rewrite Hios.
    rewrite take_app_ge, length_remaining, Nat.add_sub by (rewrite length_remaining; lia).
    rewrite take_app_le by lia. done. }
  destruct (fill_write_spec (E:=ErrorKind) [set_written f k] out) as (? & ? & ? & ? & _ & -> & _).
  { cbn [app]. unfold to_write in Hkf. apply Forall_cons; split; [split; cbn; [lia|apply Hf]|].
    apply Forall_singleton. unfold out. split; cbn; [lia|unfold DBUS_MAX_FD_MESSAGE; lia]. }
  { intros _. constructor. }
  done.
Qed.
End write.

(** ** Concrete queues *)

(** [CMSG_SPACE] on 64-bit Linux. *)
Definition linux_cmsg_space (n : nat) : nat := 16 + align_num n 8.

Lemma linux_cmsg_space_fits n : n ≤ DBUS_MAX_FD_MESSAGE → linux_cmsg_space (4 * n) ≤ 256.
Proof.
  unfold linux_cmsg_space, DBUS_MAX_FD_MESSAGE. intros Hn.
  pose proof (align_num_lt (4 * n) 8). lia.
Qed.

Definition ping_hdr : bytes :=
  match marshal_header true ping_call 7 with Ok h => h | _ => [] end.

Lemma ping_hdr_eq : marshal_header true ping_call 7 = Ok ping_hdr.
Proof. vm_compute. reflexivity. Qed.

(** A message with two bytes gone, and one that carries a descriptor. *)
Definition started : RawOut := MkOut 2 (lit "header-a") (lit "body") [].
Definition with_fds : RawOut := MkOut 0 (lit "header-f") (lit "body") [7].
Definition wire0 : Wire := MkWire (lit "he") [].

Lemma started_ok : out_ok started.
Proof. split; vm_compute; lia. Qed.

Lemma with_fds_ok : out_ok with_fds.
Proof. split; vm_compute; lia. Qed.

Lemma finish_sending_next_integrity_witness :
  ∃ r self' w',
    finish_sending_next linux_cmsg_space true (MkSend true 5 [started; with_fds])
      [Took 4; Took 9; Took 3] wire0 = (r, self', w') ∧
    trace w' (queue self') = (lit "header-abodyheader-fbody", [(12, [7])]) ∧
    r = Ok 4.
Proof.
  destruct (finish_sending_next_integrity linux_cmsg_space true linux_cmsg_space_fits
    (MkSend true 5 [started; with_fds]) [Took 4; Took 9; Took 3] wire0)
    as (r & self' & w' & He & Ht & _ & _).
  { repeat constructor; vm_compute; lia. }
  exists r, self', w'. split; [exact He|]. split; [rewrite Ht; vm_compute; reflexivity|].
  vm_compute in He. by injection He.
Defined.

Lemma finish_sending_next_drains_witness :
  ∃ self' w',
    finish_sending_next linux_cmsg_space true (MkSend true 5 [started; with_fds])
      (replicate 22 (Took 1)) wire0 = (Ok 5, self', w') ∧
    queue self' = [] ∧ w_bytes w' = lit "header-abodyheader-fbody".
Proof.
  apply (finish_sending_next_drains linux_cmsg_space true linux_cmsg_space_fits
    (MkSend true 5 [started; with_fds]) (replicate 22 (Took 1)) wire0).
  - repeat constructor; vm_compute; lia.
  - apply Forall_replicate. by exists 0.
  - vm_compute. lia.
Defined.

Lemma write_next_message_integrity_witness :
  ∃ r self' w',
    write_next_message linux_cmsg_space true Some (MkSend false 1 [started]) ping_call 7
      [Took 20; Took 1] wire0 = (r, self', w') ∧
    trace w' (queue self') = (lit "header-abody" ++ ping_hdr ++ buf (m_body ping_call), []).
Proof.
  destruct (write_next_message_integrity linux_cmsg_space true linux_cmsg_space_fits Some
    (MkSend false 1 [started]) ping_call 7 ping_hdr [] [Took 20; Took 1] wire0)
    as (r & self' & w' & He & _ & Ht).
  - repeat constructor; vm_compute; lia.
  - exact ping_hdr_eq.
  - vm_compute. done.
  - done.
  - vm_compute. lia.
  - done.
  - intros _. constructor.
  - exists r, self', w'. split; [exact He|]. vm_compute in He. injection He as <- <- <-.
    rewrite Ht. vm_compute. reflexivity.
Defined.

Lemma write_next_message_overtakes_witness :
  write_next_message linux_cmsg_space true Some (MkSend true 2 [started; with_fds]) ping_call 7
    [Took 13] wire0 =
  (Ok (Some 2),
   MkSend true 3 [MkOut 3 (lit "header-f") (lit "body") [7];
                  MkOut 0 ping_hdr (buf (m_body ping_call)) []],
   MkWire (lit "header-abody" ++ take 3 ping_hdr) []).
Proof.
  refine (write_next_message_overtakes linux_cmsg_space true linux_cmsg_space_fits Some
    started with_fds 2 ping_call 7 ping_hdr 3 wire0 started_ok with_fds_ok _ _ _ _ _ _ _).
  - by split.
  - by intros [? ?].
  - exact ping_hdr_eq.
  - done.
  - lia.
  - vm_compute. lia.
  - vm_compute. lia.
Defined.
