(* ===== verification/Ancillary.v ===== *)
(** * conn/ancillary.rs: descriptors in control messages

    Descriptors travel beside the bytes of a write in a control buffer, a sequence of
    headers with data.  [add_to_ancillary_data] clears the space for one more, walks to
    the last header and fills it in; [Messages] walks over the headers and hands out their
    data.  A buffer is a list of bytes, a header pointer an offset into it.

    The layout of headers and the macros that walk over them are libc's: the interface
    [Cmsg], with what cmsg(3) documents as [CmsgLaws]; [linux64] is an instance. *)

From S2P Require Import Prelude Utils Body Sender.
From Stdlib Require Import Lia.

Record cmsghdr := MkCmsghdr {
  cmsg_len : N;
  cmsg_level : N;
  cmsg_type : N;
}.

Class Cmsg := {
  size_of_cmsghdr : nat;
  CMSG_SPACE : nat → nat;
  CMSG_LEN : nat → nat;
  CMSG_FIRSTHDR : bytes → option nat;
  CMSG_NXTHDR : bytes → nat → option nat;
  CMSG_DATA : nat → nat;
  get_hdr : bytes → cmsghdr;
  put_hdr : cmsghdr → bytes;
  SOL_SOCKET : N;
  SCM_RIGHTS : N;
  MSG_CTRUNC : N;
}.

Definition NUL : u8 := u8_of 0.

(** The header a pointer into the buffer points to. *)
Definition hdr_at `{Cmsg} (c : bytes) (off : nat) : cmsghdr := get_hdr (drop off c).

Class CmsgLaws `{Cmsg} : Prop := {
  hdr_positive : 0 < size_of_cmsghdr;
  len_hdr : size_of_cmsghdr ≤ CMSG_LEN 0;
  len_add n : CMSG_LEN n = CMSG_LEN 0 + n;
  space_len n : CMSG_LEN n ≤ CMSG_SPACE n;
  put_length h : length (put_hdr h) = size_of_cmsghdr;
  get_put h r : (cmsg_len h < 2 ^ 32)%N → (cmsg_level h < 2 ^ 32)%N → (cmsg_type h < 2 ^ 32)%N →
    get_hdr (put_hdr h ++ r) = h;
  get_zeros r : cmsg_len (get_hdr (replicate size_of_cmsghdr NUL ++ r)) = 0%N;
  first_hdr c : CMSG_FIRSTHDR c = if decide (size_of_cmsghdr ≤ length c) then Some 0 else None;
  data_hdr off : CMSG_DATA off = off + CMSG_LEN 0;
  next_bounds c off off' : CMSG_NXTHDR c off = Some off' →
    off + size_of_cmsghdr ≤ off' ∧ off' + size_of_cmsghdr ≤ length c;
  next_none c off : (cmsg_len (hdr_at c off) < N.of_nat size_of_cmsghdr)%N →
    CMSG_NXTHDR c off = None;
  next_end c off n : cmsg_len (hdr_at c off) = N.of_nat (CMSG_LEN n) →
    length c < off + CMSG_SPACE n + size_of_cmsghdr → CMSG_NXTHDR c off = None;
  next_hdr c off n : cmsg_len (hdr_at c off) = N.of_nat (CMSG_LEN n) →
    off + CMSG_SPACE n + size_of_cmsghdr ≤ length c →
    (cmsg_len (hdr_at c (off + CMSG_SPACE n)) = 0%N ∨
     ∃ m, cmsg_len (hdr_at c (off + CMSG_SPACE n)) = N.of_nat (CMSG_LEN m) ∧
       off + CMSG_SPACE n + CMSG_SPACE m ≤ length c) →
    CMSG_NXTHDR c off = Some (off + CMSG_SPACE n);
  rights_small : (SOL_SOCKET < 2 ^ 32)%N ∧ (SCM_RIGHTS < 2 ^ 32)%N;
  len_small n : (N.of_nat (4 * n) < 2 ^ 31)%N → (N.of_nat (CMSG_LEN (4 * n)) < 2 ^ 32)%N;
}.

(** ** The code *)

(** [size_of::<RawFd>()], and the bytes of a descriptor in memory (little-endian). *)
Definition size_of_fd : nat := 4.
Definition fd_bytes (fd : Fd) : bytes := u32_bytes LittleEndian (N.of_nat fd).
Definition fds_bytes (l : list Fd) : bytes := mjoin (map fd_bytes l).

Definition usize_mod : N := 18446744073709551616.

(** A write through a pointer into the buffer; outside of it there is no behaviour. *)
Definition write_at (c : bytes) (off : nat) (l : bytes) : io_result bytes :=
  if decide (off + length l ≤ length c) then Ok (take off c ++ l ++ drop (off + length l) c)
  else Panic.

Section code.
Context `{Cmsg}.

(** The loop over the headers: the last one.  Out of fuel there is no result. *)
Fixpoint last_cmsg (fuel : nat) (c : bytes) (cmsg previous_cmsg : option nat)
    : option (option nat) :=
  match cmsg, fuel with
  | None, _ => Some previous_cmsg
  | Some off, S fuel' => last_cmsg fuel' c (CMSG_NXTHDR c off) (Some off)
  | Some _, O => None
  end.

(** [add_to_ancillary_data] at descriptors: whether they were added, the buffer and the
    bytes used. *)
Definition add_to_ancillary_data (buffer : bytes) (length_ : nat) (source : list Fd)
    (level type_ : N) : io_result (bool * bytes * nat) :=
  let source_len := length source * size_of_fd in
  if (usize_mod <=? N.of_nat source_len)%N then Ok (false, buffer, length_) else
  if (u32_mod <=? N.of_nat source_len)%N then Ok (false, buffer, length_) else
  let additional_space := CMSG_SPACE source_len in
  let new_length := additional_space + length_ in
  if (usize_mod <=? N.of_nat new_length)%N then Ok (false, buffer, length_) else
  if decide (length buffer < new_length) then Ok (false, buffer, length_) else
  buffer ← write_at buffer length_ (replicate (new_length - length_) NUL);
  let control := take new_length buffer in
  match last_cmsg (S (length control)) control (CMSG_FIRSTHDR control) None with
  | None => Panic
  | Some None => Ok (false, buffer, new_length)
  | Some (Some previous_cmsg) =>
      let hdr := MkCmsghdr (N.of_nat (CMSG_LEN source_len)) level type_ in
      buffer ← write_at buffer previous_cmsg (put_hdr hdr);
      buffer ← write_at buffer (CMSG_DATA previous_cmsg) (fds_bytes source);
      Ok (true, buffer, new_length)
  end.

(** [AncillaryDataIter::next] at descriptors, and all it gives. *)
Definition data_iter_next (data : bytes) : option (Fd * bytes) :=
  if decide (size_of_fd ≤ length data) then
    match parse_u32 (take size_of_fd data) LittleEndian with
    | Ok n => Some (N.to_nat n, drop size_of_fd data)
    | _ => None
    end
  else None.

Fixpoint data_iter (fuel : nat) (data : bytes) : list Fd :=
  match fuel, data_iter_next data with
  | S fuel', Some (fd, data') => fd :: data_iter fuel' data'
  | _, _ => []
  end.

Inductive AncillaryError := Unknown (level type_ : N).
Inductive AncillaryData := ScmRights (data : bytes).

(** [AncillaryData::try_from_cmsghdr]: the length minus that of the header, which must not
    be longer, and that many bytes, which must be in the buffer. *)
Definition try_from_cmsghdr (c : bytes) (off : nat) : outcome AncillaryError AncillaryData :=
  let cmsg := hdr_at c off in
  let cmsg_len_zero := N.of_nat (CMSG_LEN 0) in
  if (cmsg_len cmsg <? cmsg_len_zero)%N then Panic else
  let data_len := (cmsg_len cmsg - cmsg_len_zero)%N in
  if (N.of_nat (length c) <? N.of_nat (CMSG_DATA off) + data_len)%N then Panic else
  let data := take (N.to_nat data_len) (drop (CMSG_DATA off) c) in
  if decide (cmsg_level cmsg = SOL_SOCKET) then
    if decide (cmsg_type cmsg = SCM_RIGHTS) then Ok (ScmRights data)
    else Err (Unknown SOL_SOCKET (cmsg_type cmsg))
  else Err (Unknown (cmsg_level cmsg) (cmsg_type cmsg)).

(** [Messages::next]: the message and the new [current]. *)
Definition messages_next (buffer : bytes) (current : option nat)
    : option (outcome AncillaryError AncillaryData * option nat) :=
  cmsg ← match current with
         | Some cur => CMSG_NXTHDR buffer cur
         | None => CMSG_FIRSTHDR buffer
         end;
  Some (try_from_cmsghdr buffer cmsg, Some cmsg).

(** All the messages; out of fuel there is no result. *)
Fixpoint messages_all (fuel : nat) (buffer : bytes) (current : option nat)
    : option (list (outcome AncillaryError AncillaryData)) :=
  match messages_next buffer current, fuel with
  | None, _ => Some []
  | Some (m, cur), S fuel' => cons m <$> messages_all fuel' buffer cur
  | Some _, O => None
  end.

(** [SocketAncillary] with its bytes. *)
Record RawAncillary := MkRaw {
  ra_buffer : bytes;
  ra_length : nat;
  ra_truncated : bool;
}.

Definition raw_new (buffer : bytes) : RawAncillary := MkRaw buffer 0 false.
Definition capacity (self : RawAncillary) : nat := length (ra_buffer self).
Definition raw_len (self : RawAncillary) : nat := ra_length self.
Definition truncated (self : RawAncillary) : bool := ra_truncated self.
Definition raw_clear (self : RawAncillary) : RawAncillary := MkRaw (ra_buffer self) 0 false.

(** The buffer [messages] iterates over, and all it gives. *)
Definition raw_messages (self : RawAncillary)
    : option (list (outcome AncillaryError AncillaryData)) :=
  let buffer := take (ra_length self) (ra_buffer self) in
  messages_all (S (length buffer)) buffer None.

Definition raw_add_fds (self : RawAncillary) (l : list Fd) : io_result (bool * RawAncillary) :=
  '(ok, buffer, length_) ←
    add_to_ancillary_data (ra_buffer self) (ra_length self) l SOL_SOCKET SCM_RIGHTS;
  mret (ok, MkRaw buffer length_ false).

(** What [sendmsg] gets as control data. *)
Definition sent_control (self : RawAncillary) : bytes := take (ra_length self) (ra_buffer self).

(** [sendmsg] is a parameter: the buffers and the control data to its result. *)
Definition send_vectored_with_ancillary (sendmsg : list bytes → bytes → io_result nat)
    (bufs : list bytes) (ancillary : RawAncillary) : io_result nat * RawAncillary :=
  (sendmsg bufs (sent_control ancillary),
   MkRaw (ra_buffer ancillary) (ra_length ancillary) false).

(** The result of [recvmsg] is a parameter: the number of bytes read, the control data the
    kernel wrote to the buffer, and its flags. *)
Definition recv_vectored_with_ancillary (recvmsg : io_result (nat * bytes * N))
    (ancillary : RawAncillary) : io_result nat * RawAncillary :=
  match recvmsg with
  | Ok (recvd, control, flags) =>
      (Ok recvd,
       MkRaw (control ++ drop (length control) (ra_buffer ancillary)) (length control)
         (bool_decide (N.land flags MSG_CTRUNC = MSG_CTRUNC)))
  | Err e => (Err e, ancillary)
  | Panic => (Panic, ancillary)
  end.

(** The descriptors [get_next_message] takes from the messages, which must be valid. *)
Fixpoint rights_of (ms : list (outcome AncillaryError AncillaryData)) : io_result (list Fd) :=
  match ms with
  | [] => mret []
  | Ok (ScmRights data) :: ms' =>
      l ← rights_of ms'; mret (data_iter (length data) data ++ l)
  | _ => Panic
  end.

Definition anc_fds_iter (self : RawAncillary) : io_result (list Fd) :=
  ms ← unwrap (raw_messages self); rights_of ms.
End code.

(** ** Buffers *)

Lemma write_at_app pre old post new :
  length old = length new →
  write_at (pre ++ old ++ post) (length pre) new = Ok (pre ++ new ++ post).
Proof.
  intros Hl. unfold write_at. rewrite decide_True by (rewrite !length_app; lia).
  rewrite take_app_length, <- Hl. f_equal. do 2 f_equal.
  rewrite app_assoc, drop_app_length'; [done|]. by rewrite length_app.
Qed.

Lemma length_fds_bytes l : length (fds_bytes l) = length l * size_of_fd.
Proof.
  induction l as [|fd l IH]; [done|]. change (fds_bytes (fd :: l)) with (fd_bytes fd ++ fds_bytes l).
  rewrite length_app, IH. done.
Qed.

Lemma data_iter_fds l k :
  Forall (λ fd, (N.of_nat fd < u32_mod)%N) l → length l ≤ k → data_iter k (fds_bytes l) = l.
Proof.
  intros Hl. revert k. induction Hl as [|fd l Hfd Hl IH]; intros k Hk; [by destruct k|].
  destruct k as [|k]; [by cbn in Hk; lia|]. cbn [data_iter].
  change (fds_bytes (fd :: l)) with (fd_bytes fd ++ fds_bytes l).
  assert (data_iter_next (fd_bytes fd ++ fds_bytes l) = Some (fd, fds_bytes l)) as ->.
  { unfold data_iter_next. rewrite decide_True by (rewrite length_app; unfold size_of_fd; cbn; lia).
    rewrite take_app_length', drop_app_length' by done.
    unfold fd_bytes. rewrite parse_u32_bytes by done. by rewrite Nat2N.id. }
  rewrite IH by (cbn in Hk; lia). done.
Qed.

Section laws.
Context `{CmsgLaws}.

(** ** The layout *)

(** The bytes of one control message with descriptors. *)
Definition rights_hdr (l : list Fd) : cmsghdr :=
  MkCmsghdr (N.of_nat (CMSG_LEN (length l * size_of_fd))) SOL_SOCKET SCM_RIGHTS.

Definition encode (l : list Fd) : bytes :=
  let n := length l * size_of_fd in
  put_hdr (rights_hdr l) ++ replicate (CMSG_LEN 0 - size_of_cmsghdr) NUL ++ fds_bytes l
    ++ replicate (CMSG_SPACE n - CMSG_LEN n) NUL.

(** What a control message can carry. *)
Definition fds_ok (l : list Fd) : Prop :=
  (N.of_nat (length l * size_of_fd) < 2 ^ 31)%N ∧ Forall (λ fd, (N.of_nat fd < u32_mod)%N) l.

Lemma length_encode l : length (encode l) = CMSG_SPACE (length l * size_of_fd).
Proof.
  unfold encode. rewrite !length_app, !length_replicate, put_length, length_fds_bytes.
  pose proof (len_add (length l * size_of_fd)). pose proof (space_len (length l * size_of_fd)).
  pose proof len_hdr. lia.
Qed.

Lemma encode_hdr pre l r : fds_ok l → hdr_at (pre ++ encode l ++ r) (length pre) = rights_hdr l.
Proof.
  intros [Hn _]. unfold hdr_at, encode. rewrite drop_app_length, <- !app_assoc.
  apply get_put; cbn; [|apply rights_small..].
  rewrite Nat.mul_comm in Hn |- *. by apply len_small.
Qed.

Lemma zeros_hdr pre n r :
  size_of_cmsghdr ≤ n → cmsg_len (hdr_at (pre ++ replicate n NUL ++ r) (length pre)) = 0%N.
Proof.
  intros Hn. unfold hdr_at. rewrite drop_app_length.
  replace n with (size_of_cmsghdr + (n - size_of_cmsghdr)) by lia.
  rewrite replicate_add, <- app_assoc. apply get_zeros.
Qed.

Definition encode_all (ls : list (list Fd)) : bytes := mjoin (map encode ls).

Lemma encode_all_cons l ls : encode_all (l :: ls) = encode l ++ encode_all ls.
Proof. done. Qed.

Lemma hdr_le_encode l : size_of_cmsghdr ≤ length (encode l).
Proof.
  rewrite length_encode. pose proof (space_len (length l * size_of_fd)).
  pose proof (len_add (length l * size_of_fd)). pose proof len_hdr. lia.
Qed.

(** From a message to the next, or to the space cleared after it. *)
Lemma next_of_encode pre l tl :
  fds_ok l → size_of_cmsghdr ≤ length tl →
  (cmsg_len (get_hdr tl) = 0%N ∨ ∃ l' r, tl = encode l' ++ r ∧ fds_ok l') →
  CMSG_NXTHDR (pre ++ encode l ++ tl) (length pre) = Some (length pre + length (encode l)).
Proof.
  intros Hl Htl Hnext.
  assert (hdr_at (pre ++ encode l ++ tl) (length pre + length (encode l)) = get_hdr tl) as Hh.
  { unfold hdr_at. by rewrite app_assoc, drop_app_length' by by rewrite length_app. }
  rewrite length_encode in Hh |- *. apply next_hdr.
  - by rewrite encode_hdr.
  - rewrite !length_app, length_encode. lia.
  - rewrite Hh. destruct Hnext as [?|(l' & r & -> & Hl')]; [by left|right].
    exists (length l' * size_of_fd). pose proof (encode_hdr [] l' r Hl') as He. cbn in He.
    unfold hdr_at in He. rewrite drop_0 in He. rewrite He. split; [done|].
    rewrite !length_app, !length_encode. lia.
Qed.

Lemma end_of_encode pre l : fds_ok l → CMSG_NXTHDR (pre ++ encode l) (length pre) = None.
Proof.
  intros Hl. pose proof (encode_hdr pre l [] Hl) as He. rewrite app_nil_r in He.
  apply (next_end _ _ (length l * size_of_fd)); [by rewrite He|].
  rewrite length_app, length_encode. pose proof hdr_positive. lia.
Qed.

(** ** The walk to the last header *)

(** Enough fuel: every step goes on by a header. *)
Lemma last_cmsg_enough fuel c off prev :
  length c ≤ off + fuel * size_of_cmsghdr →
  off + size_of_cmsghdr ≤ length c → ∃ o, last_cmsg (S fuel) c (Some off) prev = Some (Some o).
Proof.
  revert off prev. induction fuel as [|fuel IH]; intros off prev Hf Ho;
    pose proof hdr_positive.
  { cbn in Hf. lia. }
  change (∃ o, last_cmsg (S fuel) c (CMSG_NXTHDR c off) (Some off) = Some (Some o)).
  destruct (CMSG_NXTHDR c off) as [off'|] eqn:Hn; [|by exists off].
  apply next_bounds in Hn as [Hlo Hhi]. apply IH; lia.
Qed.

Lemma last_cmsg_encoded ls n pre fuel prev :
  Forall fds_ok ls → size_of_cmsghdr ≤ n → length ls < fuel →
  last_cmsg fuel (pre ++ encode_all ls ++ replicate n NUL) (Some (length pre)) prev =
    Some (Some (length pre + length (encode_all ls))).
Proof.
  intros Hls Hn. revert pre fuel prev.
  induction Hls as [|l ls Hl Hls IH]; intros pre [|fuel] prev Hf; cbn [last_cmsg]; try (cbn in Hf; lia).
  - change (encode_all []) with (@nil u8). rewrite next_none.
    { destruct fuel; cbn; by rewrite Nat.add_0_r. }
    cbn [app]. pose proof (zeros_hdr pre n [] Hn) as Hz. rewrite app_nil_r in Hz. rewrite Hz.
    pose proof hdr_positive. lia.
  - rewrite encode_all_cons, <- app_assoc. rewrite next_of_encode; [|done| |].
    + rewrite app_assoc, <- length_app. rewrite IH by (cbn in Hf; lia).
      by rewrite !length_app, Nat.add_assoc.
    + rewrite length_app, length_replicate. lia.
    + destruct Hls as [|l' ls Hl' Hls].
      * left. cbn. pose proof (zeros_hdr [] n [] Hn) as Hz. cbn in Hz.
        unfold hdr_at in Hz. by rewrite drop_0, app_nil_r in Hz.
      * right. rewrite encode_all_cons, <- app_assoc. by eexists _, _.
Qed.

(** ** Adding descriptors *)

(** The used part of the buffer is the messages [ls]. *)
Definition encoded (a : RawAncillary) (ls : list (list Fd)) : Prop :=
  Forall fds_ok ls ∧ ra_length a = length (encode_all ls) ∧
  ∃ rest, ra_buffer a = encode_all ls ++ rest.

Lemma encode_all_snoc ls l : encode_all (ls ++ [l]) = encode_all ls ++ encode l.
Proof.
  induction ls as [|l' ls IH]; [by cbn; rewrite app_nil_r|].
  cbn [app]. by rewrite !encode_all_cons, IH, app_assoc.
Qed.

Lemma length_encode_all_ge ls : length ls ≤ length (encode_all ls).
Proof.
  induction ls as [|l ls IH]; [done|]. rewrite encode_all_cons, length_app. cbn [length].
  pose proof (hdr_le_encode l). pose proof hdr_positive. lia.
Qed.

(** The three writes at the place of a new message. *)
Lemma fill_encode pre l post :
  let n := length l * size_of_fd in
  (b ← write_at (pre ++ replicate (CMSG_SPACE n) NUL ++ post) (length pre) (put_hdr (rights_hdr l));
   write_at b (CMSG_DATA (length pre)) (fds_bytes l)) = Ok (pre ++ encode l ++ post).
Proof.
  cbv zeta. set (n := length l * size_of_fd).
  pose proof len_hdr as Hh. pose proof (len_add n) as Ha. pose proof (space_len n) as Hs.
  replace (CMSG_SPACE n) with
    (size_of_cmsghdr + (CMSG_LEN 0 - size_of_cmsghdr + (n + (CMSG_SPACE n - CMSG_LEN n)))) by lia.
  rewrite !replicate_add, <- !app_assoc.
  rewrite write_at_app by by rewrite length_replicate, put_length.
  cbn [mbind outcome_bind]. rewrite data_hdr.
  set (pad := replicate (CMSG_LEN 0 - size_of_cmsghdr) NUL).
  replace (length pre + CMSG_LEN 0) with (length (pre ++ put_hdr (rights_hdr l) ++ pad))
    by (unfold pad; rewrite !length_app, put_length, length_replicate; lia).
  rewrite (app_assoc (put_hdr _)), (app_assoc pre).
  rewrite write_at_app by by rewrite length_replicate, length_fds_bytes.
  unfold encode. by rewrite <- !app_assoc.
Qed.

(** What adding one more message does. *)
Definition room (a : RawAncillary) (l : list Fd) : Prop :=
  CMSG_SPACE (length l * size_of_fd) + ra_length a ≤ length (ra_buffer a).

#[local] Instance room_dec a l : Decision (room a l).
Proof. unfold room. apply _. Defined.

Lemma raw_add_fds_room a ls l :
  encoded a ls → fds_ok l → (N.of_nat (length (ra_buffer a)) < usize_mod)%N → room a l →
  ∃ a', raw_add_fds a l = Ok (true, a') ∧ encoded a' (ls ++ [l]) ∧
    ra_truncated a' = false ∧ length (ra_buffer a') = length (ra_buffer a).
Proof.
  intros (Hls & Hlen & rest & Hbuf) Hl Hcap Hroom. unfold raw_add_fds, add_to_ancillary_data.
  unfold room in Hroom. set (n := length l * size_of_fd) in *.
  pose proof (space_len n) as Hs. pose proof (len_add n) as Ha. pose proof len_hdr as Hh.
  destruct Hl as [Hn32 Hfds]. fold n in Hn32. change (2 ^ 31)%N with 2147483648%N in Hn32.
  destruct (N.leb_spec usize_mod (N.of_nat n)) as [Hbad|_]; [unfold usize_mod in Hbad; lia|].
  destruct (N.leb_spec u32_mod (N.of_nat n)) as [Hbad|_]; [unfold u32_mod in Hbad; lia|].
  destruct (N.leb_spec usize_mod (N.of_nat (CMSG_SPACE n + ra_length a))) as [Hbad|_]; [lia|].
  rewrite decide_False by lia. rewrite Nat.add_sub.
  assert (∃ old post, rest = old ++ post ∧ length old = CMSG_SPACE n) as (old & post & -> & Hold).
  { exists (take (CMSG_SPACE n) rest), (drop (CMSG_SPACE n) rest).
    rewrite take_drop, length_take. split; [done|]. rewrite Hbuf, !length_app in Hroom. lia. }
  rewrite Hbuf, Hlen. rewrite write_at_app by by rewrite length_replicate.
  cbn [mbind outcome_bind].
  rewrite (app_assoc (encode_all ls)), take_app_length' by (rewrite length_app, length_replicate; lia).
  rewrite first_hdr, decide_True by (rewrite length_app, length_replicate; lia).
  pose proof (last_cmsg_encoded ls (CMSG_SPACE n) [] (S (length (encode_all ls ++ replicate (CMSG_SPACE n) NUL)))
    None Hls ltac:(lia)) as Hlast.
  cbn [app length Nat.add] in Hlast. rewrite Hlast.
  2: { pose proof (length_encode_all_ge ls). rewrite length_app. lia. }
  rewrite <- app_assoc. pose proof (fill_encode (encode_all ls) l post) as Hfill. cbv zeta in Hfill.
  fold n in Hfill. apply bind_Ok_inv in Hfill as (b & Hb1 & Hb2). unfold rights_hdr in Hb1. fold n in Hb1.
  rewrite Hb1. cbn [mbind outcome_bind]. rewrite Hb2. cbn [mbind outcome_bind].
  eexists. split; [done|]. split_and!; [|done|].
  - split; [|split; cbn].
    + apply Forall_app. split; [done|]. by apply Forall_singleton.
    + rewrite encode_all_snoc, length_app, length_encode. fold n. lia.
    + exists post. by rewrite encode_all_snoc, <- app_assoc.
  - cbn. rewrite !length_app, length_encode, Hold. done.
Qed.

Lemma raw_add_fds_no_room a l :
  ¬ room a l → raw_add_fds a l = Ok (false, MkRaw (ra_buffer a) (ra_length a) false).
Proof.
  unfold room, raw_add_fds, add_to_ancillary_data. intros Hno.
  repeat (destruct (_ <=? _)%N; [done|]). by rewrite decide_True by lia.
Qed.

(** ** Reading them back *)

Lemma try_from_encode pre l r :
  fds_ok l → try_from_cmsghdr (pre ++ encode l ++ r) (length pre) = Ok (ScmRights (fds_bytes l)).
Proof.
  intros Hl. unfold try_from_cmsghdr. rewrite encode_hdr by done. cbn [cmsg_len cmsg_level cmsg_type rights_hdr].
  pose proof (len_add (length l * size_of_fd)) as Ha. pose proof (space_len (length l * size_of_fd)) as Hs.
  rewrite data_hdr. set (n := length l * size_of_fd) in *.
  destruct (N.ltb_spec (N.of_nat (CMSG_LEN n)) (N.of_nat (CMSG_LEN 0))) as [Hbad|_]; [lia|].
  replace (N.of_nat (CMSG_LEN n) - N.of_nat (CMSG_LEN 0))%N with (N.of_nat n) by lia.
  destruct (N.ltb_spec (N.of_nat (length (pre ++ encode l ++ r)))
    (N.of_nat (length pre + CMSG_LEN 0) + N.of_nat n)) as [Hbad|_].
  { rewrite !length_app, length_encode in Hbad. fold n in Hbad. lia. }
  rewrite !decide_True by done. do 2 f_equal. rewrite Nat2N.id. unfold encode. fold n.
  set (pad := replicate (CMSG_LEN 0 - size_of_cmsghdr) NUL).
  set (last_pad := replicate (CMSG_SPACE n - CMSG_LEN n) NUL).
  replace (pre ++ (put_hdr (rights_hdr l) ++ pad ++ fds_bytes l ++ last_pad) ++ r)
    with ((pre ++ put_hdr (rights_hdr l) ++ pad) ++ fds_bytes l ++ last_pad ++ r)
    by by rewrite <- !app_assoc.
  rewrite drop_app_length', take_app_length'; [done| |].
  - by rewrite length_fds_bytes.
  - unfold pad. rewrite !length_app, put_length, length_replicate. pose proof len_hdr. lia.
Qed.

(** The messages after the one the iterator is at. *)
Lemma messages_from pre l ls fuel :
  fds_ok l → Forall fds_ok ls → length ls < fuel →
  messages_all fuel (pre ++ encode_all (l :: ls)) (Some (length pre)) =
    Some (map (λ l, Ok (ScmRights (fds_bytes l))) ls).
Proof.
  intros Hl Hls. revert pre l Hl fuel.
  induction Hls as [|l' ls Hl' Hls IH]; intros pre l Hl [|fuel] Hf; try (cbn in Hf; lia);
    cbn [messages_all]; unfold messages_next; rewrite encode_all_cons.
  - change (encode_all []) with (@nil u8). rewrite app_nil_r. by rewrite end_of_encode.
  - rewrite next_of_encode; [|done| |].
    + cbn [mbind option_bind]. rewrite app_assoc, <- length_app, encode_all_cons.
      rewrite try_from_encode by done. rewrite <- encode_all_cons.
      rewrite IH by (try done; cbn in Hf; lia). done.
    + rewrite encode_all_cons, length_app. pose proof (hdr_le_encode l'). lia.
    + right. rewrite encode_all_cons. by eexists _, _.
Qed.

Lemma messages_encoded a ls :
  encoded a ls → raw_messages a = Some (map (λ l, Ok (ScmRights (fds_bytes l))) ls).
Proof.
  intros (Hls & Hlen & rest & Hbuf). unfold raw_messages. rewrite Hbuf, Hlen, take_app_length.
  destruct Hls as [|l ls Hl Hls].
  - cbn. unfold messages_next. rewrite first_hdr. cbn.
    pose proof hdr_positive. by destruct (decide _); [lia|].
  - pose proof (hdr_le_encode l) as Hh.
    cbn [messages_all]. unfold messages_next. rewrite first_hdr, encode_all_cons, decide_True
      by (rewrite length_app; lia).
    cbn [mbind option_bind map].
    pose proof (try_from_encode [] l (encode_all ls) Hl) as Ht. cbn [app length] in Ht. rewrite Ht.
    rewrite <- encode_all_cons.
    pose proof (messages_from [] l ls (length (encode_all (l :: ls))) Hl Hls) as Hm. cbn [app length] in Hm.
    rewrite Hm; [done|]. pose proof (length_encode_all_ge (l :: ls)) as Hg. cbn [length] in Hg. lia.
Qed.

Lemma rights_of_encoded ls :
  Forall fds_ok ls → rights_of (map (λ l, Ok (ScmRights (fds_bytes l))) ls) = Ok (mjoin ls).
Proof.
  induction 1 as [|l ls [_ Hl] Hls IH]; [done|]. cbn [map rights_of].
  rewrite IH. cbn [mbind outcome_bind]. rewrite data_iter_fds; [done..|].
  rewrite length_fds_bytes. unfold size_of_fd, Fd. lia.
Qed.

Lemma anc_fds_encoded a ls : encoded a ls → anc_fds_iter a = Ok (mjoin ls).
Proof.
  intros He. unfold anc_fds_iter. rewrite (messages_encoded _ _ He). cbn [mbind outcome_bind unwrap].
  apply rights_of_encoded, He.
Qed.

(** Adding lists of descriptors one after the other: which were added, and the rest. *)
Fixpoint add_many (a : RawAncillary) (ls : list (list Fd)) : io_result (list (list Fd) * RawAncillary) :=
  match ls with
  | [] => mret ([], a)
  | l :: ls' =>
      '(ok, a) ← raw_add_fds a l; '(added, a) ← add_many a ls';
      mret (if (ok : bool) then l :: added else added, a)
  end.

Lemma add_many_encoded a ls0 ls :
  encoded a ls0 → Forall fds_ok ls → (N.of_nat (length (ra_buffer a)) < usize_mod)%N →
  ∃ added a', add_many a ls = Ok (added, a') ∧ encoded a' (ls0 ++ added) ∧
    length (ra_buffer a') = length (ra_buffer a) ∧ added `sublist_of` ls ∧
    (length (encode_all (ls0 ++ ls)) ≤ length (ra_buffer a) → added = ls).
Proof.
  intros He Hls. revert a ls0 He. induction Hls as [|l ls Hl Hls IH]; intros a ls0 He Hcap.
  { exists [], a. rewrite app_nil_r. by split_and!. }
  cbn [add_many]. destruct (decide (room a l)) as [Hr|Hr].
  - destruct (raw_add_fds_room _ _ _ He Hl Hcap Hr) as (a1 & -> & He1 & _ & Hb1).
    cbn [mbind outcome_bind]. rewrite <- Hb1 in Hcap |- *.
    destruct (IH a1 (ls0 ++ [l]) He1 Hcap) as (added & a' & -> & He' & Hb & Hsub & Hall).
    cbn [mbind outcome_bind]. exists (l :: added), a'. rewrite <- app_assoc in He', Hall.
    split_and!; [done..|by constructor|]. intros Hfit. f_equal. by apply Hall.
  - rewrite raw_add_fds_no_room by done. cbn [mbind outcome_bind].
    destruct (IH (MkRaw (ra_buffer a) (ra_length a) false) ls0 He Hcap)
      as (added & a' & -> & He' & Hb & Hsub & _).
    cbn [mbind outcome_bind]. exists added, a'. split_and!; [done..|by constructor|].
    intros Hfit. destruct Hr. unfold room. destruct He as (_ & Hlen & _). rewrite Hlen.
    unfold encode_all in Hfit. rewrite map_app, mjoin_app, length_app in Hfit. cbn [map] in Hfit.
    change (mjoin (encode l :: map encode ls)) with (encode l ++ encode_all ls) in Hfit.
    rewrite length_app, length_encode in Hfit. fold (encode_all ls0) in Hfit. lia.
Qed.

Lemma raw_new_encoded buffer : encoded (raw_new buffer) [].
Proof. split; [constructor|]. split; [done|]. by exists buffer. Qed.

(** C24: descriptors survive their control messages.  Lists of descriptors added to a fresh
    buffer of any size and content never write outside of it; those for which there was
    no room are left out and change nothing, and none is left out when the buffer has the
    size of them all.  A receiver to whose buffer, of any content, the kernel copies the
    control data reads exactly the descriptors added, in order. *)
Theorem control_roundtrip buffer buffer' ls n flags :
  Forall fds_ok ls → (N.of_nat (length buffer) < usize_mod)%N →
  ∃ added a, add_many (raw_new buffer) ls = Ok (added, a) ∧ added `sublist_of` ls ∧
    (length (encode_all ls) ≤ length buffer → added = ls) ∧
    anc_fds_iter (recv_vectored_with_ancillary (Ok (n, sent_control a, flags)) (raw_new buffer')).2
      = Ok (mjoin added).
Proof.
  intros Hls Hcap.
  destruct (add_many_encoded _ [] ls (raw_new_encoded buffer) Hls Hcap)
    as (added & a & -> & He & _ & Hsub & Hall).
  exists added, a. split_and!; [done..|]. cbn [app] in He. apply anc_fds_encoded.
  destruct He as (Hadd & Hlen & rest & Hbuf). unfold sent_control. rewrite Hlen, Hbuf, take_app_length.
  split; [done|]. by split; [|eexists].
Qed.

(** ** The ancillary data of Sender.v *)

(** The bytes hold the descriptors that the send queue's model says they hold. *)
Definition implements (a : RawAncillary) (s : SocketAncillary) : Prop :=
  ∃ ls, encoded a ls ∧ mjoin ls = anc_fds s ∧ ra_length a = anc_length s ∧
    capacity a = anc_capacity s.

(** the bytes implement the ancillary data of the send queue.  On a buffer that holds
    the descriptors of Sender.v's model, [add_fds] succeeds exactly when the model's does,
    never writes outside of the buffer, and leaves it holding those of the model, which
    are the ones that are read back; a fresh buffer holds the model's empty one. *)
Theorem add_fds_implements a s l :
  implements a s → fds_ok l → (N.of_nat (anc_capacity s) < usize_mod)%N →
  implements (raw_new (ra_buffer a)) (MkAnc (anc_capacity s) 0 []) ∧
  ∃ ok a', raw_add_fds a l = Ok (ok, a') ∧
    match add_fds CMSG_SPACE s l with
    | Some s' => ok = true ∧ implements a' s' ∧ anc_fds_iter a' = Ok (anc_fds s')
    | None => ok = false ∧ implements a' s ∧ anc_fds_iter a' = Ok (anc_fds s)
    end.
Proof.
  intros (ls & He & Hf & Hlen & Hcap) Hl Hbound. unfold capacity in Hcap. split.
  { exists []. by split_and!; [apply raw_new_encoded|..]. }
  unfold add_fds. rewrite (Nat.mul_comm 4).
  assert (room a l ↔ CMSG_SPACE (length l * 4) + anc_length s ≤ anc_capacity s) as Hroom
    by (unfold room, size_of_fd; by rewrite Hlen, Hcap).
  destruct (decide _) as [Hlt|Hge].
  - exists false, (MkRaw (ra_buffer a) (ra_length a) false). split_and!; [|done|exists ls; by split_and!|].
    + apply raw_add_fds_no_room. intros Hr%Hroom. lia.
    + rewrite <- Hf. by apply anc_fds_encoded.
  - rewrite <- Hcap in Hbound.
    destruct (raw_add_fds_room a ls l He Hl Hbound) as (a' & Hr & He' & _ & Hb);
      [by apply Hroom; lia|].
    assert (mjoin (ls ++ [l]) = anc_fds s ++ l) as Hj.
    { rewrite mjoin_app, Hf. f_equal. change (l ++ [] = l). apply app_nil_r. }
    exists true, a'. split_and!; [done|done| |].
    + exists (ls ++ [l]). split_and!; [done|done| |by unfold capacity; rewrite Hb].
      destruct He' as (_ & Hlen' & _), He as (_ & Hlen0 & _). cbn.
      rewrite Hlen', encode_all_snoc, length_app, length_encode. unfold size_of_fd in *. lia.
    + cbn. rewrite <- Hj. by apply anc_fds_encoded.
Qed.

(** ** Any buffer *)

Lemma messages_end fuel c off :
  off + size_of_cmsghdr ≤ length c → length c ≤ off + fuel * size_of_cmsghdr →
  ∃ ms, messages_all fuel c (Some off) = Some ms ∧
    off + (1 + length ms) * size_of_cmsghdr ≤ length c.
Proof.
  revert off. induction fuel as [|fuel IH]; intros off Ho Hf; pose proof hdr_positive.
  { cbn in Hf. lia. }
  cbn [messages_all]. unfold messages_next.
  destruct (CMSG_NXTHDR c off) as [off'|] eqn:Hn; cbn [mbind option_bind].
  - apply next_bounds in Hn as [Hlo Hhi].
    destruct (IH off') as (ms & -> & Hms); [done|cbn in Hf; lia|].
    eexists. split; [done|]. cbn [length]. cbn in Hms. lia.
  - exists []. split; [done|]. cbn. lia.
Qed.

(** walking over control data ends, whatever it holds.  On a buffer with any bytes, such
    as another process may have caused the kernel to write, the iterator of the messages
    stops after at most as many as there is room for headers, and the walk to the last
    header ends, at a header inside the used part when there is room for one. *)
Theorem control_walk_ends a :
  ra_length a ≤ length (ra_buffer a) →
  (∃ ms, raw_messages a = Some ms ∧ length ms * size_of_cmsghdr ≤ ra_length a) ∧
  (∃ o, last_cmsg (S (ra_length a)) (sent_control a) (CMSG_FIRSTHDR (sent_control a)) None = Some o ∧
    (size_of_cmsghdr ≤ ra_length a → is_Some o)).
Proof.
  intros Hle. unfold raw_messages, sent_control. set (c := take _ _).
  assert (length c = ra_length a) as Hc by (unfold c; rewrite length_take; lia).
  pose proof hdr_positive as Hpos. rewrite first_hdr.
  assert (length c ≤ length c * size_of_cmsghdr) as Hmul by nia.
  split.
  - cbn [messages_all]. unfold messages_next. rewrite first_hdr.
    destruct (decide _) as [Hh|Hh]; cbn [mbind option_bind]; [|exists []; split; [done|cbn; lia]].
    destruct (messages_end (length c) c 0) as (ms & -> & Hms); [lia|lia|].
    eexists. split; [done|]. rewrite <- Hc. cbn [length]. cbn in Hms |- *. lia.
  - rewrite <- Hc. destruct (decide _) as [Hh|Hh]; [|by exists None; destruct (length c)].
    destruct (last_cmsg_enough (length c) c 0 None) as (o & Ho); [lia|lia|].
    exists (Some o). rewrite Ho. done.
Qed.
End laws.

(** ** 64-bit Linux *)

Definition u64_bytes (n : N) : bytes :=
  u32_bytes LittleEndian (n mod u32_mod) ++ u32_bytes LittleEndian (n / u32_mod).

Definition u32_at (b : bytes) (off : nat) : N :=
  match parse_u32 (take 4 (drop off b)) LittleEndian with Ok n => n | _ => 0%N end.

Definition linux_get_hdr (b : bytes) : cmsghdr :=
  MkCmsghdr (u32_at b 0 + u32_mod * u32_at b 4) (u32_at b 8) (u32_at b 12).

Definition linux_put_hdr (h : cmsghdr) : bytes :=
  u64_bytes (cmsg_len h) ++ u32_bytes LittleEndian (cmsg_level h)
    ++ u32_bytes LittleEndian (cmsg_type h).

(** A header with its length on the buffer: none when it is too short, or when the next
    header or its extent is not inside. *)
Definition linux_nxthdr (c : bytes) (off : nat) : option nat :=
  let extent l := (8 * ((l + 7) / 8))%N in
  let len := cmsg_len (linux_get_hdr (drop off c)) in
  if (len <? 16)%N then None else
  let next := (N.of_nat off + extent len)%N in
  let max := N.of_nat (length c) in
  if (max <? next + 16)%N then None else
  let next' := N.to_nat next in
  if (max <? next + extent (cmsg_len (linux_get_hdr (drop next' c))))%N then None else Some next'.

Definition linux64 : Cmsg := {|
  size_of_cmsghdr := 16;
  CMSG_SPACE := linux_cmsg_space;
  CMSG_LEN := λ n, 16 + n;
  CMSG_FIRSTHDR := λ c, if decide (16 ≤ length c) then Some 0 else None;
  CMSG_NXTHDR := linux_nxthdr;
  CMSG_DATA := λ off, off + 16;
  get_hdr := linux_get_hdr;
  put_hdr := linux_put_hdr;
  SOL_SOCKET := 1;
  SCM_RIGHTS := 1;
  MSG_CTRUNC := 8;
|}.

Lemma align_8 n : N.of_nat (align_num n 8) = (8 * ((N.of_nat n + 7) / 8))%N.
Proof.
  pose proof (align_num_ge n 8). pose proof (align_num_lt n 8 ltac:(done)).
  pose proof (align_num_mod n 8 ltac:(done)) as Hm.
  pose proof (Nat.div_mod_eq (align_num n 8) 8) as Hd. rewrite Hm in Hd.
  set (q := align_num n 8 / 8) in *.
  assert ((N.of_nat n + 7) / 8 = N.of_nat q)%N as ->; [|lia].
  symmetry. apply (N.div_unique _ _ _ (N.of_nat n + 7 - 8 * N.of_nat q)); lia.
Qed.

Lemma u32_at_app pre n post :
  (n < u32_mod)%N → u32_at (pre ++ u32_bytes LittleEndian n ++ post) (length pre) = n.
Proof.
  intros Hn. unfold u32_at. rewrite drop_app_length, take_app_length' by by rewrite length_u32_bytes.
  by rewrite parse_u32_bytes.
Qed.

Lemma linux_get_put h r :
  (cmsg_len h < 2 ^ 32)%N → (cmsg_level h < 2 ^ 32)%N → (cmsg_type h < 2 ^ 32)%N →
  linux_get_hdr (linux_put_hdr h ++ r) = h.
Proof.
  destruct h as [len lvl ty]. cbn [cmsg_len cmsg_level cmsg_type].
  change (2 ^ 32)%N with u32_mod. intros Hlen Hlvl Hty.
  unfold linux_get_hdr, linux_put_hdr, u64_bytes. cbn [cmsg_len cmsg_level cmsg_type].
  rewrite <- !app_assoc. rewrite (N.mod_small len), (N.div_small len) by done.
  set (w := u32_bytes LittleEndian).
  pose proof (u32_at_app [] len (w 0%N ++ w lvl ++ w ty ++ r) Hlen) as H0.
  pose proof (u32_at_app (w len) 0 (w lvl ++ w ty ++ r) ltac:(done)) as H4.
  pose proof (u32_at_app (w len ++ w 0%N) lvl (w ty ++ r) Hlvl) as H8.
  pose proof (u32_at_app (w len ++ w 0%N ++ w lvl) ty r Hty) as H12.
  rewrite <- !app_assoc in H8. rewrite <- !app_assoc in H12. rewrite !length_app in *.
  change (length (w len)) with 4 in *. change (length (w 0%N)) with 4 in *.
  change (length (w lvl)) with 4 in *. cbn [app length Nat.add] in *. fold w in H0, H4, H8, H12.
  rewrite H0, H4, H8, H12. f_equal. lia.
Qed.

Lemma linux_get_zeros r : cmsg_len (linux_get_hdr (replicate 16 NUL ++ r)) = 0%N.
Proof. reflexivity. Qed.

Lemma linux_extent n : (8 * ((N.of_nat (16 + n) + 7) / 8))%N = N.of_nat (linux_cmsg_space n).
Proof.
  unfold linux_cmsg_space. rewrite (Nat2N.inj_add 16 (align_num n 8)), align_8.
  replace (N.of_nat (16 + n) + 7)%N with (N.of_nat n + 7 + 2 * 8)%N by lia.
  rewrite N.div_add by done. lia.
Qed.

#[export] Instance linux64_laws : @CmsgLaws linux64.
Proof.
  split; cbn [size_of_cmsghdr CMSG_SPACE CMSG_LEN CMSG_FIRSTHDR CMSG_NXTHDR CMSG_DATA get_hdr put_hdr
    SOL_SOCKET SCM_RIGHTS linux64]; unfold hdr_at; cbn [get_hdr linux64]; try done; try lia.
  - intros n. unfold linux_cmsg_space. pose proof (align_num_ge n 8). lia.
  - apply linux_get_put.
  - intros c off off'. unfold linux_nxthdr. set (len := cmsg_len _).
    destruct (N.ltb_spec len 16); [done|]. set (ext := (8 * ((len + 7) / 8))%N).
    destruct (N.ltb_spec (N.of_nat (length c)) (N.of_nat off + ext + 16)); [done|].
    destruct (_ <? _)%N; [done|]. intros [= <-].
    pose proof (N.div_mod (len + 7) 8 ltac:(done)). pose proof (N.mod_lt (len + 7) 8 ltac:(done)). unfold ext in *. lia.
  - intros c off Hlen. unfold linux_nxthdr. destruct (N.ltb_spec (cmsg_len (linux_get_hdr (drop off c))) 16);
      [done|]. lia.
  - intros c off n Hlen Hend. unfold linux_nxthdr. rewrite Hlen, linux_extent.
    destruct (N.of_nat (16 + n) <? 16)%N; [done|].
    destruct (N.ltb_spec (N.of_nat (length c)) (N.of_nat off + N.of_nat (linux_cmsg_space n) + 16)); [done|lia].
  - intros c off n Hlen Hin Hnext. unfold linux_nxthdr. rewrite Hlen, linux_extent.
    destruct (N.ltb_spec (N.of_nat (16 + n)) 16); [lia|].
    destruct (N.ltb_spec (N.of_nat (length c)) (N.of_nat off + N.of_nat (linux_cmsg_space n) + 16)); [lia|].
    rewrite <- Nat2N.inj_add, Nat2N.id.
    destruct Hnext as [-> | (m & -> & Hm)].
    + change (8 * ((0 + 7) / 8))%N with 0%N. destruct (N.ltb_spec (N.of_nat (length c))
        (N.of_nat (off + linux_cmsg_space n) + 0)); [lia|done].
    + rewrite linux_extent. destruct (N.ltb_spec (N.of_nat (length c))
        (N.of_nat (off + linux_cmsg_space n) + N.of_nat (linux_cmsg_space m))); [lia|done].
Qed.

Lemma some_fds_ok : Forall fds_ok [[3; 4; 5]; [200]; [6]].
Proof. repeat constructor. Qed.

(** In 64 bytes there is room for the first two of three lists. *)
Lemma control_roundtrip_witness :
  ∃ added a, add_many (H:=linux64) (raw_new (replicate 64 "x"%char)) [[3; 4; 5]; [200]; [6]] =
      Ok (added, a) ∧ added = [[3; 4; 5]; [200]] ∧
    anc_fds_iter (H:=linux64) (recv_vectored_with_ancillary (H:=linux64) (Ok (1, sent_control a, 0%N))
      (raw_new (replicate 256 "y"%char))).2 = Ok [3; 4; 5; 200].
Proof.
  destruct (control_roundtrip (H:=linux64) (replicate 64 "x"%char) (replicate 256 "y"%char)
    [[3; 4; 5]; [200]; [6]] 1 0%N some_fds_ok) as (added & a & Hadd & _ & _ & Hf); [by vm_compute|].
  exists added, a. assert (added = [[3; 4; 5]; [200]]) as ->.
  { vm_compute in Hadd. by injection Hadd. }
  split; [exact Hadd|]. split; [done|]. exact Hf.
Defined.

Lemma add_fds_implements_witness :
  ∃ ok a', raw_add_fds (H:=linux64) (raw_new (replicate 256 NUL)) [3; 4] = Ok (ok, a') ∧
    ok = true ∧ implements (H:=linux64) a' (MkAnc 256 24 [3; 4]).
Proof.
  assert (implements (H:=linux64) (raw_new (replicate 256 NUL)) anc_new) as Himp.
  { exists []. split; [apply raw_new_encoded|done]. }
  destruct (add_fds_implements (H:=linux64) (raw_new (replicate 256 NUL)) anc_new [3; 4] Himp)
    as [_ (ok & a' & Hr & Hm)]; [split; [by vm_compute|by repeat constructor]|by vm_compute|].
  exists ok, a'. split; [exact Hr|]. destruct Hm as (Hok & Hi & _). split; [exact Hok|exact Hi].
Defined.

(** Bytes in which the length of a header runs beyond the buffer. *)
Lemma control_walk_ends_witness :
  ∃ ms, raw_messages (H:=linux64) (MkRaw (replicate 64 "A"%char) 64 false) = Some ms ∧
    length ms * 16 ≤ 64.
Proof.
  exact (proj1 (control_walk_ends (H:=linux64) (MkRaw (replicate 64 "A"%char) 64 false) ltac:(by vm_compute))).
Defined.
