(* ===== verification/SendLoop.v ===== *)
(** * lib.rs: sending under contention

    [send_msg_loop] writes a message, or waits for it to get out of the send queue.  The
    state of Sender.v is behind a lock, which a round of the loop takes and gives back, so
    that the rounds of several tasks interleave in any order, while the socket takes what
    it likes.  A round first waits until the socket is marked writable.

    [send_round] is the body of the loop; a [SendSys] is a number of tasks that run it. *)

From S2P Require Import Prelude Utils Body Message Header DBusWire Sender.
From Stdlib Require Import Lia.

(** The end of a round: the loop returns, or goes on with a [send_idx], having cleared the
    readiness of the socket or not. *)
Inductive round_end :=
| Return (r : io_result unit)
| Continue (send_idx : option nat) (clear_ready : bool).

Section loop.
Context `{WireLib} (cmsg_space : nat → nat) (dbg : bool) (dup : Fd → option Fd).

Definition send_round (msg : MarshalledMessage) (serial : N) (send_idx : option nat)
    (send_lock : SendState) (answers : list answer) (w : Wire) : round_end * SendState * Wire :=
  match send_idx with
  | Some send_idx =>
      if decide (send_idx < current_idx send_lock) then (Return (Ok ()), send_lock, w) else
      match finish_sending_next cmsg_space dbg send_lock answers w with
      | (Ok new_idx, ss, w) =>
          (if decide (send_idx < new_idx) then Return (Ok ()) else Continue (Some send_idx) false, ss, w)
      | (Err WouldBlock, ss, w) => (Continue (Some send_idx) true, ss, w)
      | (Err e, ss, w) => (Return (Err e), ss, w)
      | (Panic, ss, w) => (Return Panic, ss, w)
      end
  | None =>
      match write_next_message cmsg_space dbg dup send_lock msg serial answers w with
      | (Ok (Some si), ss, w) => (Continue (Some si) false, ss, w)
      | (Ok None, ss, w) => (Return (Ok ()), ss, w)
      | (Err WouldBlock, ss, w) => (Continue None true, ss, w)
      | (Err e, ss, w) => (Return (Err e), ss, w)
      | (Panic, ss, w) => (Return Panic, ss, w)
      end
  end.

(** The loop of a task that is alone, by the answers of the socket in each round; [None]
    when it still runs after them. *)
Fixpoint send_msg_loop (msg : MarshalledMessage) (serial : N) (send_idx : option nat)
    (ss : SendState) (rounds : list (list answer)) (w : Wire)
    : option (io_result unit) * SendState * Wire :=
  match rounds with
  | [] => (None, ss, w)
  | answers :: rounds' =>
      match send_round msg serial send_idx ss answers w with
      | (Return r, ss, w) => (Some r, ss, w)
      | (Continue send_idx _, ss, w) => send_msg_loop msg serial send_idx ss rounds' w
      end
  end.

(** ** Several tasks *)

Record task := MkTask {
  t_msg : MarshalledMessage;
  t_serial : N;
  t_idx : option nat;
  t_result : option (io_result unit);
}.

Record SendSys := MkSys {
  sys_state : SendState;
  sys_wire : Wire;
  sys_ready : bool;
  sys_tasks : list task;
}.

(** A task starts [send_msg_loop], the task [k] runs a round, the socket is marked writable. *)
Inductive send_op :=
| OStart (msg : MarshalledMessage) (serial : N)
| ORound (k : nat) (answers : list answer)
| OReady.

Definition sys_step (s : SendSys) (op : send_op) : SendSys :=
  match op with
  | OStart msg serial =>
      MkSys (sys_state s) (sys_wire s) (sys_ready s) (sys_tasks s ++ [MkTask msg serial None None])
  | ORound k answers =>
      match sys_tasks s !! k with
      | Some (MkTask msg serial send_idx None) =>
          if sys_ready s then
            let '(e, ss, w) := send_round msg serial send_idx (sys_state s) answers (sys_wire s) in
            match e with
            | Return r => MkSys ss w true (<[k := MkTask msg serial send_idx (Some r)]> (sys_tasks s))
            | Continue si clear =>
                MkSys ss w (negb clear) (<[k := MkTask msg serial si None]> (sys_tasks s))
            end
          else s
      | _ => s
      end
  | OReady => MkSys (sys_state s) (sys_wire s) true (sys_tasks s)
  end.

Definition sys_run (s : SendSys) (ops : list send_op) : SendSys := foldl sys_step s ops.

Definition sys_new : SendSys := MkSys (MkSend false 0 []) (MkWire [] []) true [].

(** ** The order of the messages *)

Definition task_bytes (t : task) : bytes :=
  match marshal_header dbg (t_msg t) (t_serial t) with
  | Ok hdr => hdr ++ buf (m_body (t_msg t))
  | _ => []
  end.

(** A message that marshals, without descriptors. *)
Definition plain_msg (msg : MarshalledMessage) (serial : N) : Prop :=
  raw_fds (m_body msg) = [] ∧ ∃ hdr, marshal_header dbg msg serial = Ok hdr ∧ hdr ≠ [].

Definition send_op_ok (op : send_op) : Prop :=
  match op with
  | OStart msg serial => plain_msg msg serial
  | ORound _ answers => Forall soft answers
  | OReady => True
  end.

(** Where in the order the index [i] of the queue is, when [dn] messages are out and [cur] is
    the index of the first that is not. *)
Definition placed (dn cur p i : nat) : Prop :=
  if decide (i < cur) then p < dn else p = dn + (i - cur).

Lemma placed_shift dn cur p i k : placed dn cur p i → placed (dn + k) (cur + k) p i.
Proof. unfold placed. repeat case_decide; lia. Qed.

Lemma placed_lt dn cur p i n : placed dn cur p i → i < cur + n → p < dn + n.
Proof. unfold placed. case_decide; lia. Qed.

Definition out_bytes (o : RawOut) : bytes := header o ++ out_body o.

(** The tasks whose messages are in the order. *)
Definition task_placed (ss : SendState) (order : list nat) (k : nat) (t : task) : Prop :=
  let dn := length order - length (queue ss) in
  plain_msg (t_msg t) (t_serial t) ∧
  match t_result t, t_idx t with
  | Some r, _ => r = Ok () ∧ ∃ p, order !! p = Some k ∧ p < dn
  | None, Some i => i < idx ss ∧ ∃ p, order !! p = Some k ∧ placed dn (current_idx ss) p i
  | None, None => k ∉ order
  end.

Record queue_ok (ss : SendState) (w : Wire) (msgs : list bytes) : Prop := {
  qo_out : Forall out_ok (queue ss);
  qo_fds : Forall no_fds (queue ss);
  qo_idx : length (queue ss) ≤ idx ss;
  qo_trace : w_bytes w ++ pending (queue ss) = mjoin msgs;
  qo_suffix : ∃ out, msgs = out ++ map out_bytes (queue ss);
}.

Lemma out_msg_bytes q q' : map out_msg q' = map out_msg q → map out_bytes q' = map out_bytes q.
Proof.
  revert q. induction q' as [|o' q' IH]; intros [|o q]; cbn; try done.
  intros [= Hh Hb _ Hq]. f_equal; [unfold out_bytes; congruence|by apply IH].
Qed.

Lemma drained_bytes ss ss' :
  drained ss ss' → ∃ k, k ≤ length (queue ss) ∧ length (queue ss') = length (queue ss) - k ∧
    map out_bytes (queue ss') = drop k (map out_bytes (queue ss)).
Proof.
  intros (_ & _ & _ & k & Hk & Hm). exists k. split; [done|]. split.
  - apply (f_equal length) in Hm. by rewrite length_drop, !length_map in Hm.
  - rewrite skipn_map in Hm |- *. by apply out_msg_bytes.
Qed.

(** Draining keeps the order. *)
Lemma queue_ok_drained ss ss' w w' msgs :
  queue_ok ss w msgs → drained ss ss' → trace w' (queue ss') = trace w (queue ss) →
  queue_ok ss' w' msgs.
Proof.
  intros Hok Hd Ht. destruct (drained_bytes ss ss' Hd) as (k & Hk & Hl & Hb).
  pose proof Hd as (Ho & Hi & _). split.
  - done.
  - eapply no_fds_drained; [done|apply Hok].
  - pose proof (qo_idx _ _ _ Hok). lia.
  - apply (f_equal fst) in Ht. cbn in Ht. rewrite Ht. apply Hok.
  - destruct (qo_suffix _ _ _ Hok) as [out ->]. exists (out ++ take k (map out_bytes (queue ss))).
    by rewrite Hb, <- app_assoc, take_drop.
Qed.

Lemma length_mjoin_le (q : list RawOut) : length (pending q) ≤ length (mjoin (map out_bytes q)).
Proof.
  induction q as [|o q IH]; [done|]. rewrite pending_cons. cbn [map].
  change (mjoin (out_bytes o :: map out_bytes q)) with (out_bytes o ++ mjoin (map out_bytes q)).
  rewrite !length_app. unfold remaining at 1. rewrite length_drop. unfold out_bytes at 1. lia.
Qed.

(** The messages not in the queue are on the wire. *)
Lemma queue_ok_out ss w msgs p :
  queue_ok ss w msgs → p < length msgs - length (queue ss) →
  mjoin (take (S p) msgs) `prefix_of` w_bytes w.
Proof.
  intros Hok Hp. destruct (qo_suffix _ _ _ Hok) as [out ->].
  rewrite length_app, length_map in Hp. rewrite take_app_le by lia.
  pose proof (qo_trace _ _ _ Hok) as Ht. rewrite mjoin_app in Ht.
  pose proof (length_mjoin_le (queue ss)) as Hl.
  assert (mjoin out `prefix_of` w_bytes w) as Hout.
  { apply (f_equal length) in Ht as Hlen. rewrite !length_app in Hlen.
    apply (f_equal (take (length (mjoin out)))) in Ht.
    rewrite take_app_length, take_app_le in Ht by lia. rewrite <- Ht. apply prefix_take. }
  etrans; [|exact Hout]. exists (mjoin (drop (S p) out)). by rewrite <- mjoin_app, take_drop.
Qed.

End loop.

Section write.
Context `{WireLib} (cmsg_space : nat → nat) (dbg : bool) (dup : Fd → option Fd)
  (Hspace : ∀ n, n ≤ DBUS_MAX_FD_MESSAGE → cmsg_space (4 * n) ≤ 256).

(** A new message goes to the end of the order. *)
Lemma write_plain ss w msgs msg serial answers :
  queue_ok ss w msgs → plain_msg dbg msg serial → Forall soft answers →
  ∃ o ss' w', write_next_message cmsg_space dbg dup ss msg serial answers w = (Ok o, ss', w') ∧
    queue_ok ss' w' (msgs ++ [task_bytes dbg (MkTask msg serial None None)]) ∧
    match o with
    | None => queue ss' = [] ∧ idx ss' = idx ss
    | Some i => i = idx ss ∧ idx ss' = S (idx ss) ∧
        ∃ k, k ≤ length (queue ss) ∧ length (queue ss') = S (length (queue ss) - k)
    end.
Proof.
  intros Hok (Hfds & hdr & Hm & Hne) Hsoft.
  destruct (write_next_message_spec cmsg_space dbg Hspace dup ss msg serial hdr [] answers w)
    as (r & ss' & w' & -> & Hwq & Hr); [apply Hok|done|done| | | |intros _; apply no_fds_barrier, Hok|].
  1-3: rewrite Hfds; cbn; first [done | lia].
  assert (task_bytes dbg (MkTask msg serial None None) = hdr ++ buf (m_body msg)) as ->
    by (unfold task_bytes; cbn; by rewrite Hm).
  destruct r as [o|e|]; [| |done].
  2: { destruct Hr as (He & Hin & _). by destruct (soft_no_error e answers Hsoft He). }
  exists o, ss', w'. split; [done|]. apply (f_equal fst) in Hr. cbn in Hr.
  assert (w_bytes w' ++ pending (queue ss') = mjoin (msgs ++ [hdr ++ buf (m_body msg)])) as Ht.
  { rewrite Hr, pending_app, app_assoc, (qo_trace _ _ _ Hok), mjoin_app. done. }
  destruct o as [i|].
  - destruct Hwq as (-> & Hi & s & o' & Hd & Hq & Hmsg & Hout & _).
    destruct (drained_bytes ss s Hd) as (k & Hk & Hl & Hb).
    split; [|split_and!; [done..|]; exists k; rewrite Hq, length_app, Hl; cbn; split; lia].
    split; [done| | |done|].
    + rewrite Hq. apply Forall_app. split; [eapply no_fds_drained; [done|apply Hok]|].
      apply Forall_singleton. unfold no_fds, out_msg in *. cbn in Hmsg. congruence.
    + pose proof (qo_idx _ _ _ Hok). rewrite Hq, length_app, Hl. cbn. lia.
    + destruct (qo_suffix _ _ _ Hok) as [out ->]. exists (out ++ take k (map out_bytes (queue ss))).
      rewrite Hq, map_app, Hb, <- !app_assoc. f_equal. rewrite (app_assoc (take k _)), take_drop.
      f_equal. cbn. unfold out_bytes. unfold out_msg in Hmsg. cbn in Hmsg. congruence.
  - destruct Hwq as (Hq & Hi & _). split; [|done]. rewrite Hq in Ht. split; rewrite ?Hq; try done.
    + cbn. lia.
    + eexists. by rewrite app_nil_r.
Qed.

(** ** The invariant of a system of tasks *)

Definition order_bytes (tasks : list task) (order : list nat) : list bytes :=
  map (λ k, default [] (task_bytes dbg <$> tasks !! k)) order.

Record sys_inv (s : SendSys) (order : list nat) : Prop := {
  si_ready : sys_ready s = true;
  si_queue : queue_ok (sys_state s) (sys_wire s) (order_bytes (sys_tasks s) order);
  si_nodup : NoDup order;
  si_known : Forall (λ k, k < length (sys_tasks s)) order;
  si_tasks k t : sys_tasks s !! k = Some t → task_placed dbg (sys_state s) order k t;
}.

Lemma order_bytes_insert tasks order k t t' :
  tasks !! k = Some t → t_msg t' = t_msg t → t_serial t' = t_serial t →
  order_bytes (<[k := t']> tasks) order = order_bytes tasks order.
Proof.
  intros Hk Hm Hs. unfold order_bytes. apply map_ext. intros j.
  destruct (decide (j = k)) as [->|Hne]; [|by rewrite list_lookup_insert_ne].
  rewrite list_lookup_insert_eq by by eapply lookup_lt_Some.
  rewrite Hk. cbn. unfold task_bytes. by rewrite Hm, Hs.
Qed.

Lemma order_bytes_app tasks order t :
  Forall (λ k, k < length tasks) order → order_bytes (tasks ++ [t]) order = order_bytes tasks order.
Proof.
  intros Hk. unfold order_bytes. apply map_ext_in. intros j Hj%list_elem_of_In.
  rewrite Forall_forall in Hk. by rewrite lookup_app_l by by apply Hk.
Qed.

Lemma order_bytes_snoc tasks order k t :
  tasks !! k = Some t →
  order_bytes tasks (order ++ [k]) = order_bytes tasks order ++ [task_bytes dbg t].
Proof. intros Hk. unfold order_bytes. rewrite map_app. cbn. by rewrite Hk. Qed.

Lemma queue_le_order s order : sys_inv s order → length (queue (sys_state s)) ≤ length order.
Proof.
  intros Hs. destruct (qo_suffix _ _ _ (si_queue _ _ Hs)) as [out Ho].
  apply (f_equal length) in Ho. unfold order_bytes in Ho. rewrite length_app, !length_map in Ho. lia.
Qed.

(** A task keeps its place when the queue moves on and others join the order. *)
Lemma task_advance ss ss' order ext j t :
  let dn := length order - length (queue ss) in
  let dn' := length (order ++ ext) - length (queue ss') in
  idx ss ≤ idx ss' → dn ≤ dn' → j ∉ ext →
  (∀ p i, i < idx ss → placed dn (current_idx ss) p i → placed dn' (current_idx ss') p i) →
  task_placed dbg ss order j t → task_placed dbg ss' (order ++ ext) j t.
Proof.
  cbv zeta. intros Hi Hd Hj Hp [Hm Ht]. split; [done|].
  destruct (t_result t) as [r|].
  - destruct Ht as (-> & p & Ho & Hlt). split; [done|]. exists p. split; [by apply lookup_app_l_Some|lia].
  - destruct (t_idx t) as [i|].
    + destruct Ht as (Hi' & p & Ho & Hpl). split; [lia|]. exists p.
      split; [by apply lookup_app_l_Some|by apply Hp].
    + rewrite elem_of_app. tauto.
Qed.

Lemma task_drained ss ss' order j t :
  length (queue ss) ≤ length order → length (queue ss) ≤ idx ss → drained ss ss' →
  task_placed dbg ss order j t → task_placed dbg ss' order j t.
Proof.
  intros Hq Hq' Hd Ht. destruct (drained_bytes ss ss' Hd) as (k & Hk & Hl & _).
  destruct Hd as (_ & Hi & _). rewrite <- (app_nil_r order). apply (task_advance ss); rewrite ?app_nil_r.
  - lia.
  - lia.
  - apply not_elem_of_nil.
  - intros p i _ Hp. apply (placed_shift _ _ _ _ k) in Hp. unfold current_idx in *.
    rewrite Hl, Hi. replace (length order - (length (queue ss) - k)) with
      (length order - length (queue ss) + k) by lia.
    by replace (idx ss - (length (queue ss) - k)) with (idx ss - length (queue ss) + k) by lia.
  - done.
Qed.

(** The order once the task [k] has written its message. *)
Lemma task_written ss ss' order k j t o :
  length (queue ss) ≤ length order → length (queue ss) ≤ idx ss → j ≠ k →
  match o with
  | None => queue ss' = [] ∧ idx ss' = idx ss
  | Some i => i = idx ss ∧ idx ss' = S (idx ss) ∧
      ∃ n, n ≤ length (queue ss) ∧ length (queue ss') = S (length (queue ss) - n)
  end →
  task_placed dbg ss order j t → task_placed dbg ss' (order ++ [k]) j t.
Proof.
  intros Hq Hq' Hj Ho Ht. assert (j ∉ [k]) as Hjk by by rewrite list_elem_of_singleton.
  destruct o as [i|].
  - destruct Ho as (-> & Hi & n & Hn & Hl). apply (task_advance ss); [lia| |done| |done];
      rewrite length_app; cbn [length]; [lia|].
    intros p i _ Hp. apply (placed_shift _ _ _ _ n) in Hp. unfold current_idx in *. rewrite Hl, Hi.
    replace (length order + 1 - S (length (queue ss) - n)) with
      (length order - length (queue ss) + n) by lia.
    by replace (S (idx ss) - S (length (queue ss) - n)) with (idx ss - length (queue ss) + n) by lia.
  - destruct Ho as (Hq0 & Hi). apply (task_advance ss); [lia| |done| |done];
      rewrite length_app, Hq0; cbn [length]; [lia|].
    intros p i Hii Hp. unfold current_idx in *. rewrite Hi, Hq0. cbn [length].
    apply (placed_lt _ _ _ _ (length (queue ss))) in Hp; [|lia].
    unfold placed. rewrite decide_True by lia. lia.
Qed.

Lemma step_start s order msg serial :
  sys_inv s order → plain_msg dbg msg serial →
  sys_inv (sys_step cmsg_space dbg dup s (OStart msg serial)) order.
Proof.
  intros Hs Hm. split; cbn.
  - apply Hs.
  - rewrite order_bytes_app by apply Hs. apply Hs.
  - apply Hs.
  - eapply Forall_impl; [apply Hs|]. intros k Hk. cbn in Hk. rewrite length_app. lia.
  - intros k t Hk. apply lookup_app_Some in Hk as [Hk|[Hge Hk]]; [by apply Hs|].
    apply list_lookup_singleton_Some in Hk as [Hk <-]. split; [done|].
    intros Hin. pose proof (si_known _ _ Hs) as Hkn. rewrite Forall_forall in Hkn.
    apply Hkn in Hin. lia.
Qed.

Lemma sys_inv_update s order' ss' w' k t t' :
  sys_tasks s !! k = Some t → t_msg t' = t_msg t → t_serial t' = t_serial t →
  queue_ok ss' w' (order_bytes (sys_tasks s) order') → NoDup order' →
  Forall (λ k, k < length (sys_tasks s)) order' → task_placed dbg ss' order' k t' →
  (∀ j u, j ≠ k → sys_tasks s !! j = Some u → task_placed dbg ss' order' j u) →
  sys_inv (MkSys ss' w' true (<[k := t']> (sys_tasks s))) order'.
Proof.
  intros Hk Hm Hser Hq Hnd Hkn Ht Hothers. split; cbn.
  - done.
  - by erewrite order_bytes_insert.
  - done.
  - by rewrite length_insert.
  - intros j u Hj. apply list_lookup_insert_Some in Hj as [(-> & <- & _)|[Hne Hj]]; [done|].
    by eapply Hothers.
Qed.

Lemma step_first_round s order k msg serial answers :
  sys_inv s order → sys_tasks s !! k = Some (MkTask msg serial None None) → Forall soft answers →
  sys_inv (sys_step cmsg_space dbg dup s (ORound k answers)) (order ++ [k]).
Proof.
  intros Hs Hk Hsoft. pose proof (queue_le_order _ _ Hs) as Hle.
  pose proof (qo_idx _ _ _ (si_queue _ _ Hs)) as Hqi.
  destruct (si_tasks _ _ Hs _ _ Hk) as [Hm Hno]. cbn in Hm, Hno.
  cbn [sys_step]. rewrite Hk, (si_ready _ _ Hs). cbn [send_round].
  destruct (write_plain (sys_state s) (sys_wire s) _ msg serial answers (si_queue _ _ Hs) Hm Hsoft)
    as (o & ss' & w' & -> & Hq & Ho).
  assert (∀ t', t_msg t' = msg → t_serial t' = serial → task_placed dbg ss' (order ++ [k]) k t' →
    sys_inv (MkSys ss' w' true (<[k := t']> (sys_tasks s))) (order ++ [k])) as Hupd.
  { intros t' Ht1 Ht2 Ht. eapply sys_inv_update; [done|done|done| | | |done|].
    - by rewrite (order_bytes_snoc _ _ _ _ Hk).
    - apply NoDup_app. split_and!; [apply Hs| |apply NoDup_singleton].
      intros j Hj ->%list_elem_of_singleton. done.
    - apply Forall_app. split; [apply Hs|]. apply Forall_singleton. by eapply lookup_lt_Some.
    - intros j u Hj Hu. eapply task_written; [done..|]. by apply Hs. }
  assert ((order ++ [k]) !! length order = Some k) as Hp by by rewrite list_lookup_middle.
  destruct o as [i|]; apply Hupd; try done; (split; [done|]); cbn.
  - destruct Ho as (-> & Hi & n & Hn & Hl). split; [lia|]. exists (length order). split; [done|].
    unfold placed, current_idx. rewrite Hi, Hl, length_app. cbn [length]. case_decide; lia.
  - split; [done|]. exists (length order). split; [done|].
    destruct Ho as (-> & _). rewrite length_app. cbn. lia.
Qed.

Lemma step_later_round s order k msg serial i answers :
  sys_inv s order → sys_tasks s !! k = Some (MkTask msg serial (Some i) None) → Forall soft answers →
  sys_inv (sys_step cmsg_space dbg dup s (ORound k answers)) order.
Proof.
  intros Hs Hk Hsoft. pose proof (queue_le_order _ _ Hs) as Hle.
  pose proof (qo_idx _ _ _ (si_queue _ _ Hs)) as Hqi.
  destruct (si_tasks _ _ Hs _ _ Hk) as [Hm (Hi & p & Hp & Hpl)]. cbn in Hm, Hi, Hp, Hpl.
  cbn [sys_step]. rewrite Hk, (si_ready _ _ Hs). cbn [send_round].
  destruct (decide (i < current_idx (sys_state s))) as [Hlt|Hge].
  { eapply sys_inv_update; [done..|apply Hs|apply Hs|apply Hs| |intros; by apply Hs].
    split; [done|]. cbn. split; [done|]. exists p. split; [done|].
    unfold placed in Hpl. by rewrite decide_True in Hpl. }
  destruct (finish_sending_next_spec cmsg_space dbg Hspace (sys_state s) answers (sys_wire s))
    as (r & ss' & w' & -> & Ht & Hd & Hr); [apply Hs|].
  destruct r as [ni|e|]; [| |done].
  2: { destruct Hr as [He Hin]. by destruct (soft_no_error e answers Hsoft He). }
  assert (∀ u j, task_placed dbg (sys_state s) order j u → task_placed dbg ss' order j u) as Hothers
    by (intros u j; by apply task_drained).
  pose proof (queue_ok_drained _ _ _ w' _ (si_queue _ _ Hs) Hd Ht) as Hq.
  pose proof (Hothers _ _ (si_tasks _ _ Hs _ _ Hk)) as Hme.
  destruct (decide (i < ni)) as [Hlt|Hge']; cbn [negb];
    (eapply sys_inv_update; [done..|apply Hs|apply Hs| |intros; apply Hothers; by apply Hs]).
  - destruct Hme as [_ (_ & p' & Hp' & Hpl')]. cbn in Hp', Hpl'.
    split; [done|]. cbn. split; [done|]. exists p'. split; [done|].
    unfold placed in Hpl'. rewrite decide_True in Hpl' by by rewrite <- Hr. done.
  - exact Hme.
Qed.

Lemma sys_step_ok s order op :
  sys_inv s order → send_op_ok dbg op →
  ∃ ext, sys_inv (sys_step cmsg_space dbg dup s op) (order ++ ext).
Proof.
  intros Hs Hop. destruct op as [msg serial|k answers|].
  - exists []. rewrite app_nil_r. by apply step_start.
  - destruct (sys_tasks s !! k) as [[msg serial [i|] [r|]]|] eqn:Hk.
    2: { exists []. rewrite app_nil_r. by eapply step_later_round. }
    3: { exists [k]. by eapply step_first_round. }
    all: exists []; rewrite app_nil_r; cbn [sys_step]; by rewrite Hk.
  - exists []. rewrite app_nil_r. split; cbn; [done|apply Hs..].
Qed.

Lemma sys_new_inv : sys_inv sys_new [].
Proof.
  split; cbn; [done| |constructor|constructor|done].
  split; cbn; [constructor|constructor|lia|done|]. by exists [].
Qed.

Lemma sys_run_ok s order ops :
  sys_inv s order → Forall (send_op_ok dbg) ops →
  ∃ order', sys_inv (sys_run cmsg_space dbg dup s ops) order'.
Proof.
  intros Hs Hops. revert s order Hs. induction Hops as [|op ops Hop Hops IH]; intros s order Hs.
  { by exists order. }
  destruct (sys_step_ok s order op Hs Hop) as [ext Hs']. by eapply IH.
Qed.

(** C14: [send_msg_loop] under contention.  However the rounds of any number of tasks
    interleave, when all of them send messages without descriptors that can be marshalled,
    and whatever partial writes the socket takes, as long as it fails with [WouldBlock] only
    (with descriptors in the queue it is otherwise: [write_next_message_overtakes]): the
    messages written form one order, in which each task that has started is
    exactly once, whole, the bytes on the wire and in the queue being theirs in this order;
    a task returns only with success, and only when its message and all those before it
    are on the wire entirely. *)
Theorem send_msg_loop_order ops :
  Forall (send_op_ok dbg) ops →
  let s := sys_run cmsg_space dbg dup sys_new ops in
  ∃ order, NoDup order ∧
    w_bytes (sys_wire s) ++ pending (queue (sys_state s)) = mjoin (order_bytes (sys_tasks s) order) ∧
    ∀ k t, sys_tasks s !! k = Some t →
      (k ∈ order ↔ is_Some (t_idx t) ∨ is_Some (t_result t)) ∧
      ∀ r, t_result t = Some r → r = Ok () ∧ ∃ p, order !! p = Some k ∧
        mjoin (order_bytes (sys_tasks s) (take (S p) order)) `prefix_of` w_bytes (sys_wire s).
Proof.
  intros Hops s. destruct (sys_run_ok sys_new [] ops sys_new_inv Hops) as [order Hs].
  fold s in Hs. exists order. split; [apply Hs|]. split; [apply Hs|]. intros k t Hk.
  pose proof (si_tasks _ _ Hs _ _ Hk) as [_ Ht]. split.
  - destruct (t_result t) as [r|].
    { destruct Ht as (_ & p & Hp & _). split; [by eauto|]. intros _. by eapply list_elem_of_lookup_2. }
    destruct (t_idx t) as [i|].
    { destruct Ht as (_ & p & Hp & _). split; [by eauto|]. intros _. by eapply list_elem_of_lookup_2. }
    split; [done|]. by intros [[? ?]|[? ?]].
  - intros r Hr. rewrite Hr in Ht. destruct Ht as (-> & p & Hp & Hlt). split; [done|].
    exists p. split; [done|]. unfold order_bytes. rewrite <- firstn_map.
    eapply queue_ok_out; [apply Hs|]. unfold order_bytes. by rewrite length_map.
Qed.

(** a full socket makes the loop spin.  While the socket takes nothing, a round of a task
    that waits in the queue changes nothing at all and leaves the socket marked writable,
    although nothing can be written: the next round starts at once instead of waiting, and so
    on as often as the socket stays full. *)
Theorem send_msg_loop_spins s order k msg serial i n :
  sys_inv s order → sys_tasks s !! k = Some (MkTask msg serial (Some i) None) →
  current_idx (sys_state s) ≤ i →
  sys_run cmsg_space dbg dup s (replicate n (ORound k [Fails WouldBlock])) = s ∧ sys_ready s = true.
Proof.
  intros Hs Hk Hi. split; [|apply Hs]. induction n as [|n IH]; [done|].
  unfold sys_run in *. cbn [replicate foldl].
  assert (sys_step cmsg_space dbg dup s (ORound k [Fails WouldBlock]) = s) as ->; [|exact IH].
  cbn [sys_step]. rewrite Hk, (si_ready _ _ Hs). cbn [send_round]. rewrite decide_False by lia.
  assert (finish_sending_next cmsg_space dbg (sys_state s) [Fails WouldBlock] (sys_wire s) =
    (Ok (current_idx (sys_state s)), sys_state s, sys_wire s)) as ->.
  { cbn [finish_sending_next]. destruct (decide (queue (sys_state s) = [])) as [|Hne]; [done|].
    destruct (queue (sys_state s)) as [|o q] eqn:Hq; [done|].
    destruct (populate_spec cmsg_space Hspace (E:=ErrorKind) 32 o q ltac:(lia)) as (ios & anc & -> & _);
      [|done]. rewrite <- Hq. apply Hs. }
  rewrite decide_False by lia. cbn [negb]. rewrite list_insert_id by done.
  pose proof (si_ready _ _ Hs). by destruct s as [? ? [] ?].
Qed.

(** ** A task that is alone *)

(** A round in which the socket takes something at first. *)
Definition round_delivers (answers : list answer) : Prop :=
  ∃ n rest, answers = Took (S n) :: rest ∧ Forall soft rest.

Lemma finish_sending_next_writes ss answers w :
  w_bytes w `prefix_of` w_bytes (finish_sending_next cmsg_space dbg ss answers w).2.
Proof.
  revert ss w. induction answers as [|a answers IH]; intros ss w; cbn [finish_sending_next];
    (destruct (decide (queue ss = [])); [done|]);
    destruct (populate _ _ _ _ _) as [[ios anc]| |]; try done.
  destruct a as [took|e]; [|by destruct e]. destruct (update_written _ _) as [q rest].
  set (w1 := wire_add w ios anc _). assert (w_bytes w `prefix_of` w_bytes w1) as Hw by by eexists.
  destruct (dbg && _); [done|]. etrans; [exact Hw|]. apply IH.
Qed.

Lemma write_next_message_writes msg serial ss answers w :
  w_bytes w `prefix_of` w_bytes (write_next_message cmsg_space dbg dup ss msg serial answers w).2.
Proof.
  unfold write_next_message. destruct (marshal_header dbg msg serial) as [hdr| |]; [|done..].
  destruct (decide _) as [_|_]; [done|]. destruct (mapM dup _) as [new_fds|]; [|done].
  generalize (MkOut 0 hdr (buf (m_body msg)) new_fds). revert ss w.
  induction answers as [|a answers IH]; intros ss w out; cbn [write_loop];
    destruct (fill_write _ _ _) as [[ios anc]| |]; try done.
  destruct a as [k|e]; [|by destruct e]. destruct (update_written _ _) as [q rest].
  set (w1 := wire_add w ios anc _). assert (w_bytes w `prefix_of` w_bytes w1) as Hw by by eexists.
  destruct (decide (rest = 0)); [etrans; [exact Hw|apply IH]|].
  destruct (decide _); [done|]. destruct (dbg && _); [done|]. etrans; [exact Hw|apply IH].
Qed.

Lemma finish_sending_next_shrinks ss answers w msgs :
  queue_ok ss w msgs → queue ss ≠ [] → round_delivers answers →
  ∃ ss' w', finish_sending_next cmsg_space dbg ss answers w = (Ok (current_idx ss'), ss', w') ∧
    queue_ok ss' w' msgs ∧ idx ss' = idx ss ∧
    length (pending (queue ss')) < length (pending (queue ss)).
Proof.
  intros Hok Hne (n & rest & -> & Hsoft).
  destruct (finish_sending_next_spec cmsg_space dbg Hspace ss (Took (S n) :: rest) w)
    as (r & ss' & w' & Heq & Ht & Hd & Hr); [apply Hok|].
  destruct r as [i|e|]; [| |done].
  2: { destruct Hr as [He Hin]. assert (Forall soft (Took (S n) :: rest)) as Hs by by constructor.
    by destruct (soft_no_error e _ Hs He). }
  subst i. exists ss', w'. split; [done|]. split; [by eapply queue_ok_drained|].
  split; [apply Hd|]. apply (f_equal fst) in Ht. cbn in Ht. apply (f_equal length) in Ht.
  rewrite !length_app in Ht.
  assert (length (w_bytes w) < length (w_bytes w')); [|lia].
  cbn [finish_sending_next] in Heq. rewrite decide_False in Heq by done.
  pose proof (qo_out _ _ _ Hok) as Hout. destruct (queue ss) as [|o q] eqn:Hq; [done|].
  destruct (populate_spec cmsg_space Hspace (E:=ErrorKind) 32 o q ltac:(lia) Hout)
    as (ios & anc & Hpop & _ & Hios & _). rewrite Hpop in Heq.
  destruct (update_written _ _) as [q' left]. destruct (dbg && _); [discriminate Heq|].
  pose proof (finish_sending_next_writes (set_queue ss q') rest
    (wire_add w ios anc (Nat.min (S n) (length (mjoin ios))))) as Hpre.
  rewrite Heq in Hpre. apply prefix_length in Hpre. cbn [snd wire_add w_bytes] in Hpre.
  rewrite length_app, length_take in Hpre.
  assert (length (mjoin ios) ≠ 0) by (by intros ?%length_zero_iff_nil). lia.
Qed.

(** Waiting for the last message of the queue. *)
Lemma loop_waits msg serial i ss rounds w msgs :
  queue_ok ss w msgs → idx ss = S i → queue ss ≠ [] → Forall round_delivers rounds →
  length (pending (queue ss)) ≤ length rounds →
  ∃ ss' w', send_msg_loop cmsg_space dbg dup msg serial (Some i) ss rounds w = (Some (Ok ()), ss', w') ∧
    w_bytes w' = mjoin msgs.
Proof.
  intros Hok Hi Hne Hr. revert ss w Hok Hi Hne.
  induction Hr as [|answers rounds Hd Hr IH]; intros ss w Hok Hi Hne Hlen.
  { destruct Hne. apply pending_nil; [apply Hok|]. apply length_zero_iff_nil. cbn in Hlen. lia. }
  assert (¬ i < current_idx ss) as Hge.
  { unfold current_idx. destruct (queue ss); [done|]. cbn. lia. }
  cbn [send_msg_loop send_round]. rewrite decide_False by done.
  destruct (finish_sending_next_shrinks ss answers w msgs Hok Hne Hd)
    as (ss' & w' & -> & Hok' & Hi' & Hlen').
  destruct (decide (i < current_idx ss')) as [Hlt|Hge'].
  - eexists _, _. split; [done|]. pose proof (qo_trace _ _ _ Hok') as Ht. unfold current_idx in Hlt.
    destruct (queue ss'); [by rewrite app_nil_r in Ht|]. cbn in Hlt. lia.
  - apply IH; [done|congruence| |cbn in Hlen; lia].
    intros Hq. apply Hge'. unfold current_idx. rewrite Hq. cbn. lia.
Qed.

(** C30: [send_msg_loop] ends.  For a task that is alone, with a queue and a message without
    descriptors, when the socket takes at least a byte in every round (otherwise it can spin), the loop returns success after at most as many rounds as there are bytes
    to write and one more, and the wire then ends with all that was queued and the whole
    message. *)
Theorem send_msg_loop_terminates msg serial ss rounds w msgs :
  queue_ok ss w msgs → plain_msg dbg msg serial → Forall round_delivers rounds →
  let b := task_bytes dbg (MkTask msg serial None None) in
  S (length (pending (queue ss)) + length b) ≤ length rounds →
  ∃ ss' w', send_msg_loop cmsg_space dbg dup msg serial None ss rounds w = (Some (Ok ()), ss', w') ∧
    w_bytes w' = w_bytes w ++ pending (queue ss) ++ b.
Proof.
  intros Hok Hm Hr b Hlen. destruct Hr as [|answers rounds Hd Hr]; [cbn in Hlen; lia|].
  assert (Forall soft answers) as Hsoft by (destruct Hd as (n & rest & -> & ?); by constructor).
  destruct (write_plain ss w msgs msg serial answers Hok Hm Hsoft) as (o & ss' & w' & Hw & Hok' & Ho).
  fold b in Hok'. cbn [send_msg_loop send_round]. rewrite Hw.
  assert (mjoin (msgs ++ [b]) = w_bytes w ++ pending (queue ss) ++ b) as Hall.
  { rewrite mjoin_app, <- (qo_trace _ _ _ Hok), <- app_assoc. do 2 f_equal. apply app_nil_r. }
  rewrite <- Hall. destruct o as [i|].
  - destruct Ho as (-> & Hi & n & _ & Hl).
    apply (loop_waits msg serial (idx ss) ss' rounds w' _ Hok' Hi); [|done|].
    { intros Hq. rewrite Hq in Hl. done. }
    pose proof (qo_trace _ _ _ Hok') as Ht. rewrite Hall in Ht. apply (f_equal length) in Ht.
    rewrite !length_app in Ht. cbn [length] in Hlen.
    cut (length (w_bytes w) ≤ length (w_bytes w')); [lia|].
    pose proof (write_next_message_writes msg serial ss answers w) as Hpre. rewrite Hw in Hpre.
    by apply prefix_length.
  - destruct Ho as (Hq & _). eexists _, _. split; [done|].
    pose proof (qo_trace _ _ _ Hok') as Ht. rewrite Hq in Ht. by rewrite app_nil_r in Ht.
Qed.
End write.

(** ** Concrete tasks *)

Lemma ping_plain : plain_msg true ping_call 7.
Proof.
  split; [done|]. exists ping_hdr. split; [exact ping_hdr_eq|]. intros Hn.
  pose proof ping_hdr_eq as He. rewrite Hn in He. by vm_compute in He.
Qed.

(** Two tasks: the first writes five bytes and then waits for the socket, the second writes
    behind it, and then takes the rest of both out. *)
Definition two_tasks : list send_op :=
  [OStart ping_call 7; OStart ping_call 7; ORound 0 [Took 5; Fails WouldBlock];
   ORound 1 [Took 4]; ORound 1 [Took 1000; Took 1000]; ORound 0 []].

Lemma two_tasks_ok : Forall (send_op_ok true) two_tasks.
Proof. repeat first [exact ping_plain | apply Forall_nil | apply Forall_cons; split | progress cbn | done]. Qed.

Definition run_tasks (ops : list send_op) : SendSys :=
  sys_run linux_cmsg_space true Some sys_new ops.

Lemma send_msg_loop_order_witness :
  map t_result (sys_tasks (run_tasks two_tasks)) = [Some (Ok ()); Some (Ok ())] ∧
  ∃ order, NoDup order ∧
    w_bytes (sys_wire (run_tasks two_tasks)) ++ pending (queue (sys_state (run_tasks two_tasks))) =
      mjoin (order_bytes true (sys_tasks (run_tasks two_tasks)) order).
Proof.
  split; [by vm_compute|].
  destruct (send_msg_loop_order linux_cmsg_space true Some linux_cmsg_space_fits two_tasks
    two_tasks_ok) as (order & Hnd & Hb & _).
  exists order. split; [exact Hnd|exact Hb].
Defined.

Definition blocked_tasks : SendSys := run_tasks [OStart ping_call 7; ORound 0 [Took 5; Fails WouldBlock]].

Lemma blocked_tasks_inv : ∃ order, sys_inv true blocked_tasks order.
Proof.
  apply (sys_run_ok linux_cmsg_space true Some linux_cmsg_space_fits _ [] _ (sys_new_inv true)).
  repeat first [exact ping_plain | apply Forall_nil | apply Forall_cons; split | progress cbn | done].
Qed.

Lemma send_msg_loop_spins_witness :
  sys_run linux_cmsg_space true Some blocked_tasks (replicate 1000 (ORound 0 [Fails WouldBlock])) =
    blocked_tasks ∧ sys_ready blocked_tasks = true.
Proof.
  destruct blocked_tasks_inv as [order Hs].
  refine (send_msg_loop_spins linux_cmsg_space true Some linux_cmsg_space_fits blocked_tasks order 0
    ping_call 7 0 1000 Hs _ _); [by vm_compute|vm_compute; lia].
Defined.

Lemma send_msg_loop_terminates_witness :
  ∃ ss' w', send_msg_loop linux_cmsg_space true Some ping_call 7 None (MkSend false 0 [])
      (replicate 300 [Took 1; Fails WouldBlock]) (MkWire [] []) = (Some (Ok ()), ss', w') ∧
    w_bytes w' = [] ++ pending [] ++ task_bytes true (MkTask ping_call 7 None None).
Proof.
  destruct (send_msg_loop_terminates linux_cmsg_space true Some linux_cmsg_space_fits ping_call 7
    (MkSend false 0 []) (replicate 300 [Took 1; Fails WouldBlock]) (MkWire [] []) [])
    as (ss' & w' & Hs & Hw).
  - split; cbn; [constructor|constructor|lia|done|by exists []].
  - exact ping_plain.
  - apply Forall_replicate. exists 0, [Fails WouldBlock]. by repeat constructor.
  - vm_compute. lia.
  - exists ss', w'. split; [exact Hs|exact Hw].
Defined.
