(* ===== verification/Descriptors.v ===== *)
(** * conn/sender.rs: who closes the descriptors of a message

    A message is sent with duplicates of its descriptors.  They belong to its [RawOut],
    whose destructor closes them: when the message leaves the queue, when it is written
    without being queued, when writing it fails, and when the [SendState] goes.

    The functions of Sender.v are repeated here with the descriptors each call opens and
    closes next to what they returned there, which is unchanged, and run against the table
    of the open descriptors of the process, which other code uses as well. *)

From S2P Require Import Prelude Utils Body Message Header DBusWire Sender.
From Stdlib Require Import Lia.

(** [Drop for RawOut], and of the queue of a [SendState]: what is closed. *)
Definition drop_out (o : RawOut) : list Fd := fds o.

Definition drop_state (s : SendState) : list Fd := mjoin (map drop_out (queue s)).

(** [update_written], with the destructors of the messages popped. *)
Fixpoint update_written_fds (queue : list RawOut) (written : nat)
    : list RawOut * nat * list Fd :=
  match queue with
  | [] => ([], written, [])
  | out :: queue' =>
      let '(out, written) := advance out written in
      if decide (written = 0) then
        if done out then (queue', written, drop_out out) else (out :: queue', written, [])
      else
        let '(q, rest, closed) := update_written_fds queue' written in
        (q, rest, drop_out out ++ closed)
  end.

Section calls.
Context (cmsg_space : nat → nat) (dbg : bool).

Fixpoint finish_sending_next_fds (self : SendState) (answers : list answer) (w : Wire)
    : (io_result nat * SendState * Wire) * list Fd :=
  if decide (queue self = []) then ((Ok (current_idx self), self, w), []) else
  match populate cmsg_space 32 (queue self) [] anc_new with
  | Ok (ios, anc) =>
      match answers with
      | Took n :: answers' =>
          let written := Nat.min n (length (mjoin ios)) in
          let w := wire_add w ios anc written in
          let '(q, rest, closed) := update_written_fds (queue self) written in
          if dbg && negb (bool_decide (rest = 0)) then ((Panic, set_queue self q, w), closed) else
          let '(res, closed') := finish_sending_next_fds (set_queue self q) answers' w in
          (res, closed ++ closed')
      | [] | Fails WouldBlock :: _ => ((Ok (current_idx self), self, w), [])
      | Fails e :: _ => ((Err e, self, w), [])
      end
  | Err e => ((Err e, self, w), [])
  | Panic => ((Panic, self, w), [])
  end.

(** The loop of [write_next_message]: [out] is dropped unless it is queued. *)
Fixpoint write_loop_fds (self : SendState) (out : RawOut) (answers : list answer) (w : Wire)
    : (io_result (option nat) * SendState * Wire) * list Fd :=
  let needed := length (header out) + length (out_body out) in
  match fill_write cmsg_space (queue self) out with
  | Ok (ios, anc) =>
      match answers with
      | Took n :: answers' =>
          let sent := Nat.min n (length (mjoin ios)) in
          let w := wire_add w ios anc sent in
          let '(q, rest, closed) := update_written_fds (queue self) sent in
          if decide (rest = 0) then
            let '(res, closed') := write_loop_fds (set_queue self q) out answers' w in
            (res, closed ++ closed') else
          let out := set_written out (written out + rest) in
          if decide (written out = needed) then
            ((Ok None, set_queue self q, w), closed ++ drop_out out) else
          if dbg && negb (bool_decide (written out < needed)) then
            ((Panic, set_queue self q, w), closed ++ drop_out out) else
          let '(res, closed') := write_loop_fds (set_queue self q) out answers' w in
          (res, closed ++ closed')
      | [] | Fails WouldBlock :: _ =>
          ((Ok (Some (idx self)), MkSend (with_fd self) (S (idx self)) (queue self ++ [out]), w), [])
      | Fails e :: _ => ((Err e, self, w), drop_out out)
      end
  | Err e => ((Err e, self, w), drop_out out)
  | Panic => ((Panic, self, w), drop_out out)
  end.

Context `{WireLib} (dup : Fd → option Fd).

(** [for fd in fds { out.fds.push(fd.dup()?) }]: the duplicates, and whether all were
    made. *)
Fixpoint dup_all (l : list Fd) : list Fd * bool :=
  match l with
  | [] => ([], true)
  | fd :: l' =>
      match dup fd with
      | None => ([], false)
      | Some fd' => let '(opened, ok) := dup_all l' in (fd' :: opened, ok)
      end
  end.

(** The result of [write_next_message], what it opened and what it closed. *)
Definition write_next_message_fds (self : SendState) (msg : MarshalledMessage) (serial : N)
    (answers : list answer) (w : Wire)
    : (io_result (option nat) * SendState * Wire) * list Fd * list Fd :=
  match marshal_header dbg msg serial with
  | Panic => ((Panic, self, w), [], [])
  | Err _ => ((Err InvalidInput, self, w), [], [])
  | Ok hdr =>
      let msg_fds := raw_fds (m_body msg) in
      if decide ((with_fd self = false ∧ msg_fds ≠ []) ∨ DBUS_MAX_FD_MESSAGE < length msg_fds)
      then ((Err InvalidInput, self, w), [], []) else
      match dup_all msg_fds with
      | (opened, false) =>
          ((Err InvalidData, self, w), opened, drop_out (MkOut 0 hdr (buf (m_body msg)) opened))
      | (opened, true) =>
          let '(res, closed) :=
            write_loop_fds self (MkOut 0 hdr (buf (m_body msg)) opened) answers w in
          (res, opened, closed)
      end
  end.
End calls.

(** ** The results are those of Sender.v *)

Lemma update_written_fds_erase q n : (update_written_fds q n).1 = update_written q n.
Proof.
  revert n. induction q as [|o q IH]; intros n; cbn; [done|].
  destruct (advance o n) as [o' n']. case_decide; [by destruct (done o')|].
  rewrite <- IH. by destruct (update_written_fds q n') as [[? ?] ?].
Qed.

(** Takes the erased call apart next to the one with descriptors. *)
Ltac erase_update :=
  match goal with
  | |- context [update_written_fds ?q ?n] =>
      let H := fresh in
      pose proof (update_written_fds_erase q n) as H;
      destruct (update_written_fds q n) as [[? ?] ?]; cbn [fst] in H; rewrite <- H; clear H
  end.

Section erase.
Context (cmsg_space : nat → nat) (dbg : bool).

Lemma finish_fds_erase self answers w :
  (finish_sending_next_fds cmsg_space dbg self answers w).1 =
    finish_sending_next cmsg_space dbg self answers w.
Proof.
  revert self w. induction answers as [|a answers IH]; intros self w; cbn;
    (case_decide; [done|]); destruct (populate _ _ _ _ _) as [[ios anc]|e|]; try done.
  destruct a as [n|e]; [|by destruct e]. erase_update.
  case_match; [done|]. rewrite <- IH. by destruct (finish_sending_next_fds _ _ _ _ _).
Qed.

Lemma write_loop_fds_erase self out answers w :
  (write_loop_fds cmsg_space dbg self out answers w).1 =
    write_loop cmsg_space dbg self out answers w.
Proof.
  revert self out w. induction answers as [|a answers IH]; intros self out w; cbn;
    destruct (fill_write _ _ _) as [[ios anc]|e|]; try done.
  destruct a as [n|e]; [|by destruct e]. erase_update.
  case_decide; [rewrite <- IH; by destruct (write_loop_fds _ _ _ _ _ _)|].
  case_decide; [done|]. case_match; [done|].
  rewrite <- IH. by destruct (write_loop_fds _ _ _ _ _ _).
Qed.

Context `{WireLib} (dup : Fd → option Fd).

Lemma dup_all_mapM l :
  match mapM dup l with
  | Some ds => dup_all dup l = (ds, true)
  | None => ∃ ds, dup_all dup l = (ds, false)
  end.
Proof.
  induction l as [|fd l IH]; cbn; [done|].
  destruct (dup fd) as [fd'|]; cbn; [|eauto].
  destruct (mapM dup l) as [ds|]; cbn; [by rewrite IH|].
  destruct IH as [ds ->]. eauto.
Qed.

Lemma write_next_message_fds_erase self msg serial answers w :
  (write_next_message_fds cmsg_space dbg dup self msg serial answers w).1.1 =
    write_next_message cmsg_space dbg dup self msg serial answers w.
Proof.
  unfold write_next_message_fds, write_next_message.
  destruct (marshal_header dbg msg serial) as [hdr|e|]; [|done..]. cbv zeta.
  case_decide; [done|]. pose proof (dup_all_mapM (raw_fds (m_body msg))) as Hd.
  destruct (mapM dup _) as [ds|]; [rewrite Hd|destruct Hd as [ds ->]; done].
  rewrite <- write_loop_fds_erase. by destruct (write_loop_fds _ _ _ _ _ _).
Qed.
End erase.

(** ** The account: what a call held and opened, it closed or holds *)

(** The descriptors that belong to the messages of the queue. *)
Definition held (q : list RawOut) : list Fd := mjoin (map drop_out q).

Lemma held_cons o q : held (o :: q) = drop_out o ++ held q.
Proof. done. Qed.

Lemma held_app q q' : held (q ++ q') = held q ++ held q'.
Proof. unfold held. by rewrite map_app, mjoin_app. Qed.

Lemma held_snoc q o : held (q ++ [o]) = held q ++ fds o.
Proof. rewrite held_app. unfold held, drop_out. cbn. by rewrite app_nil_r. Qed.

Lemma advance_fds o n : fds (advance o n).1 = fds o.
Proof. unfold advance. repeat case_decide; done. Qed.

Lemma update_written_fds_spec q n :
  let '(q', rest, closed) := update_written_fds q n in
  held q = closed ++ held q' ∧ (rest ≠ 0 → q' = []).
Proof.
  revert n. induction q as [|o q IH]; intros n; cbn [update_written_fds]; [done|].
  pose proof (advance_fds o n) as Ho. destruct (advance o n) as [o' n']. cbn [fst] in Ho.
  rewrite held_cons. change (drop_out o) with (fds o). rewrite <- Ho.
  destruct (decide (n' = 0)) as [->|_]; [by destruct (done o')|].
  specialize (IH n'). destruct (update_written_fds q n') as [[q' rest] closed].
  destruct IH as [-> Hr]. by rewrite <- app_assoc.
Qed.

Section account.
Context (cmsg_space : nat → nat) (dbg : bool).

Lemma finish_account self answers w :
  let '((_, self', _), closed) := finish_sending_next_fds cmsg_space dbg self answers w in
  held (queue self) = closed ++ held (queue self').
Proof.
  revert self w. induction answers as [|a answers IH]; intros self w; cbn;
    (case_decide; [done|]); destruct (populate _ _ _ _ _) as [[ios anc]|e|]; try done.
  destruct a as [n|e]; [|by destruct e].
  pose proof (update_written_fds_spec (queue self) (Nat.min n (length (mjoin ios)))) as Hu.
  destruct (update_written_fds _ _) as [[q rest] closed]. destruct Hu as [Hu _].
  destruct (dbg && _); [done|].
  specialize (IH (set_queue self q) (wire_add w ios anc (Nat.min n (length (mjoin ios))))).
  destruct (finish_sending_next_fds _ _ _ _ _) as [[[r self'] w'] closed'].
  cbn [queue set_queue] in IH. by rewrite Hu, IH, app_assoc.
Qed.

(** In order when the call succeeds; a failed one closes the new descriptors first. *)
Definition balanced {A} (r : io_result A) (before after : list Fd) : Prop :=
  before ≡ₚ after ∧ match r with Ok _ => before = after | _ => True end.

Lemma balanced_eq {A} (r : io_result A) before after : before = after → balanced r before after.
Proof. intros ->. split; [done|]. by destruct r. Qed.

Lemma balanced_app {A} (r : io_result A) l before after :
  balanced r before after → balanced r (l ++ before) (l ++ after).
Proof. intros [Hp He]. split; [by rewrite Hp|]. by destruct r; rewrite ?He. Qed.

Lemma write_loop_account self out answers w :
  let '((r, self', _), closed) := write_loop_fds cmsg_space dbg self out answers w in
  balanced r (held (queue self) ++ fds out) (closed ++ held (queue self')).
Proof.
  revert self out w. induction answers as [|a answers IH]; intros self out w; cbn;
    destruct (fill_write _ _ _) as [[ios anc]|e|];
    try (split; [apply Permutation_app_comm|done]);
    try (apply balanced_eq; symmetry; apply held_snoc).
  destruct a as [n|e].
  2:{ destruct e; try (split; [apply Permutation_app_comm|done]).
      apply balanced_eq. symmetry. apply held_snoc. }
  pose proof (update_written_fds_spec (queue self) (Nat.min n (length (mjoin ios)))) as Hu.
  destruct (update_written_fds _ _) as [[q rest] closed]. destruct Hu as [Hu Hq].
  set (w' := wire_add _ _ _ _). clearbody w'. rewrite Hu.
  case_decide as Hr.
  - specialize (IH (set_queue self q) out w').
    destruct (write_loop_fds _ _ _ _ _ _) as [[[r self'] w''] closed']. cbn [queue set_queue] in IH.
    rewrite <- !app_assoc. by apply balanced_app.
  - rewrite (Hq Hr) in *. cbn [queue set_queue]. rewrite app_nil_r.
    case_decide; [apply balanced_eq; unfold held; cbn; by rewrite app_nil_r|].
    destruct (dbg && _); [apply balanced_eq; unfold held; cbn; by rewrite app_nil_r|].
    specialize (IH (set_queue self []) (set_written out (written out + rest)) w').
    destruct (write_loop_fds _ _ _ _ _ _) as [[[r self'] w''] closed']. cbn [queue set_queue] in IH.
    rewrite <- app_assoc. by apply balanced_app.
Qed.

Context `{WireLib} (dup : Fd → option Fd).

Lemma write_account self msg serial answers w :
  let '((r, self', _), opened, closed) :=
    write_next_message_fds cmsg_space dbg dup self msg serial answers w in
  balanced r (held (queue self) ++ opened) (closed ++ held (queue self')).
Proof.
  unfold write_next_message_fds.
  destruct (marshal_header dbg msg serial) as [hdr|e|];
    try (apply balanced_eq; by rewrite app_nil_r).
  cbv zeta. case_decide; [apply balanced_eq; by rewrite app_nil_r|].
  destruct (dup_all dup _) as [opened [|]]; [|split; [apply Permutation_app_comm|done]].
  pose proof (write_loop_account self (MkOut 0 hdr (buf (m_body msg)) opened) answers w) as Hw.
  by destruct (write_loop_fds _ _ _ _ _ _) as [[[r self'] w'] closed].
Qed.
End account.

(** ** The table of open descriptors *)

(** [close] of each; closing what is not open is an error of the program ([None]). *)
Fixpoint close_all (l : list Fd) (t : gset Fd) : option (gset Fd) :=
  match l with
  | [] => Some t
  | fd :: l' => if decide (fd ∈ t) then close_all l' (t ∖ {[fd]}) else None
  end.

Lemma close_all_own l (own : gset Fd) t :
  NoDup l → list_to_set l ∪ own = t → list_to_set l ## own → close_all l t = Some own.
Proof.
  intros Hl. revert t. induction Hl as [|fd l Hfd Hl IH]; intros t <- Hd; cbn [close_all].
  - f_equal. set_solver.
  - rewrite decide_True by set_solver. apply IH; set_solver.
Qed.

(** What was owned and opened, and is closed or still owned. *)
Lemma close_balanced own opened closed own' (others : gset Fd) :
  NoDup own → NoDup opened → list_to_set own ## others →
  list_to_set opened ## list_to_set own ∪ others →
  own ++ opened ≡ₚ closed ++ own' →
  NoDup own' ∧ list_to_set own' ## others ∧
  close_all closed (list_to_set own ∪ others ∪ list_to_set opened) =
    Some (list_to_set own' ∪ others).
Proof.
  intros Hown Hopen Hd1 Hd2 Hp.
  assert (NoDup (closed ++ own')) as (Hc & Hcx & Hown')%NoDup_app.
  { rewrite <- Hp. apply NoDup_app. split_and!; [done| |done]. set_solver. }
  pose proof (list_to_set_perm_L (C:=gset Fd) _ _ Hp) as Hs. rewrite !list_to_set_app_L in Hs.
  split_and!; [done|set_solver|]. apply close_all_own; [done|set_solver|].
  apply disjoint_union_r. split; [set_solver|].
  assert (list_to_set closed ⊆@{gset Fd} list_to_set own ∪ list_to_set opened) by set_solver.
  set_solver.
Qed.

(** A process with a send state: [p_others] are the descriptors of its other code, the
    socket and those of the messages among them; [p_table] is what is open, as long as
    nothing was closed that was not. *)
Record Process := MkProcess {
  p_state : SendState;
  p_wire : Wire;
  p_others : gset Fd;
  p_table : option (gset Fd);
}.

Definition process_new (with_fd : bool) (others : gset Fd) : Process :=
  MkProcess (MkSend with_fd 0 []) (MkWire [] []) others (Some others).

Section process.
Context (cmsg_space : nat → nat) (dbg : bool) `{WireLib}.

(** A duplicate is a descriptor that was not open.  Other code opens such descriptors
    as well, and closes its own. *)
Inductive process_step (p : Process) : Process → Prop :=
| process_write t dup msg serial answers res s w opened closed :
    p_table p = Some t → NoDup opened → list_to_set opened ## t →
    write_next_message_fds cmsg_space dbg dup (p_state p) msg serial answers (p_wire p)
      = ((res, s, w), opened, closed) →
    process_step p (MkProcess s w (p_others p) (close_all closed (t ∪ list_to_set opened)))
| process_drain t answers res s w closed :
    p_table p = Some t →
    finish_sending_next_fds cmsg_space dbg (p_state p) answers (p_wire p) = ((res, s, w), closed) →
    process_step p (MkProcess s w (p_others p) (close_all closed t))
| process_other t others :
    p_table p = Some t → others ∖ p_others p ## t →
    process_step p (MkProcess (p_state p) (p_wire p) others (Some (t ∖ p_others p ∪ others))).

(** The table is that of the other code and, apart from it, that of the queue. *)
Definition owned (p : Process) : Prop :=
  let own := held (queue (p_state p)) in
  NoDup own ∧ list_to_set own ## p_others p ∧ p_table p = Some (list_to_set own ∪ p_others p).

Lemma step_owned p p' : owned p → process_step p p' → owned p'.
Proof.
  intros (Hn & Hd & Ht) Hstep. unfold owned. destruct Hstep as
    [t dup msg serial answers res s w opened closed Ht' Hno Hfresh Hw
    |t answers res s w closed Ht' Hf|t others Ht' Hfresh];
    rewrite Ht in Ht'; injection Ht' as <-; cbn [p_state p_others p_table queue].
  - pose proof (write_account cmsg_space dbg dup (p_state p) msg serial answers (p_wire p)) as Ha.
    rewrite Hw in Ha. destruct Ha as [Ha _]. by eapply close_balanced.
  - pose proof (finish_account cmsg_space dbg (p_state p) answers (p_wire p)) as Ha.
    rewrite Hf in Ha.
    destruct (close_balanced (held (queue (p_state p))) [] closed (held (queue s)) (p_others p))
      as (? & ? & Hc); [done|constructor|done|set_solver|by rewrite app_nil_r, Ha|].
    split_and!; [done..|]. rewrite <- Hc. f_equal. set_solver.
  - split_and!; [done| |f_equal]; set_solver.
Qed.

Lemma reachable_owned fd others p : rtc process_step (process_new fd others) p → owned p.
Proof.
  intros Hr. assert (owned (process_new fd others)) as Ho.
  { unfold owned, held. cbn. split_and!; [constructor|set_solver|f_equal; set_solver]. }
  induction Hr as [|p p' p'' Hs _ IH]; [done|]. apply IH. by eapply step_owned.
Qed.

(** C15: every descriptor is closed exactly once.  Whatever messages are written and
    drained, however the socket answers, whichever call fails, with partly made duplicates
    or a panic, and whatever other code does with its own descriptors in between: a close
    never meets a descriptor that is not open or not a duplicate of this queue, and when
    the send state goes too, exactly the descriptors of the other code are left open. *)
Theorem descriptors_closed_once fd others p :
  rtc process_step (process_new fd others) p →
  ∃ t, p_table p = Some t ∧ p_others p ⊆ t ∧
    close_all (drop_state (p_state p)) t = Some (p_others p).
Proof.
  intros (Hn & Hd & Ht)%reachable_owned. eexists. split; [exact Ht|].
  split; [set_solver|]. by apply close_all_own.
Qed.

(** ** Not before they are sent *)

(** The descriptors the peer was sent, and those still to go. *)
Definition sent (w : Wire) : list Fd := mjoin (map snd (w_fds w)).

Definition unsent (q : list RawOut) : list Fd :=
  mjoin (map (λ o, if decide (blocked o) then fds o else []) q).

Lemma fd_trace_unsent off q : mjoin (map snd (fd_trace off q)) = unsent q.
Proof.
  revert off. induction q as [|o q IH]; intros off; [done|]. cbn [fd_trace].
  rewrite map_app, mjoin_app, IH. unfold unsent. cbn [map]. case_decide; [|done].
  cbn. by rewrite app_nil_r.
Qed.

Lemma trace_sent w q w' q' : trace w' q' = trace w q → sent w' ++ unsent q' = sent w ++ unsent q.
Proof.
  intros Ht. apply (f_equal (λ x, mjoin (map snd x.2))) in Ht. cbn in Ht.
  by rewrite !map_app, !mjoin_app, !fd_trace_unsent in Ht.
Qed.

Lemma unsent_held q : length (unsent q) ≤ length (held q).
Proof.
  induction q as [|o q IH]; [done|]. unfold unsent, held in *. cbn [map].
  change (mjoin (?x :: ?l)) with (x ++ mjoin l). rewrite !length_app.
  unfold drop_out at 1. case_decide; cbn [length]; lia.
Qed.

(** What was sent and has still to go is what was closed and is held, in order. *)
Definition in_order (s : SendState) (w : Wire) (closed : list Fd) : Prop :=
  Forall out_ok (queue s) ∧ closed ++ held (queue s) = sent w ++ unsent (queue s).

Lemma in_order_prefix s w closed : in_order s w closed → closed `prefix_of` sent w.
Proof.
  intros [_ Heq]. pose proof (unsent_held (queue s)) as Hl.
  apply (f_equal length) in Heq as Hlen. rewrite !length_app in Hlen.
  apply (f_equal (take (length closed))) in Heq.
  rewrite take_app_length, take_app_le in Heq by lia. rewrite Heq. apply prefix_take.
Qed.

(** Successful writes and any drains; no message without descriptors is written behind
    descriptors that wait. *)
Inductive sending (fd : bool) (dup : Fd → option Fd) : SendState → Wire → list Fd → Prop :=
| sending_new : sending fd dup (MkSend fd 0 []) (MkWire [] []) []
| sending_drain s w closed answers r s' w' closed' :
    sending fd dup s w closed →
    finish_sending_next_fds cmsg_space dbg s answers w = ((r, s', w'), closed') →
    sending fd dup s' w' (closed ++ closed')
| sending_write s w closed msg serial answers r s' w' opened closed' :
    sending fd dup s w closed →
    (∀ hdr, marshal_header dbg msg serial = Ok hdr → hdr ≠ []) →
    (opened = [] → no_barrier (queue s)) →
    write_next_message_fds cmsg_space dbg dup s msg serial answers w
      = ((Ok r, s', w'), opened, closed') →
    sending fd dup s' w' (closed ++ closed').

Context (Hspace : ∀ n, n ≤ DBUS_MAX_FD_MESSAGE → cmsg_space (4 * n) ≤ 256).

Lemma in_order_drain s w closed answers r s' w' closed' :
  in_order s w closed →
  finish_sending_next_fds cmsg_space dbg s answers w = ((r, s', w'), closed') →
  in_order s' w' (closed ++ closed').
Proof.
  intros [Hq Heq] Hf.
  pose proof (finish_account cmsg_space dbg s answers w) as Ha. rewrite Hf in Ha.
  pose proof (finish_fds_erase cmsg_space dbg s answers w) as He. rewrite Hf in He. cbn [fst] in He.
  destruct (finish_sending_next_spec cmsg_space dbg Hspace s answers w Hq)
    as (r0 & s0 & w0 & Hs & Ht & Hd & _).
  rewrite Hs in He. injection He as <- <- <-.
  split; [apply Hd|]. by rewrite <- app_assoc, <- Ha, Heq, (trace_sent _ _ _ _ Ht).
Qed.

Lemma in_order_write dup s w closed msg serial answers r s' w' opened closed' :
  in_order s w closed →
  (∀ hdr, marshal_header dbg msg serial = Ok hdr → hdr ≠ []) →
  (opened = [] → no_barrier (queue s)) →
  write_next_message_fds cmsg_space dbg dup s msg serial answers w
    = ((Ok r, s', w'), opened, closed') →
  in_order s' w' (closed ++ closed').
Proof.
  intros [Hq Heq] Hhdr Hbar Hw.
  pose proof (write_account cmsg_space dbg dup s msg serial answers w) as Ha.
  rewrite Hw in Ha. destruct Ha as [_ Ha].
  unfold write_next_message_fds in Hw.
  destruct (marshal_header dbg msg serial) as [hdr|e|]; [|done..]. cbv zeta in Hw.
  specialize (Hhdr hdr eq_refl).
  destruct (decide (_ ∨ _)) as [|Hlen]; [done|].
  pose proof (dup_all_mapM dup (raw_fds (m_body msg))) as Hd.
  destruct (mapM dup _) as [ds|] eqn:Hm; [|by destruct Hd as [ds Hd]; rewrite Hd in Hw].
  rewrite Hd in Hw.
  pose proof (write_loop_fds_erase cmsg_space dbg s (MkOut 0 hdr (buf (m_body msg)) ds) answers w) as He.
  destruct (write_loop_fds _ _ _ _ _ _) as [[[r0 s0] w0] c0]. injection Hw as -> -> -> -> ->.
  cbn [fst] in He.
  destruct (write_loop_spec cmsg_space dbg Hspace s (MkOut 0 hdr (buf (m_body msg)) opened) answers w)
    as (r1 & s1 & w1 & Hs & Hwq & Ht).
  { apply Forall_app_2; [done|]. apply Forall_singleton. split; cbn.
    - destruct hdr; [done|]. cbn. lia.
    - rewrite <- (length_mapM _ _ _ Hm). apply Nat.le_ngt. intros Hgt. apply Hlen. by right. }
  { done. }
  rewrite Hs in He. injection He as <- <- <-. apply trace_sent in Ht. split.
  - destruct r as [i|]; cbn in Hwq; [by destruct Hwq as (_ & _ & ? & ? & _ & _ & _ & ? & _)|].
    destruct Hwq as [-> _]. constructor.
  - rewrite <- app_assoc, <- Ha, app_assoc, Heq, Ht. unfold unsent.
    rewrite map_app, mjoin_app, <- app_assoc. do 2 f_equal. cbn. unfold blocked. cbn.
    case_decide as Hb; cbn; [by rewrite app_nil_r|].
    destruct opened; [done|]. exfalso. apply Hb. done.
Qed.

(** a descriptor is closed only after it was sent.  As long as the writes succeed,
    the descriptors closed so far are, in order, a first part of those the peer was sent;
    and those the queue still holds are the others of them and all that are still to go. *)
Theorem descriptors_sent_before_closed fd dup s w closed :
  sending fd dup s w closed →
  closed `prefix_of` sent w ∧ closed ++ held (queue s) = sent w ++ unsent (queue s).
Proof.
  intros Hs. assert (in_order s w closed) as Ho.
  { induction Hs as [|s w closed answers r s' w' closed' _ IH Hf
      |s w closed msg serial answers r s' w' opened closed' _ IH Hhdr Hbar Hw].
    - split; [constructor|done].
    - by eapply in_order_drain.
    - by eapply in_order_write. }
  split; [by eapply in_order_prefix|apply Ho].
Qed.
End process.

(** ** The theorems at a message with a descriptor

    A call with the descriptor 3, which is duplicated as 7; the socket takes four bytes and
    then no more, so the rest of the call is queued. *)

Definition fd_call : MarshalledMessage :=
  MkMsg (MkBody [] [] [3] LittleEndian) (dynheader ping_call) (typ ping_call) (flags ping_call).

Definition dup_as_7 (fd : Fd) : option Fd := Some (fd + 4).

Definition fd_call_write : (io_result (option nat) * SendState * Wire) * list Fd * list Fd :=
  write_next_message_fds linux_cmsg_space true dup_as_7 (MkSend true 0 []) fd_call 7 [Took 4]
    (MkWire [] []).

Definition fd_call_queued : SendState := fd_call_write.1.1.1.2.
Definition fd_call_wire : Wire := fd_call_write.1.1.2.

Lemma fd_call_write_eq :
  fd_call_write = ((Ok (Some 0), fd_call_queued, fd_call_wire), [7], []).
Proof. vm_compute. reflexivity. Qed.

(** Other code closes its descriptor 3 and opens 9 meanwhile; then the send state goes. *)
Lemma descriptors_closed_once_witness :
  drop_state fd_call_queued = [7] ∧
  ∃ t, 9 ∈ t ∧ close_all [7] t = Some {[9]}.
Proof.
  split; [reflexivity|].
  assert (rtc (process_step linux_cmsg_space true) (process_new true {[3]})
    (MkProcess fd_call_queued fd_call_wire {[9]}
       (Some (({[3]} ∪ list_to_set [7]) ∖ {[3]} ∪ {[9]})))) as Hr.
  { eapply rtc_l; [|apply rtc_once].
    - apply (process_write linux_cmsg_space true (process_new true {[3]}) {[3]} dup_as_7 fd_call 7
        [Took 4] (Ok (Some 0)) fd_call_queued fd_call_wire [7] [] eq_refl); [by apply NoDup_singleton|set_solver|exact fd_call_write_eq].
    - apply process_other; [reflexivity|]. cbn. set_solver. }
  destruct (descriptors_closed_once linux_cmsg_space true true {[3]} _ Hr) as (t & _ & Hsub & Hc).
  exists t. split; [set_solver|exact Hc].
Defined.

Lemma descriptors_sent_before_closed_witness :
  sent fd_call_wire = [7] ∧ held (queue fd_call_queued) = [7] ∧
  ∃ s w, sending linux_cmsg_space true true dup_as_7 s w [7] ∧ [7] `prefix_of` sent w.
Proof.
  split; [reflexivity|]. split; [reflexivity|].
  assert (sending linux_cmsg_space true true dup_as_7 fd_call_queued fd_call_wire ([] ++ [])) as Hs.
  { eapply (sending_write linux_cmsg_space true true dup_as_7 (MkSend true 0 []) (MkWire [] []) []
      fd_call 7 [Took 4]); [constructor| |intros; constructor|exact fd_call_write_eq].
    intros hdr Hh. vm_compute in Hh. injection Hh as <-. discriminate. }
  remember (finish_sending_next_fds linux_cmsg_space true fd_call_queued [Took 1000] fd_call_wire)
    as res eqn:Hres. vm_compute in Hres. destruct res as [[[r s'] w'] closed].
  assert (closed = [7]) as -> by (by injection Hres).
  assert (sending linux_cmsg_space true true dup_as_7 s' w' [7]) as Hs'.
  { eapply (sending_drain linux_cmsg_space true true dup_as_7 _ _ ([] ++ []) [Took 1000] r s' w' [7] Hs).
    etransitivity; [|symmetry; exact Hres]. vm_compute. reflexivity. }
  exists s', w'. split; [exact Hs'|].
  apply (descriptors_sent_before_closed linux_cmsg_space true linux_cmsg_space_fits _ _ _ _ _ Hs').
Defined.
