(* ===== verification/Recv.v ===== *)
(** * conn/recv.rs: the receive state machine

    [RecvState] assembles one message at a time from what the socket delivers: the
    fixed header, the header fields, the body.  Without descriptors it reads ahead into
    [remaining]; with descriptors it reads no further than the message, so that those
    it gets belong to it.  The reference is [parse_message], which parses the front of
    a complete byte stream in one go.

    The socket is what is still to arrive ([incoming]) and the list of answers to the
    successive [recvmsg] calls: [Got n fds] delivers at most [n] bytes, with [fds];
    [ReadFails e] is an error; after the list the socket is not readable
    ([WouldBlock]).  [RecvLib] is what the crate takes from rustbus. *)

From S2P Require Import Prelude Utils SigStr Body Message StdPath ObjPath Header DBusWire.
From Stdlib Require Import Lia.

(** [rustbus::wire::unmarshal::Header]. *)
Record FixedHeader := MkFixed {
  h_byteorder : ByteOrder;
  h_typ : MessageType;
  h_flags : N;
  h_body_len : N;
  h_serial : N;
}.

Class RecvLib := {
  unmarshal_header : bytes → outcome UnmarshalError FixedHeader;
  align_offset : nat → bytes → nat → outcome UnmarshalError nat;
}.

Inductive InState :=
| SHeader (b : bytes)
| SDynHdr (hdr : FixedHeader) (b : bytes)
| SFinishing (hdr : FixedHeader) (dynhdr : DynamicHeader) (b : bytes).

Record RecvState := MkRecv {
  in_state : InState;
  in_fds : list Fd;
  remaining : bytes;
  rem_loc : nat;
  with_fd : bool;
}.

Inductive read_answer := Got (n : nat) (fds : list Fd) | ReadFails (e : ErrorKind).

Record Sock := MkSock {
  incoming : bytes;
  reads : list read_answer;
  shut : bool;
}.

Definition DBUS_MAX_FD_MESSAGE : nat := 32.

(** [InState::into_buf] clears the buffer, so [into_hdr] starts over. *)
Definition into_buf (s : InState) : bytes := [].

Definition into_hdr (s : InState) : InState := SHeader (into_buf s).

Definition get_mut_buf (s : InState) : bytes :=
  match s with SHeader b | SDynHdr _ b | SFinishing _ _ b => b end.

Definition set_buf (s : InState) (b : bytes) : InState :=
  match s with
  | SHeader _ => SHeader b
  | SDynHdr hdr _ => SDynHdr hdr b
  | SFinishing hdr dynhdr _ => SFinishing hdr dynhdr b
  end.

(** Subtraction of [usize]s; the difference is used as a length to reserve. *)
Definition sub_usize {E} (a b : nat) : outcome E nat :=
  if decide (b ≤ a) then Ok (a - b) else Panic.

(** [parse_u32(&b[12..16], bo) as usize], where [b] has sixteen bytes. *)
Definition array_len_of (b : bytes) (bo : ByteOrder) : io_result nat :=
  n ← map_err (λ _, Other) (parse_u32 (take 4 (drop HEADER_LEN b)) bo); mret (N.to_nat n).

Definition bytes_needed_for_next (s : InState) : io_result nat :=
  match s with
  | SHeader b => sub_usize (HEADER_LEN + 4) (length b)
  | SDynHdr hdr b =>
      if decide (length b < 16) then Ok (16 - length b)
      else
        array_len ← array_len_of b (h_byteorder hdr);
        sub_usize (align_num (HEADER_LEN + 4 + array_len) 8) (length b)
  | SFinishing hdr _ b => sub_usize (N.to_nat (h_body_len hdr)) (length b)
  end.

(** [extend_max]: whether the target is reached, with the vector and the location. *)
Definition extend_max {E} (vec buf : bytes) (loc target : nat)
    : outcome E (bool * bytes * nat) :=
  if decide (target ≤ length vec) then Ok (true, vec, loc) else
  if decide (length buf < loc) then Panic else
  let buf := drop loc buf in
  let needed := target - length vec in
  if decide (length buf < needed) then Ok (false, vec ++ buf, loc + length buf)
  else Ok (true, vec ++ take needed buf, loc + needed).

(** [mm_from_raw]. *)
Definition mm_from_raw (hdr : FixedHeader) (dynhdr : DynamicHeader) (body : bytes)
    (fds : list Fd) : MarshalledMessage :=
  MkMsg (from_parts body fds (default [] (signature dynhdr)) (h_byteorder hdr))
    dynhdr (h_typ hdr) (h_flags hdr).

Definition set_serial (d : DynamicHeader) (n : N) : DynamicHeader :=
  MkDyn (interface d) (member d) (object d) (destination d) (Some n) (sender d)
    (signature d) (error_name d) (response_serial d) (num_fds d).

Definition set_state (self : RecvState) (s : InState) (loc : nat) : RecvState :=
  MkRecv s (in_fds self) (remaining self) loc (with_fd self).

(** A result with the state, and whether the stream was shut down. *)
Abbreviation try_result := (io_result (option (FixedHeader * DynamicHeader * bytes)) * RecvState * bool)%type.

(** A parsed message with the bytes it took, or [None] to wait for more. *)
Abbreviation parse_result := (io_result (option (FixedHeader * DynamicHeader * bytes * nat))).

(** The last match of [try_get_msg]. *)
Definition try_handler (r : try_result) : try_result :=
  match r with
  | (Err WouldBlock, self, sh) => (Ok None, self, sh)
  | (Err e, self, _) =>
      (Err e, MkRecv (into_hdr (in_state self)) [] (remaining self) (rem_loc self) (with_fd self), true)
  | _ => r
  end.

Section recv.
Context `{WireLib} `{RecvLib}.
Context {Ty : Type} (parse_description : bytes → outcome UnmarshalError (list Ty))
  (validate_marshalled : ByteOrder → nat → bytes → Ty → outcome UnmarshalError nat).
Context (dbg : bool) (rem_capacity : nat).

(** The complete header fields of a message, from its first bytes. *)
Definition read_dynheader (with_fd : bool) (hdr : FixedHeader) (dyn_buf : bytes)
    : io_result DynamicHeader :=
  '(_, (used, dynhdr)) ← map_err (λ _, Other)
     (unmarshal_dynheader (MkUCtx (h_byteorder hdr) dyn_buf HEADER_LEN []));
  if decide (h_serial hdr = 0%N) then Err Other else
  let dynhdr := set_serial dynhdr (h_serial hdr) in
  _ ← map_err (λ _, Other) (align_offset 8 dyn_buf (HEADER_LEN + used));
  if decide ((0 < default 0%N (num_fds dynhdr))%N ∧ with_fd = false) then Err Other
  else mret dynhdr.

(** The branches of [try_get_msg]; each falls through to the next by a recursive
    call, whose error handler runs first. *)
Definition try_finishing (self : RecvState) (hdr : FixedHeader) (dynhdr : DynamicHeader)
    (body_buf : bytes) : try_result :=
  match extend_max body_buf (remaining self) (rem_loc self) (N.to_nat (h_body_len hdr)) with
  | Ok (false, body_buf, loc) =>
      (Ok None, set_state self (SFinishing hdr dynhdr body_buf) loc, false)
  | Ok (true, body_buf, loc) =>
      (Ok (Some (hdr, dynhdr, body_buf)), set_state self (SHeader []) loc, false)
  | Err e => (Err e, self, false)
  | Panic => (Panic, self, false)
  end.

Definition try_dynhdr (self : RecvState) (hdr : FixedHeader) (dyn_buf : bytes) : try_result :=
  match extend_max dyn_buf (remaining self) (rem_loc self) (HEADER_LEN + 4) with
  | Ok (false, dyn_buf, loc) => (Ok None, set_state self (SDynHdr hdr dyn_buf) loc, false)
  | Ok (true, dyn_buf, loc) =>
      let total :=
        array_len ← array_len_of dyn_buf (h_byteorder hdr);
        mret (align_num (HEADER_LEN + 4 + array_len) 8) in
      match (total_hdr_len ← total; extend_max dyn_buf (remaining self) loc total_hdr_len) with
      | Ok (false, dyn_buf, loc) => (Ok None, set_state self (SDynHdr hdr dyn_buf) loc, false)
      | Ok (true, dyn_buf, loc) =>
          let self := set_state self (SDynHdr hdr dyn_buf) loc in
          match read_dynheader (with_fd self) hdr dyn_buf with
          | Ok dynhdr => try_handler
              (try_finishing (set_state self (SFinishing hdr dynhdr []) loc) hdr dynhdr [])
          | Err e => (Err e, self, false)
          | Panic => (Panic, self, false)
          end
      | Err e => (Err e, self, false)
      | Panic => (Panic, self, false)
      end
  | Err e => (Err e, self, false)
  | Panic => (Panic, self, false)
  end.

Definition try_header (self : RecvState) (hdr_buf : bytes) : try_result :=
  match extend_max hdr_buf (remaining self) (rem_loc self) HEADER_LEN with
  | Ok (false, hdr_buf, loc) => (Ok None, set_state self (SHeader hdr_buf) loc, false)
  | Ok (true, hdr_buf, loc) =>
      let self := set_state self (SHeader hdr_buf) loc in
      match unmarshal_header hdr_buf with
      | Ok hdr => try_handler (try_dynhdr (set_state self (SDynHdr hdr hdr_buf) loc) hdr hdr_buf)
      | Err _ => (Err Other, self, false)
      | Panic => (Panic, self, false)
      end
  | Err e => (Err e, self, false)
  | Panic => (Panic, self, false)
  end.

Definition try_get_msg (self : RecvState) : try_result :=
  try_handler
    match in_state self with
    | SHeader hdr_buf => try_header self hdr_buf
    | SDynHdr hdr dyn_buf => try_dynhdr self hdr dyn_buf
    | SFinishing hdr dynhdr body_buf => try_finishing self hdr dynhdr body_buf
    end.

(** The end of both branches: build the message and validate its body. *)
Definition deliver (hdr : FixedHeader) (dynhdr : DynamicHeader) (body : bytes)
    (fds : list Fd) : io_result MarshalledMessage * bool :=
  let msg := mm_from_raw hdr dynhdr body fds in
  match Body.validate parse_description validate_marshalled (m_body msg) with
  | Ok _ => (Ok msg, false)
  | Err _ => (Err Other, true)
  | Panic => (Panic, false)
  end.

(** The loop body up to the read: the state, and the bytes wanted. *)
Definition before_read (self : RecvState) : io_result (RecvState * nat) :=
  if dbg && negb (bool_decide (length (remaining self) = rem_loc self)) then Panic else
  if dbg && negb (bool_decide (4096 ≤ rem_capacity)) then Panic else
  let self := MkRecv (in_state self) (in_fds self) [] 0 (with_fd self) in
  needed ← bytes_needed_for_next (in_state self);
  if dbg && negb (bool_decide (0 < needed)) then Panic else
  mret (self, needed).

(** The loop body after a read of [gotten]; [None] goes round again. *)
Definition after_read (self : RecvState) (needed : nat) (gotten : bytes) (fds : list Fd)
    : io_result (option MarshalledMessage) * RecvState * bool :=
  let buf := get_mut_buf (in_state self) ++ take needed gotten in
  let self := MkRecv (set_buf (in_state self) buf)
    (if with_fd self then in_fds self ++ fds else in_fds self)
    (drop needed gotten) 0 (with_fd self) in
  if decide (with_fd self = true ∧ DBUS_MAX_FD_MESSAGE < length (in_fds self)) then
    (Err Other, MkRecv (into_hdr (in_state self)) [] (remaining self) (rem_loc self) (with_fd self), false)
  else
  match try_get_msg self with
  | (Ok (Some (hdr, dynhdr, body)), self, sh) =>
      let fds := in_fds self in
      let self := MkRecv (in_state self) [] (remaining self) (rem_loc self) (with_fd self) in
      if decide (N.of_nat (length fds) ≠ default 0%N (num_fds dynhdr)) then (Err Other, self, sh)
      else
        let '(r, sh) := deliver hdr dynhdr body fds in
        (match r with Ok msg => Ok (Some msg) | Err e => Err e | Panic => Panic end, self, sh)
  | (Ok None, self, sh) => (Ok None, self, sh)
  | (Err e, self, sh) => (Err e, self, sh)
  | (Panic, self, sh) => (Panic, self, sh)
  end.

(** The loop of [get_next_message], by the answers of the socket. *)
Fixpoint recv_loop (self : RecvState) (incoming : bytes) (answers : list read_answer)
    : io_result MarshalledMessage * RecvState * Sock :=
  match before_read self with
  | Ok (self, needed) =>
      match answers with
      | [] => (Err WouldBlock, self, MkSock incoming [] false)
      | ReadFails e :: answers' => (Err e, self, MkSock incoming answers' false)
      | Got n fds :: answers' =>
          let capacity := if with_fd self then needed else needed + rem_capacity in
          let gotten := take n (take capacity incoming) in
          let incoming := drop (length gotten) incoming in
          if decide (gotten = []) then (Err BrokenPipe, self, MkSock incoming answers' false) else
          match after_read self needed gotten fds with
          | (Ok None, self, _) => recv_loop self incoming answers'
          | (Ok (Some msg), self, sh) => (Ok msg, self, MkSock incoming answers' sh)
          | (Err e, self, sh) => (Err e, self, MkSock incoming answers' sh)
          | (Panic, self, sh) => (Panic, self, MkSock incoming answers' sh)
          end
      end
  | Err e => (Err e, self, MkSock incoming answers false)
  | Panic => (Panic, self, MkSock incoming answers false)
  end.

Definition get_next_message (self : RecvState) (sock : Sock)
    : io_result MarshalledMessage * RecvState * Sock :=
  match try_get_msg self with
  | (Ok (Some (hdr, dynhdr, body)), self, sh) =>
      let '(r, sh') := deliver hdr dynhdr body [] in
      (r, self, MkSock (incoming sock) (reads sock) (sh || sh'))
  | (Ok None, self, _) => recv_loop self (incoming sock) (reads sock)
  | (Err e, self, sh) => (Err e, self, MkSock (incoming sock) (reads sock) sh)
  | (Panic, self, sh) => (Panic, self, MkSock (incoming sock) (reads sock) sh)
  end.

(** [pos_next_msg]: bytes already taken from [remaining] count as well. *)
Definition pos_next_msg (self : RecvState) : io_result bool :=
  needed ← bytes_needed_for_next (in_state self);
  mret (bool_decide (needed ≤ length (remaining self))).

(** ** The reference: one message from the front of a stream

    The message with the bytes it takes, or [None] when the stream is too short. *)

Definition parse_body (hdr : FixedHeader) (dynhdr : DynamicHeader) (total : nat) (s : bytes)
    : parse_result :=
  let body_len := N.to_nat (h_body_len hdr) in
  if decide (length s < total + body_len) then Ok None
  else Ok (Some (hdr, dynhdr, take body_len (drop total s), total + body_len)).

Definition parse_dynhdr (with_fd : bool) (hdr : FixedHeader) (s : bytes) : parse_result :=
  if decide (length s < HEADER_LEN + 4) then Ok None else
  array_len ← array_len_of s (h_byteorder hdr);
  let total := align_num (HEADER_LEN + 4 + array_len) 8 in
  if decide (length s < total) then Ok None else
  dynhdr ← read_dynheader with_fd hdr (take total s);
  parse_body hdr dynhdr total s.

Definition parse_message (with_fd : bool) (s : bytes) : parse_result :=
  if decide (length s < HEADER_LEN) then Ok None else
  hdr ← map_err (λ _, Other) (unmarshal_header (take HEADER_LEN s));
  parse_dynhdr with_fd hdr s.
End recv.

(** ** Lengths *)

Lemma array_len_ok b bo : 16 ≤ length b → ∃ n, array_len_of b bo = Ok n.
Proof.
  intros Hb. destruct (parse_u32_total (take 4 (drop HEADER_LEN b)) bo) as [n Hn].
  { rewrite length_take, length_drop. unfold HEADER_LEN. lia. }
  exists (N.to_nat n). unfold array_len_of. by rewrite Hn.
Qed.

Lemma array_len_app b t bo : 16 ≤ length b → array_len_of (b ++ t) bo = array_len_of b bo.
Proof.
  intros Hb. unfold array_len_of, HEADER_LEN.
  by rewrite drop_app_le, take_app_le by (rewrite ?length_drop; lia).
Qed.

(** The length of the header with its fields and padding. *)
Definition total_of (b : bytes) (bo : ByteOrder) : nat :=
  match array_len_of b bo with Ok n => align_num (HEADER_LEN + 4 + n) 8 | _ => 16 end.

Lemma total_of_app b t bo : 16 ≤ length b → total_of (b ++ t) bo = total_of b bo.
Proof. intros. unfold total_of. by rewrite array_len_app. Qed.

Lemma total_of_ge b bo : 16 ≤ total_of b bo.
Proof.
  unfold total_of. case_match; [|done..].
  pose proof (align_num_ge (HEADER_LEN + 4 + a) 8). unfold HEADER_LEN in *. lia.
Qed.

(** [extend_max] moves bytes from the rest to the vector. *)
Lemma extend_max_spec {E} vec buf loc target :
  loc ≤ length buf →
  ∃ full vec' loc', extend_max (E:=E) vec buf loc target = Ok (full, vec', loc') ∧
    loc' ≤ length buf ∧ vec' ++ drop loc' buf = vec ++ drop loc buf ∧ vec `prefix_of` vec' ∧
    if full then length vec' = Nat.max target (length vec)
    else length vec' < target ∧ loc' = length buf.
Proof.
  intros Hloc. unfold extend_max. case_decide as Ht.
  { exists true, vec, loc. split_and!; [done..|lia]. }
  destruct (decide (length buf < loc)) as [|_]; [lia|]. cbv zeta.
  rewrite length_drop. case_decide as Hn.
  - eexists false, _, _. split; [done|].
    replace (loc + (length buf - loc)) with (length buf) by lia.
    rewrite drop_all, app_nil_r, length_app, length_drop. split_and!; [done..|by eexists|lia|done].
  - eexists true, _, _. split; [done|].
    rewrite <- app_assoc, <- drop_drop, take_drop, length_app, length_take, length_drop.
    split_and!; [lia|done|by eexists|lia].
Qed.

Lemma prefix_take_length {A} (l k : list A) : l `prefix_of` k → take (length l) k = l.
Proof. intros [r ->]. apply take_app_length. Qed.

Section spec.
Context `{WireLib} `{RecvLib}.

(** The laws: [unmarshal_header] reads the fixed header only, and reads back one the
    crate writes; [align_offset] accepts an aligned offset. *)
Class RecvLaws : Prop := {
  unmarshal_header_prefix b : HEADER_LEN ≤ length b →
    unmarshal_header b = unmarshal_header (take HEADER_LEN b);
  unmarshal_header_fixed msg n : typ msg ≠ TInvalid → (flags msg < 256)%N → (n < u32_mod)%N →
    unmarshal_header (fixed_head msg n) =
      Ok (MkFixed (byteorder (m_body msg)) (typ msg) (flags msg)
            (wrap32 (N.of_nat (length (buf (m_body msg))))) n);
  align_offset_aligned b off : off mod 8 = 0 → off ≤ length b → align_offset 8 b off = Ok 0;
}.

(** The state has received the bytes [P] of the current message, none too many. *)
Definition represents (wf : bool) (st : InState) (P : bytes) : Prop :=
  match st with
  | SHeader b => b = P ∧ length P ≤ 16
  | SDynHdr hdr b => b = P ∧ HEADER_LEN ≤ length P ∧
      unmarshal_header (take HEADER_LEN P) = Ok hdr ∧
      (length P ≤ 16 ∨ length P ≤ total_of P (h_byteorder hdr))
  | SFinishing hdr dynhdr b => ∃ hd, P = hd ++ b ∧ 16 ≤ length hd ∧
      length hd = total_of hd (h_byteorder hdr) ∧
      unmarshal_header (take HEADER_LEN hd) = Ok hdr ∧
      read_dynheader wf hdr hd = Ok dynhdr ∧ length b ≤ N.to_nat (h_body_len hdr)
  end.

(** It has to read more. *)
Definition hungry (st : InState) : Prop :=
  match st with
  | SHeader b => length b < HEADER_LEN
  | SDynHdr hdr b => length b < 16 ∨ length b < total_of b (h_byteorder hdr)
  | SFinishing hdr _ b => length b < N.to_nat (h_body_len hdr)
  end.

(** [bytes_needed_for_next] is positive and never reads past the message. *)
Lemma bytes_needed_spec wf st P :
  represents wf st P → hungry st →
  ∃ n, bytes_needed_for_next st = Ok n ∧ 0 < n ∧
    ∀ c, length c ≤ n → represents wf (set_buf st (get_mut_buf st ++ c)) (P ++ c).
Proof.
  destruct st as [b|hdr b|hdr d b]; cbn [represents hungry bytes_needed_for_next set_buf get_mut_buf].
  - unfold HEADER_LEN. intros [-> HP] Hb. unfold sub_usize. rewrite decide_True by lia.
    eexists. split_and!; [done|lia|]. intros c Hc. rewrite length_app. split; [done|lia].
  - intros (-> & HP & Hh & Htot) Hb.
    assert (∀ c, HEADER_LEN ≤ length (P ++ c) ∧ unmarshal_header (take HEADER_LEN (P ++ c)) = Ok hdr)
      as Hpre.
    { intros c. rewrite length_app, take_app_le by done. split; [lia|done]. }
    case_decide as Hlt.
    + eexists. split_and!; [done|lia|]. intros c Hc. destruct (Hpre c). split_and!; [done..|].
      left. rewrite length_app. lia.
    + destruct Hb as [|Hb]; [done|]. unfold total_of in Hb.
      destruct (array_len_ok P (h_byteorder hdr)) as [n Hn]; [lia|]. rewrite Hn in Hb |- *.
      cbn [mbind outcome_bind]. unfold sub_usize. rewrite decide_True by lia.
      eexists. split_and!; [done|lia|]. intros c Hc. destruct (Hpre c). split_and!; [done..|].
      right. rewrite total_of_app by lia. unfold total_of. rewrite Hn, length_app. lia.
  - intros (hd & -> & Hhd & Htot & Hh & Hd & Hlen) Hb. unfold sub_usize.
    rewrite decide_True by lia. eexists. split_and!; [done|lia|]. intros c Hc.
    exists hd. rewrite length_app. split_and!; [by rewrite app_assoc|done..|lia].
Qed.

(** [try_get_msg] against the reference on all the bytes at hand. *)
Definition follows (self : RecvState) (full : bytes) (p : parse_result) (t : try_result) : Prop :=
  match p with
  | Ok (Some (hdr, dynhdr, body, n)) => ∃ loc,
      t = (Ok (Some (hdr, dynhdr, body)), set_state self (SHeader []) loc, false) ∧
      loc ≤ length (remaining self) ∧ drop loc (remaining self) = drop n full
  | Ok None => ∃ st, t = (Ok None, set_state self st (length (remaining self)), false) ∧
      represents (with_fd self) st full ∧ hungry st
  | Err e => e = Other ∧ ∃ loc, loc ≤ length (remaining self) ∧
      t = (Err Other, MkRecv (SHeader []) [] (remaining self) loc (with_fd self), true)
  | Panic => ∃ self' sh, t = (Panic, self', sh)
  end.

Lemma try_handler_idem t : try_handler (try_handler t) = try_handler t.
Proof. destruct t as [[[o|e|] ?] ?]; [done|by destruct e|done]. Qed.

Lemma try_finishing_follows self hdr dynhdr hd b :
  let full := hd ++ b ++ drop (rem_loc self) (remaining self) in
  rem_loc self ≤ length (remaining self) →
  length b ≤ N.to_nat (h_body_len hdr) →
  16 ≤ length hd → length hd = total_of hd (h_byteorder hdr) →
  unmarshal_header (take HEADER_LEN hd) = Ok hdr →
  read_dynheader (with_fd self) hdr hd = Ok dynhdr →
  follows self full (parse_body hdr dynhdr (length hd) full)
    (try_handler (try_finishing self hdr dynhdr b)).
Proof.
  intros full Hloc Hb Hhd Htot Hh Hd. unfold try_finishing.
  destruct (extend_max_spec (E:=ErrorKind) b (remaining self) (rem_loc self)
    (N.to_nat (h_body_len hdr)) Hloc) as (ok & b' & loc' & -> & Hloc' & Hcat & _ & Hok).
  assert (full = hd ++ b' ++ drop loc' (remaining self)) as Hfull by (unfold full; by rewrite Hcat).
  unfold parse_body. rewrite Hfull, !length_app. destruct ok.
  - rewrite Nat.max_l in Hok by done. rewrite decide_False by lia. cbn [follows].
    exists loc'. split_and!; [|done|].
    + rewrite drop_app_length, take_app_length' by done. done.
    + by rewrite app_assoc, drop_app_length' by (rewrite length_app; lia).
  - destruct Hok as [Hlt ->]. rewrite drop_all, decide_True by (cbn; lia). cbn [follows].
    eexists. split; [done|]. rewrite app_nil_r. split; [|done].
    exists hd. split_and!; [done..|lia].
Qed.

Lemma parse_dynhdr_long wf hdr s :
  16 ≤ length s →
  parse_dynhdr wf hdr s =
    let total := total_of s (h_byteorder hdr) in
    if decide (length s < total) then Ok None else
    dynhdr ← read_dynheader wf hdr (take total s); parse_body hdr dynhdr total s.
Proof.
  intros Hs. unfold parse_dynhdr, total_of. rewrite decide_False by (unfold HEADER_LEN; lia).
  by destruct (array_len_ok s (h_byteorder hdr) Hs) as [n ->].
Qed.

Lemma read_dynheader_err wf hdr b e : read_dynheader wf hdr b = Err e → e = Other.
Proof.
  unfold read_dynheader. destruct (unmarshal_dynheader _) as [[? [? ?]]|?|]; cbn; try naive_solver.
  case_decide; cbn; [naive_solver|]. destruct (align_offset _ _ _) as [?|?|]; cbn; [|naive_solver..].
  case_decide; naive_solver.
Qed.

Lemma try_dynhdr_follows self hdr P :
  let full := P ++ drop (rem_loc self) (remaining self) in
  rem_loc self ≤ length (remaining self) →
  represents (with_fd self) (SDynHdr hdr P) P →
  follows self full (parse_dynhdr (with_fd self) hdr full)
    (try_handler (try_dynhdr self hdr P)).
Proof.
  intros full Hloc (_ & HP & Hh & Htot). unfold try_dynhdr.
  destruct (extend_max_spec (E:=ErrorKind) P (remaining self) (rem_loc self) (HEADER_LEN + 4) Hloc)
    as (ok & v & loc & -> & Hloc1 & Hcat & [ext ->] & Hok).
  fold full in Hcat. rewrite length_app in Hok. destruct ok.
  2:{ destruct Hok as [Hlt ->]. rewrite drop_all, app_nil_r in Hcat. unfold parse_dynhdr.
    rewrite <- Hcat, decide_True by (rewrite length_app; lia). eexists. split; [done|].
    rewrite <- length_app in Hlt. unfold HEADER_LEN in Hlt. split; [|left; lia].
    split_and!; [done|rewrite length_app; lia|by rewrite take_app_le|left; lia]. }
  unfold HEADER_LEN in Hok. cbv zeta.
  assert (16 ≤ length (P ++ ext)) as H16 by (rewrite length_app; lia).
  destruct (array_len_ok (P ++ ext) (h_byteorder hdr) H16) as [n Hn]. rewrite Hn.
  assert (total_of (P ++ ext) (h_byteorder hdr) = align_num (HEADER_LEN + 4 + n) 8) as Ht
    by (unfold total_of; by rewrite Hn).
  cbn [mbind outcome_bind mret outcome_ret]. rewrite <- Ht.
  destruct (extend_max_spec (E:=ErrorKind) (P ++ ext) (remaining self) loc
    (total_of (P ++ ext) (h_byteorder hdr)) Hloc1)
    as (ok & v & loc2 & -> & Hloc2 & Hcat2 & [ext2 ->] & Hok2).
  rewrite Hcat in Hcat2. set (hd := (P ++ ext) ++ ext2) in *.
  assert (16 ≤ length hd) as Hhd by (unfold hd; rewrite length_app; lia).
  assert (total_of (P ++ ext) (h_byteorder hdr) = total_of hd (h_byteorder hdr)) as Ht2
    by (symmetry; by apply total_of_app).
  assert (total_of full (h_byteorder hdr) = total_of hd (h_byteorder hdr)) as Ht3
    by (rewrite <- Hcat2; by apply total_of_app).
  assert (unmarshal_header (take HEADER_LEN hd) = Ok hdr) as Hh2
    by (unfold hd; by rewrite <- app_assoc, take_app_le).
  rewrite Ht2 in Hok2.
  rewrite parse_dynhdr_long by (rewrite <- Hcat2, length_app; lia). cbv zeta. rewrite Ht3.
  destruct ok.
  2:{ destruct Hok2 as [Hlt ->]. rewrite drop_all, app_nil_r in Hcat2.
    rewrite <- Hcat2, decide_True by done. eexists. split; [done|].
    split; [|by right]. split_and!; [done|unfold HEADER_LEN; lia|done|right; lia]. }
  assert (length (P ++ ext) ≤ total_of hd (h_byteorder hdr)) as Hle.
  { rewrite length_app, Hok. pose proof (total_of_ge hd (h_byteorder hdr)).
    destruct Htot as [?|Htot]; [lia|]. destruct (decide (16 ≤ length P)); [|lia].
    rewrite <- Ht2, total_of_app by done. lia. }
  rewrite Nat.max_l in Hok2 by done.
  rewrite decide_False by (rewrite <- Hcat2, length_app; lia).
  rewrite <- Hok2, <- Hcat2, take_app_length. cbn [set_state with_fd].
  destruct (read_dynheader (with_fd self) hdr hd) as [d|e|] eqn:Hd; cbn [mbind outcome_bind].
  - rewrite try_handler_idem.
    apply (try_finishing_follows (set_state self (SFinishing hdr d []) loc2) hdr d hd []);
      [done|cbn; lia|done..].
  - apply read_dynheader_err in Hd as ->. split; [done|]. by exists loc2.
  - by eexists _, _.
Qed.

Context `{!RecvLaws}.

(** From any state, [try_get_msg] does what parsing the bytes at hand does. *)
Lemma try_get_msg_follows self P :
  let full := P ++ drop (rem_loc self) (remaining self) in
  rem_loc self ≤ length (remaining self) → represents (with_fd self) (in_state self) P →
  follows self full (parse_message (with_fd self) full) (try_get_msg self).
Proof.
  intros full Hloc Hrep. unfold try_get_msg. destruct (in_state self) as [b|hdr b|hdr d b].
  - destruct Hrep as [-> HP]. unfold try_header.
    destruct (extend_max_spec (E:=ErrorKind) P (remaining self) (rem_loc self) HEADER_LEN Hloc)
      as (ok & v & loc & -> & Hloc1 & Hcat & [ext ->] & Hok). fold full in Hcat.
    unfold parse_message. destruct ok.
    2:{ destruct Hok as [Hlt ->]. rewrite drop_all, app_nil_r in Hcat.
      rewrite <- Hcat, decide_True by done. eexists. split; [done|].
      split; [split; [done|unfold HEADER_LEN in Hlt; lia]|done]. }
    assert (HEADER_LEN ≤ length (P ++ ext)) as Hge by lia.
    rewrite <- Hcat, decide_False, take_app_le by (rewrite ?(length_app _ (drop _ _)); lia).
    rewrite (unmarshal_header_prefix (P ++ ext)) by done. cbn [set_state].
    destruct (unmarshal_header (take HEADER_LEN (P ++ ext))) as [hdr|e|] eqn:Hh;
      cbn [map_err mbind outcome_bind].
    + rewrite try_handler_idem.
      apply (try_dynhdr_follows (set_state self (SDynHdr hdr (P ++ ext)) loc) hdr (P ++ ext));
        [done|]. split_and!; [done..|]. left. unfold HEADER_LEN in Hok. lia.
    + split; [done|]. by exists loc.
    + by eexists _, _.
  - pose proof Hrep as (-> & HP & Hh & Htot).
    assert (parse_message (with_fd self) full = parse_dynhdr (with_fd self) hdr full) as ->.
    { unfold parse_message, full. rewrite decide_False by (rewrite length_app; lia).
      rewrite take_app_le by done. by rewrite Hh. }
    by apply try_dynhdr_follows.
  - destruct Hrep as (hd & -> & Hhd & Htot & Hh & Hd & Hb). unfold full.
    rewrite <- !app_assoc.
    assert (∀ t, parse_message (with_fd self) (hd ++ t) = parse_body hdr d (length hd) (hd ++ t)) as ->.
    { intros t. unfold parse_message. rewrite decide_False by (rewrite length_app; unfold HEADER_LEN; lia).
      rewrite take_app_le by (unfold HEADER_LEN; lia). rewrite Hh. cbn [map_err mbind outcome_bind].
      rewrite parse_dynhdr_long by (rewrite length_app; lia). rewrite total_of_app, <- Htot by done.
      cbv zeta. rewrite decide_False by (rewrite length_app; lia).
      by rewrite take_app_length, Hd. }
    by apply try_finishing_follows.
Qed.

(** More bytes do not change a verdict. *)
Lemma parse_message_mono wf s t :
  parse_message wf s ≠ Ok None → parse_message wf (s ++ t) = parse_message wf s.
Proof.
  unfold parse_message. intros Hne. case_decide as Hs; [done|].
  rewrite decide_False, take_app_le by (rewrite ?length_app; lia).
  destruct (unmarshal_header _) as [hdr|e|]; [|done..]. cbn [map_err mbind outcome_bind] in *.
  destruct (decide (16 ≤ length s)) as [H16|H16].
  2:{ unfold parse_dynhdr in Hne. unfold HEADER_LEN in Hne.
    destruct (decide (length s < 12 + 4)) as [_|]; [done|lia]. }
  rewrite parse_dynhdr_long in Hne by done.
  rewrite !parse_dynhdr_long by (rewrite ?length_app; lia). cbv zeta in *.
  rewrite total_of_app by done. set (total := total_of s (h_byteorder hdr)) in *.
  destruct (decide (length s < total)) as [|Ht]; [done|].
  destruct (decide (length (s ++ t) < total)) as [|_]; [rewrite length_app in *; lia|].
  rewrite take_app_le by lia. destruct (read_dynheader wf hdr (take total s)) as [d|e|]; [|done..].
  cbn [mbind outcome_bind] in *. unfold parse_body in *. case_decide as Hb; [done|].
  rewrite length_app in *. rewrite decide_False by lia.
  rewrite drop_app_le, take_app_le by (rewrite ?length_drop; lia). done.
Qed.

(** A hungry state has not seen enough. *)
Lemma hungry_parse wf st P :
  represents wf st P → hungry st → parse_message wf P = Ok None.
Proof.
  unfold parse_message. destruct st as [b|hdr b|hdr d b]; cbn [represents hungry].
  - intros [-> _] Hb. by rewrite decide_True.
  - intros (-> & HP & Hh & Htot) Hb. rewrite decide_False by lia. rewrite Hh.
    cbn [map_err mbind outcome_bind]. destruct (decide (16 ≤ length P)) as [H16|H16].
    + rewrite parse_dynhdr_long by done. cbv zeta. rewrite decide_True by lia. done.
    + unfold parse_dynhdr. rewrite decide_True by (unfold HEADER_LEN; lia). done.
  - intros (hd & -> & Hhd & Htot & Hh & Hd & _) Hb.
    rewrite decide_False by (rewrite length_app; unfold HEADER_LEN; lia).
    rewrite take_app_le by (unfold HEADER_LEN; lia). rewrite Hh. cbn [map_err mbind outcome_bind].
    rewrite parse_dynhdr_long by (rewrite length_app; lia). rewrite total_of_app, <- Htot by done.
    cbv zeta. rewrite decide_False by (rewrite length_app; lia).
    rewrite take_app_length, Hd. cbn [mbind outcome_bind]. unfold parse_body.
    by rewrite decide_True by (rewrite length_app; lia).
Qed.

(** Where a message ends. *)
Lemma parse_message_shape wf s hdr d b n :
  parse_message wf s = Ok (Some (hdr, d, b, n)) →
  16 ≤ length s ∧ unmarshal_header (take HEADER_LEN s) = Ok hdr ∧
  n = total_of s (h_byteorder hdr) + N.to_nat (h_body_len hdr).
Proof.
  unfold parse_message. case_decide; [done|].
  destruct (unmarshal_header (take HEADER_LEN s)) as [h| |] eqn:Hh;
    cbn [map_err mbind outcome_bind]; [|done..].
  destruct (decide (16 ≤ length s)) as [H16|H16].
  2:{ unfold parse_dynhdr. rewrite decide_True by (unfold HEADER_LEN; lia). done. }
  rewrite parse_dynhdr_long by done. cbv zeta. case_decide; [done|].
  destruct (read_dynheader _ _ _); cbn [mbind outcome_bind]; [|done..].
  unfold parse_body. case_decide; [done|]. by intros [= <- _ _ <-].
Qed.

(** What a state holds of a message is not more than the message. *)
Lemma represents_bound wf st P t hdr d b n :
  represents wf st P → parse_message wf (P ++ t) = Ok (Some (hdr, d, b, n)) → length P ≤ n.
Proof.
  intros Hrep (H16 & Hh & ->)%parse_message_shape.
  pose proof (total_of_ge (P ++ t) (h_byteorder hdr)) as Hge.
  assert (length P ≤ 16 → length P ≤ total_of (P ++ t) (h_byteorder hdr) + N.to_nat (h_body_len hdr))
    as Hshort by lia.
  destruct st as [b0|hdr0 b0|hdr0 d0 b0]; cbn [represents] in Hrep.
  - apply Hshort, Hrep.
  - destruct Hrep as (_ & HP & Hh0 & [|Htot]); [by apply Hshort|].
    rewrite take_app_le in Hh by done. rewrite Hh in Hh0. injection Hh0 as <-.
    destruct (decide (length P ≤ 16)); [by apply Hshort|]. rewrite total_of_app by lia. lia.
  - destruct Hrep as (hd & -> & Hhd & Htot & Hh0 & _ & Hb).
    rewrite <- app_assoc, take_app_le in Hh by (unfold HEADER_LEN; lia).
    rewrite Hh in Hh0. injection Hh0 as <-.
    rewrite <- app_assoc, total_of_app by done. rewrite length_app. lia.
Qed.

(** ** Messages from a socket *)

Context {Ty : Type} (parse_description : bytes → outcome UnmarshalError (list Ty))
  (validate_marshalled : ByteOrder → nat → bytes → Ty → outcome UnmarshalError nat).
Context (dbg : bool) (rem_capacity : nat) (Hcap : 4096 ≤ rem_capacity).

Abbreviation check_body := (Body.validate parse_description validate_marshalled).

(** Between calls: the bytes [P] of the current message are in the state. *)
Record recv_inv (self : RecvState) (P : bytes) : Prop := {
  inv_loc : rem_loc self ≤ length (remaining self);
  inv_rep : represents (with_fd self) (in_state self) P;
  inv_hungry : hungry (in_state self);
  inv_fd : with_fd self = true → drop (rem_loc self) (remaining self) = [];
  inv_fds : with_fd self = false → in_fds self = [];
}.

(** The bytes not looked at yet. *)
Definition unread (self : RecvState) (incoming : bytes) : bytes :=
  drop (rem_loc self) (remaining self) ++ incoming.

Definition fds_of (l : list read_answer) : list Fd :=
  mjoin (map (λ a, match a with Got _ fds => fds | ReadFails _ => [] end) l).

(** The descriptors received with the current message. *)
Definition received_fds (self : RecvState) (used : list read_answer) : list Fd :=
  in_fds self ++ (if with_fd self then fds_of used else []).

(** What a call returns, in terms of the stream [full] from the start of the current
    message, the answers [used] and the descriptors [fds] received with it. *)
Definition explains (wf : bool) (full : bytes) (fds : list Fd) (used : list read_answer)
    (r : io_result MarshalledMessage) (self' : RecvState) (sock' : Sock) : Prop :=
  (r ≠ Panic → with_fd self' = wf) ∧
  match r with
  | Ok msg => ∃ hdr dynhdr body n,
      parse_message wf full = Ok (Some (hdr, dynhdr, body, n)) ∧
      msg = mm_from_raw hdr dynhdr body fds ∧
      N.of_nat (length fds) = default 0%N (num_fds dynhdr) ∧
      check_body (m_body msg) = Ok () ∧
      recv_inv self' [] ∧ in_fds self' = [] ∧ unread self' (incoming sock') = drop n full
  | Err e =>
      ((e = WouldBlock ∨ e = BrokenPipe ∨ ReadFails e ∈ used) ∧
       ∃ P', recv_inv self' P' ∧ P' ++ unread self' (incoming sock') = full ∧
         (e ≠ BrokenPipe → in_fds self' = fds)) ∨
      (e = Other ∧
       ((parse_message wf full = Err Other ∧ shut sock' = true) ∨
        (wf = true ∧ DBUS_MAX_FD_MESSAGE < length fds) ∨
        ∃ hdr dynhdr body n, parse_message wf full = Ok (Some (hdr, dynhdr, body, n)) ∧
          (N.of_nat (length fds) ≠ default 0%N (num_fds dynhdr) ∨
           (∃ err, check_body (m_body (mm_from_raw hdr dynhdr body fds)) = Err err) ∧
             shut sock' = true)))
  | Panic =>
      parse_message wf full = Panic ∨
      ∃ hdr dynhdr body n, parse_message wf full = Ok (Some (hdr, dynhdr, body, n)) ∧
        check_body (m_body (mm_from_raw hdr dynhdr body fds)) = Panic
  end.

Lemma explains_cons wf full fds a used r self' sock' :
  explains wf full fds used r self' sock' → explains wf full fds (a :: used) r self' sock'.
Proof.
  intros [Hw Hr]. split; [done|]. destruct r as [| |]; [done| |done].
  destruct Hr as [[He Hr]|Hr]; [left|by right]. split; [|done].
  destruct He as [?|[?|?]]; [by left|by right; left|right; right; by right].
Qed.

Lemma before_read_spec self P :
  recv_inv self P → rem_loc self = length (remaining self) →
  ∃ needed, before_read dbg rem_capacity self =
      Ok (MkRecv (in_state self) (in_fds self) [] 0 (with_fd self), needed) ∧ 0 < needed ∧
    ∀ c, length c ≤ needed → represents (with_fd self)
      (set_buf (in_state self) (get_mut_buf (in_state self) ++ c)) (P ++ c).
Proof.
  intros Hinv Hloc. destruct (bytes_needed_spec _ _ P (inv_rep _ _ Hinv) (inv_hungry _ _ Hinv))
    as (n & Hn & Hpos & Hrep).
  exists n. split; [|done]. unfold before_read.
  rewrite !bool_decide_eq_true_2, andb_false_r by done. cbn [in_state]. rewrite Hn.
  cbn [mbind outcome_bind]. by rewrite bool_decide_eq_true_2, andb_false_r.
Qed.

Lemma parse_message_err wf s e : parse_message wf s = Err e → e = Other.
Proof.
  unfold parse_message. case_decide; [done|].
  destruct (unmarshal_header _) as [hdr| |]; cbn [map_err mbind outcome_bind]; [|naive_solver..].
  destruct (decide (16 ≤ length s)) as [H16|H16].
  2:{ unfold parse_dynhdr. rewrite decide_True by (unfold HEADER_LEN; lia). done. }
  rewrite parse_dynhdr_long by done. cbv zeta. case_decide; [done|].
  destruct (read_dynheader _ _ _) as [d|e'|] eqn:Hd; cbn [mbind outcome_bind]; [|intros [= ->]|done].
  - unfold parse_body. by case_decide.
  - by eapply read_dynheader_err.
Qed.

(** A message takes at least its fixed header. *)
Lemma parse_message_pos wf s hdr d b n :
  parse_message wf s = Ok (Some (hdr, d, b, n)) → 0 < n.
Proof.
  unfold parse_message. case_decide; [done|].
  destruct (unmarshal_header _) as [hdr'| |]; cbn [map_err mbind outcome_bind]; [|done..].
  unfold parse_dynhdr. case_decide; [done|].
  destruct (array_len_of _ _) as [len| |]; cbn [mbind outcome_bind]; [|done..].
  cbv zeta. case_decide; [done|]. destruct (read_dynheader _ _ _) as [d'| |]; cbn [mbind outcome_bind]; [|done..].
  pose proof (align_num_ge (HEADER_LEN + 4 + len) 8) as Hge.
  set (total := align_num _ _) in *. clearbody total.
  unfold parse_body. case_decide; [done|]. intros [= _ _ _ <-]. lia.
Qed.

Lemma parse_message_bound wf s hdr d b n :
  parse_message wf s = Ok (Some (hdr, d, b, n)) → n ≤ length s.
Proof.
  unfold parse_message. case_decide; [done|].
  destruct (unmarshal_header _) as [hdr'| |]; cbn [map_err mbind outcome_bind]; [|done..].
  destruct (decide (16 ≤ length s)) as [H16|H16].
  2:{ unfold parse_dynhdr. rewrite decide_True by (unfold HEADER_LEN; lia). done. }
  rewrite parse_dynhdr_long by done. cbv zeta. case_decide; [done|].
  destruct (read_dynheader _ _ _); cbn [mbind outcome_bind]; [|done..].
  unfold parse_body. case_decide; [done|]. intros [= _ _ _ <-]. lia.
Qed.

(** Without descriptors no message announces any. *)
Lemma parse_message_no_fds s hdr d b n :
  parse_message false s = Ok (Some (hdr, d, b, n)) → default 0%N (num_fds d) = 0%N.
Proof.
  unfold parse_message. case_decide; [done|].
  destruct (unmarshal_header _) as [hdr'| |]; cbn [map_err mbind outcome_bind]; [|done..].
  destruct (decide (16 ≤ length s)) as [H16|H16].
  2:{ unfold parse_dynhdr. rewrite decide_True by (unfold HEADER_LEN; lia). done. }
  rewrite parse_dynhdr_long by done. cbv zeta. case_decide; [done|].
  destruct (read_dynheader _ _ _) as [d'| |] eqn:Hd; cbn [mbind outcome_bind]; [|done..].
  unfold parse_body. case_decide; [done|]. intros [= _ <- _ _]. revert Hd. unfold read_dynheader.
  destruct (unmarshal_dynheader _) as [[? [? ?]]| |]; cbn; [|done..]. case_decide; cbn; [done|].
  destruct (align_offset _ _ _); cbn; [|done..]. case_decide as Hn; [done|]. intros [= <-].
  cbn in Hn |- *. destruct (default 0%N (num_fds _)) as [|q]; [done|]. destruct Hn. by split.
Qed.

(** A complete message is handed on, or its body refused. *)
Lemma deliver_spec wf full fds used hdr dynhdr body n self' inc ans sh :
  parse_message wf full = Ok (Some (hdr, dynhdr, body, n)) →
  N.of_nat (length fds) = default 0%N (num_fds dynhdr) → with_fd self' = wf →
  recv_inv self' [] → in_fds self' = [] → unread self' inc = drop n full →
  let d := deliver parse_description validate_marshalled hdr dynhdr body fds in
  explains wf full fds used d.1 self' (MkSock inc ans (sh || d.2)).
Proof.
  intros Hp Hn Hw Hinv Hf Hu. unfold deliver.
  destruct (check_body _) as [[]|err|] eqn:Hb; (split; [done|]); cbn [fst snd].
  - by exists hdr, dynhdr, body, n.
  - right. split; [done|]. right. right. exists hdr, dynhdr, body, n. split; [done|].
    right. split; [by exists err|]. apply orb_true_r.
  - right. by exists hdr, dynhdr, body, n.
Qed.

(** One read: the message goes on, or the result is what the reference says. *)
Lemma after_read_spec self P needed gotten fds_new :
  recv_inv self P →
  (∀ c, length c ≤ needed → represents (with_fd self)
    (set_buf (in_state self) (get_mut_buf (in_state self) ++ c)) (P ++ c)) →
  (with_fd self = true → length gotten ≤ needed) →
  let fds := in_fds self ++ (if with_fd self then fds_new else []) in
  ∃ r self' sh,
    after_read parse_description validate_marshalled
      (MkRecv (in_state self) (in_fds self) [] 0 (with_fd self)) needed gotten fds_new =
      (r, self', sh) ∧
    let ok r := ∀ inc ans used,
      explains (with_fd self) (P ++ gotten ++ inc) fds used r self' (MkSock inc ans sh) in
    match r with
    | Ok None => recv_inv self' (P ++ gotten) ∧ rem_loc self' = length (remaining self') ∧
        with_fd self' = with_fd self ∧ in_fds self' = fds
    | Ok (Some msg) => ok (Ok msg)
    | Err e => e = Other ∧ ok (Err e)
    | Panic => ok Panic
    end.
Proof.
  intros Hinv Hrep Hfit fds. unfold after_read. cbn [in_state in_fds remaining rem_loc with_fd].
  assert ((if with_fd self then in_fds self ++ fds_new else in_fds self) = fds) as ->
    by (unfold fds; destruct (with_fd self); [done|by rewrite app_nil_r]).
  set (self1 := MkRecv (set_buf _ _) fds (drop needed gotten) 0 (with_fd self)).
  assert (with_fd self = false → fds = []) as Hfds.
  { intros Hw. unfold fds. rewrite Hw, (inv_fds _ _ Hinv Hw). done. }
  case_decide as Hmany.
  { eexists _, _, _. split; [done|]. split; [done|]. intros inc ans used. split; [done|].
    right. split; [done|]. right. by left. }
  pose proof (try_get_msg_follows self1 (P ++ take needed gotten)) as Hf.
  cbn [self1 rem_loc remaining with_fd in_state] in Hf. rewrite drop_0, <- app_assoc, take_drop in Hf.
  specialize (Hf ltac:(lia) (Hrep (take needed gotten) ltac:(rewrite length_take; lia))).
  assert (∀ inc, parse_message (with_fd self) (P ++ gotten) ≠ Ok None →
    parse_message (with_fd self) (P ++ gotten ++ inc) = parse_message (with_fd self) (P ++ gotten))
    as Hmono by (intros inc; rewrite app_assoc; apply parse_message_mono).
  assert (with_fd self = true → drop needed gotten = []) as Hdrop by (intros; apply drop_ge; auto).
  destruct (parse_message (with_fd self) (P ++ gotten)) as [[[[[hdr d] b] n]|]|e|] eqn:Hp;
    cbn [follows] in Hf.
  - destruct Hf as (loc & -> & Hloc & Hrest). cbn [set_state in_fds self1 in_state remaining rem_loc with_fd] in *.
    assert (n ≤ length (P ++ gotten)) as Hn.
    { apply parse_message_bound in Hp. done. }
    case_decide as Hnum.
    + eexists _, _, _. split; [done|]. split; [done|]. intros inc ans used. split; [done|]. right. split; [done|].
      right. right. exists hdr, d, b, n. split; [by apply Hmono|by left].
    + pose proof (deliver_spec (with_fd self)) as Hd.
      destruct (deliver _ _ hdr d b fds) as [r sh] eqn:Hdl.
      eexists _, _, _. split; [done|]. cbv zeta.
      assert (∀ inc ans used, explains (with_fd self) (P ++ gotten ++ inc) fds used r
        (MkRecv (SHeader []) [] (drop needed gotten) loc (with_fd self)) (MkSock inc ans sh)) as Hex.
      { intros inc ans used.
        specialize (Hd (P ++ gotten ++ inc) fds used hdr d b n
          (MkRecv (SHeader []) [] (drop needed gotten) loc (with_fd self)) inc ans false).
        cbv zeta in Hd. rewrite Hdl in Hd. apply Hd; [by apply Hmono|lia|done| |done|].
        - split; cbn; [done|split; [done|lia]|unfold HEADER_LEN; lia| |done].
          intros Hw. rewrite Hdrop by done. apply drop_nil.
        - unfold unread. cbn [rem_loc remaining]. rewrite Hrest, app_assoc, (drop_app_le (P ++ gotten)) by done. done. }
      destruct r as [| |]; [exact Hex| |exact Hex]. split; [|exact Hex].
      unfold deliver in Hdl. by destruct (check_body _); simplify_eq.
  - destruct Hf as (st & -> & Hst & Hhungry). cbn [set_state in_fds self1 in_state remaining rem_loc with_fd] in *.
    eexists _, _, _. split; [done|]. cbv zeta. split_and!; [|done..].
    split; cbn; [done|done|done| |done]. intros _. apply drop_all.
  - destruct Hf as (-> & loc & Hloc & ->). eexists _, _, _. split; [done|]. split; [done|].
    intros inc ans used. split; [done|]. right. split; [done|]. left.
    split; [by apply Hmono|done].
  - destruct Hf as (self' & sh & Hf). rewrite Hf. eexists _, _, _. split; [done|].
    intros inc ans used. split; [done|]. left. by apply Hmono.
Qed.

Lemma recv_loop_spec self P incoming answers :
  recv_inv self P → rem_loc self = length (remaining self) →
  ∃ r self' sock' used,
    recv_loop parse_description validate_marshalled dbg rem_capacity self incoming answers =
      (r, self', sock') ∧ answers = used ++ reads sock' ∧
    explains (with_fd self) (P ++ incoming) (received_fds self used) used r self' sock'.
Proof.
  revert self P incoming. induction answers as [|a answers IH]; intros self P incoming Hinv Hloc;
    cbn [recv_loop]; destruct (before_read_spec self P Hinv Hloc) as (needed & -> & Hpos & Hrep);
    set (self0 := MkRecv (in_state self) (in_fds self) [] 0 (with_fd self));
    assert (recv_inv self0 P) as Hinv0
      by (split; cbn; [done|apply Hinv|apply Hinv|done|apply Hinv]);
    assert (∀ l, fds_of l = [] → received_fds self l = in_fds self) as Hnil
      by (intros l Hl; unfold received_fds; rewrite Hl; destruct (with_fd self); apply app_nil_r).
  { eexists _, _, _, []. split; [done|]. split; [done|]. split; [done|]. left. split; [by left|].
    exists P. split_and!; [done..|]. intros _. symmetry. by apply Hnil. }
  destruct a as [n fds_new|e].
  2:{ eexists _, _, _, [ReadFails e]. split; [done|]. split; [done|]. split; [done|]. left.
    split; [right; right; by left|]. exists P. split_and!; [done..|].
    intros _. symmetry. by apply Hnil. }
  cbv zeta. cbn [with_fd self0].
  set (capacity := if with_fd self then needed else needed + rem_capacity).
  set (gotten := take n (take capacity incoming)).
  assert (gotten ++ drop (length gotten) incoming = incoming) as Hcat.
  { assert (gotten `prefix_of` incoming) as [k Hk] by (unfold gotten; etrans; apply prefix_take).
    rewrite Hk at 1. rewrite Hk. by rewrite drop_app_length. }
  case_decide as Hg.
  { exists (Err BrokenPipe). eexists _, _, [Got n fds_new]. split; [done|]. split; [done|].
    split; [done|]. left. split; [right; by left|]. exists P. split_and!; [done| |done].
    rewrite Hg. done. }
  set (rest := drop (length gotten) incoming) in *.
  destruct (after_read_spec self P needed gotten fds_new Hinv Hrep) as (r & self' & sh & Heq & Hr).
  { intros Hw. unfold gotten, capacity. rewrite Hw, !length_take. lia. }
  fold self0 in Heq. rewrite Heq. cbv zeta in Hr. rewrite <- Hcat.
  assert (received_fds self [Got n fds_new] =
    in_fds self ++ (if with_fd self then fds_new else [])) as Hfd.
  { unfold received_fds, fds_of. cbn. by rewrite app_nil_r. }
  destruct r as [[msg|]|e|].
  - eexists _, _, _, [Got n fds_new]. split; [done|]. split; [done|]. rewrite Hfd. apply Hr.
  - destruct Hr as (Hinv' & Hloc' & Hw' & Hf').
    destruct (IH self' (P ++ gotten) rest Hinv' Hloc') as (r & self'' & sock' & used & -> & Hu & Hex).
    eexists _, _, _, (Got n fds_new :: used). split; [done|]. split; [by rewrite Hu|].
    apply explains_cons. rewrite Hw', <- app_assoc in Hex.
    assert (received_fds self' used = received_fds self (Got n fds_new :: used)) as <-; [|done].
    unfold received_fds. rewrite Hf', Hw'. destruct (with_fd self); [by rewrite <- app_assoc|].
    by rewrite !app_nil_r.
  - eexists _, _, _, [Got n fds_new]. split; [done|]. split; [done|]. rewrite Hfd. apply Hr.
  - eexists _, _, _, [Got n fds_new]. split; [done|]. split; [done|]. rewrite Hfd. apply Hr.
Qed.

(** The result of a call, by the reference. *)
Lemma get_next_message_explains self P sock :
  recv_inv self P →
  ∃ r self' sock' used,
    get_next_message parse_description validate_marshalled dbg rem_capacity self sock =
      (r, self', sock') ∧ reads sock = used ++ reads sock' ∧
    explains (with_fd self) (P ++ unread self (incoming sock)) (received_fds self used) used
      r self' sock'.
Proof.
  intros Hinv. unfold get_next_message.
  pose proof (try_get_msg_follows self P (inv_loc _ _ Hinv) (inv_rep _ _ Hinv)) as Hf.
  cbv zeta in Hf. set (s := P ++ drop (rem_loc self) (remaining self)) in *.
  assert (P ++ unread self (incoming sock) = s ++ incoming sock) as ->
    by (unfold unread, s; by rewrite app_assoc).
  assert (parse_message (with_fd self) s ≠ Ok None →
    with_fd self = false ∧ in_fds self = [] ∧
    parse_message (with_fd self) (s ++ incoming sock) = parse_message (with_fd self) s) as Hs.
  { intros Hne. split_and!; [| |by apply parse_message_mono].
    all: destruct (with_fd self) eqn:Hw; [|try done; by apply Hinv].
    all: destruct Hne; unfold s; rewrite (inv_fd _ _ Hinv Hw), app_nil_r, <- Hw.
    all: eapply hungry_parse; apply Hinv. }
  destruct (parse_message (with_fd self) s) as [[[[[hdr d] b] n]|]|e|] eqn:Hp; cbn [follows] in Hf.
  - destruct Hf as (loc & -> & Hloc & Hrest). destruct Hs as (Hw & Hf & Hs); [done|].
    pose proof (parse_message_bound _ _ _ _ _ _ Hp) as Hn.
    destruct (deliver _ _ hdr d b []) as [r sh] eqn:Hd.
    eexists _, _, _, []. split; [done|]. split; [done|].
    pose proof (deliver_spec (with_fd self) (s ++ incoming sock) [] [] hdr d b n
      (set_state self (SHeader []) loc) (incoming sock) (reads sock) false Hs) as Hex.
    cbv zeta in Hex. rewrite Hd in Hex. cbn [fst snd] in Hex.
    assert (received_fds self [] = []) as -> by (unfold received_fds; rewrite Hf; by destruct (with_fd self)).
    apply Hex; [|done| |done|].
    + rewrite Hw in Hp. by rewrite (parse_message_no_fds _ _ _ _ _ Hp).
    + split; cbn; [done|split; [done|lia]|unfold HEADER_LEN; lia|by rewrite Hw|done].
    + unfold unread. cbn. rewrite Hrest, drop_app_le by done. done.
  - destruct Hf as (st & -> & Hst & Hhungry).
    destruct (recv_loop_spec (set_state self st (length (remaining self))) s (incoming sock) (reads sock))
      as (r & self' & sock' & used & -> & Hu & Hex).
    { split; cbn; [done..| |apply Hinv]. intros _. apply drop_all. }
    { done. }
    by eexists _, _, _, used.
  - destruct Hf as (-> & loc & Hloc & ->). destruct Hs as (Hw & Hf & Hs); [done|].
    eexists _, _, _, []. split; [done|]. split; [done|]. split; [done|].
    right. split; [done|]. by left.
  - destruct Hf as (self' & sh & ->). destruct Hs as (Hw & Hf & Hs); [done|].
    eexists _, _, _, []. split; [done|]. split; [done|]. split; [done|]. by left.
Qed.

(** C4: [get_next_message] frames the stream as the one-shot parser does.  However the
    socket cuts the stream, a returned message is the first message of the stream from
    the start of the current one, with exactly the descriptors that came with it; the
    rest of the stream is left for the next call.  An interrupted call (not readable,
    an error of the socket, end of stream) loses nothing; any other error has the
    stream to blame: the reference refuses its header, the body does not match its
    signature, or the number of descriptors is wrong.  The assertions never fail: a
    panic comes from unmarshalling. *)
Theorem get_next_message_spec self P sock :
  recv_inv self P →
  ∃ r self' sock' used,
    get_next_message parse_description validate_marshalled dbg rem_capacity self sock =
      (r, self', sock') ∧ reads sock = used ++ reads sock' ∧
    explains (with_fd self) (P ++ unread self (incoming sock)) (received_fds self used) used
      r self' sock'.
Proof. apply get_next_message_explains. Qed.

(** ** Messages arrive *)

(** A read that takes at least a byte. *)
Definition delivers (a : read_answer) : Prop := ∃ n fds, a = Got (S n) fds.

Lemma recv_loop_progress self P inc answers :
  recv_inv self P → rem_loc self = length (remaining self) →
  parse_message (with_fd self) (P ++ inc) ≠ Ok None →
  Forall delivers answers → length inc ≤ length answers →
  let r := (recv_loop parse_description validate_marshalled dbg rem_capacity self inc answers).1.1 in
  r ≠ Err WouldBlock ∧ r ≠ Err BrokenPipe.
Proof.
  intros Hinv Hloc Hp Hans. revert self P inc Hinv Hloc Hp.
  induction Hans as [|a answers (n & fds_new & ->) Hans IH]; intros self P inc Hinv Hloc Hp Hlen;
    (assert (inc ≠ []) as Hinc by (intros ->; rewrite app_nil_r in Hp;
      apply Hp; eapply hungry_parse; apply Hinv));
    cbn [recv_loop]; destruct (before_read_spec self P Hinv Hloc) as (needed & -> & Hpos & Hrep).
  { destruct inc; [done|]. cbn in Hlen. lia. }
  cbv zeta. cbn [with_fd].
  set (capacity := if with_fd self then needed else needed + rem_capacity).
  assert (0 < capacity) as Hcp by (unfold capacity; destruct (with_fd self); lia).
  set (gotten := take (S n) (take capacity inc)).
  assert (gotten ++ drop (length gotten) inc = inc) as Hcat.
  { assert (gotten `prefix_of` inc) as [k Hk] by (unfold gotten; etrans; apply prefix_take).
    rewrite Hk at 1. rewrite Hk. by rewrite drop_app_length. }
  assert (0 < length gotten) as Hg.
  { unfold gotten. rewrite !length_take. destruct inc; [done|]. cbn [length]. lia. }
  rewrite decide_False by (intros ->; cbn in Hg; lia).
  destruct (after_read_spec self P needed gotten fds_new Hinv Hrep) as (r & self' & sh & -> & Hr).
  { intros Hw. unfold gotten, capacity. rewrite Hw, !length_take. lia. }
  cbv zeta in Hr. destruct r as [[msg|]|e|]; [done| |destruct Hr as [-> _]; done|done].
  destruct Hr as (Hinv' & Hloc' & Hw' & _). apply (IH self' (P ++ gotten)); [done..| |].
  - by rewrite Hw', <- app_assoc, Hcat.
  - rewrite length_drop. cbn [length] in Hlen. lia.
Qed.

Lemma get_next_message_progress self P sock :
  recv_inv self P → parse_message (with_fd self) (P ++ unread self (incoming sock)) ≠ Ok None →
  Forall delivers (reads sock) → length (incoming sock) ≤ length (reads sock) →
  let r := (get_next_message parse_description validate_marshalled dbg rem_capacity self sock).1.1 in
  r ≠ Err WouldBlock ∧ r ≠ Err BrokenPipe.
Proof.
  intros Hinv Hp Hans Hlen. unfold get_next_message, unread in *. rewrite app_assoc in Hp.
  pose proof (try_get_msg_follows self P (inv_loc _ _ Hinv) (inv_rep _ _ Hinv)) as Hf.
  cbv zeta in Hf. set (s := P ++ drop (rem_loc self) (remaining self)) in *.
  destruct (parse_message (with_fd self) s) as [[[[[hdr d] b] n]|]|e|]; cbn [follows] in Hf.
  - destruct Hf as (loc & -> & _). unfold deliver.
    by destruct (check_body (m_body (mm_from_raw hdr d b []))).
  - destruct Hf as (st & -> & Hst & Hhungry).
    apply (recv_loop_progress (set_state self st (length (remaining self))) s); [|done..].
    split; cbn; [done..| |apply Hinv]. intros _. apply drop_all.
  - destruct Hf as (-> & loc & _ & ->). done.
  - by destruct Hf as (? & ? & ->).
Qed.

(** A complete message in the stream is returned once the socket has delivered it. *)
Lemma get_next_message_complete self P sock hdr dynhdr body n :
  recv_inv self P → with_fd self = false →
  parse_message false (P ++ unread self (incoming sock)) = Ok (Some (hdr, dynhdr, body, n)) →
  check_body (m_body (mm_from_raw hdr dynhdr body [])) = Ok () →
  Forall delivers (reads sock) → length (incoming sock) ≤ length (reads sock) →
  ∃ self' sock',
    get_next_message parse_description validate_marshalled dbg rem_capacity self sock =
      (Ok (mm_from_raw hdr dynhdr body []), self', sock') ∧
    recv_inv self' [] ∧ unread self' (incoming sock') =
      drop n (P ++ unread self (incoming sock)).
Proof.
  intros Hinv Hw Hp Hb Hans Hlen.
  destruct (get_next_message_explains self P sock Hinv) as (r & self' & sock' & used & Heq & Hu & _ & Hr).
  pose proof (get_next_message_progress self P sock Hinv) as Hprog. rewrite Hw in Hprog, Hr.
  cbv zeta in Hprog. rewrite Hp, Heq in Hprog. destruct Hprog as [Hn1 Hn2]; [done..|].
  cbn [fst] in Hn1, Hn2. rewrite Heq.
  assert (received_fds self used = []) as Hfds
    by (unfold received_fds; rewrite Hw, (inv_fds _ _ Hinv Hw); done).
  rewrite Hfds in Hr. destruct r as [msg|e|].
  - destruct Hr as (h & d & b & m & Hp' & -> & _ & _ & Hinv' & _ & Hrest).
    rewrite Hp in Hp'. simplify_eq. eexists _, _. split_and!; done.
  - exfalso. destruct Hr as [[[->|[->|Hin]] _]|[-> [[He _]|[[? _]|(h & d & b & m & Hp' & Hr)]]]];
      try congruence.
    + rewrite Forall_forall in Hans. destruct (Hans (ReadFails e)) as (? & ? & ?); [|done].
      rewrite Hu. apply elem_of_app. by left.
    + rewrite Hp in Hp'. simplify_eq. pose proof (parse_message_no_fds _ _ _ _ _ Hp) as Hz.
      destruct Hr as [Hr|[[err Hr] _]]; [|congruence]. rewrite Hz in Hr. done.
  - exfalso. destruct Hr as [Hr|(h & d & b & m & Hp' & Hr)]; congruence.
Qed.

(** a complete message is returned.  When the stream holds a message whose body
    matches its signature and each read takes at least a byte, as many reads as there
    are bytes to come make [get_next_message] return it, leaving the rest of the stream
    for the next call. *)
Theorem get_next_message_arrives self P sock hdr dynhdr body n :
  recv_inv self P → with_fd self = false →
  parse_message false (P ++ unread self (incoming sock)) = Ok (Some (hdr, dynhdr, body, n)) →
  check_body (m_body (mm_from_raw hdr dynhdr body [])) = Ok () →
  Forall delivers (reads sock) → length (incoming sock) ≤ length (reads sock) →
  ∃ self' sock',
    get_next_message parse_description validate_marshalled dbg rem_capacity self sock =
      (Ok (mm_from_raw hdr dynhdr body []), self', sock') ∧
    recv_inv self' [] ∧ unread self' (incoming sock') =
      drop n (P ++ unread self (incoming sock)).
Proof. apply get_next_message_complete. Qed.

(** ** The two ends together *)

(** The fixed header of a message with its serial. *)
Definition fixed_of (msg : MarshalledMessage) (n : N) : FixedHeader :=
  MkFixed (byteorder (m_body msg)) (typ msg) (flags msg) (N.of_nat (length (buf (m_body msg)))) n.

Context `{!WireLaws}.

Lemma parse_sent_message wf msg n hdr rest :
  header_ok msg → typ msg ≠ TInvalid → (flags msg < 256)%N → (0 < n < u32_mod)%N →
  (wf = false → raw_fds (m_body msg) = []) →
  marshal_header dbg msg n = Ok hdr →
  (N.of_nat (length hdr) < u32_mod)%N → (N.of_nat (length (buf (m_body msg))) < u32_mod)%N →
  parse_message wf (hdr ++ buf (m_body msg) ++ rest) =
    Ok (Some (fixed_of msg n, set_serial (received msg) n, buf (m_body msg),
              length hdr + length (buf (m_body msg)))).
Proof.
  intros Hok Ht Hf Hn Hfds Hm Hlen Hbody.
  destruct (marshal_header_shape dbg msg n [] Hok) as (enc & hdr' & Hm' & Hhdr & Hl & Hu).
  rewrite Hm in Hm'. injection Hm' as <-. specialize (Hu Hlen).
  pose proof (align_num_ge (HEADER_LEN + 4 + length enc) 8) as Hge.
  pose proof (length_fixed_head msg n) as Hfix.
  set (full := hdr ++ buf (m_body msg) ++ rest).
  assert (16 ≤ length hdr) as H16 by (unfold HEADER_LEN in *; lia).
  unfold parse_message. rewrite decide_False by (unfold full; rewrite length_app; unfold HEADER_LEN; lia).
  assert (take HEADER_LEN full = fixed_head msg n) as ->.
  { unfold full. rewrite Hhdr, <- !app_assoc. by apply take_app_length'. }
  rewrite unmarshal_header_fixed, wrap32_small by (done || lia).
  cbn [map_err mbind outcome_bind]. fold (fixed_of msg n).
  rewrite parse_dynhdr_long by (unfold full; rewrite length_app; lia). cbv zeta.
  cbn [h_byteorder fixed_of].
  assert (total_of full (byteorder (m_body msg)) = length hdr) as ->.
  { unfold full. rewrite total_of_app by done. rewrite Hl. unfold total_of, array_len_of.
    rewrite Hhdr, drop_app_length', take_app_length' by (done || by rewrite length_u32_bytes).
    rewrite wrap32_small, parse_u32_bytes by lia. cbn. by rewrite Nat2N.id. }
  rewrite decide_False by (unfold full; rewrite length_app; lia).
  unfold full at 2. rewrite take_app_length. unfold read_dynheader. cbn [h_byteorder fixed_of h_serial].
  rewrite Hu. cbn [map_err mbind outcome_bind]. rewrite decide_False by lia.
  rewrite align_offset_aligned.
  2:{ replace (HEADER_LEN + (length hdr - HEADER_LEN)) with (length hdr) by (unfold HEADER_LEN; lia).
    rewrite Hl. by apply align_num_mod. }
  2:{ unfold HEADER_LEN. lia. }
  cbn [map_err mbind outcome_bind].
  rewrite decide_False.
  2:{ unfold received, fds_sent. cbn. intros [Hpos Hwf]. rewrite decide_True in Hpos by auto. cbn in Hpos. lia. }
  cbn [mbind outcome_bind mret outcome_ret]. unfold parse_body. cbn [h_body_len fixed_of].
  rewrite Nat2N.id. unfold full. rewrite !length_app, decide_False by lia.
  by rewrite drop_app_length, take_app_length.
Qed.

(** what one end sends the other receives.  The marshalled header and the body of
    a valid message without descriptors, with anything behind them, however the socket
    delivers them, make a fresh connection return the message: its type, flags and
    body, and its header fields with the serial, signature and descriptor count. *)
Theorem sent_message_arrives msg n hdr rest reads :
  header_ok msg → typ msg ≠ TInvalid → (flags msg < 256)%N → (0 < n < u32_mod)%N →
  raw_fds (m_body msg) = [] →
  marshal_header dbg msg n = Ok hdr →
  (N.of_nat (length hdr) < u32_mod)%N → (N.of_nat (length (buf (m_body msg))) < u32_mod)%N →
  let got := mm_from_raw (fixed_of msg n) (set_serial (received msg) n) (buf (m_body msg)) [] in
  check_body (m_body got) = Ok () →
  Forall delivers reads → length (hdr ++ buf (m_body msg) ++ rest) ≤ length reads →
  ∃ self' sock',
    get_next_message parse_description validate_marshalled dbg rem_capacity
      (MkRecv (SHeader []) [] [] 0 false) (MkSock (hdr ++ buf (m_body msg) ++ rest) reads false) =
      (Ok got, self', sock') ∧
    unread self' (incoming sock') = rest.
Proof.
  intros Hok Ht Hf Hn Hfds Hm Hlen Hbody got Hcheck Hans Hreads.
  pose proof (parse_sent_message false msg n hdr rest Hok Ht Hf Hn (λ _, Hfds) Hm Hlen Hbody) as Hp.
  destruct (get_next_message_complete (MkRecv (SHeader []) [] [] 0 false) []
    (MkSock (hdr ++ buf (m_body msg) ++ rest) reads false) (fixed_of msg n) (set_serial (received msg) n)
    (buf (m_body msg)) (length hdr + length (buf (m_body msg))))
    as (self' & sock' & Heq & _ & Hu); [|done|exact Hp|exact Hcheck|done|done|].
  { split; cbn; [done|split; [done|lia]|unfold HEADER_LEN; lia|done|done]. }
  exists self', sock'. split; [exact Heq|]. rewrite Hu. unfold unread. cbn.
  by rewrite app_assoc, drop_app_length' by (rewrite length_app; lia).
Qed.
End spec.

(** ** The fixed header of the D-Bus specification, concretely *)

Definition type_of_byte (n : N) : outcome UnmarshalError MessageType :=
  match n with
  | 1%N => Ok TCall
  | 2%N => Ok TReply
  | 3%N => Ok TError
  | 4%N => Ok TSignal
  | _ => Err InvalidType
  end.

Definition fixed_parse (b : bytes) : outcome UnmarshalError FixedHeader :=
  match b with
  | c :: t :: f :: _ :: b' =>
      bo ← (if decide (c = "l"%char) then Ok LittleEndian
            else if decide (c = "B"%char) then Ok BigEndian else Err InvalidType);
      typ ← type_of_byte (u8_val t);
      len ← map_err (λ _, NotEnoughBytes) (parse_u32 (take 4 b') bo);
      ser ← map_err (λ _, NotEnoughBytes) (parse_u32 (drop 4 b') bo);
      mret (MkFixed bo typ (u8_val f) len ser)
  | _ => Err NotEnoughBytes
  end.

#[export] Instance dbus_recv : RecvLib := {
  unmarshal_header b := if decide (length b < HEADER_LEN) then Err NotEnoughBytes
                        else fixed_parse (take HEADER_LEN b);
  align_offset a b off :=
    let pad := take (align_num off a - off) (drop off b) in
    if decide (length b < align_num off a) then Err NotEnoughBytes
    else if decide (Forall (λ c, c = ZERO) pad) then Ok (length pad) else Err InvalidType;
}.

#[export] Instance dbus_recv_laws : RecvLaws.
Proof.
  split; cbn [unmarshal_header align_offset dbus_recv].
  - intros b Hb. rewrite length_take, !decide_False by lia. by rewrite take_take, Nat.min_id.
  - intros msg n Ht Hf Hn. pose proof (length_fixed_head msg n) as Hl.
    rewrite decide_False by lia. rewrite firstn_all2 by lia.
    unfold fixed_head. rewrite <- app_assoc. cbn [app fixed_parse].
    assert ((if decide (u8_of (bo_byte (byteorder (m_body msg))) = "l"%char) then Ok LittleEndian
      else if decide (u8_of (bo_byte (byteorder (m_body msg))) = "B"%char) then Ok BigEndian
      else Err InvalidType) = Ok (E:=UnmarshalError) (byteorder (m_body msg))) as ->
      by (destruct (byteorder (m_body msg)); by vm_compute).
    cbn [mbind outcome_bind].
    assert (type_of_byte (u8_val (u8_of (t_byte (typ msg)))) = Ok (typ msg)) as ->
      by (destruct (typ msg); first [done|by vm_compute]).
    cbn [mbind outcome_bind].
    rewrite take_app_length', drop_app_length' by (by rewrite length_u32_bytes).
    rewrite !parse_u32_bytes by (done || apply wrap32_lt). cbn. by rewrite u8_val_of.
  - intros b off Ho Hb. rewrite align_num_id, Nat.sub_diag by done. rewrite decide_False by lia.
    by rewrite decide_True by constructor.
Qed.

(** A body checker that knows the type [u]. *)
Definition split_types (s : bytes) : outcome UnmarshalError (list u8) := Ok s.

Definition check_u32 (bo : ByteOrder) (off : nat) (b : bytes) (t : u8)
    : outcome UnmarshalError nat :=
  if decide (t = "u"%char ∧ off + 4 ≤ length b) then Ok 4 else Err InvalidType.

(** A serial number in the body, little-endian. *)
Definition count_msg : MarshalledMessage :=
  set_body ping_call (MkBody (u32_bytes LittleEndian 42) (lit "u") [] LittleEndian).

Lemma count_msg_ok : header_ok count_msg.
Proof.
  split; [by vm_compute|done| |done]. intros p [= <-]. by vm_compute.
Qed.

Definition count_hdr : bytes :=
  match marshal_header true count_msg 7 with Ok h => h | _ => [] end.

Lemma count_hdr_eq : marshal_header true count_msg 7 = Ok count_hdr.
Proof. vm_compute. reflexivity. Qed.

Definition count_got : MarshalledMessage :=
  mm_from_raw (fixed_of count_msg 7) (set_serial (received count_msg) 7)
    (u32_bytes LittleEndian 42) [].

Lemma fresh_inv wf : recv_inv (MkRecv (SHeader []) [] [] 0 wf) [].
Proof. split; cbn; [done|split; [done|lia]|unfold HEADER_LEN; lia|done|done]. Qed.

(** Two messages, the second cut off, in three reads. *)
Lemma get_next_message_spec_witness :
  ∃ self' sock',
    get_next_message split_types check_u32 true 4096 (MkRecv (SHeader []) [] [] 0 false)
      (MkSock (count_hdr ++ u32_bytes LittleEndian 42 ++ take 20 count_hdr)
         [Got 10 []; Got 3 []; Got 500 []] false) = (Ok count_got, self', sock') ∧
    recv_inv self' [] ∧ unread self' (incoming sock') = take 20 count_hdr.
Proof.
  destruct (get_next_message_spec split_types check_u32 true 4096 (le_n _)
    (MkRecv (SHeader []) [] [] 0 false) []
    (MkSock (count_hdr ++ u32_bytes LittleEndian 42 ++ take 20 count_hdr)
         [Got 10 []; Got 3 []; Got 500 []] false) (fresh_inv false))
    as (r & self' & sock' & used & Heq & _ & _ & Hr).
  pose proof Heq as Heq'. vm_compute in Heq'. injection Heq' as Hr' _ _. subst r.
  destruct Hr as (h & d & b & n & Hp & _ & _ & _ & Hinv & _ & Hu).
  exists self', sock'. split_and!; [rewrite Heq; vm_compute; reflexivity|done|].
  rewrite Hu. vm_compute in Hp. injection Hp as <- <- <- <-. vm_compute. reflexivity.
Defined.

(** After a message [pos_next_msg] counts its bytes too: ten bytes of a next message are no
    header of sixteen. *)
Example pos_next_msg_counts_consumed :
  let '(_, self', sock') :=
    get_next_message split_types check_u32 true 4096 (MkRecv (SHeader []) [] [] 0 false)
      (MkSock (count_hdr ++ u32_bytes LittleEndian 42 ++ take 10 count_hdr) [Got 500 []] false) in
  pos_next_msg self' = Ok true ∧ unread self' (incoming sock') = take 10 count_hdr ∧
  bytes_needed_for_next (in_state self') = Ok 16.
Proof. by vm_compute. Qed.

Lemma get_next_message_arrives_witness :
  ∃ self' sock',
    get_next_message split_types check_u32 true 4096
      (MkRecv (SHeader []) [] count_hdr 0 false)
      (MkSock (u32_bytes LittleEndian 42 ++ lit "l") (replicate 5 (Got 1 [])) false) =
      (Ok count_got, self', sock') ∧
    recv_inv self' [] ∧ unread self' (incoming sock') = lit "l".
Proof.
  refine (get_next_message_arrives split_types check_u32 true 4096 (le_n _)
    (MkRecv (SHeader []) [] count_hdr 0 false) []
    (MkSock (u32_bytes LittleEndian 42 ++ lit "l") (replicate 5 (Got 1 [])) false)
    (fixed_of count_msg 7) (set_serial (received count_msg) 7) (u32_bytes LittleEndian 42)
    (length count_hdr + 4) _ eq_refl _ _ _ _).
  - split; cbn; [lia|split; [done|lia]|unfold HEADER_LEN; lia|done|done].
  - vm_compute. reflexivity.
  - vm_compute. reflexivity.
  - apply Forall_replicate. by exists 0, [].
  - vm_compute. lia.
Defined.

Lemma sent_message_arrives_witness :
  ∃ self' sock',
    get_next_message split_types check_u32 true 4096 (MkRecv (SHeader []) [] [] 0 false)
      (MkSock (count_hdr ++ buf (m_body count_msg) ++ lit "rest")
         (replicate 300 (Got 2 [])) false) = (Ok count_got, self', sock') ∧
    unread self' (incoming sock') = lit "rest".
Proof.
  refine (sent_message_arrives split_types check_u32 true 4096 (le_n _) count_msg 7 count_hdr
    (lit "rest") (replicate 300 (Got 2 [])) count_msg_ok _ _ _ eq_refl count_hdr_eq _ _ _ _ _).
  - done.
  - by vm_compute.
  - by vm_compute.
  - by vm_compute.
  - by vm_compute.
  - vm_compute. reflexivity.
  - apply Forall_replicate. by exists 1, [].
  - vm_compute. lia.
Defined.
