(* ===== verification/RecvFds.v ===== *)
(** * conn/recv.rs: who closes the descriptors that are received

    [recvmsg] opens the descriptors it delivers.  They wait in [in_fds] for the message
    they belong to and then go to it.  They are closed when a message is refused: when its
    header does not parse, when more arrive than a message may have, when their number is
    not the header's, when the body is not valid; and with the [RecvState].

    The functions of Recv.v are repeated here with the descriptors each call closes, and
    those it gets from the socket, next to what they returned there, which is unchanged. *)

From S2P Require Import Prelude Utils SigStr Body Message StdPath ObjPath Header DBusWire.
From S2P Require Import Descriptors.
From S2P Require Import Recv.
From Stdlib Require Import Lia.

(** The last match of [try_get_msg]: [self.in_fds.clear()]. *)
Definition try_handler_fds (r : try_result * list Fd) : try_result * list Fd :=
  match r with
  | ((Err WouldBlock, self, sh), closed) => ((Ok None, self, sh), closed)
  | ((Err e, self, _), closed) =>
      ((Err e, MkRecv (into_hdr (in_state self)) [] (remaining self) (rem_loc self) (with_fd self),
        true), closed ++ in_fds self)
  | _ => r
  end.

Section calls.
Context `{WireLib} `{RecvLib}.
Context {Ty : Type} (parse_description : bytes → outcome UnmarshalError (list Ty))
  (validate_marshalled : ByteOrder → nat → bytes → Ty → outcome UnmarshalError nat).
Context (dbg : bool) (rem_capacity : nat).

Definition try_finishing_fds (self : RecvState) (hdr : FixedHeader) (dynhdr : DynamicHeader)
    (body_buf : bytes) : try_result * list Fd :=
  (try_finishing self hdr dynhdr body_buf, []).

Definition try_dynhdr_fds (self : RecvState) (hdr : FixedHeader) (dyn_buf : bytes)
    : try_result * list Fd :=
  match extend_max dyn_buf (remaining self) (rem_loc self) (HEADER_LEN + 4) with
  | Ok (false, dyn_buf, loc) => ((Ok None, set_state self (SDynHdr hdr dyn_buf) loc, false), [])
  | Ok (true, dyn_buf, loc) =>
      let total :=
        array_len ← array_len_of dyn_buf (h_byteorder hdr);
        mret (align_num (HEADER_LEN + 4 + array_len) 8) in
      match (total_hdr_len ← total; extend_max dyn_buf (remaining self) loc total_hdr_len) with
      | Ok (false, dyn_buf, loc) => ((Ok None, set_state self (SDynHdr hdr dyn_buf) loc, false), [])
      | Ok (true, dyn_buf, loc) =>
          let self := set_state self (SDynHdr hdr dyn_buf) loc in
          match read_dynheader (with_fd self) hdr dyn_buf with
          | Ok dynhdr => try_handler_fds
              (try_finishing_fds (set_state self (SFinishing hdr dynhdr []) loc) hdr dynhdr [])
          | Err e => ((Err e, self, false), [])
          | Panic => ((Panic, self, false), [])
          end
      | Err e => ((Err e, self, false), [])
      | Panic => ((Panic, self, false), [])
      end
  | Err e => ((Err e, self, false), [])
  | Panic => ((Panic, self, false), [])
  end.

Definition try_header_fds (self : RecvState) (hdr_buf : bytes) : try_result * list Fd :=
  match extend_max hdr_buf (remaining self) (rem_loc self) HEADER_LEN with
  | Ok (false, hdr_buf, loc) => ((Ok None, set_state self (SHeader hdr_buf) loc, false), [])
  | Ok (true, hdr_buf, loc) =>
      let self := set_state self (SHeader hdr_buf) loc in
      match unmarshal_header hdr_buf with
      | Ok hdr =>
          try_handler_fds (try_dynhdr_fds (set_state self (SDynHdr hdr hdr_buf) loc) hdr hdr_buf)
      | Err _ => ((Err Other, self, false), [])
      | Panic => ((Panic, self, false), [])
      end
  | Err e => ((Err e, self, false), [])
  | Panic => ((Panic, self, false), [])
  end.

Definition try_get_msg_fds (self : RecvState) : try_result * list Fd :=
  try_handler_fds
    match in_state self with
    | SHeader hdr_buf => try_header_fds self hdr_buf
    | SDynHdr hdr dyn_buf => try_dynhdr_fds self hdr dyn_buf
    | SFinishing hdr dynhdr body_buf => try_finishing_fds self hdr dynhdr body_buf
    end.

(** A message that is not valid is dropped with its descriptors, also when the check
    panics. *)
Definition deliver_fds (hdr : FixedHeader) (dynhdr : DynamicHeader) (body : bytes)
    (fds : list Fd) : (io_result MarshalledMessage * bool) * list Fd :=
  let msg := mm_from_raw hdr dynhdr body fds in
  match Body.validate parse_description validate_marshalled (m_body msg) with
  | Ok _ => ((Ok msg, false), [])
  | Err _ => ((Err Other, true), raw_fds (m_body msg))
  | Panic => ((Panic, false), raw_fds (m_body msg))
  end.

Definition after_read_fds (self : RecvState) (needed : nat) (gotten : bytes) (fds : list Fd)
    : (io_result (option MarshalledMessage) * RecvState * bool) * list Fd :=
  let buf := get_mut_buf (in_state self) ++ take needed gotten in
  let self := MkRecv (set_buf (in_state self) buf)
    (if with_fd self then in_fds self ++ fds else in_fds self)
    (drop needed gotten) 0 (with_fd self) in
  if decide (with_fd self = true ∧ DBUS_MAX_FD_MESSAGE < length (in_fds self)) then
    ((Err Other, MkRecv (into_hdr (in_state self)) [] (remaining self) (rem_loc self) (with_fd self), false),
     in_fds self)
  else
  match try_get_msg_fds self with
  | ((Ok (Some (hdr, dynhdr, body)), self, sh), closed) =>
      let fds := in_fds self in
      let self := MkRecv (in_state self) [] (remaining self) (rem_loc self) (with_fd self) in
      if decide (N.of_nat (length fds) ≠ default 0%N (num_fds dynhdr)) then
        ((Err Other, self, sh), closed ++ fds)
      else
        let '((r, sh), closed') := deliver_fds hdr dynhdr body fds in
        ((match r with Ok msg => Ok (Some msg) | Err e => Err e | Panic => Panic end, self, sh),
         closed ++ closed')
  | ((Ok None, self, sh), closed) => ((Ok None, self, sh), closed)
  | ((Err e, self, sh), closed) => ((Err e, self, sh), closed)
  | ((Panic, self, sh), closed) => ((Panic, self, sh), closed)
  end.

(** The result, what the socket delivered and what was closed.  A [SocketAncillary] over
    no buffer gets no descriptors, and a read of nothing, the end of the stream, brings
    none. *)
Fixpoint recv_loop_fds (self : RecvState) (incoming : bytes) (answers : list read_answer)
    : (io_result MarshalledMessage * RecvState * Sock) * list Fd * list Fd :=
  match before_read dbg rem_capacity self with
  | Ok (self, needed) =>
      match answers with
      | [] => ((Err WouldBlock, self, MkSock incoming [] false), [], [])
      | ReadFails e :: answers' => ((Err e, self, MkSock incoming answers' false), [], [])
      | Got n fds :: answers' =>
          let capacity := if with_fd self then needed else needed + rem_capacity in
          let gotten := take n (take capacity incoming) in
          let incoming := drop (length gotten) incoming in
          if decide (gotten = []) then
            ((Err BrokenPipe, self, MkSock incoming answers' false), [], []) else
          let got := if with_fd self then fds else [] in
          match after_read_fds self needed gotten fds with
          | ((Ok None, self, _), closed) =>
              let '(res, got', closed') := recv_loop_fds self incoming answers' in
              (res, got ++ got', closed ++ closed')
          | ((Ok (Some msg), self, sh), closed) =>
              ((Ok msg, self, MkSock incoming answers' sh), got, closed)
          | ((Err e, self, sh), closed) => ((Err e, self, MkSock incoming answers' sh), got, closed)
          | ((Panic, self, sh), closed) => ((Panic, self, MkSock incoming answers' sh), got, closed)
          end
      end
  | Err e => ((Err e, self, MkSock incoming answers false), [], [])
  | Panic => ((Panic, self, MkSock incoming answers false), [], [])
  end.

Definition get_next_message_fds (self : RecvState) (sock : Sock)
    : (io_result MarshalledMessage * RecvState * Sock) * list Fd * list Fd :=
  match try_get_msg_fds self with
  | ((Ok (Some (hdr, dynhdr, body)), self, sh), closed) =>
      let '((r, sh'), closed') := deliver_fds hdr dynhdr body [] in
      ((r, self, MkSock (incoming sock) (reads sock) (sh || sh')), [], closed ++ closed')
  | ((Ok None, self, _), closed) =>
      let '(res, got, closed') := recv_loop_fds self (incoming sock) (reads sock) in
      (res, got, closed ++ closed')
  | ((Err e, self, sh), closed) => ((Err e, self, MkSock (incoming sock) (reads sock) sh), [], closed)
  | ((Panic, self, sh), closed) => ((Panic, self, MkSock (incoming sock) (reads sock) sh), [], closed)
  end.

(** ** The results are those of Recv.v *)

Lemma try_handler_fds_erase r : (try_handler_fds r).1 = try_handler r.1.
Proof. destruct r as [[[[o|e|] self] sh] closed]; [done| |done]. by destruct e. Qed.

Lemma try_dynhdr_fds_erase self hdr b : (try_dynhdr_fds self hdr b).1 = try_dynhdr self hdr b.
Proof.
  unfold try_dynhdr_fds, try_dynhdr.
  destruct (extend_max b _ _ _) as [[[[] b1] l1]| |]; [|done..]. cbv zeta.
  destruct (mbind _ _) as [[[[] b2] l2]| |]; [|done..].
  destruct (read_dynheader _ _ _); [|done..]. by rewrite try_handler_fds_erase.
Qed.

Lemma try_get_msg_fds_erase self : (try_get_msg_fds self).1 = try_get_msg self.
Proof.
  unfold try_get_msg_fds, try_get_msg. rewrite try_handler_fds_erase.
  destruct (in_state self) as [b|hdr b|hdr d b]; cbn [fst]; [|by rewrite try_dynhdr_fds_erase|done].
  f_equal. unfold try_header_fds, try_header.
  destruct (extend_max b _ _ _) as [[[[] b1] l1]| |]; [|done..]. cbv zeta.
  destruct (unmarshal_header b1); [|done..]. by rewrite try_handler_fds_erase, try_dynhdr_fds_erase.
Qed.

Lemma deliver_fds_erase hdr d body fds :
  (deliver_fds hdr d body fds).1 = deliver parse_description validate_marshalled hdr d body fds.
Proof. unfold deliver_fds, deliver. by destruct (Body.validate _ _ _). Qed.

Lemma after_read_fds_erase self needed gotten fds :
  (after_read_fds self needed gotten fds).1 =
    after_read parse_description validate_marshalled self needed gotten fds.
Proof.
  unfold after_read_fds, after_read. cbv zeta. case_decide; [done|].
  rewrite <- try_get_msg_fds_erase.
  destruct (try_get_msg_fds _) as [[[[[[[hdr d] body]|]|e|] self'] sh] closed]; cbn [fst]; try done.
  case_decide; [done|]. rewrite <- deliver_fds_erase.
  by destruct (deliver_fds hdr d body _) as [[r sh'] closed'].
Qed.

Lemma recv_loop_fds_erase self incoming answers :
  (recv_loop_fds self incoming answers).1.1 =
    recv_loop parse_description validate_marshalled dbg rem_capacity self incoming answers.
Proof.
  revert self incoming. induction answers as [|[n fds|e] answers IH]; intros self incoming; cbn;
    destruct (before_read _ _ _) as [[self1 needed]|e1|]; try done.
  case_decide; [done|]. rewrite <- after_read_fds_erase.
  destruct (after_read_fds _ _ _ _) as [[[[[msg|]|e|] self2] sh] closed]; cbn [fst]; try done.
  rewrite <- IH. by destruct (recv_loop_fds _ _ _) as [[res got] closed'].
Qed.

Lemma get_next_message_fds_erase self sock :
  (get_next_message_fds self sock).1.1 =
    get_next_message parse_description validate_marshalled dbg rem_capacity self sock.
Proof.
  unfold get_next_message_fds, get_next_message. rewrite <- try_get_msg_fds_erase.
  destruct (try_get_msg_fds _) as [[[[[[[hdr d] body]|]|e|] self'] sh] closed]; cbn [fst]; try done.
  - rewrite <- deliver_fds_erase. by destruct (deliver_fds hdr d body _) as [[r sh'] closed'].
  - rewrite <- recv_loop_fds_erase. by destruct (recv_loop_fds _ _ _) as [[res got] closed'].
Qed.

(** ** The account *)

(** Nothing is closed by a call that succeeds or has to wait. *)
Definition settled {A} (r : io_result A) (closed : list Fd) : Prop :=
  match r with Ok _ | Err WouldBlock => closed = [] | _ => True end.

(** What was held before is held or closed. *)
Definition kept (self : RecvState) (t : try_result * list Fd) : Prop :=
  let '((r, self', _), closed) := t in
  in_fds self = closed ++ in_fds self' ∧ with_fd self' = with_fd self ∧ settled r closed.

Lemma kept_handler self t :
  kept self t → kept self (try_handler_fds t) ∧ (try_handler_fds t).1.1.1 ≠ Err WouldBlock.
Proof.
  destruct t as [[[[o|e|] self'] sh] closed]; intros (Hf & Hw & Hs); [done| |done].
  destruct e; cbn; (split; [|done]); unfold kept; cbn [in_fds with_fd settled];
    by rewrite ?app_nil_r.
Qed.

Lemma kept_same self r self' sh :
  in_fds self' = in_fds self → with_fd self' = with_fd self → kept self ((r, self', sh), []).
Proof. intros Hf Hw. split; [done|]. split; [done|]. by destruct r as [|[]|]. Qed.

Lemma kept_set_state self st loc t : kept (set_state self st loc) t → kept self t.
Proof. by destruct t as [[[r self'] sh] closed]. Qed.

Lemma kept_finishing self hdr d b : kept self (try_finishing_fds self hdr d b).
Proof.
  unfold try_finishing_fds, try_finishing.
  destruct (extend_max b _ _ _) as [[[[] b1] l1]| |]; by apply kept_same.
Qed.

Lemma kept_dynhdr self hdr b : kept self (try_dynhdr_fds self hdr b).
Proof.
  unfold try_dynhdr_fds.
  destruct (extend_max b _ _ _) as [[[[] b1] l1]| |]; try by apply kept_same. cbv zeta.
  destruct (mbind _ _) as [[[[] b2] l2]| |]; try by apply kept_same.
  destruct (read_dynheader _ _ _) as [d| |]; try by apply kept_same.
  exact (proj1 (kept_handler _ _ (kept_set_state _ _ _ _ (kept_finishing _ _ _ _)))).
Qed.

Lemma kept_header self b : kept self (try_header_fds self b).
Proof.
  unfold try_header_fds.
  destruct (extend_max b _ _ _) as [[[[] b1] l1]| |]; try by apply kept_same. cbv zeta.
  destruct (unmarshal_header b1) as [hdr| |]; try by apply kept_same.
  exact (proj1 (kept_handler _ _ (kept_set_state _ _ _ _ (kept_dynhdr _ _ _)))).
Qed.

Lemma try_get_msg_account self :
  kept self (try_get_msg_fds self) ∧ (try_get_msg_fds self).1.1.1 ≠ Err WouldBlock.
Proof.
  unfold try_get_msg_fds. apply kept_handler.
  destruct (in_state self); [apply kept_header|apply kept_dynhdr|apply kept_finishing].
Qed.

(** The descriptors of a message that is delivered. *)
Definition delivered (r : io_result MarshalledMessage) : list Fd :=
  match r with Ok msg => raw_fds (m_body msg) | _ => [] end.

Lemma deliver_account hdr d body fds :
  let '((r, _), closed) := deliver_fds hdr d body fds in
  fds = closed ++ delivered r ∧ settled r closed.
Proof.
  unfold deliver_fds. cbv zeta. destruct (Body.validate _ _ _); cbn; [done|by rewrite app_nil_r..].
Qed.

(** A call on a state with [self]'s descriptors, of which it [got] more. *)
Definition accounted {A} (self : RecvState) (got : list Fd) (r : io_result A) (out : list Fd)
    (self' : RecvState) (closed : list Fd) : Prop :=
  in_fds self ++ got = closed ++ out ++ in_fds self' ∧ with_fd self' = with_fd self ∧
  settled r closed ∧
  (length (in_fds self) ≤ DBUS_MAX_FD_MESSAGE → length (in_fds self') ≤ DBUS_MAX_FD_MESSAGE).

Definition out_of {A} (f : A → io_result MarshalledMessage) (r : io_result A) : list Fd :=
  match r with Ok a => delivered (f a) | _ => [] end.

Definition maybe (o : option MarshalledMessage) : io_result MarshalledMessage :=
  match o with Some msg => Ok msg | None => Err WouldBlock end.

Lemma after_read_account self needed gotten fds :
  let '((r, self', _), closed) := after_read_fds self needed gotten fds in
  accounted self (if with_fd self then fds else []) r (out_of maybe r) self' closed.
Proof.
  unfold after_read_fds. cbv zeta.
  assert (in_fds self ++ (if with_fd self then fds else []) =
    if with_fd self then in_fds self ++ fds else in_fds self) as Hgot
    by (destruct (with_fd self); [done|apply app_nil_r]).
  unfold accounted. rewrite Hgot. set (held := if with_fd self then in_fds self ++ fds else in_fds self) in *.
  case_decide as Hmax; cbn [in_fds with_fd] in Hmax |- *.
  { split; [by cbn; rewrite ?app_nil_r|]. split; [done|]. split; [done|]. cbn. lia. }
  assert (length (in_fds self) ≤ DBUS_MAX_FD_MESSAGE → length held ≤ DBUS_MAX_FD_MESSAGE) as Hlen.
  { intros Hl. unfold held in Hmax |- *. destruct (with_fd self); [|done].
    apply Nat.nlt_ge. intros Hgt. by apply Hmax. }
  match goal with |- context [try_get_msg_fds ?s] => pose proof (try_get_msg_account s) as [Hk _] end.
  destruct (try_get_msg_fds _) as [[[[[[[hdr d] body]|]|e|] self'] sh] closed];
    destruct Hk as (Hf & Hw & Hs); cbn [in_fds with_fd settled] in Hf, Hw, Hs;
    try (rewrite Hf in *; rewrite length_app in Hlen; split; [done|];
         split; [done|]; split; [done|]; lia).
  rewrite Hs in Hf |- *. cbn [app] in Hf |- *. case_decide; cbn [in_fds with_fd].
  { split; [by cbn; rewrite ?app_nil_r|]. split; [done|]. split; [done|]. cbn. lia. }
  pose proof (deliver_account hdr d body (in_fds self')) as Hd.
  destruct (deliver_fds hdr d body _) as [[r sh'] closed']. destruct Hd as [Hd Hs'].
  split; [|by split; [|split; [destruct r as [|[]|]|cbn; lia]]].
  rewrite Hf, Hd at 1. cbn [in_fds]. rewrite app_nil_r. by destruct r.
Qed.

Lemma before_read_fds self self' needed :
  before_read dbg rem_capacity self = Ok (self', needed) →
  in_fds self' = in_fds self ∧ with_fd self' = with_fd self.
Proof.
  unfold before_read. repeat (destruct (dbg && _); [done|]). cbv zeta.
  destruct (bytes_needed_for_next _); [|done..]. cbn [mbind outcome_bind].
  destruct (dbg && _); [done|]. by intros [= <- _].
Qed.

Lemma accounted_stop {A} self self' (r : io_result A) :
  in_fds self' = in_fds self → with_fd self' = with_fd self → accounted self [] r [] self' [].
Proof.
  intros Hf Hw. unfold accounted. rewrite Hf, app_nil_r. repeat split; [done| |done].
  by destruct r as [|[]|].
Qed.

Lemma accounted_trans {A B} self got (a : A) self1 got' (r' : io_result B) out self' closed :
  accounted self got (Ok a) [] self1 [] → accounted self1 got' r' out self' closed →
  accounted self (got ++ got') r' out self' closed.
Proof.
  intros (Hf & Hw & _ & Hl) (Hf' & Hw' & Hs' & Hl'). cbn in Hf.
  split; [by rewrite app_assoc, Hf|]. split; [by rewrite Hw'|]. split; [done|]. auto.
Qed.

Lemma accounted_from {A} self1 self got (r : io_result A) out self' closed :
  in_fds self1 = in_fds self → with_fd self1 = with_fd self →
  accounted self1 got r out self' closed → accounted self got r out self' closed.
Proof. unfold accounted. by intros -> ->. Qed.

Lemma recv_loop_account self incoming answers :
  let '((r, self', _), got, closed) := recv_loop_fds self incoming answers in
  accounted self got r (delivered r) self' closed.
Proof.
  revert self incoming. induction answers as [|[n fds|e] answers IH]; intros self incoming; cbn;
    destruct (before_read _ _ _) as [[self1 needed]|e1|] eqn:Hb; try by apply accounted_stop.
  1,3: by apply accounted_stop; apply before_read_fds in Hb as [].
  apply before_read_fds in Hb as [Hbf Hbw].
  case_decide; [by apply accounted_stop|].
  match goal with |- context [after_read_fds _ _ ?g _] =>
    pose proof (after_read_account self1 needed g fds) as Ha end.
  destruct (after_read_fds _ _ _ _) as [[[[[msg|]|e|] self2] sh] closed];
    cbn [out_of maybe delivered] in Ha.
  1,3,4: by apply (accounted_from self1).
  assert (closed = []) as -> by apply Ha. apply (accounted_from self1 self) in Ha; [|done..].
  match goal with |- context [recv_loop_fds ?s ?i ?a] => specialize (IH s i) end.
  destruct (recv_loop_fds _ _ _) as [[[[r self'] sock'] got'] closed'].
  by eapply accounted_trans.
Qed.

(** Descriptors go to the message in the order they arrive, or are closed. *)
Lemma get_next_message_account self sock :
  let '((r, self', _), got, closed) := get_next_message_fds self sock in
  accounted self got r (delivered r) self' closed.
Proof.
  unfold get_next_message_fds. pose proof (try_get_msg_account self) as [Hk _].
  destruct (try_get_msg_fds _) as [[[[[[[hdr d] body]|]|e|] self'] sh] closed];
    destruct Hk as (Hf & Hw & Hs); cbn [settled] in Hs.
  - pose proof (deliver_account hdr d body []) as Hd.
    destruct (deliver_fds hdr d body _) as [[r sh'] closed']. destruct Hd as [Hd _].
    symmetry in Hd. apply app_nil in Hd as [-> Hd]. rewrite Hs in Hf |- *. rewrite Hd. by apply accounted_stop.
  - rewrite Hs in Hf |- *. pose proof (recv_loop_account self' (incoming sock) (reads sock)) as Hr.
    destruct (recv_loop_fds _ _ _) as [[[[r self2] sock'] got] closed'].
    unfold accounted in Hr |- *. cbn [app] in Hf |- *. by rewrite Hf, <- Hw.
  - unfold accounted. rewrite app_nil_r, Hf, length_app. split; [done|]. split; [done|].
    split; [done|]. lia.
  - unfold accounted. rewrite app_nil_r, Hf, length_app. split; [done|]. split; [done|].
    split; [done|]. lia.
Qed.
End calls.

(** ** The table of open descriptors *)

(** A process with a receive state.  [r_others] are the descriptors of its other code, to
    which a message belongs once it is returned. *)
Record Receiver := MkReceiver {
  r_state : RecvState;
  r_others : gset Fd;
  r_table : option (gset Fd);
}.

Definition recv_new (with_fd : bool) : RecvState := MkRecv (SHeader []) [] [] 0 with_fd.

(** [Drop] of a [RecvState] closes what waits in [in_fds]. *)
Definition drop_recv (s : RecvState) : list Fd := in_fds s.

Section process.
Context `{WireLib} `{RecvLib}.
Context {Ty : Type} (parse_description : bytes → outcome UnmarshalError (list Ty))
  (validate_marshalled : ByteOrder → nat → bytes → Ty → outcome UnmarshalError nat).
Context (dbg : bool) (rem_capacity : nat).

(** A descriptor the kernel delivers was not open.  Other code opens and closes its own,
    those of the messages it got among them. *)
Inductive receiver_step (p : Receiver) : Receiver → Prop :=
| receiver_call t sock res s sock' got closed :
    r_table p = Some t → NoDup got → list_to_set got ## t →
    get_next_message_fds parse_description validate_marshalled dbg rem_capacity (r_state p) sock
      = ((res, s, sock'), got, closed) →
    receiver_step p (MkReceiver s (r_others p ∪ list_to_set (delivered res))
      (close_all closed (t ∪ list_to_set got)))
| receiver_other t others :
    r_table p = Some t → others ∖ r_others p ## t →
    receiver_step p (MkReceiver (r_state p) others (Some (t ∖ r_others p ∪ others))).

(** The table is that of the other code and, apart from it, what waits. *)
Definition waiting_owned (p : Receiver) : Prop :=
  let own := in_fds (r_state p) in
  NoDup own ∧ list_to_set own ## r_others p ∧ length own ≤ DBUS_MAX_FD_MESSAGE ∧
  r_table p = Some (list_to_set own ∪ r_others p).

Lemma receiver_step_owned p p' : waiting_owned p → receiver_step p p' → waiting_owned p'.
Proof.
  intros (Hn & Hd & Hl & Ht) Hs.
  destruct Hs as [t sock res s sock' got closed Ht' Hng Hdg Hrun|t others Ht' Ho];
    rewrite Ht in Ht'; injection Ht' as <-.
  - pose proof (get_next_message_account parse_description validate_marshalled dbg rem_capacity
      (r_state p) sock) as Ha. rewrite Hrun in Ha. destruct Ha as (Hf & _ & _ & Hmax).
    destruct (close_balanced _ got closed (delivered res ++ in_fds s) _ Hn Hng Hd Hdg)
      as (Hn' & Hd' & Hc); [by rewrite Hf|].
    apply NoDup_app in Hn' as (_ & Hx & Hn').
    rewrite list_to_set_app_L in Hd', Hc. split_and!; cbn.
    + done.
    + set_solver.
    + by apply Hmax.
    + rewrite Hc. f_equal. set_solver.
  - split_and!; cbn; [done|set_solver|done|]. f_equal. set_solver.
Qed.

(** C16: every descriptor the socket delivers is given to exactly one message or closed
    exactly once.  Whatever the peer sends, cut up in whatever way, with whatever
    descriptors, whichever messages are refused and whatever other code does with the
    descriptors of the messages it got: a close never meets a descriptor that is not open or
    that a returned message holds, at most 32 wait at a time, and when the receive state goes
    too, exactly the descriptors of the other code are left open. *)
Theorem received_descriptors_owned wf others p :
  rtc receiver_step (MkReceiver (recv_new wf) others (Some others)) p →
  ∃ t, r_table p = Some t ∧ r_others p ⊆ t ∧
    length (in_fds (r_state p)) ≤ DBUS_MAX_FD_MESSAGE ∧
    close_all (drop_recv (r_state p)) t = Some (r_others p).
Proof.
  intros Hr. assert (waiting_owned p) as (Hn & Hd & Hl & Ht).
  { assert (waiting_owned (MkReceiver (recv_new wf) others (Some others))) as Ho.
    { unfold waiting_owned. cbn. split_and!; [constructor|set_solver|lia|f_equal; set_solver]. }
    induction Hr as [|p p' p'' Hs _ IH]; [done|]. apply IH. by eapply receiver_step_owned. }
  eexists. split; [exact Ht|]. split; [set_solver|]. split; [done|]. by apply close_all_own.
Qed.

(** a message carries the descriptors that arrived with it, in their order: when a call
    returns a message, what was waiting and what the call got is, in order, what the message
    holds and, should it hold none, what still waits; a call that has to wait keeps all; one
    that fails keeps all or closes all it does not keep, in order. *)
Theorem received_in_order self sock r self' sock' got closed :
  get_next_message_fds parse_description validate_marshalled dbg rem_capacity self sock
    = ((r, self', sock'), got, closed) →
  in_fds self ++ got = closed ++ delivered r ++ in_fds self' ∧
  match r with Ok _ | Err WouldBlock => closed = [] | _ => delivered r = [] end.
Proof.
  intros Hrun. pose proof (get_next_message_account parse_description validate_marshalled dbg
    rem_capacity self sock) as Ha. rewrite Hrun in Ha. destruct Ha as (Hf & _ & Hs & _).
  split; [done|]. by destruct r as [|[]|].
Qed.
End process.

(** ** Two messages with a descriptor each

    The first arrives in three reads with descriptor 9; of the second ten bytes and
    descriptor 10 arrive. *)

Definition fd_call_hdr : bytes :=
  match marshal_header true fd_call 7 with Ok h => h | _ => [] end.

Definition two_calls : bytes := fd_call_hdr ++ take 10 fd_call_hdr.

Abbreviation next_fds := (get_next_message_fds split_types check_u32 true 4096).

Definition two_sock : Sock :=
  MkSock two_calls [Got 10 [9]; Got 100 []; Got 500 []; Got 500 [10]] false.

Definition first_call := next_fds (recv_new true) two_sock.

Definition second_call := next_fds first_call.1.1.1.2 first_call.1.1.2.

Example first_call_gets_9 :
  first_call.1.2 = [9] ∧ first_call.2 = [] ∧ delivered first_call.1.1.1.1 = [9].
Proof. by vm_compute. Qed.

Example second_call_waits :
  second_call.1.2 = [10] ∧ second_call.2 = [] ∧ second_call.1.1.1.1 = Err WouldBlock.
Proof. by vm_compute. Qed.

(** A message that announces no descriptor and brings one is refused. *)
Example unexpected_closed :
  let '((r, _, _), got, closed) := next_fds (recv_new true)
    (MkSock (count_hdr ++ u32_bytes LittleEndian 42) [Got 100 [9]; Got 500 []; Got 500 []] false) in
  r = Err Other ∧ got = [9] ∧ closed = [9].
Proof. by vm_compute. Qed.

Definition first_msg : MarshalledMessage :=
  mm_from_raw (fixed_of fd_call 7) (set_serial (received fd_call) 7) [] [9].

Lemma first_call_eq :
  next_fds (recv_new true) two_sock =
    ((Ok first_msg, first_call.1.1.1.2, first_call.1.1.2), [9], []).
Proof. vm_compute. reflexivity. Qed.

Lemma second_call_eq :
  next_fds first_call.1.1.1.2 first_call.1.1.2 =
    ((Err WouldBlock, second_call.1.1.1.2, second_call.1.1.2), [10], []).
Proof. vm_compute. reflexivity. Qed.

Lemma received_descriptors_owned_witness :
  drop_recv second_call.1.1.1.2 = [10] ∧ ∃ t, 9 ∈ t ∧ close_all [10] t = Some {[3; 9]}.
Proof.
  split; [vm_compute; reflexivity|].
  set (p0 := MkReceiver (recv_new true) {[3]} (Some {[3]})).
  set (p1 := MkReceiver first_call.1.1.1.2 ({[3]} ∪ list_to_set (delivered (Ok first_msg)))
    (close_all [] ({[3]} ∪ list_to_set [9]))).
  set (p2 := MkReceiver second_call.1.1.1.2 (r_others p1 ∪ list_to_set [])
    (close_all [] ({[3]} ∪ list_to_set [9] ∪ list_to_set [10]))).
  assert (receiver_step split_types check_u32 true 4096 p0 p1) as H1.
  { refine (receiver_call split_types check_u32 true 4096 p0 {[3]} two_sock
      (Ok first_msg) first_call.1.1.1.2 first_call.1.1.2 [9] [] eq_refl _ _ first_call_eq); [by apply NoDup_singleton|clear; set_solver]. }
  assert (receiver_step split_types check_u32 true 4096 p1 p2) as H2.
  { refine (receiver_call split_types check_u32 true 4096 p1 ({[3]} ∪ list_to_set [9])
      first_call.1.1.2 (Err WouldBlock) second_call.1.1.1.2 second_call.1.1.2 [10] [] eq_refl _ _ second_call_eq);
      [by apply NoDup_singleton|clear; set_solver]. }
  assert (rtc (receiver_step split_types check_u32 true 4096) p0 p2) as Hr
    by (eapply rtc_l; [exact H1|apply rtc_once; exact H2]).
  destruct (received_descriptors_owned split_types check_u32 true 4096 true {[3]} p2 Hr)
    as (t & _ & Hsub & _ & Hc). cbn [p2 p1 r_others r_state] in Hsub, Hc.
  exists t. split; [apply Hsub; change (delivered (Ok first_msg)) with [9]; clear; set_solver|].
  replace (drop_recv second_call.1.1.1.2) with [10] in Hc by (vm_compute; reflexivity).
  rewrite Hc. vm_compute. reflexivity.
Defined.

Lemma received_in_order_witness :
  in_fds first_call.1.1.1.2 = [] ∧ raw_fds (m_body first_msg) = [9].
Proof.
  split; [|vm_compute; reflexivity].
  destruct (received_in_order split_types check_u32 true 4096 _ _ _ _ _ _ _ first_call_eq) as [Hf _].
  revert Hf. change (delivered (Ok first_msg)) with [9]. generalize (in_fds first_call.1.1.1.2).
  by intros l [= <-].
Defined.
