(* ===== verification/RawBuf.v ===== *)
(** * The raw reads behind the receive state (conn/recv.rs)

    [get_next_message] has the kernel write into the unused room behind its two vectors, the
    buffer of the message in the making and the one of what is left over, and then sets their
    lengths.  Recv.v sees in this the lists of bytes the vectors hold; here is the memory:
    a heap of blocks whose bytes may be uninitialised, vectors that point into it, raw slices,
    and an undefined operation wherever the code could leave a block, use one that is freed or
    make uninitialised bytes visible.  [raw_read_refines] shows that it never does, and that
    the vectors hold what Recv.v says; [header_slice_uninit] that the slices made on the way
    are of uninitialised bytes. *)
From stdpp Require Import base gmap sets list.
From S2P Require Import Prelude Recv.

(** ** Memory

    A block is a list of bytes of which some are uninitialised; [None] as a result is
    undefined behaviour.  A dangling pointer, as of [Vec::new], is to no bytes. *)

Abbreviation block := (list (option ascii)) (only parsing).

Abbreviation heap := (gmap nat block) (only parsing).

(** [Vec<u8>]: pointer, capacity and length. *)
Record Vec := MkVec { v_ptr : option nat; v_cap : nat; v_len : nat }.

(** [&mut [u8]]: [s_len] bytes of a block from [s_off] on. *)
Record Slice := MkSlice { s_ptr : option nat; s_off : nat; s_len : nat }.

Definition block_of (h : heap) (p : option nat) : option block :=
  match p with None => Some [] | Some l => h !! l end.

Definition free (h : heap) (p : option nat) : heap :=
  match p with None => h | Some l => delete l h end.

(** [mem::take] leaves [Vec::new()] behind. *)
Definition vec_new : Vec := MkVec None 0 0.

(** [slice::from_raw_parts_mut]: the bytes have to be of one block. *)
Definition from_raw_parts_mut (h : heap) (p : option nat) (off len : nat) : option Slice :=
  b ← block_of h p;
  if decide (off + len ≤ length b) then Some (MkSlice p off len) else None.

(** Bytes copied to the front of a slice. *)
Definition copy_to (h : heap) (s : Slice) (bs : bytes) : option heap :=
  if decide (bs = []) then Some h else
  l ← s_ptr s;
  b ← h !! l;
  if decide (length bs ≤ s_len s ∧ s_off s + length bs ≤ length b) then
    Some (<[l := take (s_off s) b ++ (Some <$> bs) ++ drop (s_off s + length bs) b]> h)
  else None.

(** [Vec::set_len]: the bytes up to the length have to be there and initialised. *)
Definition set_len (h : heap) (v : Vec) (n : nat) : option Vec :=
  b ← block_of h (v_ptr v);
  if decide (n ≤ length b ∧ Forall is_Some (take n b)) then Some (MkVec (v_ptr v) (v_cap v) n)
  else None.

Section raw.
(** The capacity [Vec::reserve] goes to from an insufficient one; at least the required. *)
Context (grow : nat → nat → nat) (Hgrow : ∀ cap required, required ≤ grow cap required).

(** [Vec::reserve]: with room enough nothing happens, otherwise the bytes move. *)
Definition reserve (h : heap) (v : Vec) (additional : nat) : option (Vec * heap) :=
  let required := v_len v + additional in
  if decide (required ≤ v_cap v) then Some (v, h) else
  b ← block_of h (v_ptr v);
  let cap := grow (v_cap v) required in
  let l := fresh (dom h) in
  Some (MkVec (Some l) cap (v_len v),
        <[l := b ++ replicate (cap - length b) None]> (free h (v_ptr v))).

(** ** The code *)

Definition vec_uninit_slice (h : heap) (vec : Vec) (wanted : option nat)
    : option (Slice * Vec * heap) :=
  '(target, vec, h) ←
    match wanted with
    | Some wanted => '(vec, h) ← reserve h vec wanted; Some (wanted, vec, h)
    | None => Some (v_cap vec - v_len vec, vec, h)
    end;
  rem_buf ← from_raw_parts_mut h (v_ptr vec) (v_len vec) target;
  Some (rem_buf, vec, h).

(** The read of [get_next_message], the socket having [incoming] and giving at most [n]
    bytes of it, which fill the slices in their order: the bytes read, [in_state]'s buffer,
    [remaining] and the heap. *)
Definition raw_read (with_fd : bool) (h : heap) (vec remaining : Vec) (needed n : nat)
    (incoming : bytes) : option (bytes * Vec * Vec * heap) :=
  '(uninit_buf, vec, h) ← vec_uninit_slice h vec (Some needed);
  let uninit_len := s_len uninit_buf in
  let rem := remaining in
  '(rem_buf, rem, h) ←
    (if with_fd then Some (MkSlice None 0 0, rem, h) else vec_uninit_slice h rem None);
  let read := take n (take (uninit_len + s_len rem_buf) incoming) in
  h ← copy_to h uninit_buf (take uninit_len read);
  h ← copy_to h rem_buf (drop uninit_len read);
  let gotten := length read in
  if decide (gotten = 0) then Some (read, vec, rem, h) else
  if decide (uninit_len < gotten) then
    vec ← set_len h vec (v_len vec + uninit_len);
    rem ← set_len h rem (gotten - uninit_len);
    Some (read, vec, rem, h)
  else
    vec ← set_len h vec (v_len vec + gotten);
    Some (read, vec, rem, h).

(** ** What a vector holds *)

(** The block of [v], as long as its capacity, starts with [bs], of which [n] are visible. *)
Definition holds (h : heap) (v : Vec) (bs : bytes) (n : nat) : Prop :=
  ∃ rest, block_of h (v_ptr v) = Some ((Some <$> bs) ++ rest) ∧
    v_cap v = length bs + length rest ∧ v_len v = n ∧ n ≤ length bs.

Definition owns (h : heap) (v : Vec) (bs : bytes) : Prop := holds h v bs (length bs).

(** Two vectors never share a block. *)
Definition apart (v w : Vec) : Prop := v_ptr v = None ∨ v_ptr v ≠ v_ptr w.

(** Blocks other than those at [p] and [q] are left alone. *)
Definition frame (h h' : heap) (p q : option nat) : Prop :=
  ∀ l b, h !! l = Some b → p ≠ Some l → q ≠ Some l → h' !! l = Some b.

Lemma frame_refl h p q : frame h h p q.
Proof. by intros l b. Qed.

(** A vector whose block is not touched keeps its contents. *)
Lemma holds_frame h h' p v bs n :
  frame h h' p None → p = None ∨ p ≠ v_ptr v → holds h v bs n → holds h' v bs n.
Proof.
  intros Hf Hp (rest & Hb & Hrest). exists rest. split; [|done]. revert Hb.
  unfold block_of. destruct (v_ptr v) as [l|]; [|done]. intros Hb.
  apply Hf; [done| |done]. by destruct Hp as [->|].
Qed.

Lemma from_raw_parts_holds h v bs n k :
  holds h v bs n → n + k ≤ v_cap v →
  from_raw_parts_mut h (v_ptr v) n k = Some (MkSlice (v_ptr v) n k).
Proof.
  intros (rest & Hb & Hcap & _) Hk. unfold from_raw_parts_mut. rewrite Hb. cbn.
  rewrite decide_True; [done|]. rewrite length_app, length_fmap. lia.
Qed.

(** After [reserve] there is room, in the old block or in one that nobody has. *)
Lemma reserve_spec h v bs k :
  owns h v bs →
  ∃ v' h', reserve h v k = Some (v', h') ∧ owns h' v' bs ∧ length bs + k ≤ v_cap v' ∧
    frame h h' (v_ptr v) None ∧ (v_ptr v' = v_ptr v ∨ ∃ l, v_ptr v' = Some l ∧ h !! l = None).
Proof.
  intros Hv. pose proof Hv as (rest & Hb & Hcap & Hlen & _). unfold reserve.
  rewrite Hlen. case_decide as Hroom.
  { exists v, h. split_and!; [done..|apply frame_refl|by left]. }
  rewrite Hb. cbn. pose proof (Hgrow (v_cap v) (length bs + k)) as Hreq.
  set (cap := grow _ _) in *. set (l := fresh (dom h)).
  assert (h !! l = None) as Hl by (apply not_elem_of_dom, is_fresh).
  eexists _, _. split; [done|]. split_and!; cbn.
  - exists (rest ++ replicate (cap - length ((Some <$> bs) ++ rest)) None). cbn.
    rewrite lookup_insert_eq, <- app_assoc. split_and!; [done| |done|done].
    rewrite !length_app, length_fmap, length_replicate. lia.
  - lia.
  - intros l' b Hb' Hne _. rewrite lookup_insert_ne by congruence.
    destruct (v_ptr v) as [p|]; cbn; [|done]. by rewrite lookup_delete_ne by congruence.
  - right. by exists l.
Qed.

(** Bytes that fit, copied behind the contents: they are there, and still invisible. *)
Lemma copy_to_holds h v bs new k :
  owns h v bs → length new ≤ k → length bs + length new ≤ v_cap v →
  ∃ h', copy_to h (MkSlice (v_ptr v) (length bs) k) new = Some h' ∧
    holds h' v (bs ++ new) (length bs) ∧ frame h h' (v_ptr v) None.
Proof.
  intros (rest & Hb & Hcap & Hlen & Hle) Hk Hroom. unfold copy_to. case_decide as Hnew.
  { subst new. exists h. rewrite app_nil_r. split_and!; [done|by exists rest|apply frame_refl]. }
  unfold block_of in Hb. cbn. destruct (v_ptr v) as [l|] eqn:Hp; cbn [mbind option_bind].
  2:{ exfalso. injection Hb as Hb. symmetry in Hb. apply app_eq_nil in Hb as [_ ->].
    destruct new; [done|]. cbn in *. lia. }
  rewrite Hb. cbn. rewrite length_app, length_fmap, decide_True by lia.
  eexists. split; [done|]. split.
  - exists (drop (length new) rest). rewrite Hp. cbn. rewrite lookup_insert_eq. split_and!.
    + rewrite take_app_length', drop_app_ge by (rewrite length_fmap; lia).
      rewrite length_fmap, fmap_app, <- app_assoc. do 3 f_equal. f_equal. lia.
    + rewrite length_app, length_drop. lia.
    + done.
    + rewrite length_app. lia.
  - intros l' b Hb' Hne _. by rewrite lookup_insert_ne by congruence.
Qed.

(** [set_len] makes visible what is there. *)
Lemma set_len_holds h v bs n :
  holds h v bs n →
  ∃ v', set_len h v (length bs) = Some v' ∧ owns h v' bs ∧
    v_ptr v' = v_ptr v ∧ v_cap v' = v_cap v.
Proof.
  intros (rest & Hb & Hcap & _). unfold set_len. rewrite Hb. cbn.
  rewrite decide_True.
  - eexists. split; [done|]. split_and!; [|done..]. exists rest. by split_and!.
  - rewrite length_app, length_fmap, take_app_length' by (by rewrite length_fmap).
    split; [lia|]. apply Forall_fmap, Forall_true. by eexists.
Qed.

Lemma holds_unset h v bs new n : holds h v (bs ++ new) n → n = length bs → owns h v bs.
Proof.
  intros (rest & Hb & Hcap & Hlen & _) ->. exists ((Some <$> new) ++ rest).
  rewrite fmap_app, <- app_assoc in Hb. split_and!; [done| |done|done].
  rewrite length_app in *. rewrite length_fmap. lia.
Qed.

Lemma vec_uninit_slice_wanted h v bs k :
  owns h v bs →
  ∃ v' h', vec_uninit_slice h v (Some k) = Some (MkSlice (v_ptr v') (length bs) k, v', h') ∧
    owns h' v' bs ∧ length bs + k ≤ v_cap v' ∧ frame h h' (v_ptr v) None ∧
    (v_ptr v' = v_ptr v ∨ ∃ l, v_ptr v' = Some l ∧ h !! l = None).
Proof.
  intros Hv. destruct (reserve_spec h v bs k Hv) as (v' & h' & Hres & Hv' & Hroom & Hf & Hp).
  exists v', h'. split; [|by split_and!]. unfold vec_uninit_slice. rewrite Hres. cbn.
  pose proof Hv' as (_ & _ & _ & Hlen & _).
  by rewrite Hlen, (from_raw_parts_holds h' v' bs _ k Hv' Hroom).
Qed.

Lemma vec_uninit_slice_rest h v bs :
  owns h v bs →
  vec_uninit_slice h v None =
    Some (MkSlice (v_ptr v) (length bs) (v_cap v - length bs), v, h).
Proof.
  intros Hv. pose proof Hv as (rest & _ & Hcap & Hlen & _). unfold vec_uninit_slice. cbn.
  by rewrite Hlen, (from_raw_parts_holds h v bs _ (v_cap v - length bs) Hv) by lia.
Qed.

(** A vector in a block of its own stays apart when the other one moves to a fresh block. *)
Lemma apart_moved h v v' w bs n :
  holds h w bs n → apart v w → (v_ptr v' = v_ptr v ∨ ∃ l, v_ptr v' = Some l ∧ h !! l = None) →
  apart v' w.
Proof.
  intros (rest & Hb & _) Ha [Hp|(l & Hp & Hl)]; unfold apart in *; rewrite Hp; [done|].
  right. intros Hw. rewrite <- Hw in Hb. cbn in Hb. congruence.
Qed.

Lemma apart_sym v w : apart v w → apart w v.
Proof. unfold apart. intros [->|Hne]; [|by right]. destruct (v_ptr w); [by right|by left]. Qed.

Lemma frame_trans h1 h2 h3 p p' q :
  frame h1 h2 p None → frame h2 h3 p' q → (p' = p ∨ ∃ l, p' = Some l ∧ h1 !! l = None) →
  frame h1 h3 p q.
Proof.
  intros H12 H23 Hp l b Hl Hne Hq. apply H23; [by apply H12| |done].
  destruct Hp as [->|(l' & -> & Hl')]; [done|]. congruence.
Qed.

(** Bytes that fit are copied behind what [v] owns, and [w] keeps what it holds. *)
Lemma fill h v w bs cs m new k :
  owns h v bs → holds h w cs m → apart v w →
  length new ≤ k → length bs + length new ≤ v_cap v →
  ∃ h', copy_to h (MkSlice (v_ptr v) (length bs) k) new = Some h' ∧
    holds h' v (bs ++ new) (length bs) ∧ holds h' w cs m ∧ frame h h' (v_ptr v) None.
Proof.
  intros Hv Hw Ha Hk Hroom. destruct (copy_to_holds h v bs new k Hv Hk Hroom) as (h' & -> & Hv' & Hf).
  exists h'. split_and!; [done..| |done]. by apply (holds_frame h h' (v_ptr v)).
Qed.

(** The room of both slices: what Recv.v lets a read be long. *)
Definition room (with_fd : bool) (rem : Vec) (needed : nat) : nat :=
  if with_fd then needed else needed + v_cap rem.

Definition rem_slice (with_fd : bool) (rem : Vec) : Slice :=
  if with_fd then MkSlice None 0 0 else MkSlice (v_ptr rem) 0 (v_cap rem).

(** The kernel fills both slices. *)
Lemma copies with_fd h v rem buf needed (read : bytes) :
  owns h v buf → owns h rem [] → apart v rem → length buf + needed ≤ v_cap v →
  length read ≤ room with_fd rem needed →
  ∃ h1 h2, copy_to h (MkSlice (v_ptr v) (length buf) needed) (take needed read) = Some h1 ∧
    copy_to h1 (rem_slice with_fd rem) (drop needed read) = Some h2 ∧
    holds h2 v (buf ++ take needed read) (length buf) ∧ holds h2 rem (drop needed read) 0 ∧
    frame h h2 (v_ptr v) (v_ptr rem).
Proof.
  intros Hv Hr Ha Hroom Hlen.
  destruct (fill h v rem buf [] 0 (take needed read) needed) as (h1 & -> & Hv1 & Hr1 & Hf1);
    [done..|rewrite length_take; lia|rewrite length_take; lia|].
  exists h1. destruct with_fd; cbn in Hlen.
  { assert (drop needed read = []) as -> by (by apply drop_ge). exists h1.
    split_and!; [done..|]. by intros l b Hl Hne _; apply Hf1. }
  destruct (fill h1 rem v [] (buf ++ take needed read) (length buf) (drop needed read) (v_cap rem))
    as (h2 & Hc & Hr2 & Hv2 & Hf2);
    [done|done|by apply apart_sym|rewrite length_drop; lia|rewrite length_drop; cbn; lia|].
  exists h2. split_and!; [done..|]. intros l b Hl Hne Hq. apply Hf2; [by apply Hf1|done..].
Qed.

(** The lengths set after the read show what is there. *)
Lemma lengths_set h v rem buf needed (read : bytes) :
  holds h v (buf ++ take needed read) (length buf) → holds h rem (drop needed read) 0 →
  apart v rem →
  ∃ v' rem', (if decide (length read = 0) then Some (read, v, rem, h) else
    if decide (needed < length read) then
      vec ← set_len h v (v_len v + needed);
      rem ← set_len h rem (length read - needed);
      Some (read, vec, rem, h)
    else
      vec ← set_len h v (v_len v + length read);
      Some (read, vec, rem, h)) = Some (read, v', rem', h) ∧
    owns h v' (buf ++ take needed read) ∧ owns h rem' (drop needed read) ∧
    apart v' rem' ∧ v_cap rem' = v_cap rem.
Proof.
  intros Hv Hr Ha. pose proof Hv as (_ & _ & _ & -> & _).
  destruct (set_len_holds _ _ _ _ Hv) as (v' & Hv' & Hown & Hptr & _).
  destruct (set_len_holds _ _ _ _ Hr) as (rem' & Hr' & Hrown & Hrptr & Hrcap).
  rewrite length_app, length_take in Hv'. rewrite length_drop in Hr'.
  case_decide as Hz; [|case_decide as Hlt].
  - apply nil_length_inv in Hz. subst read. rewrite take_nil, drop_nil in *.
    exists v, rem. split_and!; [done| | |done..].
    + rewrite app_nil_r in *. done.
    + done.
  - rewrite Nat.min_l in Hv' by lia. rewrite Hv', Hr'. cbn. exists v', rem'.
    split_and!; [done..| |done]. unfold apart. by rewrite Hptr, Hrptr.
  - rewrite Nat.min_r in Hv' by lia. rewrite Hv'. cbn. exists v', rem.
    assert (drop needed read = []) as Hd by (apply drop_ge; lia). rewrite Hd in *.
    split_and!; [done..| |done]. unfold apart. by rewrite Hptr.
Qed.

(** C35: A raw read never leaves the blocks of the two vectors, uses none that is freed and
    shows no uninitialised byte, however long the read, however [reserve] grows and wherever
    the blocks are; the buffer of the message then holds the first of the bytes read behind
    what it had, and the leftover buffer, which keeps its capacity, the others; the blocks of
    everybody else are untouched. *)
Theorem raw_read_refines with_fd h vec rem buf needed n incoming :
  owns h vec buf → owns h rem [] → apart vec rem →
  let read := take n (take (room with_fd rem needed) incoming) in
  ∃ vec' rem' h', raw_read with_fd h vec rem needed n incoming = Some (read, vec', rem', h') ∧
    owns h' vec' (buf ++ take needed read) ∧ owns h' rem' (drop needed read) ∧
    apart vec' rem' ∧ v_cap rem' = v_cap rem ∧ frame h h' (v_ptr vec) (v_ptr rem).
Proof.
  intros Hvec Hrem Ha.
  destruct (vec_uninit_slice_wanted h vec buf needed Hvec)
    as (v & h1 & Hs & Hv & Hroom & Hf1 & Hp).
  assert (apart v rem) as Ha1 by by eapply (apart_moved h).
  assert (owns h1 rem []) as Hr by by apply (holds_frame h h1 (v_ptr vec)).
  unfold raw_read. rewrite Hs. cbn [mbind option_bind s_len]. cbv zeta.
  assert ((if with_fd then Some (MkSlice None 0 0, rem, h1) else vec_uninit_slice h1 rem None) =
    Some (rem_slice with_fd rem, rem, h1)) as ->.
  { unfold rem_slice. destruct with_fd; [done|]. rewrite (vec_uninit_slice_rest h1 rem [] Hr). cbn.
    by rewrite Nat.sub_0_r. }
  cbn [mbind option_bind]. cbv zeta.
  assert (needed + s_len (rem_slice with_fd rem) = room with_fd rem needed) as ->
    by (unfold rem_slice, room; destruct with_fd; cbn; lia).
  set (read := take n (take (room with_fd rem needed) incoming)).
  destruct (copies with_fd h1 v rem buf needed read) as (h2 & h3 & -> & Hc & Hv3 & Hr3 & Hf3);
    [done..|unfold read; rewrite !length_take; lia|].
  cbn [mbind option_bind]. rewrite Hc. cbn [mbind option_bind].
  destruct (lengths_set h3 v rem buf needed read Hv3 Hr3 Ha1)
    as (v' & rem' & -> & Hv' & Hr' & Ha' & Hcap).
  exists v', rem', h3. split_and!; [done..|]. by eapply frame_trans.
Qed.

(** The slice made behind a new vector, as for the first header, is of bytes that nobody has
    written; [from_raw_parts_mut] asks for initialised ones. *)
Lemma header_slice_uninit h k :
  0 < k →
  ∃ v h' l b, vec_uninit_slice h vec_new (Some k) = Some (MkSlice (Some l) 0 k, v, h') ∧
    h' !! l = Some b ∧ Forall (λ c, c = None) (take k b) ∧ k ≤ length b.
Proof.
  intros Hk. unfold vec_uninit_slice, reserve. cbn [vec_new v_len v_cap v_ptr block_of].
  rewrite decide_False by lia. cbn.
  pose proof (Hgrow 0 k) as Hreq. set (cap := grow 0 k) in *. set (l := fresh (dom h)).
  unfold from_raw_parts_mut. cbn. rewrite lookup_insert_eq. cbn.
  rewrite length_replicate, decide_True by lia. cbn.
  eexists _, _, l, _. split; [done|]. rewrite lookup_insert_eq. split; [done|].
  rewrite length_replicate, Nat.sub_0_r. split; [|done].
  by apply Forall_take, Forall_replicate.
Qed.
End raw.

(** ** On concrete memory *)

(** What [Vec] does today: at least twice the capacity, and at least eight bytes. *)
Definition amortized (cap required : nat) : nat := Nat.max (Nat.max (cap * 2) required) 8.

Lemma amortized_enough cap required : required ≤ amortized cap required.
Proof. unfold amortized. lia. Qed.

Definition two_vecs : heap :=
  {[ 0 := [Some "l"%char; Some "B"%char; None; None]; 1 := replicate 8 None; 2 := [None] ]}.

(** A read of six bytes of which three are wanted: the first vector has to grow. *)
Example raw_read_moves :
  raw_read amortized false two_vecs (MkVec (Some 0) 4 2) (MkVec (Some 1) 8 0) 3 10 (lit "cdefgh")
  = Some (lit "cdefgh", MkVec (Some 3) 8 5, MkVec (Some 1) 8 3,
      {[ 1 := (Some <$> lit "fgh") ++ replicate 5 None; 2 := [None];
         3 := (Some <$> lit "lBcde") ++ replicate 3 None ]}).
Proof. vm_compute. reflexivity. Qed.

Lemma raw_read_refines_witness :
  let read := lit "cdefgh" in
  ∃ vec' rem' h',
    raw_read amortized false two_vecs (MkVec (Some 0) 4 2) (MkVec (Some 1) 8 0) 3 10
      (lit "cdefgh") = Some (read, vec', rem', h') ∧
    owns h' vec' (lit "lB" ++ take 3 read) ∧ owns h' rem' (drop 3 read) ∧
    apart vec' rem' ∧ v_cap rem' = 8 ∧ frame two_vecs h' (Some 0) (Some 1).
Proof.
  refine (raw_read_refines amortized amortized_enough false two_vecs (MkVec (Some 0) 4 2)
    (MkVec (Some 1) 8 0) (lit "lB") 3 10 (lit "cdefgh") _ _ _).
  - exists [None; None]. split_and!; [reflexivity..|cbn; lia].
  - exists (replicate 8 None). split_and!; [reflexivity..|cbn; lia].
  - right. discriminate.
Defined.
