(* ===== verification/Rpc.v ===== *)
(** * lib.rs: the RPC connection

    [RpcConn] numbers outgoing messages, remembers a one-shot channel per outstanding
    call in [reply_map], and lets whichever future holds the receive lock sort the
    incoming messages: to itself, to the channel of a reply, to a signal or call queue.

    The receive state is the list of results its successive [get_next_message] calls
    give (Recv.v says which); after the list it is [WouldBlock].  A one-shot channel is
    its number; [reply_map] holds the sending ends, [oneshots] what was sent.  Futures
    are polled one at a time, and a run of [queue_msg] holds the lock throughout, so an
    execution is a sequence of [action]s. *)

From S2P Require Import Prelude Utils Body StdPath ObjPath Message Hierarchy Order MatchRule.
From Stdlib Require Import Lia.

(** ** Serials *)

(** [AtomicU32::fetch_add] wraps around; the loop is left at the first non-zero value.
    Zero comes once in a cycle, so it goes round at most twice. *)
Fixpoint allocate_loop (fuel : nat) (serial idx : N) : option (N * N) :=
  if decide (idx = 0%N) then
    match fuel with
    | O => None
    | S fuel' => allocate_loop fuel' (wrap32 (serial + 1)) serial
    end
  else Some (idx, serial).

(** [allocate_idx]: the serial and the counter after it. *)
Definition allocate_idx (serial : N) : option (N * N) := allocate_loop 2 serial 0.

(** ** The shared state *)

(** [RecvData].  The last three fields are the channels and, for the specification
    only, the messages taken from the stream so far. *)
Record RecvData := MkRecvData {
  inbox : list (io_result MarshalledMessage);
  reply_map : gmap N nat;
  hierarchy : CallHierarchy;
  sig_matches : list MatchRule;
  chans : gmap queue (list MarshalledMessage);
  oneshots : gmap nat MarshalledMessage;
  seen : list MarshalledMessage;
}.

Definition set_inbox (rd : RecvData) (l : list (io_result MarshalledMessage)) : RecvData :=
  MkRecvData l (reply_map rd) (hierarchy rd) (sig_matches rd) (chans rd) (oneshots rd) (seen rd).

Definition set_reply_map (rd : RecvData) (m : gmap N nat) : RecvData :=
  MkRecvData (inbox rd) m (hierarchy rd) (sig_matches rd) (chans rd) (oneshots rd) (seen rd).

Definition set_chans (rd : RecvData) (c : gmap queue (list MarshalledMessage)) : RecvData :=
  MkRecvData (inbox rd) (reply_map rd) (hierarchy rd) (sig_matches rd) c (oneshots rd) (seen rd).

Definition set_oneshots (rd : RecvData) (o : gmap nat MarshalledMessage) : RecvData :=
  MkRecvData (inbox rd) (reply_map rd) (hierarchy rd) (sig_matches rd) (chans rd) o (seen rd).

(** [get_next_message] has given [msg]. *)
Definition take_msg (rd : RecvData) (l : list (io_result MarshalledMessage))
    (msg : MarshalledMessage) : RecvData :=
  MkRecvData l (reply_map rd) (hierarchy rd) (sig_matches rd) (chans rd) (oneshots rd)
    (seen rd ++ [msg]).

(** The closures handed to [get_msg]; they read the hierarchy only. *)
Abbreviation predicate := (MarshalledMessage → CallHierarchy → outcome ErrorKind bool).

(** [res_pred] of [send_msg_w_rsp]; a reply without a serial is [unreachable!]. *)
Definition res_pred (idx : N) : predicate := λ msg _,
  match typ msg with
  | TReply | TError =>
      res_idx ← unwrap (response_serial (dynheader msg)); mret (bool_decide (res_idx = idx))
  | _ => Ok false
  end.

(** [sig_pred] of [get_signal]. *)
Definition sig_pred (sig_match : MatchRule) : predicate := λ msg _, Ok (matches sig_match msg).

Definition set_sig_matches (rd : RecvData) (l : list MatchRule) : RecvData :=
  MkRecvData (inbox rd) (reply_map rd) (hierarchy rd) l (chans rd) (oneshots rd) (seen rd).

Definition set_hierarchy (rd : RecvData) (h : CallHierarchy) : RecvData :=
  MkRecvData (inbox rd) (reply_map rd) h (sig_matches rd) (chans rd) (oneshots rd) (seen rd).

Section rpc.
Context `{BasicMarshal} (dbg : bool)
  (hash_iter : gmap bytes CallHierarchy → list (bytes * CallHierarchy)).

(** [call_pred] of [get_call]. *)
Definition call_pred (path : bytes) : predicate := λ msg h,
  match typ msg with
  | TCall =>
      obj ← unwrap (object (dynheader msg));
      msg_path ← unwrap (match from_str obj with Ok p => Some p | _ => None end);
      is_match dbg h path msg_path
  | _ => Ok false
  end.

(** The match of [queue_msg] on a message the predicate does not take: the state, or
    the reply to send. *)
Definition sort_msg (rd : RecvData) (msg : MarshalledMessage)
    : outcome MarshalledMessage RecvData :=
  match typ msg with
  | TSignal => c ← queue_sig (sig_matches rd) (chans rd) msg; mret (set_chans rd c)
  | TReply | TError =>
      idx ← unwrap (response_serial (dynheader msg));
      match reply_map rd !! idx with
      | Some sender =>
          mret (set_oneshots (set_reply_map rd (delete idx (reply_map rd)))
                  (<[sender := msg]> (oneshots rd)))
      | None => mret rd
      end
  | TCall => c ← send dbg hash_iter (hierarchy rd) (chans rd) msg; mret (set_chans rd c)
  | TInvalid => Panic
  end.

(** [queue_msg]: the message with whether it is a reply to send. *)
Fixpoint queue_msg (l : list (io_result MarshalledMessage)) (pred : predicate) (rd : RecvData)
    : io_result (MarshalledMessage * bool) * RecvData :=
  match l with
  | [] => (Err WouldBlock, set_inbox rd [])
  | Err e :: l' => (Err e, set_inbox rd l')
  | Panic :: l' => (Panic, set_inbox rd l')
  | Ok msg :: l' =>
      let rd := take_msg rd l' msg in
      match pred msg (hierarchy rd) with
      | Ok true => (Ok (msg, false), rd)
      | Ok false =>
          match sort_msg rd msg with
          | Ok rd => queue_msg l' pred rd
          | Err reply => (Ok (reply, true), rd)
          | Panic => (Panic, rd)
          end
      | Err e => (Err e, rd)
      | Panic => (Panic, rd)
      end
  end.

(** ** Futures

    [waiting]: the response futures not finished or dropped, by their channel, with
    their serial and how many messages had been taken when the call was made.
    [finished] and [failed]: what was returned, the latest first. *)
Record RpcConn := MkRpc {
  serial : N;
  next_channel : nat;
  recv_data : RecvData;
  waiting : gmap nat (N * nat);
  finished : list (N * nat * nat * MarshalledMessage);
  outgoing : list MarshalledMessage;
}.

Definition set_recv_data (s : RpcConn) (rd : RecvData) : RpcConn :=
  MkRpc (serial s) (next_channel s) rd (waiting s) (finished s) (outgoing s).

(** The drop of a [ResponseFuture], of channel [ch] and serial [idx]. *)
Definition drop_future (s : RpcConn) (ch : nat) (idx : N) : RpcConn :=
  let rd := recv_data s in
  MkRpc (serial s) (next_channel s) (set_reply_map rd (delete idx (reply_map rd)))
    (delete ch (waiting s)) (finished s) (outgoing s).

(** [send_msg_w_rsp] up to the response future; when sending fails there is none, and
    the sender stays in the map. *)
Definition send_msg_w_rsp (s : RpcConn) (msg : MarshalledMessage) (sent : bool)
    : option RpcConn :=
  if expects_reply msg then
    '(idx, serial') ← allocate_idx (serial s);
    let ch := next_channel s in
    let rd := set_reply_map (recv_data s) (<[idx := ch]> (reply_map (recv_data s))) in
    mret (MkRpc serial' (S ch) rd
      (if sent then <[ch := (idx, length (seen rd))]> (waiting s) else waiting s)
      (finished s) (if sent then outgoing s ++ [msg] else outgoing s))
  else None.

(** [send_msg_wo_rsp]. *)
Definition send_msg_wo_rsp (s : RpcConn) (msg : MarshalledMessage) : option RpcConn :=
  if expects_reply msg then None else
  '(_, serial') ← allocate_idx (serial s);
  mret (MkRpc serial' (next_channel s) (recv_data s) (waiting s) (finished s) (outgoing s ++ [msg])).

(** What a future that runs [get_msg] does with a run of [queue_msg]: [Some] result
    when it is finished. *)
Definition get_msg_step (s : RpcConn) (pred : predicate)
    : option (option (io_result MarshalledMessage) * RpcConn) :=
  let '(r, rd) := queue_msg (inbox (recv_data s)) pred (recv_data s) in
  let s := set_recv_data s rd in
  match r with
  | Err WouldBlock => Some (None, s)
  | Err e => Some (Some (Err e), s)
  | Ok (msg, false) => Some (Some (Ok msg), s)
  | Ok (msg, true) => s ← send_msg_wo_rsp s msg; Some (None, s)
  | Panic => None
  end.

(** One poll of the response future of channel [ch], with its result when it is finished:
    first its channel, closed if the sender is gone, then the lock. *)
Definition poll_future (s : RpcConn) (ch : nat)
    : option (option (io_result MarshalledMessage) * RpcConn) :=
  '(idx, birth) ← waiting s !! ch;
  let finish msg s :=
    let s := drop_future s ch idx in
    MkRpc (serial s) (next_channel s) (recv_data s) (waiting s)
      ((idx, birth, length (seen (recv_data s)), msg) :: finished s) (outgoing s) in
  match oneshots (recv_data s) !! ch with
  | Some msg => Some (Some (Ok msg), finish msg s)
  | None =>
      if decide (reply_map (recv_data s) !! idx = Some ch) then
        '(r, s) ← get_msg_step s (res_pred idx);
        match r with
        | None => Some (None, s)
        | Some (Ok msg) => Some (r, finish msg s)
        | Some _ => Some (r, drop_future s ch idx)
        end
      else None
  end.

Definition poll_response (s : RpcConn) (ch : nat) : option RpcConn := snd <$> poll_future s ch.

(** The [recv()] of a queue: its oldest message, [None] while there is none. *)
Definition take_queued (rd : RecvData) (q : queue) : option (MarshalledMessage * RecvData) :=
  match chans rd !! q with
  | Some (msg :: l) => Some (msg, set_chans rd (<[q := l]> (chans rd)))
  | _ => None
  end.

(** The executions: [None] is a panic. *)
Inductive action :=
| ACall (msg : MarshalledMessage) (sent : bool)
| ASend (msg : MarshalledMessage)
| AArrive (r : io_result MarshalledMessage)
| APoll (ch : nat)
| ADrop (ch : nat)
| ATake (q : queue)
| AGetSignal (sig_match : MatchRule)
| AGetCall (path : bytes)
| AInsertRule (sig_match : MatchRule) (q : queue)
| ARemoveRule (sig_match : MatchRule)
| ARollbackRule (sig_match : MatchRule)
| AInsertCallPath (path : bytes) (action : CallAction) (q : queue).

(** A call that edits the state under the lock, or returns an error. *)
Definition edit_with {A} (s : RpcConn) (m : io_result A) (set : RecvData → A → RecvData)
    : option RpcConn :=
  match m with
  | Ok a => Some (set_recv_data s (set (recv_data s) a))
  | Err _ => Some s
  | Panic => None
  end.

Definition step (s : RpcConn) (a : action) : option RpcConn :=
  match a with
  | ACall msg sent => send_msg_w_rsp s msg sent
  | ASend msg => send_msg_wo_rsp s msg
  | AArrive r =>
      let rd := recv_data s in Some (set_recv_data s (set_inbox rd (inbox rd ++ [r])))
  | APoll ch => poll_response s ch
  | ADrop ch => '(idx, _) ← waiting s !! ch; Some (drop_future s ch idx)
  | ATake q =>
      Some (match take_queued (recv_data s) q with
            | Some (_, rd) => set_recv_data s rd
            | None => s
            end)
  | AGetSignal sig_match => snd <$> get_msg_step s (sig_pred sig_match)
  | AGetCall path => snd <$> get_msg_step s (call_pred path)
  | AInsertRule sig_match q =>
      edit_with s (insert_rule (sig_matches (recv_data s)) sig_match q) set_sig_matches
  | ARemoveRule sig_match =>
      edit_with s (remove_rule (sig_matches (recv_data s)) sig_match) set_sig_matches
  | ARollbackRule sig_match =>
      edit_with s (rollback_rule (sig_matches (recv_data s)) sig_match) set_sig_matches
  | AInsertCallPath path action q =>
      edit_with s (insert_path dbg (hierarchy (recv_data s)) path action q) set_hierarchy
  end.

Fixpoint run (s : RpcConn) (l : list action) : option RpcConn :=
  match l with
  | [] => Some s
  | a :: l' => s' ← step s a; run s' l'
  end.
End rpc.

(** ** Serials are not zero, and not reused within a cycle *)

(** The next serial the counter gives. *)
Definition next_idx (serial : N) : N := if decide (serial = 0%N) then 1%N else serial.

Lemma allocate_idx_spec n :
  (n < u32_mod)%N →
  allocate_idx n = Some (next_idx n, wrap32 (next_idx n + 1)) ∧ (0 < next_idx n < u32_mod)%N.
Proof.
  intros Hn. destruct (decide (n = 0%N)) as [->|Hne]; [by vm_compute|].
  unfold allocate_idx, next_idx. cbn [allocate_loop]. rewrite decide_True by done.
  destruct (decide (n = 0%N)); [done|]. split; [done|lia].
Qed.

(** The serials of [k] allocations, and the counter after them. *)
Fixpoint allocate_many (k : nat) (serial : N) : option (list N * N) :=
  match k with
  | O => Some ([], serial)
  | S k' =>
      '(idx, serial) ← allocate_idx serial;
      '(l, serial) ← allocate_many k' serial; Some (idx :: l, serial)
  end.

Lemma cycle_inj (b i j : N) :
  (i < u32_mod - 1)%N → (j < u32_mod - 1)%N →
  ((b + i) mod (u32_mod - 1) = (b + j) mod (u32_mod - 1))%N → i = j.
Proof.
  unfold u32_mod. intros Hi Hj Hm.
  pose proof (N.div_mod (b + i) (4294967296 - 1) ltac:(done)).
  pose proof (N.div_mod (b + j) (4294967296 - 1) ltac:(done)). lia.
Qed.

(** The cycle of non-zero values. *)
Definition cycle_at (n : N) (k : nat) : N := ((next_idx n - 1 + N.of_nat k) mod (u32_mod - 1) + 1)%N.

Lemma next_idx_succ n : (n < u32_mod)%N →
  next_idx (wrap32 (next_idx n + 1)) = (next_idx n mod (u32_mod - 1) + 1)%N.
Proof.
  intros Hn. pose proof (allocate_idx_spec n Hn) as [_ Hr]. set (v := next_idx n) in *.
  unfold next_idx, wrap32, u32_mod in *. destruct (decide (v = 4294967295)%N) as [->|Hv]; [done|].
  rewrite (N.mod_small (v + 1)), (N.mod_small v) by lia. rewrite decide_False by lia. done.
Qed.

Lemma allocate_many_spec k n :
  (n < u32_mod)%N →
  ∃ l n', allocate_many k n = Some (l, n') ∧ (n' < u32_mod)%N ∧ length l = k ∧
    ∀ i, i < k → l !! i = Some (cycle_at n i).
Proof.
  revert n. induction k as [|k IH]; intros n Hn; cbn [allocate_many].
  { eexists _, _. split_and!; [done..|]. intros i Hi. lia. }
  destruct (allocate_idx_spec n Hn) as [-> Hr]. cbn [mbind option_bind].
  destruct (IH (wrap32 (next_idx n + 1)) (wrap32_lt _)) as (l & n' & -> & Hn' & Hl & Hi).
  cbn [mbind option_bind]. eexists _, _. split_and!; [done|done|cbn; lia|].
  intros [|i] Hik.
  - change (Some (next_idx n) = Some (cycle_at n 0)). unfold cycle_at. rewrite N.add_0_r, N.mod_small by (unfold u32_mod in *; lia). f_equal. lia.
  - change (l !! i = Some (cycle_at n (S i))). rewrite Hi by lia. f_equal.
    unfold cycle_at. rewrite next_idx_succ by done. f_equal.
    rewrite N.add_sub, N.Div0.add_mod_idemp_l. f_equal. lia.
Qed.

(** serials are never zero and not reused too soon.  From any value of the counter,
    [k] allocations all succeed, give non-zero 32-bit serials, and when [k] is less than
    2^32 the serials are different from each other: the loop around [fetch_add] ends, and
    a serial comes back only after all the others. *)
Theorem allocate_many_distinct k n :
  (n < u32_mod)%N → (N.of_nat k < u32_mod)%N →
  ∃ l n', allocate_many k n = Some (l, n') ∧ (n' < u32_mod)%N ∧ length l = k ∧
    Forall (λ idx, 0 < idx < u32_mod)%N l ∧ NoDup l.
Proof.
  intros Hn Hk. destruct (allocate_many_spec k n Hn) as (l & n' & -> & Hn' & Hl & Hi).
  exists l, n'. split_and!; [done..| |].
  - apply Forall_lookup. intros i x Hx. pose proof (lookup_lt_Some _ _ _ Hx).
    rewrite Hi in Hx by lia. injection Hx as <-. cbv beta. unfold cycle_at.
    pose proof (N.mod_lt (next_idx n - 1 + N.of_nat i) (u32_mod - 1) ltac:(done)).
    unfold u32_mod in *. set (r := (_ `mod` (_ - 1))%N) in *. lia.
  - apply NoDup_alt. intros i j x Hx Hy.
    pose proof (lookup_lt_Some _ _ _ Hx); pose proof (lookup_lt_Some _ _ _ Hy).
    rewrite Hi in Hx, Hy by lia. injection Hx as <-. injection Hy as Heq.
    unfold cycle_at in Heq. set (b := (next_idx n - 1)%N) in *.
    assert ((b + N.of_nat j) mod (u32_mod - 1) = (b + N.of_nat i) mod (u32_mod - 1))%N as Hm by lia.
    apply cycle_inj in Hm; unfold u32_mod in *; lia.
Qed.

(** ** Replies reach their calls *)

Definition is_answer (idx : N) (msg : MarshalledMessage) : Prop :=
  (typ msg = TReply ∨ typ msg = TError) ∧ response_serial (dynheader msg) = Some idx.

#[export] Instance is_answer_dec idx msg : Decision (is_answer idx msg).
Proof. unfold is_answer. apply _. Defined.

(** The first answer to a call among the messages taken since it was made. *)
Fixpoint first_answer (idx : N) (l : list MarshalledMessage) : option MarshalledMessage :=
  match l with
  | [] => None
  | msg :: l' => if decide (is_answer idx msg) then Some msg else first_answer idx l'
  end.

Lemma first_answer_snoc idx l msg :
  first_answer idx (l ++ [msg]) =
    match first_answer idx l with
    | Some m => Some m
    | None => if decide (is_answer idx msg) then Some msg else None
    end.
Proof. induction l as [|m l IH]; cbn; [done|]. by destruct (decide (is_answer idx m)). Qed.

Lemma first_answer_is idx l msg : first_answer idx l = Some msg → is_answer idx msg.
Proof.
  induction l as [|m l IH]; cbn; [done|]. destruct (decide (is_answer idx m)); [|done].
  by intros [= <-].
Qed.

(** The state of the calls that wait. *)
Record calls_ok (rd : RecvData) (waiting : gmap nat (N * nat)) (next : nat) : Prop := {
  call_state ch idx birth : waiting !! ch = Some (idx, birth) →
    birth ≤ length (seen rd) ∧
    oneshots rd !! ch = first_answer idx (drop birth (seen rd)) ∧
    (oneshots rd !! ch = None ↔ reply_map rd !! idx = Some ch);
  call_unique ch1 ch2 idx b1 b2 :
    waiting !! ch1 = Some (idx, b1) → waiting !! ch2 = Some (idx, b2) → ch1 = ch2;
  call_sender idx idx' ch b :
    reply_map rd !! idx = Some ch → waiting !! ch = Some (idx', b) → idx = idx';
  call_bound ch : is_Some (waiting !! ch) ∨ is_Some (oneshots rd !! ch) → ch < next;
  sender_bound idx ch : reply_map rd !! idx = Some ch → ch < next;
}.

(** A message that answers no waiting call changes nothing for them. *)
Lemma calls_ok_skip rd waiting next l msg :
  calls_ok rd waiting next →
  (∀ ch idx b, waiting !! ch = Some (idx, b) → oneshots rd !! ch = None → ¬ is_answer idx msg) →
  calls_ok (take_msg rd l msg) waiting next.
Proof.
  intros Hok Hno. split; cbn; [|apply Hok..].
  intros ch idx b Hw. destruct (call_state _ _ _ Hok ch idx b Hw) as (Hb & Hf & Hm).
  rewrite length_app, drop_app_le, first_answer_snoc, <- Hf by done.
  split_and!; [lia| |done]. destruct (oneshots rd !! ch) eqn:Ho; [done|].
  rewrite decide_False; [done|]. by eapply Hno.
Qed.

(** An answer sent to the channel of its serial. *)
Lemma calls_ok_answer rd waiting next l msg idx ch :
  calls_ok rd waiting next → is_answer idx msg → reply_map rd !! idx = Some ch →
  calls_ok
    (set_oneshots (set_reply_map (take_msg rd l msg) (delete idx (reply_map rd)))
       (<[ch := msg]> (oneshots rd))) waiting next.
Proof.
  intros Hok Ha Hs. split; cbn.
  - intros ch' idx' b Hw. destruct (call_state _ _ _ Hok ch' idx' b Hw) as (Hb & Hf & Hm).
    rewrite length_app, drop_app_le, first_answer_snoc, <- Hf by done. split; [lia|].
    destruct (decide (ch' = ch)) as [->|Hne].
    + pose proof (call_sender _ _ _ Hok _ _ _ _ Hs Hw) as <-.
      rewrite lookup_insert_eq, lookup_delete_eq. apply Hm in Hs as ->.
      by rewrite decide_True.
    + rewrite lookup_insert_ne by done. destruct (decide (idx' = idx)) as [->|Hni].
      * destruct (oneshots rd !! ch') as [m|] eqn:Ho; [|destruct Hm as [Hm _]; rewrite Hm in Hs by done; congruence].
        by rewrite lookup_delete_eq.
      * rewrite lookup_delete_ne by done. split; [|done].
        destruct (oneshots rd !! ch'); [done|]. rewrite decide_False; [done|].
        intros [_ Hr]. destruct Ha as [_ Hr']. congruence.
  - apply Hok.
  - intros i i' c b [_ Hi]%lookup_delete_Some Hw. by eapply call_sender.
  - intros c [Hc|Hc]; [apply (call_bound _ _ _ Hok); by left|].
    destruct (decide (c = ch)) as [->|Hne]; [by eapply sender_bound|].
    rewrite lookup_insert_ne in Hc by done. apply (call_bound _ _ _ Hok). by right.
  - intros i c [_ Hi]%lookup_delete_Some. by eapply sender_bound.
Qed.

Lemma calls_ok_same rd rd' waiting next :
  calls_ok rd waiting next → reply_map rd' = reply_map rd → oneshots rd' = oneshots rd →
  seen rd' = seen rd → calls_ok rd' waiting next.
Proof. intros Hok Hr Ho Hs. split; rewrite ?Hr, ?Ho, ?Hs; apply Hok. Qed.

Section calls.
Context `{BasicMarshal} (dbg : bool)
  (hash_iter : gmap bytes CallHierarchy → list (bytes * CallHierarchy)).

Lemma sort_msg_reply_ok rd waiting next l msg rd' :
  calls_ok rd waiting next → typ msg = TReply ∨ typ msg = TError →
  (idx ← unwrap (response_serial (dynheader msg));
   match reply_map rd !! idx with
   | Some sender =>
       mret (set_oneshots (set_reply_map (take_msg rd l msg) (delete idx (reply_map rd)))
               (<[sender := msg]> (oneshots rd)))
   | None => mret (take_msg rd l msg)
   end) = Ok (E:=MarshalledMessage) rd' →
  calls_ok rd' waiting next.
Proof.
  intros Hok Ht. destruct (response_serial (dynheader msg)) as [idx|] eqn:Hs; [|done].
  cbn [unwrap mbind outcome_bind].
  destruct (reply_map rd !! idx) as [ch|] eqn:Hm; intros [= <-].
  - by apply calls_ok_answer.
  - apply calls_ok_skip; [done|]. intros ch idx' b Hw Ho [_ Hs'].
    assert (idx' = idx) as -> by congruence.
    apply (call_state _ _ _ Hok ch idx b Hw) in Ho. congruence.
Qed.

Lemma sort_msg_ok rd waiting next l msg rd' :
  calls_ok rd waiting next → sort_msg dbg hash_iter (take_msg rd l msg) msg = Ok rd' →
  calls_ok rd' waiting next.
Proof.
  intros Hok. unfold sort_msg. destruct (typ msg) eqn:Ht; [done| | | |].
  2, 3: apply (sort_msg_reply_ok rd waiting next l); auto.
  all: assert (calls_ok (take_msg rd l msg) waiting next) as Hok'
    by (apply calls_ok_skip; [done|]; intros ? ? ? _ _ [[?|?] _]; congruence).
  - destruct (send _ _ _ _ _); cbn; [|done..]. intros [= <-]. by eapply calls_ok_same.
  - destruct (queue_sig _ _ _); cbn; [|done..]. intros [= <-]. by eapply calls_ok_same.
Qed.

Lemma sort_msg_err rd msg r idx :
  sort_msg dbg hash_iter rd msg = Err r → ¬ is_answer idx msg.
Proof.
  unfold sort_msg. intros Hs [Ht _]. destruct Ht as [Ht|Ht]; rewrite Ht in Hs;
    (destruct (response_serial _) as [i|]; cbn in Hs; [|done]; by destruct (reply_map rd !! i)).
Qed.

(** A message for others leaves a sender in the map. *)
Lemma sort_msg_keeps rd msg rd' idx ch :
  sort_msg dbg hash_iter rd msg = Ok rd' → ¬ is_answer idx msg →
  reply_map rd !! idx = Some ch → reply_map rd' !! idx = Some ch.
Proof.
  unfold sort_msg, is_answer. intros Hs Hno Hm. destruct (typ msg) eqn:Ht; [done| | | |].
  2, 3: destruct (response_serial (dynheader msg)) as [i|] eqn:Hi; cbn in Hs; [|done];
    destruct (reply_map rd !! i) eqn:Hr; injection Hs as <-; [|done]; cbn;
    rewrite lookup_delete_ne; [done|]; intros ->; apply Hno; auto.
  - destruct (send _ _ _ _ _); cbn in Hs; [|done..]. by injection Hs as <-.
  - destruct (queue_sig _ _ _); cbn in Hs; [|done..]. by injection Hs as <-.
Qed.

Lemma sort_msg_seen rd msg rd' : sort_msg dbg hash_iter rd msg = Ok rd' → seen rd' = seen rd.
Proof.
  unfold sort_msg. destruct (typ msg); [done| | | |].
  2, 3: destruct (response_serial (dynheader msg)) as [i|]; cbn; [|done];
    destruct (reply_map rd !! i); by intros [= <-].
  - destruct (send _ _ _ _ _); cbn; [|done..]. by intros [= <-].
  - destruct (queue_sig _ _ _); cbn; [|done..]. by intros [= <-].
Qed.

(** A predicate that fails on calls only. *)
Definition polite (pred : predicate) : Prop :=
  ∀ msg h e idx, pred msg h = Err e → ¬ is_answer idx msg.

(** A run of [queue_msg] keeps the calls in order, up to a message it hands out. *)
Lemma queue_msg_ok l pred rd waiting next r rd' :
  calls_ok rd waiting next → polite pred → queue_msg dbg hash_iter l pred rd = (r, rd') →
  seen rd `prefix_of` seen rd' ∧
  match r with
  | Ok (msg, false) => ∃ rd1 l', calls_ok rd1 waiting next ∧ rd' = take_msg rd1 l' msg ∧
      seen rd `prefix_of` seen rd1 ∧ pred msg (hierarchy rd1) = Ok true ∧
      ∀ idx ch, (∀ m h, pred m h = Ok false → ¬ is_answer idx m) →
        reply_map rd !! idx = Some ch → reply_map rd1 !! idx = Some ch
  | Ok (_, true) | Err _ => calls_ok rd' waiting next
  | Panic => True
  end.
Proof.
  intros Hok Hpol. revert rd Hok. induction l as [|[msg|e|] l IH]; intros rd Hok; cbn [queue_msg].
  - intros [= <- <-]. split; [done|]. by eapply calls_ok_same.
  - destruct (pred msg _) as [[|]|e|] eqn:Hp; cbn [take_msg hierarchy] in Hp.
    + intros [= <- <-]. split; [by eexists|]. exists rd, l. by split_and!.
    + destruct (sort_msg _ _ _ msg) as [rd1|reply|] eqn:Hs.
      * intros Hq. pose proof (sort_msg_ok _ _ _ _ _ _ Hok Hs) as Hok1.
        pose proof (sort_msg_seen _ _ _ Hs) as Hseen. cbn in Hseen.
        destruct (IH rd1 Hok1 Hq) as [Hpre Hr].
        assert (seen rd `prefix_of` seen rd1) as Hpre1 by (rewrite Hseen; by eexists).
        split; [by etrans|]. destruct r as [[m [|]]|e|]; [done| |done|done].
        destruct Hr as (rd2 & l' & Hok2 & -> & Hpre2 & Hp2 & Hk).
        exists rd2, l'. split_and!; [done|done|by etrans|done|].
        intros idx ch Hno Hm. apply Hk; [done|]. eapply sort_msg_keeps; eauto.
      * intros [= <- <-]. split; [by eexists|]. apply calls_ok_skip; [done|].
        intros. by eapply sort_msg_err.
      * intros [= <- <-]. split; [by eexists|done].
    + intros [= <- <-]. split; [by eexists|]. apply calls_ok_skip; [done|]. intros. by eapply Hpol.
    + intros [= <- <-]. split; [by eexists|done].
  - intros [= <- <-]. split; [done|]. by eapply calls_ok_same.
  - intros [= <- <-]. by split.
Qed.

Lemma res_pred_polite idx : polite (res_pred idx).
Proof.
  intros msg h e i. unfold res_pred. destruct (typ msg); try done;
    by destruct (response_serial _).
Qed.

Lemma res_pred_true idx msg h : res_pred idx msg h = Ok true → is_answer idx msg.
Proof.
  unfold res_pred, is_answer. destruct (typ msg); try done;
    destruct (response_serial _); try done; cbn; intros [= Hb]; apply bool_decide_eq_true in Hb;
    subst; auto.
Qed.

Lemma res_pred_false idx msg h : res_pred idx msg h = Ok false → ¬ is_answer idx msg.
Proof.
  unfold res_pred, is_answer. intros Hp [[Ht|Ht] Hr]; rewrite Ht, Hr in Hp; cbn in Hp;
    by rewrite bool_decide_eq_true_2 in Hp.
Qed.

Lemma sig_pred_spec r : polite (sig_pred r) ∧ ∀ msg h idx, sig_pred r msg h = Ok true → ¬ is_answer idx msg.
Proof.
  split; [done|]. intros msg h idx [= Hm] [Ht _]. unfold matches in Hm.
  rewrite bool_decide_eq_false_2 in Hm by (destruct Ht; congruence). done.
Qed.

Lemma call_pred_spec path :
  polite (call_pred dbg path) ∧ ∀ msg h idx, call_pred dbg path msg h = Ok true → ¬ is_answer idx msg.
Proof.
  assert (∀ msg h idx, is_answer idx msg → call_pred dbg path msg h = Ok false) as Hf
    by (unfold call_pred; by intros msg h idx [[-> | ->] _]).
  split.
  - intros msg h e idx Hp Ha. by rewrite (Hf _ h _ Ha) in Hp.
  - intros msg h idx Hp Ha. by rewrite (Hf _ h _ Ha) in Hp.
Qed.

(** ** Executions *)

Definition rpc_new : RpcConn :=
  MkRpc 1 0 (MkRecvData [] ∅ hierarchy_new [] ∅ ∅ []) ∅ [] [].

(** A finished call got the first answer taken since it was made. *)
Definition finished_ok (seen : list MarshalledMessage) (f : N * nat * nat * MarshalledMessage)
    : Prop :=
  let '(idx, birth, upto, msg) := f in
  upto ≤ length seen ∧ first_answer idx (drop birth (take upto seen)) = Some msg.

(** After [n] serials. *)
Record conn_ok (n : nat) (s : RpcConn) : Prop := {
  ok_counter : (serial s < u32_mod)%N ∧ next_idx (serial s) = cycle_at 1 n;
  ok_serials ch idx b : waiting s !! ch = Some (idx, b) → ∃ i, i < n ∧ idx = cycle_at 1 i;
  ok_calls : calls_ok (recv_data s) (waiting s) (next_channel s);
  ok_finished : Forall (finished_ok (seen (recv_data s))) (finished s);
}.

Lemma finished_ok_mono l l' f : l `prefix_of` l' → finished_ok l f → finished_ok l' f.
Proof.
  destruct f as [[[idx birth] upto] msg]. intros [k ->] [Hu Hf].
  split; [rewrite length_app; lia|]. by rewrite take_app_le.
Qed.

Lemma cycle_step n k : (n < u32_mod)%N → next_idx n = cycle_at 1 k →
  next_idx (wrap32 (next_idx n + 1)) = cycle_at 1 (S k).
Proof.
  intros Hn Hk. rewrite next_idx_succ, Hk by done. unfold cycle_at. f_equal.
  rewrite N.Div0.add_mod_idemp_l. f_equal. lia.
Qed.

(** The counter has not come round: the next serial is new. *)
Lemma conn_ok_fresh n s ch idx b :
  conn_ok n s → (N.of_nat n < u32_mod - 1)%N → waiting s !! ch = Some (idx, b) →
  idx ≠ next_idx (serial s).
Proof.
  intros Hok Hn Hw. destruct (ok_serials _ _ Hok _ _ _ Hw) as (i & Hi & ->).
  destruct (ok_counter _ _ Hok) as [_ ->]. unfold cycle_at. intros Heq.
  assert (N.of_nat i = N.of_nat n); [|lia].
  apply (cycle_inj (next_idx 1 - 1)); [unfold u32_mod in *; lia|done|lia].
Qed.

(** Steps that only change the receive data. *)
Lemma conn_ok_recv n s rd :
  conn_ok n s → calls_ok rd (waiting s) (next_channel s) →
  seen (recv_data s) `prefix_of` seen rd → conn_ok n (set_recv_data s rd).
Proof.
  intros Hok Hc Hp. split; [apply Hok|apply Hok|done|].
  eapply Forall_impl; [apply Hok|]. intros f. by apply finished_ok_mono.
Qed.

Lemma calls_ok_drop rd waiting next ch idx b :
  calls_ok rd waiting next → waiting !! ch = Some (idx, b) →
  calls_ok (set_reply_map rd (delete idx (reply_map rd))) (delete ch waiting) next.
Proof.
  intros Hok Hw. split; cbn.
  - intros ch' idx' b' [Hne Hw']%lookup_delete_Some.
    rewrite lookup_delete_ne; [by apply Hok|]. intros ->. apply Hne.
    by eapply call_unique.
  - intros c1 c2 i b1 b2 [_ H1]%lookup_delete_Some [_ H2]%lookup_delete_Some.
    by eapply call_unique.
  - intros i i' c b' [_ H1]%lookup_delete_Some [_ H2]%lookup_delete_Some. by eapply call_sender.
  - intros c [[x Hc]|Hc]; apply (call_bound _ _ _ Hok); [left|by right].
    apply lookup_delete_Some in Hc as [_ Hc]. by exists x.
  - intros i c [_ Hi]%lookup_delete_Some. by eapply sender_bound.
Qed.

Lemma conn_ok_drop n s ch idx b :
  conn_ok n s → waiting s !! ch = Some (idx, b) → conn_ok n (drop_future s ch idx).
Proof.
  intros Hok Hw. split; [apply Hok| |by eapply calls_ok_drop; [apply Hok|]|apply Hok].
  cbn. intros c i b' [_ Hc]%lookup_delete_Some. by eapply ok_serials.
Qed.

Lemma calls_ok_insert rd waiting next idx (sent : bool) :
  calls_ok rd waiting next → (∀ ch idx' b, waiting !! ch = Some (idx', b) → idx' ≠ idx) →
  calls_ok (set_reply_map rd (<[idx := next]> (reply_map rd)))
    (if sent then <[next := (idx, length (seen rd))]> waiting else waiting) (S next).
Proof.
  intros Hok Hfresh.
  assert (waiting !! next = None) as Hw.
  { destruct (waiting !! next) eqn:Hw; [|done].
    pose proof (call_bound _ _ _ Hok next ltac:(left; by eexists)). lia. }
  assert (oneshots rd !! next = None) as Ho.
  { destruct (oneshots rd !! next) eqn:Ho; [|done].
    pose proof (call_bound _ _ _ Hok next ltac:(right; by eexists)). lia. }
  assert (∀ ch i b, (if sent then <[next := (idx, length (seen rd))]> waiting else waiting) !! ch
    = Some (i, b) → (ch = next ∧ i = idx ∧ b = length (seen rd)) ∨ (ch ≠ next ∧ waiting !! ch = Some (i, b)))
    as Hcase.
  { intros ch i b. destruct sent.
    - intros [[<- [= <- <-]]|[? ?]]%lookup_insert_Some; [by left|by right].
    - intros Hc. right. split; [congruence|done]. }
  split; cbn.
  - intros ch i b [(-> & -> & ->)|[Hne Hc]]%Hcase.
    + rewrite lookup_insert_eq, drop_all, Ho. by split_and!.
    + destruct (call_state _ _ _ Hok _ _ _ Hc) as (Hb & Hf & Hm). split_and!; [done..|].
      rewrite lookup_insert_ne; [done|]. intros ->. by eapply Hfresh.
  - intros c1 c2 i b1 b2 H1%Hcase H2%Hcase.
    destruct H1 as [(-> & Hi1 & _)|[_ H1]], H2 as [(-> & Hi2 & _)|[_ H2]];
      [done|by destruct (Hfresh _ _ _ H2)|by destruct (Hfresh _ _ _ H1)|by eapply call_unique].
  - intros i i' c b Hi Hc%Hcase. apply lookup_insert_Some in Hi as [[Hi1 Hi2]|[Hni Hi]];
      destruct Hc as [(Hcn & Hci & _)|[Hne Hc]]; try congruence.
    + pose proof (sender_bound _ _ _ Hok _ _ Hi). lia.
    + by eapply call_sender.
  - intros c [[[i b] Hc]|Hc]; [apply Hcase in Hc as [(-> & _)|[_ Hc]]; [lia|]|].
    + pose proof (call_bound _ _ _ Hok c ltac:(left; by eexists)). lia.
    + pose proof (call_bound _ _ _ Hok c ltac:(by right)). lia.
  - intros i c [[_ <-]|[_ Hi]]%lookup_insert_Some; [lia|].
    pose proof (sender_bound _ _ _ Hok _ _ Hi). lia.
Qed.

Lemma send_msg_wo_rsp_ok n s msg s' :
  conn_ok n s → send_msg_wo_rsp s msg = Some s' → conn_ok (S n) s' ∧
    recv_data s' = recv_data s ∧ waiting s' = waiting s.
Proof.
  intros Hok. unfold send_msg_wo_rsp. destruct (expects_reply msg); [done|].
  destruct (ok_counter _ _ Hok) as [Hn Hc]. destruct (allocate_idx_spec _ Hn) as [-> _].
  cbn. intros [= <-]. split; [|done]. split; [|intros ch idx b Hw|apply Hok|apply Hok].
  - split; [apply wrap32_lt|by apply cycle_step].
  - destruct (ok_serials _ _ Hok _ _ _ Hw) as (i & Hi & ->). exists i. split; [lia|done].
Qed.


(** What a future sees of a run of [queue_msg]. *)
Lemma get_msg_step_ok n s pred r s' :
  conn_ok n s → polite pred → get_msg_step dbg hash_iter s pred = Some (r, s') →
  match r with
  | Some (Ok msg) => ∃ rd1 l, s' = set_recv_data s (take_msg rd1 l msg) ∧
      calls_ok rd1 (waiting s) (next_channel s) ∧ seen (recv_data s) `prefix_of` seen rd1 ∧
      pred msg (hierarchy rd1) = Ok true ∧
      ∀ idx ch, (∀ m h, pred m h = Ok false → ¬ is_answer idx m) →
        reply_map (recv_data s) !! idx = Some ch → reply_map rd1 !! idx = Some ch
  | _ => ∃ m, n ≤ m ≤ S n ∧ conn_ok m s' ∧ waiting s' = waiting s
  end.
Proof.
  intros Hok Hpol. unfold get_msg_step.
  destruct (queue_msg _ _ _ _ _) as [q rd] eqn:Hq.
  apply (queue_msg_ok _ _ _ (waiting s) (next_channel s)) in Hq as [Hpre Hr]; [|apply Hok|done].
  assert (calls_ok rd (waiting s) (next_channel s) → conn_ok n (set_recv_data s rd)) as Hset
    by (intros; by apply conn_ok_recv).
  destruct q as [[msg [|]]|e|]; [| | |done].
  - destruct (send_msg_wo_rsp _ msg) as [s1|] eqn:Hs; cbn; [|done]. intros [= <- <-].
    destruct (send_msg_wo_rsp_ok n _ _ _ (Hset Hr) Hs) as (Hok1 & _ & Hw).
    exists (S n). split_and!; [lia|lia|done|done].
  - intros [= <- <-]. destruct Hr as (rd1 & l & Hc & -> & Hp1 & Hp & Hk). by exists rd1, l.
  - destruct e; intros [= <- <-]; exists n; (split; [lia|]); (split; [by apply Hset|done]).
Qed.

(** It finishes no call, and a panic is no result. *)
Lemma get_msg_step_kept s pred r s' :
  get_msg_step dbg hash_iter s pred = Some (r, s') →
  finished s' = finished s ∧ r ≠ Some Panic.
Proof.
  unfold get_msg_step. destruct (queue_msg _ _ _ _ _) as [[[msg [|]]|e|] rd].
  - unfold send_msg_wo_rsp. destruct (expects_reply msg); [done|].
    destruct (allocate_idx (serial (set_recv_data s rd))) as [[? ?]|]; cbn; [|done]. by intros [= <- <-].
  - by intros [= <- <-].
  - by destruct e; intros [= <- <-].
  - done.
Qed.

(** A future that takes the message it waited for. *)
Lemma finish_ok n s rd1 l msg ch idx birth :
  conn_ok n s → waiting s !! ch = Some (idx, birth) →
  calls_ok rd1 (waiting s) (next_channel s) → seen (recv_data s) `prefix_of` seen rd1 →
  reply_map rd1 !! idx = Some ch → is_answer idx msg →
  let s1 := drop_future (set_recv_data s (take_msg rd1 l msg)) ch idx in
  conn_ok n (MkRpc (serial s1) (next_channel s1) (recv_data s1) (waiting s1)
    ((idx, birth, length (seen (recv_data s1)), msg) :: finished s1) (outgoing s1)).
Proof.
  intros Hok Hw Hc Hpre Hm Ha. cbn.
  destruct (call_state _ _ _ Hc _ _ _ Hw) as (Hb & Hf & Hiff).
  apply Hiff in Hm. rewrite Hm in Hf.
  assert (calls_ok (set_reply_map (take_msg rd1 l msg) (delete idx (reply_map rd1)))
    (delete ch (waiting s)) (next_channel s)) as Hcalls.
  { pose proof (calls_ok_drop _ _ _ _ _ _ Hc Hw) as Hd.
    apply (calls_ok_skip _ _ _ l msg Hd). intros c i b' [Hne Hc']%lookup_delete_Some _ [_ Hi].
    destruct Ha as [_ Hi']. assert (i = idx) as -> by congruence.
    apply Hne. exact (call_unique _ _ _ Hc _ _ _ _ _ Hw Hc'). }
  split; cbn; [apply Hok| |done|].
  - intros c i b' [_ Hc']%lookup_delete_Some. by eapply ok_serials.
  - apply Forall_cons. split.
    + split; [done|]. rewrite firstn_all, drop_app_le, first_answer_snoc, <- Hf by done.
      by rewrite decide_True.
    + eapply Forall_impl; [apply Hok|]. intros f. apply finished_ok_mono.
      etrans; [exact Hpre|]. by eexists.
Qed.

(** The poll of a waiting future keeps the invariant, and a message it returns is the
    answer it waited for. *)
Lemma poll_future_ok n s ch r s' :
  conn_ok n s → poll_future dbg hash_iter s ch = Some (r, s') →
  ∃ m idx birth, m ≤ S n ∧ n ≤ m ∧ conn_ok m s' ∧ waiting s !! ch = Some (idx, birth) ∧
    match r with
    | Some (Ok msg) => is_answer idx msg ∧
        ∃ upto, finished s' = (idx, birth, upto, msg) :: finished s
    | Some Panic => False
    | Some (Err _) => finished s' = finished s
    | None => finished s' = finished s ∧ waiting s' = waiting s
    end.
Proof.
  intros Hok. unfold poll_future.
  destruct (waiting s !! ch) as [[idx birth]|] eqn:Hw; cbn; [|done].
  destruct (call_state _ _ _ (ok_calls _ _ Hok) _ _ _ Hw) as (Hb & Hf & Hiff).
  destruct (oneshots (recv_data s) !! ch) as [msg|] eqn:Ho.
  - intros [= <- <-]. exists n, idx, birth. split_and!; [lia|done| |done| |by eexists].
    + pose proof (conn_ok_drop _ _ _ _ _ Hok Hw) as Hd. split; cbn; [apply Hd|apply Hd|apply Hd|].
      apply Forall_cons. split; [|apply Hok]. split; [done|]. by rewrite firstn_all, <- Hf.
    + symmetry in Hf. by apply first_answer_is in Hf.
  - destruct (decide _) as [Hm|_]; [|done].
    destruct (get_msg_step _ _ _ _) as [[r1 s1]|] eqn:Hg; cbn; [|done].
    pose proof (get_msg_step_kept _ _ _ _ Hg) as [Hfin Hnp].
    apply (get_msg_step_ok n) in Hg; [|done|apply res_pred_polite].
    destruct r1 as [[msg|e|]|]; [| |done|].
    + intros [= <- <-]. destruct Hg as (rd1 & l & -> & Hc & Hpre & Hp & Hk). exists n, idx, birth.
      apply res_pred_true in Hp. split_and!; [lia|done| |done|done|by eexists].
      refine (finish_ok n s rd1 l msg ch idx birth Hok Hw Hc Hpre _ Hp).
      apply Hk; [|done]. intros m h. apply res_pred_false.
    + intros [= <- <-]. destruct Hg as (m & [? ?] & Hok1 & Hw1). exists m, idx, birth.
      split_and!; [lia|done| |done|done]. eapply conn_ok_drop; [done|]. by rewrite Hw1.
    + intros [= <- <-]. destruct Hg as (m & [? ?] & Hok1 & Hw1). by exists m, idx, birth.
Qed.

Lemma poll_response_ok n s ch s' :
  conn_ok n s → poll_response dbg hash_iter s ch = Some s' →
  ∃ m, m ≤ S n ∧ n ≤ m ∧ conn_ok m s'.
Proof.
  intros Hok. unfold poll_response. destruct (poll_future _ _ _ _) as [[r s1]|] eqn:Hp; [|done].
  intros [= <-]. apply (poll_future_ok n) in Hp as (m & ? & ? & ? & ? & ? & _); [|done]. by exists m.
Qed.

Lemma get_other_ok n s pred s' :
  conn_ok n s → polite pred ∧ (∀ msg h idx, pred msg h = Ok true → ¬ is_answer idx msg) →
  snd <$> get_msg_step dbg hash_iter s pred = Some s' → ∃ m, m ≤ S n ∧ n ≤ m ∧ conn_ok m s'.
Proof.
  intros Hok [Hpol Hno]. destruct (get_msg_step _ _ _ _) as [[r s1]|] eqn:Hg; [|done].
  intros [= <-]. apply (get_msg_step_ok n) in Hg; [|done..].
  assert ((∃ m, n ≤ m ≤ S n ∧ conn_ok m s1 ∧ waiting s1 = waiting s) →
    ∃ m, m ≤ S n ∧ n ≤ m ∧ conn_ok m s1) as Hm by (intros (m & [? ?] & ? & _); by exists m).
  destruct r as [[msg|e|]|]; try by apply Hm.
  destruct Hg as (rd1 & l & -> & Hc & Hpre & Hp & _). exists n. split_and!; [lia|done|].
  apply conn_ok_recv; [done| |etrans; [exact Hpre|]; by eexists].
  apply calls_ok_skip; [done|]. intros. by eapply Hno.
Qed.

Lemma edit_ok {A} n s (m : io_result A) set s' :
  conn_ok n s → (∀ rd a, reply_map (set rd a) = reply_map rd ∧ oneshots (set rd a) = oneshots rd ∧
    seen (set rd a) = seen rd) →
  edit_with s m set = Some s' → conn_ok n s'.
Proof.
  intros Hok Hset. destruct m as [a|e|]; cbn; [|by intros [= <-]|done].
  intros [= <-]. destruct (Hset (recv_data s) a) as (Hr & Ho & Hs).
  apply conn_ok_recv; [done| |by rewrite Hs]. eapply calls_ok_same; [apply Hok|done..].
Qed.

Lemma step_ok n s a s' :
  conn_ok n s → (N.of_nat n < u32_mod - 1)%N → step dbg hash_iter s a = Some s' →
  ∃ m, m ≤ S n ∧ conn_ok m s'.
Proof.
  intros Hok Hn.
  assert ((∃ m, m ≤ S n ∧ n ≤ m ∧ conn_ok m s') → ∃ m, m ≤ S n ∧ conn_ok m s') as Hweak
    by (intros (m & ? & _ & ?); by exists m).
  destruct a as [msg sent|msg|r|ch|ch|qu|r|path|r q|r|r|path act q]; cbn [step].
  - unfold send_msg_w_rsp. destruct (expects_reply msg); [|done].
    destruct (ok_counter _ _ Hok) as [Hs Hc]. destruct (allocate_idx_spec _ Hs) as [-> _].
    cbn. intros [= <-]. exists (S n). split; [done|]. split; cbn.
    + split; [apply wrap32_lt|by apply cycle_step].
    + assert (∀ ch idx b, waiting s !! ch = Some (idx, b) → ∃ i, i < S n ∧ idx = cycle_at 1 i)
        as Hold by (intros ch idx b Hw; destruct (ok_serials _ _ Hok _ _ _ Hw) as (i & Hi & ->);
          exists i; split; [lia|done]).
      intros ch idx b. destruct sent; [|apply Hold].
      intros [[_ [= <- <-]]|[_ Hw]]%lookup_insert_Some; [|by eapply Hold].
      exists n. split; [lia|done].
    + apply calls_ok_insert; [apply Hok|]. intros ch idx b Hw. exact (conn_ok_fresh n s ch idx b Hok Hn Hw).
    + apply Hok.
  - intros Hs. exists (S n). split; [done|]. by eapply send_msg_wo_rsp_ok.
  - intros [= <-]. exists n. split; [lia|]. apply conn_ok_recv; [done| |done].
    eapply calls_ok_same; [apply Hok|done..].
  - intros Hs. apply Hweak. by eapply poll_response_ok.
  - destruct (waiting s !! ch) as [[idx b]|] eqn:Hw; cbn; [|done]. intros [= <-].
    exists n. split; [lia|]. by eapply conn_ok_drop.
  - intros [= <-]. exists n. split; [lia|]. unfold take_queued.
    destruct (chans (recv_data s) !! qu) as [[|msg l]|]; [done| |done].
    apply conn_ok_recv; [done| |done]. eapply calls_ok_same; [apply Hok|done..].
  - intros Hs. apply Hweak. eapply get_other_ok; [done|apply sig_pred_spec|done].
  - intros Hs. apply Hweak. eapply get_other_ok; [done|apply call_pred_spec|done].
  - intros Hs. exists n. split; [lia|]. by refine (edit_ok n s _ _ _ Hok _ Hs).
  - intros Hs. exists n. split; [lia|]. by refine (edit_ok n s _ _ _ Hok _ Hs).
  - intros Hs. exists n. split; [lia|]. by refine (edit_ok n s _ _ _ Hok _ Hs).
  - intros Hs. exists n. split; [lia|]. by refine (edit_ok n s _ _ _ Hok _ Hs).
Qed.

Lemma run_ok n s l s' :
  conn_ok n s → (N.of_nat (n + length l) < u32_mod)%N → run dbg hash_iter s l = Some s' →
  ∃ m, m ≤ n + length l ∧ conn_ok m s'.
Proof.
  revert n s. induction l as [|a l IH]; intros n s Hok Hn; cbn [run].
  - intros [= <-]. exists n. split; [lia|done].
  - cbn [length] in Hn. destruct (step _ _ s a) as [s1|] eqn:Hs; [|done].
    cbn [mbind option_bind]. intros Hr.
    apply (step_ok n) in Hs as (m & Hm & Hok1); [|done|unfold u32_mod in *; lia].
    apply (IH m) in Hr as (m' & Hm' & Hok'); [|done|lia]. exists m'. cbn [length]. split; [lia|done].
Qed.

Lemma rpc_new_ok : conn_ok 0 rpc_new.
Proof.
  split; [by vm_compute|done| |constructor]. split; cbn; try done.
  intros ch [[? ?]|[? ?]]; done.
Qed.

(** C6: replies are correlated with calls.  In every execution of fewer than 2^32 steps
    that does not panic, in whatever order calls are made, messages arrive, futures are
    polled and dropped, and rules and paths are edited: a response future that returned
    a message returned the first answer to its serial among the messages taken since its
    call; a waiting one has that answer in its channel, and as long as there is none its
    sender is in the map, so that its channel never closes on it; and no two waiting
    futures share a serial. *)
Theorem responses_correlated l s :
  (N.of_nat (length l) < u32_mod)%N → run dbg hash_iter rpc_new l = Some s →
  (∀ idx birth upto msg, (idx, birth, upto, msg) ∈ finished s →
    first_answer idx (drop birth (take upto (seen (recv_data s)))) = Some msg) ∧
  (∀ ch idx birth, waiting s !! ch = Some (idx, birth) →
    match first_answer idx (drop birth (seen (recv_data s))) with
    | Some msg => oneshots (recv_data s) !! ch = Some msg
    | None => oneshots (recv_data s) !! ch = None ∧ reply_map (recv_data s) !! idx = Some ch
    end) ∧
  (∀ ch1 ch2 idx b1 b2, waiting s !! ch1 = Some (idx, b1) → waiting s !! ch2 = Some (idx, b2) →
    ch1 = ch2).
Proof.
  intros Hl Hr. apply (run_ok 0) in Hr as (m & _ & Hok); [|apply rpc_new_ok|done]. split_and!.
  - intros idx birth upto msg Hin. pose proof (ok_finished _ _ Hok) as Hf.
    rewrite Forall_forall in Hf. by destruct (Hf _ Hin).
  - intros ch idx birth Hw. destruct (call_state _ _ _ (ok_calls _ _ Hok) _ _ _ Hw) as (_ & Ho & Hiff).
    rewrite <- Ho. destruct (oneshots (recv_data s) !! ch) eqn:He; [done|]. split; [done|].
    by apply Hiff.
  - apply (ok_calls _ _ Hok).
Qed.

(** a reply without a reply serial panics whoever reads it.  The header reader accepts
    a reply or an error without the field, and every future that then runs the queue
    panics: a response future in its predicate, the others when they sort the message. *)
Theorem reply_without_serial_panics rd l msg idx path sig_match :
  typ msg = TReply ∨ typ msg = TError → response_serial (dynheader msg) = None →
  (queue_msg dbg hash_iter (Ok msg :: l) (res_pred idx) rd).1 = Panic ∧
  (queue_msg dbg hash_iter (Ok msg :: l) (sig_pred sig_match) rd).1 = Panic ∧
  (queue_msg dbg hash_iter (Ok msg :: l) (call_pred dbg path) rd).1 = Panic.
Proof.
  intros Ht Hs. cbn [queue_msg]. unfold res_pred, sig_pred, call_pred, sort_msg, matches.
  by destruct Ht as [-> | ->]; rewrite Hs; cbn.
Qed.

(** a future that waits on a general rule takes the signals of a specific one.  When
    the signal at hand matches a rule and a more specific one in front of the list, the
    sorting puts it in the specific rule's queue; but a [get_signal] on the general rule
    that happens to read it returns it, and the specific rule's queue does not get it. *)
Theorem get_signal_takes_specific rd l msg general specific rules q :
  sig_matches rd = specific :: rules → rule_cmp specific general = Lt →
  matches specific msg = true → r_queue specific = Some q → matches general msg = true →
  (∃ rd', sort_msg dbg hash_iter rd msg = Ok rd' ∧
     chans rd' !! q = Some (default [] (chans rd !! q) ++ [msg])) ∧
  queue_msg dbg hash_iter (Ok msg :: l) (sig_pred general) rd = (Ok (msg, false), take_msg rd l msg) ∧
  chans (take_msg rd l msg) = chans rd.
Proof.
  intros Hrules _ Hs Hq Hg. split_and!; [| |done].
  - unfold sort_msg. assert (typ msg = TSignal) as ->.
    { unfold matches in Hs. destruct (decide (typ msg = TSignal)) as [|Hn]; [done|].
      by rewrite bool_decide_eq_false_2 in Hs. }
    rewrite Hrules. cbn [queue_sig]. rewrite Hs, Hq. cbn. eexists. split; [done|].
    cbn. apply lookup_insert_eq.
  - cbn [queue_msg]. unfold sig_pred. by rewrite Hg.
Qed.
End calls.

(** ** Concrete executions *)

Definition reply_to (idx : N) (msg_typ : MessageType) : MarshalledMessage :=
  MkMsg body_new
    (MkDyn None None None None None None None None (Some idx) None) msg_typ 0.

Definition call_out : MarshalledMessage := call_to (lit "/").

Lemma allocate_many_distinct_witness :
  ∃ l n', allocate_many 3 4294967295 = Some (l, n') ∧ NoDup l ∧ l = [4294967295; 1; 2]%N.
Proof.
  destruct (allocate_many_distinct 3 4294967295) as (l & n' & Hm & _ & _ & _ & Hd);
    [by vm_compute|by vm_compute|].
  exists l, n'. split; [exact Hm|]. split; [exact Hd|]. vm_compute in Hm. by injection Hm.
Defined.

(** Two calls; the future of the second reads both replies, so the first finds its own in
    its channel. *)
Definition two_calls : list action :=
  [ACall call_out true; ACall call_out true; AArrive (Ok (reply_to 1 TReply));
   AArrive (Ok (reply_to 2 TError)); AArrive (Ok (reply_to 1 TError)); APoll 1; APoll 0].

Lemma responses_correlated_witness :
  ∃ s, run (H:=text_marshal) true map_to_list rpc_new two_calls = Some s ∧
    finished s = [(1%N, 0, 2, reply_to 1 TReply); (2%N, 0, 2, reply_to 2 TError)] ∧
    ∀ idx birth upto msg, (idx, birth, upto, msg) ∈ finished s →
      first_answer idx (drop birth (take upto (seen (recv_data s)))) = Some msg.
Proof.
  destruct (run (H:=text_marshal) true map_to_list rpc_new two_calls) as [s|] eqn:Hr;
    [|vm_compute in Hr; discriminate Hr].
  pose proof (responses_correlated (H:=text_marshal) true map_to_list two_calls s) as Hc.
  exists s. split; [done|]. split; [|apply Hc; [by vm_compute|exact Hr]].
  vm_compute in Hr. by injection Hr as <-.
Defined.

Lemma reply_without_serial_panics_witness :
  (queue_msg (H:=text_marshal) true map_to_list
    [Ok (set_dyn (reply_to 1 TReply) dyn_default)] (res_pred 5) (recv_data rpc_new)).1 = Panic.
Proof.
  refine (proj1 (reply_without_serial_panics (H:=text_marshal) true map_to_list
    (recv_data rpc_new) [] (set_dyn (reply_to 1 TReply) dyn_default) 5 [] EMPTY_MATCH _ _));
    [by left|done].
Defined.

Definition changed : MarshalledMessage :=
  signal (lit "org.a.B") (lit "Changed") (lit "/a") msg_new.
Definition by_interface : MatchRule := MkRule None None None (Some (lit "org.a.B")) None (Some 0).
Definition by_member : MatchRule :=
  MkRule None None None (Some (lit "org.a.B")) (Some (lit "Changed")) (Some 1).

Lemma get_signal_takes_specific_witness :
  let rd := MkRecvData [] ∅ hierarchy_new [by_member; by_interface] ∅ ∅ [] in
  (∃ rd', sort_msg (H:=text_marshal) true map_to_list rd changed = Ok rd' ∧
     chans rd' !! 1 = Some [changed]) ∧
  queue_msg (H:=text_marshal) true map_to_list [Ok changed] (sig_pred by_interface) rd =
    (Ok (changed, false), take_msg rd [] changed) ∧
  chans (take_msg rd [] changed) = ∅.
Proof.
  refine (get_signal_takes_specific (H:=text_marshal) true map_to_list
    (MkRecvData [] ∅ hierarchy_new [by_member; by_interface] ∅ ∅ []) [] changed
    by_interface by_member [by_interface] 1 eq_refl _ _ eq_refl _); by vm_compute.
Defined.
