(* ===== verification/Inbox.v ===== *)
(** * lib.rs on conn/recv.rs: the sorting loop on the real receive state

    Rpc.v sorts a list of results.  Here [queue_msg] runs on the receive state and the
    socket of Recv.v, as the code does, and is shown to be the loop of Rpc.v on the list
    of results that state gives; and to end, since every message takes at least its fixed
    header from the stream. *)

From S2P Require Import Prelude Utils SigStr Body StdPath ObjPath Message Header DBusWire Hierarchy Order MatchRule Recv Rpc.
From Stdlib Require Import Lia.

Section inbox.
Context `{BasicMarshal} (dbg : bool)
  (hash_iter : gmap bytes CallHierarchy → list (bytes * CallHierarchy)).
Context `{WireLib} `{RecvLib}.
Context {Ty : Type} (parse_description : bytes → outcome UnmarshalError (list Ty))
  (validate_marshalled : ByteOrder → nat → bytes → Ty → outcome UnmarshalError nat)
  (rem_capacity : nat).

#[local] Abbreviation next :=
  (get_next_message parse_description validate_marshalled dbg rem_capacity).

(** [queue_msg] on the receive state [rs] and the socket; the inbox of [rd] is not used. *)
Fixpoint queue_msg_on (fuel : nat) (pred : predicate) (rs : RecvState) (sock : Sock) (rd : RecvData)
    : option (io_result (MarshalledMessage * bool) * RecvState * Sock * RecvData) :=
  match fuel with
  | O => None
  | S fuel' =>
      let '(r, rs, sock) := next rs sock in
      match r with
      | Err e => Some (Err e, rs, sock, rd)
      | Panic => Some (Panic, rs, sock, rd)
      | Ok msg =>
          let rd := take_msg rd [] msg in
          match pred msg (hierarchy rd) with
          | Ok true => Some (Ok (msg, false), rs, sock, rd)
          | Ok false =>
              match sort_msg dbg hash_iter rd msg with
              | Ok rd => queue_msg_on fuel' pred rs sock rd
              | Err reply => Some (Ok (reply, true), rs, sock, rd)
              | Panic => Some (Panic, rs, sock, rd)
              end
          | Err e => Some (Err e, rs, sock, rd)
          | Panic => Some (Panic, rs, sock, rd)
          end
      end
  end.

(** What the next calls of [get_next_message] give, up to [WouldBlock]. *)
Fixpoint results (fuel : nat) (rs : RecvState) (sock : Sock) : list (io_result MarshalledMessage) :=
  match fuel with
  | O => []
  | S fuel' =>
      let '(r, rs, sock) := next rs sock in
      match r with
      | Err WouldBlock => []
      | r => r :: results fuel' rs sock
      end
  end.

Lemma sort_msg_inbox rd l msg :
  sort_msg dbg hash_iter (set_inbox rd l) msg =
    match sort_msg dbg hash_iter rd msg with
    | Ok rd' => Ok (set_inbox rd' l)
    | Err reply => Err reply
    | Panic => Panic
    end.
Proof.
  unfold sort_msg. destruct (typ msg); [done| | | |].
  2, 3: destruct (response_serial (dynheader msg)) as [idx|]; cbn; [|done];
    by destruct (reply_map rd !! idx).
  - cbn. by destruct (send _ _ _ _ _).
  - cbn. by destruct (queue_sig _ _ _).
Qed.
(** The inbox of the state is not read. *)
Lemma queue_msg_inbox l pred rd k :
  queue_msg dbg hash_iter l pred (set_inbox rd k) = queue_msg dbg hash_iter l pred rd.
Proof. by destruct l as [|[msg|e|] l]. Qed.

Lemma queue_msg_on_results fuel pred rs sock rd r rs' sock' rd' :
  queue_msg_on fuel pred rs sock rd = Some (r, rs', sock', rd') →
  ∃ l, queue_msg dbg hash_iter (results fuel rs sock) pred rd = (r, set_inbox rd' l) ∧
    (r ≠ Err WouldBlock → ∃ k, k < fuel ∧ l = results k rs' sock').
Proof.
  revert rs sock rd. induction fuel as [|fuel IH]; intros rs sock rd; cbn [queue_msg_on results]; [done|].
  destruct (next rs sock) as [[[msg|e|] rs1] sock1].
  - assert (∀ k, ∃ l, set_inbox k (results fuel rs1 sock1) = set_inbox k l ∧
      (r ≠ Err WouldBlock → ∃ n, n < S fuel ∧ l = results n rs1 sock1)) as Hlast
      by (intros k; exists (results fuel rs1 sock1); split; [done|]; intros _; exists fuel; split; [lia|done]).
    cbn [queue_msg]. change (take_msg rd (results fuel rs1 sock1) msg) with
      (set_inbox (take_msg rd [] msg) (results fuel rs1 sock1)).
    set (rd0 := take_msg rd [] msg). destruct (Hlast rd0) as (l0 & Hl0 & Hk0).
    change (hierarchy (set_inbox rd0 _)) with (hierarchy rd0).
    destruct (pred msg (hierarchy rd0)) as [[|]|e|];
      [|rewrite sort_msg_inbox; destruct (sort_msg _ _ rd0 msg) as [rd1|reply|]| |];
      try (intros [= <- <- <- <-]; rewrite Hl0; by exists l0).
    intros Hq. apply IH in Hq as (l & Hq & Hl). rewrite queue_msg_inbox. exists l. split; [done|].
    intros Hr. destruct (Hl Hr) as (k & Hk & ->). exists k. split; [lia|done].
  - intros [= <- <- <- <-].
    destruct (decide (e = WouldBlock)) as [->|He]; [by exists []|].
    exists (results fuel rs1 sock1). split; [by destruct e|]. intros _. exists fuel. split; [lia|done].
  - intros [= <- <- <- <-]. cbn [queue_msg]. exists (results fuel rs1 sock1). split; [done|].
    intros _. exists fuel. split; [lia|done].
Qed.

(** The loop ends: every message is taken from the stream. *)
Context `{!RecvLaws} (Hcap : 4096 ≤ rem_capacity).

Lemma queue_msg_on_ends fuel pred rs P sock rd :
  recv_inv rs P → length (P ++ unread rs (incoming sock)) < fuel →
  is_Some (queue_msg_on fuel pred rs sock rd).
Proof.
  revert rs P sock rd. induction fuel as [|fuel IH]; intros rs P sock rd Hinv Hlen; [lia|].
  cbn [queue_msg_on].
  destruct (get_next_message_explains parse_description validate_marshalled dbg rem_capacity Hcap rs P sock Hinv)
    as (r & rs1 & sock1 & used & -> & _ & [_ Hr]).
  destruct r as [msg|e|]; [|by eexists..].
  destruct Hr as (hdr & d & b & n & Hp & _ & _ & _ & Hinv1 & _ & Hun).
  assert (n ≤ length (P ++ unread rs (incoming sock))) as Hn by (by eapply parse_message_bound).
  assert (0 < n) as Hpos by (by eapply parse_message_pos).
  destruct (pred msg _) as [[|]|e|]; [by eexists| |by eexists..].
  destruct (sort_msg _ _ _ msg) as [rd1|reply|]; [|by eexists..].
  apply (IH rs1 []); [done|]. rewrite Hun, length_app, length_drop. cbn. lia.
Qed.

(** C19: the sorting loop on the real receive state.  With one round more than there are
    bytes to come, [queue_msg] ends, whatever the messages are and however the socket
    cuts them; and its result and the state it leaves are those of the loop of Rpc.v on
    the list of results the receive state gives, with the results after the last message
    as the rest of the list. *)
Theorem queue_msg_refines pred rs P sock rd :
  recv_inv rs P →
  let fuel := S (length (P ++ unread rs (incoming sock))) in
  ∃ r rs' sock' rd' l,
    queue_msg_on fuel pred rs sock rd = Some (r, rs', sock', rd') ∧
    queue_msg dbg hash_iter (results fuel rs sock) pred rd = (r, set_inbox rd' l) ∧
    (r ≠ Err WouldBlock → ∃ k, k < fuel ∧ l = results k rs' sock').
Proof.
  intros Hinv fuel.
  destruct (queue_msg_on_ends fuel pred rs P sock rd Hinv ltac:(lia)) as [[[[r rs'] sock'] rd'] Hq].
  exists r, rs', sock', rd'. destruct (queue_msg_on_results _ _ _ _ _ _ _ _ _ Hq) as (l & Hl & Hk).
  by exists l.
Qed.
End inbox.

(** A call that the routing refuses, read in three pieces. *)
Lemma queue_msg_refines_witness :
  let sock := MkSock (count_hdr ++ u32_bytes LittleEndian 42) [Got 10 []; Got 3 []; Got 500 []] false in
  let rs := MkRecv (SHeader []) [] [] 0 false in
  ∃ r rs' sock' rd' l,
    queue_msg_on (H:=text_marshal) true map_to_list split_types check_u32 4096
      (S (length (unread rs (incoming sock)))) (sig_pred EMPTY_MATCH) rs sock (recv_data rpc_new) =
      Some (r, rs', sock', rd') ∧
    queue_msg (H:=text_marshal) true map_to_list
      (results true split_types check_u32 4096 (S (length (unread rs (incoming sock)))) rs sock)
      (sig_pred EMPTY_MATCH) (recv_data rpc_new) = (r, set_inbox rd' l) ∧
    seen rd' = [count_got].
Proof.
  intros sock rs.
  destruct (queue_msg_refines (H:=text_marshal) true map_to_list split_types check_u32 4096 (le_n _)
    (sig_pred EMPTY_MATCH) rs [] sock (recv_data rpc_new) (fresh_inv false))
    as (r & rs' & sock' & rd' & l & H1 & H2 & _).
  exists r, rs', sock', rd', l. split; [exact H1|]. split; [exact H2|].
  vm_compute in H1. by injection H1 as _ _ _ <-.
Defined.
