(* ===== verification/Client.v ===== *)
(** * lib.rs: the operations a program calls

    [RpcConn::new] after the handshake, [insert_sig_match], [remove_sig_match],
    [get_signal], [get_call], the call paths and the names of the bus.  Each is an async
    function: it runs from one [await] to the next, and other tasks run in between.  A
    function is a [prog], the tree of its steps under the lock, its calls of the bus and
    its waits for a queue; [client_step] resumes one against the state of Rpc.v after
    the other tasks took any steps of Rpc.v.

    A rely-guarantee logic, [wp], carries the proofs: what the others preserve is a
    relation on the states, and an operation is verified against it step by step. *)

From S2P Require Import Prelude Utils Body StdPath ObjPath Message Hierarchy Order MatchRule Rpc.
From Stdlib Require Import Lia.

(** ** Programs *)

(** [Locked f]: what is done while the lock of [recv_data] is held.  [Call msg k]:
    [send_msg_w_rsp(msg).await?.await?].  [Fetch q open pred k]: [get_msg] with the
    [recv()] of the queue [q]; [open] tells whether the sending end of the queue is
    still there. *)
Inductive prog (A : Type) : Type :=
| Ret (r : io_result A)
| Locked (f : RecvData → prog A * RecvData)
| Call (msg : MarshalledMessage) (k : MarshalledMessage → prog A)
| Fetch (q : queue) (open : RecvData → bool) (pred : predicate)
    (k : MarshalledMessage → prog A).
Arguments Ret {A}.
Arguments Locked {A}.
Arguments Call {A}.
Arguments Fetch {A}.

(** A step under the lock that may panic. *)
Definition locked {A B} (m : RecvData → io_result B)
    (k : RecvData → B → prog A * RecvData) : prog A :=
  Locked (λ rd,
    match m rd with
    | Ok b => k rd b
    | Err e => (Ret (Err e), rd)
    | Panic => (Ret Panic, rd)
    end).

(** A call of a message that a constructor made. *)
Definition call_built {A} (m : io_result MarshalledMessage) (k : MarshalledMessage → prog A)
    : prog A :=
  match m with
  | Ok msg => Call msg k
  | Err e => Ret (Err e)
  | Panic => Ret Panic
  end.

(** ** Tasks

    A [turn] resumes it once: [others] is what the other tasks do before, [io] is how the
    sending of a call, or the wait for the socket, ends. *)
Record turn := MkTurn { others : list action; io : io_result unit }.

Inductive task (A : Type) : Type :=
| Running (p : prog A)
| Waiting (ch : nat) (k : MarshalledMessage → prog A)
| Fetching (q : queue) (open : RecvData → bool) (pred : predicate)
    (k : MarshalledMessage → prog A).
Arguments Running {A}.
Arguments Waiting {A}.
Arguments Fetching {A}.

(** A response future belongs to its task. *)
Definition touches (ch : nat) (a : action) : bool :=
  match a with
  | APoll c | Rpc.ADrop c => bool_decide (c = ch)
  | _ => false
  end.

Section client.
Context `{BasicMarshal} (dbg : bool)
  (hash_iter : gmap bytes CallHierarchy → list (bytes * CallHierarchy)).
(** rustbus: signatures, and how a text, a [u32] and a pair of texts are read. *)
Context {Ty : Type} `{EqDecision Ty}
  (parse_description : bytes → outcome UnmarshalError (list Ty))
  (is_empty_signature : UnmarshalError → bool)
  (str_value : Unmarshal (Ty:=Ty) bytes) (u32_value : Unmarshal (Ty:=Ty) N)
  (str2_value : Unmarshal (Ty:=Ty) (bytes * bytes)).

(** [b.parser().get()]. *)
Definition body_get {T} (U : Unmarshal T) (b : MarshalledMessageBody)
    : outcome UnmarshalError T :=
  p ← parser_new parse_description is_empty_signature b; (get U p).1.

(** [res.body.parser().get().unwrap_or(..)], then the [Err] with the text. *)
Definition bus_error {T A} (U : Unmarshal T) (kind : ErrorKind) (res : MarshalledMessage)
    : io_result A :=
  match body_get U (m_body res) with
  | Ok _ | Err _ => Err kind
  | Panic => Panic
  end.

(** [insert_sig_match]; [q] is the queue [MsgQueue::new] makes. *)
Definition insert_sig_match (sig_match : MatchRule) (q : queue) : prog unit :=
  locked (λ rd, insert_rule (sig_matches rd) sig_match q) (λ rd l,
    (call_built (add_match (match_string sig_match)) (λ res,
       match typ res with
       | TReply => Ret (Ok ())
       | TError =>
           locked (λ rd, rollback_rule (sig_matches rd) sig_match) (λ rd l,
             (Ret (bus_error str_value Other res), set_sig_matches rd l))
       | _ => Ret Panic
       end), set_sig_matches rd l)).

(** [remove_sig_match]. *)
Definition remove_sig_match (sig_match : MatchRule) : prog unit :=
  locked (λ rd, remove_rule (sig_matches rd) sig_match) (λ rd l,
    (call_built (remove_match (match_string sig_match)) (λ res,
       match typ res with
       | TReply => Ret (Ok ())
       | TError => Ret (bus_error str_value Other res)
       | _ => Ret Panic
       end), set_sig_matches rd l)).

(** [recv_data.sig_matches[idx].queue.as_ref().unwrap()] for the rule [get_signal] finds. *)
Definition signal_queue (rd : RecvData) (sig_match : MatchRule) : io_result queue :=
  match find_rule (sig_matches rd) sig_match with
  | Ok idx =>
      match sig_matches rd !! idx with
      | Some r => unwrap (r_queue r)
      | None => Panic
      end
  | Err _ => Err InvalidInput
  | Panic => Panic
  end.

(** The sending end of a signal queue is in its rule. *)
Definition signal_open (q : queue) (rd : RecvData) : bool :=
  existsb (λ r, bool_decide (r_queue r = Some q)) (sig_matches rd).

(** [get_signal]. *)
Definition get_signal (sig_match : MatchRule) : prog MarshalledMessage :=
  locked (λ rd, signal_queue rd sig_match) (λ rd q,
    (Fetch q (signal_open q) (sig_pred sig_match) (λ msg, Ret (Ok msg)), rd)).

(** The sending end of a call queue is in the node of its path. *)
Definition call_open (path : bytes) (q : queue) (rd : RecvData) : bool :=
  match get_queue (E:=ErrorKind) dbg (hierarchy rd) path with
  | Ok (Some q') => bool_decide (q' = q)
  | _ => false
  end.

(** [get_call]; a path is given as a text. *)
Definition get_call (path : bytes) : prog MarshalledMessage :=
  match from_str path with
  | Ok path =>
      locked (λ rd, o ← get_queue dbg (hierarchy rd) path; ok_or o InvalidInput) (λ rd q,
        (Fetch q (call_open path q) (call_pred dbg path) (λ msg, Ret (Ok msg)), rd))
  | Err _ => Ret (Err InvalidInput)
  | Panic => Ret Panic
  end.

(** [insert_call_path]; its error is the one of the conversion.  [q] is the queue
    [MsgQueue::new] makes for the actions that have one. *)
Definition insert_call_path (path : bytes) (action : CallAction) (q : queue)
    : prog (outcome InvalidObjectPath unit) :=
  match from_str path with
  | Ok path =>
      locked (λ rd, insert_path dbg (hierarchy rd) path action q) (λ rd h,
        (Ret (Ok (Ok ())), set_hierarchy rd h))
  | Err e => Ret (Ok (Err e))
  | Panic => Ret Panic
  end.

(** [get_call_path_action]. *)
Definition get_call_path_action (path : bytes) : prog (option CallAction) :=
  match from_str path with
  | Ok path => locked (λ rd, get_action dbg (hierarchy rd) path) (λ rd a, (Ret (Ok a), rd))
  | Err _ => Ret (Ok None)
  | Panic => Ret Panic
  end.

(** [get_call_recv]: the queue whose receiver is cloned. *)
Definition get_call_recv (path : bytes) : prog (option queue) :=
  match from_str path with
  | Ok path => locked (λ rd, get_queue dbg (hierarchy rd) path) (λ rd q, (Ret (Ok q), rd))
  | Err _ => Ret (Ok None)
  | Panic => Ret Panic
  end.

(** [RpcConn::request_name] on the answer of the bus, and whole. *)
Definition name_reply (res : MarshalledMessage) : io_result bool :=
  if bool_decide (typ res = TError) then Ok false else
  match body_get u32_value (m_body res) with
  | Ok ret => Ok (bool_decide (ret = DBUS_REQUEST_NAME_REPLY_ALREADY_OWNER) ||
                  bool_decide (ret = DBUS_REQUEST_NAME_REPLY_PRIMARY_OWNER))
  | Err _ => Ok false
  | Panic => Panic
  end.

Definition rpc_request_name (name : bytes) : prog bool :=
  call_built (request_name name DBUS_NAME_FLAG_DO_NOT_QUEUE) (λ res, Ret (name_reply res)).

(** [RpcConn::release_name]. *)
Definition rpc_release_name (name : bytes) : prog unit :=
  call_built (release_name name) (λ _, Ret (Ok ())).

(** [RpcConn::new] from the Hello call on: the name the bus gave. *)
Definition hello_reply (hello_res : MarshalledMessage) : io_result bytes :=
  match typ hello_res with
  | TReply =>
      match body_get str_value (m_body hello_res) with
      | Ok auto_name => Ok auto_name
      | Err _ => Err ConnectionRefused
      | Panic => Panic
      end
  | TError => bus_error str2_value ConnectionRefused hello_res
  | _ => Err ConnectionAborted
  end.

Definition say_hello : prog bytes := Call hello (λ hello_res, Ret (hello_reply hello_res)).

(** ** Resuming a program *)

(** [res?] and then [k]. *)
Definition resume {A} (r : io_result MarshalledMessage) (k : MarshalledMessage → prog A) : prog A :=
  match r with
  | Ok msg => k msg
  | Err e => Ret (Err e)
  | Panic => Ret Panic
  end.

(** The poll of the [recv()] of a queue: a message, or closed, or pending. *)
Definition poll_queue (rd : RecvData) (q : queue) (open : RecvData → bool)
    : option (io_result MarshalledMessage * RecvData) :=
  match take_queued rd q with
  | Some (msg, rd) => Some (Ok msg, rd)
  | None => if open rd then None else Some (Err Interrupted, rd)
  end.

(** One resumption, [None] a panic or a step the others cannot take. *)
Definition client_step {A} (t : task A) (w : turn) (s : RpcConn) : option (task A * RpcConn) :=
  s ← Rpc.run dbg hash_iter s (others w);
  match t with
  | Running (Ret r) => Some (t, s)
  | Running (Locked f) =>
      let '(p, rd) := f (recv_data s) in Some (Running p, set_recv_data s rd)
  | Running (Call msg k) =>
      match io w with
      | Ok _ => s' ← send_msg_w_rsp s msg true; Some (Waiting (next_channel s) k, s')
      | Err e => s' ← send_msg_w_rsp s msg false; Some (Running (Ret (Err e)), s')
      | Panic => None
      end
  | Running (Fetch q open pred k) =>
      match poll_queue (recv_data s) q open with
      | Some (r, rd) => Some (Running (resume r k), set_recv_data s rd)
      | None => Some (Fetching q open pred k, s)
      end
  | Waiting ch k =>
      if existsb (touches ch) (others w) then None else
      match io w with
      | Ok _ =>
          '(r, s') ← poll_future dbg hash_iter s ch;
          Some (match r with Some r => Running (resume r k) | None => t end, s')
      | Err e => '(idx, _) ← waiting s !! ch; Some (Running (Ret (Err e)), drop_future s ch idx)
      | Panic => None
      end
  | Fetching q open pred k =>
      match io w with
      | Ok _ =>
          match poll_queue (recv_data s) q open with
          | Some (r, rd) => Some (Running (resume r k), set_recv_data s rd)
          | None =>
              '(r, s') ← get_msg_step dbg hash_iter s pred;
              Some (match r with Some r => Running (resume r k) | None => t end, s')
          end
      | Err e => Some (Running (Ret (Err e)), s)
      | Panic => None
      end
  end.

Fixpoint exec {A} (t : task A) (script : list turn) (s : RpcConn) : option (task A * RpcConn) :=
  match script with
  | [] => Some (t, s)
  | w :: script' => '(t', s') ← client_step t w s; exec t' script' s'
  end.
End client.

(** ** Whose an error is

    [own p] is [p] with the results it returns itself marked by [Ok]: run in its place, it
    ends with [Err] exactly when not the program but one of its calls or waits failed. *)
Fixpoint own {A} (p : prog A) : prog (io_result A) :=
  match p with
  | Ret r => Ret (Ok r)
  | Locked f => Locked (λ rd, let '(p', rd') := f rd in (own p', rd'))
  | Call msg k => Call msg (λ res, own (k res))
  | Fetch q open pred k => Fetch q open pred (λ msg, own (k msg))
  end.

(** A task of [p], and that of [own p] in its place. *)
Inductive owned {A} : task A → task (io_result A) → Prop :=
| owned_running p : owned (Running p) (Running (own p))
| owned_waiting ch k : owned (Waiting ch k) (Waiting ch (λ res, own (k res)))
| owned_fetching q open pred k :
    owned (Fetching q open pred k) (Fetching q open pred (λ msg, own (k msg)))
| owned_failed e : owned (Running (Ret (Err e))) (Running (Ret (Err e)))
| owned_panicked : owned (Running (Ret Panic)) (Running (Ret Panic)).

Section owned.
Context `{BasicMarshal} (dbg : bool)
  (hash_iter : gmap bytes CallHierarchy → list (bytes * CallHierarchy)).

Lemma owned_resume {A} r (k : MarshalledMessage → prog A) :
  owned (Running (resume r k)) (Running (resume r (λ m, own (k m)))).
Proof. destruct r; constructor. Qed.

Lemma client_step_own {A} (t : task A) t' w s t1 s1 :
  owned t t' → client_step dbg hash_iter t w s = Some (t1, s1) →
  ∃ t1', client_step dbg hash_iter t' w s = Some (t1', s1) ∧ owned t1 t1'.
Proof.
  intros Ht. unfold client_step. destruct (Rpc.run _ _ s (others w)) as [s0|]; [|done].
  cbn [mbind option_bind].
  destruct Ht as [[r|f|msg k|q open pred k]|ch k|q open pred k|e|]; cbn [own].
  - intros [= <- <-]. eexists. split; [done|]. apply (owned_running (Ret r)).
  - destruct (f (recv_data s0)) as [p rd]. intros [= <- <-]. eexists. split; [done|]. constructor.
  - destruct (io w) as [?|e|]; [| |done]; destruct (send_msg_w_rsp s0 msg _) as [s2|]; try done;
      intros [= <- <-]; (eexists; split; [done|]); constructor.
  - destruct (poll_queue _ q open) as [[r rd]|]; intros [= <- <-]; (eexists; split; [done|]);
      [apply owned_resume|constructor].
  - destruct (existsb _ _); [done|]. destruct (io w) as [?|e|]; [| |done].
    + destruct (poll_future _ _ s0 ch) as [[[r|] s2]|]; [| |done]; intros [= <- <-];
        (eexists; split; [done|]); [apply owned_resume|constructor].
    + destruct (waiting s0 !! ch) as [[idx b]|]; [|done]. intros [= <- <-].
      eexists. split; [done|]. constructor.
  - destruct (io w) as [?|e|]; [| |done].
    + destruct (poll_queue _ q open) as [[r rd]|].
      { intros [= <- <-]. eexists. split; [done|]. apply owned_resume. }
      destruct (get_msg_step _ _ s0 pred) as [[[r|] s2]|]; [| |done]; intros [= <- <-];
        (eexists; split; [done|]); [apply owned_resume|constructor].
    + intros [= <- <-]. eexists. split; [done|]. constructor.
  - intros [= <- <-]. eexists. split; [done|]. constructor.
  - intros [= <- <-]. eexists. split; [done|]. constructor.
Qed.

(** The two runs go together, to the same result. *)
Lemma exec_own {A} (p : prog A) script s res s' :
  exec dbg hash_iter (Running p) script s = Some (Running (Ret res), s') →
  ∃ res', exec dbg hash_iter (Running (own p)) script s = Some (Running (Ret res'), s') ∧
    match res' with Ok r => res = r | Err e => res = Err e | Panic => res = Panic end.
Proof.
  assert (∀ (t : task A) t' s, owned t t' → exec dbg hash_iter t script s = Some (Running (Ret res), s') →
    ∃ t1', exec dbg hash_iter t' script s = Some (t1', s') ∧ owned (Running (Ret res)) t1') as Hgen.
  { induction script as [|w script IH]; intros t t' s0 Ht; cbn [exec].
    { intros [= -> ->]. by exists t'. }
    destruct (client_step _ _ t w s0) as [[t1 s1]|] eqn:Hs; [|done]. cbn [mbind option_bind].
    destruct (client_step_own t t' w s0 t1 s1 Ht Hs) as (t1' & -> & Ht1). cbn [mbind option_bind].
    by apply IH. }
  intros He. destruct (Hgen _ _ _ (owned_running p) He) as (t1' & -> & Ht).
  inversion Ht; subst; by eexists.
Qed.
End owned.

(** ** Reading keeps the rules and the hierarchy *)

(** A call of the object at the path [comps] or below it. *)
Definition call_under (comps : list bytes) (msg : MarshalledMessage) : Prop :=
  typ msg = TCall ∧ ∃ ws, Forall element ws ∧
    object (dynheader msg) = Some (mk_path ws) ∧ comps `prefix_of` ws.

(** The rules and paths with the queue [q] only put messages of [P] in it. *)
Definition feeds (P : MarshalledMessage → Prop) (q : queue) (rd : RecvData) : Prop :=
  (∀ r msg, r ∈ sig_matches rd → r_queue r = Some q → matches r msg = true → P msg) ∧
  (∀ p hd msg, find_inner p (hierarchy rd) = Some hd → handler_queue hd = Some q →
     call_under p msg → P msg).

(** The queue [q] only holds messages of [P]. *)
Definition purely (P : MarshalledMessage → Prop) (q : queue) (rd : RecvData) : Prop :=
  Forall P (default [] (chans rd !! q)).

(** What the reading of messages changes: not the rules, not the paths, and a queue gets
    only what they put in it. *)
Definition reads (rd rd' : RecvData) : Prop :=
  sig_matches rd' = sig_matches rd ∧ hierarchy rd' = hierarchy rd ∧
  ∀ P q, feeds P q rd → purely P q rd → purely P q rd'.

Definition reading (s s' : RpcConn) : Prop :=
  reads (recv_data s) (recv_data s') ∧ finished s `suffix_of` finished s'.

#[export] Instance reads_preorder : PreOrder reads.
Proof.
  split; [intros rd; by split; [|split]|]. intros rd1 rd2 rd3 (H1 & H2 & H3) (H4 & H5 & H6).
  unfold reads. split_and!; [congruence..|]. intros P q Hf Hp. apply H6; [|by apply H3].
  unfold feeds in *. by rewrite H1, H2.
Qed.

Lemma reads_same rd rd' :
  sig_matches rd' = sig_matches rd → hierarchy rd' = hierarchy rd → chans rd' = chans rd →
  reads rd rd'.
Proof. intros H1 H2 H3. unfold reads. split_and!; [done..|]. intros P q _. unfold purely. by rewrite H3. Qed.

#[export] Instance reading_preorder : PreOrder reading.
Proof. split; [by split|]. intros s1 s2 s3 [H1 H2] [H3 H4]. split; by etrans. Qed.

(** For states that are written out. *)
Ltac same_reading := split; [apply reads_same; done|cbn; try done].

(** The bus answered some call with [msg]. *)
Definition answered (msg : MarshalledMessage) (s : RpcConn) : Prop :=
  ∃ idx birth upto, (idx, birth, upto, msg) ∈ finished s ∧ is_answer idx msg.

Lemma answered_typ msg s : answered msg s → typ msg = TReply ∨ typ msg = TError.
Proof. by intros (idx & ? & ? & _ & [Ht _]). Qed.

Lemma answered_later msg s s' : finished s `suffix_of` finished s' → answered msg s → answered msg s'.
Proof.
  intros [k Hk] (idx & b & u & Hin & Ha). exists idx, b, u. rewrite Hk. split; [set_solver|done].
Qed.

(** Nothing that concerns the calls changes. *)
Definition same_calls (rd rd' : RecvData) : Prop :=
  reply_map rd' = reply_map rd ∧ oneshots rd' = oneshots rd ∧ seen rd' = seen rd.

Section reading.
Context `{BasicMarshal} (dbg : bool)
  (hash_iter : gmap bytes CallHierarchy → list (bytes * CallHierarchy)).

(** A message that is added to a queue by what feeds it. *)
Lemma reads_push rd q msg :
  (∀ P, feeds P q rd → P msg) →
  reads rd (set_chans rd (<[q := default [] (chans rd !! q) ++ [msg]]> (chans rd))).
Proof.
  intros Hmsg. unfold reads. split_and!; [done..|]. intros P q' Hf Hp. unfold purely in *. cbn.
  destruct (decide (q' = q)) as [->|Hne]; [|by rewrite lookup_insert_ne].
  rewrite lookup_insert_eq. cbn. apply Forall_app. split; [done|]. apply Forall_singleton. by apply Hmsg.
Qed.

Lemma queue_sig_reads rd msg c :
  queue_sig (E:=MarshalledMessage) (sig_matches rd) (chans rd) msg = Ok c → reads rd (set_chans rd c).
Proof.
  intros Hq.
  assert (∀ l, l `suffix_of` sig_matches rd → queue_sig (E:=MarshalledMessage) l (chans rd) msg = Ok c →
    reads rd (set_chans rd c)) as Hgen; [|by apply (Hgen (sig_matches rd))].
  induction l as [|r l IH]; intros Hsuf; cbn [queue_sig]; [intros [= <-]; by apply reads_same|].
  destruct (matches r msg) eqn:Hm.
  - destruct (r_queue r) as [q|] eqn:Hr; cbn; [|done]. intros [= <-]. apply reads_push.
    intros P [Hf _]. apply (Hf r); [|done..]. destruct Hsuf as [k ->]. set_solver.
  - apply IH. destruct Hsuf as [k ->]. exists (k ++ [r]). by rewrite <- app_assoc.
Qed.

Lemma send_reads rd msg c :
  typ msg = TCall → send dbg hash_iter (hierarchy rd) (chans rd) msg = Ok c → reads rd (set_chans rd c).
Proof.
  intros Ht Hs.
  assert (∃ ws, Forall element ws ∧ object (dynheader msg) = Some (mk_path ws)) as (ws & Hws & Hobj).
  { unfold send in Hs. destruct (object (dynheader msg)) as [obj|]; cbn in Hs; [|done].
    unfold from_str in Hs. destruct (validate_str obj) as [[]| |] eqn:Hv; try done.
    apply validate_str_iff in Hv as (ws & Hws & ->). by exists ws. }
  destruct (proj1 (send_delivers_aux dbg hash_iter (hierarchy rd) (chans rd) msg ws Hws Hobj c) Hs)
    as (q & Hq & ->).
  apply reads_push. intros P [_ Hf].
  assert (∃ p hd, find_inner p (hierarchy rd) = Some hd ∧ handler_queue hd = Some q ∧ p `prefix_of` ws)
    as (p & hd & Hfind & Hhd & Hpre).
  { destruct Hq as [[p (Hp & Hh & _)]|(Hp & Hh & _)]; by eexists _, _. }
  apply (Hf p hd); [done..|]. split; [done|]. by exists ws.
Qed.

Lemma sort_msg_reading rd msg rd' : sort_msg dbg hash_iter rd msg = Ok rd' → reads rd rd'.
Proof.
  unfold sort_msg. destruct (typ msg) eqn:Ht; [done| | | |].
  2, 3: destruct (response_serial (dynheader msg)) as [idx|]; cbn; [|done];
    destruct (reply_map rd !! idx); by intros [= <-].
  - destruct (send _ _ _ _ _) eqn:Hs; cbn; [|done..]. intros [= <-]. by apply (send_reads rd msg).
  - destruct (queue_sig _ _ _) eqn:Hs; cbn; [|done..]. intros [= <-]. by apply (queue_sig_reads rd msg).
Qed.

Lemma queue_msg_reading l pred rd r rd' :
  queue_msg dbg hash_iter l pred rd = (r, rd') →
  reads rd rd' ∧ ∀ msg, r = Ok (msg, false) → pred msg (hierarchy rd) = Ok true.
Proof.
  revert rd. induction l as [|[msg|e|] l IH]; intros rd; cbn [queue_msg]; [by intros [= <- <-]| | |].
  2, 3: by intros [= <- <-].
  destruct (pred msg _) as [[|]|e|] eqn:Hp; cbn [take_msg hierarchy] in Hp.
  - intros [= <- <-]. split; [done|]. by intros ? [= <-].
  - destruct (sort_msg _ _ _ msg) as [rd1|reply|] eqn:Hs; try by intros [= <- <-].
    intros Hq. apply sort_msg_reading in Hs as Hs1. apply IH in Hq as [Hr Hpred].
    split; [by transitivity rd1|]. destruct Hs1 as (_ & Hh & _). by rewrite Hh in Hpred.
  - by intros [= <- <-].
  - by intros [= <- <-].
Qed.

Lemma set_recv_data_reading s rd : reads (recv_data s) rd → reading s (set_recv_data s rd).
Proof. by split. Qed.

Lemma get_msg_step_reading s pred r s' :
  get_msg_step dbg hash_iter s pred = Some (r, s') →
  reading s s' ∧ ∀ msg, r = Some (Ok msg) → pred msg (hierarchy (recv_data s)) = Ok true.
Proof.
  unfold get_msg_step. destruct (queue_msg _ _ _ _ _) as [q rd] eqn:Hq.
  apply queue_msg_reading in Hq as [Hr Hp].
  pose proof (set_recv_data_reading s rd Hr) as Hs.
  destruct q as [[msg [|]]|e|]; [| | |done].
  - unfold send_msg_wo_rsp. destruct (expects_reply msg); [done|].
    destruct (allocate_idx (serial (set_recv_data s rd))) as [[? ?]|]; [|done].
    intros [= <- <-]. split; [|done]. etrans; [exact Hs|by same_reading].
  - intros [= <- <-]. split; [done|]. intros ? [= <-]. by apply Hp.
  - by destruct e; intros [= <- <-].
Qed.

Lemma drop_future_reading s ch idx : reading s (drop_future s ch idx).
Proof. by same_reading. Qed.

Lemma poll_future_reading s ch r s' : poll_future dbg hash_iter s ch = Some (r, s') → reading s s'.
Proof.
  unfold poll_future. destruct (waiting s !! ch) as [[idx birth]|]; cbn; [|done].
  destruct (oneshots (recv_data s) !! ch).
  { intros [= _ <-]. same_reading. by eexists [_]. }
  destruct (decide _); [|done]. destruct (get_msg_step _ _ _ _) as [[r1 s1]|] eqn:Hg; cbn; [|done].
  apply get_msg_step_reading in Hg as [Hg _].
  destruct r1 as [[msg|er|]|]; intros [= _ <-]; (etrans; [exact Hg|]); same_reading.
  by eexists [_].
Qed.

Lemma send_msg_w_rsp_reading s msg sent s' : send_msg_w_rsp s msg sent = Some s' → reading s s'.
Proof.
  unfold send_msg_w_rsp. destruct (expects_reply msg); [|done].
  destruct (allocate_idx (serial s)) as [[? ?]|]; [|done]. intros [= <-]. by same_reading.
Qed.

Lemma poll_queue_spec rd q open r rd' :
  poll_queue rd q open = Some (r, rd') →
  reads rd rd' ∧
  match r with
  | Ok msg => ∃ l, chans rd !! q = Some (msg :: l) ∧ chans rd' = <[q := l]> (chans rd)
  | Err e => e = Interrupted ∧ open rd = false ∧ rd' = rd
  | Panic => False
  end.
Proof.
  unfold poll_queue, take_queued. destruct (chans rd !! q) as [[|msg l]|] eqn:Hq.
  2: { intros [= <- <-]. split; [|by exists l]. unfold reads. split_and!; [done..|]. intros P q' _ Hp.
       unfold purely in *. cbn. destruct (decide (q' = q)) as [->|Hne]; [|by rewrite lookup_insert_ne].
       rewrite lookup_insert_eq. rewrite Hq in Hp. by apply Forall_cons in Hp as [_ Hp]. }
  all: destruct (open rd); [done|]; by intros [= <- <-].
Qed.

Lemma poll_queue_same rd q open r rd' :
  poll_queue rd q open = Some (r, rd') → same_calls rd rd'.
Proof.
  unfold poll_queue, take_queued. destruct (chans rd !! q) as [[|msg l]|];
    [destruct (open rd)| |destruct (open rd)]; try done; by intros [= _ <-].
Qed.

Lemma send_msg_w_rsp_waits s msg s' :
  send_msg_w_rsp s msg true = Some s' → is_Some (waiting s' !! next_channel s).
Proof.
  unfold send_msg_w_rsp. destruct (expects_reply msg); [|done].
  destruct (allocate_idx (serial s)) as [[? ?]|]; [|done]. intros [= <-]. cbn.
  rewrite lookup_insert_eq. by eexists.
Qed.
End reading.

(** ** Rely and guarantee

    [R]: what the other tasks, and the reading of messages, may do to the state. *)
Class Rely (R : RpcConn → RpcConn → Prop) : Prop := {
  rely_preorder :: PreOrder R;
  rely_reading s s' : reading s s' → R s s';
}.

#[export] Instance reading_rely : Rely reading.
Proof. split; [apply _|done]. Qed.

Section logic.
Context `{BasicMarshal} (dbg : bool)
  (hash_iter : gmap bytes CallHierarchy → list (bytes * CallHierarchy)).
Context (R : RpcConn → RpcConn → Prop) `{!Rely R}.

(** A predicate that takes no answer to a call. *)
Definition spares (pred : predicate) : Prop :=
  polite pred ∧ ∀ msg h idx, pred msg h = Ok true → ¬ is_answer idx msg.

(** [p], resumed in a state the others reach from [s], only ends with a result and a
    state of [Q]. *)
Fixpoint wp {A} (Q : io_result A → RpcConn → Prop) (p : prog A) (s : RpcConn) : Prop :=
  match p with
  | Ret r => Q r s
  | Locked f => ∀ s', R s s' →
      let '(p', rd) := f (recv_data s') in
      same_calls (recv_data s') rd ∧ wp Q p' (set_recv_data s' rd)
  | Call _ k =>
      (∀ e s', R s s' → Q (Err e) s') ∧
      ∀ msg s', R s s' → answered msg s' → wp Q (k msg) s'
  | Fetch q open pred k =>
      (∀ e s', R s s' → Q (Err e) s') ∧ spares pred ∧
      ∀ msg s0 s', R s s0 → reading s0 s' →
        (∃ l, chans (recv_data s0) !! q = Some (msg :: l)) ∨
          pred msg (hierarchy (recv_data s0)) = Ok true →
        wp Q (k msg) s'
  end.

Definition task_ok {A} (Q : io_result A → RpcConn → Prop) (t : task A) (s : RpcConn) : Prop :=
  match t with
  | Running p => ∃ s0, R s0 s ∧ wp Q p s0
  | Waiting ch k => is_Some (waiting s !! ch) ∧ ∃ s0 msg, R s0 s ∧ wp Q (Call msg k) s0
  | Fetching q open pred k => ∃ s0, R s0 s ∧ wp Q (Fetch q open pred k) s0
  end.

(** What the others do in a turn is in the rely. *)
Definition turn_ok (w : turn) : Prop :=
  ∀ a s s', a ∈ others w → Rpc.step dbg hash_iter s a = Some s' → R s s'.

Lemma run_rely l s s' :
  (∀ a s s', a ∈ l → Rpc.step dbg hash_iter s a = Some s' → R s s') →
  Rpc.run dbg hash_iter s l = Some s' → R s s'.
Proof.
  intros Hl. revert s. induction l as [|a l IH]; intros s; cbn [Rpc.run]; [by intros [= <-]|].
  destruct (Rpc.step _ _ s a) as [s1|] eqn:Hs; [|done]. cbn [mbind option_bind]. intros Hr.
  transitivity s1; [eapply Hl; [|exact Hs]; set_solver|].
  apply IH; [|done]. intros b s2 s3 Hb. apply Hl. set_solver.
Qed.

(** A response future that the others do not touch keeps waiting. *)
Lemma step_waiting n s a s' ch w :
  conn_ok n s → Rpc.step dbg hash_iter s a = Some s' → touches ch a = false →
  waiting s !! ch = Some w → waiting s' !! ch = Some w.
Proof.
  intros Hok Hs Ht Hw.
  assert (∀ r, get_msg_step dbg hash_iter s r = None ∨ ∃ o s1,
    get_msg_step dbg hash_iter s r = Some (o, s1) ∧ waiting s1 = waiting s) as Hget.
  { intros pred. unfold get_msg_step. destruct (queue_msg _ _ _ _ _) as [[[msg [|]]|e|] rd];
      [| |right; destruct e; by eexists _, _|by left].
    - unfold send_msg_wo_rsp. destruct (expects_reply msg); [by left|].
      destruct (allocate_idx (serial (set_recv_data s rd))) as [[? ?]|]; [|by left]. right.
      by eexists _, _.
    - right. by eexists _, _. }
  assert (∀ c, bool_decide (c = ch) = false → delete c (waiting s) !! ch = Some w) as Hdrop.
  { intros c Hc%bool_decide_eq_false. by rewrite lookup_delete_ne. }
  destruct a as [msg sent|msg|r|c|c|q|r|path|r q|r|r|path act q]; cbn [Rpc.step] in Hs.
  - unfold send_msg_w_rsp in Hs. destruct (expects_reply msg); [|done].
    destruct (allocate_idx (serial s)) as [[? ?]|]; [|done]. injection Hs as <-.
    cbn. destruct sent; [|done]. rewrite lookup_insert_ne; [done|]. intros <-.
    pose proof (call_bound _ _ _ (ok_calls _ _ Hok) (next_channel s) ltac:(left; by exists w)). lia.
  - unfold send_msg_wo_rsp in Hs. destruct (expects_reply msg); [done|].
    destruct (allocate_idx (serial s)) as [[? ?]|]; [|done]. by injection Hs as <-.
  - by injection Hs as <-.
  - unfold poll_response, poll_future in Hs. cbn in Ht.
    destruct (waiting s !! c) as [[idx b]|]; cbn in Hs; [|done].
    destruct (oneshots _ !! c); [injection Hs as <-; by apply Hdrop|].
    destruct (decide _); [|done].
    destruct (Hget (res_pred idx)) as [Hg|(o & s1 & Hg & Hw1)]; rewrite Hg in Hs; [done|].
    cbn in Hs. destruct o as [[m|er|]|]; injection Hs as <-; cbn; rewrite Hw1; try by apply Hdrop.
    done.
  - cbn in Ht. destruct (waiting s !! c) as [[idx b]|]; cbn in Hs; [|done]. injection Hs as <-.
    by apply Hdrop.
  - injection Hs as <-. by destruct (take_queued _ q) as [[? ?]|].
  - destruct (Hget (sig_pred r)) as [Hg|(o & s1 & Hg & Hw1)]; rewrite Hg in Hs; [done|].
    injection Hs as <-. by rewrite Hw1.
  - destruct (Hget (call_pred dbg path)) as [Hg|(o & s1 & Hg & Hw1)]; rewrite Hg in Hs; [done|].
    injection Hs as <-. by rewrite Hw1.
  - destruct (insert_rule _ _ _); cbn in Hs; [by injection Hs as <-..|done].
  - destruct (remove_rule _ _); cbn in Hs; [by injection Hs as <-..|done].
  - destruct (rollback_rule _ _); cbn in Hs; [by injection Hs as <-..|done].
  - destruct (insert_path _ _ _ _ _); cbn in Hs; [by injection Hs as <-..|done].
Qed.

Lemma run_waiting n s l s' ch w :
  conn_ok n s → (N.of_nat (n + length l) < u32_mod)%N →
  Rpc.run dbg hash_iter s l = Some s' → existsb (touches ch) l = false →
  waiting s !! ch = Some w → waiting s' !! ch = Some w.
Proof.
  revert n s. induction l as [|a l IH]; intros n s Hok Hn; cbn [Rpc.run existsb length] in *;
    [by intros [= <-]|].
  destruct (Rpc.step _ _ s a) as [s1|] eqn:Hs; [|done]. cbn [mbind option_bind].
  intros Hr [Ht Hl]%orb_false_iff Hw.
  destruct (step_ok dbg hash_iter n s a s1 Hok ltac:(unfold u32_mod in *; lia) Hs) as (m & Hm & Hok1).
  eapply (IH m); [done|lia|done..|]. exact (step_waiting n s a s1 ch w Hok Hs Ht Hw).
Qed.

Lemma conn_ok_same n s rd : conn_ok n s → same_calls (recv_data s) rd → conn_ok n (set_recv_data s rd).
Proof.
  intros Hok (Hr & Ho & Hs). apply conn_ok_recv; [done| |by rewrite Hs].
  eapply calls_ok_same; [apply Hok|done..].
Qed.

(** Results of a call and of a wait. *)
Lemma wp_call_err {A} (Q : io_result A → RpcConn → Prop) msg k s s' e :
  wp Q (Call msg k) s → R s s' → wp Q (Ret (Err e)) s'.
Proof. intros [He _] Hs. by apply He. Qed.

Lemma wp_fetch_err {A} (Q : io_result A → RpcConn → Prop) q open pred k s s' e :
  wp Q (Fetch q open pred k) s → R s s' → wp Q (Ret (Err e)) s'.
Proof. intros [He _] Hs. by apply He. Qed.

Lemma running_ok {A} (Q : io_result A → RpcConn → Prop) p s : wp Q p s → task_ok Q (Running p) s.
Proof. by exists s. Qed.

(** The queue is read, closed or empty. *)
Lemma poll_queue_sound {A} (Q : io_result A → RpcConn → Prop) n q open pred k s0 s r rd :
  conn_ok n s → R s0 s → wp Q (Fetch q open pred k) s0 →
  poll_queue (recv_data s) q open = Some (r, rd) →
  conn_ok n (set_recv_data s rd) ∧ task_ok Q (Running (resume r k)) (set_recv_data s rd).
Proof.
  intros Hok Hs Hwp Hp. pose proof (poll_queue_same _ _ _ _ _ Hp) as Hsame.
  apply poll_queue_spec in Hp as [Hrd Hr]. split; [by apply conn_ok_same|].
  pose proof (set_recv_data_reading s rd Hrd) as Hread. apply running_ok.
  destruct r as [msg|e|]; [| |done]; cbn [resume].
  - destruct Hr as (l & Hl & _). apply (proj2 (proj2 Hwp) msg s); [done..|left; by exists l].
  - apply (wp_fetch_err Q q open pred k s0); [done|]. etrans; [exact Hs|]. by apply rely_reading.
Qed.

(** One resumption of each kind of task, from the state [s1] the others leave. *)
Lemma call_sound {A} (Q : io_result A → RpcConn → Prop) msg k m s0 s1 (r : io_result unit) t' s' :
  conn_ok m s1 → (N.of_nat m < u32_mod - 1)%N → R s0 s1 → wp Q (Call msg k) s0 →
  match r with
  | Ok _ => s' ← send_msg_w_rsp s1 msg true; Some (Waiting (next_channel s1) k, s')
  | Err e => s' ← send_msg_w_rsp s1 msg false; Some (Running (Ret (Err e)), s')
  | Panic => None
  end = Some (t', s') →
  ∃ m2, m2 ≤ S m ∧ conn_ok m2 s' ∧ task_ok Q t' s'.
Proof.
  intros Hok1 Hm1 H01 Hwp.
  assert (∀ b s2, send_msg_w_rsp s1 msg b = Some s2 → R s0 s2 ∧ ∃ m2, m2 ≤ S m ∧ conn_ok m2 s2) as Hsend.
  { intros b s2 Hs2. split.
    - transitivity s1; [done|]. apply rely_reading. by eapply send_msg_w_rsp_reading.
    - exact (step_ok dbg hash_iter m s1 (ACall msg b) s2 Hok1 Hm1 Hs2). }
  destruct r as [[]|e|]; [| |done].
  - destruct (send_msg_w_rsp s1 msg true) as [s2|] eqn:Hs2; [|done]. intros [= <- <-].
    destruct (Hsend true s2 Hs2) as (Hr & m2 & Hm2 & Hok2).
    exists m2. split_and!; [done|done|]. split; [by eapply send_msg_w_rsp_waits|]. by exists s0, msg.
  - destruct (send_msg_w_rsp s1 msg false) as [s2|] eqn:Hs2; [|done]. intros [= <- <-].
    destruct (Hsend false s2 Hs2) as (Hr & m2 & Hm2 & Hok2).
    exists m2. split_and!; [done|done|]. apply running_ok. by apply (wp_call_err Q msg k s0).
Qed.

Lemma waiting_sound {A} (Q : io_result A → RpcConn → Prop) ch k msg m s0 s1 (r : io_result unit) t' s' :
  conn_ok m s1 → R s0 s1 → wp Q (Call msg k) s0 →
  match r with
  | Ok _ =>
      '(r, s') ← poll_future dbg hash_iter s1 ch;
      Some (match r with Some r => Running (resume r k) | None => Waiting ch k end, s')
  | Err e => '(idx, _) ← waiting s1 !! ch; Some (Running (Ret (Err e)), drop_future s1 ch idx)
  | Panic => None
  end = Some (t', s') →
  ∃ m2, m2 ≤ S m ∧ conn_ok m2 s' ∧ task_ok Q t' s'.
Proof.
  intros Hok1 H01 Hwp. destruct r as [[]|e|]; [| |done].
  - destruct (poll_future _ _ s1 ch) as [[r s2]|] eqn:Hp; [|done]. intros [= <- <-].
    pose proof (poll_future_reading _ _ _ _ _ _ Hp) as Hread.
    apply (poll_future_ok _ _ m) in Hp as (m2 & idx & b & Hm2 & _ & Hok2 & Hidx & Hr); [|done].
    assert (R s0 s2) as H02 by (transitivity s1; [done|]; by apply rely_reading).
    exists m2. split_and!; [lia|done|]. destruct r as [[a|e|]|]; [| |done|].
    + apply running_ok. apply Hwp; [done|]. destruct Hr as (Ha & u & Hf).
      exists idx, b, u. rewrite Hf. split; [set_solver|done].
    + apply running_ok. by apply (wp_call_err Q msg k s0).
    + destruct Hr as [_ Hw2]. split; [rewrite Hw2; by eexists|]. by exists s0, msg.
  - destruct (waiting s1 !! ch) as [[idx b]|] eqn:Hidx; [|done]. intros [= <- <-].
    exists m. split_and!; [lia|by eapply conn_ok_drop|]. apply running_ok.
    apply (wp_call_err Q msg k s0); [done|]. transitivity s1; [done|].
    apply rely_reading, drop_future_reading.
Qed.

Lemma fetching_sound {A} (Q : io_result A → RpcConn → Prop) q open pred k m s0 s1
    (r : io_result unit) t' s' :
  conn_ok m s1 → R s0 s1 → wp Q (Fetch q open pred k) s0 →
  match r with
  | Ok _ =>
      match poll_queue (recv_data s1) q open with
      | Some (r, rd) => Some (Running (resume r k), set_recv_data s1 rd)
      | None =>
          '(r, s') ← get_msg_step dbg hash_iter s1 pred;
          Some (match r with Some r => Running (resume r k) | None => Fetching q open pred k end, s')
      end
  | Err e => Some (Running (Ret (Err e)), s1)
  | Panic => None
  end = Some (t', s') →
  ∃ m2, m2 ≤ S m ∧ conn_ok m2 s' ∧ task_ok Q t' s'.
Proof.
  intros Hok1 H01 Hwp. destruct r as [[]|e|]; [| |done].
  - destruct (poll_queue _ q open) as [[r rd]|] eqn:Hp.
    { intros [= <- <-]. exists m. split; [lia|]. by eapply poll_queue_sound. }
    destruct (get_msg_step _ _ s1 pred) as [[r s2]|] eqn:Hg; [|done]. intros [= <- <-].
    pose proof (get_msg_step_reading _ _ _ _ _ _ Hg) as [Hread Hpred].
    assert (R s0 s2) as H02 by (transitivity s1; [done|]; by apply rely_reading).
    destruct (get_other_ok dbg hash_iter m s1 pred s2 Hok1 (proj1 (proj2 Hwp))) as (m2 & Hm2 & _ & Hok2);
      [by rewrite Hg|].
    exists m2. split_and!; [lia|done|]. destruct r as [[a|e|]|].
    + apply running_ok. apply (proj2 (proj2 Hwp) a s1); [done..|right; by apply Hpred].
    + apply running_ok. by apply (wp_fetch_err Q q open pred k s0).
    + by destruct (get_msg_step_kept _ _ _ _ _ _ Hg).
    + by exists s0.
  - intros [= <- <-]. exists m. split_and!; [lia|done|]. apply running_ok.
    by apply (wp_fetch_err Q q open pred k s0).
Qed.

Lemma client_step_sound {A} (Q : io_result A → RpcConn → Prop) (t : task A) w n s t' s' :
  conn_ok n s → (N.of_nat (n + S (length (others w))) < u32_mod)%N → turn_ok w →
  task_ok Q t s → client_step dbg hash_iter t w s = Some (t', s') →
  ∃ m, m ≤ n + S (length (others w)) ∧ conn_ok m s' ∧ task_ok Q t' s'.
Proof.
  intros Hok Hn Hw Ht. unfold client_step.
  destruct (Rpc.run _ _ s (others w)) as [s1|] eqn:Hrun; [|done]. cbn [mbind option_bind].
  pose proof (run_rely _ _ _ Hw Hrun) as HR.
  destruct (run_ok dbg hash_iter n s (others w) s1 Hok ltac:(lia) Hrun) as (m & Hm & Hok1).
  assert (N.of_nat m < u32_mod - 1)%N as Hm1 by (unfold u32_mod in *; lia).
  assert ((∃ m2, m2 ≤ S m ∧ conn_ok m2 s' ∧ task_ok Q t' s') →
    ∃ m2, m2 ≤ n + S (length (others w)) ∧ conn_ok m2 s' ∧ task_ok Q t' s') as Hle
    by (intros (m2 & ? & ?); exists m2; split; [lia|done]).
  destruct t as [[r|f|msg k|q open pred k]|ch k|q open pred k]; cbn [task_ok] in Ht.
  - destruct Ht as (s0 & H0 & Hwp). intros [= <- <-]. exists m. split_and!; [lia|done|].
    exists s0. split; [by transitivity s|done].
  - destruct Ht as (s0 & H0 & Hwp). cbn [wp] in Hwp.
    specialize (Hwp s1 ltac:(by transitivity s)). destruct (f (recv_data s1)) as [p rd].
    destruct Hwp as [Hsame Hwp]. intros [= <- <-]. exists m. split_and!; [lia|by apply conn_ok_same|].
    by apply running_ok.
  - destruct Ht as (s0 & H0 & Hwp). intros He. apply Hle.
    by apply (call_sound Q msg k m s0 s1 (io w)); [|done|transitivity s| |].
  - destruct Ht as (s0 & H0 & Hwp). assert (R s0 s1) as H01 by (by transitivity s).
    destruct (poll_queue _ q open) as [[r rd]|] eqn:Hp; intros [= <- <-]; exists m;
      (split; [lia|]).
    + by eapply poll_queue_sound.
    + split; [done|]. by exists s0.
  - destruct Ht as (Hch & s0 & msg & H0 & Hwp). destruct (existsb _ _); [done|].
    intros He. apply Hle. by apply (waiting_sound Q ch k msg m s0 s1 (io w)); [|transitivity s| |].
  - destruct Ht as (s0 & H0 & Hwp). intros He. apply Hle.
    by apply (fetching_sound Q q open pred k m s0 s1 (io w)); [|transitivity s| |].
Qed.

(** The steps of a script, its own and the others'. *)
Definition work (script : list turn) : nat := sum_list_with (λ w, S (length (others w))) script.

Lemma exec_sound {A} (Q : io_result A → RpcConn → Prop) script (t : task A) n s t' s' :
  conn_ok n s → (N.of_nat (n + work script) < u32_mod)%N → Forall turn_ok script →
  task_ok Q t s → exec dbg hash_iter t script s = Some (t', s') →
  task_ok Q t' s' ∧ ∃ m, m ≤ n + work script ∧ conn_ok m s'.
Proof.
  intros Hok Hn Hscript. revert t n s Hok Hn. unfold work.
  induction Hscript as [|w script Hw _ IH]; intros t n s Hok Hn Ht; cbn [exec sum_list_with] in *.
  { intros [= <- <-]. split; [done|]. exists n. split; [lia|done]. }
  destruct (client_step _ _ t w s) as [[t1 s1]|] eqn:Hstep; [|done]. cbn [mbind option_bind].
  apply (client_step_sound Q t w n) in Hstep as (m & Hm & Hok1 & Ht1); [|done|lia|done..].
  intros He. destruct (IH t1 m s1 Hok1 ltac:(lia) Ht1 He) as (Ht' & m' & Hm' & Hok').
  split; [done|]. exists m'. split; [lia|done].
Qed.

(** The result of a finished program is in [Q], at a state from which the others went on. *)
Lemma exec_result {A} (Q : io_result A → RpcConn → Prop) p script n s r s' :
  conn_ok n s → (N.of_nat (n + work script) < u32_mod)%N → Forall turn_ok script →
  wp Q p s → exec dbg hash_iter (Running p) script s = Some (Running (Ret r), s') →
  ∃ s1, R s1 s' ∧ Q r s1.
Proof.
  intros Hok Hn Hs Hwp He.
  by destruct (exec_sound Q script _ n s _ s' Hok Hn Hs (running_ok Q p s Hwp) He) as [Ht _].
Qed.
End logic.

(** ** The rules *)

Definition has_rule (r : MatchRule) (s : RpcConn) : bool :=
  existsb (λ x, rule_eq x r) (sig_matches (recv_data s)).

Lemma existsb_holds l : holds l (λ r, existsb (λ x, rule_eq x r) l).
Proof.
  intros r. rewrite existsb_exists.
  by split; intros (x & Hx & He); exists x; rewrite list_elem_of_In in *.
Qed.

Lemma has_rule_holds s : holds (sig_matches (recv_data s)) (λ r, has_rule r s).
Proof. apply existsb_holds. Qed.

Lemma rule_eq_refl r : rule_eq r r = true.
Proof. by apply rule_eq_iff. Qed.

Lemma has_rule_iff r s :
  has_rule r s = true ↔ ∃ x, x ∈ sig_matches (recv_data s) ∧ rule_eq x r = true.
Proof. symmetry. apply has_rule_holds. Qed.

(** The edits of the rules, as the operations of MatchRule.v. *)
Definition rule_edit (a : action) : option rule_op :=
  match a with
  | AInsertRule r q => Some (RInsert r q)
  | ARemoveRule r => Some (RRemove r)
  | ARollbackRule r => Some (RRollback r)
  | _ => None
  end.

Definition path_edit (a : action) : option (bytes * CallAction * queue) :=
  match a with AInsertCallPath path act q => Some (path, act, q) | _ => None end.

Section rules.
Context `{BasicMarshal} (dbg : bool)
  (hash_iter : gmap bytes CallHierarchy → list (bytes * CallHierarchy)).
Context (N : option bytes → Prop) (HN : coherent (in_ns N)).

(** A step that edits neither the rules nor the paths. *)
Lemma step_reading s a s' :
  Rpc.step dbg hash_iter s a = Some s' → rule_edit a = None → path_edit a = None → reading s s'.
Proof.
  intros Hs Ha Hp.
  destruct a as [msg sent|msg|r|c|c|q|r|path|r q|r|r|path act q]; cbn [Rpc.step] in Hs; try done.
  - by eapply send_msg_w_rsp_reading.
  - unfold send_msg_wo_rsp in Hs. destruct (expects_reply msg); [done|].
    destruct (allocate_idx (serial s)) as [[? ?]|]; [|done]. injection Hs as <-. by same_reading.
  - injection Hs as <-. by same_reading.
  - unfold poll_response in Hs. destruct (poll_future _ _ s c) as [[r s1]|] eqn:Hpoll; [|done].
    injection Hs as <-. by eapply poll_future_reading.
  - destruct (waiting s !! c) as [[idx b]|]; cbn in Hs; [|done]. injection Hs as <-.
    apply drop_future_reading.
  - injection Hs as <-. pose proof (poll_queue_spec (recv_data s) q (λ _, true)) as Hq.
    unfold poll_queue in Hq. destruct (take_queued _ q) as [[msg rd]|]; [|done].
    apply set_recv_data_reading. by destruct (Hq _ _ eq_refl).
  - destruct (get_msg_step _ _ s _) as [[o s1]|] eqn:Hg; [|done]. injection Hs as <-.
    by eapply get_msg_step_reading.
  - destruct (get_msg_step _ _ s _) as [[o s1]|] eqn:Hg; [|done]. injection Hs as <-.
    by eapply get_msg_step_reading.
Qed.

(** Another task edits only rules different from [r]. *)
Definition edits_other (r : MatchRule) (a : action) : Prop :=
  match rule_edit a with
  | Some op => op_ok N op ∧ rule_eq (op_rule op) r = false
  | None => True
  end.

(** The rely of an operation on [r]: the list stays in order, and nobody else
    inserts or removes [r]. *)
Definition keeps_rule (r : MatchRule) (s s' : RpcConn) : Prop :=
  finished s `suffix_of` finished s' ∧
  (rules_ok N (sig_matches (recv_data s)) →
   rules_ok N (sig_matches (recv_data s')) ∧ has_rule r s' = has_rule r s).

#[export] Instance keeps_rule_rely r : Rely (keeps_rule r).
Proof.
  split; [split|].
  - by split.
  - intros s1 s2 s3 [F1 H1] [F2 H2]. split; [by etrans|]. intros Hs.
    destruct (H1 Hs) as [H3 H4]. destruct (H2 H3) as [H5 H6]. split; [done|congruence].
  - intros s s' [(Hm & _) Hf]. unfold keeps_rule, has_rule. by rewrite Hm.
Qed.

(** A step that edits no rule. *)
Lemma step_no_rule s a s' :
  Rpc.step dbg hash_iter s a = Some s' → rule_edit a = None →
  sig_matches (recv_data s') = sig_matches (recv_data s) ∧ finished s `suffix_of` finished s'.
Proof.
  intros Hs Ha. destruct (path_edit a) as [[[path act] q]|] eqn:Hp.
  - destruct a; try done. cbn [Rpc.step] in Hs.
    destruct (insert_path _ _ _ _ _); cbn in Hs; [by injection Hs as <-..|done].
  - by destruct (step_reading _ _ _ Hs Ha Hp) as [(? & _) ?].
Qed.

(** An edit of the list, on the set of the rules. *)
Lemma edit_rule_op s op (m : io_result (list MatchRule)) s' :
  run_rule_op (sig_matches (recv_data s)) op =
    match m with Ok l => Ok l | Err _ => Ok (sig_matches (recv_data s)) | Panic => Panic end →
  op_ok N op → edit_with s m set_sig_matches = Some s' →
  rules_ok N (sig_matches (recv_data s)) →
  rules_ok N (sig_matches (recv_data s')) ∧
  ∀ r, has_rule r s' = present_step r (has_rule r s) op.
Proof.
  intros Hm Hop He Hs.
  destruct (run_rule_op_ok N HN _ _ op Hs Hop (has_rule_holds s)) as (l' & Hl & Hok & Hh).
  rewrite Hl in Hm. assert (sig_matches (recv_data s') = l') as Hl'.
  { destruct m as [l|e|]; cbn in He; [|congruence..]. injection He as <-. by injection Hm as <-. }
  rewrite Hl'. split; [done|]. intros r. apply eq_true_iff_eq.
  rewrite <- (Hh r), <- Hl'. symmetry. apply has_rule_holds.
Qed.

Lemma rule_edit_step s a op :
  rule_edit a = Some op → ∃ m : io_result (list MatchRule),
    Rpc.step dbg hash_iter s a = edit_with s m set_sig_matches ∧
    run_rule_op (sig_matches (recv_data s)) op =
      match m with Ok l => Ok l | Err _ => Ok (sig_matches (recv_data s)) | Panic => Panic end.
Proof.
  destruct a; cbn [rule_edit]; intros [= <-]; cbn [Rpc.step run_rule_op];
    eexists; (split; [reflexivity|]); unfold run_rule_op;
    [destruct (insert_rule _ _ _)|destruct (remove_rule _ _)|destruct (rollback_rule _ _)];
    reflexivity.
Qed.

Lemma step_keeps_rule r a s s' :
  edits_other r a → Rpc.step dbg hash_iter s a = Some s' → keeps_rule r s s'.
Proof.
  unfold edits_other. intros Ha Hs.
  destruct (rule_edit a) as [op|] eqn:Hop.
  2: { destruct (step_no_rule _ _ _ Hs Hop) as [Hm Hf]. unfold keeps_rule, has_rule. by rewrite Hm. }
  destruct Ha as [Hok Hne].
  destruct (rule_edit_step s a op Hop) as (m & Hst & Hm). rewrite Hst in Hs. rename Hs into He.
  split.
  { destruct m as [?|?|]; cbn in He; [by injection He as <-..|done]. }
  intros Hrs. destruct (edit_rule_op s op m s' Hm Hok He Hrs) as [Hrs' Hh].
  split; [done|]. rewrite Hh.
  destruct op as [r' q|r'|r']; cbn in Hne |- *; rewrite Hne; by destruct (has_rule r s).
Qed.

Lemma rollback_rule_ok l r :
  rules_ok N l → op_ok N (RRollback r) → ∃ l', rollback_rule l r = Ok l' ∧ run_rule_op l (RRollback r) = Ok l'.
Proof.
  intros Hl Hop. destruct (run_rule_op_ok N HN l _ _ Hl Hop (existsb_holds l)) as (l' & Hr & _).
  exists l'. split; [|done]. unfold run_rule_op in Hr. unfold rollback_rule in *.
  by destruct (find_rule l r).
Qed.

Lemma turn_keeps_rule r script :
  Forall (λ w, Forall (edits_other r) (others w)) script →
  Forall (turn_ok dbg hash_iter (keeps_rule r)) script.
Proof.
  intros Hs. eapply Forall_impl; [exact Hs|]. intros w Hw a s s' Ha. rewrite Forall_forall in Hw.
  apply step_keeps_rule. by apply Hw.
Qed.
End rules.

(** ** Adding and removing rules *)

Section match_ops.
Context `{BasicMarshal} (dbg : bool)
  (hash_iter : gmap bytes CallHierarchy → list (bytes * CallHierarchy)).
Context {Ty : Type} `{EqDecision Ty}
  (parse_description : bytes → outcome UnmarshalError (list Ty))
  (is_empty_signature : UnmarshalError → bool) (str_value : Unmarshal (Ty:=Ty) bytes).
Context (N : option bytes → Prop) (HN : coherent (in_ns N)).

#[local] Abbreviation insert_sig_match :=
  (insert_sig_match parse_description is_empty_signature str_value).
#[local] Abbreviation remove_sig_match :=
  (remove_sig_match parse_description is_empty_signature str_value).

(** The bus answered with a message of type [t]; its body cannot be parsed. *)
Definition got (t : MessageType) (s : RpcConn) : Prop := ∃ msg, answered msg s ∧ typ msg = t.

Definition got_unreadable (s : RpcConn) : Prop :=
  ∃ msg, answered msg s ∧
    body_get parse_description is_empty_signature str_value (m_body msg) = Panic.

Lemma bus_error_result {A} kind msg s (r : io_result A) :
  answered msg s → bus_error parse_description is_empty_signature str_value kind msg = r →
  r = Err kind ∨ (r = Panic ∧ got_unreadable s).
Proof.
  unfold bus_error, got_unreadable. intros Ha <-.
  destruct (body_get _ _ _ _) eqn:Hb; eauto 6.
Qed.

Lemma push_text_no_err {E} name text (e : E) : push_text name text ≠ Err e.
Proof.
  unfold push_text, push_unwrap. by destruct (push_param _ _) as [? [?|?|]].
Qed.

(** What [insert_sig_match] of a rule leaves, where [had] tells whether it was there, by
    how it ended: [Ok] and its own result, or [Err] when the call to the bus failed. *)
Definition insert_own (r : MatchRule) (had : bool) (res : io_result (io_result unit))
    (s : RpcConn) : Prop :=
  rules_ok N (sig_matches (recv_data s)) ∧
  match res with
  | Ok (Ok _) => had = false ∧ has_rule r s = true ∧ got TReply s
  | Ok (Err e) =>
      (had = true ∧ e = InvalidInput ∧ has_rule r s = true) ∨
      (had = false ∧ e = Other ∧ has_rule r s = false ∧ got TError s)
  | Ok Panic =>
      had = false ∧ (add_match (E:=ErrorKind) (match_string r) = Panic ∨ got_unreadable s)
  | Err _ => had = false ∧ has_rule r s = true
  | Panic => False
  end.

Lemma insert_own_later r had res s s' :
  keeps_rule N r s s' → insert_own r had res s → insert_own r had res s'.
Proof.
  intros [Hf HR] [Hs Hr]. destruct (HR Hs) as [Hs' Hh]. split; [done|].
  assert (∀ t, got t s → got t s') as Hg
    by (intros t (m & Hm & ?); exists m; split; [by eapply answered_later|done]).
  assert (got_unreadable s → got_unreadable s') as Hu
    by (intros (m & Hm & ?); exists m; split; [by eapply answered_later|done]).
  rewrite Hh. destruct res as [[|e|]|e|]; intuition.
Qed.

Lemma set_rules_same s l : same_calls (recv_data s) (set_sig_matches (recv_data s) l).
Proof. done. Qed.

(** The list after an edit that succeeds, as the set of its rules. *)
Lemma insert_rule_has r q s l :
  op_ok N (RInsert r q) → rules_ok N (sig_matches (recv_data s)) →
  insert_rule (sig_matches (recv_data s)) r q = Ok l →
  has_rule r s = false ∧
  let s' := set_recv_data s (set_sig_matches (recv_data s) l) in
  rules_ok N (sig_matches (recv_data s')) ∧ has_rule r s' = true.
Proof.
  intros Hop Hs Hl. pose proof (insert_rule_result N HN _ r q Hs (proj1 Hop) (proj2 Hop)) as Hi.
  rewrite Hl in Hi. destruct Hi as (Hno & Hok & _). split.
  - apply not_true_iff_false. rewrite has_rule_iff. intros (x & Hx & He). by rewrite (Hno x Hx) in He.
  - destruct (edit_rule_op N HN s (RInsert r q) (Ok l) (set_recv_data s (set_sig_matches (recv_data s) l)))
      as [_ Hh]; [|done..|].
    { unfold run_rule_op. by rewrite Hl. }
    split; [done|]. rewrite Hh. cbn. by rewrite rule_eq_refl, orb_true_r.
Qed.

Lemma remove_rule_has r op s l :
  op = RRemove r ∨ op = RRollback r → op_ok N op → rules_ok N (sig_matches (recv_data s)) →
  run_rule_op (sig_matches (recv_data s)) op = Ok l →
  let s' := set_recv_data s (set_sig_matches (recv_data s) l) in
  rules_ok N (sig_matches (recv_data s')) ∧ has_rule r s' = false.
Proof.
  intros Hr Hop Hs Hl.
  destruct (edit_rule_op N HN s op (Ok l) (set_recv_data s (set_sig_matches (recv_data s) l)))
    as [Hok Hh]; [done..|]. split; [done|]. rewrite Hh.
  destruct Hr as [-> | ->]; cbn; by rewrite rule_eq_refl, andb_false_r.
Qed.

Lemma insert_sig_match_wp r q s :
  op_ok N (RInsert r q) → rules_ok N (sig_matches (recv_data s)) →
  wp (keeps_rule N r) (insert_own r (has_rule r s)) (own (insert_sig_match r q)) s.
Proof.
  intros Hop Hs s1 [_ HR]. destruct (HR Hs) as [Hs1 <-]. clear HR Hs s.
  pose proof (insert_rule_result N HN _ r q Hs1 (proj1 Hop) (proj2 Hop)) as Hi.
  destruct (insert_rule _ r q) as [l|e|] eqn:Hl; [| |done].
  2: { destruct Hi as [-> Hx]. apply has_rule_iff in Hx. split; [done|]. split; [done|by left]. }
  destruct (insert_rule_has r q s1 l Hop Hs1 Hl) as (-> & Hs2 & Hh2).
  split; [apply set_rules_same|]. set (s2 := set_recv_data s1 _) in *.
  assert (∀ s3, keeps_rule N r s2 s3 → rules_ok N (sig_matches (recv_data s3)) ∧ has_rule r s3 = true)
    as Hkeep by (intros s3 [_ HR]; destruct (HR Hs2) as [? ->]; done).
  destruct (add_match _) as [msg|e|] eqn:Hadd; cbn [call_built own wp].
  - split; [intros e s3 H3; by destruct (Hkeep s3 H3)|].
    intros res s3 H3 Ha. destruct (Hkeep s3 H3) as [Hs3 Hh3].
    destruct (answered_typ _ _ Ha) as [Ht|Ht]; rewrite Ht; [by split; [|split_and!; [..|by exists res]]|].
    cbn [locked own]. intros s4 H4. assert (rules_ok N (sig_matches (recv_data s4))) as Hs4
      by (by destruct (proj2 H4 Hs3)).
    destruct (rollback_rule_ok N HN (sig_matches (recv_data s4)) r Hs4 Hop) as (l4 & -> & Hl4).
    split; [apply set_rules_same|].
    destruct (remove_rule_has r (RRollback r) s4 l4 (or_intror eq_refl) Hop Hs4 Hl4) as [Hs5 Hh5].
    set (s5 := set_recv_data s4 _) in *.
    assert (answered res s5) as Ha5 by (apply (answered_later _ s3); [apply H4|done]).
    cbn [own wp]. split; [done|].
    destruct (bus_error_result (A:=unit) Other res s5 _ Ha5 eq_refl) as [-> |[-> Hu]]; [|by auto].
    right. split_and!; [done..|by exists res].
  - by apply push_text_no_err in Hadd.
  - split; [done|]. by split; [|left].
Qed.

(** What [remove_sig_match] leaves. *)
Definition remove_post (r : MatchRule) (had : bool) (res : io_result unit) (s : RpcConn) : Prop :=
  rules_ok N (sig_matches (recv_data s)) ∧ has_rule r s = false ∧
  match res with
  | Ok _ => had = true ∧ got TReply s
  | Err e => (had = false ∧ e = InvalidInput) ∨ had = true
  | Panic => had = true ∧
      (remove_match (E:=ErrorKind) (match_string r) = Panic ∨ got_unreadable s)
  end.

Lemma remove_post_later r had res s s' :
  keeps_rule N r s s' → remove_post r had res s → remove_post r had res s'.
Proof.
  intros [Hf HR] (Hs & Hh & Hr). destruct (HR Hs) as [Hs' Hh']. unfold remove_post.
  rewrite Hh'. split_and!; [done..|].
  assert (got TReply s → got TReply s') as Hg
    by (intros (m & Hm & ?); exists m; split; [by eapply answered_later|done]).
  assert (got_unreadable s → got_unreadable s') as Hu
    by (intros (m & Hm & ?); exists m; split; [by eapply answered_later|done]).
  destruct res as [|e|]; intuition.
Qed.

Lemma remove_sig_match_wp r s :
  op_ok N (RRemove r) → rules_ok N (sig_matches (recv_data s)) →
  wp (keeps_rule N r) (remove_post r (has_rule r s)) (remove_sig_match r) s.
Proof.
  intros Hop Hs s1 [_ HR]. destruct (HR Hs) as [Hs1 <-]. clear HR Hs s.
  pose proof (remove_rule_result N HN _ r Hs1 (proj1 Hop)) as Hi.
  destruct (remove_rule _ r) as [l|e|] eqn:Hl; [| |done].
  2: { destruct Hi as [-> Hx]. split; [done|]. assert (has_rule r s1 = false) as Hh.
       { apply not_true_iff_false. rewrite has_rule_iff. intros (x & Hin & He). by rewrite (Hx x Hin) in He. }
       rewrite Hh. split_and!; [done..|by left]. }
  assert (has_rule r s1 = true) as Hh1.
  { destruct Hi as (_ & x & He & Hp). apply has_rule_iff. exists x. rewrite Hp. split; [set_solver|done]. }
  destruct (remove_rule_has r (RRemove r) s1 l) as [Hs2 Hh2]; [by left|done..|by unfold run_rule_op; rewrite Hl|].
  split; [apply set_rules_same|]. set (s2 := set_recv_data s1 _) in *. rewrite Hh1.
  assert (∀ s3, keeps_rule N r s2 s3 → rules_ok N (sig_matches (recv_data s3)) ∧ has_rule r s3 = false)
    as Hkeep by (intros s3 [_ HR]; destruct (HR Hs2) as [? ->]; done).
  destruct (remove_match _) as [msg|e|] eqn:Hadd; cbn [call_built wp].
  - split; [intros e s3 H3; destruct (Hkeep s3 H3); split_and!; [done..|by right]|].
    intros res s3 H3 Ha. destruct (Hkeep s3 H3) as [Hs3 Hh3].
    destruct (answered_typ _ _ Ha) as [Ht|Ht]; rewrite Ht; cbn [wp];
      [split_and!; [done..|by exists res]|].
    destruct (bus_error_result (A:=unit) Other res s3 _ Ha eq_refl) as [-> |[-> Hu]];
      (split_and!; [done..|]); auto.
  - by apply push_text_no_err in Hadd.
  - split_and!; [done..|by left].
Qed.

Lemma insert_sig_match_sound r q script n s res s' :
  op_ok N (RInsert r q) → rules_ok N (sig_matches (recv_data s)) →
  conn_ok n s → (N.of_nat (n + work script) < u32_mod)%N →
  Forall (λ w, Forall (edits_other N r) (others w)) script →
  exec dbg hash_iter (Running (own (insert_sig_match r q))) script s = Some (Running (Ret res), s') →
  insert_own r (has_rule r s) res s'.
Proof.
  intros Hop Hs Hok Hn Hscript He.
  destruct (exec_result dbg hash_iter (keeps_rule N r) _ _ script n s res s' Hok Hn
    (turn_keeps_rule dbg hash_iter N HN r script Hscript) (insert_sig_match_wp r q s Hop Hs) He)
    as (s1 & HR & HQ).
  by eapply insert_own_later.
Qed.

(** C10: [insert_sig_match], over coherent namespaces, whatever other tasks do while it waits
    for the lock and for the bus: as long as they edit other rules, the list stays sorted by
    specificity, and the operation ends in one of these ways and no other.  [Ok]: the rule
    was new, is in the list, and the bus replied.  [InvalidInput] of its own: the rule was
    there, and is.  [Other] of its own: the rule was new, the bus answered with an error,
    and the rule is out again.  An error that is not its own ([own] ends with [Err]) but one
    of the call: the rule was new, and stays in the list.  A panic, with a new rule: a text
    that cannot be marshalled or an error reply that cannot be parsed; the [unreachable!] arm
    is not reached. *)
Theorem insert_sig_match_spec r q script n s res s' :
  op_ok N (RInsert r q) → rules_ok N (sig_matches (recv_data s)) →
  conn_ok n s → (N.of_nat (n + work script) < u32_mod)%N →
  Forall (λ w, Forall (edits_other N r) (others w)) script →
  exec dbg hash_iter (Running (insert_sig_match r q)) script s = Some (Running (Ret res), s') →
  let had := has_rule r s in
  let ends res' :=
    exec dbg hash_iter (Running (own (insert_sig_match r q))) script s = Some (Running (Ret res'), s') in
  rules_ok N (sig_matches (recv_data s')) ∧
  match res with
  | Ok _ => had = false ∧ has_rule r s' = true ∧ got TReply s'
  | Err e =>
      (ends (Ok (Err e)) ∧ had = true ∧ e = InvalidInput ∧ has_rule r s' = true) ∨
      (ends (Ok (Err e)) ∧ had = false ∧ e = Other ∧ has_rule r s' = false ∧ got TError s') ∨
      (ends (Err e) ∧ had = false ∧ has_rule r s' = true)
  | Panic =>
      had = false ∧ (add_match (E:=ErrorKind) (match_string r) = Panic ∨ got_unreadable s')
  end.
Proof.
  intros Hop Hs Hok Hn Hscript He had ends.
  destruct (exec_own dbg hash_iter _ _ _ _ _ He) as (res' & He' & Hres).
  destruct (insert_sig_match_sound r q script n s res' s' Hop Hs Hok Hn Hscript He') as [Hrules Hp].
  fold had in Hp. split; [done|]. destruct res' as [r'|e|]; [subst r'| |done].
  - destruct res as [[]|e|]; [done| |done]. destruct Hp as [?|?]; [left|right; left]; by split.
  - subst res. by right; right.
Qed.

(** [remove_sig_match] under the same interference: however it ends, the rule is not
    in the list; [InvalidInput] without a call if it was not there; [Ok] only if it was
    and the bus replied. *)
Theorem remove_sig_match_spec r script n s res s' :
  op_ok N (RRemove r) → rules_ok N (sig_matches (recv_data s)) →
  conn_ok n s → (N.of_nat (n + work script) < u32_mod)%N →
  Forall (λ w, Forall (edits_other N r) (others w)) script →
  exec dbg hash_iter (Running (remove_sig_match r)) script s = Some (Running (Ret res), s') →
  remove_post r (has_rule r s) res s'.
Proof.
  intros Hop Hs Hok Hn Hscript He.
  destruct (exec_result dbg hash_iter (keeps_rule N r) _ _ script n s res s' Hok Hn
    (turn_keeps_rule dbg hash_iter N HN r script Hscript) (remove_sig_match_wp r s Hop Hs) He)
    as (s1 & HR & HQ).
  by eapply remove_post_later.
Qed.
End match_ops.

(** ** Calls that nothing disturbs *)

Section undisturbed.
Context `{BasicMarshal} (dbg : bool)
  (hash_iter : gmap bytes CallHierarchy → list (bytes * CallHierarchy)).

(** A turn in which the others do nothing, and one before which [msg] arrives. *)
Definition alone : turn := MkTurn [] (Ok tt).
Definition arrival (msg : MarshalledMessage) : turn := MkTurn [AArrive (Ok msg)] (Ok tt).

(** What else a call leaves as it was. *)
Definition same_store (s s' : RpcConn) : Prop :=
  sig_matches (recv_data s') = sig_matches (recv_data s) ∧
  hierarchy (recv_data s') = hierarchy (recv_data s) ∧
  chans (recv_data s') = chans (recv_data s).

Lemma res_pred_answer idx msg h : is_answer idx msg → res_pred idx msg h = Ok true.
Proof.
  intros [Ht Hr]. unfold res_pred. destruct Ht as [-> | ->]; rewrite Hr; cbn;
    by rewrite bool_decide_eq_true_2.
Qed.

Lemma next_channel_free n s :
  conn_ok n s → waiting s !! next_channel s = None ∧ oneshots (recv_data s) !! next_channel s = None.
Proof.
  intros Hok. pose proof (call_bound _ _ _ (ok_calls _ _ Hok) (next_channel s)) as Hb.
  split; apply eq_None_not_Some; intros Hsome; [pose proof (Hb (or_introl Hsome))|pose proof (Hb (or_intror Hsome))]; lia.
Qed.

(** A call is sent, and answered by the next message. *)
Lemma call_undisturbed {A} (k : MarshalledMessage → prog A) msg answer n s :
  conn_ok n s → (N.of_nat n < u32_mod - 2)%N → inbox (recv_data s) = [] →
  expects_reply msg = true → is_answer (next_idx (serial s)) answer →
  ∃ s', exec dbg hash_iter (Running (Call msg k)) [alone; arrival answer] s =
      Some (Running (k answer), s') ∧
    outgoing s' = outgoing s ++ [msg] ∧ same_store s s' ∧ inbox (recv_data s') = [] ∧
    ∃ m, m ≤ S (S n) ∧ conn_ok m s'.
Proof.
  intros Hok Hn Hinbox Hexp Ha.
  destruct (ok_counter _ _ Hok) as [Hs _]. destruct (next_channel_free n s Hok) as [_ Ho].
  destruct (send_msg_w_rsp s msg true) as [s1|] eqn:Hsend.
  2: { unfold send_msg_w_rsp in Hsend. rewrite Hexp in Hsend.
       destruct (allocate_idx_spec _ Hs) as [Hal _]. by rewrite Hal in Hsend. }
  destruct (step_ok dbg hash_iter n s (ACall msg true) s1 Hok ltac:(unfold u32_mod in *; lia) Hsend)
    as (m & Hm & Hok1).
  assert (conn_ok m (set_recv_data s1 (set_inbox (recv_data s1) [Ok answer]))) as Hok2.
  { by apply conn_ok_same. }
  set (idx := next_idx (serial s)) in *. set (ch := next_channel s) in *.
  assert (waiting s1 !! ch = Some (idx, length (seen (recv_data s))) ∧
    oneshots (recv_data s1) !! ch = None ∧ reply_map (recv_data s1) !! idx = Some ch ∧
    inbox (recv_data s1) = [] ∧ same_store s s1 ∧ outgoing s1 = outgoing s ++ [msg])
    as (Hw & Ho1 & Hr1 & Hi1 & Hst & Hout).
  { unfold send_msg_w_rsp in Hsend. rewrite Hexp in Hsend.
    destruct (allocate_idx_spec _ Hs) as [Hal _]. rewrite Hal in Hsend. injection Hsend as <-.
    cbn. rewrite !lookup_insert_eq. by split_and!. }
  set (s2 := set_recv_data s1 _) in *.
  assert (∃ s3, poll_future dbg hash_iter s2 ch = Some (Some (Ok answer), s3) ∧
    outgoing s3 = outgoing s1 ∧ same_store s1 s3 ∧ inbox (recv_data s3) = [])
    as (s3 & Hp & Hout3 & Hst3 & Hi3).
  { unfold poll_future, s2. cbn [set_recv_data set_inbox waiting recv_data oneshots reply_map].
    rewrite Hw. cbn [mbind option_bind]. rewrite Ho1. destruct (decide _) as [_|Hne]; [|done].
    unfold get_msg_step. cbn [set_recv_data set_inbox recv_data inbox queue_msg].
    rewrite (res_pred_answer idx answer _ Ha). by eexists. }
  destruct (poll_future_ok dbg hash_iter m s2 ch _ s3 Hok2 Hp) as (m3 & _ & _ & Hm3 & _ & Hok3 & _).
  exists s3. split_and!; [|congruence| |done|exists m3; split; [lia|done]].
  2: { destruct Hst as (? & ? & ?), Hst3 as (? & ? & ?). split_and!; congruence. }
  assert (client_step dbg hash_iter (Running (Call msg k)) alone s = Some (Waiting ch k, s1)) as Hstep1
    by (unfold client_step; cbn [others alone Rpc.run mbind option_bind io]; by rewrite Hsend).
  assert (client_step dbg hash_iter (Waiting ch k) (arrival answer) s1 =
    Some (Running (k answer), s3)) as Hstep2.
  { unfold client_step. cbn [others arrival Rpc.run mbind option_bind io Rpc.step existsb touches orb].
    rewrite Hi1. cbn [app]. fold s2. by rewrite Hp. }
  cbn [exec]. rewrite Hstep1. cbn [mbind option_bind]. by rewrite Hstep2.
Qed.
Lemma exec_app {A} (t : task A) l1 l2 s :
  exec dbg hash_iter t (l1 ++ l2) s =
    '(t1, s1) ← exec dbg hash_iter t l1 s; exec dbg hash_iter t1 l2 s1.
Proof.
  revert t s. induction l1 as [|w l1 IH]; intros t s; cbn [exec app]; [done|].
  by destruct (client_step _ _ t w s) as [[t1 s1]|]; cbn [mbind option_bind].
Qed.

Lemma exec_locked {A} (f : RecvData → prog A * RecvData) s :
  exec dbg hash_iter (Running (Locked f)) [alone] s =
    Some (Running (f (recv_data s)).1, set_recv_data s (f (recv_data s)).2).
Proof. cbn. by destruct (f (recv_data s)). Qed.

(** The messages made for the bus are calls that expect a reply. *)
Lemma make_standard_msg_expects name b :
  expects_reply (set_body (make_standard_msg name) b) = true.
Proof. done. Qed.

Lemma push_text_expects {E} name text msg :
  push_text (E:=E) name text = Ok msg → expects_reply msg = true.
Proof.
  unfold push_text. rewrite bind_Ok_inv. intros (b & _ & [= <-]).
  apply make_standard_msg_expects.
Qed.

Lemma request_name_expects {E} name fl msg :
  request_name (E:=E) name fl = Ok msg → expects_reply msg = true.
Proof.
  unfold request_name. rewrite bind_Ok_inv. intros (b & _ & Hm).
  rewrite bind_Ok_inv in Hm. destruct Hm as (b' & _ & [= <-]). apply make_standard_msg_expects.
Qed.

Context {Ty : Type} `{EqDecision Ty}
  (parse_description : bytes → outcome UnmarshalError (list Ty))
  (is_empty_signature : UnmarshalError → bool)
  (str_value : Unmarshal (Ty:=Ty) bytes) (u32_value : Unmarshal (Ty:=Ty) N)
  (str2_value : Unmarshal (Ty:=Ty) (bytes * bytes)).

#[local] Abbreviation value := (body_get parse_description is_empty_signature).

#[local] Abbreviation name_reply := (name_reply parse_description is_empty_signature u32_value).
#[local] Abbreviation hello_reply :=
  (hello_reply parse_description is_empty_signature str_value str2_value).

Lemma name_reply_spec idx answer :
  is_answer idx answer →
  (name_reply answer = Ok true ↔ typ answer = TReply ∧
     ∃ v, value u32_value (m_body answer) = Ok v ∧ (v = 1 ∨ v = 4)%N) ∧
  (name_reply answer = Panic ↔ typ answer = TReply ∧ value u32_value (m_body answer) = Panic) ∧
  ∀ e, name_reply answer ≠ Err e.
Proof.
  unfold Client.name_reply. intros [[-> | ->] _];
    [rewrite bool_decide_eq_false_2 by done|rewrite bool_decide_eq_true_2 by done; naive_solver].
  destruct (value u32_value (m_body answer)) as [v|e|]; [|naive_solver..].
  unfold DBUS_REQUEST_NAME_REPLY_ALREADY_OWNER, DBUS_REQUEST_NAME_REPLY_PRIMARY_OWNER.
  split_and!; [|naive_solver..]. split.
  - intros [= [Hv|Hv]%orb_true_iff]; apply bool_decide_eq_true in Hv; eauto.
  - intros (_ & v' & [= <-] & [-> | ->]); done.
Qed.

Lemma hello_reply_spec idx answer :
  is_answer idx answer →
  (∀ auto, hello_reply answer = Ok auto ↔
     typ answer = TReply ∧ value str_value (m_body answer) = Ok auto) ∧
  (∀ e, hello_reply answer = Err e → e = ConnectionRefused).
Proof.
  unfold Client.hello_reply, bus_error. intros [[-> | ->] _];
    [destruct (value str_value _)|destruct (value str2_value _)]; naive_solver.
Qed.

(** the names of the bus.  A request, a release and the first Hello are over two turns
    after they are made when the answer is the next message.  The name is ours exactly
    when the answer is a reply that holds the number for the primary or the present
    owner; a release succeeds whatever the bus says; Hello gives the connection its name
    exactly when the reply holds a text, and otherwise refuses the connection. *)
Theorem bus_names_undisturbed n s answer name request release :
  conn_ok n s → (N.of_nat n < u32_mod - 2)%N → inbox (recv_data s) = [] →
  is_answer (next_idx (serial s)) answer →
  request_name (E:=ErrorKind) name DBUS_NAME_FLAG_DO_NOT_QUEUE = Ok request →
  release_name (E:=ErrorKind) name = Ok release →
  (∃ r s1, exec dbg hash_iter (Running (rpc_request_name parse_description is_empty_signature
        u32_value name)) [alone; arrival answer] s = Some (Running (Ret r), s1) ∧
     outgoing s1 = outgoing s ++ [request] ∧
     (r = Ok true ↔ typ answer = TReply ∧ ∃ v, value u32_value (m_body answer) = Ok v ∧
        (v = 1 ∨ v = 4)%N) ∧
     (r = Panic ↔ typ answer = TReply ∧ value u32_value (m_body answer) = Panic) ∧
     (∀ e, r ≠ Err e)) ∧
  (∃ s2, exec dbg hash_iter (Running (rpc_release_name name)) [alone; arrival answer] s =
      Some (Running (Ret (Ok ())), s2) ∧ outgoing s2 = outgoing s ++ [release]) ∧
  (∃ r s3, exec dbg hash_iter (Running (say_hello parse_description is_empty_signature
        str_value str2_value)) [alone; arrival answer] s = Some (Running (Ret r), s3) ∧
     outgoing s3 = outgoing s ++ [hello] ∧
     (∀ auto, r = Ok auto ↔ typ answer = TReply ∧ value str_value (m_body answer) = Ok auto) ∧
     (∀ e, r = Err e → e = ConnectionRefused)).
Proof.
  intros Hok Hn Hi Ha Hreq Hrel.
  assert (∀ A (k : MarshalledMessage → prog A) msg, expects_reply msg = true →
    ∃ s', exec dbg hash_iter (Running (Call msg k)) [alone; arrival answer] s =
      Some (Running (k answer), s') ∧ outgoing s' = outgoing s ++ [msg]) as Hcall.
  { intros A k msg Hexp.
    destruct (call_undisturbed k msg answer n s Hok Hn Hi Hexp Ha) as (s' & He & Hout & _).
    by exists s'. }
  unfold rpc_request_name, rpc_release_name, say_hello. rewrite Hreq, Hrel. cbn [call_built].
  split_and!.
  - destruct (Hcall _ (λ res, Ret (name_reply res)) request) as (s1 & -> & Hout);
      [by eapply request_name_expects|].
    exists (name_reply answer), s1. split_and!; [done..| | |]; by apply (name_reply_spec _ _ Ha).
  - apply Hcall. by eapply push_text_expects.
  - destruct (Hcall _ (λ res, Ret (hello_reply res)) hello) as (s3 & -> & Hout); [done|].
    exists (hello_reply answer), s3. split_and!; [done..| |]; by apply (hello_reply_spec _ _ Ha).
Qed.
End undisturbed.

(** ** A rule from start to end *)

Section rule_runs.
Context `{BasicMarshal} (dbg : bool)
  (hash_iter : gmap bytes CallHierarchy → list (bytes * CallHierarchy)).
Context {Ty : Type} `{EqDecision Ty}
  (parse_description : bytes → outcome UnmarshalError (list Ty))
  (is_empty_signature : UnmarshalError → bool) (str_value : Unmarshal (Ty:=Ty) bytes).
Context (N : option bytes → Prop) (HN : coherent (in_ns N)).

#[local] Abbreviation insert_sig_match :=
  (insert_sig_match parse_description is_empty_signature str_value).

(** Under the lock: the rule is entered, and the call is made next. *)
Lemma insert_locked r q s msg :
  op_ok N (RInsert r q) → rules_ok N (sig_matches (recv_data s)) → has_rule r s = false →
  add_match (E:=ErrorKind) (match_string r) = Ok msg →
  ∃ k l, exec dbg hash_iter (Running (insert_sig_match r q)) [alone] s =
      Some (Running (Call msg k), set_recv_data s (set_sig_matches (recv_data s) l)) ∧
    insert_rule (sig_matches (recv_data s)) r q = Ok l ∧
    (∀ res, typ res = TReply → k res = Ret (Ok ())) ∧
    (∀ res, typ res = TError → k res =
      locked (λ rd, rollback_rule (sig_matches rd) r) (λ rd l,
        (Ret (bus_error parse_description is_empty_signature str_value Other res),
         set_sig_matches rd l))).
Proof.
  intros Hop Hs Hnew Hadd. pose proof (insert_rule_result N HN _ r q Hs (proj1 Hop) (proj2 Hop)) as Hi.
  destruct (insert_rule _ r q) as [l|er|] eqn:Hl; [| |done].
  2: { destruct Hi as [_ Hx%has_rule_iff]. congruence. }
  unfold Client.insert_sig_match, locked. rewrite exec_locked, Hl. cbn [fst snd call_built].
  rewrite Hadd. cbn [call_built]. eexists _, l. split_and!; [reflexivity|done| |]; intros res Ht; cbv beta; by rewrite Ht.
Qed.

(** a rule the bus accepts is in the list three turns after [insert_sig_match]
    starts undisturbed, and one it refuses is out of it after four. *)
Theorem insert_sig_match_undisturbed r q n s msg answer :
  op_ok N (RInsert r q) → rules_ok N (sig_matches (recv_data s)) → has_rule r s = false →
  conn_ok n s → (N.of_nat n + 6 < u32_mod)%N → inbox (recv_data s) = [] →
  add_match (E:=ErrorKind) (match_string r) = Ok msg →
  is_answer (next_idx (serial s)) answer →
  if bool_decide (typ answer = TReply) then
    ∃ s', exec dbg hash_iter (Running (insert_sig_match r q)) [alone; alone; arrival answer] s =
        Some (Running (Ret (Ok ())), s') ∧
      outgoing s' = outgoing s ++ [msg] ∧ has_rule r s' = true
  else
    ∃ s' res, exec dbg hash_iter (Running (insert_sig_match r q))
          [alone; alone; arrival answer; alone] s = Some (Running (Ret res), s') ∧
      outgoing s' = outgoing s ++ [msg] ∧ has_rule r s' = false ∧
      (res = Err Other ∨ res = Panic ∧
        body_get parse_description is_empty_signature str_value (m_body answer) = Panic).
Proof.
  intros Hop Hs Hnew Hok Hn Hi Hadd Ha.
  destruct (insert_locked r q s msg Hop Hs Hnew Hadd) as (k & l & He & Hl & Hreply & Herr).
  destruct (insert_rule_has N HN r q s l Hop Hs Hl) as (_ & Hs1 & Hh1).
  set (s1 := set_recv_data s _) in *.
  assert (conn_ok n s1) as Hok1 by (by apply conn_ok_same).
  destruct (call_undisturbed dbg hash_iter k msg answer n s1 Hok1 ltac:(unfold u32_mod in *; lia)
    Hi (push_text_expects _ _ _ Hadd) Ha) as (s2 & He2 & Hout & (Hm & _) & _).
  assert (has_rule r s2 = true) as Hh2 by (unfold has_rule in *; by rewrite Hm).
  assert (∀ l, exec dbg hash_iter (Running (insert_sig_match r q)) (alone :: [alone; arrival answer] ++ l) s =
    exec dbg hash_iter (Running (k answer)) l s2) as Hall.
  { intros l'. change (alone :: ?l) with ([alone] ++ l). rewrite exec_app, He. cbn [mbind option_bind].
    by rewrite exec_app, He2. }
  case_bool_decide as Ht.
  - exists s2. change [alone; alone; arrival answer] with (alone :: [alone; arrival answer] ++ []).
    rewrite (Hall []), (Hreply _ Ht). by split_and!.
  - assert (typ answer = TError) as Ht' by (by destruct Ha as [[?|?] _]).
    rewrite <- Hm in Hs1.
    destruct (rollback_rule_ok N HN (sig_matches (recv_data s2)) r Hs1 Hop) as (l4 & Hl4 & Hop4).
    destruct (remove_rule_has N HN r (RRollback r) s2 l4 (or_intror eq_refl) Hop Hs1 Hop4) as [_ Hh3].
    change [alone; alone; arrival answer; alone] with (alone :: [alone; arrival answer] ++ [alone]).
    eexists _, _. rewrite (Hall [alone]), (Herr _ Ht'). unfold locked.
    rewrite exec_locked, Hl4. split_and!; [done|done|done|].
    unfold bus_error. destruct (body_get _ _ _ _); auto.
Qed.

(** a failed call leaves the rule behind.  When [AddMatch] cannot be sent, the error
    comes back, nothing was sent, the bus will send no signal for the rule, but the rule
    stays in the list; the next try is refused with "already exists". *)
Theorem insert_sig_match_stays r q q' n s msg e :
  op_ok N (RInsert r q) → rules_ok N (sig_matches (recv_data s)) → has_rule r s = false →
  conn_ok n s → add_match (E:=ErrorKind) (match_string r) = Ok msg →
  ∃ s', exec dbg hash_iter (Running (insert_sig_match r q)) [alone; MkTurn [] (Err e)] s =
      Some (Running (Ret (Err e)), s') ∧
    outgoing s' = outgoing s ∧ has_rule r s' = true ∧
    exec dbg hash_iter (Running (insert_sig_match r q')) [alone] s' =
      Some (Running (Ret (Err InvalidInput)), s').
Proof.
  intros Hop Hs Hnew Hok Hadd.
  destruct (insert_locked r q s msg Hop Hs Hnew Hadd) as (k & l & He & Hl & _ & _).
  destruct (insert_rule_has N HN r q s l Hop Hs Hl) as (_ & Hs1 & Hh1).
  set (s1 := set_recv_data s _) in *. destruct (ok_counter _ _ Hok) as [Hser _].
  assert (∃ s2, send_msg_w_rsp s1 msg false = Some s2 ∧ sig_matches (recv_data s2) = sig_matches (recv_data s1) ∧
    outgoing s2 = outgoing s) as (s2 & Hsend & Hm & Hout).
  { unfold send_msg_w_rsp. rewrite (push_text_expects _ _ _ Hadd).
    destruct (allocate_idx_spec (serial s1) Hser) as [-> _]. by eexists. }
  assert (has_rule r s2 = true) as Hh2 by (unfold has_rule in *; by rewrite Hm).
  exists s2. split_and!; [|done|done|].
  { change [alone; MkTurn [] (Err e)] with ([alone] ++ [MkTurn [] (Err e)]).
    rewrite exec_app, He. cbn [mbind option_bind exec]. unfold client_step.
    cbn [others io Rpc.run mbind option_bind]. by rewrite Hsend. }
  unfold Client.insert_sig_match, locked. rewrite exec_locked.
  rewrite <- Hm in Hs1. pose proof (insert_rule_result N HN _ r q' Hs1 (proj1 Hop) (proj2 Hop)) as Hi.
  destruct (insert_rule _ r q') as [l'|e'|]; [|destruct Hi as [-> _]; cbn; by destruct s2|done].
  destruct Hi as [Hno _]. apply has_rule_iff in Hh2 as (x & Hx & Hxr). by rewrite (Hno x Hx) in Hxr.
Qed.
End rule_runs.

(** ** Concrete runs *)

(** Texts with a length byte, numbers as four bytes, as [text_marshal] writes them. *)
Definition one_text : Unmarshal (Ty:=u8) bytes :=
  MkUnmarshal bytes "s"%char (λ ctx,
    n ← ok_or (u_buf ctx !! u_offset ctx) NotEnoughBytes;
    let len := N.to_nat (u8_val n) in
    mret (S len, take len (drop (S (u_offset ctx)) (u_buf ctx)))).

Definition one_u32 : Unmarshal (Ty:=u8) N :=
  MkUnmarshal N "u"%char (λ ctx,
    n ← ok_or (u_buf ctx !! u_offset ctx) NotEnoughBytes; mret (4, u8_val n)).

Definition two_texts : Unmarshal (Ty:=u8) (bytes * bytes) :=
  MkUnmarshal (bytes * bytes) "r"%char (λ _, Err NotEnoughBytes).

Definition letters (s : bytes) : outcome UnmarshalError (list u8) := Ok s.

#[local] Existing Instance text_marshal.

Abbreviation no_ns := (λ ns : option bytes, ns = None).
Abbreviation insert_sample :=
  (insert_sig_match (Ty:=u8) letters (λ _, false) one_text sample_rule 7).
Abbreviation remove_sample := (remove_sig_match (Ty:=u8) letters (λ _, false) one_text sample_rule).

(** Another task adds a rule while the call of the first is on its way. *)
Definition busy_script : list turn :=
  [alone; MkTurn [AInsertRule (path_rule (lit "/a")) 8] (Ok tt);
   MkTurn [AArrive (Ok (reply_to 1 TReply))] (Ok tt)].

Lemma sample_rule_op (q : queue) : op_ok no_ns (RInsert sample_rule q).
Proof. split; [done|by left]. Qed.

Lemma busy_script_ok : Forall (λ w, Forall (edits_other no_ns sample_rule) (others w)) busy_script.
Proof.
  repeat first [apply List.Forall_nil | apply List.Forall_cons]; [|exact I].
  split; [split; [reflexivity|by right]|reflexivity].
Qed.

Lemma insert_sig_match_spec_witness :
  ∃ s', exec true map_to_list (Running insert_sample) busy_script rpc_new =
      Some (Running (Ret (Ok ())), s') ∧
    has_rule sample_rule s' = true ∧ got TReply s'.
Proof.
  destruct (exec true map_to_list (Running insert_sample) busy_script rpc_new)
    as [[[[res|?|?|?]|?|?] s']|] eqn:He; try (vm_compute in He; discriminate He).
  assert (res = Ok ()) as -> by (vm_compute in He; by injection He).
  exists s'. split; [reflexivity|].
  destruct (insert_sig_match_spec true map_to_list letters (λ _, false) one_text no_ns
    no_ns_coherent sample_rule 7 busy_script 0 rpc_new (Ok ()) s' (sample_rule_op 7)
    (rules_ok_nil _) rpc_new_ok eq_refl busy_script_ok He) as (_ & _ & H1 & H2).
  split; [exact H1|exact H2].
Defined.

(** The state with the sample rule. *)
Definition with_sample : RpcConn :=
  set_recv_data rpc_new (set_sig_matches (recv_data rpc_new) [with_queue sample_rule 7]).

Lemma with_sample_ok : conn_ok 0 with_sample.
Proof. apply conn_ok_same; [apply rpc_new_ok|done]. Qed.

Lemma with_sample_rules : rules_ok no_ns (sig_matches (recv_data with_sample)).
Proof.
  destruct (insert_rule_has no_ns no_ns_coherent sample_rule 7 rpc_new [with_queue sample_rule 7])
    as (_ & H & _); [apply (sample_rule_op 7)|apply rules_ok_nil|by vm_compute|done].
Qed.

Lemma remove_sig_match_spec_witness :
  ∃ s', exec true map_to_list (Running remove_sample)
      [alone; alone; arrival (reply_to 1 TReply)] with_sample =
      Some (Running (Ret (Ok ())), s') ∧
    has_rule sample_rule s' = false.
Proof.
  destruct (exec true map_to_list (Running remove_sample)
    [alone; alone; arrival (reply_to 1 TReply)] with_sample)
    as [[[[res|?|?|?]|?|?] s']|] eqn:He; try (vm_compute in He; discriminate He).
  assert (res = Ok ()) as -> by (vm_compute in He; by injection He).
  exists s'. split; [reflexivity|].
  refine (proj1 (proj2 (remove_sig_match_spec true map_to_list letters (λ _, false) one_text no_ns
    no_ns_coherent sample_rule [alone; alone; arrival (reply_to 1 TReply)] 0 with_sample (Ok ()) s'
    (sample_rule_op 7) with_sample_rules with_sample_ok eq_refl _ He))).
  by repeat first [apply List.Forall_nil | apply List.Forall_cons].
Defined.

(** The bus gives the name [":1.7"], and the requested one. *)
Definition granted : MarshalledMessage :=
  set_body (reply_to 1 TReply) (MkBody (u32_bytes LittleEndian 1) (lit "u") [] LittleEndian).

Lemma bus_names_undisturbed_witness :
  ∃ s1, exec true map_to_list
      (Running (rpc_request_name letters (λ _, false) one_u32 (lit "org.a"))) [alone; arrival granted]
      rpc_new = Some (Running (Ret (Ok true)), s1).
Proof.
  destruct (request_name (E:=ErrorKind) (lit "org.a") DBUS_NAME_FLAG_DO_NOT_QUEUE) as [req|?|] eqn:Hreq;
    [|vm_compute in Hreq; discriminate Hreq..].
  destruct (release_name (E:=ErrorKind) (lit "org.a")) as [rel|?|] eqn:Hrel;
    [|vm_compute in Hrel; discriminate Hrel..].
  destruct (proj1 (bus_names_undisturbed true map_to_list letters (λ _, false) one_text one_u32
    two_texts 0 rpc_new granted (lit "org.a") req rel rpc_new_ok eq_refl eq_refl
    ltac:(split; [by left|reflexivity]) Hreq Hrel)) as (r & s1 & He & _ & Htrue & _).
  exists s1. rewrite He. repeat f_equal. apply Htrue. split; [reflexivity|].
  exists 1%N. split; [by vm_compute|by left].
Defined.

Lemma insert_sig_match_undisturbed_witness :
  ∃ s', exec true map_to_list (Running insert_sample) [alone; alone; arrival (reply_to 1 TReply)]
      rpc_new = Some (Running (Ret (Ok ())), s') ∧ has_rule sample_rule s' = true.
Proof.
  destruct (add_match (E:=ErrorKind) (match_string sample_rule)) as [msg|?|] eqn:Hadd;
    [|vm_compute in Hadd; discriminate Hadd..].
  destruct (insert_sig_match_undisturbed true map_to_list letters (λ _, false) one_text no_ns
    no_ns_coherent sample_rule 7 0 rpc_new msg (reply_to 1 TReply) (sample_rule_op 7)
    (rules_ok_nil _) eq_refl rpc_new_ok eq_refl eq_refl Hadd ltac:(split; [by left|reflexivity]))
    as (s' & He & _ & Hh).
  exists s'. split; [exact He|exact Hh].
Defined.

Lemma insert_sig_match_stays_witness :
  ∃ s', exec true map_to_list (Running insert_sample) [alone; MkTurn [] (Err BrokenPipe)] rpc_new =
      Some (Running (Ret (Err BrokenPipe)), s') ∧ has_rule sample_rule s' = true.
Proof.
  destruct (add_match (E:=ErrorKind) (match_string sample_rule)) as [msg|?|] eqn:Hadd;
    [|vm_compute in Hadd; discriminate Hadd..].
  destruct (insert_sig_match_stays true map_to_list letters (λ _, false) one_text no_ns
    no_ns_coherent sample_rule 7 8 0 rpc_new msg BrokenPipe (sample_rule_op 7)
    (rules_ok_nil _) eq_refl rpc_new_ok Hadd) as (s' & He & _ & Hh & _).
  exists s'. split; [exact He|exact Hh].
Defined.
