(* ===== verification/Queues.v ===== *)
(** * lib.rs: the queues of signals and calls

    [get_signal] and [get_call] of Client.v wait for the queue of a rule or of a path,
    and sort incoming messages meanwhile.  What is in a queue: in every execution in
    which each insertion brings its own new queue, as [MsgQueue::new] does, a rule's
    queue only holds signals that match the rule and a path's only calls of the path or
    below it; so that is what the two functions return. *)

From S2P Require Import Prelude Utils Body StdPath ObjPath Message Hierarchy Order MatchRule Rpc Client.
From Stdlib Require Import Lia.

(** The queue an edit brings. *)
Definition new_queue (a : action) : option queue :=
  match a with
  | AInsertRule _ q | AInsertCallPath _ _ q => Some q
  | _ => None
  end.

Section edits.
Context `{BasicMarshal} (dbg : bool)
  (hash_iter : gmap bytes CallHierarchy → list (bytes * CallHierarchy)).

(** A rule after an edit was there before, or is the new one. *)
Lemma run_rule_op_in l op l' x :
  run_rule_op l op = Ok l' → x ∈ l' → x ∈ l ∨ ∃ r q, op = RInsert r q ∧ x = with_queue r q.
Proof.
  intros Hl Hx.
  assert (∀ i, x ∈ remove_at i l → x ∈ l) as Hrm.
  { intros i. unfold remove_at. rewrite elem_of_app, !list_elem_of_lookup.
    intros [[j Hj]|[j Hj]]; [apply lookup_take_Some in Hj as [Hj _]|rewrite lookup_drop in Hj]; eauto. }
  unfold run_rule_op, insert_rule, remove_rule, rollback_rule in Hl.
  destruct op as [r q|r|r]; [destruct (_ && _)| |]; try done; destruct (find_rule l r) as [i|i|];
    try done; injection Hl as <-; eauto 3.
  rewrite insert_at_perm in Hx. apply elem_of_cons in Hx as [->|Hx]; eauto.
Qed.

Lemma step_rule_in s a op s' x :
  rule_edit a = Some op → Rpc.step dbg hash_iter s a = Some s' → x ∈ sig_matches (recv_data s') →
  x ∈ sig_matches (recv_data s) ∨ ∃ r q, op = RInsert r q ∧ x = with_queue r q.
Proof.
  intros Hop Hs. destruct (rule_edit_step dbg hash_iter s a op Hop) as (m & Hst & Hm).
  rewrite Hst in Hs. destruct m as [l|e|]; cbn in Hs; [|injection Hs as <-; auto|done].
  injection Hs as <-. by apply run_rule_op_in.
Qed.

Lemma step_rule_rest s a op s' :
  rule_edit a = Some op → Rpc.step dbg hash_iter s a = Some s' →
  hierarchy (recv_data s') = hierarchy (recv_data s) ∧ chans (recv_data s') = chans (recv_data s).
Proof.
  intros Hop Hs. destruct (rule_edit_step dbg hash_iter s a op Hop) as (m & Hst & Hm).
  rewrite Hst in Hs. by destruct m as [l|e|]; cbn in Hs; [injection Hs as <-..|].
Qed.

(** A path edit, on the elements of the path. *)
Lemma step_path_edit s a path act q s' :
  path_edit a = Some (path, act, q) → Rpc.step dbg hash_iter s a = Some s' →
  sig_matches (recv_data s') = sig_matches (recv_data s) ∧
  chans (recv_data s') = chans (recv_data s) ∧ finished s' = finished s ∧
  (hierarchy (recv_data s') = hierarchy (recv_data s) ∨
   ∃ comps, components (E:=ErrorKind) dbg path = Ok comps ∧
     hierarchy (recv_data s') = (insert_inner comps act q (hierarchy (recv_data s))).1).
Proof.
  destruct a; cbn [path_edit]; try done. intros [= -> -> ->]. cbn [Rpc.step].
  unfold insert_path. destruct (components dbg path) as [comps|e|] eqn:Hc; cbn; [|by intros [= <-]; auto|done].
  intros [= <-]. cbn. split_and!; try done. right. by exists comps.
Qed.
(** Only the queue an edit brings is fed by more than before. *)
Lemma step_feeds P q s a s' :
  new_queue a ≠ Some q → Rpc.step dbg hash_iter s a = Some s' →
  feeds P q (recv_data s) ∧ purely P q (recv_data s) →
  feeds P q (recv_data s') ∧ purely P q (recv_data s').
Proof.
  intros Hq Hs [Hf Hp]. destruct (rule_edit a) as [op|] eqn:Hop.
  - destruct (step_rule_rest s a op s' Hop Hs) as [Hh Hc]. unfold purely in *. rewrite Hc.
    split; [|done]. split; [|rewrite Hh; apply Hf]. intros x msg Hx Hxq.
    apply (step_rule_in s a op s' x Hop Hs) in Hx as [Hx|(r & q' & -> & ->)]; [by apply Hf|].
    destruct a; try done. injection Hop as <- <-. by destruct Hq.
  - destruct (path_edit a) as [[[path act] q']|] eqn:Hpe.
    + destruct (step_path_edit s a path act q' s' Hpe Hs) as (Hm & Hc & _ & Hh).
      unfold purely in *. rewrite Hc. split; [|done]. split; [rewrite Hm; apply Hf|].
      intros p hd msg Hfind Hhd. destruct Hh as [Hh|(comps & _ & Hh)]; rewrite Hh in Hfind; [by eapply Hf|].
      apply insert_inner_sound in Hfind as [->|[[_ ->]|Hfind]]; [done| |by eapply Hf].
      destruct a; try done. injection Hpe as -> -> ->. cbn in Hq, Hhd. by destruct act; cbn in Hhd; congruence.
    + destruct (step_reading dbg hash_iter s a s' Hs Hop Hpe) as [(Hm & Hh & Hr) _].
      split; [|by apply Hr]. unfold feeds in *. by rewrite Hm, Hh.
Qed.

(** A rule that the others do not edit keeps its entry. *)
Lemma step_rule_stays N r x s a s' :
  coherent (in_ns N) → edits_other N r a → Rpc.step dbg hash_iter s a = Some s' →
  rules_ok N (sig_matches (recv_data s)) → rule_eq x r = true →
  x ∈ sig_matches (recv_data s) → x ∈ sig_matches (recv_data s').
Proof.
  intros HN Ha Hs Hok Hx Hin. unfold edits_other in Ha. destruct (rule_edit a) as [op|] eqn:Hop.
  2: { by destruct (step_no_rule dbg hash_iter s a s' Hs Hop) as [-> _]. }
  destruct Ha as [Hopok Hne].
  assert (∀ y l, rule_eq y (op_rule op) = true → sig_matches (recv_data s) ≡ₚ y :: l → x ∈ l) as Hother.
  { intros y l Hy Hp. rewrite Hp in Hin. apply elem_of_cons in Hin as [->|?]; [|done].
    rewrite (rule_eq_trans (op_rule op) y r) in Hne; [done| |done]. by rewrite rule_eq_sym. }
  destruct a as [| | | | | | | |r' q|r'|r'|]; try done; injection Hop as <-; cbn [Rpc.step op_rule] in *.
  - pose proof (insert_rule_result N HN _ r' q Hok (proj1 Hopok) (proj2 Hopok)) as Hi.
    destruct (insert_rule _ r' q) as [l|e|]; cbn in Hs; [|by injection Hs as <-|done].
    injection Hs as <-. destruct Hi as (_ & _ & Hp). cbn. rewrite Hp. set_solver.
  - pose proof (remove_rule_result N HN _ r' Hok (proj1 Hopok)) as Hi.
    destruct (remove_rule _ r') as [l|e|]; cbn in Hs; [|by injection Hs as <-|done].
    injection Hs as <-. destruct Hi as (_ & y & Hy & Hp). by apply (Hother y).
  - pose proof (remove_rule_result N HN _ r' Hok (proj1 Hopok)) as Hi.
    unfold remove_rule in Hi. unfold rollback_rule in Hs.
    destruct (find_rule _ r') as [i|i|]; cbn in Hs; [| |done]; injection Hs as <-; [|done].
    destruct Hi as (_ & y & Hy & Hp). by apply (Hother y).
Qed.
End edits.

(** ** Messages that panic nobody

    What a well-behaved bus sends: no message of type zero, no reply without the serial it
    answers, no call without a valid path; and to a path that introspects, only calls with
    an interface, and not of the interface whose answer has to be marshalled. *)
Definition harmless (h : CallHierarchy) (msg : MarshalledMessage) : Prop :=
  match typ msg with
  | TSignal => True
  | TReply | TError => is_Some (response_serial (dynheader msg))
  | TCall => ∃ ws, Forall element ws ∧ object (dynheader msg) = Some (mk_path ws) ∧
      ∀ keys, send_inner ws h = SIntro keys → ∃ iface, interface (dynheader msg) = Some iface ∧
        iface ≠ lit "org.freedesktop.DBus.Introspectable"
  | TInvalid => False
  end.

(** Results of [get_next_message] that can be sorted. *)
Definition sortable (h : CallHierarchy) (r : io_result MarshalledMessage) : Prop :=
  match r with Ok msg => harmless h msg | Err _ => True | Panic => False end.

Section harmless.
Context `{BasicMarshal} (dbg : bool)
  (hash_iter : gmap bytes CallHierarchy → list (bytes * CallHierarchy)).

Lemma queue_sig_runs {E} l c msg :
  Forall (λ r, is_Some (r_queue r)) l → ∃ c', queue_sig (E:=E) l c msg = Ok c'.
Proof.
  induction 1 as [|r l [q Hq] _ IH]; cbn [queue_sig]; [by eexists|].
  destruct (matches r msg); [|done]. rewrite Hq. by eexists.
Qed.

Lemma sort_msg_runs rd msg :
  Forall (λ r, is_Some (r_queue r)) (sig_matches rd) → harmless (hierarchy rd) msg →
  match sort_msg dbg hash_iter rd msg with
  | Ok rd' => hierarchy rd' = hierarchy rd ∧ sig_matches rd' = sig_matches rd
  | Err reply => expects_reply reply = false
  | Panic => False
  end.
Proof.
  unfold harmless, sort_msg. intros Hq Hm. destruct (typ msg) eqn:Ht; [done| | | |].
  2, 3: destruct Hm as [idx ->]; cbn; by destruct (reply_map rd !! idx).
  - destruct Hm as (ws & Hws & Hobj & Hintro). unfold send. rewrite Hobj.
    unfold from_str. cbn [unwrap mbind outcome_bind mret outcome_ret].
    rewrite validate_str_mk_path by done. cbn [unwrap mbind outcome_bind mret outcome_ret].
    rewrite components_path by done. cbn [mbind outcome_bind].
    destruct (send_inner ws (hierarchy rd)) as [q|keys| |keys] eqn:Hs; [done| |done..].
    destruct (Hintro keys eq_refl) as (iface & Hi & Hne). unfold make_intro_msg. rewrite Hi.
    cbn [unwrap mbind outcome_bind]. by rewrite decide_False.
  - destruct (queue_sig_runs (E:=MarshalledMessage) (sig_matches rd) (chans rd) msg Hq) as [c ->]. done.
Qed.

Lemma queue_msg_runs l pred rd :
  (∀ msg h, pred msg h ≠ Panic) →
  Forall (λ r, is_Some (r_queue r)) (sig_matches rd) → Forall (sortable (hierarchy rd)) l →
  match (queue_msg dbg hash_iter l pred rd).1 with
  | Ok (reply, true) => expects_reply reply = false
  | Panic => False
  | _ => True
  end.
Proof.
  intros Hp. revert rd. induction l as [|r l IH]; intros rd Hq Hl; cbn [queue_msg]; [done|].
  apply Forall_cons in Hl as [Hr Hl]. destruct r as [msg|e|]; [|done..].
  pose proof (Hp msg (hierarchy (take_msg rd l msg))) as Hpm.
  destruct (pred msg _) as [[|]|e|]; [done| |done..].
  pose proof (sort_msg_runs (take_msg rd l msg) msg Hq Hr) as Hs.
  destruct (sort_msg _ _ _ msg) as [rd1|reply|]; [|done..].
  destruct Hs as [Hh Hm]. apply IH; [by rewrite Hm|by rewrite Hh].
Qed.

(** [get_msg] gets through a run of [queue_msg], and sends its reply. *)
Lemma get_msg_step_runs s pred :
  (∀ msg h, pred msg h ≠ Panic) → (serial s < u32_mod)%N →
  Forall (λ r, is_Some (r_queue r)) (sig_matches (recv_data s)) →
  Forall (sortable (hierarchy (recv_data s))) (inbox (recv_data s)) →
  is_Some (get_msg_step dbg hash_iter s pred).
Proof.
  intros Hp Hser Hq Hl. unfold get_msg_step.
  pose proof (queue_msg_runs _ pred (recv_data s) Hp Hq Hl) as Hr.
  destruct (queue_msg _ _ _ _ _) as [[[msg [|]]|e|] rd]; cbn [fst] in Hr; [| |by destruct e|done].
  - unfold send_msg_wo_rsp. rewrite Hr. cbn [set_recv_data Rpc.serial].
    destruct (allocate_idx_spec (Rpc.serial s) Hser) as [-> _]. by eexists.
  - by eexists.
Qed.
End harmless.

(** ** [get_signal] *)

Section signals.
Context `{BasicMarshal} (dbg : bool)
  (hash_iter : gmap bytes CallHierarchy → list (bytes * CallHierarchy)).
Context (N : option bytes → Prop) (HN : coherent (in_ns N)).

(** The rule is in the list with the queue [q], which only gets and holds what matches. *)
Definition serves (r : MatchRule) (q : queue) (s : RpcConn) : Prop :=
  rules_ok N (sig_matches (recv_data s)) ∧
  (∃ x, x ∈ sig_matches (recv_data s) ∧ rule_eq x r = true ∧ r_queue x = Some q) ∧
  feeds (λ msg, matches r msg = true) q (recv_data s) ∧
  purely (λ msg, matches r msg = true) q (recv_data s).

(** The rely: nobody takes the rule away. *)
Definition keeps_serving (r : MatchRule) (q : queue) (s s' : RpcConn) : Prop :=
  serves r q s → serves r q s'.

#[export] Instance keeps_serving_rely r q : Rely (keeps_serving r q).
Proof.
  split; [split|].
  - by intros s Hs.
  - intros s1 s2 s3 H1 H2 Hs. by apply H2, H1.
  - intros s s' [(Hm & Hh & Hr) _] (Hok & Hx & Hf & Hp). unfold serves. rewrite Hm.
    split_and!; [done..| |by apply Hr]. unfold feeds in *. by rewrite Hm, Hh.
Qed.

Definition spares_signal (r : MatchRule) (q : queue) (a : action) : Prop :=
  edits_other N r a ∧ new_queue a ≠ Some q.

Lemma step_keeps_serving r q s a s' :
  spares_signal r q a → Rpc.step dbg hash_iter s a = Some s' → keeps_serving r q s s'.
Proof.
  intros [Ha Hq] Hs (Hok & (x & Hx & Hxr & Hxq) & Hfp).
  split_and!; [|exists x; split_and!; [|done..]|apply (step_feeds dbg hash_iter _ q s a s' Hq Hs Hfp)..].
  - by apply (step_keeps_rule dbg hash_iter N HN r a s s' Ha Hs).
  - by apply (step_rule_stays dbg hash_iter N r x s a s').
Qed.

(** The queue [get_signal] finds. *)
Lemma signal_queue_spec r s :
  in_ns N r → rules_ok N (sig_matches (recv_data s)) →
  match signal_queue (recv_data s) r with
  | Ok q => ∃ x, x ∈ sig_matches (recv_data s) ∧ rule_eq x r = true ∧ r_queue x = Some q
  | Err e => e = InvalidInput ∧ has_rule r s = false
  | Panic => False
  end.
Proof.
  intros Hr [Hs Hq]. unfold signal_queue. pose proof (find_rule_spec N HN _ r Hs Hr) as Hf.
  destruct (find_rule _ r) as [i|i|]; [| |done].
  - destruct Hf as (x & Hx & He). rewrite Hx. pose proof (list_elem_of_lookup_2 _ _ _ Hx) as Hin.
    rewrite Forall_forall in Hq. destruct (Hq x Hin) as [q Hxq]. rewrite Hxq. by exists x.
  - destruct Hf as [Hno _]. split; [done|]. apply not_true_iff_false. rewrite has_rule_iff.
    intros (x & Hx & He). by rewrite (Hno x Hx) in He.
Qed.

Lemma signal_queue_serves r q s :
  in_ns N r → serves r q s → signal_queue (recv_data s) r = Ok q.
Proof.
  intros Hr (Hok & (x & Hx & He & Hxq) & _). pose proof (signal_queue_spec r s Hr Hok) as Hq.
  destruct (signal_queue _ r) as [q'|e|]; [| |done].
  - destruct Hq as (y & Hy & Hey & Hyq). assert (y = x) as ->; [|congruence].
    apply (sorted_unique N (sig_matches (recv_data s))); [apply Hok|done..|].
    apply (rule_eq_trans y r x); [done|]. by rewrite rule_eq_sym.
  - destruct Hq as [_ Hno]. apply not_true_iff_false in Hno. destruct Hno. apply has_rule_iff. by exists x.
Qed.

Definition signal_post (r : MatchRule) (q : queue) (res : io_result MarshalledMessage)
    (s : RpcConn) : Prop :=
  serves r q s ∧ match res with Ok msg => matches r msg = true | Err _ => True | Panic => False end.

Lemma get_signal_wp r q s :
  in_ns N r → serves r q s → wp (keeps_serving r q) (signal_post r q) (get_signal r) s.
Proof.
  intros Hr Hs s1 H1. specialize (H1 Hs). rewrite (signal_queue_serves r q s1 Hr H1). cbn [wp].
  assert (set_recv_data s1 (recv_data s1) = s1) as -> by (by destruct s1).
  split; [done|]. split_and!; [|apply sig_pred_spec|].
  - intros e s2 H2. split; [by apply H2|done].
  - intros msg s2 s3 H2 H3 Hmsg. specialize (H2 H1). split; [by apply (rely_reading (R:=keeps_serving r q) s2 s3 H3)|].
    destruct Hmsg as [(l & Hl)|[= Hm]]; [|done]. destruct H2 as (_ & _ & _ & Hp). unfold purely in Hp.
    rewrite Hl in Hp. by apply Forall_cons in Hp as [? _].
Qed.

(** The stages of [get_signal]. *)
Inductive signal_task (r : MatchRule) : task MarshalledMessage → Prop :=
| signal_starts : signal_task r (Running (get_signal r))
| signal_found q : signal_task r
    (Running (Fetch q (signal_open q) (sig_pred r) (λ msg, Ret (Ok msg))))
| signal_waits q : signal_task r (Fetching q (signal_open q) (sig_pred r) (λ msg, Ret (Ok msg)))
| signal_done res : signal_task r (Running (Ret res)).

Lemma step_signal_task r t w s t' s' :
  signal_task r t → client_step dbg hash_iter t w s = Some (t', s') → signal_task r t'.
Proof.
  intros Ht. unfold client_step. destruct (Rpc.run _ _ s (others w)) as [s1|]; [|done].
  cbn [mbind option_bind]. assert (∀ res : io_result MarshalledMessage,
    signal_task r (Running (resume res (λ msg, Ret (Ok msg))))) as Hres
    by (intros [?|?|]; apply signal_done).
  destruct Ht as [|q|q|res].
  - cbn [get_signal locked]. destruct (signal_queue _ r); intros [= <- _]; constructor.
  - destruct (poll_queue _ q _) as [[res rd]|]; intros [= <- _]; [apply Hres|constructor].
  - destruct (io w) as [?|?|]; [| |done].
    + destruct (poll_queue _ q _) as [[res rd]|]; [intros [= <- _]; apply Hres|].
      destruct (get_msg_step _ _ s1 _) as [[[res|] s2]|]; [| |done]; intros [= <- _];
        [apply Hres|constructor].
    + intros [= <- _]. constructor.
  - intros [= <- _]. constructor.
Qed.

Lemma exec_signal_task r t script s t' s' :
  signal_task r t → exec dbg hash_iter t script s = Some (t', s') → signal_task r t'.
Proof.
  revert t s. induction script as [|w script IH]; intros t s Ht; cbn [exec]; [by intros [= <- _]|].
  destruct (client_step _ _ t w s) as [[t1 s1]|] eqn:Hs; [|done]. cbn [mbind option_bind].
  apply IH. by eapply step_signal_task.
Qed.

Lemma turns_keep_serving r q script :
  Forall (λ w, Forall (spares_signal r q) (others w)) script →
  Forall (turn_ok dbg hash_iter (keeps_serving r q)) script.
Proof.
  intros Hs. eapply Forall_impl; [exact Hs|]. intros w Hw a s1 s2 Ha. rewrite Forall_forall in Hw.
  apply step_keeps_serving. by apply Hw.
Qed.

(** A resumption of [get_signal] in a state it has come to. *)
Lemma get_signal_resumes r q script w n s t s1 s2 :
  in_ns N r → serves r q s → conn_ok n s → (N.of_nat (n + work (script ++ [w])) < u32_mod)%N →
  Forall (λ w, Forall (spares_signal r q) (others w)) (script ++ [w]) →
  exec dbg hash_iter (Running (get_signal r)) script s = Some (t, s1) →
  Rpc.run dbg hash_iter s1 (others w) = Some s2 → io w ≠ Panic →
  Forall (sortable (hierarchy (recv_data s2))) (inbox (recv_data s2)) →
  is_Some (client_step dbg hash_iter t w s1).
Proof.
  intros Hr Hs Hok Hn Hscript He Hrun Hio Hin.
  assert (work (script ++ [w]) = work script + S (length (others w))) as Hwork.
  { unfold work. rewrite sum_list_with_app. cbn. lia. }
  rewrite Hwork in Hn. apply turns_keep_serving in Hscript.
  apply Forall_app in Hscript as [Hscript [Hw _]%Forall_cons].
  destruct (exec_sound dbg hash_iter (keeps_serving r q) (signal_post r q) script
    (Running (get_signal r)) n s t s1 Hok ltac:(lia) Hscript) as (Ht & m & Hm & Hok1); [|done|].
  { apply running_ok; [apply _|by apply get_signal_wp]. }
  pose proof (exec_signal_task r _ _ _ _ _ (signal_starts r) He) as Hst.
  unfold client_step. rewrite Hrun. cbn [mbind option_bind].
  destruct Hst as [|q'|q'|res]; [| | |by eexists].
  - cbn [get_signal locked]. by destruct (signal_queue _ r).
  - destruct (poll_queue _ q' _) as [[res rd]|]; by eexists.
  - destruct (io w); [|by eexists|done].
    destruct (poll_queue _ q' _) as [[res rd]|]; [by eexists|].
    destruct Ht as (s0 & H01 & Herr & _). destruct (Herr WouldBlock s1 H01) as [Hserves _].
    pose proof (run_rely dbg hash_iter (keeps_serving r q) _ _ _ Hw Hrun Hserves) as ((_ & Hq) & _).
    destruct (run_ok dbg hash_iter m s1 (others w) s2 Hok1 ltac:(lia) Hrun) as (m2 & _ & Hok2).
    destruct (get_msg_step_runs dbg hash_iter s2 (sig_pred r)) as [[o s3] ->];
      [done|apply (ok_counter _ _ Hok2)|done..|].
    by eexists.
Qed.

(** C12: [get_signal] on a rule that is in place with its queue, over coherent namespaces,
    whatever the other tasks do that leaves the rule in place.  A message it returns matches
    the rule: it was the oldest in the rule's queue or was read while the function waited.
    And it is never the one that panics: in every state it comes to, after anything the
    others did, its next resumption succeeds, as long as what has come in can be sorted
    ([harmless]: replies name the call they answer, calls have a valid path, and calls that
    are introspections are not for a path that introspects). *)
Theorem get_signal_spec r q script n s :
  in_ns N r → serves r q s → conn_ok n s → (N.of_nat (n + work script) < u32_mod)%N →
  Forall (λ w, Forall (spares_signal r q) (others w)) script →
  (∀ res s', exec dbg hash_iter (Running (get_signal r)) script s = Some (Running (Ret res), s') →
    signal_post r q res s') ∧
  (∀ before w t s1 s2, before ++ [w] `prefix_of` script →
    exec dbg hash_iter (Running (get_signal r)) before s = Some (t, s1) →
    Rpc.run dbg hash_iter s1 (others w) = Some s2 → io w ≠ Panic →
    Forall (sortable (hierarchy (recv_data s2))) (inbox (recv_data s2)) →
    is_Some (client_step dbg hash_iter t w s1)).
Proof.
  intros Hr Hs Hok Hn Hscript. split.
  - intros res s' He.
    destruct (exec_result dbg hash_iter (keeps_serving r q) (signal_post r q) (get_signal r) script n s
      res s') as (s1 & HR & HQ & Hres); [done|done|by apply turns_keep_serving|by apply get_signal_wp|done|].
    split; [by apply HR|done].
  - intros before w t s1 s2 [after ->] He Hrun Hio Hin. unfold work in Hn. rewrite sum_list_with_app in Hn.
    apply Forall_app in Hscript as [Hscript _].
    apply (get_signal_resumes r q before w n s t s1 s2); try done. unfold work. lia.
Qed.
End signals.


(** ** [get_call] *)

Section calls.
Context `{BasicMarshal} (dbg : bool)
  (hash_iter : gmap bytes CallHierarchy → list (bytes * CallHierarchy)).

(** The node of the path has the queue [q], which only gets and holds its calls. *)
Definition answers_calls (comps : list bytes) (q : queue) (s : RpcConn) : Prop :=
  (find_inner comps (hierarchy (recv_data s)) ≫= handler_queue) = Some q ∧
  feeds (call_under comps) q (recv_data s) ∧ purely (call_under comps) q (recv_data s).

Definition keeps_calls (comps : list bytes) (q : queue) (s s' : RpcConn) : Prop :=
  answers_calls comps q s → answers_calls comps q s'.

#[export] Instance keeps_calls_rely comps q : Rely (keeps_calls comps q).
Proof.
  split; [split|].
  - by intros s Hs.
  - intros s1 s2 s3 H1 H2 Hs. by apply H2, H1.
  - intros s s' [(Hm & Hh & Hr) _] (Hn & Hf & Hp). unfold answers_calls. rewrite Hh.
    split_and!; [done| |by apply Hr]. unfold feeds in *. by rewrite Hm, Hh.
Qed.

(** The others set actions of other paths only. *)
Definition spares_call (comps : list bytes) (q : queue) (a : action) : Prop :=
  new_queue a ≠ Some q ∧
  match path_edit a with
  | Some (path, act, _) =>
      act ≠ ANothing ∧ ∀ ws, components (E:=ErrorKind) dbg path = Ok ws → ws ≠ comps
  | None => True
  end.

Lemma step_keeps_calls comps q s a s' :
  spares_call comps q a → Rpc.step dbg hash_iter s a = Some s' → keeps_calls comps q s s'.
Proof.
  intros [Hq Ha] Hs [Hn Hfp].
  split; [|by apply (step_feeds dbg hash_iter _ q s a s' Hq Hs)].
  destruct (rule_edit a) as [op|] eqn:Hop.
  { by destruct (step_rule_rest dbg hash_iter s a op s' Hop Hs) as [-> _]. }
  destruct (path_edit a) as [[[path act] q']|] eqn:Hpe.
  - destruct (step_path_edit dbg hash_iter s a path act q' s' Hpe Hs) as (_ & _ & _ & Hh).
    destruct Hh as [->|(ws & Hws & ->)]; [done|]. destruct Ha as [Hact Hne].
    rewrite (proj2 (insert_inner_set_aux ws act q' _ Hact)). unfold inserted.
    rewrite decide_False by (symmetry; by apply Hne).
    by destruct (find_inner comps _).
  - by destruct (step_reading dbg hash_iter s a s' Hs Hop Hpe) as [(_ & -> & _) _].
Qed.

(** What the predicate of [get_call] takes. *)
Lemma call_pred_under ws msg h :
  Forall element ws → call_pred dbg (mk_path ws) msg h = Ok true → call_under ws msg.
Proof.
  intros Hws Hp. unfold call_pred in Hp. destruct (typ msg) eqn:Ht; try done.
  destruct (object (dynheader msg)) as [obj|] eqn:Hobj; cbn in Hp; [|done].
  unfold from_str in Hp. destruct (validate_str obj) as [[]| |] eqn:Hv; try done.
  apply validate_str_iff in Hv as (vs & Hvs & ->). cbn in Hp. unfold is_match in Hp.
  rewrite !components_path in Hp by done. cbn in Hp. injection Hp as Hm.
  apply is_match_inner_iff in Hm as (q & hd & (Hpre & _) & _).
  split; [done|]. by exists vs.
Qed.

Definition call_post (comps : list bytes) (q : queue) (res : io_result MarshalledMessage)
    (s : RpcConn) : Prop :=
  answers_calls comps q s ∧
  match res with Ok msg => call_under comps msg | Err _ => True | Panic => False end.

Lemma get_call_wp ws q s :
  Forall element ws → answers_calls ws q s →
  wp (keeps_calls ws q) (call_post ws q) (get_call dbg (mk_path ws)) s.
Proof.
  intros Hws Hs. unfold get_call, from_str. rewrite validate_str_mk_path by done.
  cbn [mbind outcome_bind mret outcome_ret]. unfold locked. intros s1 H1. specialize (H1 Hs).
  assert (get_queue (E:=ErrorKind) dbg (hierarchy (recv_data s1)) (mk_path ws) = Ok (Some q)) as Hq.
  { unfold get_queue, find_handler. rewrite components_path by done. cbn. by rewrite (proj1 H1). }
  rewrite Hq. cbn [mbind outcome_bind ok_or wp]. split; [done|].
  assert (set_recv_data s1 (recv_data s1) = s1) as -> by (by destruct s1).
  split_and!; [|apply call_pred_spec|].
  - intros e s2 H2. split; [by apply H2|done].
  - intros msg s2 s3 H2 H3 Hmsg. specialize (H2 H1).
    split; [by apply (rely_reading (R:=keeps_calls ws q) s2 s3 H3)|].
    destruct Hmsg as [(l & Hl)|Hm]; [|by eapply call_pred_under].
    destruct H2 as (_ & _ & Hp). unfold purely in Hp. rewrite Hl in Hp.
    by apply Forall_cons in Hp as [? _].
Qed.

(** [get_call] of a path only returns method calls of that object or of one below
    it, whatever the other tasks do that leaves the action of the path in place. *)
Theorem get_call_spec ws q script n s res s' :
  Forall element ws → answers_calls ws q s → conn_ok n s →
  (N.of_nat (n + work script) < u32_mod)%N →
  Forall (λ w, Forall (spares_call ws q) (others w)) script →
  exec dbg hash_iter (Running (get_call dbg (mk_path ws))) script s =
    Some (Running (Ret res), s') →
  call_post ws q res s'.
Proof.
  intros Hws Hs Hok Hn Hscript He.
  destruct (exec_result dbg hash_iter (keeps_calls ws q) (call_post ws q) (get_call dbg (mk_path ws))
    script n s res s') as (s1 & HR & HQ & Hres); [done..| |by apply get_call_wp|done|].
  - eapply Forall_impl; [exact Hscript|]. intros w Hw a s1 s2 Ha. rewrite Forall_forall in Hw.
    apply step_keeps_calls. by apply Hw.
  - split; [by apply HR|done].
Qed.
End calls.

(** ** What is in the queues *)

Section history.
Context `{BasicMarshal} (dbg : bool)
  (hash_iter : gmap bytes CallHierarchy → list (bytes * CallHierarchy)).

(** The messages an edit asks for in the queue it brings. *)
Definition asks (a : action) (msg : MarshalledMessage) : Prop :=
  match a with
  | AInsertRule r _ => matches r msg = true
  | AInsertCallPath path _ _ =>
      ∃ ws, components (E:=ErrorKind) dbg path = Ok ws ∧ call_under ws msg
  | _ => False
  end.

(** Asked for by one of the edits [l]. *)
Definition asked (l : list action) (q : queue) (msg : MarshalledMessage) : Prop :=
  ∃ a, a ∈ l ∧ new_queue a = Some q ∧ asks a msg.

(** Where the queues of the rules and paths come from. *)
Record history (l : list action) (s : RpcConn) : Prop := {
  hist_asked q : feeds (asked l q) q (recv_data s) ∧ purely (asked l q) q (recv_data s);
  hist_rule x q : x ∈ sig_matches (recv_data s) → r_queue x = Some q →
    ∃ r, AInsertRule r q ∈ l ∧ x = with_queue r q;
  hist_path p hd q : find_inner p (hierarchy (recv_data s)) = Some hd → handler_queue hd = Some q →
    ∃ path act, AInsertCallPath path act q ∈ l ∧ components (E:=ErrorKind) dbg path = Ok p;
}.

Lemma step_history l s a s' :
  a ∈ l → Rpc.step dbg hash_iter s a = Some s' → history l s → history l s'.
Proof.
  intros Ha Hs Hh. split.
  - intros q. destruct (decide (new_queue a = Some q)) as [Hq|Hq];
      [|exact (step_feeds dbg hash_iter _ q s a s' Hq Hs (hist_asked l s Hh q))].
    destruct (hist_asked l s Hh q) as [[Hf1 Hf2] Hp].
    destruct a as [| | | | | | | |r q'| | |path act q']; try done; injection Hq as ->.
    + destruct (step_rule_rest dbg hash_iter s (AInsertRule r q) (RInsert r q) s' eq_refl Hs) as [Hhi Hc].
      unfold purely in *. rewrite Hc. split; [|done]. split; [|by rewrite Hhi].
      intros x msg Hx Hxq Hm. apply (step_rule_in dbg hash_iter s (AInsertRule r q) (RInsert r q) s' x eq_refl Hs) in Hx
        as [Hx|(r' & q' & [= <- <-] & ->)]; [by eapply Hf1|]. by exists (AInsertRule r q).
    + destruct (step_path_edit dbg hash_iter s (AInsertCallPath path act q) path act q s' eq_refl Hs) as (Hm & Hc & _ & Hhi).
      unfold purely in *. rewrite Hc. split; [|done]. split; [by rewrite Hm|].
      intros p hd msg Hfind Hhd Hu. destruct Hhi as [Hhi|(ws & Hws & Hhi)]; rewrite Hhi in Hfind;
        [by eapply Hf2|].
      apply insert_inner_sound in Hfind as [->|[[-> ->]|Hfind]]; [done| |by eapply Hf2].
      exists (AInsertCallPath path act q). split_and!; [done..|]. by exists ws.
  - intros x q Hx Hxq. destruct (rule_edit a) as [op|] eqn:Hop.
    + apply (step_rule_in dbg hash_iter s a op s' x Hop Hs) in Hx as [Hx|(r & q' & -> & ->)];
        [by eapply hist_rule|]. injection Hxq as ->.
      destruct a; try done. injection Hop as -> ->. by exists r.
    + destruct (step_no_rule dbg hash_iter s a s' Hs Hop) as [Hm _]. rewrite Hm in Hx. by eapply hist_rule.
  - intros p hd q Hfind Hhd. destruct (rule_edit a) as [op|] eqn:Hop.
    { destruct (step_rule_rest dbg hash_iter s a op s' Hop Hs) as [Hhi _]. rewrite Hhi in Hfind.
      by eapply hist_path. }
    destruct (path_edit a) as [[[path act] q']|] eqn:Hpe.
    + destruct (step_path_edit dbg hash_iter s a path act q' s' Hpe Hs) as (_ & _ & _ & Hhi).
      destruct Hhi as [Hhi|(ws & Hws & Hhi)]; rewrite Hhi in Hfind; [by eapply hist_path|].
      apply insert_inner_sound in Hfind as [->|[[-> ->]|Hfind]]; [done| |by eapply hist_path].
      destruct a; try done. injection Hpe as -> -> ->. exists path, act. split; [|done].
      destruct act; cbn in Hhd; try done; injection Hhd as ->; exact Ha.
    + destruct (step_reading dbg hash_iter s a s' Hs Hop Hpe) as [(_ & Hhi & _) _].
      rewrite Hhi in Hfind. by eapply hist_path.
Qed.

Lemma run_history l s :
  Rpc.run dbg hash_iter rpc_new l = Some s → history l s.
Proof.
  assert (history l rpc_new) as Hnew.
  { split.
    - intros q. split; [split|]; [by intros r msg Hr%not_elem_of_nil| |by apply Forall_nil_2].
      intros p hd msg Hf Hhd. destruct p as [|c p]; [by injection Hf as <-|done].
    - by intros x q Hx%not_elem_of_nil.
    - intros p hd q Hf Hhd. destruct p as [|c p]; [by injection Hf as <-|done]. }
  assert (∀ l' s0, l' ⊆ l → history l s0 → Rpc.run dbg hash_iter s0 l' = Some s → history l s) as Hgen.
  { induction l' as [|a l' IH]; intros s0 Hsub H0; cbn [Rpc.run]; [by intros [= <-]|].
    destruct (Rpc.step _ _ s0 a) as [s1|] eqn:Hs; [|done]. cbn [mbind option_bind].
    apply IH; [set_solver|]. apply (step_history l s0 a); [set_solver|done..]. }
  by apply Hgen.
Qed.
Lemma omap_NoDup_inj {A B} (f : A → option B) l a b q :
  NoDup (omap f l) → a ∈ l → b ∈ l → f a = Some q → f b = Some q → a = b.
Proof.
  intros Hnd Ha Hb Hfa Hfb. induction l as [|c l IH]; [by apply not_elem_of_nil in Ha|].
  assert (∀ x, x ∈ l → f x = Some q → f c = Some q → False) as Hno.
  { intros x Hx Hfx Hfc. cbn in Hnd. rewrite Hfc in Hnd. apply NoDup_cons in Hnd as [Hnd _].
    apply Hnd, list_elem_of_omap. by exists x. }
  apply elem_of_cons in Ha as [->|Ha], Hb as [->|Hb]; [done|by destruct (Hno b)|by destruct (Hno a)|].
  apply IH; [|done..]. cbn in Hnd. destruct (f c); [by apply NoDup_cons in Hnd as [_ ?]|done].
Qed.

(** The edits of the rules are over the namespaces [N]. *)
Definition edits_ok (N : option bytes → Prop) (a : action) : Prop :=
  match rule_edit a with Some op => op_ok N op | None => True end.

Lemma run_rules_ok N l s s' :
  coherent (in_ns N) → Forall (edits_ok N) l → rules_ok N (sig_matches (recv_data s)) →
  Rpc.run dbg hash_iter s l = Some s' → rules_ok N (sig_matches (recv_data s')).
Proof.
  intros HN Hl. revert s. induction Hl as [|a l Ha _ IH]; intros s Hs; cbn [Rpc.run]; [by intros [= <-]|].
  destruct (Rpc.step _ _ s a) as [s1|] eqn:Hst; [|done]. cbn [mbind option_bind]. apply IH.
  unfold edits_ok in Ha. destruct (rule_edit a) as [op|] eqn:Hop.
  - destruct (rule_edit_step dbg hash_iter s a op Hop) as (m & Hm & Hrun). rewrite Hm in Hst.
    by destruct (edit_rule_op N HN s op m s1 Hrun Ha Hst Hs).
  - by destruct (step_no_rule dbg hash_iter s a s1 Hst Hop) as [-> _].
Qed.

(** With new queues, one edit asks for what is in a queue. *)
Lemma asked_once l a q msg :
  NoDup (omap new_queue l) → a ∈ l → new_queue a = Some q → asked l q msg → asks a msg.
Proof.
  intros Hnd Ha Hq (b & Hb & Hbq & Hm). by rewrite (omap_NoDup_inj new_queue l a b q).
Qed.

Lemma feeds_mono (P Q : MarshalledMessage → Prop) q rd :
  (∀ msg, P msg → Q msg) → feeds P q rd ∧ purely P q rd → feeds Q q rd ∧ purely Q q rd.
Proof.
  intros HPQ [[H1 H2] H3]. split; [|by eapply Forall_impl].
  split; [intros r msg ? ? ?; apply HPQ; by eapply H1|intros p hd msg ? ? ?; apply HPQ; by eapply H2].
Qed.

Lemma reachable_queues l s :
  Rpc.run dbg hash_iter rpc_new l = Some s →
  (∀ q msg, msg ∈ default [] (chans (recv_data s) !! q) → asked l q msg) ∧
  (NoDup (omap new_queue l) →
    (∀ x q, x ∈ sig_matches (recv_data s) → r_queue x = Some q →
      feeds (λ msg, matches x msg = true) q (recv_data s) ∧
      purely (λ msg, matches x msg = true) q (recv_data s) ∧
      (∀ N, coherent (in_ns N) → Forall (edits_ok N) l → serves N x q s)) ∧
    (∀ ws hd q, find_inner ws (hierarchy (recv_data s)) = Some hd → handler_queue hd = Some q →
       answers_calls ws q s)).
Proof.
  intros Hr. pose proof (run_history l s Hr) as Hh. split.
  { intros q msg Hin. destruct (hist_asked l s Hh q) as [_ Hp]. unfold purely in Hp.
    rewrite Forall_forall in Hp. by apply Hp. }
  intros Hnd. split.
  - intros x q Hx Hxq.
    assert (feeds (λ msg, matches x msg = true) q (recv_data s) ∧
      purely (λ msg, matches x msg = true) q (recv_data s)) as [Hf Hp].
    { destruct (hist_rule l s Hh x q Hx Hxq) as (r & Hin & ->).
      apply (feeds_mono (asked l q)); [|by apply hist_asked].
      intros msg Hm. exact (asked_once l (AInsertRule r q) q msg Hnd Hin eq_refl Hm). }
    split_and!; [done..|]. intros N HN Hl.
    split; [by eapply run_rules_ok; [..|exact Hr]; [done|done|apply rules_ok_nil]|].
    split; [exists x; by rewrite rule_eq_refl|done].
  - intros ws hd q Hf Hhd. split; [by rewrite Hf|].
    destruct (hist_path l s Hh ws hd q Hf Hhd) as (path & act & Hin & Hws).
    apply (feeds_mono (asked l q)); [|by apply hist_asked].
    intros msg Hm. destruct (asked_once l (AInsertCallPath path act q) q msg Hnd Hin eq_refl Hm)
      as (ws' & Hws' & Hu).
    rewrite Hws in Hws'. by injection Hws' as <-.
Qed.

(** C29: what is in the queues.  In every execution, over any rules and paths, every message
    in a queue was asked for by an insertion that brought the queue; and when each insertion
    brings its own new queue, the queue of a rule only gets and holds signals the rule
    matches, and the queue of a path calls of the object or below it.  If moreover the
    namespaces of the rules are coherent, every rule is served by its queue: this is the
    state in which [get_signal] is used. *)
Theorem queues_pure l s :
  Rpc.run dbg hash_iter rpc_new l = Some s →
  (∀ q msg, msg ∈ default [] (chans (recv_data s) !! q) → asked l q msg) ∧
  (NoDup (omap new_queue l) →
    (∀ x q, x ∈ sig_matches (recv_data s) → r_queue x = Some q →
      feeds (λ msg, matches x msg = true) q (recv_data s) ∧
      purely (λ msg, matches x msg = true) q (recv_data s) ∧
      (∀ N, coherent (in_ns N) → Forall (edits_ok N) l → serves N x q s)) ∧
    (∀ ws hd q, find_inner ws (hierarchy (recv_data s)) = Some hd → handler_queue hd = Some q →
       answers_calls ws q s)).
Proof. apply reachable_queues. Qed.
End history.

(** ** A concrete execution *)

#[local] Existing Instance text_marshal.

(** A rule and a path are set; a signal and a call arrive, and a task that waits for
    something else sorts them. *)
Definition both_queues : list action :=
  [AInsertRule by_interface 0; AInsertCallPath (lit "/") AQueue 1; AArrive (Ok changed);
   AArrive (Ok call_out); AGetSignal sample_rule].

Lemma both_queues_ok : Forall (edits_ok no_ns) both_queues.
Proof.
  repeat first [apply List.Forall_nil | apply List.Forall_cons]; try exact I.
  split; [reflexivity|by left].
Qed.

Lemma both_queues_new : NoDup (omap new_queue both_queues).
Proof. apply (bool_decide_unpack (NoDup [0; 1])). by vm_compute. Qed.

Lemma queues_pure_witness :
  ∃ s, Rpc.run true map_to_list rpc_new both_queues = Some s ∧
    chans (recv_data s) !! 0 = Some [changed] ∧ asked true both_queues 0 changed ∧
    serves no_ns (with_queue by_interface 0) 0 s.
Proof.
  destruct (Rpc.run true map_to_list rpc_new both_queues) as [s|] eqn:Hr;
    [|vm_compute in Hr; discriminate Hr].
  assert (chans (recv_data s) !! 0 = Some [changed] ∧
    sig_matches (recv_data s) = [with_queue by_interface 0]) as [Hc Hm]
    by (vm_compute in Hr; injection Hr as <-; split; reflexivity).
  destruct (queues_pure true map_to_list both_queues s Hr) as [Hasked Hserves].
  exists s. split_and!; [reflexivity|exact Hc| |].
  - apply Hasked. refine (eq_ind_r (λ o, changed ∈ default [] o) _ Hc). by left.
  - apply (Hserves both_queues_new); [rewrite Hm; by left|reflexivity| |].
    + exact no_ns_coherent.
    + exact both_queues_ok.
Defined.

Lemma get_signal_spec_witness :
  ∃ s s' msg, Rpc.run true map_to_list rpc_new both_queues = Some s ∧
    exec true map_to_list (Running (get_signal (with_queue by_interface 0))) [alone; alone] s =
      Some (Running (Ret (Ok msg)), s') ∧ matches by_interface msg = true ∧
    is_Some (client_step true map_to_list (Running (get_signal (with_queue by_interface 0)))
      (arrival changed) s).
Proof.
  destruct (Rpc.run true map_to_list rpc_new both_queues) as [s|] eqn:Hr;
    [|vm_compute in Hr; discriminate Hr].
  destruct (run_ok true map_to_list 0 rpc_new both_queues s rpc_new_ok eq_refl Hr) as (n & Hn & Hok).
  destruct (proj2 (reachable_queues true map_to_list both_queues s Hr) both_queues_new) as [Hserves _].
  assert (sig_matches (recv_data s) = [with_queue by_interface 0]) as Hm
    by (vm_compute in Hr; by injection Hr as <-).
  destruct (exec true map_to_list (Running (get_signal (with_queue by_interface 0))) [alone; alone] s)
    as [[[[res|?|?|?]|?|?] s']|] eqn:He;
    try (vm_compute in Hr; injection Hr as <-; vm_compute in He; discriminate He).
  assert (∃ msg, res = Ok msg) as [msg ->]
    by (vm_compute in Hr; injection Hr as <-; vm_compute in He; injection He as <- _; by eexists).
  exists s, s', msg. split; [reflexivity|]. split; [exact He|].
  assert (serves no_ns (with_queue by_interface 0) 0 s) as Hs
    by (apply Hserves; [rewrite Hm; by left|reflexivity|exact no_ns_coherent|exact both_queues_ok]).
  split.
  - refine (proj2 (proj1 (get_signal_spec true map_to_list no_ns no_ns_coherent
      (with_queue by_interface 0) 0 [alone; alone] n s eq_refl Hs Hok _ _) (Ok msg) s' He)).
    + cbn in Hn |- *. unfold u32_mod. lia.
    + by repeat first [apply List.Forall_nil | apply List.Forall_cons].
  - refine (proj2 (get_signal_spec true map_to_list no_ns no_ns_coherent
      (with_queue by_interface 0) 0 [arrival changed] n s eq_refl Hs Hok _ _)
      [] (arrival changed) (Running (get_signal (with_queue by_interface 0))) s
      (set_recv_data s (set_inbox (recv_data s) [Ok changed])) _ eq_refl _ _ _).
    + cbn in Hn |- *. unfold u32_mod. lia.
    + repeat first [apply List.Forall_nil | apply List.Forall_cons]. by split.
    + reflexivity.
    + vm_compute in Hr. injection Hr as <-. reflexivity.
    + discriminate.
    + apply List.Forall_cons; [exact I|apply List.Forall_nil].
Defined.

Lemma get_call_spec_witness :
  ∃ s s' msg, Rpc.run true map_to_list rpc_new both_queues = Some s ∧
    exec true map_to_list (Running (get_call true (mk_path []))) [alone; alone] s =
      Some (Running (Ret (Ok msg)), s') ∧ call_under [] msg.
Proof.
  destruct (Rpc.run true map_to_list rpc_new both_queues) as [s|] eqn:Hr;
    [|vm_compute in Hr; discriminate Hr].
  destruct (run_ok true map_to_list 0 rpc_new both_queues s rpc_new_ok eq_refl Hr) as (n & Hn & Hok).
  destruct (proj2 (reachable_queues true map_to_list both_queues s Hr) both_queues_new) as [_ Hcalls].
  assert (find_inner [] (hierarchy (recv_data s)) = Some (HQueue 1)) as Hf
    by (vm_compute in Hr; by injection Hr as <-).
  destruct (exec true map_to_list (Running (get_call true (mk_path []))) [alone; alone] s)
    as [[[[res|?|?|?]|?|?] s']|] eqn:He;
    try (vm_compute in Hr; injection Hr as <-; vm_compute in He; discriminate He).
  assert (∃ msg, res = Ok msg) as [msg ->]
    by (vm_compute in Hr; injection Hr as <-; vm_compute in He; injection He as <- _; by eexists).
  exists s, s', msg. split; [reflexivity|]. split; [exact He|].
  refine (proj2 (get_call_spec true map_to_list [] 1 [alone; alone] n s (Ok msg) s'
    (List.Forall_nil _) _ Hok _ _ He)).
  - by apply (Hcalls [] (HQueue 1)).
  - cbn in Hn |- *. unfold u32_mod. lia.
  - by repeat first [apply List.Forall_nil | apply List.Forall_cons].
Defined.
