(* ===== verification/Auth.v ===== *)
(** * conn/mod.rs: authentication and descriptor negotiation

    Before the first message the connection runs the line-based SASL dialogue of D-Bus:
    [do_auth], then [negotiate_unix_fds] if descriptors are wanted; Conn.v adds [BEGIN].

    The peer is the list of the results of the successive reads (an empty read is the end
    of the stream; after the list nothing arrives any more) and of the successive writes,
    and what was sent to it.  An operation that waits for ever gives no result. *)

From S2P Require Import Prelude Utils Message.
From Stdlib Require Import Lia.

Record Peer := MkPeer {
  p_reads : list (io_result bytes);
  p_writes : list (io_result unit);
  p_sent : bytes;
}.

Definition Auth (A : Type) : Type := Peer → option (io_result A) * Peer.

#[export] Instance auth_ret : MRet Auth := λ A a p, (Some (Ok a), p).

#[export] Instance auth_bind : MBind Auth := λ A B f m p,
  match m p with
  | (Some (Ok a), p) => f a p
  | (Some (Err e), p) => (Some (Err e), p)
  | (Some Panic, p) => (Some Panic, p)
  | (None, p) => (None, p)
  end.

Definition throw {A} (e : ErrorKind) : Auth A := λ p, (Some (Err e), p).

Definition lift {A} (m : io_result A) : Auth A := λ p, (Some m, p).

(** [match op.await { Ok(_) => .., Err(e) => .. }]. *)
Definition catch {A B} (m : Auth A) (ok : A → Auth B) (err : ErrorKind → Auth B) : Auth B := λ p,
  match m p with
  | (Some (Ok a), p) => ok a p
  | (Some (Err e), p) => err e p
  | (Some Panic, p) => (Some Panic, p)
  | (None, p) => (None, p)
  end.

Definition write_all (b : bytes) : Auth unit := λ p,
  match p_writes p with
  | Err e :: ws => (Some (Err e), MkPeer (p_reads p) ws (p_sent p))
  | ws => (Some (Ok ()), MkPeer (p_reads p) (tail ws) (p_sent p ++ b))
  end.

Definition CR : u8 := u8_of 13.
Definition LF : u8 := u8_of 10.
Definition DBUS_LINE_END : bytes := [CR; LF].

Fixpoint find_line_ending (buf : bytes) : option nat :=
  match buf with
  | a :: buf' =>
      match buf' with
      | b :: _ => if decide (a = CR ∧ b = LF) then Some 0 else S <$> find_line_ending buf'
      | [] => None
      end
  | [] => None
  end.

(** The line in the part of the buffer filled so far, decided once it is complete or the
    buffer is full: the rest of a line that starts with [buf]. *)
Definition decide_line (buf read_buf : bytes) : option (option bytes) :=
  match find_line_ending read_buf with
  | Some loc =>
      Some (if decide (loc < length buf) then None
            else if decide (take (length buf) read_buf = buf)
            then Some (drop (length buf) (take loc read_buf)) else None)
  | None => if decide (length read_buf = 512) then Some None else None
  end.

(** The loop of [starts_with].  What a read brings beyond the buffer stays in the stream;
    the buffer is then full, and the next round is the last. *)
Fixpoint starts_with_loop (buf read_buf : bytes) (reads : list (io_result bytes))
    : option (io_result (option bytes)) * list (io_result bytes) :=
  match decide_line buf read_buf with
  | Some r => (Some (Ok r), reads)
  | None =>
      match reads with
      | [] => (None, [])
      | Ok r :: reads' =>
          let n := 512 - length read_buf in
          match drop n r with
          | [] => starts_with_loop buf (read_buf ++ r) reads'
          | rest => (Ok <$> decide_line buf (read_buf ++ take n r), Ok rest :: reads')
          end
      | Err e :: reads' => (Some (Err e), reads')
      | Panic :: reads' => (Some Panic, reads')
      end
  end.

Section auth.
Context (dbg : bool) (geteuid : N).

Definition starts_with (buf : bytes) : Auth (option bytes) := λ p,
  if dbg && negb (bool_decide (length buf ≤ 510)) then (Some Panic, p) else
  let '(r, reads) := starts_with_loop buf [] (p_reads p) in
  (r, MkPeer reads (p_writes p) (p_sent p)).

(** The names are kept in a list here; only membership is asked of the set. *)
Definition find_auth_mechs : Auth (list bytes) :=
  _ ← write_all (lit "AUTH" ++ DBUS_LINE_END);
  ret ← starts_with (lit "REJECTED");
  match ret with
  | Some s =>
      if decide (s = []) then mret []
      else if utf8_valid s then mret (split_on " "%char s)
      else throw PermissionDenied
  | None => mret []
  end.

Definition await_ok : Auth unit :=
  r ← starts_with (lit "OK");
  match r with Some _ => mret () | None => throw PermissionDenied end.

(** The largest power of ten not above the user id, in [u32]. *)
Fixpoint find_order (fuel : nat) (order pid : N) : io_result N :=
  let product := (order * 10)%N in
  if dbg && (u32_mod <=? product)%N then Panic else
  let next := wrap32 product in
  if decide (next = 0%N) then Panic else
  if decide ((pid / next)%N = 0%N) then Ok order else
  match fuel with O => Panic | S fuel' => find_order fuel' next pid end.

(** The digits as hexadecimal of their ASCII codes. *)
Fixpoint push_digits (fuel : nat) (order pid : N) (to_write : bytes) : io_result bytes :=
  if decide (order = 0%N) then Ok to_write else
  match fuel with
  | O => Panic
  | S fuel' =>
      let to_write := to_write ++ ["3"%char] in
      let digit := (pid / order)%N in
      let code := (48 + digit mod 256)%N in
      if dbg && (256 <=? code)%N then Panic else
      push_digits fuel' (order / 10) (pid - digit * order)
        (to_write ++ [u8_of (code mod 256)])
  end.

(** The line [do_external_auth] writes. *)
Definition external_line : io_result bytes :=
  order ← find_order 32 1 geteuid;
  to_write ← push_digits 32 order geteuid (lit "AUTH EXTERNAL ");
  mret (to_write ++ DBUS_LINE_END).

Definition do_external_auth : Auth unit :=
  line ← lift external_line; _ ← write_all line; await_ok.

Definition do_anon_auth : Auth unit :=
  _ ← write_all (lit "AUTH ANONYMOUS" ++ DBUS_LINE_END); await_ok.

(** The rest of [do_auth] once EXTERNAL has not worked. *)
Definition then_anonymous (mechs : list bytes) (err : option ErrorKind) : Auth unit :=
  if decide (lit "ANONYMOUS" ∈ mechs) then catch do_anon_auth mret throw
  else match err with Some e => throw e | None => throw PermissionDenied end.

Definition do_auth : Auth unit :=
  _ ← write_all [u8_of 0];
  mechs ← find_auth_mechs;
  if decide (lit "EXTERNAL" ∈ mechs) then
    catch do_external_auth mret (λ e, then_anonymous mechs (Some e))
  else then_anonymous mechs None.

Definition negotiate_unix_fds : Auth bool :=
  _ ← write_all (lit "NEGOTIATE_UNIX_FD" ++ DBUS_LINE_END);
  o ← starts_with (lit "AGREE_UNIX_FD");
  mret (bool_decide (is_Some o)).
End auth.

(** ** Lines *)

(** [starts_with] on the whole stream at once. *)
Definition line_verdict (buf s : bytes) : option (option bytes) := decide_line buf (take 512 s).

Lemma find_line_ending_cons a b l :
  find_line_ending (a :: b :: l) =
    if decide (a = CR ∧ b = LF) then Some 0 else S <$> find_line_ending (b :: l).
Proof. done. Qed.

Lemma find_line_ending_app l k loc :
  find_line_ending l = Some loc → find_line_ending (l ++ k) = Some loc.
Proof.
  revert loc. induction l as [|a [|b l] IH]; intros loc; [done|done|].
  change ((a :: b :: l) ++ k) with (a :: b :: l ++ k). rewrite !find_line_ending_cons.
  case_decide; [done|]. intros (loc' & Hf & ->)%fmap_Some. specialize (IH _ Hf).
  change ((b :: l) ++ k) with (b :: l ++ k) in IH. by rewrite IH.
Qed.

Lemma find_line_ending_lt l loc : find_line_ending l = Some loc → loc + 2 ≤ length l.
Proof.
  revert loc. induction l as [|a [|b l] IH]; intros loc; [done|done|].
  rewrite find_line_ending_cons. case_decide; [intros [= <-]; cbn; lia|].
  intros (loc' & Hf & ->)%fmap_Some. specialize (IH _ Hf). cbn [length] in *. lia.
Qed.

Lemma take_take_le {A} n m (l k : list A) : n ≤ m → m ≤ length l → take n (l ++ k) = take n l.
Proof. intros. apply take_app_le. lia. Qed.

(** Once decided, more bytes change nothing. *)
Lemma decide_line_app buf l k r :
  length l ≤ 512 → decide_line buf l = Some r → line_verdict buf (l ++ k) = Some r.
Proof.
  intros Hl. unfold line_verdict, decide_line.
  destruct (find_line_ending l) as [loc|] eqn:Hf.
  - rewrite take_app, (take_ge l 512) by done. rewrite (find_line_ending_app _ _ _ Hf).
    pose proof (find_line_ending_lt _ _ Hf). intros [= <-]. f_equal.
    case_decide; [done|]. by rewrite !take_app_le by lia.
  - case_decide as H5; [|done]. by rewrite take_app_length', Hf, decide_True by done.
Qed.

Lemma starts_with_loop_spec buf read_buf chunks :
  length read_buf ≤ 512 →
  ∃ reads, starts_with_loop buf read_buf (map Ok chunks) =
    (Ok <$> line_verdict buf (read_buf ++ mjoin chunks), reads).
Proof.
  revert read_buf. induction chunks as [|c chunks IH]; intros read_buf Hl; cbn [map starts_with_loop];
    (destruct (decide_line buf read_buf) as [r|] eqn:Hd;
      [by eexists; rewrite (decide_line_app _ _ _ _ Hl Hd)|]).
  - eexists. change (mjoin []) with (@nil u8). rewrite app_nil_r. unfold line_verdict.
    by rewrite take_ge, Hd.
  - change (mjoin (c :: chunks)) with (c ++ mjoin chunks). cbv zeta.
    destruct (drop (512 - length read_buf) c) as [|x rest] eqn:Hr.
    + assert (length c ≤ 512 - length read_buf) as Hc.
      { apply (f_equal length) in Hr. rewrite length_drop in Hr. cbn in Hr. lia. }
      rewrite app_assoc. apply IH. rewrite length_app. lia.
    + eexists. assert (512 - length read_buf < length c) as Hc.
      { apply (f_equal length) in Hr. rewrite length_drop in Hr. cbn in Hr. lia. }
      unfold line_verdict. rewrite take_app, (take_ge read_buf), (take_app_le c) by lia. done.
Qed.

(** a line is read the same however it arrives.  Whatever the pieces in which the
    peer's bytes come, [starts_with] decides what their first line within 512 bytes
    decides: the rest of the line if it starts with the text, [None] if it does not or the
    line is too long, and it waits if there is no line yet. *)
Theorem starts_with_chunks dbg buf chunks ws sent :
  length buf ≤ 510 →
  ∃ reads, starts_with dbg buf (MkPeer (map Ok chunks) ws sent) =
    (Ok <$> line_verdict buf (mjoin chunks), MkPeer reads ws sent).
Proof.
  intros Hb. unfold starts_with. rewrite bool_decide_eq_true_2, andb_false_r by done.
  destruct (starts_with_loop_spec buf [] chunks) as [reads Hs]; [cbn; lia|].
  cbn [p_reads p_writes p_sent]. rewrite Hs. by exists reads.
Qed.

(** at the end of the stream [starts_with] reads for ever.  When the peer has closed
    before a complete line, every read is empty, and no number of them makes it return. *)
Theorem starts_with_eof dbg buf s n ws sent :
  length buf ≤ 510 → line_verdict buf s = None →
  ∃ reads, starts_with dbg buf (MkPeer (Ok s :: replicate n (Ok [])) ws sent) =
    (None, MkPeer reads ws sent).
Proof.
  intros Hb Hv. unfold starts_with. rewrite bool_decide_eq_true_2, andb_false_r by done.
  destruct (starts_with_loop_spec buf [] (s :: replicate n [])) as [reads Hs]; [cbn; lia|].
  cbn [map] in Hs. cbn [p_reads p_writes p_sent].
  assert (map (Ok (E:=ErrorKind)) (replicate n ([] : bytes)) = replicate n (Ok [])) as Hm
    by (clear; induction n as [|n IH]; cbn; [done|by rewrite IH]).
  rewrite Hm in Hs. rewrite Hs. exists reads.
  assert (mjoin (s :: replicate n []) = s) as Hj.
  { change (s ++ mjoin (replicate n ([] : bytes)) = s).
    assert (mjoin (replicate n ([] : bytes)) = []) as -> by (clear; induction n as [|n IH]; [done|exact IH]).
    apply app_nil_r. }
  cbn [app]. by rewrite Hj, Hv.
Qed.

(** ** The user id *)

(** The digits of a number at [S k] places. *)
Fixpoint digits (k : nat) (n : N) : list N :=
  match k with
  | O => [n]
  | S k' => (n / 10 ^ N.of_nat k)%N :: digits k' (n mod 10 ^ N.of_nat k)
  end.

Definition hex_digit (d : N) : bytes := ["3"%char; u8_of (48 + d)].

Definition numeral_value (ds : list N) : N := foldl (λ acc d, 10 * acc + d)%N 0%N ds.

Lemma pow10_pos k : (0 < 10 ^ k)%N.
Proof. apply N.neq_0_lt_0, N.pow_nonzero. done. Qed.

Lemma pow10_succ k : (10 ^ N.of_nat (S k) = 10 * 10 ^ N.of_nat k)%N.
Proof. rewrite Nat2N.inj_succ. apply N.pow_succ_r'. Qed.

Lemma digits_small k n : (n < 10 ^ N.of_nat (S k))%N → Forall (λ d, d < 10)%N (digits k n).
Proof.
  revert n. induction k as [|k IH]; intros n Hn; cbn [digits].
  - apply Forall_singleton. exact Hn.
  - rewrite pow10_succ in Hn. apply Forall_cons. split.
    + apply N.Div0.div_lt_upper_bound. lia.
    + apply IH, N.mod_lt, N.pow_nonzero. done.
Qed.

Lemma digits_value k n acc :
  (n < 10 ^ N.of_nat (S k))%N →
  foldl (λ a d, 10 * a + d)%N acc (digits k n) = (acc * 10 ^ N.of_nat (S k) + n)%N.
Proof.
  revert n acc. induction k as [|k IH]; intros n acc Hn; cbn [digits foldl].
  - change (10 ^ N.of_nat 1)%N with 10%N. lia.
  - rewrite IH by (apply N.mod_lt, N.pow_nonzero; done).
    pose proof (N.div_mod' n (10 ^ N.of_nat (S k))). rewrite (pow10_succ (S k)). lia.
Qed.

Section uid.
Context (dbg : bool).

(** Below 10^9 nothing overflows. *)
Lemma find_order_spec fuel k pid :
  (pid < 10 ^ 9)%N → k ≤ 8 → 8 - k ≤ fuel → (k = 0 ∨ (10 ^ N.of_nat k ≤ pid)%N) →
  ∃ k', find_order dbg fuel (10 ^ N.of_nat k) pid = Ok (10 ^ N.of_nat k')%N ∧ k' ≤ 8 ∧
    (pid < 10 ^ N.of_nat (S k'))%N ∧ (k' = 0 ∨ (10 ^ N.of_nat k' ≤ pid)%N).
Proof.
  intros Hpid. revert k. induction fuel as [|fuel IH]; intros k Hk Hfuel Hlow; cbn [find_order];
    rewrite N.mul_comm, <- pow10_succ;
    (assert (10 ^ N.of_nat (S k) ≤ 10 ^ 9)%N as Hle by (apply N.pow_le_mono_r; lia));
    change (10 ^ 9)%N with 1000000000%N in *;
    (destruct (N.leb_spec u32_mod (10 ^ N.of_nat (S k))) as [Hbad|_]; [unfold u32_mod in Hbad; lia|]);
    rewrite andb_false_r, wrap32_small by (unfold u32_mod; lia);
    pose proof (pow10_pos (N.of_nat (S k))) as Hpos; rewrite decide_False by lia;
    (destruct (decide (pid < 10 ^ N.of_nat (S k))%N) as [Hlt|Hge];
      [rewrite N.div_small, decide_True by done; by exists k|]).
  - assert (k = 8) as -> by lia. change (10 ^ N.of_nat 9)%N with 1000000000%N in *. lia.
  - rewrite decide_False.
    2:{ intros Hz. apply N.div_small_iff in Hz; lia. }
    assert (k ≠ 8) by (intros ->; change (10 ^ N.of_nat 9)%N with 1000000000%N in *; lia).
    apply IH; [lia|lia|right; lia].
Qed.

Lemma push_digits_spec fuel k pid acc :
  (pid < 10 ^ N.of_nat (S k))%N → k < fuel →
  push_digits dbg fuel (10 ^ N.of_nat k) pid acc = Ok (acc ++ mjoin (map hex_digit (digits k pid))).
Proof.
  revert fuel pid acc. induction k as [|k IH]; intros fuel pid acc Hpid Hf;
    (destruct fuel as [|fuel]; [lia|]); cbn [push_digits];
    rewrite decide_False by (apply N.pow_nonzero; done); cbv zeta.
  - change (10 ^ N.of_nat 0)%N with 1%N. change (10 ^ N.of_nat 1)%N with 10%N in Hpid.
    rewrite N.div_1_r, !N.mod_small by lia.
    destruct (N.leb_spec 256 (48 + pid)); [lia|]. rewrite andb_false_r.
    change (1 / 10)%N with 0%N. destruct fuel; cbn; by rewrite <- app_assoc.
  - rewrite pow10_succ in Hpid.
    assert (pid / 10 ^ N.of_nat (S k) < 10)%N as Hd by (apply N.Div0.div_lt_upper_bound; lia).
    rewrite !N.mod_small by lia. destruct (N.leb_spec 256 (48 + pid / 10 ^ N.of_nat (S k))); [lia|].
    rewrite andb_false_r.
    replace (10 ^ N.of_nat (S k) / 10)%N with (10 ^ N.of_nat k)%N
      by (rewrite pow10_succ, N.mul_comm, N.div_mul; done).
    replace (pid - pid / 10 ^ N.of_nat (S k) * 10 ^ N.of_nat (S k))%N
      with (pid mod 10 ^ N.of_nat (S k))%N by (rewrite N.Div0.mod_eq; lia).
    rewrite IH by (lia || apply N.mod_lt, N.pow_nonzero; done).
    cbn [digits map]. rewrite <- !app_assoc. done.
Qed.
(** The same with the order given as a number. *)
Lemma find_order_from fuel k order pid :
  order = (10 ^ N.of_nat k)%N → (pid < 10 ^ 9)%N → k ≤ 8 → 8 - k ≤ fuel →
  (k = 0 ∨ (order ≤ pid)%N) →
  ∃ k', find_order dbg fuel order pid = Ok (10 ^ N.of_nat k')%N ∧ k' ≤ 8 ∧
    (pid < 10 ^ N.of_nat (S k'))%N ∧ (k' = 0 ∨ (10 ^ N.of_nat k' ≤ pid)%N).
Proof. intros ->. apply find_order_spec. Qed.
End uid.

Lemma external_line_digits dbg uid :
  (uid < 10 ^ 9)%N →
  ∃ k, external_line dbg uid =
      Ok (lit "AUTH EXTERNAL " ++ mjoin (map hex_digit (digits k uid)) ++ DBUS_LINE_END) ∧
    (uid < 10 ^ N.of_nat (S k))%N ∧ (k = 0 ∨ (10 ^ N.of_nat k ≤ uid)%N).
Proof.
  intros Huid.
  destruct (find_order_from dbg 32 0 1 uid eq_refl Huid ltac:(lia) ltac:(lia) ltac:(by left))
    as (k & Ho & Hk & Hlt & Hlow).
  pose proof (push_digits_spec dbg 32 k uid (lit "AUTH EXTERNAL ") Hlt ltac:(lia)) as Hp.
  exists k. split; [|by split]. apply bind_Ok_inv. exists (10 ^ N.of_nat k)%N. split; [exact Ho|].
  apply bind_Ok_inv. eexists. split; [exact Hp|]. rewrite app_assoc. reflexivity.
Qed.

(** the user id is sent as the hexadecimal of its decimal numeral.  For every id
    below 10^9 the line is made without overflow, of one byte pair per digit, and its
    digits are the number's, without a leading zero. *)
Theorem external_line_spec dbg uid :
  (uid < 10 ^ 9)%N →
  ∃ ds, external_line dbg uid =
      Ok (lit "AUTH EXTERNAL " ++ mjoin (map hex_digit ds) ++ DBUS_LINE_END) ∧
    Forall (λ d, d < 10)%N ds ∧ numeral_value ds = uid ∧ (head ds = Some 0%N → ds = [0%N]).
Proof.
  intros Huid. destruct (external_line_digits dbg uid Huid) as (k & He & Hlt & Hlow).
  exists (digits k uid). split; [done|]. split; [by apply digits_small|]. split.
  - unfold numeral_value. by rewrite digits_value.
  - destruct k as [|k]; cbn; [congruence|]. intros [= H0].
    destruct Hlow as [|Hlow]; [done|]. apply N.div_small_iff in H0; [lia|].
    apply N.pow_nonzero. done.
Qed.

(** an id of ten digits overflows.  From 10^9 on the order of magnitude is multiplied
    past the range of [u32]: with overflow checks [do_external_auth] panics. *)
Theorem external_line_overflow uid :
  (10 ^ 9 ≤ uid < u32_mod)%N → external_line true uid = Panic.
Proof.
  intros Hu. unfold external_line.
  assert (∀ j fuel, j ≤ 9 → find_order true (fuel + j) (10 ^ N.of_nat (9 - j)) uid = Panic) as Hf.
  { induction j as [|j IH]; intros fuel Hj.
    - destruct (fuel + 0); done.
    - replace (fuel + S j) with (S (fuel + j)) by lia. cbn [find_order].
      rewrite N.mul_comm, <- pow10_succ. replace (S (9 - S j)) with (9 - j) by lia.
      assert (10 ^ N.of_nat (9 - j) ≤ 10 ^ 9)%N as Hle by (apply N.pow_le_mono_r; lia).
      change (10 ^ 9)%N with 1000000000%N in *. pose proof (pow10_pos (N.of_nat (9 - j))).
      destruct (N.leb_spec u32_mod (10 ^ N.of_nat (9 - j))); [done|]. cbn [andb].
      rewrite wrap32_small, decide_False by lia. rewrite decide_False.
      2:{ intros Hz. apply N.div_small_iff in Hz; lia. }
      apply IH. lia. }
  specialize (Hf 9 23 ltac:(lia)). change (10 ^ N.of_nat (9 - 9))%N with 1%N in Hf.
  change (23 + 9) with 32 in Hf. by rewrite Hf.
Qed.

(** ** The dialogue *)

(** A line the peer sends in one piece. *)
Definition reply (l : bytes) : io_result bytes := Ok (l ++ DBUS_LINE_END).

Definition a_line (l : bytes) : Prop := find_line_ending (l ++ [CR]) = None ∧ length l ≤ 510.

Definition after_prefix (buf l : bytes) : option bytes :=
  if decide (buf `prefix_of` l) then Some (drop (length buf) l) else None.

Lemma find_line_ending_line l : a_line l → find_line_ending (l ++ DBUS_LINE_END) = Some (length l).
Proof.
  intros [Hl _]. revert Hl. induction l as [|a [|b l] IH]; intros Hl.
  - done.
  - cbn [app] in *. rewrite find_line_ending_cons in Hl. unfold DBUS_LINE_END.
    rewrite find_line_ending_cons. case_decide; [done|]. by rewrite find_line_ending_cons.
  - cbn [app] in *. rewrite find_line_ending_cons in Hl |- *. case_decide; [done|].
    apply fmap_None in Hl. by rewrite (IH Hl).
Qed.

Lemma starts_with_reply dbg buf l reads ws sent :
  length buf ≤ 510 → a_line l →
  starts_with dbg buf (MkPeer (reply l :: reads) ws sent) =
    (Some (Ok (after_prefix buf l)), MkPeer reads ws sent).
Proof.
  intros Hb Hl. unfold starts_with. rewrite bool_decide_eq_true_2, andb_false_r by done.
  cbn [p_reads p_writes p_sent starts_with_loop reply]. pose proof Hl as [_ Hlen].
  assert (length (l ++ DBUS_LINE_END) ≤ 512) as H512 by (rewrite length_app; cbn; lia).
  assert (decide_line buf [] = None) as -> by done.
  cbv zeta. rewrite (drop_ge (l ++ DBUS_LINE_END)) by done. cbn [app].
  assert (decide_line buf (l ++ DBUS_LINE_END) = Some (after_prefix buf l)) as Hd.
  { unfold decide_line, after_prefix. rewrite find_line_ending_line by done.
    rewrite take_app_length. f_equal. case_decide as Hlt.
    - rewrite decide_False; [done|]. intros Hp%prefix_length. lia.
    - rewrite take_app_le by lia. destruct (decide (take (length buf) l = buf)) as [He|He].
      + rewrite decide_True; [done|]. rewrite <- He at 1. apply prefix_take.
      + rewrite decide_False; [done|]. intros [k ->]. by rewrite take_app_length in He. }
  destruct reads; cbn [starts_with_loop]; by rewrite Hd.
Qed.

Definition offered (l : bytes) : list bytes :=
  match after_prefix (lit "REJECTED") l with
  | Some s => if decide (s = []) then [] else split_on " "%char s
  | None => []
  end.

Definition accepted (l : bytes) : Prop := is_Some (after_prefix (lit "OK") l).

#[export] Instance accepted_dec l : Decision (accepted l).
Proof. unfold accepted. apply _. Defined.

Lemma auth_bind_ok {A B} (m : Auth A) (f : A → Auth B) p a p' :
  m p = (Some (Ok a), p') → (m ≫= f) p = f a p'.
Proof. intros Hm. unfold mbind, auth_bind. by rewrite Hm. Qed.

Section dialogue.
Context (dbg : bool) (uid : N).

Lemma find_auth_mechs_reply l reads sent :
  a_line l → (∀ s, after_prefix (lit "REJECTED") l = Some s → utf8_valid s = true) →
  find_auth_mechs dbg (MkPeer (reply l :: reads) [] sent) =
    (Some (Ok (offered l)), MkPeer reads [] (sent ++ lit "AUTH" ++ DBUS_LINE_END)).
Proof.
  intros Hl Hu. unfold find_auth_mechs, mbind, auth_bind at 1, write_all.
  cbn [p_reads p_writes p_sent tail]. unfold auth_bind at 1.
  rewrite starts_with_reply by (done || cbn; lia). unfold offered.
  destruct (after_prefix (lit "REJECTED") l) as [s|]; [|done].
  case_decide; [done|]. by rewrite (Hu s).
Qed.

Lemma await_ok_reply l reads sent :
  a_line l →
  await_ok dbg (MkPeer (reply l :: reads) [] sent) =
    (Some (if decide (accepted l) then Ok () else Err PermissionDenied), MkPeer reads [] sent).
Proof.
  intros Hl. unfold await_ok, mbind, auth_bind. rewrite starts_with_reply by (done || cbn; lia).
  destruct (decide (accepted l)) as [[s Hs]|Hn].
  - by rewrite Hs.
  - apply eq_None_not_Some in Hn. by rewrite Hn.
Qed.

Definition anon_line : bytes := lit "AUTH ANONYMOUS" ++ DBUS_LINE_END.

Lemma then_anonymous_reply mechs l reads sent err :
  a_line l → err = None ∨ err = Some PermissionDenied →
  ∃ reads', then_anonymous dbg mechs err (MkPeer (reply l :: reads) [] sent) =
    (Some (if decide (lit "ANONYMOUS" ∈ mechs ∧ accepted l) then Ok () else Err PermissionDenied),
     MkPeer reads' [] (sent ++ (if decide (lit "ANONYMOUS" ∈ mechs) then anon_line else []))).
Proof.
  intros Hl Herr. unfold then_anonymous. destruct (decide (lit "ANONYMOUS" ∈ mechs)) as [Hin|Hin].
  - exists reads. unfold catch, do_anon_auth, mbind, auth_bind, write_all.
    cbn [p_reads p_writes p_sent tail]. rewrite await_ok_reply by done.
    destruct (decide (accepted l)).
    + by rewrite decide_True by done.
    + by rewrite decide_False by naive_solver.
  - exists (reply l :: reads). rewrite decide_False by naive_solver. rewrite app_nil_r.
    by destruct Herr as [-> | ->].
Qed.

(** C32: the outcome of authentication.  With a peer that answers each command with one
    line of at most 510 bytes in one piece, UTF-8 in its list of mechanisms, with writes that
    do not fail and a user id whose line does not overflow, [do_auth] returns: with
    success exactly if the peer accepts EXTERNAL, having offered it, or ANONYMOUS, having
    offered it and not accepted EXTERNAL before; otherwise with [PermissionDenied].  What
    it has sent are the commands it tried, the id in hexadecimal. *)
Theorem do_auth_dialogue l1 l2 l3 line :
  a_line l1 → a_line l2 → a_line l3 →
  (∀ s, after_prefix (lit "REJECTED") l1 = Some s → utf8_valid s = true) →
  external_line dbg uid = Ok line →
  let external := lit "EXTERNAL" ∈ offered l1 in
  let anonymous := lit "ANONYMOUS" ∈ offered l1 in
  let last := if decide external then l3 else l2 in
  let external_ok := external ∧ accepted l2 in
  ∃ r p, do_auth dbg uid (MkPeer [reply l1; reply l2; reply l3] [] []) = (Some r, p) ∧
    (r = Ok () ∨ r = Err PermissionDenied) ∧
    (r = Ok () ↔ external_ok ∨ (anonymous ∧ accepted last)) ∧
    p_sent p = u8_of 0 :: lit "AUTH" ++ DBUS_LINE_END ++
      (if decide external then line else []) ++
      (if decide (anonymous ∧ ¬ external_ok) then anon_line else []).
Proof.
  intros H1 H2 H3 Hu Hline external anonymous last external_ok.
  unfold do_auth. erewrite auth_bind_ok by done. cbn [p_reads p_writes p_sent tail app].
  erewrite auth_bind_ok by (by apply find_auth_mechs_reply). fold external.
  unfold last, external_ok. destruct (decide external) as [Hext|Hext].
  - unfold catch at 1, do_external_auth. erewrite auth_bind_ok by (unfold lift; by rewrite Hline).
    erewrite auth_bind_ok by done. cbn [p_reads p_writes p_sent tail].
    rewrite await_ok_reply by done. destruct (decide (accepted l2)) as [Ha|Ha].
    + eexists _, _. split; [done|]. split; [by left|]. split; [naive_solver|].
      destruct (decide (anonymous ∧ _)) as [|_]; [naive_solver|]. cbn [p_sent].
      by rewrite app_nil_r, <- !app_assoc.
    + match goal with |- context [MkPeer [reply l3] [] ?st] =>
        destruct (then_anonymous_reply (offered l1) l3 [] st (Some PermissionDenied) H3
          ltac:(by right)) as (reads' & Heq) end. rewrite Heq. fold anonymous.
      eexists _, _. split; [done|]. cbn [p_sent]. rewrite <- !app_assoc.
      clear Heq. destruct (decide (anonymous ∧ accepted l3)) as [Hx|Hx].
      all: split; [auto|]; split; [naive_solver|].
      all: change ([u8_of 0] ++ ?l) with (u8_of 0 :: l); do 4 f_equal.
      all: destruct (decide anonymous), (decide (anonymous ∧ _)); naive_solver.
  - destruct (then_anonymous_reply (offered l1) l2 [reply l3] ([u8_of 0] ++ lit "AUTH" ++ DBUS_LINE_END)
      None H2 ltac:(by left)) as (reads' & Heq). rewrite Heq. fold anonymous.
    eexists _, _. split; [done|]. cbn [p_sent]. rewrite <- !app_assoc.
    clear Heq. destruct (decide (anonymous ∧ accepted l2)) as [Hx|Hx].
    all: split; [auto|]; split; [naive_solver|].
    all: change ([u8_of 0] ++ ?l) with (u8_of 0 :: l); do 3 f_equal.
    all: destruct (decide anonymous), (decide (anonymous ∧ _)); naive_solver.
Qed.
End dialogue.

(** ** Concrete dialogues *)

Lemma starts_with_chunks_witness :
  ∃ reads, starts_with true (lit "OK") (MkPeer [Ok (lit "O"); Ok (lit "K 12" ++ [CR]); Ok [LF]] [] [])
    = (Some (Ok (Some (lit " 12"))), MkPeer reads [] []).
Proof.
  destruct (starts_with_chunks true (lit "OK") [lit "O"; lit "K 12" ++ [CR]; [LF]] [] [])
    as [reads He]; [vm_compute; lia|].
  exists reads. transitivity (Ok (E:=ErrorKind) <$> line_verdict (lit "OK")
    (mjoin [lit "O"; lit "K 12" ++ [CR]; [LF]]), MkPeer reads [] []); [exact He|].
  vm_compute. reflexivity.
Defined.

Lemma starts_with_eof_witness :
  ∃ reads, starts_with true (lit "OK") (MkPeer (Ok (lit "REJ") :: replicate 1000 (Ok [])) [] []) =
    (None, MkPeer reads [] []).
Proof.
  apply (starts_with_eof true (lit "OK") (lit "REJ") 1000 [] []);
    [vm_compute; lia|by vm_compute].
Defined.

Lemma external_line_spec_witness :
  ∃ ds, Ok (lit "AUTH EXTERNAL 31303030" ++ DBUS_LINE_END) =
      Ok (E:=ErrorKind) (lit "AUTH EXTERNAL " ++ mjoin (map hex_digit ds) ++ DBUS_LINE_END) ∧
    Forall (λ d, d < 10)%N ds ∧ numeral_value ds = 1000%N ∧ (head ds = Some 0%N → ds = [0%N]).
Proof.
  destruct (external_line_spec true 1000 ltac:(lia)) as (ds & He & Hd).
  exists ds. split; [|exact Hd]. rewrite <- He. vm_compute. reflexivity.
Defined.

Lemma external_line_overflow_witness : external_line true 2000000000 = Panic.
Proof. apply external_line_overflow. split; [by vm_compute|by vm_compute]. Defined.

(** EXTERNAL refused, ANONYMOUS accepted. *)
Lemma do_auth_dialogue_witness :
  ∃ p, do_auth true 7 (MkPeer [reply (lit "REJECTED EXTERNAL ANONYMOUS"); reply (lit "REJECTED");
      reply (lit "OK 1234")] [] []) = (Some (Ok ()), p) ∧
    p_sent p = u8_of 0 :: lit "AUTH" ++ DBUS_LINE_END ++ lit "AUTH EXTERNAL 37" ++ DBUS_LINE_END ++
      lit "AUTH ANONYMOUS" ++ DBUS_LINE_END.
Proof.
  destruct (do_auth_dialogue true 7 (lit "REJECTED EXTERNAL ANONYMOUS") (lit "REJECTED")
    (lit "OK 1234") (lit "AUTH EXTERNAL 37" ++ DBUS_LINE_END))
    as (r & p & He & _ & Hr & Hs).
  - split; [by vm_compute|vm_compute; lia].
  - split; [by vm_compute|vm_compute; lia].
  - split; [by vm_compute|vm_compute; lia].
  - intros s Ha. vm_compute in Ha. injection Ha as <-. by vm_compute.
  - by vm_compute.
  - exists p. pose proof He as He'. vm_compute in He'. injection He' as Hr' _. subst r.
    split; [exact He|]. rewrite Hs. vm_compute. reflexivity.
Defined.
