(* ===== verification/Conn.v ===== *)
(** * conn/mod.rs: the connection

    [Conn] is the pair of the states of Recv.v and Sender.v over one socket, set up by
    the dialogue of Auth.v at an address of Addr.v, with a counter for serials.

    The system calls are parameters: what connecting gives, [dup], [socket], [connect].
    The second half of the file joins two connections by a stream of bytes and shows
    that together they are a queue of messages. *)

From S2P Require Import Prelude Utils Addr Body Message Header DBusWire Sender Recv Auth.
From Stdlib Require Import Lia.

Record Conn := MkConn {
  stream : Z;
  recv_state : RecvState;
  send_state : SendState;
  conn_serial : N;
}.

(** The states of a new connection. *)
Definition conn_new (fd : Z) (with_fd : bool) : Conn :=
  MkConn fd (MkRecv (SHeader []) [] [] 0 with_fd) (MkSend with_fd 0 []) 0.

(** [fd_or_os_err]: [errno] is the error of the failed call. *)
Definition fd_or_os_err (errno : ErrorKind) (fd : Z) : io_result Z :=
  if decide (fd = -1)%Z then Err errno else Ok fd.

(** ** Setting up *)

Section setup.
Context (dbg : bool) (geteuid : N) (errno : ErrorKind).

(** [libc::dup] of the stream's descriptor. *)
Context (dup : Z).

Definition conn_handshake (with_fd : bool) : Auth Conn :=
  _ ← do_auth dbg geteuid;
  let agreed : Auth bool := if with_fd then negotiate_unix_fds dbg else mret true in
  ok ← agreed;
  if (ok : bool) then
    _ ← write_all (lit "BEGIN" ++ DBUS_LINE_END);
    fd ← lift (fd_or_os_err errno dup);
    mret (conn_new fd with_fd)
  else throw ConnectionAborted.

(** A socket address of [AF_UNIX]: two bytes of family, then the path. *)
Context (AF_UNIX : N).

Definition SUN_PATH_LEN : nat := 108.

(** The address for an abstract name: the part of [sockaddr_un] given to [connect]. *)
Definition abstract_sockaddr (buf : bytes) : io_result bytes :=
  let sun_path := replicate SUN_PATH_LEN (u8_of 0) in
  if decide (1 + length buf ≤ SUN_PATH_LEN) then
    let sun_path := take 1 sun_path ++ buf ++ drop (1 + length buf) sun_path in
    let addr := take 2 (u32_bytes LittleEndian AF_UNIX) ++ sun_path in
    size ← sub_usize 108 (length buf); size ← sub_usize size 1;
    len ← sub_usize (length addr) size;
    mret (take len addr)
  else Err InvalidData.

(** What the calls give: [UnixStream::connect], [TcpStream::connect], [socket],
    [connect] and [UnixStream::from_std]. *)
Context (unix_connect tcp_connect : bytes → io_result Peer) (socket : Z)
  (connect : Z → bytes → Z) (from_std : Z → io_result Peer).

(** [connect_to_addr] up to the handshake: the peer, and the descriptors opened here that
    are still open.  [from_std] owns the one it is given. *)
Definition connect_abstract (buf : bytes) : io_result Peer * list Z :=
  match abstract_sockaddr buf with
  | Ok addr =>
      match fd_or_os_err errno socket with
      | Ok fd =>
          match fd_or_os_err errno (connect fd addr) with
          | Ok _ => (from_std fd, match from_std fd with Ok _ => [fd] | _ => [] end)
          | Err e => (Err e, [])
          | Panic => (Panic, [fd])
          end
      | Err e => (Err e, [])
      | Panic => (Panic, [])
      end
  | Err e => (Err e, [])
  | Panic => (Panic, [])
  end.

(** The handshake over a stream that was opened, or the error. *)
Definition over (r : io_result Peer) (with_fd : bool) : option (io_result Conn) :=
  match r with
  | Ok peer => (conn_handshake with_fd peer).1
  | Err e => Some (Err e)
  | Panic => Some Panic
  end.

Definition connect_to_addr (addr : text_addr) (with_fd : bool) : option (io_result Conn) :=
  match addr with
  | Path p => over (unix_connect p) with_fd
  | Tcp s => if with_fd then Some (Err InvalidInput) else over (tcp_connect s) with_fd
  | Abstract buf => over (connect_abstract buf).1 with_fd
  end.

Definition connect_to_path_byteorder (p : bytes) (with_fd : bool) : option (io_result Conn) :=
  connect_to_addr (unix_path p) with_fd.

Definition connect_to_path (p : bytes) (with_fd : bool) : option (io_result Conn) :=
  connect_to_path_byteorder p with_fd.
End setup.

(** ** Serials *)

Section serials.
Context (dbg : bool).

(** [self.serial += 1], which panics in debug builds when it overflows. *)
Definition bump (serial : N) : io_result N :=
  if dbg && (u32_mod <=? serial + 1)%N then Panic else Ok (wrap32 (serial + 1)).

(** The loop of [write_next_message]; zero comes at most once. *)
Fixpoint serial_loop (fuel : nat) (serial : N) : io_result N :=
  serial ← bump serial;
  if decide (serial ≠ 0%N) then Ok serial else
  match fuel with
  | O => Panic
  | S fuel' => serial_loop fuel' serial
  end.

Definition next_serial (serial : N) : io_result N :=
  serial ← bump serial; serial_loop 1 serial.
End serials.

(** ** The operations *)

Section operations.
Context `{WireLib} `{RecvLib}.
Context {Ty : Type} (parse_description : bytes → outcome UnmarshalError (list Ty))
  (validate_marshalled : ByteOrder → nat → bytes → Ty → outcome UnmarshalError nat).
Context (dbg : bool) (rem_capacity : nat) (cmsg_space : nat → nat) (dup : Fd → option Fd).

Definition get_next_message (self : Conn) (sock : Sock)
    : io_result MarshalledMessage * Conn * Sock :=
  let '(r, rs, sock) :=
    Recv.get_next_message parse_description validate_marshalled dbg rem_capacity (recv_state self) sock in
  (r, MkConn (stream self) rs (send_state self) (conn_serial self), sock).

Definition set_send_state (self : Conn) (ss : SendState) : Conn :=
  MkConn (stream self) (recv_state self) ss (conn_serial self).

Definition finish_sending_next (self : Conn) (answers : list answer) (w : Wire)
    : io_result nat * Conn * Wire :=
  let '(r, ss, w) := Sender.finish_sending_next cmsg_space dbg (send_state self) answers w in
  (r, set_send_state self ss, w).

(** When the counter overflows in a debug build the connection is lost with the panic. *)
Definition write_next_message (self : Conn) (msg : MarshalledMessage) (answers : list answer)
    (w : Wire) : io_result (option nat * option N) * Conn * Wire :=
  match next_serial dbg (conn_serial self) with
  | Ok idx =>
      let '(r, ss, w) :=
        Sender.write_next_message cmsg_space dbg dup (send_state self) msg idx answers w in
      ((λ b, (b, Some idx)) <$> r, MkConn (stream self) (recv_state self) ss idx, w)
  | Err e => (Err e, self, w)
  | Panic => (Panic, self, w)
  end.
End operations.

(** ** Addresses of abstract sockets *)

Section addresses.
Context (errno : ErrorKind) (AF_UNIX : N) (socket : Z) (connect : Z → bytes → Z)
  (from_std : Z → io_result Peer).

Lemma abstract_sockaddr_fits buf :
  length buf < SUN_PATH_LEN →
  abstract_sockaddr AF_UNIX buf = Ok (take 2 (u32_bytes LittleEndian AF_UNIX) ++ u8_of 0 :: buf).
Proof.
  intros Hl. unfold abstract_sockaddr, SUN_PATH_LEN in *. rewrite decide_True by lia. cbv zeta.
  set (fam := take 2 _). assert (length fam = 2) as Hf by done.
  unfold sub_usize. rewrite decide_True by lia. cbn [mbind outcome_bind].
  rewrite decide_True by lia. cbn [mbind outcome_bind].
  rewrite take_replicate, drop_replicate. change (Nat.min 1 108) with 1. cbn [replicate].
  rewrite !length_app, length_replicate, Hf. cbn [length].
  rewrite decide_True by lia. cbn [mbind outcome_bind mret outcome_ret]. f_equal.
  rewrite !app_assoc. rewrite take_app_length'; [by rewrite <- app_assoc|].
  rewrite !length_app, Hf. cbn [length]. lia.
Qed.

(** an abstract name is passed on whole, or refused, and no socket is leaked.  A name
    of up to 107 bytes connects to the address of its family, a zero byte and the name, with no
    padding; a longer one is [InvalidData] before any socket is opened; and after every
    failure the descriptors opened on the way are closed. *)
Theorem connect_abstract_spec buf :
  (length buf < SUN_PATH_LEN →
     let addr := take 2 (u32_bytes LittleEndian AF_UNIX) ++ u8_of 0 :: buf in
     connect_abstract errno AF_UNIX socket connect from_std buf =
       if decide (socket = -1)%Z then (Err errno, [])
       else if decide (connect socket addr = -1)%Z then (Err errno, [])
       else (from_std socket, match from_std socket with Ok _ => [socket] | _ => [] end)) ∧
  (SUN_PATH_LEN ≤ length buf →
     connect_abstract errno AF_UNIX socket connect from_std buf = (Err InvalidData, [])) ∧
  (∀ e l, connect_abstract errno AF_UNIX socket connect from_std buf = (Err e, l) → l = []).
Proof.
  assert (SUN_PATH_LEN ≤ length buf → abstract_sockaddr AF_UNIX buf = Err InvalidData) as Hlong
    by (intros Hl; unfold abstract_sockaddr; rewrite decide_False by lia; done).
  unfold connect_abstract, fd_or_os_err. split_and!.
  - intros Hl. rewrite abstract_sockaddr_fits by done. cbv zeta.
    destruct (decide (socket = -1)%Z); [done|]. by destruct (decide _).
  - intros Hl. by rewrite Hlong.
  - intros e l. destruct (abstract_sockaddr AF_UNIX buf); [|naive_solver..].
    destruct (decide (socket = -1)%Z); [naive_solver|]. destruct (decide _); [naive_solver|].
    destruct (from_std socket); naive_solver.
Qed.
End addresses.

(** ** Serials of a connection *)

Lemma bump_small dbg n : (n + 1 < u32_mod)%N → bump dbg n = Ok (n + 1)%N.
Proof.
  intros Hn. unfold bump. destruct (N.leb_spec u32_mod (n + 1)); [lia|].
  by rewrite andb_false_r, wrap32_small.
Qed.

Lemma next_serial_small dbg n : (n + 2 < u32_mod)%N → next_serial dbg n = Ok (n + 2)%N.
Proof.
  intros Hn. unfold next_serial. rewrite bump_small by lia. cbn [mbind outcome_bind serial_loop].
  rewrite bump_small by lia. cbn [mbind outcome_bind]. rewrite decide_True by lia. f_equal. lia.
Qed.

(** C37: the serials of a connection.  Every message takes two steps of the counter, so the
    serials of a new connection are the even numbers from two; near the end of the range
    a debug build panics, while a release build goes on at one without giving zero, the
    loop ending at its second round at the latest. *)
Theorem next_serial_spec n :
  (n < u32_mod)%N →
  next_serial true n = (if decide (n + 2 < u32_mod)%N then Ok (n + 2)%N else Panic) ∧
  next_serial false n = Ok (if decide (n + 2 < u32_mod)%N then n + 2 else 1)%N.
Proof.
  intros Hn. destruct (decide (n + 2 < u32_mod)%N) as [Hs|Hs].
  { by rewrite !next_serial_small. }
  assert (n = u32_mod - 2 ∨ n = u32_mod - 1)%N as [-> | ->] by (unfold u32_mod in *; lia);
    by vm_compute.
Qed.

(** ** Two connections

    The stream between a sender and a receiver: the bytes written and not yet read.
    [Link] refines a queue of messages. *)

Record Link := MkLink {
  l_sender : Conn;
  l_flight : bytes;
  l_receiver : Conn;
}.

(** What the two sides do, with the answers of their sockets. *)
Inductive link_op :=
| LWrite (msg : MarshalledMessage) (answers : list answer)
| LDrain (answers : list answer)
| LRead (reads : list read_answer).

Inductive link_event :=
| EvSent (msg : MarshalledMessage) (serial : N)
| EvDrained (i : nat)
| EvGot (msg : MarshalledMessage).

Section link.
Context `{WireLib} `{RecvLib}.
Context {Ty : Type} (parse_description : bytes → outcome UnmarshalError (list Ty))
  (validate_marshalled : ByteOrder → nat → bytes → Ty → outcome UnmarshalError nat).
Context (dbg : bool) (rem_capacity : nat) (cmsg_space : nat → nat) (dup : Fd → option Fd).

Definition link_new (fd1 fd2 : Z) : Link := MkLink (conn_new fd1 false) [] (conn_new fd2 false).

Definition link_step (l : Link) (op : link_op) : io_result link_event * Link :=
  match op with
  | LWrite msg answers =>
      let '(r, c, w) :=
        write_next_message dbg cmsg_space dup (l_sender l) msg answers (MkWire [] []) in
      ((λ _, EvSent msg (conn_serial c)) <$> r, MkLink c (l_flight l ++ w_bytes w) (l_receiver l))
  | LDrain answers =>
      let '(r, c, w) :=
        finish_sending_next dbg cmsg_space (l_sender l) answers (MkWire [] []) in
      (EvDrained <$> r, MkLink c (l_flight l ++ w_bytes w) (l_receiver l))
  | LRead reads =>
      let '(r, c, sock) := get_next_message parse_description validate_marshalled dbg rem_capacity
        (l_receiver l) (MkSock (l_flight l) reads false) in
      (EvGot <$> r, MkLink (l_sender l) (incoming sock) c)
  end.

(** A message as the other end gets it. *)
Definition stamped (msg : MarshalledMessage) (n : N) : MarshalledMessage :=
  mm_from_raw (fixed_of msg n) (set_serial (received msg) n) (buf (m_body msg)) [].

(** A message that can be sent without descriptors. *)
Record sendable (msg : MarshalledMessage) : Prop := {
  snd_ok : header_ok msg;
  snd_typ : typ msg ≠ TInvalid;
  snd_flags : (flags msg < 256)%N;
  snd_fds : raw_fds (m_body msg) = [];
  snd_body : (N.of_nat (length (buf (m_body msg))) < u32_mod)%N;
  snd_hdr : ∀ n hdr, marshal_header dbg msg n = Ok hdr → (N.of_nat (length hdr) < u32_mod)%N;
  snd_check : ∀ n, Body.validate parse_description validate_marshalled (m_body (stamped msg n)) = Ok ();
}.

(** A queue entry: a message with its serial, and its bytes. *)
Definition entry : Type := MarshalledMessage * N.

Definition entry_bytes (e : entry) (b : bytes) : Prop :=
  sendable e.1 ∧ (0 < e.2 < u32_mod)%N ∧
  ∃ hdr, marshal_header dbg e.1 e.2 = Ok hdr ∧ b = hdr ++ buf (m_body e.1).

(** The invariant: the bytes on the way, from those the receiver holds of its current
    message to those the sender still queues, are those of the messages [q]. *)
Definition link_inv (l : Link) (q : list entry) : Prop :=
  ∃ P bs,
    recv_inv (recv_state (l_receiver l)) P ∧ Recv.with_fd (recv_state (l_receiver l)) = false ∧
    Forall out_ok (queue (send_state (l_sender l))) ∧
    Forall no_fds (queue (send_state (l_sender l))) ∧
    Forall2 entry_bytes q bs ∧
    P ++ unread (recv_state (l_receiver l)) (l_flight l) ++ pending (queue (send_state (l_sender l)))
      = mjoin bs.

Definition op_ok (l : Link) (op : link_op) : Prop :=
  match op with
  | LWrite msg answers =>
      sendable msg ∧ Forall soft answers ∧ (conn_serial (l_sender l) + 2 < u32_mod)%N
  | LDrain answers => Forall soft answers
  | LRead _ => True
  end.

(** The queue of messages. *)
Inductive fifo_step (q : list entry) (n : N) : link_op → io_result link_event → list entry → Prop :=
| fifo_write msg answers :
    fifo_step q n (LWrite msg answers) (Ok (EvSent msg (n + 2))) (q ++ [(msg, n + 2)%N])
| fifo_drain answers i : fifo_step q n (LDrain answers) (Ok (EvDrained i)) q
| fifo_read reads msg m q' :
    q = (msg, m) :: q' → fifo_step q n (LRead reads) (Ok (EvGot (stamped msg m))) q'
| fifo_wait reads e :
    e = WouldBlock ∨ e = BrokenPipe ∨ ReadFails e ∈ reads →
    fifo_step q n (LRead reads) (Err e) q.

Context `{!WireLaws} `{!RecvLaws}.
Context (Hspace : ∀ n, n ≤ DBUS_MAX_FD_MESSAGE → cmsg_space (4 * n) ≤ 256)
  (Hcap : 4096 ≤ rem_capacity).

Lemma entry_parse e b rest :
  entry_bytes e b →
  ∃ hdr d body, parse_message false (b ++ rest) = Ok (Some (hdr, d, body, length b)) ∧
    mm_from_raw hdr d body [] = stamped e.1 e.2.
Proof.
  intros (Hs & Hn & hdr & Hm & ->). destruct Hs as [Hok Ht Hf Hfds Hb Hh Hc].
  eexists _, _, _. rewrite <- app_assoc. split.
  - rewrite length_app. apply (parse_sent_message dbg rem_capacity Hcap false); try done. by eapply Hh.
  - done.
Qed.

Lemma parse_message_nil : parse_message false [] = Ok None.
Proof. done. Qed.

(** What the receiver can have in hand of the stream. *)
Lemma parse_of_queue q bs full rest :
  Forall2 entry_bytes q bs → full ++ rest = mjoin bs → parse_message false full ≠ Ok None →
  ∃ msg m q' b bs' hdr d body, q = (msg, m) :: q' ∧ bs = b :: bs' ∧ Forall2 entry_bytes q' bs' ∧
    entry_bytes (msg, m) b ∧
    parse_message false full = Ok (Some (hdr, d, body, length b)) ∧
    mm_from_raw hdr d body [] = stamped msg m ∧ drop (length b) full ++ rest = mjoin bs'.
Proof.
  intros Hq Hfull Hp. pose proof (parse_message_mono false full rest Hp) as Hmono.
  destruct Hq as [|[msg m] b q bs Hb Hq].
  { destruct full; [|done]. by rewrite parse_message_nil in Hp. }
  change (mjoin (b :: bs)) with (b ++ mjoin bs) in Hfull. rewrite Hfull in Hmono.
  destruct (entry_parse _ _ (mjoin bs) Hb) as (hdr & d & body & Hpb & Hst). rewrite Hpb in Hmono.
  exists msg, m, q, b, bs, hdr, d, body. split_and!; try done.
  symmetry in Hmono. apply (parse_message_bound rem_capacity Hcap) in Hmono.
  apply (f_equal (drop (length b))) in Hfull. rewrite drop_app_length, drop_app_le in Hfull by done.
  done.
Qed.

Lemma link_write_ok l q msg answers :
  link_inv l q → op_ok l (LWrite msg answers) →
  ∃ l', link_step l (LWrite msg answers) = (Ok (EvSent msg (conn_serial (l_sender l) + 2)), l') ∧
    link_inv l' (q ++ [(msg, conn_serial (l_sender l) + 2)%N]) ∧
    conn_serial (l_sender l') = (conn_serial (l_sender l) + 2)%N.
Proof.
  intros (P & bs & Hinv & Hwf & Hout & Hfds & Hq & Hbytes) (Hsnd & Hsoft & Hser).
  cbn [link_step]. unfold write_next_message. rewrite next_serial_small by done.
  set (n := (conn_serial (l_sender l) + 2)%N) in *.
  destruct (marshal_header_shape dbg msg n [] (snd_ok _ Hsnd)) as (enc & hdr & Hm & Hhdr & Hlen & _).
  set (ss := send_state (l_sender l)) in *.
  destruct (write_next_message_spec cmsg_space dbg Hspace dup ss msg n hdr [] answers (MkWire [] []))
    as (r & ss' & w' & -> & Hwq & Hr); [done|done| | | | |intros _; by apply no_fds_barrier|].
  { rewrite Hhdr. pose proof (length_fixed_head msg n). by destruct (fixed_head msg n). }
  { by rewrite (snd_fds _ Hsnd). }
  { rewrite (snd_fds _ Hsnd). cbn. lia. }
  { by rewrite (snd_fds _ Hsnd). }
  destruct r as [o|e|]; [| |done].
  2: { destruct Hr as (He & Hin & _). by destruct (soft_no_error e answers Hsoft He). }
  eexists. split; [done|]. split; [|done].
  assert (w_bytes w' ++ pending (queue ss') = pending (queue ss) ++ hdr ++ buf (m_body msg)) as Ht.
  { apply (f_equal fst) in Hr. cbn in Hr. rewrite Hr, pending_app. do 2 f_equal. apply app_nil_r. }
  exists P, (bs ++ [hdr ++ buf (m_body msg)]). cbn [l_receiver l_sender l_flight send_state].
  split_and!; [done|done| | | |].
  - destruct o as [i|]; [by destruct Hwq as (_ & _ & s & o' & _ & _ & _ & ? & _)|].
    destruct Hwq as (-> & _). constructor.
  - destruct o as [i|]; [|destruct Hwq as (-> & _); constructor].
    destruct Hwq as (_ & _ & s & o' & Hd & -> & Hmsg & _ & _). apply Forall_app. split.
    + by eapply no_fds_drained.
    + apply Forall_singleton. unfold no_fds, out_msg in *. cbn in Hmsg. congruence.
  - apply Forall2_app; [done|]. constructor; [|constructor]. split; [done|]. split; [cbn; lia|]. by exists hdr.
  - rewrite mjoin_app, <- Hbytes. unfold unread. rewrite <- !app_assoc. do 3 f_equal.
    rewrite Ht. f_equal. change (mjoin [hdr ++ buf (m_body msg)]) with ((hdr ++ buf (m_body msg)) ++ []).
    by rewrite app_nil_r.
Qed.

Lemma link_drain_ok l q answers :
  link_inv l q → op_ok l (LDrain answers) →
  ∃ i l', link_step l (LDrain answers) = (Ok (EvDrained i), l') ∧ link_inv l' q ∧
    conn_serial (l_sender l') = conn_serial (l_sender l).
Proof.
  intros (P & bs & Hinv & Hwf & Hout & Hfds & Hq & Hbytes) Hsoft.
  cbn [link_step op_ok] in *. unfold finish_sending_next.
  destruct (finish_sending_next_spec cmsg_space dbg Hspace (send_state (l_sender l)) answers (MkWire [] []))
    as (r & ss' & w' & -> & Ht & Hd & Hr); [done|].
  destruct r as [i|e|]; [| |done].
  2: { destruct Hr as [He Hin]. by destruct (soft_no_error e answers Hsoft He). }
  eexists _, _. split; [done|]. split; [|done].
  exists P, bs. cbn [l_receiver l_sender l_flight send_state set_send_state].
  split_and!; [done|done|apply Hd|by eapply no_fds_drained|done|].
  apply (f_equal fst) in Ht. cbn in Ht. rewrite <- Hbytes. unfold unread. rewrite <- !app_assoc.
  by rewrite Ht.
Qed.

Lemma link_read_ok l q reads :
  link_inv l q →
  ∃ ev l' q', link_step l (LRead reads) = (ev, l') ∧ link_inv l' q' ∧
    fifo_step q (conn_serial (l_sender l)) (LRead reads) ev q' ∧
    conn_serial (l_sender l') = conn_serial (l_sender l).
Proof.
  intros (P & bs & Hinv & Hwf & Hout & Hfds & Hq & Hbytes).
  cbn [link_step]. unfold get_next_message. set (rs := recv_state (l_receiver l)) in *.
  destruct (get_next_message_explains parse_description validate_marshalled dbg rem_capacity Hcap
    rs P (MkSock (l_flight l) reads false) Hinv) as (r & rs' & sock' & used & -> & Hu & Hw & Hr).
  rewrite Hwf in Hw, Hr. cbn [incoming Recv.reads] in Hr, Hu.
  assert (received_fds rs used = []) as Hrf
    by (unfold received_fds; by rewrite Hwf, (inv_fds _ _ Hinv Hwf)).
  rewrite Hrf in Hr. set (full := P ++ unread rs (l_flight l)) in *.
  rewrite app_assoc in Hbytes. fold full in Hbytes.
  pose proof (parse_of_queue q bs full _ Hq Hbytes) as Hparse.
  destruct r as [msg|e|].
  - destruct Hr as (hdr & d & body & n & Hp & -> & _ & _ & Hinv' & _ & Hrest).
    destruct Hparse as (msg & m & q' & b & bs' & h' & d' & b' & -> & -> & Hq' & Hb & Hp' & Hst & Hd);
      [by rewrite Hp|]. rewrite Hp in Hp'. injection Hp' as -> -> -> ->. rewrite Hst.
    eexists _, _, q'. split; [done|]. split; [|split; [by econstructor|done]].
    exists [], bs'. cbn [l_receiver l_sender l_flight recv_state send_state].
    split_and!; [done|by apply Hw|done..|]. cbn [app]. by rewrite Hrest.
  - eexists _, _, q. split; [done|]. cbn [l_receiver l_sender l_flight recv_state send_state conn_serial].
    destruct Hr as [(He & P' & Hinv' & Hfull & _)|(-> & Hr)].
    + split; [|split; [|done]].
      * exists P', bs. cbn [l_receiver l_sender l_flight recv_state send_state].
        split_and!; [done|by apply Hw|done..|]. by rewrite <- Hbytes, app_assoc, Hfull.
      * constructor. destruct He as [He|[He|He]]; [by left|by right; left|right; right].
        rewrite Hu. apply elem_of_app. by left.
    + exfalso. destruct Hr as [[Hp _]|[[? _]|(hdr & d & body & n & Hp & Hr)]]; [|done|].
      * destruct Hparse as (? & ? & ? & ? & ? & ? & ? & ? & _ & _ & _ & _ & Hp' & _); congruence.
      * destruct Hparse as (msg & m & q' & b & bs' & h' & d' & b' & _ & _ & _ & [Hs _] & Hp' & Hst & _);
          [by rewrite Hp|]. rewrite Hp in Hp'. injection Hp' as -> -> -> ->.
        rewrite (parse_message_no_fds rem_capacity Hcap _ _ _ _ _ Hp) in Hr.
        destruct Hr as [Hr|[[err Hr] _]]; [done|]. rewrite Hst, (snd_check _ Hs) in Hr. done.
  - exfalso. destruct Hr as [Hp|(hdr & d & body & n & Hp & Hr)].
    + destruct Hparse as (? & ? & ? & ? & ? & ? & ? & ? & _ & _ & _ & _ & Hp' & _); congruence.
    + destruct Hparse as (msg & m & q' & b & bs' & h' & d' & b' & _ & _ & _ & [Hs _] & Hp' & Hst & _);
        [by rewrite Hp|]. rewrite Hp in Hp'. injection Hp' as -> -> -> ->.
      rewrite Hst, (snd_check _ Hs) in Hr. done.
Qed.

Lemma link_new_inv fd1 fd2 : link_inv (link_new fd1 fd2) [].
Proof.
  exists [], []. cbn. split_and!; try done.
  split; cbn; [done|split; [done|lia]|unfold HEADER_LEN; lia|done|done].
Qed.

Lemma link_step_ok l q op :
  link_inv l q → op_ok l op →
  ∃ ev l' q', link_step l op = (ev, l') ∧ link_inv l' q' ∧
    fifo_step q (conn_serial (l_sender l)) op ev q' ∧
    conn_serial (l_sender l') =
      match op with LWrite _ _ => conn_serial (l_sender l) + 2 | _ => conn_serial (l_sender l) end%N.
Proof.
  intros Hinv Hop. destruct op as [msg answers|answers|reads].
  - destruct (link_write_ok l q msg answers Hinv Hop) as (l' & -> & Hinv' & Hs).
    eexists _, _, _. split; [done|]. split; [done|]. split; [constructor|done].
  - destruct (link_drain_ok l q answers Hinv Hop) as (i & l' & -> & Hinv' & Hs).
    eexists _, _, _. split; [done|]. split; [done|]. split; [constructor|done].
  - destruct (link_read_ok l q reads Hinv) as (ev & l' & q' & -> & Hinv' & Hf & Hs).
    by eexists _, _, _.
Qed.

(** ** Runs *)

Fixpoint link_run (l : Link) (ops : list link_op) : list (io_result link_event) * Link :=
  match ops with
  | [] => ([], l)
  | op :: ops' =>
      let '(ev, l) := link_step l op in
      let '(evs, l) := link_run l ops' in (ev :: evs, l)
  end.

Definition sent_of (evs : list (io_result link_event)) : list MarshalledMessage :=
  omap (λ ev, match ev with Ok (EvSent msg n) => Some (stamped msg n) | _ => None end) evs.

Definition got_of (evs : list (io_result link_event)) : list MarshalledMessage :=
  omap (λ ev, match ev with Ok (EvGot msg) => Some msg | _ => None end) evs.

(** The messages written of a run, with serials from [n]. *)
Fixpoint writes (n : N) (ops : list link_op) : list MarshalledMessage :=
  match ops with
  | [] => []
  | LWrite msg _ :: ops' => stamped msg (n + 2) :: writes (n + 2) ops'
  | _ :: ops' => writes n ops'
  end.

Definition op_soft (op : link_op) : Prop :=
  match op with
  | LWrite msg answers => sendable msg ∧ Forall soft answers
  | LDrain answers => Forall soft answers
  | LRead _ => True
  end.

Definition stamp_all (q : list entry) : list MarshalledMessage := map (λ e, stamped e.1 e.2) q.

Lemma link_run_ok l q ops :
  link_inv l q → Forall op_soft ops →
  (conn_serial (l_sender l) + 2 * N.of_nat (length ops) < u32_mod)%N →
  ∃ evs l' q', link_run l ops = (evs, l') ∧ link_inv l' q' ∧
    sent_of evs = writes (conn_serial (l_sender l)) ops ∧
    stamp_all q ++ sent_of evs = got_of evs ++ stamp_all q' ∧
    Forall (λ ev, ev ≠ Panic) evs.
Proof.
  intros Hinv Hops. revert l q Hinv. induction Hops as [|op ops Hop Hops IH]; intros l q Hinv Hser.
  { exists [], l, q. cbn. rewrite app_nil_r. by split_and!. }
  cbn [length] in Hser. destruct (link_step_ok l q op Hinv) as (ev & l1 & q1 & Hs & Hinv1 & Hf & Hn).
  { destruct op; cbn in *; [|done..]. destruct Hop. split_and!; [done..|lia]. }
  destruct (IH l1 q1 Hinv1) as (evs & l' & q' & Hr & Hinv' & Hsent & Hfifo & Hp).
  { rewrite Hn. destruct op; lia. }
  cbn [link_run]. rewrite Hs, Hr. eexists _, _, q'. split; [done|]. split; [done|].
  rewrite Hn in Hsent.
  inversion Hf as [msg answers Hop' Hev Hq1|answers i Hop' Hev Hq1|reads msg m q2 Hq Hop' Hev Hq1
    |reads e He Hop' Hev Hq1]; subst; cbn [writes sent_of got_of omap list_omap];
    fold (sent_of evs); fold (got_of evs); unfold stamp_all in *.
  - rewrite map_app, <- app_assoc in Hfifo. cbn in Hfifo.
    split_and!; [by f_equal|done|by constructor].
  - split_and!; [done|done|by constructor].
  - cbn. split_and!; [done|by f_equal|by constructor].
  - split_and!; [done|done|by constructor].
Qed.

(** C1: two connections are a queue of messages.  From two new connections, any sequence of
    writes and drains at one end and reads at the other, whatever partial writes, short
    reads, interruptions and failures of reading the sockets answer with: nothing panics,
    and the messages received are, in order, the first of the messages sent, each with its
    type, flags, body, header fields and serial; those not received yet are still on the
    way. *)
Theorem link_fifo fd1 fd2 ops :
  Forall op_soft ops → (2 * N.of_nat (length ops) < u32_mod)%N →
  ∃ evs l q, link_run (link_new fd1 fd2) ops = (evs, l) ∧ link_inv l q ∧
    sent_of evs = writes 0 ops ∧ sent_of evs = got_of evs ++ stamp_all q ∧
    Forall (λ ev, ev ≠ Panic) evs.
Proof.
  intros Hops Hlen.
  destruct (link_run_ok (link_new fd1 fd2) [] ops (link_new_inv fd1 fd2) Hops)
    as (evs & l & q & Hr & Hinv & Hsent & Hfifo & Hp); [done|].
  exists evs, l, q. by split_and!.
Qed.

(** C25: what was sent arrives.  In any state of the link in which a message is on the way,
    when the sender's socket takes at least a byte at each call of one drain and then the
    receiver's delivers at least a byte at each read of one call, with as many calls as bytes,
    that call returns the oldest message on the way. *)
Theorem link_delivers l msg n q answers reads :
  link_inv l ((msg, n) :: q) →
  Forall (λ a, ∃ n, a = Took (S n)) answers →
  length (pending (queue (send_state (l_sender l)))) ≤ length answers →
  Forall delivers reads →
  length (l_flight l) + length (pending (queue (send_state (l_sender l)))) ≤ length reads →
  ∃ i l', link_run l [LDrain answers; LRead reads] = ([Ok (EvDrained i); Ok (EvGot (stamped msg n))], l') ∧
    link_inv l' q.
Proof.
  intros (P & bs & Hinv & Hwf & Hout & Hfds & Hq & Hbytes) Hans Hlen Hreads Hlen'.
  destruct (finish_sending_next_empties cmsg_space dbg Hspace (send_state (l_sender l)) answers (MkWire [] []))
    as (ss' & w' & Hf & Hempty & Hw); [done..|].
  cbn [link_run link_step]. unfold finish_sending_next, get_next_message. rewrite Hf.
  cbn [l_receiver l_flight l_sender set_send_state].
  cbn in Hw. inversion Hq as [|? b ? bs' Hb Hq']; subst.
  change (mjoin (b :: bs')) with (b ++ mjoin bs') in Hbytes.
  destruct (entry_parse _ _ (mjoin bs') Hb) as (hdr & d & body & Hp & Hst).
  cbn [fst snd] in Hst.
  assert (P ++ unread (recv_state (l_receiver l)) (l_flight l ++ w_bytes w') = b ++ mjoin bs') as Hall.
  { rewrite <- Hbytes, Hw. unfold unread. by rewrite <- !app_assoc. }
  destruct (get_next_message_complete parse_description validate_marshalled dbg rem_capacity Hcap
    (recv_state (l_receiver l)) P (MkSock (l_flight l ++ w_bytes w') reads false) hdr d body (length b))
    as (rs' & sock' & Hg & Hinv' & Hrest); [done..| | |done|cbn; rewrite length_app, Hw; lia|].
  - cbn [incoming]. by rewrite Hall.
  - rewrite Hst. destruct Hb as [Hs _]. apply (snd_check _ Hs).
  - rewrite Hg, Hst. cbn [incoming] in Hrest. rewrite Hall, drop_app_length in Hrest.
    eexists _, _. split; [done|]. exists [], bs'.
    cbn [l_receiver l_sender l_flight recv_state send_state set_send_state]. rewrite Hempty.
    pose proof (get_next_message_explains parse_description validate_marshalled dbg rem_capacity Hcap
      (recv_state (l_receiver l)) P (MkSock (l_flight l ++ w_bytes w') reads false) Hinv)
      as (r & rs'' & sock'' & used & Hg' & _ & Hw' & _).
    rewrite Hg in Hg'. injection Hg' as <- <- <-.
    split_and!; [done|by rewrite Hw'|constructor|constructor|done|].
    change (pending []) with (@nil u8). by rewrite app_nil_r.
Qed.
End link.

(** ** Concrete connections *)

Lemma connect_abstract_spec_example :
  (abstract_sockaddr 1 (lit "/tmp/dbus") = Ok (u8_of 1 :: u8_of 0 :: u8_of 0 :: lit "/tmp/dbus")) ∧
  abstract_sockaddr 1 (replicate 108 "x"%char) = Err InvalidData.
Proof. by vm_compute. Qed.

Lemma next_serial_spec_witness :
  next_serial true 4294967294 = Panic ∧ next_serial false 4294967294 = Ok 1%N.
Proof. exact (next_serial_spec 4294967294 eq_refl). Defined.

Lemma count_sendable : sendable split_types check_u32 true count_msg.
Proof.
  split; [exact count_msg_ok|done|by vm_compute|done|by vm_compute| |].
  - intros n hdr Hm. vm_compute in Hm. injection Hm as <-. by vm_compute.
  - intros n. vm_compute. reflexivity.
Qed.

(** Two messages, cut into pieces on both sides, the second written behind the first. *)
Definition two_messages : list link_op :=
  [LWrite count_msg [Took 5; Fails WouldBlock]; LRead [Got 3 []; ReadFails Interrupted];
   LWrite count_msg [Took 40; Took 1]; LDrain [Took 200; Took 200]; LRead [Got 100 []; Got 900 []];
   LRead [Got 7 []]].

Lemma link_fifo_witness :
  ∃ evs l q, link_run split_types check_u32 true 4096 linux_cmsg_space Some (link_new 3 4) two_messages
      = (evs, l) ∧
    sent_of evs = got_of evs ++ stamp_all q ∧
    got_of evs = [stamped count_msg 2; stamped count_msg 4].
Proof.
  destruct (link_fifo split_types check_u32 true 4096 linux_cmsg_space Some linux_cmsg_space_fits
    (le_n _) 3 4 two_messages) as (evs & l & q & Hr & _ & _ & Hfifo & _).
  - repeat first [exact count_sendable | done | apply Forall_cons; split | split].
  - by vm_compute.
  - exists evs, l, q. split; [exact Hr|]. split; [exact Hfifo|].
    assert (evs = (link_run split_types check_u32 true 4096 linux_cmsg_space Some (link_new 3 4)
      two_messages).1) as -> by by rewrite Hr.
    vm_compute. reflexivity.
Defined.

Definition half_sent : Link :=
  (link_run split_types check_u32 true 4096 linux_cmsg_space Some (link_new 3 4)
    [LWrite count_msg [Took 9]]).2.

Lemma half_sent_inv : ∃ q, link_inv split_types check_u32 true half_sent ((count_msg, 2%N) :: q).
Proof.
  destruct (link_write_ok split_types check_u32 true 4096 linux_cmsg_space Some
    linux_cmsg_space_fits (le_n _) (link_new 3 4) [] count_msg [Took 9] (link_new_inv _ _ _ 4096 (le_n _) 3 4))
    as (l' & Hs & Hinv & _); [by split; [exact count_sendable|split; [repeat constructor|by vm_compute]]|].
  exists []. unfold half_sent. cbn [link_run]. rewrite Hs. exact Hinv.
Qed.

Lemma link_delivers_witness :
  ∃ i l', link_run split_types check_u32 true 4096 linux_cmsg_space Some half_sent
      [LDrain (replicate 300 (Took 1)); LRead (replicate 300 (Got 1 []))] =
    ([Ok (EvDrained i); Ok (EvGot (stamped count_msg 2))], l').
Proof.
  destruct half_sent_inv as [q Hq].
  destruct (link_delivers split_types check_u32 true 4096 linux_cmsg_space Some linux_cmsg_space_fits
    (le_n _) half_sent count_msg 2 q (replicate 300 (Took 1)) (replicate 300 (Got 1 [])) Hq)
    as (i & l' & Hr & _).
  - apply Forall_replicate. by exists 0.
  - vm_compute. lia.
  - apply Forall_replicate. by exists 0, [].
  - vm_compute. lia.
  - exists i, l'. exact Hr.
Defined.
