(* ===== verification/FdLink.v ===== *)
(** * conn/mod.rs: two connections with descriptors

    Conn.v joins two connections without descriptors by a stream of bytes.  Here both ends
    negotiated descriptors: what is on the way is a stream of bytes of which some carry
    descriptors, as the kernel keeps it.  [sendmsg] attaches the descriptors of a call to the
    first byte it takes; [recvmsg] delivers those of the bytes it reads.  A message takes its
    descriptors along with its first byte, the receiver never reads beyond the end of a
    message, and so each message arrives with its own descriptors.

    A descriptor stands for the open file here; the number it gets at the receiver is the
    kernel's business. *)

From S2P Require Import Prelude Utils Body Message Header DBusWire Sender Recv Auth Conn.
From Stdlib Require Import Lia.

(** ** The stream of the kernel *)

Abbreviation tbyte := (u8 * list Fd)%type.

Definition tags (l : list tbyte) : list Fd := mjoin (map snd l).

Definition plain_of (l : list tbyte) : bytes := map fst l.

(** A message as it is sent: the descriptors go with the first byte. *)
Definition tag (b : bytes) (fds : list Fd) : list tbyte :=
  match b with [] => [] | c :: b => (c, fds) :: map (λ c, (c, [])) b end.

(** The descriptors at a position of a [Wire], and its bytes with their descriptors. *)
Definition fds_at (i : nat) (l : list (nat * list Fd)) : list Fd :=
  mjoin (map (λ p, if decide (p.1 = i) then p.2 else []) l).

Fixpoint carry (off : nat) (b : bytes) (l : list (nat * list Fd)) : list tbyte :=
  match b with [] => [] | c :: b => (c, fds_at off l) :: carry (S off) b l end.

(** What a queue is still to send. *)
Definition tag_out (o : RawOut) : list tbyte :=
  tag (Sender.remaining o) (if decide (blocked o) then fds o else []).

Definition tagged_pending (q : list RawOut) : list tbyte := mjoin (map tag_out q).

(** The answers of the kernel when a receiver in a state asks for at most so many bytes at
    a time, from the bytes on the way. *)
Inductive ask := Ask (n : nat) | AskFails (e : ErrorKind).

Section kernel.
Context `{WireLib} `{RecvLib}.
Context {Ty : Type} (parse_description : bytes → outcome UnmarshalError (list Ty))
  (validate_marshalled : ByteOrder → nat → bytes → Ty → outcome UnmarshalError nat).
Context (dbg : bool) (rem_capacity : nat).

Fixpoint kernel_loop (self : RecvState) (flight : list tbyte) (asks : list ask)
    : list read_answer :=
  match asks with
  | [] => []
  | AskFails e :: _ => [ReadFails e]
  | Ask n :: asks =>
      match before_read dbg rem_capacity self with
      | Ok (self, needed) =>
          let capacity := if Recv.with_fd self then needed else needed + rem_capacity in
          let got := take n (take capacity flight) in
          Got n (tags got) ::
          match after_read parse_description validate_marshalled self needed (plain_of got) (tags got) with
          | (Ok None, self, _) => kernel_loop self (drop (length got) flight) asks
          | _ => []
          end
      | _ => []
      end
  end.

Definition kernel_reads (self : RecvState) (flight : list tbyte) (asks : list ask)
    : list read_answer :=
  match try_get_msg self with
  | (Ok None, self, _) => kernel_loop self flight asks
  | _ => []
  end.
End kernel.

(** ** Positions *)

Lemma tags_app l k : tags (l ++ k) = tags l ++ tags k.
Proof. unfold tags. by rewrite map_app, mjoin_app. Qed.

Lemma plain_of_app l k : plain_of (l ++ k) = plain_of l ++ plain_of k.
Proof. apply map_app. Qed.

Lemma tags_nil (b : bytes) : tags (map (λ c, (c, [])) b) = [].
Proof. induction b; [done|]. by cbn. Qed.

Lemma length_plain_of (l : list tbyte) : length (plain_of l) = length l.
Proof. apply length_map. Qed.

Lemma plain_of_tag b fds : plain_of (tag b fds) = b.
Proof.
  destruct b as [|c b]; [done|]. cbn. f_equal. unfold plain_of. rewrite map_map. apply map_id.
Qed.

Lemma length_tag b fds : length (tag b fds) = length b.
Proof. rewrite <- (plain_of_tag b fds) at 2. unfold plain_of. by rewrite length_map. Qed.

(** All descriptors of a message come with any part of its front. *)
Lemma tags_front k b fds : 0 < k → b ≠ [] → tags (take k (tag b fds)) = fds.
Proof.
  intros Hk Hb. destruct b as [|c b]; [done|]. destruct k as [|k]; [lia|]. cbn.
  rewrite firstn_map. change (fds ++ tags (map (λ c, (c, [])) (take k b)) = fds).
  rewrite tags_nil. apply app_nil_r.
Qed.

Lemma fds_at_app i l k : fds_at i (l ++ k) = fds_at i l ++ fds_at i k.
Proof. unfold fds_at. by rewrite map_app, mjoin_app. Qed.

Lemma fds_at_none i l : Forall (λ p, p.1 ≠ i) l → fds_at i l = [].
Proof.
  induction 1 as [|p l Hp _ IH]; [done|].
  change (fds_at i (p :: l)) with ((if decide (p.1 = i) then p.2 else []) ++ fds_at i l).
  by rewrite decide_False, IH.
Qed.

Lemma carry_app off b c l : carry off (b ++ c) l = carry off b l ++ carry (off + length b) c l.
Proof.
  revert off. induction b as [|x b IH]; intros off; cbn; [by rewrite Nat.add_0_r|].
  by rewrite IH, Nat.add_succ_r.
Qed.

Lemma carry_ext off b l k :
  (∀ i, off ≤ i < off + length b → fds_at i l = fds_at i k) → carry off b l = carry off b k.
Proof.
  revert off. induction b as [|x b IH]; intros off Hlk; [done|]. cbn in *. f_equal.
  - f_equal. apply Hlk. lia.
  - apply IH. intros i Hi. apply Hlk. lia.
Qed.

Lemma plain_of_carry off b l : plain_of (carry off b l) = b.
Proof. revert off. induction b as [|c b IH]; intros off; [done|]. cbn. by f_equal. Qed.

Lemma carry_none off b l :
  Forall (λ p, p.1 < off ∨ off + length b ≤ p.1) l → carry off b l = map (λ c, (c, [])) b.
Proof.
  revert off. induction b as [|c b IH]; intros off Hl; [done|]. cbn in *. f_equal.
  - f_equal. apply fds_at_none. eapply Forall_impl; [exact Hl|]. cbn. lia.
  - apply IH. eapply Forall_impl; [exact Hl|]. cbn. lia.
Qed.

Lemma carry_tag off b fds l :
  Forall (λ p, p.1 < off ∨ off + length b ≤ p.1) l → carry off b ((off, fds) :: l) = tag b fds.
Proof.
  destruct b as [|c b]; [done|]. intros Hl. cbn [carry tag]. f_equal.
  - f_equal. change (fds_at off ((off, fds) :: l)) with
      ((if decide (off = off) then fds else []) ++ fds_at off l).
    rewrite decide_True, fds_at_none; [apply app_nil_r| |done].
    eapply Forall_impl; [exact Hl|]. cbn. lia.
  - apply carry_none. constructor; [cbn; lia|]. eapply Forall_impl; [exact Hl|]. cbn. lia.
Qed.

Lemma tag_plain b : tag b [] = map (λ c, (c, [])) b.
Proof. by destruct b. Qed.

Lemma fd_trace_ge off q : Forall (λ p, off ≤ p.1) (fd_trace off q).
Proof.
  revert off. induction q as [|o q IH]; intros off; cbn; [done|]. apply Forall_app. split.
  - case_decide; [|done]. constructor; [cbn; lia|done].
  - eapply Forall_impl; [apply IH|]. cbn. lia.
Qed.

(** A queue sends its messages with their descriptors. *)
Lemma carry_pending off q :
  Forall out_ok q → carry off (pending q) (fd_trace off q) = tagged_pending q.
Proof.
  intros Hq. revert off. induction Hq as [|o q [Ho _] Hq IH]; intros off; [done|].
  rewrite pending_cons, carry_app, length_remaining. unfold tagged_pending. cbn [map fd_trace].
  change (mjoin (tag_out o :: map tag_out q)) with (tag_out o ++ tagged_pending q).
  rewrite <- (IH (off + to_write o)). unfold to_write in *. f_equal.
  - pose proof (fd_trace_ge (off + (length (header o) + length (out_body o) - written o)) q) as Hge.
    assert (Forall (λ p : nat * list Fd, p.1 < off ∨ off + length (Sender.remaining o) ≤ p.1)
      (fd_trace (off + (length (header o) + length (out_body o) - written o)) q)) as Hf.
    { eapply Forall_impl; [exact Hge|]. cbn. rewrite length_remaining. unfold to_write. lia. }
    unfold tag_out. case_decide; cbn [app]; [by apply carry_tag|].
    rewrite tag_plain. by apply carry_none.
  - apply carry_ext. intros i Hi. rewrite fds_at_app.
    rewrite (fds_at_none i (if decide (blocked o) then _ else _)); [done|].
    case_decide; [|done]. constructor; [cbn; lia|done].
Qed.

(** ** The sender *)

(** Descriptors are attached to bytes that were written. *)
Definition wire_ok (w : Wire) : Prop := Forall (λ p, p.1 < length (w_bytes w)) (w_fds w).

Lemma wire_add_ok w ios anc n :
  wire_ok w → wire_ok (wire_add w ios anc (Nat.min n (length (mjoin ios)))).
Proof.
  unfold wire_ok, wire_add. cbn [w_bytes w_fds]. set (k := Nat.min _ _).
  assert (k ≤ length (mjoin ios)) as Hk by lia. intros Hw.
  assert (Forall (λ p, p.1 < length (w_bytes w ++ take k (mjoin ios))) (w_fds w)) as Hw'.
  { eapply Forall_impl; [exact Hw|]. cbn. rewrite length_app. lia. }
  case_decide as Hn; [done|]. apply Forall_app. split; [done|]. constructor; [|done]. cbn.
  rewrite length_app, length_take_le by done.
  assert (k ≠ 0) by (intros ?; apply Hn; by left). lia.
Qed.

(** What is written and what is queued, with the descriptors. *)
Lemma carry_trace w q w' q' :
  wire_ok w → wire_ok w' → Forall out_ok q → Forall out_ok q' → trace w q = trace w' q' →
  carry 0 (w_bytes w) (w_fds w) ++ tagged_pending q = carry 0 (w_bytes w') (w_fds w') ++ tagged_pending q'.
Proof.
  assert (∀ w q, wire_ok w → Forall out_ok q →
    carry 0 (w_bytes w) (w_fds w) ++ tagged_pending q =
      carry 0 (w_bytes w ++ pending q) (w_fds w ++ fd_trace (length (w_bytes w)) q)) as Hc.
  { intros v p Hv Hp. rewrite carry_app, Nat.add_0_l. f_equal.
    - apply carry_ext. intros i Hi. rewrite fds_at_app, (fds_at_none i (fd_trace _ _)).
      + by rewrite app_nil_r.
      + eapply Forall_impl; [apply fd_trace_ge|]. cbn. lia.
    - rewrite <- (carry_pending (length (w_bytes v))) by done. apply carry_ext. intros i Hi.
      rewrite fds_at_app, (fds_at_none i (w_fds v)); [done|].
      eapply Forall_impl; [exact Hv|]. cbn. lia. }
  intros Hw Hw' Hq Hq' Ht. injection Ht as Hb Hf. rewrite !Hc by done. by rewrite Hb, Hf.
Qed.

Section wires.
Context (cmsg_space : nat → nat) (dbg : bool).

Lemma finish_wire_ok self answers w :
  wire_ok w → wire_ok (Sender.finish_sending_next cmsg_space dbg self answers w).2.
Proof.
  revert self w. induction answers as [|a answers IH]; intros self w Hw; cbn;
    (case_decide; [done|]); destruct (populate _ _ _ _ _) as [[ios anc]|e|]; try done.
  destruct a as [n|e]; [|by destruct e]. pose proof (wire_add_ok w ios anc n Hw) as Hw'.
  destruct (update_written _ _) as [q rest]. destruct (dbg && _); [done|]. by apply IH.
Qed.

Lemma write_loop_wire_ok self out answers w :
  wire_ok w → wire_ok (write_loop cmsg_space dbg self out answers w).2.
Proof.
  revert self out w. induction answers as [|a answers IH]; intros self out w Hw; cbn;
    destruct (fill_write _ _ _) as [[ios anc]|e|]; try done.
  destruct a as [n|e]; [|by destruct e]. pose proof (wire_add_ok w ios anc n Hw) as Hw'.
  destruct (update_written _ _) as [q rest]. case_decide; [by apply IH|].
  case_decide; [done|]. destruct (dbg && _); [done|]. by apply IH.
Qed.

Lemma write_wire_ok `{WireLib} dup self msg serial answers w :
  wire_ok w → wire_ok (Sender.write_next_message cmsg_space dbg dup self msg serial answers w).2.
Proof.
  intros Hw. unfold Sender.write_next_message. destruct (marshal_header _ _ _); [|done..]. cbv zeta.
  case_decide; [done|]. destruct (mapM _ _); [|done]. by apply write_loop_wire_ok.
Qed.
End wires.

(** ** The receiver *)

Section receiver.
Context `{WireLib} `{RecvLib} `{!RecvLaws}.
Context {Ty : Type} (parse_description : bytes → outcome UnmarshalError (list Ty))
  (validate_marshalled : ByteOrder → nat → bytes → Ty → outcome UnmarshalError nat).
Context (dbg : bool) (rem_capacity : nat) (Hcap : 4096 ≤ rem_capacity).

Abbreviation kloop := (kernel_loop parse_description validate_marshalled dbg rem_capacity).
Abbreviation rloop := (recv_loop parse_description validate_marshalled dbg rem_capacity).

(** The call took the first [k] bytes of the flight with their descriptors, and none beyond
    the end of the message; when it took none, it only waited. *)
Definition took (self : RecvState) (P : bytes) (flight : list tbyte) (answers : list read_answer)
    (r : io_result MarshalledMessage) (self' : RecvState) (sock' : Sock) (k : nat) : Prop :=
  ∃ used, answers = used ++ reads sock' ∧ k ≤ length flight ∧
    incoming sock' = plain_of (drop k flight) ∧ fds_of used = tags (take k flight) ∧
    (r = Err BrokenPipe → in_fds self' = in_fds self ++ tags (take k flight)) ∧
    (∀ t hdr d b n, parse_message true (P ++ plain_of flight ++ t) = Ok (Some (hdr, d, b, n)) →
      length P + k ≤ n) ∧
    (k = 0 → ∃ e, r = Err e ∧ (e = WouldBlock ∨ e = BrokenPipe ∨ ReadFails e ∈ used) ∧
      in_fds self' = in_fds self ∧ Recv.with_fd self' = true ∧ recv_inv self' P).

Lemma took_nothing self P flight answers e self' sock' used :
  recv_inv self' P → in_fds self' = in_fds self → Recv.with_fd self' = true →
  answers = used ++ reads sock' → incoming sock' = plain_of flight → fds_of used = [] →
  (e = WouldBlock ∨ e = BrokenPipe ∨ ReadFails e ∈ used) →
  took self P flight answers (Err e) self' sock' 0.
Proof.
  intros Hinv Hf Hw Ha Hi Hu He. exists used. rewrite drop_0, take_0. split_and!; try done.
  - lia.
  - intros _. by rewrite Hf, app_nil_r.
  - intros t hdr d b n Hp. pose proof (inv_rep _ _ Hinv) as Hr. rewrite Hw in Hr.
    rewrite Nat.add_0_r. by eapply represents_bound.
  - intros _. by exists e.
Qed.

Lemma plain_of_drop k (l : list tbyte) : plain_of (drop k l) = drop k (plain_of l).
Proof. symmetry. apply skipn_map. Qed.

Lemma plain_of_take k (l : list tbyte) : plain_of (take k l) = take k (plain_of l).
Proof. symmetry. apply firstn_map. Qed.

(** The bytes read go over from the flight to the state. *)
Lemma took_read self P got rest (a : read_answer) answers r self' sock' :
  fds_of [a] = tags got → got ≠ [] → reads sock' = answers →
  incoming sock' = plain_of rest → r ≠ Err BrokenPipe →
  (∃ st, represents true st (P ++ plain_of got)) →
  took self P (got ++ rest) (a :: answers) r self' sock' (length got).
Proof.
  intros Ha Hg Hs Hi Hr [st Hrep]. exists [a]. rewrite drop_app_length, take_app_length.
  split_and!; try done.
  - by rewrite Hs.
  - rewrite length_app. lia.
  - intros t hdr d b n Hp. rewrite plain_of_app, <- app_assoc, app_assoc in Hp.
    apply (represents_bound true st) in Hp; [|done]. by rewrite length_app, length_plain_of in Hp.
  - intros Hk. by destruct got.
Qed.

Lemma took_more self P got rest (a : read_answer) answers r self1 self' sock' k :
  fds_of [a] = tags got → got ≠ [] → in_fds self1 = in_fds self ++ tags got →
  took self1 (P ++ plain_of got) rest answers r self' sock' k →
  took self P (got ++ rest) (a :: answers) r self' sock' (length got + k).
Proof.
  intros Ha Hg Hf1 (used & Hu & Hk & Hi & Hf & Hb & Hn & _). exists (a :: used).
  rewrite drop_app_add, take_app_add, tags_app. split_and!; try done.
  - by rewrite Hu.
  - rewrite length_app. lia.
  - change (fds_of (a :: used)) with (fds_of ([a] ++ used)). unfold fds_of in *.
    by rewrite map_app, mjoin_app, Ha, Hf.
  - intros Hr. by rewrite Hb, Hf1, <- app_assoc.
  - intros t hdr d b n Hp. rewrite plain_of_app, <- app_assoc, app_assoc in Hp.
    apply Hn in Hp. rewrite length_app, length_plain_of in Hp. lia.
  - intros Hk0. destruct got; [done|]. cbn in Hk0. lia.
Qed.

Lemma kernel_loop_took self P flight asks :
  recv_inv self P → rem_loc self = length (remaining self) → Recv.with_fd self = true →
  let '(r, self', sock') := rloop self (plain_of flight) (kloop self flight asks) in
  ∃ k, took self P flight (kloop self flight asks) r self' sock' k.
Proof.
  revert self P flight. induction asks as [|a asks IH]; intros self P flight Hinv Hloc Hw.
  { cbn [kernel_loop recv_loop].
    destruct (before_read_spec dbg rem_capacity Hcap self P Hinv Hloc) as (needed & -> & _ & _).
    exists 0. apply (took_nothing _ _ _ _ _ _ _ []); try done; [|by left].
    split; cbn; [done|apply Hinv|apply Hinv|done|apply Hinv]. }
  destruct (before_read_spec dbg rem_capacity Hcap self P Hinv Hloc) as (needed & Hb & Hpos & Hrep).
  set (self0 := MkRecv (in_state self) (in_fds self) [] 0 (Recv.with_fd self)) in *.
  assert (recv_inv self0 P) as Hinv0
    by (split; cbn; [done|apply Hinv|apply Hinv|done|apply Hinv]).
  destruct a as [n|e]; cbn [kernel_loop]; rewrite ?Hb; cbn [recv_loop]; rewrite ?Hb.
  2:{ exists 0. apply (took_nothing _ _ _ _ _ _ _ [ReadFails e]); try done. right; right; by left. }
  cbv zeta. cbn [Recv.with_fd self0]. rewrite Hw.
  assert (plain_of (take n (take needed flight)) = take n (take needed (plain_of flight))) as Hpl
    by (by rewrite !plain_of_take).
  rewrite <- Hpl. set (got := take n (take needed flight)) in *.
  assert (got `prefix_of` flight) as [rest Hfl].
  { unfold got. etrans; apply prefix_take. }
  assert (drop (length (plain_of got)) (plain_of flight) = plain_of rest) as ->
    by (rewrite Hfl, plain_of_app; apply drop_app_length).
  assert (drop (length got) flight = rest) as Hrest by (rewrite Hfl; apply drop_app_length).
  case_decide as Hg.
  { assert (got = []) as Hg0 by (by destruct got). rewrite Hg0 in Hfl |- *. cbn [app] in Hfl.
    exists 0. apply (took_nothing _ _ _ _ _ _ _ [Got n []]); try done; [|by right; left].
    cbn. by rewrite Hfl. }
  assert (got ≠ []) as Hg0 by (by intros Hg0; rewrite Hg0 in Hg).
  assert (length (plain_of got) ≤ needed) as Hfit
    by (rewrite Hpl, !length_take; lia).
  assert (fds_of [Got n (tags got)] = tags got) as Hfd by (unfold fds_of; cbn; apply app_nil_r).
  destruct (after_read_spec parse_description validate_marshalled rem_capacity Hcap self P needed (plain_of got) (tags got)
    Hinv Hrep (λ _, Hfit)) as (r & self' & sh & Heq & Hr).
  fold self0 in Heq. rewrite Heq. cbv zeta in Hr.
  assert (∃ st, represents true st (P ++ plain_of got)) as Hst.
  { eexists. rewrite <- Hw. by apply Hrep. }
  rewrite Hrest. clearbody got. rewrite Hfl. destruct r as [[msg|]|e|].
  - exists (length got). by apply took_read.
  - destruct Hr as (Hinv' & Hloc' & Hw' & Hf'). rewrite Hw in Hw', Hf'.
    specialize (IH self' (P ++ plain_of got) rest Hinv' Hloc' Hw').
    destruct (rloop self' _ _) as [[r self''] sock']. destruct IH as [k Hk].
    exists (length got + k). by eapply took_more.
  - exists (length got). apply took_read; try done. by destruct Hr as [-> _].
  - exists (length got). by apply took_read.
Qed.

(** A call of [get_next_message] on the kernel's answers. *)
Lemma kernel_took self P flight asks :
  recv_inv self P → Recv.with_fd self = true →
  let answers := kernel_reads parse_description validate_marshalled dbg rem_capacity self flight asks in
  let '(r, self', sock') := Recv.get_next_message parse_description validate_marshalled dbg rem_capacity
    self (MkSock (plain_of flight) answers false) in
  ∃ k, took self P flight answers r self' sock' k.
Proof.
  intros Hinv Hw. unfold kernel_reads, Recv.get_next_message.
  pose proof (try_get_msg_follows self P (inv_loc _ _ Hinv) (inv_rep _ _ Hinv)) as Hf. cbv zeta in Hf.
  rewrite (inv_fd _ _ Hinv Hw), app_nil_r in Hf.
  rewrite (hungry_parse (Recv.with_fd self) (in_state self) P) in Hf by apply Hinv.
  destruct Hf as (st & -> & Hst & Hh). cbn [incoming reads].
  pose proof (kernel_loop_took (set_state self st (length (remaining self))) P flight asks) as Hk.
  apply Hk; [|done|done]. split; cbn; [done..| |apply Hinv]. intros _. apply drop_all.
Qed.
End receiver.

(** ** Two connections *)

Record FdLink := MkFdLink {
  f_sender : Conn;
  f_flight : list tbyte;
  f_receiver : Conn;
}.

Inductive fd_op :=
| FWrite (msg : MarshalledMessage) (answers : list answer)
| FDrain (answers : list answer)
| FRead (asks : list ask).

(** A message on the way, with its serial and the duplicates it takes along. *)
Record parcel := MkParcel {
  p_msg : MarshalledMessage;
  p_serial : N;
  p_fds : list Fd;
}.

Inductive fd_event :=
| FSent (p : parcel)
| FDrained (i : nat)
| FGot (msg : MarshalledMessage).

Section link.
Context `{WireLib} `{RecvLib}.
Context {Ty : Type} (parse_description : bytes → outcome UnmarshalError (list Ty))
  (validate_marshalled : ByteOrder → nat → bytes → Ty → outcome UnmarshalError nat).
Context (dbg : bool) (rem_capacity : nat) (cmsg_space : nat → nat) (dup : Fd → option Fd).

Definition fd_link_new (fd1 fd2 : Z) : FdLink :=
  MkFdLink (conn_new fd1 true) [] (conn_new fd2 true).

Definition dups (msg : MarshalledMessage) : list Fd := default [] (mapM dup (raw_fds (m_body msg))).

Definition fd_link_step (l : FdLink) (op : fd_op) : io_result fd_event * FdLink :=
  match op with
  | FWrite msg answers =>
      let '(r, c, w) :=
        Conn.write_next_message dbg cmsg_space dup (f_sender l) msg answers (MkWire [] []) in
      ((λ _, FSent (MkParcel msg (conn_serial c) (dups msg))) <$> r,
       MkFdLink c (f_flight l ++ carry 0 (w_bytes w) (w_fds w)) (f_receiver l))
  | FDrain answers =>
      let '(r, c, w) :=
        Conn.finish_sending_next dbg cmsg_space (f_sender l) answers (MkWire [] []) in
      (FDrained <$> r, MkFdLink c (f_flight l ++ carry 0 (w_bytes w) (w_fds w)) (f_receiver l))
  | FRead asks =>
      let answers := kernel_reads parse_description validate_marshalled dbg rem_capacity
        (recv_state (f_receiver l)) (f_flight l) asks in
      let '(r, c, sock) := Conn.get_next_message parse_description validate_marshalled dbg rem_capacity
        (f_receiver l) (MkSock (plain_of (f_flight l)) answers false) in
      (FGot <$> r,
       MkFdLink (f_sender l) (drop (length (f_flight l) - length (incoming sock)) (f_flight l)) c)
  end.

(** A message as the other end gets it. *)
Definition delivered_of (p : parcel) : MarshalledMessage :=
  mm_from_raw (fixed_of (p_msg p) (p_serial p)) (set_serial (received (p_msg p)) (p_serial p))
    (buf (m_body (p_msg p))) (p_fds p).

Record fd_sendable (msg : MarshalledMessage) : Prop := {
  fds_ok : header_ok msg;
  fds_typ : typ msg ≠ TInvalid;
  fds_flags : (flags msg < 256)%N;
  fds_max : length (raw_fds (m_body msg)) ≤ DBUS_MAX_FD_MESSAGE;
  fds_dup : is_Some (mapM dup (raw_fds (m_body msg)));
  fds_body : (N.of_nat (length (buf (m_body msg))) < u32_mod)%N;
  fds_hdr : ∀ n hdr, marshal_header dbg msg n = Ok hdr → (N.of_nat (length hdr) < u32_mod)%N;
  fds_check : ∀ n, Body.validate parse_description validate_marshalled
    (m_body (delivered_of (MkParcel msg n (dups msg)))) = Ok ();
}.

(** The bytes of a parcel, the descriptors with the first. *)
Definition parcel_bytes (p : parcel) (b : list tbyte) : Prop :=
  fd_sendable (p_msg p) ∧ (0 < p_serial p < u32_mod)%N ∧ p_fds p = dups (p_msg p) ∧
  ∃ hdr, marshal_header dbg (p_msg p) (p_serial p) = Ok hdr ∧ hdr ≠ [] ∧
    b = tag (hdr ++ buf (m_body (p_msg p))) (p_fds p).

(** The invariant: what is on the way, from the bytes and descriptors the receiver holds of
    its current message to those the sender still queues, are the parcels [q]. *)
Definition fd_link_inv (l : FdLink) (q : list parcel) : Prop :=
  let rs := recv_state (f_receiver l) in
  let ss := send_state (f_sender l) in
  ∃ P bs,
    recv_inv rs (plain_of P) ∧ Recv.with_fd rs = true ∧ in_fds rs = tags P ∧
    Forall out_ok (queue ss) ∧ Sender.with_fd ss = true ∧
    Forall2 parcel_bytes q bs ∧
    P ++ f_flight l ++ tagged_pending (queue ss) = mjoin bs.

(** A message without descriptors is not written while descriptors wait in the queue. *)
Definition fd_op_ok (l : FdLink) (op : fd_op) : Prop :=
  match op with
  | FWrite msg answers =>
      fd_sendable msg ∧ Forall soft answers ∧ (conn_serial (f_sender l) + 2 < u32_mod)%N ∧
      (raw_fds (m_body msg) = [] → no_barrier (queue (send_state (f_sender l))))
  | FDrain answers => Forall soft answers
  | FRead _ => True
  end.

(** The queue of parcels. *)
Inductive parcel_step (q : list parcel) (n : N) : fd_op → io_result fd_event → list parcel → Prop :=
| parcel_write msg answers :
    let p := MkParcel msg (n + 2) (dups msg) in
    parcel_step q n (FWrite msg answers) (Ok (FSent p)) (q ++ [p])
| parcel_drain answers i : parcel_step q n (FDrain answers) (Ok (FDrained i)) q
| parcel_read asks p q' :
    q = p :: q' → parcel_step q n (FRead asks) (Ok (FGot (delivered_of p))) q'
| parcel_wait asks e :
    e = WouldBlock ∨ e = BrokenPipe ∨ AskFails e ∈ asks →
    parcel_step q n (FRead asks) (Err e) q.

Context `{!WireLaws} `{!RecvLaws}.
Context (Hspace : ∀ n, n ≤ DBUS_MAX_FD_MESSAGE → cmsg_space (4 * n) ≤ 256)
  (Hcap : 4096 ≤ rem_capacity).

(** ** Sending *)

Lemma dups_nil msg : fd_sendable msg → dups msg = [] → raw_fds (m_body msg) = [].
Proof.
  intros [? ? ? ? [l Hl] ? ? ?]. unfold dups. rewrite Hl. cbn. intros ->.
  apply length_mapM in Hl. by destruct (raw_fds (m_body msg)).
Qed.

Lemma tag_out_new hdr body l :
  hdr ≠ [] → tag_out (MkOut 0 hdr body l) = tag (hdr ++ body) l.
Proof.
  intros Hh. unfold tag_out, Sender.remaining, blocked. cbn. rewrite drop_0.
  case_decide as Hb; [done|]. destruct l; [done|]. exfalso. by apply Hb.
Qed.

Lemma tagged_pending_app q q' : tagged_pending (q ++ q') = tagged_pending q ++ tagged_pending q'.
Proof. unfold tagged_pending. by rewrite map_app, mjoin_app. Qed.

Lemma fd_write_ok l q msg answers :
  fd_link_inv l q → fd_op_ok l (FWrite msg answers) →
  let p := MkParcel msg (conn_serial (f_sender l) + 2) (dups msg) in
  ∃ l', fd_link_step l (FWrite msg answers) = (Ok (FSent p), l') ∧
    fd_link_inv l' (q ++ [p]) ∧
    conn_serial (f_sender l') = (conn_serial (f_sender l) + 2)%N.
Proof.
  intros (P & bs & Hinv & Hwf & Hfds & Hout & Hsw & Hq & Hbytes) (Hsnd & Hsoft & Hser & Hbar) p.
  cbn [fd_link_step]. unfold Conn.write_next_message. rewrite next_serial_small by done.
  set (n := (conn_serial (f_sender l) + 2)%N) in *. set (ss := send_state (f_sender l)) in *.
  destruct (marshal_header_shape dbg msg n [] (fds_ok _ Hsnd)) as (enc & hdr & Hm & Hhdr & _).
  assert (hdr ≠ []) as Hne.
  { rewrite Hhdr. pose proof (length_fixed_head msg n). by destruct (fixed_head msg n). }
  destruct (fds_dup _ Hsnd) as [nfds Hdup].
  assert (dups msg = nfds) as Hd by (unfold dups; by rewrite Hdup).
  pose proof (write_wire_ok cmsg_space dbg dup ss msg n answers (MkWire [] []) (List.Forall_nil _)) as Hw.
  destruct (write_next_message_spec cmsg_space dbg Hspace dup ss msg n hdr nfds answers (MkWire [] []))
    as (r & ss' & w' & Heq & Hwq & Hr); try done.
  { apply (fds_max _ Hsnd). }
  { intros ->. apply Hbar. by apply dups_nil. }
  rewrite Heq in Hw |- *. cbn [snd] in Hw.
  destruct r as [o|e|]; [| |done].
  2: { destruct Hr as (He & Hin & _). by destruct (soft_no_error e answers Hsoft He). }
  eexists. split; [done|]. split; [|done].
  assert (Forall out_ok (queue ss') ∧ Sender.with_fd ss' = Sender.with_fd ss) as [Hout' Hsw'].
  { destruct o as [i|]; [by destruct Hwq as (_ & _ & s & o' & _ & _ & _ & ? & ?)|].
    destruct Hwq as (-> & _ & ?). by split; [constructor|]. }
  assert (out_ok (MkOut 0 hdr (buf (m_body msg)) nfds)) as Hnew.
  { split; cbn; [destruct hdr; [done|]; cbn; lia|]. rewrite <- (length_mapM _ _ _ Hdup).
    apply (fds_max _ Hsnd). }
  apply carry_trace in Hr; [|exact Hw|constructor|done|by apply Forall_app_2; [|constructor]].
  exists P, (bs ++ [tag (hdr ++ buf (m_body msg)) nfds]).
  cbn [f_receiver f_sender f_flight send_state]. split_and!; [done..|by rewrite Hsw'| |].
  - apply Forall2_app; [done|]. constructor; [|constructor]. split; [done|]. split; [cbn; lia|].
    split; [done|]. exists hdr. by rewrite <- Hd.
  - rewrite mjoin_app, <- Hbytes, <- !app_assoc. do 2 f_equal. rewrite Hr, tagged_pending_app.
    cbn [app carry w_bytes]. f_equal. unfold tagged_pending. cbn.
    by rewrite tag_out_new, !app_nil_r by done.
Qed.

Lemma fd_drain_ok l q answers :
  fd_link_inv l q → fd_op_ok l (FDrain answers) →
  ∃ i l', fd_link_step l (FDrain answers) = (Ok (FDrained i), l') ∧ fd_link_inv l' q ∧
    conn_serial (f_sender l') = conn_serial (f_sender l).
Proof.
  intros (P & bs & Hinv & Hwf & Hfds & Hout & Hsw & Hq & Hbytes) Hsoft.
  cbn [fd_link_step fd_op_ok] in *. unfold Conn.finish_sending_next.
  pose proof (finish_wire_ok cmsg_space dbg (send_state (f_sender l)) answers (MkWire [] []) (List.Forall_nil _)) as Hw.
  destruct (finish_sending_next_spec cmsg_space dbg Hspace (send_state (f_sender l)) answers (MkWire [] []))
    as (r & ss' & w' & Heq & Ht & Hd & Hr); [done|].
  rewrite Heq in Hw |- *. cbn [snd] in Hw. destruct Hd as (Hout' & _ & Hsw' & _).
  destruct r as [i|e|]; [| |done].
  2: { destruct Hr as [He Hin]. by destruct (soft_no_error e answers Hsoft He). }
  eexists _, _. split; [done|]. split; [|done].
  apply carry_trace in Ht; [|exact Hw|constructor|done|done].
  exists P, bs. cbn [f_receiver f_sender f_flight send_state set_send_state].
  split_and!; [done..|by rewrite Hsw'|done|]. by rewrite <- Hbytes, <- !app_assoc, Ht.
Qed.

(** ** Receiving *)

Lemma parcel_parse p b rest :
  parcel_bytes p b →
  ∃ hdr d body, parse_message true (plain_of b ++ rest) = Ok (Some (hdr, d, body, length b)) ∧
    mm_from_raw hdr d body (p_fds p) = delivered_of p ∧
    N.of_nat (length (p_fds p)) = default 0%N (num_fds d).
Proof.
  intros (Hs & Hn & Hd & hdr & Hm & _ & ->). pose proof Hs as [Hok Ht Hf _ [l Hl] Hb Hh _].
  eexists _, _, _. rewrite plain_of_tag, length_tag, <- app_assoc. split; [|split].
  - rewrite length_app. apply (parse_sent_message dbg rem_capacity Hcap true); try done. by eapply Hh.
  - done.
  - rewrite Hd. unfold dups. rewrite Hl. cbn. apply length_mapM in Hl. rewrite <- Hl.
    unfold fds_sent. case_decide as Hr; [by rewrite Hr|done].
Qed.

(** The first parcel of those on the way, of which [full] was read or can be. *)
Lemma first_parcel p q b bs full rest :
  Forall2 parcel_bytes (p :: q) (b :: bs) → full ++ rest = mjoin (b :: bs) →
  ∃ hdr d body,
    parse_message true (plain_of full ++ plain_of rest) = Ok (Some (hdr, d, body, length b)) ∧
    mm_from_raw hdr d body (p_fds p) = delivered_of p ∧
    N.of_nat (length (p_fds p)) = default 0%N (num_fds d) ∧
    (∀ k, 0 < k → k ≤ length b → k ≤ length full → tags (take k full) = p_fds p) ∧
    (length b ≤ length full → drop (length b) full ++ rest = mjoin bs) ∧
    (parse_message true (plain_of full) ≠ Ok None →
      parse_message true (plain_of full) = Ok (Some (hdr, d, body, length b)) ∧ length b ≤ length full).
Proof.
  intros Hq Hfull. inversion Hq as [|? ? ? ? Hb Hq']; subst.
  change (mjoin (b :: bs)) with (b ++ mjoin bs) in Hfull.
  destruct (parcel_parse p b (plain_of (mjoin bs)) Hb) as (hdr & d & body & Hp & Hst & Hn).
  rewrite <- plain_of_app, <- Hfull, plain_of_app in Hp.
  exists hdr, d, body. split_and!; [done..| | |].
  - intros k Hk Hkb Hkf. destruct Hb as (_ & _ & _ & h & _ & Hh & Hbt).
    assert (take k full = take k b) as ->.
    { rewrite <- (take_app_le full rest), Hfull by done. by apply take_app_le. }
    rewrite Hbt. apply tags_front; [done|]. by destruct h.
  - intros Hl. apply (f_equal (drop (length b))) in Hfull.
    by rewrite drop_app_length, drop_app_le in Hfull by done.
  - intros Hne. pose proof (parse_message_mono true _ (plain_of rest) Hne) as Hmono.
    rewrite Hp in Hmono. split; [done|].
    symmetry in Hmono. apply (parse_message_bound rem_capacity Hcap) in Hmono. by rewrite length_plain_of in Hmono.
Qed.

Lemma recv_inv_incoming rs P inc : recv_inv rs P → Recv.with_fd rs = true → unread rs inc = inc.
Proof. intros Hinv Hw. unfold unread. by rewrite (inv_fd _ _ Hinv Hw). Qed.

(** The flight after a call that took [k] bytes. *)
Lemma flight_left (fl : list tbyte) k :
  k ≤ length fl → drop (length fl - length (plain_of (drop k fl))) fl = drop k fl.
Proof. intros Hk. rewrite length_plain_of, length_drop. f_equal. lia. Qed.

Lemma kernel_loop_fails self fl asks e :
  ReadFails e ∈ kernel_loop parse_description validate_marshalled dbg rem_capacity self fl asks →
  AskFails e ∈ asks.
Proof.
  revert self fl. induction asks as [|[n|e'] asks IH]; intros self fl; cbn.
  - by intros ?%elem_of_nil.
  - destruct (before_read _ _ _) as [[self1 needed]| |]; [|by intros ?%elem_of_nil..].
    intros [Heq|Hin]%elem_of_cons; [done|]. right.
    destruct (after_read _ _ _ _ _ _) as [[[[msg|]| |] self2] sh]; [by apply elem_of_nil in Hin| |
      by apply elem_of_nil in Hin..]. by eapply IH.
  - intros [[= <-]|Hin]%elem_of_cons; [by left|by apply elem_of_nil in Hin].
Qed.

Lemma kernel_reads_fails self fl asks e :
  ReadFails e ∈ kernel_reads parse_description validate_marshalled dbg rem_capacity self fl asks →
  AskFails e ∈ asks.
Proof.
  unfold kernel_reads. destruct (try_get_msg self) as [[[[msg|]| |] self'] sh];
    [by intros ?%elem_of_nil|apply kernel_loop_fails|by intros ?%elem_of_nil..].
Qed.

Lemma parcel_fds p b : parcel_bytes p b → length (p_fds p) ≤ DBUS_MAX_FD_MESSAGE.
Proof.
  intros (Hs & _ & -> & _). destruct (fds_dup _ Hs) as [l Hl]. unfold dups. rewrite Hl. cbn.
  apply length_mapM in Hl. rewrite <- Hl. apply (fds_max _ Hs).
Qed.

Lemma parcel_check p b :
  parcel_bytes p b →
  Body.validate parse_description validate_marshalled (m_body (delivered_of p)) = Ok ().
Proof. destruct p as [msg n l]. intros (Hs & _ & Hl & _). cbn in Hs, Hl. rewrite Hl. by apply (fds_check _ Hs). Qed.

(** The result of a call that has taken the descriptors of the first parcel. *)
Lemma explains_parcel p b full used r rs' sock' hdr d body :
  parcel_bytes p b →
  explains parse_description validate_marshalled true (plain_of full) (p_fds p) used r rs' sock' →
  mm_from_raw hdr d body (p_fds p) = delivered_of p →
  N.of_nat (length (p_fds p)) = default 0%N (num_fds d) →
  (parse_message true (plain_of full) ≠ Ok None →
    parse_message true (plain_of full) = Ok (Some (hdr, d, body, length b)) ∧ length b ≤ length full) →
  (r ≠ Panic ∧ Recv.with_fd rs' = true) ∧
  match r with
  | Ok msg => msg = delivered_of p ∧ length b ≤ length full ∧ recv_inv rs' [] ∧ in_fds rs' = [] ∧
      unread rs' (incoming sock') = drop (length b) (plain_of full)
  | Err e => (e = WouldBlock ∨ e = BrokenPipe ∨ ReadFails e ∈ used) ∧
      ∃ P', recv_inv rs' P' ∧ P' ++ unread rs' (incoming sock') = plain_of full ∧
        (e ≠ BrokenPipe → in_fds rs' = p_fds p)
  | Panic => True
  end.
Proof.
  intros Hpb [Hw Hr] Hst Hnum Hall. pose proof (parcel_check _ _ Hpb) as Hcheck.
  rewrite <- Hst in Hcheck. destruct r as [msg|e|].
  - destruct Hr as (h' & d' & b' & n & Hp' & -> & _ & _ & Hinv' & Hf' & Hrest).
    destruct Hall as [Hall Hlen]; [by rewrite Hp'|]. rewrite Hp' in Hall. injection Hall as -> -> -> ->.
    split; [by split; [|apply Hw]|]. by split_and!.
  - split; [by split; [|apply Hw]|]. destruct Hr as [Hr|(-> & Hr)]; [done|]. exfalso.
    destruct Hr as [[Hp' _]|[[_ Hmax]|(h' & d' & b' & n & Hp' & Hr)]].
    + destruct Hall as [Hall _]; congruence.
    + pose proof (parcel_fds _ _ Hpb). lia.
    + destruct Hall as [Hall _]; [by rewrite Hp'|]. rewrite Hp' in Hall. injection Hall as -> -> -> ->.
      destruct Hr as [Hr|[[err Hr] _]]; [done|]. congruence.
  - exfalso. destruct Hr as [Hp'|(h' & d' & b' & n & Hp' & Hr)].
    + destruct Hall as [Hall _]; congruence.
    + destruct Hall as [Hall _]; [by rewrite Hp'|]. rewrite Hp' in Hall. injection Hall as -> -> -> ->.
      congruence.
Qed.

(** After a call that waits: what it took is in the state. *)
Lemma fd_inv_wait P fl sd q bs k c :
  recv_inv (recv_state c) (plain_of (P ++ take k fl)) → Recv.with_fd (recv_state c) = true →
  in_fds (recv_state c) = tags (P ++ take k fl) →
  Forall out_ok (queue (send_state sd)) → Sender.with_fd (send_state sd) = true →
  Forall2 parcel_bytes q bs → P ++ fl ++ tagged_pending (queue (send_state sd)) = mjoin bs →
  fd_link_inv (MkFdLink sd (drop k fl) c) q.
Proof.
  intros Hinv Hw Hf Hout Hsw Hq Hbytes. exists (P ++ take k fl), bs.
  cbn [f_receiver f_sender f_flight]. split_and!; try done.
  by rewrite <- Hbytes, <- app_assoc, (app_assoc (take k fl)), take_drop.
Qed.

(** A call that has taken bytes took them of the first parcel, and with them all of its
    descriptors. *)
Lemma fd_read_some P fl rest q bs k used rs rs' r sock' :
  Forall2 parcel_bytes q bs → P ++ fl ++ rest = mjoin bs → 0 < k → k ≤ length fl →
  Recv.with_fd rs = true → in_fds rs = tags P → fds_of used = tags (take k fl) →
  incoming sock' = plain_of (drop k fl) →
  (r = Err BrokenPipe → in_fds rs' = in_fds rs ++ tags (take k fl)) →
  (∀ t hdr d b n, parse_message true (plain_of P ++ plain_of fl ++ t) = Ok (Some (hdr, d, b, n)) →
    length (plain_of P) + k ≤ n) →
  explains parse_description validate_marshalled true (plain_of (P ++ fl)) (received_fds rs used)
    used r rs' sock' →
  (r ≠ Panic ∧ Recv.with_fd rs' = true) ∧
  match r with
  | Ok msg => ∃ p q' bs', q = p :: q' ∧ msg = delivered_of p ∧ Forall2 parcel_bytes q' bs' ∧
      recv_inv rs' [] ∧ in_fds rs' = [] ∧ drop k fl ++ rest = mjoin bs'
  | Err e => (e = WouldBlock ∨ e = BrokenPipe ∨ ReadFails e ∈ used) ∧
      recv_inv rs' (plain_of (P ++ take k fl)) ∧ in_fds rs' = tags (P ++ take k fl)
  | Panic => True
  end.
Proof.
  intros Hq Hbytes Hk0 Hk Hwf Hfds Hf Hi Hb Hn Hr. set (full := P ++ fl) in *.
  rewrite app_assoc in Hbytes. fold full in Hbytes.
  destruct Hq as [|p b q bs Hpb Hq].
  { exfalso. apply app_nil in Hbytes as [Hfull _]. unfold full in Hfull.
    apply app_nil in Hfull as [_ ->]. cbn in Hk. lia. }
  destruct (first_parcel p q b bs full rest (List.Forall2_cons _ _ Hpb Hq) Hbytes)
    as (hdr & d & body & Hp & Hst & Hnum & Htags & Hdrop & Hall).
  specialize (Hn (plain_of rest) hdr d body (length b)).
  rewrite app_assoc, <- plain_of_app in Hn. fold full in Hn. specialize (Hn Hp).
  rewrite length_plain_of in Hn.
  assert (received_fds rs used = tags (P ++ take k fl)) as Hrf
    by (unfold received_fds; by rewrite Hwf, Hfds, Hf, <- tags_app).
  assert (tags (P ++ take k fl) = p_fds p) as Hpf.
  { rewrite <- (Htags (length P + k)) by (unfold full; rewrite ?length_app; lia).
    unfold full. by rewrite take_app_add. }
  rewrite Hrf, Hpf in Hr.
  destruct (explains_parcel p b full used r rs' sock' hdr d body Hpb Hr Hst Hnum Hall) as [[Hnp Hw] Hres].
  split; [done|]. destruct r as [msg|e|]; [| |done].
  - destruct Hres as (-> & Hlen & Hinv' & Hf' & Hrest). rewrite (recv_inv_incoming rs' []) in Hrest by done.
    assert (length P + k = length b) as Hend.
    { rewrite Hi in Hrest. apply (f_equal length) in Hrest.
      rewrite length_drop, !length_plain_of, length_drop in Hrest.
      unfold full in Hrest, Hlen. rewrite length_app in Hrest, Hlen. lia. }
    exists p, q, bs. split_and!; try done.
    rewrite <- Hdrop by done. unfold full. by rewrite <- Hend, drop_app_add.
  - destruct Hres as (He & P' & Hinv' & Hfull & Hf'). split; [done|].
    rewrite (recv_inv_incoming rs' P'), Hi in Hfull by done.
    assert (P' = plain_of (P ++ take k fl)) as <-.
    { apply (app_inv_tail (plain_of (drop k fl))). rewrite Hfull, <- plain_of_app, <- app_assoc.
      unfold full. by rewrite take_drop. }
    split; [done|]. destruct (decide (e = BrokenPipe)) as [->|Hne].
    + by rewrite Hb, Hfds, tags_app.
    + by rewrite Hf', Hpf.
Qed.

Lemma fd_read_ok l q asks :
  fd_link_inv l q →
  ∃ ev l' q', fd_link_step l (FRead asks) = (ev, l') ∧ fd_link_inv l' q' ∧
    parcel_step q (conn_serial (f_sender l)) (FRead asks) ev q' ∧
    conn_serial (f_sender l') = conn_serial (f_sender l).
Proof.
  intros (P & bs & Hinv & Hwf & Hfds & Hout & Hsw & Hq & Hbytes).
  cbn [fd_link_step]. unfold Conn.get_next_message. set (rs := recv_state (f_receiver l)) in *.
  set (fl := f_flight l) in *.
  pose proof (kernel_took parse_description validate_marshalled dbg rem_capacity Hcap rs (plain_of P) fl
    asks Hinv Hwf) as Hkt. cbv zeta in Hkt.
  set (answers := kernel_reads _ _ _ _ rs fl asks) in *.
  destruct (get_next_message_explains parse_description validate_marshalled dbg rem_capacity Hcap
    rs (plain_of P) (MkSock (plain_of fl) answers false) Hinv) as (r & rs' & sock' & used & Heq & Hu & Hr).
  rewrite Heq in Hkt |- *. cbn [incoming Recv.reads] in *.
  destruct Hkt as (k & used' & Hu' & Hk & Hi & Hf & Hb & Hn & Hzero).
  rewrite Hu in Hu'. apply app_inv_tail in Hu' as <-. rewrite Hi, flight_left by done.
  assert (∀ e, e = WouldBlock ∨ e = BrokenPipe ∨ ReadFails e ∈ used →
    parcel_step q (conn_serial (f_sender l)) (FRead asks) (Err e) q) as Hwait.
  { intros e He. constructor. destruct He as [?|[?|He]]; [by left|by right; left|right; right].
    apply (kernel_reads_fails rs fl). fold answers. rewrite Hu. apply elem_of_app. by left. }
  destruct (decide (k = 0)) as [->|Hk0].
  { destruct (Hzero eq_refl) as (e & -> & He & Hf' & Hw' & Hinv'). eexists _, _, q. split; [done|].
    split; [|split; [by apply Hwait|done]].
    apply (fd_inv_wait P fl _ q bs 0); rewrite ?take_0, ?app_nil_r; try done. cbn [recv_state]. by rewrite Hf'. }
  rewrite Hwf in Hr. rewrite (recv_inv_incoming rs (plain_of P)), <- plain_of_app in Hr by done.
  destruct (fd_read_some P fl _ q bs k used rs rs' r sock' Hq Hbytes ltac:(lia) Hk Hwf Hfds Hf Hi Hb Hn Hr)
    as [[Hnp Hw] Hres].
  destruct r as [msg|e|]; [| |done].
  - destruct Hres as (p & q' & bs' & -> & -> & Hq' & Hinv' & Hf' & Hrest).
    eexists _, _, q'. split; [done|]. split; [|split; [by econstructor|done]].
    exists [], bs'. by split_and!.
  - destruct Hres as (He & Hinv' & Hf'). eexists _, _, q. split; [done|].
    split; [|split; [by apply Hwait|done]]. by apply (fd_inv_wait P fl _ q bs k).
Qed.

Lemma fd_step_ok l q op :
  fd_link_inv l q → fd_op_ok l op →
  ∃ ev l' q', fd_link_step l op = (ev, l') ∧ fd_link_inv l' q' ∧
    parcel_step q (conn_serial (f_sender l)) op ev q'.
Proof.
  intros Hinv Hop. destruct op as [msg answers|answers|asks].
  - destruct (fd_write_ok l q msg answers Hinv Hop) as (l' & -> & Hinv' & _).
    eexists _, _, _. split; [done|]. split; [exact Hinv'|constructor].
  - destruct (fd_drain_ok l q answers Hinv Hop) as (i & l' & -> & Hinv' & _).
    eexists _, _, _. split; [done|]. split; [exact Hinv'|constructor].
  - destruct (fd_read_ok l q asks Hinv) as (ev & l' & q' & -> & Hinv' & Hf & _). by eexists _, _, _.
Qed.

Lemma fd_link_new_inv fd1 fd2 : fd_link_inv (fd_link_new fd1 fd2) [].
Proof.
  exists [], []. cbn. split_and!; try done.
  split; cbn; [done|split; [done|lia]|unfold HEADER_LEN; lia|done|done].
Qed.

(** ** Runs *)

Fixpoint fd_link_run (l : FdLink) (ops : list fd_op) : list (io_result fd_event) * FdLink :=
  match ops with
  | [] => ([], l)
  | op :: ops' =>
      let '(ev, l) := fd_link_step l op in
      let '(evs, l) := fd_link_run l ops' in (ev :: evs, l)
  end.

(** Every operation is one that is allowed in the state it meets. *)
Fixpoint fd_ops_ok (l : FdLink) (ops : list fd_op) : Prop :=
  match ops with
  | [] => True
  | op :: ops' => fd_op_ok l op ∧ fd_ops_ok (fd_link_step l op).2 ops'
  end.

Definition parcels_of (evs : list (io_result fd_event)) : list parcel :=
  omap (λ ev, match ev with Ok (FSent p) => Some p | _ => None end) evs.

Definition fd_got_of (evs : list (io_result fd_event)) : list MarshalledMessage :=
  omap (λ ev, match ev with Ok (FGot msg) => Some msg | _ => None end) evs.

(** The messages given to the sender, and the descriptors their parcels take. *)
Definition written_of (ops : list fd_op) : list (MarshalledMessage * list Fd) :=
  omap (λ op, match op with FWrite msg _ => Some (msg, dups msg) | _ => None end) ops.

Lemma fd_link_run_ok l q ops :
  fd_link_inv l q → fd_ops_ok l ops →
  ∃ evs l' q' got, fd_link_run l ops = (evs, l') ∧ fd_link_inv l' q' ∧
    map (λ p, (p_msg p, p_fds p)) (parcels_of evs) = written_of ops ∧
    q ++ parcels_of evs = got ++ q' ∧ fd_got_of evs = map delivered_of got ∧
    Forall (λ ev, ev ≠ Panic) evs.
Proof.
  revert l q. induction ops as [|op ops IH]; intros l q Hinv Hops.
  { exists [], l, q, []. cbn. rewrite app_nil_r. by split_and!. }
  destruct Hops as [Hop Hops].
  destruct (fd_step_ok l q op Hinv Hop) as (ev & l1 & q1 & Hs & Hinv1 & Hf).
  rewrite Hs in Hops. destruct (IH l1 q1 Hinv1 Hops) as (evs & l' & q' & got & Hr & Hinv' & Hw & Hq & Hg & Hp).
  cbn [fd_link_run]. rewrite Hs, Hr.
  inversion Hf as [msg answers p Hop' Hev Hq1|answers i Hop' Hev Hq1|asks p q2 Hq2 Hop' Hev Hq1
    |asks e He Hop' Hev Hq1]; subst.
  - exists (Ok (FSent p) :: evs), l', q', got. rewrite <- app_assoc in Hq.
    split_and!; [done|done| |done|done|by constructor]. cbn. f_equal. exact Hw.
  - exists (Ok (FDrained i) :: evs), l', q', got. split_and!; try done. by constructor.
  - exists (Ok (FGot (delivered_of p)) :: evs), l', q', (p :: got).
    split_and!; [done|done|done| | |by constructor].
    + cbn. f_equal. exact Hq.
    + cbn. f_equal. exact Hg.
  - exists (Err e :: evs), l', q', got. split_and!; try done. by constructor.
Qed.

(** C2: two connections with descriptors are a queue of messages that take their
    descriptors along.  From two new connections that negotiated descriptors, any sequence of
    writes and drains at one end and reads at the other, whatever partial writes, short reads,
    interruptions and failed reads the sockets answer with, as long as no message without
    descriptors is written while descriptors wait in the queue: nothing panics, and the
    messages received are, in order, the first of those written, each with its fields, body
    and serial and with exactly the duplicates made of its own descriptors; those not received
    yet are still on the way with theirs. *)
Theorem fd_link_fifo fd1 fd2 ops :
  fd_ops_ok (fd_link_new fd1 fd2) ops →
  ∃ evs l q got, fd_link_run (fd_link_new fd1 fd2) ops = (evs, l) ∧ fd_link_inv l q ∧
    map (λ p, (p_msg p, p_fds p)) (parcels_of evs) = written_of ops ∧
    parcels_of evs = got ++ q ∧ fd_got_of evs = map delivered_of got ∧
    Forall (λ ev, ev ≠ Panic) evs.
Proof.
  intros Hops. exact (fd_link_run_ok _ [] ops (fd_link_new_inv fd1 fd2) Hops).
Qed.
End link.

(** ** A call with a descriptor between two calls, one of them with two *)

Definition two_fds_call : MarshalledMessage :=
  MkMsg (MkBody [] [] [5; 6] LittleEndian) (dynheader ping_call) (typ ping_call) (flags ping_call).

Definition one_fd_call : MarshalledMessage :=
  MkMsg (MkBody [] [] [3] LittleEndian) (dynheader ping_call) (typ ping_call) (flags ping_call).

Definition dup_plus_4 (fd : Fd) : option Fd := Some (fd + 4).

Abbreviation link_run := (fd_link_run split_types check_u32 true 4096 linux_cmsg_space dup_plus_4).

(** The second message is queued behind the first; the third is written once they are out. *)
Definition three_calls : list fd_op :=
  [FWrite one_fd_call [Took 4; Fails WouldBlock]; FRead [Ask 3; AskFails Interrupted];
   FWrite two_fds_call [Took 200; Fails WouldBlock]; FDrain [Took 200; Took 200];
   FWrite ping_call [Took 500]; FRead [Ask 9; Ask 500; Ask 500];
   FRead [Ask 500; Ask 500; Ask 500; Ask 500]].

Example three_calls_fds :
  map (raw_fds ∘ m_body) (fd_got_of (link_run (fd_link_new 3 4) three_calls).1) = [[7]; [9; 10]].
Proof. vm_compute. reflexivity. Qed.

Abbreviation may_send := (fd_sendable split_types check_u32 true dup_plus_4).

Lemma fd_calls_sendable : may_send one_fd_call ∧ may_send two_fds_call ∧ may_send ping_call.
Proof.
  split_and!; (split;
    [split; [by vm_compute|done|intros p [= <-]; by vm_compute|by vm_compute]
    |done|by vm_compute|vm_compute; lia|by eexists|by vm_compute
    |intros n hdr Hm; vm_compute in Hm; injection Hm as <-; by vm_compute
    |intros n; vm_compute; reflexivity]).
Qed.

Lemma fd_link_fifo_witness :
  ∃ evs l q got, link_run (fd_link_new 3 4) three_calls = (evs, l) ∧
    fd_got_of evs = map delivered_of got ∧ map p_fds got = [[7]; [9; 10]] ∧ map p_fds q = [[]].
Proof.
  destruct fd_calls_sendable as (H1 & H2 & H3).
  destruct (fd_link_fifo split_types check_u32 true 4096 linux_cmsg_space dup_plus_4
    linux_cmsg_space_fits (le_n _) 3 4 three_calls) as (evs & l & q & got & Hr & _ & Hw & Hq & Hg & _).
  - unfold three_calls. cbn [fd_ops_ok].
    repeat match goal with
    | |- _ ∧ _ => split
    | |- True => exact I
    | |- may_send _ => assumption
    | |- Forall _ _ => repeat constructor
    | |- fd_op_ok _ _ _ _ _ _ => cbn [fd_op_ok]
    | |- (_ < _)%N => vm_compute; reflexivity
    | |- _ → no_barrier _ => intros Hraw; first [discriminate Hraw|vm_compute; by constructor]
    end.
  - exists evs, l, q, got. split; [exact Hr|]. split; [exact Hg|].
    pose proof three_calls_fds as Hfds. rewrite Hr in Hfds. cbn [fst] in Hfds.
    rewrite Hg, map_map in Hfds. change (map p_fds got = [[7]; [9; 10]]) in Hfds. split; [exact Hfds|].
    apply (f_equal (map snd)) in Hw. rewrite map_map in Hw.
    change (map p_fds (parcels_of evs) = [[7]; [9; 10]; []]) in Hw.
    rewrite Hq, map_app, Hfds in Hw. by injection Hw.
Defined.
