(* ===== verification/Connect.v ===== *)
(** * lib.rs: making an RPC connection

    The constructors of [RpcConn]: find the bus (Addr.v), connect and authenticate
    (Conn.v, Auth.v), make the socket non-blocking, register it, and say Hello
    (Client.v).  [fcntl] and the registration with the runtime are parameters, as are the
    system calls of Conn.v. *)

From S2P Require Import Prelude Utils SigStr Body StdPath ObjPath Message Addr Hierarchy Order MatchRule Auth Conn Rpc Client.
From Stdlib Require Import Lia.

(** [RpcConn::send_msg]; the future inside, when there is one, is the one of Rpc.v. *)
Definition send_msg (s : Rpc.RpcConn) (msg : MarshalledMessage) (sent : bool) : option Rpc.RpcConn :=
  if expects_reply msg then send_msg_w_rsp s msg sent else send_msg_wo_rsp s msg.

Section connect.
(** [fcntl(fd, F_GETFL)] and [fcntl(fd, F_SETFL, flags)], the error they leave, and
    [AsyncFd::new]. *)
Context (errno : ErrorKind) (O_NONBLOCK getfl : Z) (setfl : Z → Z) (async_fd : Z → io_result unit).

(** The [fcntl] calls of [RpcConn::new]. *)
Definition set_nonblocking : io_result unit :=
  if decide (getfl = -1)%Z then Err errno else
  if decide (Z.land O_NONBLOCK getfl = 0 ∧ setfl (Z.lor getfl O_NONBLOCK) = -1)%Z then Err errno
  else Ok ().

(** [RpcConn::new] up to the Hello call: the shared state. *)
Definition rpc_open (conn : Conn) : io_result Rpc.RpcConn :=
  _ ← set_nonblocking;
  _ ← async_fd (stream conn);
  mret rpc_new.

Context `{BasicMarshal} (dbg : bool)
  (hash_iter : gmap bytes CallHierarchy → list (bytes * CallHierarchy)).
Context {Ty : Type} `{EqDecision Ty}
  (parse_description : bytes → outcome UnmarshalError (list Ty))
  (is_empty_signature : UnmarshalError → bool)
  (str_value : Unmarshal (Ty:=Ty) bytes) (str2_value : Unmarshal (Ty:=Ty) (bytes * bytes)).

(** [RpcConn::new] over what connecting gave, resumed by [script]: [None] is a wait
    without end or a panic of the reader; the text is the name the bus gave. *)
Definition new_rpc (conn : option (io_result Conn)) (script : list turn)
    : option (task bytes * Rpc.RpcConn) :=
  match conn with
  | Some (Ok conn) =>
      match rpc_open conn with
      | Ok s =>
          exec dbg hash_iter (Running (say_hello parse_description is_empty_signature
            str_value str2_value)) script s
      | Err e => Some (Running (Ret (Err e)), rpc_new)
      | Panic => Some (Running (Ret Panic), rpc_new)
      end
  | Some (Err e) => Some (Running (Ret (Err e)), rpc_new)
  | Some Panic => Some (Running (Ret Panic), rpc_new)
  | None => None
  end.

(** The calls of Conn.v. *)
Context (geteuid : N) (dup : Z) (AF_UNIX : N) (unix_connect tcp_connect : bytes → io_result Peer)
  (socket : Z) (connect : Z → bytes → Z) (from_std : Z → io_result Peer).

#[local] Abbreviation conn_connect := (Conn.connect_to_addr dbg geteuid errno dup AF_UNIX
  unix_connect tcp_connect socket connect from_std).

Definition rpc_connect_to_addr (addr : text_addr) (with_fd : bool) (script : list turn)
    : option (task bytes * Rpc.RpcConn) :=
  new_rpc (conn_connect addr with_fd) script.

Definition rpc_connect_to_path (p : bytes) (with_fd : bool) (script : list turn)
    : option (task bytes * Rpc.RpcConn) :=
  new_rpc (Conn.connect_to_path dbg geteuid errno dup AF_UNIX unix_connect tcp_connect socket connect
    from_std p with_fd) script.

(** [Path::exists] and the environment. *)
Context (exists_ : bytes → bool) (env : option bytes).

Definition session_conn (with_fd : bool) (script : list turn)
    : option (task bytes * Rpc.RpcConn) :=
  match get_session_bus_addr exists_ env with
  | Ok addr => rpc_connect_to_addr addr with_fd script
  | Err e => Some (Running (Ret (Err e)), rpc_new)
  | Panic => Some (Running (Ret Panic), rpc_new)
  end.

Definition system_conn (with_fd : bool) (script : list turn)
    : option (task bytes * Rpc.RpcConn) :=
  match get_system_bus_addr exists_ with
  | Ok addr => rpc_connect_to_addr addr with_fd script
  | Err e => Some (Running (Ret (Err e)), rpc_new)
  | Panic => Some (Running (Ret Panic), rpc_new)
  end.

(** ** When a connection comes up *)

#[local] Abbreviation value := (body_get parse_description is_empty_signature).

(** The Hello call on a new connection. *)
Lemma say_hello_new answer :
  is_answer 1 answer →
  ∃ s, exec dbg hash_iter (Running (say_hello parse_description is_empty_signature
        str_value str2_value)) [alone; arrival answer] rpc_new =
      Some (Running (Ret (hello_reply parse_description is_empty_signature str_value str2_value
        answer)), s) ∧ outgoing s = [hello].
Proof.
  intros Ha. unfold say_hello.
  destruct (call_undisturbed dbg hash_iter (λ res, Ret (hello_reply parse_description is_empty_signature
    str_value str2_value res)) hello answer 0 rpc_new rpc_new_ok eq_refl eq_refl eq_refl Ha)
    as (s & He & Hout & _). by exists s.
Qed.

(** What the first stages leave for the Hello call. *)
Definition stages_ok (with_fd : bool) : Prop :=
  ∃ addr conn, get_session_bus_addr exists_ env = Ok addr ∧
    conn_connect addr with_fd = Some (Ok conn) ∧ set_nonblocking = Ok () ∧
    async_fd (stream conn) = Ok ().

Lemma session_conn_stages with_fd script :
  (stages_ok with_fd ∧ session_conn with_fd script =
     exec dbg hash_iter (Running (say_hello parse_description is_empty_signature
       str_value str2_value)) script rpc_new) ∨
  (¬ stages_ok with_fd ∧ (session_conn with_fd script = None ∨ ∃ r,
     session_conn with_fd script = Some (Running (Ret r), rpc_new) ∧ ∀ name, r ≠ Ok name)).
Proof.
  unfold stages_ok, session_conn, rpc_connect_to_addr, new_rpc, rpc_open.
  destruct (get_session_bus_addr exists_ env) as [addr|e|];
    [|right; split; [by intros (? & ? & ? & _)|right; by eexists]..].
  destruct (conn_connect addr with_fd) as [[conn|e|]|] eqn:Hc.
  2-4: right; split; [by intros (? & ? & [= <-] & Hc' & _); rewrite Hc in Hc'|];
    first [by left|right; by eexists].
  destruct set_nonblocking as [[]|e|];
    [|right; split; [by intros (? & ? & _ & _ & ? & _)|right; by eexists]..].
  destruct (async_fd (stream conn)) as [[]|e|] eqn:Ha; cbn [mbind outcome_bind].
  2-3: right; split; [|right; by eexists]; intros (? & ? & [= <-] & Hc' & _ & Ha');
    rewrite Hc in Hc'; injection Hc' as <-; congruence.
  left. split; [|done]. by exists addr, conn.
Qed.

(** a session connection comes up exactly when every stage does.  When the answer to
    Hello is the next message, [session_conn] gives a connection of the name [name] if and
    only if a bus address was found, the socket connected and authenticated, it could be
    made non-blocking and registered, and the answer is a reply with that text.  It has
    then sent Hello and nothing else; when it fails with an error, either nothing was sent
    or the bus refused Hello. *)
Theorem session_conn_up with_fd answer :
  is_answer 1 answer →
  (∀ name, (∃ s, session_conn with_fd [alone; arrival answer] = Some (Running (Ret (Ok name)), s)) ↔
     stages_ok with_fd ∧ typ answer = TReply ∧ value str_value (m_body answer) = Ok name) ∧
  (∀ name s, session_conn with_fd [alone; arrival answer] = Some (Running (Ret (Ok name)), s) →
     outgoing s = [hello]) ∧
  (∀ e s, session_conn with_fd [alone; arrival answer] = Some (Running (Ret (Err e)), s) →
     outgoing s = [] ∨ (stages_ok with_fd ∧ e = ConnectionRefused)).
Proof.
  intros Ha. destruct (say_hello_new answer Ha) as (s & Hex & Hout).
  destruct (hello_reply_spec parse_description is_empty_signature str_value str2_value 1 answer Ha)
    as [Hok Herr].
  destruct (session_conn_stages with_fd [alone; arrival answer]) as [[Hst ->]|[Hst Hno]].
  - rewrite Hex. split_and!.
    + intros name. rewrite <- Hok. split; [intros (s' & Hs); split; [done|congruence]|].
      intros [_ ->]. by exists s.
    + by intros name s' [= _ <-].
    + intros e s' [= He _]. right. split; [done|]. by apply Herr.
  - split_and!.
    + intros name. split; [|naive_solver]. intros (s' & Hs).
      destruct Hno as [Hn|(r & Hr & Hne)]; [congruence|]. rewrite Hr in Hs. injection Hs as -> _. by destruct (Hne name).
    + intros name s' Hs. destruct Hno as [Hn|(r & Hr & Hne)]; [congruence|].
      rewrite Hr in Hs. injection Hs as -> _. by destruct (Hne name).
    + intros e s' Hs. destruct Hno as [Hn|(r & Hr & Hne)]; [congruence|].
      rewrite Hr in Hs. injection Hs as _ <-. by left.
Qed.
End connect.

(** ** A concrete connection *)

(** A bus that accepts EXTERNAL, on the socket [/b]. *)
Definition small_bus : Peer :=
  MkPeer [reply (lit "REJECTED EXTERNAL"); reply (lit "OK 1234")] [] [].

Definition named : MarshalledMessage :=
  set_body (reply_to 1 TReply) (MkBody (u8_of 4 :: lit ":1.7") (lit "s") [] LittleEndian).

Definition sample_session : option (task bytes * Rpc.RpcConn) :=
  session_conn (H:=text_marshal) Other 2048 2 (λ _, 0%Z) (λ _, Ok ()) true map_to_list letters
    (λ _, false) one_text two_texts 7 5 1 (λ _, Ok small_bus) (λ _, Err NotFound) 3 (λ _ _, 0%Z)
    (λ _, Err Other) (λ _, true) (Some (lit "unix:path=/b")) false [alone; arrival named].

Lemma session_conn_up_witness :
  ∃ s, sample_session = Some (Running (Ret (Ok (lit ":1.7"))), s) ∧ outgoing s = [hello].
Proof.
  destruct (session_conn_up (H:=text_marshal) Other 2048 2 (λ _, 0%Z) (λ _, Ok ()) true map_to_list
    letters (λ _, false) one_text two_texts 7 5 1 (λ _, Ok small_bus) (λ _, Err NotFound) 3 (λ _ _, 0%Z)
    (λ _, Err Other) (λ _, true) (Some (lit "unix:path=/b")) false named
    ltac:(split; [by left|reflexivity])) as (Hup & Hout & _).
  destruct (proj2 (Hup (lit ":1.7"))) as [s Hs].
  { split; [|split; [reflexivity|by vm_compute]].
    exists (Path (lit "/b")), (conn_new 5 false).
    split; [by vm_compute|]. split; [vm_compute; reflexivity|]. split; [by vm_compute|reflexivity]. }
  exists s. split; [exact Hs|]. exact (Hout _ _ Hs).
Defined.
