(* ===== verification/Sockets.v ===== *)
(** * conn/mod.rs and lib.rs: the descriptor of the socket

    Connecting opens a socket; the handshake runs over it; [into_raw_fd] duplicates its
    descriptor for the [GenStream] of the connection and closes the first one with the
    stream it consumes; [GenStream] closes the duplicate when the connection goes, and a
    constructor of [RpcConn] that fails drops it.

    The functions of Conn.v and Connect.v are repeated here over the table of the open
    descriptors of the process.  Their results are those of Conn.v and Connect.v when [dup]
    and [socket] answer with the descriptors they open. *)

From S2P Require Import Prelude Utils SigStr Body StdPath ObjPath Message Addr Hierarchy Order MatchRule.
From S2P Require Import Auth Conn Rpc Client Connect.
From Stdlib Require Import Lia.

(** ** [GenStream] *)

Inductive Shutdown := ShutRead | ShutWrite | ShutBoth.

Section gen_stream.
Context (SHUT_RD SHUT_WR SHUT_RDWR : Z) (libc_shutdown : Z → Z → Z) (errno : ErrorKind).

Definition shutdown (fd : Z) (how : Shutdown) : io_result unit :=
  let how := match how with ShutRead => SHUT_RD | ShutWrite => SHUT_WR | ShutBoth => SHUT_RDWR end in
  if decide (libc_shutdown fd how = -1)%Z then Err errno else Ok ().
End gen_stream.

(** [libc::close]: closing what is not open is an error of the program ([None]). *)
Definition close (fd : Z) (t : gset Z) : option (gset Z) :=
  if decide (fd ∈ t) then Some (t ∖ {[fd]}) else None.

(** [Drop for GenStream]. *)
Definition gen_stream_drop (fd : Z) (t : gset Z) : option (gset Z) := close fd t.

Section sockets.
(** The number the kernel gives to a new descriptor. *)
Context (fresh : gset Z → Z).
Context (dbg : bool) (geteuid : N) (errno : ErrorKind) (AF_UNIX : N).

(** What [UnixStream::connect] and [TcpStream::connect] give, whether [socket] and [dup]
    succeed, and what [connect] and [UnixStream::from_std] give. *)
Context (unix_connect tcp_connect : bytes → io_result Peer) (socket_ok dup_ok : bool)
  (connect : Z → bytes → Z) (from_std : Z → io_result Peer).

(** The answers of [socket] and [dup]. *)
Definition opened (ok : bool) (t : gset Z) : Z := if ok then fresh t else (-1)%Z.

Definition with_new (t : gset Z) : gset Z := {[fresh t]} ∪ t.

(** [conn_handshake] up to [into_raw_fd]. *)
Definition dialogue (with_fd : bool) : Auth unit :=
  _ ← do_auth dbg geteuid;
  let agreed : Auth bool := if with_fd then negotiate_unix_fds dbg else mret true in
  ok ← agreed;
  if (ok : bool) then write_all (lit "BEGIN" ++ DBUS_LINE_END) else throw ConnectionAborted.

(** [into_raw_fd] consumes the stream. *)
Definition into_raw_fd (fd : Z) (t : gset Z) : io_result Z * option (gset Z) :=
  if dup_ok then (Ok (fresh t), close fd (with_new t)) else (Err errno, close fd t).

(** The stream is dropped when the handshake fails, panics or is given up. *)
Definition handshake_fds (with_fd : bool) (peer : Peer) (fd : Z) (t : gset Z)
    : option (io_result Conn) * option (gset Z) :=
  match (dialogue with_fd peer).1 with
  | Some (Ok _) =>
      let '(r, t) := into_raw_fd fd t in
      (Some ((λ fd, conn_new fd with_fd) <$> r), t)
  | Some (Err e) => (Some (Err e), close fd t)
  | Some Panic => (Some Panic, close fd t)
  | None => (None, close fd t)
  end.

(** A library call that gives a stream with a descriptor of its own, or leaves nothing open. *)
Definition over_fds (r : io_result Peer) (with_fd : bool) (t : gset Z)
    : option (io_result Conn) * option (gset Z) :=
  match r with
  | Ok peer => handshake_fds with_fd peer (fresh t) (with_new t)
  | Err e => (Some (Err e), Some t)
  | Panic => (Some Panic, Some t)
  end.

Definition abstract_fds (buf : bytes) (with_fd : bool) (t : gset Z)
    : option (io_result Conn) * option (gset Z) :=
  match abstract_sockaddr AF_UNIX buf with
  | Ok addr =>
      if socket_ok then
        let fd := fresh t in
        let t := with_new t in
        match fd_or_os_err errno (connect fd addr) with
        | Ok _ =>
            match from_std fd with
            | Ok peer => handshake_fds with_fd peer fd t
            | Err e => (Some (Err e), close fd t)
            | Panic => (Some Panic, close fd t)
            end
        | Err e => (Some (Err e), close fd t)
        | Panic => (Some Panic, close fd t)
        end
      else (Some (Err errno), Some t)
  | Err e => (Some (Err e), Some t)
  | Panic => (Some Panic, Some t)
  end.

Definition connect_to_addr_fds (addr : text_addr) (with_fd : bool) (t : gset Z)
    : option (io_result Conn) * option (gset Z) :=
  match addr with
  | Path p => over_fds (unix_connect p) with_fd t
  | Tcp s => if with_fd then (Some (Err InvalidInput), Some t) else over_fds (tcp_connect s) with_fd t
  | Abstract buf => abstract_fds buf with_fd t
  end.

(** ** Every path closes what it does not return *)

Context (fresh_new : ∀ t, fresh t ∉ t).

(** A connection over one descriptor that was not open, or nothing. *)
Definition one_or_none (t : gset Z) (r : option (io_result Conn) * option (gset Z)) : Prop :=
  match r.1 with
  | Some (Ok conn) => stream conn ∉ t ∧ r.2 = Some ({[stream conn]} ∪ t)
  | _ => r.2 = Some t
  end.

Lemma close_new fd t : fd ∉ t → close fd ({[fd]} ∪ t) = Some t.
Proof.
  intros Hfd. unfold close. rewrite decide_True by set_solver. f_equal. set_solver.
Qed.

Lemma handshake_closes with_fd peer t :
  one_or_none t (handshake_fds with_fd peer (fresh t) (with_new t)).
Proof.
  pose proof (fresh_new t) as Hf. unfold handshake_fds, into_raw_fd, one_or_none.
  destruct (dialogue with_fd peer).1 as [[[]|e|]|]; cbn; try by apply close_new.
  destruct dup_ok; cbn; [|by apply close_new].
  pose proof (fresh_new (with_new t)) as Hf'. unfold with_new in *.
  split; [set_solver|]. unfold close. rewrite decide_True by set_solver. f_equal. set_solver.
Qed.

Lemma connect_closes addr with_fd t :
  one_or_none t (connect_to_addr_fds addr with_fd t).
Proof.
  assert (∀ r, one_or_none t (over_fds r with_fd t)) as Hover.
  { intros [peer|e|]; [apply handshake_closes|done..]. }
  destruct addr as [p|s|buf]; cbn [connect_to_addr_fds]; [apply Hover| |].
  - destruct with_fd; [done|apply Hover].
  - unfold abstract_fds. destruct (abstract_sockaddr AF_UNIX buf) as [addr|e|]; [|done..].
    destruct socket_ok; [|done]. cbv zeta. pose proof (close_new (fresh t) t (fresh_new t)) as Hc.
    destruct (fd_or_os_err errno (connect _ addr)); [|done..].
    destruct (from_std (fresh t)) as [peer|e|]; [apply handshake_closes|done..].
Qed.

(** ** [RpcConn] *)

Context (O_NONBLOCK getfl : Z) (setfl : Z → Z) (async_fd : Z → io_result unit).
Context `{BasicMarshal}
  (hash_iter : gmap bytes CallHierarchy → list (bytes * CallHierarchy)).
Context {Ty : Type} `{EqDecision Ty}
  (parse_description : bytes → outcome UnmarshalError (list Ty))
  (is_empty_signature : UnmarshalError → bool)
  (str_value : Unmarshal (Ty:=Ty) bytes) (str2_value : Unmarshal (Ty:=Ty) (bytes * bytes)).

(** What is left of [RpcConn::new]: the connection, the future, or nothing. *)
Definition holds_socket (r : option (task bytes * Rpc.RpcConn)) : bool :=
  match r with
  | Some (Running (Ret (Ok _)), _) => true
  | Some (Running (Ret _), _) => false
  | _ => true
  end.

(** [RpcConn::new] drops the connection when it returns an error; [AsyncFd::new] drops
    what it cannot register. *)
Definition new_rpc_fds (conn : Conn) (script : list turn) (t : gset Z)
    : option (task bytes * Rpc.RpcConn) * option (gset Z) :=
  match rpc_open errno O_NONBLOCK getfl setfl async_fd conn with
  | Ok s =>
      let r := exec dbg hash_iter (Running (say_hello parse_description is_empty_signature
        str_value str2_value)) script s in
      (r, if holds_socket r then Some t else gen_stream_drop (stream conn) t)
  | Err e => (Some (Running (Ret (Err e)), rpc_new), gen_stream_drop (stream conn) t)
  | Panic => (Some (Running (Ret Panic), rpc_new), gen_stream_drop (stream conn) t)
  end.

(** [RpcConn::connect_to_addr]: the result, the descriptor it goes on with, and the table. *)
Definition rpc_connect_fds (addr : text_addr) (with_fd : bool) (script : list turn) (t : gset Z)
    : option (task bytes * Rpc.RpcConn) * option Z * option (gset Z) :=
  match connect_to_addr_fds addr with_fd t with
  | (Some (Ok conn), Some t) =>
      let '(r, t) := new_rpc_fds conn script t in
      (r, if holds_socket r then Some (stream conn) else None, t)
  | (Some (Err e), t) => (Some (Running (Ret (Err e)), rpc_new), None, t)
  | (Some Panic, t) => (Some (Running (Ret Panic), rpc_new), None, t)
  | (_, t) => (None, None, t)
  end.

(** C17: connecting leaks no socket and closes none twice.  Whatever kind of address, whichever
    call fails, whatever the peer answers during authentication and negotiation or the bus to
    Hello: no close meets a descriptor that is not open; a connection that comes up, or still
    waits for its Hello, holds one descriptor that was not open before, next to what was open,
    and closing it restores the table; and after every failure the table is as it was. *)
Theorem sockets_closed addr with_fd script t r fd t' :
  rpc_connect_fds addr with_fd script t = (r, fd, t') →
  match fd with
  | Some fd => fd ∉ t ∧ t' = Some ({[fd]} ∪ t) ∧ gen_stream_drop fd ({[fd]} ∪ t) = Some t ∧
      holds_socket r = true
  | None => t' = Some t ∧ ∀ name s, r ≠ Some (Running (Ret (Ok name)), s)
  end.
Proof.
  pose proof (connect_closes addr with_fd t) as Hc. unfold rpc_connect_fds, one_or_none in *.
  destruct (connect_to_addr_fds _ _ _) as [[[conn|e|]|] t1]; cbn [fst snd] in *;
    [|by intros [= <- <- <-]..].
  destruct Hc as [Hn ->]. pose proof (close_new _ _ Hn) as Hd.
  unfold new_rpc_fds. destruct (rpc_open _ _ _ _ _ conn) as [s|e|]; [|by intros [= <- <- <-]..].
  cbv zeta. destruct (holds_socket _) eqn:Hh; intros [= <- <- <-]; [done|].
  split; [done|]. intros name s' Hr. by rewrite Hr in Hh.
Qed.
(** ** The results are those of Conn.v and Connect.v *)

Lemma conn_handshake_dialogue dup with_fd peer :
  conn_handshake dbg geteuid errno dup with_fd peer =
    (_ ← dialogue with_fd; fd ← lift (fd_or_os_err errno dup); mret (conn_new fd with_fd)) peer.
Proof.
  unfold conn_handshake, dialogue, mbind, auth_bind.
  destruct (do_auth dbg geteuid peer) as [[[[]| |]|] p1]; try done.
  destruct with_fd.
  - by destruct (negotiate_unix_fds dbg p1) as [[[[|]| |]|] p2].
  - done.
Qed.

Context (fresh_nonneg : ∀ t, (0 ≤ fresh t)%Z).

Lemma opened_result ok t :
  fd_or_os_err errno (opened ok t) = if ok then Ok (fresh t) else Err errno.
Proof.
  unfold fd_or_os_err, opened. destruct ok; [|done].
  pose proof (fresh_nonneg t). by rewrite decide_False by lia.
Qed.

(** The table when [into_raw_fd] is called. *)
Lemma handshake_fds_erase with_fd peer fd t :
  (handshake_fds with_fd peer fd t).1 =
    (conn_handshake dbg geteuid errno (opened dup_ok t) with_fd peer).1.
Proof.
  rewrite conn_handshake_dialogue. unfold handshake_fds, into_raw_fd, mbind, auth_bind, lift.
  rewrite opened_result.
  by destruct (dialogue with_fd peer) as [[[[]| |]|] p1]; try done; destruct dup_ok.
Qed.

Lemma connect_fds_erase addr with_fd t :
  (connect_to_addr_fds addr with_fd t).1 =
    connect_to_addr dbg geteuid errno (opened dup_ok (with_new t)) AF_UNIX unix_connect tcp_connect
      (opened socket_ok t) connect from_std addr with_fd.
Proof.
  assert (∀ r, (over_fds r with_fd t).1 =
    over dbg geteuid errno (opened dup_ok (with_new t)) r with_fd) as Hover.
  { intros [peer|e|]; [|done..]. apply handshake_fds_erase. }
  destruct addr as [p|s|buf]; cbn [connect_to_addr_fds connect_to_addr].
  - apply Hover.
  - destruct with_fd; [done|]. apply Hover.
  - unfold abstract_fds, connect_abstract. destruct (abstract_sockaddr AF_UNIX buf) as [addr|e|]; [|done..].
    rewrite opened_result. unfold opened. destruct socket_ok; [|done]. cbv zeta.
    destruct (fd_or_os_err errno (connect _ addr)); [|done..].
    destruct (from_std (fresh t)) as [peer|e|]; [|done..]. apply handshake_fds_erase.
Qed.

Lemma rpc_connect_fds_erase addr with_fd script t :
  (rpc_connect_fds addr with_fd script t).1.1 =
    rpc_connect_to_addr errno O_NONBLOCK getfl setfl async_fd dbg hash_iter parse_description
      is_empty_signature str_value str2_value geteuid (opened dup_ok (with_new t)) AF_UNIX
      unix_connect tcp_connect (opened socket_ok t) connect from_std addr with_fd script.
Proof.
  pose proof (connect_closes addr with_fd t) as Hc. pose proof (connect_fds_erase addr with_fd t) as He.
  unfold rpc_connect_fds, rpc_connect_to_addr, new_rpc. rewrite <- He. unfold one_or_none in Hc.
  destruct (connect_to_addr_fds _ _ _) as [[[conn|e|]|] t']; cbn [fst snd] in *;
    [|done..].
  destruct Hc as [_ ->]. unfold new_rpc_fds. by destruct (rpc_open _ _ _ _ _ conn).
Qed.
End sockets.

(** ** A process with three descriptors connects *)

Definition above (t : gset Z) : Z := foldr Z.max 2%Z (elements t) + 1.

Lemma above_new t : above t ∉ t.
Proof.
  rewrite <- elem_of_elements. unfold above. generalize (elements t). intros l Hl.
  assert (∀ x, x ∈ l → x ≤ foldr Z.max 2 l)%Z as Hmax.
  { clear Hl. induction l as [|y l IH]; intros x Hx; [by apply not_elem_of_nil in Hx|]. cbn.
    apply elem_of_cons in Hx as [->|Hx]; [|apply IH in Hx]; lia. }
  apply Hmax in Hl. lia.
Qed.

Definition std_fds : gset Z := {[0; 1; 2]}%Z.

(** Over the socket of the bus [b], with or without an [fcntl] that works. *)
Definition connecting (b : Peer) (getfl : Z) :=
  rpc_connect_fds (H:=text_marshal) above true 7 Other 1 (λ _, Ok b) (λ _, Err NotFound) true true
    (λ _ _, 0%Z) (λ _, Err Other) 2048 getfl (λ _, 0%Z) (λ _, Ok ()) map_to_list letters (λ _, false)
    one_text two_texts (Path (lit "/b")) false [alone; arrival named] std_fds.

(** A bus that accepts nothing. *)
Definition rude_bus : Peer := MkPeer [reply (lit "ERROR"); reply (lit "REJECTED")] [] [].

Example refused_closes :
  (connecting rude_bus 2).1.2 = None ∧ (connecting rude_bus 2).2 = Some std_fds ∧
  (connecting small_bus (-1)).1.2 = None ∧ (connecting small_bus (-1)).2 = Some std_fds.
Proof. by vm_compute. Qed.

Lemma sockets_closed_witness :
  (connecting small_bus 2).1.2 = Some 4%Z ∧
  gen_stream_drop 4 ({[4%Z]} ∪ std_fds) = Some std_fds.
Proof.
  assert ((connecting small_bus 2).1.2 = Some 4%Z) as H4 by (vm_compute; reflexivity).
  split; [exact H4|].
  pose proof (sockets_closed (H:=text_marshal) above true 7 Other 1 (λ _, Ok small_bus)
    (λ _, Err NotFound) true true (λ _ _, 0%Z) (λ _, Err Other) above_new 2048 2 (λ _, 0%Z) (λ _, Ok ())
    map_to_list letters (λ _, false) one_text two_texts (Path (lit "/b")) false [alone; arrival named]
    std_fds (connecting small_bus 2).1.1 (connecting small_bus 2).1.2 (connecting small_bus 2).2) as Hs.
  rewrite H4 in Hs. apply Hs. rewrite <- H4. change (rpc_connect_fds _ _ _ _ _ _ _ _ _ _ _ _ _ _ _ _ _ _ _ _ _ _ _ _)
    with (connecting small_bus 2). by destruct (connecting small_bus 2) as [[r fd] t'].
Defined.
