(* ===== verification/Progress.v ===== *)
(** * lib.rs: what is waited for is returned, whatever the others do

    Futures share the socket: whichever holds the lock reads, and sorts what is not its
    own.  Here: nothing is lost on the way.  Every step takes a first part of the results
    at hand, in order, and what it takes is in a queue, in a channel, or was returned.  So
    the answer of a call, and a message for the queue of a rule or of a path, comes nearer
    with each turn of the future that waits for it, however many others read, call, drop
    and give up meanwhile, and the future ends within as many turns as there were results
    in front. *)

From S2P Require Import Prelude Utils Body StdPath ObjPath Message Hierarchy Order MatchRule Rpc Client Queues.
From Stdlib Require Import Lia.

(** ** The stream *)

Definition ok_msg (r : io_result MarshalledMessage) : option MarshalledMessage :=
  match r with Ok msg => Some msg | _ => None end.

(** The messages among the results of [get_next_message]. *)
Definition msgs (l : list (io_result MarshalledMessage)) : list MarshalledMessage := omap ok_msg l.

Lemma elem_of_msgs msg l : msg ∈ msgs l ↔ Ok msg ∈ l.
Proof.
  unfold msgs. rewrite list_elem_of_omap. split.
  - by intros ([m|e|] & Hin & [= ->]).
  - intros Hin. by exists (Ok msg).
Qed.

Lemma msgs_app l1 l2 : msgs (l1 ++ l2) = msgs l1 ++ msgs l2.
Proof. apply omap_app. Qed.

(** What is in the queue [q]. *)
Definition queued (q : queue) (rd : RecvData) : list MarshalledMessage := default [] (chans rd !! q).

(** From [rd] to [rd'] the results [c] were taken, and [rest] is left. *)
Record took (c rest : list (io_result MarshalledMessage)) (rd rd' : RecvData) : Prop := {
  took_inbox : inbox rd' = rest;
  took_seen : seen rd' = seen rd ++ msgs c;
  took_queued q : ∃ l, queued q rd' = queued q rd ++ l ∧ ∀ msg, msg ∈ l → msg ∈ msgs c;
}.

Lemma took_same rd rd' :
  seen rd' = seen rd → chans rd' = chans rd → took [] (inbox rd') rd rd'.
Proof.
  intros Hs Hc. split; [done|by rewrite app_nil_r|]. intros q. exists [].
  unfold queued. by rewrite Hc, app_nil_r.
Qed.

Section stream.
Context `{BasicMarshal} (dbg : bool)
  (hash_iter : gmap bytes CallHierarchy → list (bytes * CallHierarchy)).

(** A call that [send] accepts goes to the queue that receives calls of its object. *)
Lemma send_queue h c msg c' :
  send dbg hash_iter h c msg = Ok c' →
  ∃ ws q, Forall element ws ∧ object (dynheader msg) = Some (mk_path ws) ∧ receives h ws q ∧
    c' = <[q := default [] (c !! q) ++ [msg]]> c.
Proof.
  intros Hs.
  assert (∃ ws, Forall element ws ∧ object (dynheader msg) = Some (mk_path ws)) as (ws & Hws & Hobj).
  { unfold send in Hs. destruct (object (dynheader msg)) as [obj|]; cbn in Hs; [|done].
    unfold from_str in Hs. destruct (validate_str obj) as [[]| |] eqn:Hv; try done.
    apply validate_str_iff in Hv as (ws & Hws & ->). by exists ws. }
  destruct (proj1 (send_delivers_aux dbg hash_iter h c msg ws Hws Hobj c') Hs) as (q & Hq & ->).
  by exists ws, q.
Qed.

(** A message is appended to a queue, or to none. *)
Lemma sort_msg_queued rd msg rd' q :
  sort_msg dbg hash_iter rd msg = Ok rd' →
  ∃ l, queued q rd' = queued q rd ++ l ∧ ∀ m, m ∈ l → m = msg.
Proof.
  assert (∀ rd' q', chans rd' = <[q' := default [] (chans rd !! q') ++ [msg]]> (chans rd) →
    ∃ l, queued q rd' = queued q rd ++ l ∧ ∀ m, m ∈ l → m = msg) as Hpush.
  { intros rd1 q' Hc. unfold queued. rewrite Hc. destruct (decide (q = q')) as [->|Hne].
    - exists [msg]. rewrite lookup_insert_eq. split; [done|]. by intros m Hm%list_elem_of_singleton.
    - exists []. rewrite lookup_insert_ne, app_nil_r by done. split; [done|]. by intros m Hm%not_elem_of_nil. }
  assert (∀ rd', chans rd' = chans rd →
    ∃ l, queued q rd' = queued q rd ++ l ∧ ∀ m, m ∈ l → m = msg) as Hsame.
  { intros rd1 Hc. exists []. unfold queued. rewrite Hc, app_nil_r. split; [done|].
    by intros m Hm%not_elem_of_nil. }
  unfold sort_msg. destruct (typ msg) eqn:Ht; [done| | | |].
  2, 3: destruct (response_serial _) as [idx|]; cbn; [|done];
    destruct (reply_map rd !! idx); intros [= <-]; by apply Hsame.
  - destruct (send _ _ _ _ _) as [c| |] eqn:Hs; cbn; [|done..]. intros [= <-].
    destruct (send_queue _ _ _ _ Hs) as (ws & q' & _ & _ & _ & ->).
    by apply (Hpush _ q').
  - destruct (queue_sig _ _ _) as [c| |] eqn:Hs; cbn; [|done..]. intros [= <-].
    clear Ht. induction (sig_matches rd) as [|r l IH]; cbn [queue_sig] in Hs; [injection Hs as <-; by apply Hsame|].
    destruct (matches r msg); [|by apply IH].
    destruct (r_queue r) as [q'|]; cbn in Hs; [|done]. injection Hs as <-. by apply (Hpush _ q').
Qed.

Lemma took_cons rd msg l rd1 c rest rd' :
  sort_msg dbg hash_iter (take_msg rd l msg) msg = Ok rd1 → took c rest rd1 rd' →
  took (Ok msg :: c) rest rd rd'.
Proof.
  intros Hs [Hi Hse Hq]. split; [done| |].
  - rewrite Hse, (sort_msg_seen dbg hash_iter _ _ _ Hs). cbn. by rewrite <- app_assoc.
  - intros q. destruct (Hq q) as (k & Hk & Hkin).
    destruct (sort_msg_queued _ _ _ q Hs) as (k1 & Hk1 & Hk1in). exists (k1 ++ k).
    rewrite Hk, Hk1, <- app_assoc. split; [done|]. intros m [Hm|Hm]%elem_of_app.
    + rewrite (Hk1in m Hm). cbn. by left.
    + cbn. right. by apply Hkin.
Qed.

(** A run of [queue_msg] takes a first part of the results, and at least one if there is
    any. *)
Lemma queue_msg_took l pred rd r rd' :
  queue_msg dbg hash_iter l pred rd = (r, rd') → r ≠ Panic →
  ∃ c rest, l = c ++ rest ∧ took c rest rd rd' ∧ (c = [] → l = []).
Proof.
  revert rd. induction l as [|[msg|e|] l IH]; intros rd; cbn [queue_msg].
  - intros [= <- <-] _. exists [], []. split_and!; [done| |done]. by apply (took_same rd (set_inbox rd [])).
  - assert (took [Ok msg] l rd (take_msg rd l msg)) as Htake.
    { split; [done..|]. intros q. exists []. rewrite app_nil_r. split; [done|].
      by intros m Hm%not_elem_of_nil. }
    destruct (pred msg _) as [[|]|e|].
    + intros [= <- <-] _. by exists [Ok msg], l.
    + destruct (sort_msg _ _ _ msg) as [rd1|reply|] eqn:Hs.
      * intros Hq Hr. destruct (IH rd1 Hq Hr) as (c & rest & -> & Ht & _).
        exists (Ok msg :: c), rest. split_and!; [done| |done]. by eapply took_cons.
      * intros [= <- <-] _. by exists [Ok msg], l.
      * by intros [= <- <-].
    + intros [= <- <-] _. by exists [Ok msg], l.
    + by intros [= <- <-].
  - intros [= <- <-] _. exists [Err e], l. split_and!; [done| |done].
    by destruct (took_same rd (set_inbox rd l)).
  - by intros [= <- <-].
Qed.

Lemma get_msg_step_took s pred r s' :
  get_msg_step dbg hash_iter s pred = Some (r, s') →
  ∃ c rest, inbox (recv_data s) = c ++ rest ∧ took c rest (recv_data s) (recv_data s') ∧
    (c = [] → inbox (recv_data s) = []).
Proof.
  unfold get_msg_step. destruct (queue_msg _ _ _ _ _) as [q rd] eqn:Hq. intros Hs.
  destruct (queue_msg_took _ _ _ _ _ Hq) as (c & rest & Hi & Ht & Hne); [by intros ->|].
  exists c, rest. split_and!; [done| |done]. clear Hq.
  destruct q as [[msg [|]]|er|]; [| |destruct er|done]; try (injection Hs as <- <-; done).
  destruct (send_msg_wo_rsp _ msg) as [s1|] eqn:Hw; [|done]. injection Hs as <- <-.
  unfold send_msg_wo_rsp in Hw. destruct (expects_reply msg); [done|].
  destruct (allocate_idx _) as [[? ?]|]; [|done]. by injection Hw as <-.
Qed.

Lemma took_calls c rest rd rd1 rd' :
  took c rest rd rd1 → inbox rd' = inbox rd1 → seen rd' = seen rd1 → chans rd' = chans rd1 →
  took c rest rd rd'.
Proof.
  intros [Hi Hs Hq] Hi' Hs' Hc'. split; [congruence..|]. intros q. unfold queued in *. rewrite Hc'.
  apply Hq.
Qed.

Lemma poll_future_took s ch r s' :
  poll_future dbg hash_iter s ch = Some (r, s') →
  ∃ c rest, inbox (recv_data s) = c ++ rest ∧ took c rest (recv_data s) (recv_data s') ∧
    (r = None → c = [] → inbox (recv_data s) = []).
Proof.
  unfold poll_future. destruct (waiting s !! ch) as [[idx birth]|]; cbn; [|done].
  destruct (oneshots (recv_data s) !! ch).
  { intros [= <- <-]. exists [], (inbox (recv_data s)). split_and!; [done| |done].
    apply (took_same (recv_data s) (set_reply_map (recv_data s) _)); done. }
  destruct (decide _); [|done]. destruct (get_msg_step _ _ s _) as [[r1 s1]|] eqn:Hg; [|done].
  apply get_msg_step_took in Hg as (c & rest & Hi & Ht & Hne). cbn.
  intros Hr. exists c, rest. split_and!; [done| |by auto].
  destruct r1 as [[msg|er|]|]; injection Hr as <- <-; by eapply took_calls.
Qed.

(** ** Steps of the others *)

(** What comes in with a step. *)
Definition incomings (a : action) : list (io_result MarshalledMessage) :=
  match a with AArrive r => [r] | _ => [] end.

(** From [rd] to [rd'], while [arr] came in, the results [c] were taken; nothing was taken
    from the queues [Q]. *)
Record flows (c arr : list (io_result MarshalledMessage)) (Q : queue → Prop) (rd rd' : RecvData)
    : Prop := {
  flows_inbox : inbox rd ++ arr = c ++ inbox rd';
  flows_seen : seen rd' = seen rd ++ msgs c;
  flows_queued q : Q q → ∃ l, queued q rd' = queued q rd ++ l ∧ ∀ msg, msg ∈ l → msg ∈ msgs c;
}.

Lemma flows_trans c1 c2 arr1 arr2 Q rd1 rd2 rd3 :
  flows c1 arr1 Q rd1 rd2 → flows c2 arr2 Q rd2 rd3 → flows (c1 ++ c2) (arr1 ++ arr2) Q rd1 rd3.
Proof.
  intros [Hi1 Hs1 Hq1] [Hi2 Hs2 Hq2]. split.
  - by rewrite !(assoc_L (++)), Hi1, <- !(assoc_L (++)), Hi2.
  - by rewrite Hs2, Hs1, msgs_app, (assoc_L (++)).
  - intros q Hq. destruct (Hq1 q Hq) as (l1 & E1 & H1), (Hq2 q Hq) as (l2 & E2 & H2).
    exists (l1 ++ l2). rewrite E2, E1, (assoc_L (++)). split; [done|]. rewrite msgs_app.
    intros m [Hm|Hm]%elem_of_app; apply elem_of_app; auto.
Qed.

Lemma flows_same arr (Q : queue → Prop) rd rd' :
  inbox rd' = inbox rd ++ arr → seen rd' = seen rd → (∀ q, Q q → queued q rd' = queued q rd) →
  flows [] arr Q rd rd'.
Proof.
  intros Hi Hs Hq. split; [by rewrite Hi|by rewrite app_nil_r|]. intros q HQ. exists [].
  rewrite Hq, app_nil_r by done. split; [done|]. by intros m Hm%not_elem_of_nil.
Qed.

Lemma took_flows c rest Q rd rd' : inbox rd = c ++ rest → took c rest rd rd' → flows c [] Q rd rd'.
Proof. intros Hi [Hr Hs Hq]. split; [by rewrite app_nil_r, Hr|done|by intros q _]. Qed.

Lemma edit_flows {A} s (m : io_result A) set s' Q :
  edit_with s m set = Some s' →
  (∀ rd a, inbox (set rd a) = inbox rd ∧ seen (set rd a) = seen rd ∧ chans (set rd a) = chans rd) →
  flows [] [] Q (recv_data s) (recv_data s').
Proof.
  intros He Hset. assert (∀ rd, flows [] [] Q rd rd) as Hrefl
    by (intros rd; apply flows_same; [by rewrite app_nil_r|done..]).
  destruct m as [a|er|]; cbn in He; [|by injection He as <-|done]. injection He as <-.
  destruct (Hset (recv_data s) a) as (Hi & Hs & Hc). apply flows_same; [by rewrite app_nil_r|done|].
  intros q _. unfold queued. cbn. by rewrite Hc.
Qed.

Lemma step_flows s a s' :
  Rpc.step dbg hash_iter s a = Some s' →
  ∃ c, flows c (incomings a) (λ q, a ≠ ATake q) (recv_data s) (recv_data s').
Proof.
  intros Hs.
  assert (∀ pred, snd <$> get_msg_step dbg hash_iter s pred = Some s' →
    ∃ c, flows c [] (λ q, a ≠ ATake q) (recv_data s) (recv_data s')) as Hget.
  { intros pred Hg. destruct (get_msg_step _ _ s pred) as [[r s1]|] eqn:Hm; [|done].
    injection Hg as <-. apply get_msg_step_took in Hm as (c & rest & Hi & Ht & _).
    exists c. by apply (took_flows c rest). }
  destruct a as [msg sent|msg|r|ch|ch|q|r|path|r q|r|r|path act q]; cbn [Rpc.step incomings] in Hs |- *.
  - exists []. unfold send_msg_w_rsp in Hs. destruct (expects_reply msg); [|done].
    destruct (allocate_idx _) as [[? ?]|]; [|done]. injection Hs as <-.
    apply flows_same; [by rewrite app_nil_r|done..].
  - exists []. unfold send_msg_wo_rsp in Hs. destruct (expects_reply msg); [done|].
    destruct (allocate_idx _) as [[? ?]|]; [|done]. injection Hs as <-.
    apply flows_same; [by rewrite app_nil_r|done..].
  - exists []. injection Hs as <-. by apply flows_same.
  - unfold poll_response in Hs. destruct (poll_future _ _ s ch) as [[r s1]|] eqn:Hp; [|done].
    injection Hs as <-. apply poll_future_took in Hp as (c & rest & Hi & Ht & _).
    exists c. by apply (took_flows c rest).
  - exists []. destruct (waiting s !! ch) as [[idx b]|]; cbn in Hs; [|done]. injection Hs as <-.
    apply flows_same; [by rewrite app_nil_r|done..].
  - exists []. injection Hs as <-. unfold take_queued.
    destruct (chans (recv_data s) !! q) as [[|msg l]|]; (apply flows_same; [by rewrite app_nil_r|done|]); try done.
    intros q' Hq'. unfold queued. cbn. rewrite lookup_insert_ne; [done|congruence].
  - by apply Hget in Hs.
  - by apply Hget in Hs.
  - exists []. by eapply edit_flows.
  - exists []. by eapply edit_flows.
  - exists []. by eapply edit_flows.
  - exists []. by eapply edit_flows.
Qed.

Lemma flows_weaken c arr (Q Q' : queue → Prop) rd rd' :
  flows c arr Q rd rd' → (∀ q, Q' q → Q q) → flows c arr Q' rd rd'.
Proof. intros [Hi Hs Hq] HQ. split; [done..|]. intros q Hq'. by apply Hq, HQ. Qed.

(** What comes in with several steps. *)
Definition incoming_all (l : list action) : list (io_result MarshalledMessage) := mjoin (incomings <$> l).

Lemma run_flows s l s' :
  Rpc.run dbg hash_iter s l = Some s' →
  ∃ c, flows c (incoming_all l) (λ q, ATake q ∉ l) (recv_data s) (recv_data s').
Proof.
  revert s. induction l as [|a l IH]; intros s; cbn [Rpc.run].
  - intros [= <-]. exists []. apply flows_same; [by rewrite app_nil_r|done..].
  - destruct (Rpc.step _ _ s a) as [s1|] eqn:Hs; [|done]. cbn [mbind option_bind]. intros Hr.
    apply step_flows in Hs as (c1 & H1). apply IH in Hr as (c2 & H2). exists (c1 ++ c2).
    apply (flows_trans c1 c2 (incomings a) (incoming_all l) _ _ (recv_data s1));
      (eapply flows_weaken; [done|]); intros q Hq; [intros ->|intros Hin]; apply Hq; set_solver.
Qed.
End stream.

(** ** Calls *)

(** An answer to the call of serial [idx] was taken since, or is among the next [d]
    results. *)
Definition due (idx : N) (birth d : nat) (s : RpcConn) : Prop :=
  ∃ msg, is_answer idx msg ∧
    (msg ∈ drop birth (seen (recv_data s)) ∨ ∃ j, j < d ∧ inbox (recv_data s) !! j = Some (Ok msg)).

(** The call was finished with [msg], the first answer to its serial. *)
Definition served (idx : N) (birth : nat) (msg : MarshalledMessage) (s : RpcConn) : Prop :=
  ∃ upto, first_answer idx (drop birth (take upto (seen (recv_data s)))) = Some msg.

Lemma first_answer_some idx l msg : msg ∈ l → is_answer idx msg → is_Some (first_answer idx l).
Proof.
  intros Hin Ha. induction l as [|m l IH]; [by apply not_elem_of_nil in Hin|].
  cbn. destruct (decide _) as [|Hm]; [by eexists|]. apply IH.
  by apply elem_of_cons in Hin as [->|?].
Qed.

(** A message that flows by is taken, or stands further in front. *)
Lemma flows_lookup_later c arr later Q rd rd' j msg :
  flows c arr Q rd rd' → (inbox rd ++ arr ++ later) !! j = Some (Ok msg) →
  msg ∈ msgs c ∨ (length c ≤ j ∧ (inbox rd' ++ later) !! (j - length c) = Some (Ok msg)).
Proof.
  intros [Hi _ _] Hj. rewrite (assoc_L (++)), Hi, <- (assoc_L (++)) in Hj.
  apply lookup_app_Some in Hj as [Hj|[Hle Hj]]; [left|by right].
  apply elem_of_msgs. by apply list_elem_of_lookup_2 in Hj.
Qed.

Lemma flows_lookup c arr Q rd rd' j msg :
  flows c arr Q rd rd' → inbox rd !! j = Some (Ok msg) →
  msg ∈ msgs c ∨ (length c ≤ j ∧ inbox rd' !! (j - length c) = Some (Ok msg)).
Proof.
  intros Hf Hj. apply (lookup_app_l_Some _ (arr ++ [])) in Hj.
  apply (flows_lookup_later _ _ _ _ _ _ _ _ Hf) in Hj. by rewrite (app_nil_r (inbox rd')) in Hj.
Qed.

Section calls.
Context `{BasicMarshal} (dbg : bool)
  (hash_iter : gmap bytes CallHierarchy → list (bytes * CallHierarchy)).


(** The other tasks keep it due. *)
Lemma due_flows c arr Q idx birth d s s' :
  flows c arr Q (recv_data s) (recv_data s') → birth ≤ length (seen (recv_data s)) →
  due idx birth d s → due idx birth (d - length c) s'.
Proof.
  intros Hc Hb (msg & Ha & Hin). exists msg. split; [done|].
  rewrite (flows_seen _ _ _ _ _ Hc), drop_app, elem_of_app.
  destruct Hin as [Hin|(j & Hj & Hin)]; [by left; left|].
  destruct (flows_lookup _ _ _ _ _ _ _ Hc Hin) as [Hm|[Hle Hj']].
  - left. right. by replace (birth - length (seen (recv_data s))) with 0 by lia.
  - right. eexists. split; [|done]. lia.
Qed.

Lemma due_mono idx birth d d' s : d ≤ d' → due idx birth d s → due idx birth d' s.
Proof.
  intros Hd (msg & Ha & [Hin|(j & Hj & Hin)]); exists msg; (split; [done|]); [by left|].
  right. exists j. split; [lia|done].
Qed.

(** An error a future returns came from the socket or from its predicate. *)
Lemma queue_msg_err l pred rd er rd' :
  queue_msg dbg hash_iter l pred rd = (Err er, rd') →
  er = WouldBlock ∨ Err er ∈ l ∨ ∃ msg h, pred msg h = Err er.
Proof.
  revert rd. induction l as [|[msg|e0|] l IH]; intros rd; cbn [queue_msg]; [intros [= <- _]; by left| | |done].
  - destruct (pred msg _) as [[|]|e0|] eqn:Hp; [done| | |done].
    + destruct (sort_msg _ _ _ msg); [|done..]. intros Hq.
      destruct (IH _ Hq) as [?|[?|?]]; [by left|right; left; by right|by right; right].
    + intros [= <- _]. right. right. by eexists _, _.
  - intros [= <- _]. right. left. by left.
Qed.

Lemma get_msg_step_err s pred er s' :
  get_msg_step dbg hash_iter s pred = Some (Some (Err er), s') →
  Err er ∈ inbox (recv_data s) ∨ ∃ msg h, pred msg h = Err er.
Proof.
  unfold get_msg_step. destruct (queue_msg _ _ _ _ _) as [[[msg [|]]|e0|] rd] eqn:Hq; [| | |done].
  - by destruct (send_msg_wo_rsp _ msg).
  - done.
  - intros Hs. assert (e0 = er ∧ e0 ≠ WouldBlock) as [-> Hw] by (destruct e0; by simplify_eq).
    by destruct (queue_msg_err _ _ _ _ _ Hq) as [?|?].
Qed.

Lemma res_pred_no_err idx msg h er : res_pred idx msg h ≠ Err er.
Proof. unfold res_pred. destruct (typ msg); try done; by destruct (response_serial _). Qed.

(** A poll of the future: the answer, the failure of the socket, or the call is nearer. *)
Lemma poll_serves n s ch idx birth r s' :
  conn_ok n s → waiting s !! ch = Some (idx, birth) →
  poll_future dbg hash_iter s ch = Some (r, s') →
  match r with
  | Some (Ok msg) => served idx birth msg s'
  | Some (Err er) => Err er ∈ inbox (recv_data s)
  | Some Panic => False
  | None => waiting s' !! ch = Some (idx, birth) ∧
      ∀ d, due idx birth d s → ∃ d', d = S d' ∧ due idx birth d' s'
  end.
Proof.
  intros Hok Hw Hp.
  destruct (poll_future_ok dbg hash_iter n s ch r s' Hok Hp)
    as (m & idx' & birth' & _ & _ & Hok' & Hw' & Hr).
  rewrite Hw in Hw'. injection Hw' as <- <-.
  pose proof (poll_future_took dbg hash_iter s ch r s' Hp) as (c & rest & Hi & Ht & Hne).
  destruct (call_state _ _ _ (ok_calls _ _ Hok) _ _ _ Hw) as (Hb & Ho & _).
  destruct r as [[m0|er|]|]; [| |done|].
  - destruct Hr as (_ & upto & Hf). exists upto.
    pose proof (ok_finished _ _ Hok') as Hfin. rewrite Hf in Hfin.
    by apply Forall_cons in Hfin as [[_ ?] _].
  - unfold poll_future in Hp. rewrite Hw in Hp. cbn in Hp.
    destruct (oneshots _ !! ch); [done|]. destruct (decide _); [|done].
    destruct (get_msg_step _ _ s _) as [[r1 s1]|] eqn:Hg; [|done].
    destruct r1 as [[m0|e0|]|]; cbn in Hp; [done| |done..]. injection Hp as -> _.
    destruct (get_msg_step_err _ _ _ _ Hg) as [?|(m0 & h & He)]; [done|].
    by apply res_pred_no_err in He.
  - destruct Hr as [_ Hws]. rewrite Hws. split; [done|]. intros d Hd.
    pose proof (took_flows c rest (λ _, True) _ _ Hi Ht) as Hc.
    pose proof (due_flows _ _ _ _ _ _ _ _ Hc Hb Hd) as Hd'.
    destruct Hd as (msg & Ha & [Hin|(j & Hj & Hin)]).
    { destruct (first_answer_some idx _ msg Hin Ha) as [m0 Hm0]. rewrite Hm0 in Ho.
      unfold poll_future in Hp. rewrite Hw in Hp. cbn in Hp. by rewrite Ho in Hp. }
    destruct d as [|d]; [lia|]. exists d. split; [done|]. apply (due_mono _ _ _ d _) in Hd'; [done|].
    destruct c; [rewrite Hne in Hin by done; done|cbn; lia].
Qed.

(** ** Turns *)

(** What comes in during a script. *)
Definition arrivals (script : list turn) : list (io_result MarshalledMessage) :=
  script ≫= λ w, incoming_all (others w).

(** No call of [get_next_message] fails. *)
Definition no_failure (l : list (io_result MarshalledMessage)) : Prop := Forall (λ r, is_Some (ok_msg r)) l.

Lemma no_failure_err l er : no_failure l → Err er ∉ l.
Proof. unfold no_failure. rewrite Forall_forall. intros Hl Hin. by destruct (Hl _ Hin). Qed.

Lemma no_failure_flows c arr Q rd rd' :
  flows c arr Q rd rd' → no_failure (inbox rd ++ arr) → no_failure (inbox rd').
Proof. intros [-> _ _] [_ ?]%Forall_app. done. Qed.

(** One turn of a future that waits for an answer. *)
Lemma waiting_turn {A} (k : MarshalledMessage → prog A) n s w ch idx birth t' s' :
  conn_ok n s → (N.of_nat (n + S (length (others w))) < u32_mod)%N → io w = Ok () →
  no_failure (inbox (recv_data s) ++ incoming_all (others w)) →
  waiting s !! ch = Some (idx, birth) →
  client_step dbg hash_iter (Waiting ch k) w s = Some (t', s') →
  (∃ c, flows c (incoming_all (others w)) (λ _, False) (recv_data s) (recv_data s')) ∧
  ((∃ msg, t' = Running (k msg) ∧ served idx birth msg s') ∨
   (t' = Waiting ch k ∧ waiting s' !! ch = Some (idx, birth) ∧
    (∃ m, m ≤ n + S (length (others w)) ∧ conn_ok m s') ∧
    ∀ d, due idx birth d s → ∃ d', d = S d' ∧ due idx birth d' s')).
Proof.
  intros Hok Hn Hio Hcalm Hw. unfold client_step.
  destruct (Rpc.run _ _ s (others w)) as [s1|] eqn:Hrun; [|done]. cbn [mbind option_bind].
  destruct (existsb _ _) eqn:Ht; [done|]. rewrite Hio.
  destruct (run_ok dbg hash_iter n s (others w) s1 Hok ltac:(lia) Hrun) as (m & Hm & Hok1).
  pose proof (run_waiting dbg hash_iter n s (others w) s1 ch _ Hok ltac:(lia) Hrun Ht Hw) as Hw1.
  destruct (run_flows dbg hash_iter s _ s1 Hrun) as (c1 & Hc1).
  destruct (poll_future _ _ s1 ch) as [[r s2]|] eqn:Hp; [|done]. intros [= <- <-].
  pose proof (poll_serves m s1 ch idx birth r s2 Hok1 Hw1 Hp) as Hr.
  destruct (poll_future_took dbg hash_iter s1 ch r s2 Hp) as (c2 & rest & Hi2 & Ht2 & _).
  split.
  { exists (c1 ++ c2). rewrite <- (app_nil_r (incoming_all _)).
    apply (flows_trans _ _ _ _ _ _ (recv_data s1)); [by eapply flows_weaken|by eapply took_flows]. }
  pose proof (poll_future_ok dbg hash_iter m s1 ch r s2 Hok1 Hp) as (m2 & _ & _ & Hm2 & _ & Hok2 & _).
  destruct r as [[msg|er|]|]; [| |done|].
  - left. by exists msg.
  - exfalso. eapply no_failure_err; [|exact Hr]. by eapply no_failure_flows.
  - right. destruct Hr as [Hw2 Hd]. split_and!; [done|done|exists m2; split; [lia|done]|].
    intros d Hdue. apply Hd. eapply due_mono; [|eapply due_flows; [exact Hc1| |exact Hdue]]; [lia|].
    apply (call_state _ _ _ (ok_calls _ _ Hok) _ _ _ Hw).
Qed.

(** The future was resumed with [msg] in the course of the script. *)
Definition resumed {A} (t : task A) (script : list turn) (s : RpcConn) (k : MarshalledMessage → prog A)
    (msg : MarshalledMessage) (s' : RpcConn) : Prop :=
  ∃ pre post, script = pre ++ post ∧ exec dbg hash_iter t pre s = Some (Running (k msg), s').

Lemma resumed_app {A} (t t1 : task A) l1 l2 s s1 k msg s' :
  exec dbg hash_iter t l1 s = Some (t1, s1) → resumed t1 l2 s1 k msg s' →
  resumed t (l1 ++ l2) s k msg s'.
Proof.
  intros H1 (pre & post & -> & H2). exists (l1 ++ pre), post. split; [by rewrite (assoc_L (++))|].
  rewrite exec_app, H1. cbn [mbind option_bind]. done.
Qed.

Lemma resumed_cons {A} (t t1 : task A) w l s s1 k msg s' :
  client_step dbg hash_iter t w s = Some (t1, s1) → resumed t1 l s1 k msg s' →
  resumed t (w :: l) s k msg s'.
Proof.
  intros Hstep (pre & post & -> & Hr). exists (w :: pre), post. split; [done|].
  cbn [exec]. rewrite Hstep. cbn [mbind option_bind]. done.
Qed.

Lemma resumed_now {A} (t : task A) w l s k msg s' :
  client_step dbg hash_iter t w s = Some (Running (k msg), s') → resumed t (w :: l) s k msg s'.
Proof. intros Hstep. exists [w], l. split; [done|]. cbn [exec]. by rewrite Hstep. Qed.

Lemma resumed_more {A} (t : task A) l1 l2 s k msg s' :
  resumed t l1 s k msg s' → resumed t (l1 ++ l2) s k msg s'.
Proof. intros (pre & post & -> & Hr). exists pre, (post ++ l2). by rewrite <- (assoc_L (++)). Qed.

Lemma waiting_exec {A} (k : MarshalledMessage → prog A) script n s ch idx birth t' s' :
  conn_ok n s → (N.of_nat (n + work script) < u32_mod)%N → Forall (λ w, io w = Ok ()) script →
  no_failure (inbox (recv_data s) ++ arrivals script) → waiting s !! ch = Some (idx, birth) →
  exec dbg hash_iter (Waiting ch k) script s = Some (t', s') →
  (∃ pre post msg s1 c, script = pre ++ post ∧
     exec dbg hash_iter (Waiting ch k) pre s = Some (Running (k msg), s1) ∧ served idx birth msg s1 ∧
     flows c (arrivals pre) (λ _, False) (recv_data s) (recv_data s1)) ∨
  (t' = Waiting ch k ∧ waiting s' !! ch = Some (idx, birth) ∧
   (∃ m, m ≤ n + work script ∧ conn_ok m s') ∧
   (∃ c, flows c (arrivals script) (λ _, False) (recv_data s) (recv_data s')) ∧
   ∀ d, due idx birth d s → ∃ d', d = length script + d' ∧ due idx birth d' s').
Proof.
  intros Hok Hn Hio Hcalm Hw. revert n s Hok Hn Hcalm Hw. unfold work.
  induction Hio as [|w script Hw0 _ IH]; intros n s Hok Hn Hcalm Hw; cbn [exec sum_list_with] in *.
  { intros [= <- <-]. right. split_and!; [done|done|exists n; split; [lia|done]| |by eauto].
    exists []. apply flows_same; [by rewrite app_nil_r|done..]. }
  destruct (client_step _ _ _ w s) as [[t1 s1]|] eqn:Hstep; [|done]. cbn [mbind option_bind].
  unfold arrivals in Hcalm. cbn [mbind list_bind] in Hcalm. rewrite (assoc_L (++)) in Hcalm.
  destruct (waiting_turn k n s w ch idx birth t1 s1) as [(c1 & Hc1) Hr]; [done|lia|done| |done|done|].
  { by apply Forall_app in Hcalm as [? _]. }
  destruct Hr as [(msg & -> & Hs)|(-> & Hw1 & (m & Hm & Hok1) & Hd)]; intros He.
  - left. exists [w], script, msg, s1, c1. split_and!; [done| |done|].
    + cbn [exec]. by rewrite Hstep.
    + cbn. by rewrite app_nil_r.
  - destruct (IH m s1 Hok1) as [(pre & post & msg & s2 & c2 & -> & Hpre & Hs & Hc2)|
      (-> & Hw2 & (m2 & Hm2 & Hok2) & (c2 & Hc2) & Hd2)]; [lia| |done|done| |].
    { rewrite (flows_inbox _ _ _ _ _ Hc1), <- (assoc_L (++)) in Hcalm.
      by apply Forall_app in Hcalm as [_ ?]. }
    + left. exists (w :: pre), post, msg, s2, (c1 ++ c2). split_and!; [done| |done|].
      * cbn [exec]. by rewrite Hstep.
      * by apply (flows_trans _ _ _ _ _ _ (recv_data s1)).
    + right. split_and!; [done|done|exists m2; split; [lia|done]| |].
      * exists (c1 ++ c2). by apply (flows_trans _ _ _ _ _ _ (recv_data s1)).
      * intros d (d1 & -> & H1)%Hd. apply Hd2 in H1 as (d2 & -> & H2). by exists d2.
Qed.

Lemma first_answer_app idx l1 l2 msg :
  first_answer idx l1 = Some msg → first_answer idx (l1 ++ l2) = Some msg.
Proof. induction l1 as [|m l1 IH]; cbn; [done|]. by destruct (decide _). Qed.

Lemma first_answer_elem idx l msg : first_answer idx l = Some msg → msg ∈ l.
Proof.
  induction l as [|m l IH]; cbn; [done|]. destruct (decide _); [intros [= ->]; by left|].
  intros Hm. right. by apply IH.
Qed.

(** What was served is the first answer in the stream since the call. *)
Lemma served_first idx c arr Q msg s s' :
  flows c arr Q (recv_data s) (recv_data s') →
  served idx (length (seen (recv_data s))) msg s' →
  first_answer idx (msgs (inbox (recv_data s) ++ arr)) = Some msg.
Proof.
  intros Hc (upto & Hf). rewrite (flows_seen _ _ _ _ _ Hc) in Hf.
  rewrite (flows_inbox _ _ _ _ _ Hc), msgs_app. apply first_answer_app.
  rewrite take_app, drop_app in Hf.
  destruct (decide (upto ≤ length (seen (recv_data s)))) as [Hle|Hlt].
  { rewrite drop_ge in Hf by (rewrite length_take; lia).
    replace (upto - length (seen (recv_data s))) with 0 in Hf by lia.
    cbn in Hf. by destruct (_ - _) in Hf. }
  rewrite take_ge, drop_all in Hf by lia. replace (_ - _) with 0 in Hf by lia. cbn in Hf.
  rewrite <- (take_drop (upto - length (seen (recv_data s))) (msgs c)). by apply first_answer_app.
Qed.

(** The turn that sends a call. *)
Lemma call_turn {A} (k : MarshalledMessage → prog A) call w n s s1 t' s' :
  conn_ok n s → (N.of_nat (n + S (length (others w))) < u32_mod)%N → io w = Ok () →
  expects_reply call = true → Rpc.run dbg hash_iter s (others w) = Some s1 →
  client_step dbg hash_iter (Running (Call call k)) w s = Some (t', s') →
  t' = Waiting (next_channel s1) k ∧
  waiting s' !! next_channel s1 = Some (next_idx (serial s1), length (seen (recv_data s1))) ∧
  (∃ m, m ≤ n + S (length (others w)) ∧ conn_ok m s') ∧
  inbox (recv_data s') = inbox (recv_data s1) ∧ seen (recv_data s') = seen (recv_data s1).
Proof.
  intros Hok Hn Hio Hexp Hrun. unfold client_step. rewrite Hrun. cbn [mbind option_bind]. rewrite Hio.
  destruct (run_ok dbg hash_iter n s (others w) s1 Hok ltac:(lia) Hrun) as (m & Hm & Hok1).
  destruct (send_msg_w_rsp s1 call true) as [s2|] eqn:Hs; [|done]. cbn [mbind option_bind]. intros [= <- <-].
  destruct (step_ok dbg hash_iter m s1 (ACall call true) s2 Hok1 ltac:(unfold u32_mod in *; lia) Hs)
    as (m2 & Hm2 & Hok2).
  unfold send_msg_w_rsp in Hs. rewrite Hexp in Hs.
  destruct (ok_counter _ _ Hok1) as [Hser _]. destruct (allocate_idx_spec _ Hser) as [Hal _].
  rewrite Hal in Hs. injection Hs as <-. split_and!; [done| |exists m2; split; [lia|done]|done..].
  cbn. by rewrite lookup_insert_eq.
Qed.

Lemma arrivals_app l1 l2 : arrivals (l1 ++ l2) = arrivals l1 ++ arrivals l2.
Proof. apply bind_app. Qed.

Lemma work_app l1 l2 : work (l1 ++ l2) = work l1 + work l2.
Proof. apply sum_list_with_app. Qed.

(** The future that waits from [s] on gets the first answer in the stream, if that comes
    in the turns [ws1] and there are as many turns after them as results. *)
Lemma waiting_completes {A} (k : MarshalledMessage → prog A) ws1 ws2 n s ch idx ans t' s' :
  conn_ok n s → (N.of_nat (n + work (ws1 ++ ws2)) < u32_mod)%N →
  Forall (λ w, io w = Ok ()) (ws1 ++ ws2) →
  no_failure (inbox (recv_data s) ++ arrivals (ws1 ++ ws2)) →
  waiting s !! ch = Some (idx, length (seen (recv_data s))) →
  exec dbg hash_iter (Waiting ch k) (ws1 ++ ws2) s = Some (t', s') →
  first_answer idx (msgs (inbox (recv_data s) ++ arrivals ws1)) = Some ans →
  length (inbox (recv_data s) ++ arrivals ws1) < length ws2 →
  ∃ s2, resumed (Waiting ch k) (ws1 ++ ws2) s k ans s2.
Proof.
  intros Hok Hn Hio Hcalm Hw He Hans Hlen.
  rewrite exec_app in He. destruct (exec _ _ _ ws1 s) as [[t1 s1]|] eqn:He1; [|done].
  cbn [mbind option_bind] in He. apply Forall_app in Hio as [Hio1 Hio2].
  rewrite arrivals_app, (assoc_L (++)) in Hcalm. apply Forall_app in Hcalm as [Hcalm1 Hcalm2].
  rewrite work_app in Hn.
  destruct (waiting_exec k ws1 n s ch idx _ t1 s1 Hok ltac:(lia) Hio1 Hcalm1 Hw He1)
    as [(pre & post & msg & s2 & c & -> & Hpre & Hs & Hc)|(-> & Hw1 & (m & Hm & Hok1) & (c & Hc) & _)].
  { exists s2, pre, (post ++ ws2). split; [by rewrite (assoc_L (++))|].
    apply (served_first _ _ _ _ _ _ _ Hc) in Hs.
    rewrite arrivals_app, (assoc_L (++)), msgs_app, (first_answer_app _ _ _ _ Hs) in Hans.
    by injection Hans as <-. }
  assert (no_failure (inbox (recv_data s1) ++ arrivals ws2)) as Hcalm3.
  { apply Forall_app. split; [by eapply no_failure_flows|done]. }
  destruct (waiting_exec k ws2 m s1 ch idx _ t' s' Hok1 ltac:(lia) Hio2 Hcalm3 Hw1 He)
    as [(pre & post & msg & s2 & c2 & -> & Hpre & Hs & Hc2)|(_ & _ & _ & _ & Hd)].
  - exists s2, (ws1 ++ pre), post. split; [by rewrite (assoc_L (++))|].
    rewrite exec_app, He1. cbn [mbind option_bind].
    pose proof (flows_trans _ _ _ _ _ _ _ _ Hc Hc2) as Hc3.
    apply (served_first _ _ _ _ _ _ _ Hc3) in Hs.
    rewrite (assoc_L (++)), msgs_app, (first_answer_app _ _ _ _ Hans) in Hs. by injection Hs as <-.
  - exfalso. destruct (Hd (length (inbox (recv_data s1)))) as (d & Hd1 & _).
    + exists ans. pose proof (first_answer_is _ _ _ Hans) as Ha. split; [done|].
      apply first_answer_elem in Hans. rewrite (flows_inbox _ _ _ _ _ Hc), msgs_app in Hans.
      apply elem_of_app in Hans as [Hin|Hin].
      * left. by rewrite (flows_seen _ _ _ _ _ Hc), drop_app_length.
      * right. apply elem_of_msgs, list_elem_of_lookup in Hin as [j Hj]. exists j.
        split; [|done]. by eapply lookup_lt_Some.
    + pose proof (f_equal length (flows_inbox _ _ _ _ _ Hc)) as Hl. rewrite !length_app in *. lia.
Qed.

Lemma call_completes_aux {A} (k : MarshalledMessage → prog A) call w0 ws1 ws2 n s s1 ans t' s' :
  conn_ok n s → (N.of_nat (n + work (w0 :: ws1 ++ ws2)) < u32_mod)%N →
  expects_reply call = true → Forall (λ w, io w = Ok ()) (w0 :: ws1 ++ ws2) →
  Rpc.run dbg hash_iter s (others w0) = Some s1 →
  no_failure (inbox (recv_data s1) ++ arrivals (ws1 ++ ws2)) →
  exec dbg hash_iter (Running (Call call k)) (w0 :: ws1 ++ ws2) s = Some (t', s') →
  first_answer (next_idx (serial s1)) (msgs (inbox (recv_data s1) ++ arrivals ws1)) = Some ans →
  length (inbox (recv_data s1) ++ arrivals ws1) < length ws2 →
  ∃ s2, resumed (Running (Call call k)) (w0 :: ws1 ++ ws2) s k ans s2.
Proof.
  intros Hok Hn Hexp Hio Hrun Hcalm He Hans Hlen.
  assert (work (w0 :: ws1 ++ ws2) = S (length (others w0)) + work (ws1 ++ ws2)) as Hwork by done.
  apply Forall_cons in Hio as [Hio0 Hio]. cbn [exec] in He.
  destruct (client_step _ _ _ w0 s) as [[t1 s2]|] eqn:Hstep; [|done]. cbn [mbind option_bind] in He.
  destruct (call_turn k call w0 n s s1 t1 s2 Hok ltac:(lia) Hio0 Hexp Hrun Hstep)
    as (-> & Hw & (m & Hm & Hok2) & Hi & Hse).
  rewrite <- Hi, <- Hse in *.
  destruct (waiting_completes k ws1 ws2 m s2 _ _ ans t' s' Hok2 ltac:(lia) Hio Hcalm Hw He Hans Hlen)
    as (s3 & Hr).
  exists s3. by eapply resumed_cons.
Qed.

(** C7: a call is answered whatever else is going on.  A task sends a call in its first
    turn; then it and any other tasks take turns, which make and drop calls, read the
    socket, take from queues and edit rules and paths.  If the first answer to the call's
    serial is among what was at hand or came in during the turns [ws1], and the task gets
    more turns afterwards than results had come in, it goes on with that answer, whichever
    task read it; provided that the socket does not fail and nothing panics. *)
Theorem call_completes {A} (k : MarshalledMessage → prog A) call w0 ws1 ws2 n s s1 ans t' s' :
  conn_ok n s → (N.of_nat (n + work (w0 :: ws1 ++ ws2)) < u32_mod)%N →
  expects_reply call = true → Forall (λ w, io w = Ok ()) (w0 :: ws1 ++ ws2) →
  Rpc.run dbg hash_iter s (others w0) = Some s1 →
  no_failure (inbox (recv_data s1) ++ arrivals (ws1 ++ ws2)) →
  exec dbg hash_iter (Running (Call call k)) (w0 :: ws1 ++ ws2) s = Some (t', s') →
  first_answer (next_idx (serial s1)) (msgs (inbox (recv_data s1) ++ arrivals ws1)) = Some ans →
  length (inbox (recv_data s1) ++ arrivals ws1) < length ws2 →
  ∃ s2, resumed (Running (Call call k)) (w0 :: ws1 ++ ws2) s k ans s2.
Proof. apply call_completes_aux. Qed.
End calls.

(** ** Queues *)

Section routes.
Context `{BasicMarshal} (dbg : bool)
  (hash_iter : gmap bytes CallHierarchy → list (bytes * CallHierarchy)).

(** [Rt] says of the rules and paths that the sorting puts [msg], a call or a signal, into
    the queue [q]. *)
Class Route (Rt : RecvData → Prop) (q : queue) (msg : MarshalledMessage) : Prop := {
  route_typ : typ msg = TCall ∨ typ msg = TSignal;
  route_sort rd : Rt rd → ∃ rd', sort_msg dbg hash_iter rd msg = Ok rd' ∧ msg ∈ queued q rd';
  route_same rd rd' : sig_matches rd' = sig_matches rd → hierarchy rd' = hierarchy rd → Rt rd → Rt rd';
}.

(** What a run of [queue_msg] did with a message it took. *)
Lemma queue_msg_handles Rt q msg `{!Route Rt q msg} l pred rd r rd' c :
  queue_msg dbg hash_iter l pred rd = (r, rd') → r ≠ Panic → Rt rd →
  (∀ er, pred msg (hierarchy rd) ≠ Err er) → l = c ++ inbox rd' → msg ∈ msgs c →
  (r = Ok (msg, false) ∧ pred msg (hierarchy rd) = Ok true) ∨ msg ∈ queued q rd'.
Proof.
  intros Hq Hr. revert rd c Hq. induction l as [|[m|er|] l IH]; intros rd c; cbn [queue_msg].
  - intros _ _ _ Hl Hin. symmetry in Hl. apply app_nil in Hl as [-> _]. by apply not_elem_of_nil in Hin.
  - assert (∀ rd', inbox rd' = l → Ok m :: l = c ++ inbox rd' → msg ∈ msgs c → msg = m) as Hone.
    { intros rd1 -> Hc. change (Ok m :: l) with ([Ok m] ++ l) in Hc. apply app_inj_2 in Hc as [<- _]; [|done].
      by intros ?%list_elem_of_singleton. }
    destruct (pred m _) as [[|]|er|] eqn:Hp; cbn [take_msg hierarchy] in Hp.
    + intros [= <- <-] _ _ Hc Hin. apply Hone in Hc as ->; [by left|done..].
    + destruct (sort_msg _ _ _ m) as [rd1|reply|] eqn:Hs.
      * intros Hq HRt Hne Hc Hin. destruct (sort_msg_reading dbg hash_iter _ _ _ Hs) as (Hsm & Hh & _).
        assert (Rt rd1) as HRt1 by (by apply (route_same rd rd1 Hsm Hh)).
        destruct (queue_msg_took dbg hash_iter _ _ _ _ _ Hq Hr) as (c' & rest & Hl & Ht & _).
        rewrite <- (took_inbox _ _ _ _ Ht) in Hl.
        assert (c = Ok m :: c') as ->.
        { rewrite Hl in Hc. change (Ok m :: c' ++ inbox rd') with ((Ok m :: c') ++ inbox rd') in Hc.
          by apply app_inj_2 in Hc as [<- _]. }
        cbn in Hin. apply elem_of_cons in Hin as [->|Hin].
        -- right. destruct (route_sort (msg:=m) (take_msg rd l m)) as (rd2 & Hs2 & Hin2).
           { by apply (route_same rd). }
           rewrite Hs2 in Hs. injection Hs as ->.
           destruct (took_queued _ _ _ _ Ht q) as (k & -> & _). apply elem_of_app. by left.
        -- cbn in Hh. rewrite <- Hh. apply (IH rd1 c'); [done|done|by rewrite Hh|done|done].
      * intros [= <- <-] HRt _ Hc Hin. apply Hone in Hc as ->; [|done..]. exfalso.
        destruct (route_sort (msg:=m) (take_msg rd l m)) as (rd2 & Hs2 & _); [by apply (route_same rd)|].
        congruence.
      * by intros [= <- <-].
    + intros [= <- <-] _ Hne Hc Hin. apply Hone in Hc as ->; [|done..]. by apply Hne in Hp.
    + by intros [= <- <-].
  - intros [= <- <-] _ _ Hc Hin. change (Err er :: l) with ([Err er] ++ l) in Hc.
    apply app_inj_2 in Hc as [<- _]; [|done]. by apply not_elem_of_nil in Hin.
  - by intros [= <- <-].
Qed.

Lemma get_msg_step_handles Rt q msg `{!Route Rt q msg} s pred r s' c :
  get_msg_step dbg hash_iter s pred = Some (r, s') → Rt (recv_data s) →
  (∀ er, pred msg (hierarchy (recv_data s)) ≠ Err er) →
  inbox (recv_data s) = c ++ inbox (recv_data s') → msg ∈ msgs c →
  (r = Some (Ok msg) ∧ pred msg (hierarchy (recv_data s)) = Ok true) ∨ msg ∈ queued q (recv_data s').
Proof.
  unfold get_msg_step. destruct (queue_msg _ _ _ _ _) as [r0 rd] eqn:Hq. intros Hs HRt Hne Hc Hin.
  assert (recv_data s' = rd) as Hrd.
  { clear Hq. destruct r0 as [[m [|]]|er|]; [| |destruct er|done]; try (by injection Hs as <- <-).
    unfold send_msg_wo_rsp in Hs. destruct (expects_reply m); [done|].
    destruct (allocate_idx _) as [[? ?]|]; [|done]. by injection Hs as <- <-. }
  rewrite Hrd in Hc |- *.
  destruct (queue_msg_handles Rt q msg _ _ _ _ _ c Hq) as [[-> Hp]|?]; [by intros ->|done..| |by right].
  left. by injection Hs as <- <-.
Qed.

(** [msg] is in the queue, or among the next [d] results, with [arr] to come. *)
Definition near (q : queue) (msg : MarshalledMessage) (d : nat)
    (arr : list (io_result MarshalledMessage)) (rd : RecvData) : Prop :=
  msg ∈ queued q rd ∨ ∃ j, j < d ∧ (inbox rd ++ arr) !! j = Some (Ok msg).

(** A step that takes [msg], or from its queue. *)
Definition takes (q : queue) (msg : MarshalledMessage) (rd : RecvData) (a : action) : Prop :=
  match a with
  | ATake q' => q' = q
  | AGetSignal r => matches r msg = true
  | AGetCall path => call_pred dbg path msg (hierarchy rd) = Ok true
  | _ => False
  end.

(** A step that leaves the route and the message alone. *)
Definition leaves (Rt : RecvData → Prop) (q : queue) (msg : MarshalledMessage) (a : action) : Prop :=
  ∀ s s', Rt (recv_data s) → Rpc.step dbg hash_iter s a = Some s' →
    ¬ takes q msg (recv_data s) a ∧ Rt (recv_data s').

(** So do all steps that edit neither rules nor paths, if they do not take the message. *)
Lemma leaves_plain Rt q msg `{!Route Rt q msg} a :
  rule_edit a = None → path_edit a = None → (∀ rd, Rt rd → ¬ takes q msg rd a) → leaves Rt q msg a.
Proof.
  intros Hr Hp Ht s s' HRt Hs. split; [by apply Ht|].
  destruct (step_reading dbg hash_iter s a s' Hs Hr Hp) as [(Hm & Hh & _) _].
  by apply (route_same (recv_data s)).
Qed.

Lemma components_no_err {E} path (er : E) : components (E:=E) dbg path ≠ Err er.
Proof.
  unfold components, debug_assert_validitity.
  assert (∀ cs, map_components (E:=E) cs ≠ Err er) as Hmap.
  { induction cs as [|c cs IH]; cbn; [done|]. destruct (component_str c) eqn:Hc; cbn; [|by destruct c|done].
    by destruct (map_components cs). }
  destruct dbg; cbn; [destruct (validate path); cbn; [|done..]|]; apply Hmap.
Qed.

Lemma call_pred_no_err path msg h er : call_pred dbg path msg h ≠ Err er.
Proof.
  unfold call_pred, is_match. destruct (typ msg); try done.
  destruct (object (dynheader msg)) as [obj|]; [|done]. cbn.
  destruct (from_str obj) as [p| |]; try done. cbn.
  pose proof (components_no_err (E:=ErrorKind) path) as H1.
  pose proof (components_no_err (E:=ErrorKind) p) as H2.
  destruct (components dbg path); cbn; [|by intros [= ->]; eapply H1|done].
  destruct (components dbg p); cbn; [done|by intros [= ->]; eapply H2|done].
Qed.

(** A step that takes messages runs [queue_msg] with one of the three predicates. *)
Lemma step_reads s a s' :
  Rpc.step dbg hash_iter s a = Some s' →
  inbox (recv_data s') = inbox (recv_data s) ++ incomings a ∨
  ∃ pred r s1, get_msg_step dbg hash_iter s pred = Some (r, s1) ∧ incomings a = [] ∧
    inbox (recv_data s') = inbox (recv_data s1) ∧ chans (recv_data s') = chans (recv_data s1) ∧
    ((∃ idx, pred = res_pred idx) ∨ (∃ m, a = AGetSignal m ∧ pred = sig_pred m) ∨
     (∃ path, a = AGetCall path ∧ pred = call_pred dbg path)).
Proof.
  intros Hs.
  assert (∀ pred, snd <$> get_msg_step dbg hash_iter s pred = Some s' →
    ∃ r, get_msg_step dbg hash_iter s pred = Some (r, s')) as Hget.
  { intros pred Hg. destruct (get_msg_step _ _ s pred) as [[r s1]|]; [|done]. injection Hg as <-. by eexists. }
  assert (∀ A (m : io_result A) set, edit_with s m set = Some s' →
    (∀ rd a, inbox (set rd a) = inbox rd) → inbox (recv_data s') = inbox (recv_data s) ++ []) as Hedit.
  { intros A m set He Hset. rewrite app_nil_r. destruct m as [x|er|]; cbn in He; [|by injection He as <-|done].
    injection He as <-. apply Hset. }
  destruct a as [msg sent|msg|r|ch|ch|q|r|path|r q|r|r|path act q]; cbn [Rpc.step incomings] in Hs |- *.
  - left. unfold send_msg_w_rsp in Hs. destruct (expects_reply msg); [|done].
    destruct (allocate_idx _) as [[? ?]|]; [|done]. injection Hs as <-. by rewrite app_nil_r.
  - left. unfold send_msg_wo_rsp in Hs. destruct (expects_reply msg); [done|].
    destruct (allocate_idx _) as [[? ?]|]; [|done]. injection Hs as <-. by rewrite app_nil_r.
  - left. by injection Hs as <-.
  - unfold poll_response, poll_future in Hs. destruct (waiting s !! ch) as [[idx b]|]; [|done]. cbn in Hs.
    destruct (oneshots _ !! ch); [left; injection Hs as <-; by rewrite app_nil_r|].
    destruct (decide _); [|done]. destruct (get_msg_step _ _ s _) as [[r s1]|] eqn:Hg; [|done].
    right. exists (res_pred idx), r, s1. cbn in Hs. split; [done|]. split; [done|].
    destruct r as [[m|er|]|]; injection Hs as <-; (split_and!; [done|done|]); left; by exists idx.
  - left. destruct (waiting s !! ch) as [[idx b]|]; cbn in Hs; [|done]. injection Hs as <-. by rewrite app_nil_r.
  - left. injection Hs as <-. unfold take_queued.
    destruct (chans (recv_data s) !! q) as [[|m l]|]; by rewrite app_nil_r.
  - apply Hget in Hs as [o Hs]. right. exists (sig_pred r), o, s'. split_and!; [done..|]. right. left. by exists r.
  - apply Hget in Hs as [o Hs]. right. exists (call_pred dbg path), o, s'. split_and!; [done..|]. right. right. by exists path.
  - left. by eapply Hedit.
  - left. by eapply Hedit.
  - left. by eapply Hedit.
  - left. by eapply Hedit.
Qed.

Lemma flows_near Rt q msg c arr later (Q : queue → Prop) d s s' `{!Route Rt q msg} :
  flows c arr Q (recv_data s) (recv_data s') → Q q →
  (msg ∈ msgs c → msg ∈ queued q (recv_data s')) →
  near q msg d (arr ++ later) (recv_data s) → near q msg (d - length c) later (recv_data s').
Proof.
  intros Hc HQ Hsort [Hin|(j & Hj & Hin)].
  - left. destruct (flows_queued _ _ _ _ _ Hc q HQ) as (l & -> & _). apply elem_of_app. by left.
  - destruct (flows_lookup_later _ _ _ _ _ _ _ _ Hc Hin) as [Hm|[Hle Hj']]; [left; by apply Hsort|].
    right. eexists. split; [|exact Hj']. lia.
Qed.

Lemma near_mono q msg d d' arr rd : d ≤ d' → near q msg d arr rd → near q msg d' arr rd.
Proof. intros Hd [Hin|(j & Hj & Hin)]; [by left|]. right. exists j. split; [lia|done]. Qed.

Lemma step_near Rt q msg `{!Route Rt q msg} s a s' d later :
  leaves Rt q msg a → Rpc.step dbg hash_iter s a = Some s' → Rt (recv_data s) →
  near q msg d (incomings a ++ later) (recv_data s) →
  Rt (recv_data s') ∧ near q msg d later (recv_data s').
Proof.
  intros Hl Hs HRt Hn. destruct (Hl s s' HRt Hs) as [Hno HRt']. split; [done|].
  destruct (step_flows dbg hash_iter s a s' Hs) as (c & Hc).
  eapply near_mono; [|eapply (flows_near Rt q msg c); [done|exact Hc| | |exact Hn]]; [lia| |].
  { intros ->. by apply Hno. }
  intros Hin. pose proof (flows_inbox _ _ _ _ _ Hc) as Hi.
  destruct (step_reads s a s' Hs) as [Hi'|(pred & r & s1 & Hg & Ha & Hi1 & Hc1 & Hpred)].
  { rewrite Hi' in Hi. symmetry in Hi. apply (app_inj_2 c [] _ _) in Hi as [-> _]; [|done].
    by apply not_elem_of_nil in Hin. }
  rewrite Ha, app_nil_r, Hi1 in Hi. unfold queued. rewrite Hc1.
  destruct (get_msg_step_handles Rt q msg s pred r s1 c Hg HRt) as [[_ Hp]|?]; [|done|done| |done].
  - destruct Hpred as [(idx & ->)|[(m & -> & ->)|(path & -> & ->)]];
      intros er; [apply res_pred_no_err|done|apply call_pred_no_err].
  - exfalso. destruct Hpred as [(idx & ->)|[(m & -> & ->)|(path & -> & ->)]].
    + apply res_pred_true in Hp as [Ht _]. pose proof (route_typ (Rt:=Rt)). by destruct Ht, route_typ; congruence.
    + injection Hp as Hp. by apply Hno.
    + by apply Hno.
Qed.

Lemma incoming_all_cons a l : incoming_all (a :: l) = incomings a ++ incoming_all l.
Proof. done. Qed.

Lemma run_near Rt q msg `{!Route Rt q msg} l s s' d later :
  Forall (leaves Rt q msg) l → Rpc.run dbg hash_iter s l = Some s' → Rt (recv_data s) →
  near q msg d (incoming_all l ++ later) (recv_data s) →
  Rt (recv_data s') ∧ near q msg d later (recv_data s').
Proof.
  intros Hl. revert s. induction Hl as [|a l Ha _ IH]; intros s; cbn [Rpc.run]; [by intros [= ->]|].
  destruct (Rpc.step _ _ s a) as [s1|] eqn:Hs; [|done]. cbn [mbind option_bind]. intros Hr HRt Hn.
  rewrite incoming_all_cons, <- (assoc_L (++)) in Hn.
  destruct (step_near Rt q msg s a s1 d _ Ha Hs HRt Hn) as [HRt1 Hn1]. by apply (IH s1).
Qed.

(** Everything in the queue and everything to come is in [P]. *)
Definition within (P : MarshalledMessage → Prop) (q : queue) (rd : RecvData)
    (arr : list (io_result MarshalledMessage)) : Prop :=
  Forall P (queued q rd) ∧ Forall P (msgs (inbox rd ++ arr)).

Lemma flows_within (P : MarshalledMessage → Prop) q c arr1 arr2 (Q : queue → Prop) rd rd' :
  flows c arr1 Q rd rd' → Q q → within P q rd (arr1 ++ arr2) → within P q rd' arr2.
Proof.
  intros Hc HQ [Hq Hi]. rewrite (assoc_L (++)), (flows_inbox _ _ _ _ _ Hc), <- (assoc_L (++)), msgs_app in Hi.
  apply Forall_app in Hi as [Hic Hi]. split; [|done].
  destruct (flows_queued _ _ _ _ _ Hc q HQ) as (l & -> & Hl). apply Forall_app. split; [done|].
  rewrite Forall_forall in *. intros m Hm. by apply Hic, Hl.
Qed.

Lemma run_within Rt P q msg `{!Route Rt q msg} l arr s s' :
  Forall (leaves Rt q msg) l → Rpc.run dbg hash_iter s l = Some s' → Rt (recv_data s) →
  within P q (recv_data s) (incoming_all l ++ arr) → within P q (recv_data s') arr.
Proof.
  intros Hl. revert s. induction Hl as [|a l Ha _ IH]; intros s; cbn [Rpc.run]; [by intros [= ->]|].
  destruct (Rpc.step _ _ s a) as [s1|] eqn:Hs; [|done]. cbn [mbind option_bind]. intros Hr HRt Hw.
  destruct (Ha s s1 HRt Hs) as [Hno HRt1]. apply (IH s1); [done|done|].
  destruct (step_flows dbg hash_iter s a s1 Hs) as (c & Hc).
  rewrite incoming_all_cons, <- (assoc_L (++)) in Hw.
  eapply flows_within; [exact Hc| |exact Hw]. intros ->. by apply Hno.
Qed.

(** What a future returns from the socket was there. *)
Lemma queue_msg_returns l pred rd msg rd' :
  queue_msg dbg hash_iter l pred rd = (Ok (msg, false), rd') → Ok msg ∈ l.
Proof.
  revert rd. induction l as [|[m|er|] l IH]; intros rd; cbn [queue_msg]; try done.
  destruct (pred m _) as [[|]|er|]; [intros [= -> _]; by left| |done..].
  destruct (sort_msg _ _ _ m); [|done..]. intros Hq. right. by eapply IH.
Qed.

Lemma get_msg_step_returns s pred msg s' :
  get_msg_step dbg hash_iter s pred = Some (Some (Ok msg), s') → Ok msg ∈ inbox (recv_data s).
Proof.
  unfold get_msg_step. destruct (queue_msg _ _ _ _ _) as [[[m [|]]|er|] rd] eqn:Hq; [| | |done].
  - by destruct (send_msg_wo_rsp _ m).
  - intros [= -> _]. by eapply queue_msg_returns.
  - by destruct er.
Qed.

Context (Rt : RecvData → Prop) (P : MarshalledMessage → Prop) (q : queue) (msg : MarshalledMessage).
Context (open : RecvData → bool) (pred : predicate).
Context (Hopen : ∀ rd, Rt rd → open rd = true) (Hpred : ∀ m h er, pred m h ≠ Err er).

(** The state of a future that waits for the queue; [arr], and later [rest], is to come. *)
Record patient (d : nat) (arr rest : list (io_result MarshalledMessage)) (rd : RecvData) : Prop := {
  patient_route : Rt rd;
  patient_near : near q msg d arr rd;
  patient_within : within P q rd (arr ++ rest);
  patient_calm : no_failure (inbox rd ++ arr ++ rest);
}.

Lemma run_patient `{!Route Rt q msg} d l arr rest s s' :
  Forall (leaves Rt q msg) l → Rpc.run dbg hash_iter s l = Some s' →
  patient d (incoming_all l ++ arr) rest (recv_data s) → patient d arr rest (recv_data s').
Proof.
  intros Hl Hr [HRt Hn Hw Hc]. destruct (run_near Rt q msg l s s' d arr Hl Hr HRt Hn) as [HRt' Hn'].
  rewrite <- (assoc_L (++)) in Hw, Hc. split; [done|done|by eapply run_within|].
  destruct (run_flows dbg hash_iter s l s' Hr) as (c & Hf).
  rewrite (assoc_L (++)), (flows_inbox _ _ _ _ _ Hf), <- (assoc_L (++)) in Hc.
  by apply Forall_app in Hc as [_ ?].
Qed.

(** A run in the second phase. *)
Lemma patient_later `{!Route Rt q msg} d l rest s s' :
  Forall (leaves Rt q msg) l → Rpc.run dbg hash_iter s l = Some s' →
  patient d [] (incoming_all l ++ rest) (recv_data s) → patient d [] rest (recv_data s').
Proof.
  intros Hl Hr [HRt Hn Hw Hc]. apply (run_patient d l [] rest s s' Hl Hr).
  rewrite app_nil_r. split; [done| |done..]. destruct Hn as [Hn|(j & Hj & Hn)]; [by left|right].
  exists j. split; [done|]. rewrite app_nil_r in Hn. by apply lookup_app_l_Some.
Qed.

(** The queue gives its oldest message, or is empty. *)
Lemma poll_queue_patient d arr rest rd :
  patient d arr rest rd →
  match poll_queue rd q open with
  | Some (r, _) => ∃ m, r = Ok m ∧ P m
  | None => queued q rd = []
  end.
Proof.
  intros [HRt _ [Hq _] _]. unfold poll_queue, take_queued, queued in *.
  destruct (chans rd !! q) as [[|m l]|]; cbn in Hq; rewrite ?(Hopen _ HRt); [done| |done].
  apply Forall_cons in Hq as [? _]. by exists m.
Qed.

(** One turn of a future that waits in [get_msg], after the others. *)
Lemma fetching_turn {A} `{!Route Rt q msg} (k : MarshalledMessage → prog A) w d arr rest s s1 t' s' :
  io w = Ok () → Rpc.run dbg hash_iter s (others w) = Some s1 →
  patient d arr rest (recv_data s1) →
  client_step dbg hash_iter (Fetching q open pred k) w s = Some (t', s') →
  (∃ m, t' = Running (k m) ∧ P m) ∨
  (t' = Fetching q open pred k ∧ ∃ d', d' ≤ d ∧ (arr = [] → d' < d) ∧
     patient d' arr rest (recv_data s')).
Proof.
  intros Hio Hrun Hp. unfold client_step. rewrite Hrun.
  cbn [mbind option_bind]. rewrite Hio.
  pose proof (poll_queue_patient _ _ _ _ Hp) as Hpoll.
  destruct (poll_queue _ q open) as [[r rd]|].
  { destruct Hpoll as (m & -> & Hm). intros [= <- _]. left. by exists m. }
  destruct (get_msg_step _ _ s1 pred) as [[r s2]|] eqn:Hg; [|done]. intros [= <- <-].
  pose proof (get_msg_step_took dbg hash_iter _ _ _ _ Hg) as (c & tl & Hi & Ht & Hne).
  destruct Hp as [HRt Hn Hw Hc]. destruct r as [[m|er|]|].
  - left. exists m. split; [done|]. destruct Hw as [_ Hw]. rewrite Forall_forall in Hw. apply Hw.
    apply elem_of_msgs, elem_of_app. left. by eapply get_msg_step_returns.
  - exfalso. destruct (get_msg_step_err dbg hash_iter _ _ _ _ Hg) as [He|(m & h & He)]; [|by eapply Hpred].
    apply Forall_app in Hc as [Hc _]. by apply no_failure_err in He.
  - by destruct (get_msg_step_kept dbg hash_iter _ _ _ _ Hg).
  - right. split; [done|]. exists (d - length c).
    pose proof (took_flows c tl (λ _, True) _ _ Hi Ht) as Hf.
    destruct (get_msg_step_reading dbg hash_iter _ _ _ _ Hg) as [[(Hsm & Hh & _) _] _].
    split_and!; [lia| |split; [by apply (route_same (recv_data s1))| |by eapply (flows_within _ _ _ [])|]].
    + intros ->. destruct Hn as [Hn|(j & Hj & Hn)]; [rewrite Hpoll in Hn; by apply not_elem_of_nil in Hn|].
      rewrite app_nil_r in Hn. destruct c; [rewrite Hne in Hn by done; done|cbn; lia].
    + eapply (flows_near Rt q msg c []); [done|exact Hf|done| |exact Hn]. intros Hin.
      destruct (get_msg_step_handles Rt q msg s1 pred None s2 c Hg HRt) as [[? _]|?];
        [by apply Hpred| |done|done|done]. by rewrite (took_inbox _ _ _ _ Ht).
    + rewrite Hi, <- (assoc_L (++)) in Hc. apply Forall_app in Hc as [_ Hc]. by rewrite (took_inbox _ _ _ _ Ht).
Qed.

Lemma patient_mono d d' arr rest rd : d ≤ d' → patient d arr rest rd → patient d' arr rest rd.
Proof. intros Hd [HRt Hn Hw Hc]. split; [done| |done..]. by eapply near_mono. Qed.

Lemma arrivals_cons w script : arrivals (w :: script) = incoming_all (others w) ++ arrivals script.
Proof. done. Qed.

(** The others leave the message alone, in every turn, and the socket does not fail. *)
Definition quiet (w : turn) : Prop := io w = Ok () ∧ Forall (leaves Rt q msg) (others w).

(** Turns while the message may still have to come in. *)
Lemma fetching_exec {A} `{!Route Rt q msg} (k : MarshalledMessage → prog A) script d arr rest s t' s' :
  Forall quiet script → patient d (arrivals script ++ arr) rest (recv_data s) →
  exec dbg hash_iter (Fetching q open pred k) script s = Some (t', s') →
  (∃ m s2, resumed dbg hash_iter (Fetching q open pred k) script s k m s2 ∧ P m) ∨
  (t' = Fetching q open pred k ∧ patient d arr rest (recv_data s')).
Proof.
  intros Hq. revert s. induction Hq as [|w script [Hio Hl] _ IH]; intros s Hp; cbn [exec].
  { intros [= <- <-]. by right. }
  destruct (client_step _ _ _ w s) as [[t1 s2]|] eqn:Hstep; [|done]. cbn [mbind option_bind]. intros He.
  pose proof Hstep as Hturn. unfold client_step in Hturn.
  destruct (Rpc.run _ _ s (others w)) as [s1|] eqn:Hrun; [clear Hturn|done].
  rewrite arrivals_cons, <- (assoc_L (++)) in Hp.
  apply (run_patient d _ _ rest s s1 Hl Hrun) in Hp.
  destruct (fetching_turn k w d _ rest s s1 t1 s2 Hio Hrun Hp Hstep)
    as [(m & -> & Hm)|(-> & d' & Hd & _ & Hp2)].
  - left. exists m, s2. split; [|done]. by apply resumed_now.
  - apply (patient_mono _ d) in Hp2; [|done].
    destruct (IH s2 Hp2 He) as [(m & s3 & Hr & Hm)|?]; [|by right].
    left. exists m, s3. split; [|done]. by eapply resumed_cons.
Qed.

(** Turns after it came in. *)
Lemma fetching_ends {A} `{!Route Rt q msg} (k : MarshalledMessage → prog A) script d rest s t' s' :
  Forall quiet script → patient d [] (arrivals script ++ rest) (recv_data s) →
  exec dbg hash_iter (Fetching q open pred k) script s = Some (t', s') →
  (∃ m s2, resumed dbg hash_iter (Fetching q open pred k) script s k m s2 ∧ P m) ∨ length script ≤ d.
Proof.
  intros Hq. revert d s. induction Hq as [|w script [Hio Hl] _ IH]; intros d s Hp; cbn [exec].
  { intros _. right. cbn. lia. }
  destruct (client_step _ _ _ w s) as [[t1 s2]|] eqn:Hstep; [|done]. cbn [mbind option_bind]. intros He.
  pose proof Hstep as Hturn. unfold client_step in Hturn.
  destruct (Rpc.run _ _ s (others w)) as [s1|] eqn:Hrun; [clear Hturn|done].
  rewrite arrivals_cons, <- (assoc_L (++)) in Hp.
  apply (patient_later d _ _ s s1 Hl Hrun) in Hp.
  destruct (fetching_turn k w d [] _ s s1 t1 s2 Hio Hrun Hp Hstep)
    as [(m & -> & Hm)|(-> & d' & _ & Hd & Hp2)].
  - left. exists m, s2. split; [|done]. by apply resumed_now.
  - specialize (Hd eq_refl). destruct (IH d' s2 Hp2 He) as [(m & s3 & Hr & Hm)|?]; [|right; cbn [length]; lia].
    left. exists m, s3. split; [|done]. by eapply resumed_cons.
Qed.

(** The first turn polls the queue only. *)
Lemma fetch_turn {A} `{!Route Rt q msg} (k : MarshalledMessage → prog A) w d arr rest s t' s' :
  quiet w → patient d (incoming_all (others w) ++ arr) rest (recv_data s) →
  client_step dbg hash_iter (Running (Fetch q open pred k)) w s = Some (t', s') →
  (∃ m, t' = Running (k m) ∧ P m) ∨ (t' = Fetching q open pred k ∧ patient d arr rest (recv_data s')).
Proof.
  intros [_ Hl] Hp. unfold client_step. destruct (Rpc.run _ _ s (others w)) as [s1|] eqn:Hrun; [|done].
  cbn [mbind option_bind]. apply (run_patient d _ _ rest s s1 Hl Hrun) in Hp.
  pose proof (poll_queue_patient _ _ _ _ Hp) as Hpoll.
  destruct (poll_queue _ q open) as [[r rd]|]; [|by intros [= <- <-]; right].
  destruct Hpoll as (m & -> & Hm). intros [= <- _]. left. by exists m.
Qed.

Lemma fetch_completes {A} `{!Route Rt q msg} (k : MarshalledMessage → prog A) w ws1 ws2 s t' s' :
  Forall quiet (w :: ws1 ++ ws2) → Rt (recv_data s) →
  no_failure (inbox (recv_data s) ++ arrivals (w :: ws1 ++ ws2)) →
  within P q (recv_data s) (arrivals (w :: ws1 ++ ws2)) →
  msg ∈ queued q (recv_data s) ++ msgs (inbox (recv_data s) ++ arrivals (w :: ws1)) →
  exec dbg hash_iter (Running (Fetch q open pred k)) (w :: ws1 ++ ws2) s = Some (t', s') →
  length (inbox (recv_data s) ++ arrivals (w :: ws1)) < length ws2 →
  ∃ m s2, resumed dbg hash_iter (Running (Fetch q open pred k)) (w :: ws1 ++ ws2) s k m s2 ∧ P m.
Proof.
  intros Hquiet HRt Hcalm Hw Hmsg He Hlen. cbn [exec] in He.
  apply Forall_cons in Hquiet as [Hq0 Hquiet]. apply Forall_app in Hquiet as [Hq1 Hq2].
  destruct (client_step _ _ _ w s) as [[t1 s1]|] eqn:Hstep; [|done]. cbn [mbind option_bind] in He.
  set (d := length (inbox (recv_data s) ++ arrivals (w :: ws1))) in *.
  rewrite arrivals_cons, arrivals_app in Hcalm, Hw.
  assert (patient d (incoming_all (others w) ++ arrivals ws1 ++ []) (arrivals ws2) (recv_data s)) as Hp.
  { rewrite app_nil_r. split; [done| |by rewrite <- (assoc_L (++))..].
    apply elem_of_app in Hmsg as [Hin|Hin]; [by left|right].
    apply elem_of_msgs, list_elem_of_lookup in Hin as [j Hj]. exists j. split; [|done].
    by eapply lookup_lt_Some. }
  destruct (fetch_turn k w d _ _ s t1 s1 Hq0 Hp Hstep) as [(m & -> & Hm)|(-> & Hp1)].
  { exists m, s1. split; [|done]. by apply resumed_now. }
  rewrite exec_app in He. destruct (exec _ _ _ ws1 s1) as [[t2 s2]|] eqn:He1; [|done].
  cbn [mbind option_bind] in He.
  destruct (fetching_exec k ws1 d [] _ s1 t2 s2 Hq1 Hp1 He1) as [(m & s3 & Hr & Hm)|(-> & Hp2)].
  { exists m, s3. split; [|done]. eapply resumed_cons; [exact Hstep|]. by apply resumed_more. }
  rewrite <- (app_nil_r (arrivals ws2)) in Hp2.
  destruct (fetching_ends k ws2 d [] s2 t' s' Hq2 Hp2 He) as [(m & s3 & Hr & Hm)|?]; [|lia].
  exists m, s3. split; [|done]. eapply resumed_cons; [exact Hstep|]. by eapply resumed_app.
Qed.

(** An operation that finds its queue under the lock and then waits for it. *)
Lemma locked_fetch_completes {A} `{!Route Rt q msg} f (k : MarshalledMessage → prog A) w0 w ws1 ws2 s t' s' :
  (∀ rd, Rt rd → f rd = (Fetch q open pred k, rd)) →
  Forall quiet (w0 :: w :: ws1 ++ ws2) → Rt (recv_data s) →
  no_failure (inbox (recv_data s) ++ arrivals (w0 :: w :: ws1 ++ ws2)) →
  within P q (recv_data s) (arrivals (w0 :: w :: ws1 ++ ws2)) →
  msg ∈ queued q (recv_data s) ++ msgs (inbox (recv_data s) ++ arrivals (w0 :: w :: ws1)) →
  exec dbg hash_iter (Running (Locked f)) (w0 :: w :: ws1 ++ ws2) s = Some (t', s') →
  length (inbox (recv_data s) ++ arrivals (w0 :: w :: ws1)) < length ws2 →
  ∃ m s2, resumed dbg hash_iter (Running (Locked f)) (w0 :: w :: ws1 ++ ws2) s k m s2 ∧ P m.
Proof.
  intros Hf [[_ Hl] Hquiet]%Forall_cons HRt Hcalm Hw Hmsg He Hlen. cbn [exec] in He.
  destruct (client_step _ _ _ w0 s) as [[t1 s1]|] eqn:Hstep; [|done]. cbn [mbind option_bind] in He.
  pose proof Hstep as Hturn. unfold client_step in Hturn.
  destruct (Rpc.run _ _ s (others w0)) as [s2|] eqn:Hrun; [|done]. cbn [mbind option_bind] in Hturn.
  set (d := length (inbox (recv_data s) ++ arrivals (w0 :: w :: ws1))) in *.
  assert (arrivals (w0 :: w :: ws1 ++ ws2) =
    (incoming_all (others w0) ++ arrivals (w :: ws1)) ++ arrivals ws2) as Harr
    by (by rewrite !arrivals_cons, arrivals_app, !(assoc_L (++))).
  rewrite Harr in Hcalm, Hw.
  assert (patient d (incoming_all (others w0) ++ arrivals (w :: ws1)) (arrivals ws2) (recv_data s)) as Hp.
  { split; [done| |done..]. apply elem_of_app in Hmsg as [Hin|Hin]; [by left|right].
    apply elem_of_msgs, list_elem_of_lookup in Hin as [j Hj]. exists j. split; [|done].
    by eapply lookup_lt_Some. }
  apply (run_patient d _ _ _ s s2 Hl Hrun) in Hp.
  destruct (run_flows dbg hash_iter s _ s2 Hrun) as (c & Hc).
  destruct Hp as [HRt2 Hn Hw2 Hcalm2]. rewrite (Hf _ HRt2) in Hturn.
  assert (set_recv_data s2 (recv_data s2) = s2) as Hs2 by (by destruct s2).
  rewrite Hs2 in Hturn. injection Hturn as <- <-.
  destruct (fetch_completes k w ws1 ws2 s2 t' s') as (m & s3 & Hr & Hm).
  - done.
  - done.
  - by rewrite app_comm_cons, arrivals_app.
  - by rewrite app_comm_cons, arrivals_app.
  - apply elem_of_app. destruct Hn as [Hn|(j & _ & Hn)]; [by left|right].
    apply elem_of_msgs. by apply list_elem_of_lookup_2 in Hn.
  - done.
  - pose proof (f_equal length (flows_inbox _ _ _ _ _ Hc)) as Hl2. subst d.
    rewrite (arrivals_cons w0), !length_app in *. lia.
  - exists m, s3. split; [|done]. by eapply resumed_cons.
Qed.
End routes.

(** ** The two routes *)

Section operations.
Context `{BasicMarshal} (dbg : bool)
  (hash_iter : gmap bytes CallHierarchy → list (bytes * CallHierarchy)).

(** The first rule that matches the signal, and so gets it, has the queue of [r]. *)
Definition signal_route (r : MatchRule) (q : queue) (msg : MarshalledMessage) (rd : RecvData) : Prop :=
  signal_queue rd r = Ok q ∧ typ msg = TSignal ∧
  ∃ l1 x l2, sig_matches rd = l1 ++ x :: l2 ∧ Forall (λ y, matches y msg = false) l1 ∧
    matches x msg = true ∧ r_queue x = Some q.

Lemma signal_route_route r q msg :
  typ msg = TSignal → Route dbg hash_iter (signal_route r q msg) q msg.
Proof.
  intros Ht. split; [by right| |].
  - intros rd (_ & _ & l1 & x & l2 & Hl & Hno & Hm & Hx). unfold sort_msg. rewrite Ht, Hl.
    assert (queue_sig (E:=MarshalledMessage) (l1 ++ x :: l2) (chans rd) msg =
      Ok (<[q := queued q rd ++ [msg]]> (chans rd))) as ->.
    { clear Hl. induction Hno as [|y l1 Hy _ IH]; cbn [queue_sig app]; [|by rewrite Hy].
      by rewrite Hm, Hx. }
    cbn. eexists. split; [done|]. unfold queued. cbn. rewrite lookup_insert_eq. cbn.
    apply elem_of_app. right. by left.
  - intros rd rd' Hs Hh. unfold signal_route, signal_queue. by rewrite Hs.
Qed.

Lemma signal_route_open r q msg rd : signal_route r q msg rd → signal_open q rd = true.
Proof.
  intros (_ & _ & l1 & x & l2 & Hl & _ & _ & Hx). unfold signal_open. apply existsb_exists.
  exists x. split; [rewrite Hl; apply list_elem_of_In; set_solver|]. by apply bool_decide_eq_true_2.
Qed.

(** C13: a signal is not lost to a [get_signal] that waits.  The rule [r] is in the list
    and its queue is the one the sorting puts the signal [msg] into; the other tasks do
    anything that keeps it so and do not take the signal or from the queue.  If the signal
    is in the queue, or comes in up to the turns [ws1], and the task gets more turns
    afterwards than results had come in, then [get_signal] returns a message, which was in
    the queue before or came in. *)
Theorem get_signal_completes r q msg w0 w ws1 ws2 s t' s' :
  signal_route r q msg (recv_data s) →
  Forall (quiet dbg hash_iter (signal_route r q msg) q msg) (w0 :: w :: ws1 ++ ws2) →
  no_failure (inbox (recv_data s) ++ arrivals (w0 :: w :: ws1 ++ ws2)) →
  msg ∈ queued q (recv_data s) ++ msgs (inbox (recv_data s) ++ arrivals (w0 :: w :: ws1)) →
  exec dbg hash_iter (Running (get_signal r)) (w0 :: w :: ws1 ++ ws2) s = Some (t', s') →
  length (inbox (recv_data s) ++ arrivals (w0 :: w :: ws1)) < length ws2 →
  ∃ m s2, resumed dbg hash_iter (Running (get_signal r)) (w0 :: w :: ws1 ++ ws2) s (λ m, Ret (Ok m)) m s2 ∧
    m ∈ queued q (recv_data s) ++ msgs (inbox (recv_data s) ++ arrivals (w0 :: w :: ws1 ++ ws2)).
Proof.
  intros HRt Hq Hcalm Hmsg He Hlen. pose proof (signal_route_route r q msg (proj1 (proj2 HRt))) as HR.
  apply (locked_fetch_completes dbg hash_iter (signal_route r q msg) _ q msg (signal_open q) (sig_pred r)
    (signal_route_open r q msg) ltac:(done) _ (λ m, Ret (Ok m)) w0 w ws1 ws2 s t' s'); try done.
  - intros rd [Hrd _]. by rewrite Hrd.
  - split; apply Forall_forall; intros m Hm; apply elem_of_app; [by left|by right].
Qed.

(** The call of the object [vs] goes to the queue of the path [ws]. *)
Definition call_route (ws vs : list bytes) (q : queue) (rd : RecvData) : Prop :=
  get_queue (E:=ErrorKind) dbg (hierarchy rd) (mk_path ws) = Ok (Some q) ∧ receives (hierarchy rd) vs q.

Lemma call_route_route ws vs q msg :
  Forall element vs → typ msg = TCall → object (dynheader msg) = Some (mk_path vs) →
  Route dbg hash_iter (call_route ws vs q) q msg.
Proof.
  intros Hvs Ht Ho. split; [by left| |].
  - intros rd (_ & Hr). unfold sort_msg. rewrite Ht.
    assert (send dbg hash_iter (hierarchy rd) (chans rd) msg = Ok (<[q := queued q rd ++ [msg]]> (chans rd))) as ->.
    { apply (send_delivers_aux dbg hash_iter _ _ msg vs Hvs Ho). by exists q. }
    cbn. eexists. split; [done|]. unfold queued. cbn. rewrite lookup_insert_eq. cbn.
    apply elem_of_app. right. by left.
  - intros rd rd' _ Hh. unfold call_route. by rewrite Hh.
Qed.

Lemma call_route_open ws vs q rd : call_route ws vs q rd → call_open dbg (mk_path ws) q rd = true.
Proof. intros [Hq _]. unfold call_open. rewrite Hq. by apply bool_decide_eq_true_2. Qed.

(** [get_call] of a path likewise, when its queue is the one of a call that comes in. *)
Lemma get_call_completes ws vs q msg w0 w ws1 ws2 s t' s' :
  Forall element ws → Forall element vs → typ msg = TCall → object (dynheader msg) = Some (mk_path vs) →
  call_route ws vs q (recv_data s) →
  Forall (quiet dbg hash_iter (call_route ws vs q) q msg) (w0 :: w :: ws1 ++ ws2) →
  no_failure (inbox (recv_data s) ++ arrivals (w0 :: w :: ws1 ++ ws2)) →
  msg ∈ queued q (recv_data s) ++ msgs (inbox (recv_data s) ++ arrivals (w0 :: w :: ws1)) →
  exec dbg hash_iter (Running (get_call dbg (mk_path ws))) (w0 :: w :: ws1 ++ ws2) s = Some (t', s') →
  length (inbox (recv_data s) ++ arrivals (w0 :: w :: ws1)) < length ws2 →
  ∃ m s2, resumed dbg hash_iter (Running (get_call dbg (mk_path ws))) (w0 :: w :: ws1 ++ ws2) s
      (λ m, Ret (Ok m)) m s2 ∧
    m ∈ queued q (recv_data s) ++ msgs (inbox (recv_data s) ++ arrivals (w0 :: w :: ws1 ++ ws2)).
Proof.
  intros Hws Hvs Ht Ho HRt Hq Hcalm Hmsg. pose proof (call_route_route ws vs q msg Hvs Ht Ho) as HR.
  unfold get_call, from_str. rewrite validate_str_mk_path by done.
  cbn [mbind outcome_bind mret outcome_ret]. intros He Hlen.
  apply (locked_fetch_completes dbg hash_iter (call_route ws vs q) _ q msg (call_open dbg (mk_path ws) q)
    (call_pred dbg (mk_path ws)) (call_route_open ws vs q) (call_pred_no_err dbg (mk_path ws))
    _ (λ m, Ret (Ok m)) w0 w ws1 ws2 s t' s'); try done.
  - intros rd [Hrd _]. by rewrite Hrd.
  - split; apply Forall_forall; intros m Hm; apply elem_of_app; [by left|by right].
Qed.
End operations.

(** ** Concrete runs *)

#[local] Existing Instance text_marshal.

(** Another task's future, of the first call, reads both answers. *)
Definition crowded : list turn :=
  [MkTurn [AArrive (Ok (reply_to 2 TReply)); AArrive (Ok (reply_to 1 TError)); APoll 0] (Ok ())].

Definition first_turn : turn := MkTurn [ACall call_out true] (Ok ()).

Lemma call_completes_witness :
  ∃ s2, resumed true map_to_list (Running (Call call_out (λ msg, Ret (Ok msg))))
    (first_turn :: crowded ++ [alone; alone; alone]) rpc_new (λ msg, Ret (Ok msg)) (reply_to 2 TReply) s2.
Proof.
  destruct (Rpc.run true map_to_list rpc_new (others first_turn)) as [s1|] eqn:Hr;
    [|vm_compute in Hr; discriminate Hr].
  destruct (exec true map_to_list (Running (Call call_out (λ msg, Ret (Ok msg))))
    (first_turn :: crowded ++ [alone; alone; alone]) rpc_new) as [[t' s']|] eqn:He;
    [|vm_compute in He; discriminate He].
  refine (call_completes true map_to_list (λ msg, Ret (Ok msg)) call_out first_turn crowded
    [alone; alone; alone] 0 rpc_new s1 (reply_to 2 TReply) t' s' rpc_new_ok _ _ _ Hr _ He _ _).
  - by vm_compute.
  - reflexivity.
  - repeat first [apply List.Forall_nil | apply List.Forall_cons; [reflexivity|]].
  - vm_compute in Hr. injection Hr as <-.
    repeat first [apply List.Forall_nil | apply List.Forall_cons; [by eexists|]].
  - vm_compute in Hr. injection Hr as <-. vm_compute. reflexivity.
  - vm_compute in Hr. injection Hr as <-. vm_compute. lia.
Defined.

Definition with_interface : RpcConn :=
  set_recv_data rpc_new (set_sig_matches (recv_data rpc_new) [by_interface]).

Lemma with_interface_route : signal_route by_interface 0 changed (recv_data with_interface).
Proof. split; [by vm_compute|]. split; [done|]. exists [], by_interface, []. by split_and!. Qed.

(** A future that waits for a reply reads the signal. *)
Definition reader : turn := MkTurn [ACall call_out true; AArrive (Ok changed); APoll 0] (Ok ()).

Lemma reader_quiet :
  Forall (quiet true map_to_list (signal_route by_interface 0 changed) 0 changed)
    (alone :: reader :: [] ++ [alone; alone]).
Proof.
  pose proof (signal_route_route true map_to_list by_interface 0 changed eq_refl) as HR.
  repeat first [apply List.Forall_nil | apply List.Forall_cons]; (split; [reflexivity|]); cbn [others];
    repeat first [apply List.Forall_nil | apply List.Forall_cons];
    (apply leaves_plain; [exact HR|reflexivity|reflexivity|by intros rd _ []]).
Qed.

Lemma get_signal_completes_witness :
  ∃ m s2, resumed true map_to_list (Running (get_signal by_interface))
      (alone :: reader :: [] ++ [alone; alone]) with_interface (λ m, Ret (Ok m)) m s2 ∧ m = changed.
Proof.
  destruct (exec true map_to_list (Running (get_signal by_interface))
    (alone :: reader :: [] ++ [alone; alone]) with_interface) as [[t' s']|] eqn:He;
    [|vm_compute in He; discriminate He].
  destruct (get_signal_completes true map_to_list by_interface 0 changed alone reader [] [alone; alone]
    with_interface t' s' with_interface_route reader_quiet) as (m & s2 & Hr & Hm).
  - repeat first [apply List.Forall_nil | apply List.Forall_cons; [by eexists|]].
  - vm_compute. left.
  - exact He.
  - vm_compute. lia.
  - exists m, s2. split; [exact Hr|]. cbn in Hm. by apply list_elem_of_singleton in Hm.
Defined.
