(* ===== verification/Wakeup.v ===== *)
(** * lib.rs: who is woken in [get_msg]

    [RpcConn::get_msg] with its points of interruption.  A task polls the future of its own
    message once; then it repeats: wait until the socket is readable, then take either its
    own message, if that is in its channel, or the lock, under which it sorts what can be
    read and, when there is nothing more, clears the readiness of the socket.  While it
    waits for the socket it does not look at its channel.  So a message that another task
    puts there wakes it only together with the socket.

    Here: on one thread, and as long as the replies [get_msg] sends itself go out at once,
    that is enough, and no task sleeps on a message; with a second thread, or while such a
    reply waits for the socket to become writable, a task can sleep on its message until
    the next one arrives. *)

From S2P Require Import Prelude Utils Body StdPath ObjPath Message Hierarchy Order MatchRule Rpc Client Queues Progress.
From Stdlib Require Import Lia.

(** ** The socket as tokio presents it

    [AsyncFd]: [fd_ready] is the readiness it has seen and not cleared; a task that waits
    is woken by the next event ([fd_woken]).  A guard is current while no event came since
    it was made. *)
Class AsyncFd := {
  Fd : Type;
  Guard : Type;
  fd_ready : Fd → bool;
  fd_woken : Fd → nat → bool;
  fd_current : Fd → Guard → bool;
  (** A new [readable()] of a task polled, and one that waits polled again. *)
  readable : Fd → nat → option Guard * Fd;
  readable_again : Fd → nat → option Guard * Fd;
  clear_ready : Fd → Guard → Fd;
  (** The driver reports that the socket became readable. *)
  io_event : Fd → Fd;
}.

(** What the documentation of tokio says of them. *)
Class AsyncFdLaws `{AsyncFd} : Prop := {
  readable_ready f i : fd_ready f = true →
    ∃ g f', readable f i = (Some g, f') ∧ fd_ready f' = true ∧ fd_current f' g = true ∧
      ∀ j, j ≠ i → fd_woken f' j = fd_woken f j;
  readable_waits f i : fd_ready f = false →
    ∃ f', readable f i = (None, f') ∧ fd_ready f' = false ∧ fd_woken f' i = false ∧
      ∀ j, j ≠ i → fd_woken f' j = fd_woken f j;
  again_woken f i : fd_woken f i = true →
    ∃ g f', readable_again f i = (Some g, f') ∧ fd_ready f' = fd_ready f ∧ fd_current f' g = true ∧
      ∀ j, j ≠ i → fd_woken f' j = fd_woken f j;
  again_waits f i : fd_woken f i = false → readable_again f i = (None, f);
  clear_ready_spec f g : fd_ready (clear_ready f g) = fd_ready f && negb (fd_current f g) ∧
    ∀ j, fd_woken (clear_ready f g) j = fd_woken f j;
  io_event_spec f : fd_ready (io_event f) = true ∧ ∀ j, fd_woken (io_event f) j = true;
}.

(** ** Tasks *)

(** What a task waits for: the answer of its call, or the next message of a queue. *)
Inductive waiter :=
| WCall (ch : nat) (idx : N)
| WQueue (q : queue) (open : RecvData → bool) (pred : predicate).

(** The closure it sorts with. *)
Definition waiter_pred (x : waiter) : predicate :=
  match x with WCall _ idx => res_pred idx | WQueue _ _ pred => pred end.

(** [msg_fut] polled: the one-shot channel of a call must not be closed. *)
Definition msg_fut (x : waiter) (rd : RecvData) : option (io_result MarshalledMessage * RecvData) :=
  match x with
  | WCall ch idx =>
      match oneshots rd !! ch with
      | Some msg => Some (Ok msg, rd)
      | None => if decide (reply_map rd !! idx = Some ch) then None else Some (Panic, rd)
      end
  | WQueue q open _ => poll_queue rd q open
  end.

Section wakeup.
Context `{BasicMarshal} (dbg : bool)
  (hash_iter : gmap bytes CallHierarchy → list (bytes * CallHierarchy)).
Context `{AsyncFd}.

(** Where a task is: before [poll_once]; before [readable()]; in it; in the [select!], with
    the guard; behind a [queue_msg] that read everything, with the lock; in the sending of
    a reply; at the end. *)
Inductive pc :=
| PFresh
| PToReadable
| PWaiting
| PGuarded (g : Guard)
| PClearing (g : Guard)
| PSending (reply : MarshalledMessage)
| PDone (r : io_result MarshalledMessage).

(** [w_edge]: the socket became readable, and the driver has not reported it yet. *)
Record world := MkWorld {
  w_fd : Fd;
  w_edge : bool;
  w_rd : RecvData;
  w_tasks : list (waiter * pc);
}.

(** Task [i] goes on to [p]. *)
Definition goto (w : world) (i : nat) (x : waiter) (p : pc) : world :=
  MkWorld (w_fd w) (w_edge w) (w_rd w) (<[i := (x, p)]> (w_tasks w)).
Definition set_fd (w : world) (f : Fd) : world := MkWorld f (w_edge w) (w_rd w) (w_tasks w).
Definition set_rd (w : world) (rd : RecvData) : world :=
  MkWorld (w_fd w) (w_edge w) rd (w_tasks w).

(** The lock of [recv_data] is held between two steps only before [clear_ready]. *)
Definition locked_by (t : waiter * pc) : bool := match t.2 with PClearing _ => true | _ => false end.
Definition lock_held (w : world) : bool := existsb locked_by (w_tasks w).

(** [self.conn.readable().await?], begun or polled again. *)
Definition await_readable (w : world) (i : nat) (x : waiter) (r : option Guard * Fd) : world :=
  let '(g, f) := r in
  goto (set_fd w f) i x (match g with Some g => PGuarded g | None => PWaiting end).

(** The [match] on [queue_msg] under the lock. *)
Definition after_queue (w : world) (i : nat) (x : waiter) (g : Guard)
    (r : io_result (MarshalledMessage * bool) * RecvData) : option world :=
  let '(r, rd) := r in
  let w := set_rd w rd in
  match r with
  | Err WouldBlock => Some (goto w i x (PClearing g))
  | Err e => Some (goto w i x (PDone (Err e)))
  | Ok (msg, false) => Some (goto w i x (PDone (Ok msg)))
  | Ok (msg, true) => Some (goto w i x (PSending msg))
  | Panic => None
  end.

(** A task runs to the next point at which others can be seen; [None] is a panic.  A send
    that waits, a lock that is held, and a task that is done stay where they are. *)
Definition poll_task (w : world) (i : nat) : option world :=
  match w_tasks w !! i with
  | None => Some w
  | Some (x, PFresh) =>
      match msg_fut x (w_rd w) with
      | Some (r, rd) => Some (goto (set_rd w rd) i x (PDone r))
      | None => Some (goto w i x PToReadable)
      end
  | Some (x, PToReadable) => Some (await_readable w i x (readable (w_fd w) i))
  | Some (x, PWaiting) => Some (await_readable w i x (readable_again (w_fd w) i))
  | Some (x, PGuarded g) =>
      match msg_fut x (w_rd w) with
      | Some (r, rd) => Some (goto (set_rd w rd) i x (PDone r))
      | None =>
          if lock_held w then Some w else
          after_queue w i x g (queue_msg dbg hash_iter (inbox (w_rd w)) (waiter_pred x) (w_rd w))
      end
  | Some (x, PClearing g) => Some (goto (set_fd w (clear_ready (w_fd w) g)) i x PToReadable)
  | Some (_, PSending _) | Some (_, PDone _) => Some w
  end.

(** What happens: a task is polled, the sending of its reply ends, data arrives, and the
    driver reports it. *)
Inductive happening :=
| HPoll (i : nat)
| HSent (i : nat) (r : io_result unit)
| HArrive (r : io_result MarshalledMessage)
| HReport.

Definition happen (w : world) (h : happening) : option world :=
  match h with
  | HPoll i => poll_task w i
  | HSent i r =>
      match w_tasks w !! i with
      | Some (x, PSending _) =>
          match r with
          | Ok _ => Some (goto w i x PToReadable)
          | Err e => Some (goto w i x (PDone (Err e)))
          | Panic => None
          end
      | _ => Some w
      end
  | HArrive r =>
      Some (MkWorld (w_fd w) true (set_inbox (w_rd w) (inbox (w_rd w) ++ [r])) (w_tasks w))
  | HReport =>
      Some (if w_edge w then MkWorld (io_event (w_fd w)) false (w_rd w) (w_tasks w) else w)
  end.

Fixpoint happens (w : world) (l : list happening) : option world :=
  match l with
  | [] => Some w
  | h :: l' => w' ← happen w h; happens w' l'
  end.
End wakeup.

Arguments PFresh {_}.
Arguments PToReadable {_}.
Arguments PWaiting {_}.
Arguments PGuarded {_} g.
Arguments PClearing {_} g.
Arguments PSending {_} reply.
Arguments PDone {_} r.

(** ** Asleep *)

Section lost.
Context `{BasicMarshal} (dbg : bool)
  (hash_iter : gmap bytes CallHierarchy → list (bytes * CallHierarchy)).
Context `{!AsyncFd} `{!AsyncFdLaws}.

#[local] Abbreviation happens := (happens dbg hash_iter).

(** The task waits for the socket, which is not ready and has nothing to report. *)
Definition asleep (w : world) (i : nat) (x : waiter) : Prop :=
  w_tasks w !! i = Some (x, PWaiting) ∧ fd_woken (w_fd w) i = false ∧
  fd_ready (w_fd w) = false ∧ w_edge w = false.

Definition is_arrival (h : happening) : bool := match h with HArrive _ => true | _ => false end.

(** Another task goes on, without an event. *)
Lemma asleep_goto w i x j y p f rd :
  i ≠ j → asleep w i x → fd_ready f = false → fd_woken f i = false →
  asleep (goto (set_rd (set_fd w f) rd) j y p) i x.
Proof.
  intros Hij (Ht & _ & _ & He) Hr Hw. split_and!; try done. cbn. by rewrite list_lookup_insert_ne.
Qed.

Lemma asleep_poll w i x j w' :
  asleep w i x → poll_task dbg hash_iter w j = Some w' → asleep w' i x.
Proof.
  intros Has Hp. pose proof Has as (Ht & Hw & Hr & He).
  assert (∀ y p rd, i ≠ j → asleep (goto (set_rd w rd) j y p) i x) as Hgo.
  { intros y p rd Hij. pose proof (asleep_goto w i x j y p (w_fd w) rd Hij Has Hr Hw) as Hg. by destruct w. }
  unfold poll_task in Hp. destruct (w_tasks w !! j) as [[y p]|] eqn:Hj; [|by injection Hp as <-].
  destruct (decide (i = j)) as [<-|Hij].
  { rewrite Ht in Hj. injection Hj as <- <-. injection Hp as <-. rewrite again_waits by done.
    split_and!; try done. cbn. by rewrite list_lookup_insert_eq by (by eapply lookup_lt_Some). }
  destruct p as [| | |g|g|reply|r].
  - destruct (msg_fut y (w_rd w)) as [[r rd]|]; injection Hp as <-; [by apply Hgo|].
    specialize (Hgo y PToReadable (w_rd w) Hij). by destruct w.
  - injection Hp as <-. destruct (readable_waits (w_fd w) j Hr) as (f' & -> & Hr' & _ & Hw').
    pose proof (asleep_goto w i x j y PWaiting f' (w_rd w) Hij Has Hr') as Hg. rewrite Hw' in Hg by done.
    specialize (Hg Hw). by destruct w.
  - injection Hp as <-. destruct (fd_woken (w_fd w) j) eqn:Hwj.
    + destruct (again_woken (w_fd w) j Hwj) as (g & f' & -> & Hr' & _ & Hw'). rewrite Hr in Hr'.
      pose proof (asleep_goto w i x j y (PGuarded g) f' (w_rd w) Hij Has Hr') as Hg. rewrite Hw' in Hg by done.
      specialize (Hg Hw). by destruct w.
    + rewrite again_waits by done.
      pose proof (asleep_goto w i x j y PWaiting (w_fd w) (w_rd w) Hij Has Hr Hw) as Hg. by destruct w.
  - destruct (msg_fut y (w_rd w)) as [[r rd]|]; [injection Hp as <-; by apply Hgo|].
    destruct (lock_held w); [by injection Hp as <-|]. unfold after_queue in Hp.
    destruct (queue_msg _ _ _ _ _) as [[[msg [|]]|e|] rd]; [| |destruct e|done];
      injection Hp as <-; by apply Hgo.
  - injection Hp as <-. destruct (clear_ready_spec (w_fd w) g) as [Hr' Hw']. rewrite Hr in Hr'.
    pose proof (asleep_goto w i x j y PToReadable (clear_ready (w_fd w) g) (w_rd w) Hij Has Hr') as Hg.
    rewrite Hw' in Hg. specialize (Hg Hw). by destruct w.
  - by injection Hp as <-.
  - by injection Hp as <-.
Qed.

(** Nothing but new data wakes it. *)
Lemma asleep_stays w i x l w' :
  asleep w i x → existsb is_arrival l = false → happens w l = Some w' → asleep w' i x.
Proof.
  revert w. induction l as [|h l IH]; intros w Has; cbn [existsb Wakeup.happens]; [by intros _ [= <-]|].
  intros [Hh Hl]%orb_false_iff. destruct (happen _ _ w h) as [w1|] eqn:Hw; [|done].
  cbn [mbind option_bind]. apply IH; [|done]. clear IH.
  destruct h as [j|j r|r|]; cbn [happen] in Hw; [by eapply asleep_poll| |done|].
  - pose proof Has as (Ht & Hwk & Hr & He).
    destruct (w_tasks w !! j) as [[y p]|] eqn:Hj; [|by injection Hw as <-].
    destruct p as [| | |g|g|reply|r0]; try (by injection Hw as <-).
    assert (i ≠ j) as Hij by (intros <-; congruence).
    destruct r as [?|e|]; [| |done]; injection Hw as <-; split_and!; try done; cbn;
      by rewrite list_lookup_insert_ne.
  - injection Hw as <-. destruct Has as (Ht & Hwk & Hr & He). rewrite He. by split_and!.
Qed.

(** [queue_msg] of a task on one message that answers the call of another. *)
Lemma queue_msg_other rd pred msg ch idx :
  inbox rd = [Ok msg] → pred msg (hierarchy rd) = Ok false → is_answer idx msg →
  reply_map rd !! idx = Some ch →
  ∃ rd', queue_msg dbg hash_iter (inbox rd) pred rd = (Err WouldBlock, rd') ∧
    oneshots rd' !! ch = Some msg ∧ inbox rd' = [].
Proof.
  intros Hi Hp [Ht Hs] Hm. rewrite Hi. cbn [queue_msg take_msg hierarchy]. rewrite Hp.
  assert (sort_msg dbg hash_iter (take_msg rd [] msg) msg =
    Ok (set_oneshots (set_reply_map (take_msg rd [] msg) (delete idx (reply_map rd)))
          (<[ch := msg]> (oneshots rd)))) as ->.
  { unfold sort_msg. destruct Ht as [-> | ->]; rewrite Hs; cbn; by rewrite Hm. }
  eexists. split; [done|]. cbn. by rewrite lookup_insert_eq.
Qed.

(** C38: a task can sleep on its answer.  Task [i] has found its channel empty and goes on
    to wait for the socket, or is still sending a reply; meanwhile task [j], in its
    [select!] with a current guard, reads the answer of [i], puts it into the channel,
    finds nothing more and clears the readiness.  Then [i] waits for the socket with its
    answer in its channel, and whatever the tasks and the driver do, it goes on waiting
    until new data arrives. *)
Theorem wakeup_lost w i j ch idx p y g msg :
  i ≠ j → w_tasks w !! i = Some (WCall ch idx, p) → p = PToReadable ∨ (∃ reply, p = PSending reply) →
  reply_map (w_rd w) !! idx = Some ch →
  w_tasks w !! j = Some (y, PGuarded g) → fd_current (w_fd w) g = true → lock_held w = false →
  w_edge w = false → msg_fut y (w_rd w) = None → inbox (w_rd w) = [Ok msg] →
  waiter_pred y msg (hierarchy (w_rd w)) = Ok false → is_answer idx msg →
  ∃ w', happens w [HPoll j; HPoll j; HSent i (Ok ()); HPoll i] = Some w' ∧
    msg_fut (WCall ch idx) (w_rd w') = Some (Ok msg, w_rd w') ∧
    ∀ l w'', existsb is_arrival l = false → happens w' l = Some w'' →
      w_tasks w'' !! i = Some (WCall ch idx, PWaiting).
Proof.
  intros Hij Hti Hp Hm Htj Hcur Hlock Hedge Hfut Hin Hpred Hans.
  destruct (queue_msg_other _ _ msg ch idx Hin Hpred Hans Hm) as (rd' & Hq & Ho & _).
  destruct (clear_ready_spec (w_fd w) g) as [Hr _]. rewrite Hcur, andb_false_r in Hr.
  destruct (readable_waits (clear_ready (w_fd w) g) i Hr) as (f' & Hread & Hr' & Hw' & _).
  set (w1 := goto (set_rd w rd') j y (PClearing g)).
  set (w2 := goto (set_fd w1 (clear_ready (w_fd w) g)) j y PToReadable).
  assert (happens w [HPoll j; HPoll j] = Some w2) as H2.
  { assert (poll_task dbg hash_iter w j = Some w1) as Hs1
      by (unfold poll_task; rewrite Htj, Hfut, Hlock, Hq; done).
    assert (poll_task dbg hash_iter w1 j = Some w2) as Hs2.
    { unfold poll_task. cbn [w1 goto set_rd w_tasks w_fd].
      by rewrite list_lookup_insert_eq by (by eapply lookup_lt_Some). }
    cbn [Wakeup.happens happen]. rewrite Hs1. cbn [mbind option_bind]. by rewrite Hs2. }
  assert (w_tasks w2 !! i = Some (WCall ch idx, p)) as Hti2
    by (cbn; by rewrite !list_lookup_insert_ne).
  set (w3 := match p with PSending _ => goto w2 i (WCall ch idx) PToReadable | _ => w2 end).
  assert (happens w2 [HSent i (Ok ())] = Some w3 ∧ w_tasks w3 !! i = Some (WCall ch idx, PToReadable) ∧
    w_fd w3 = clear_ready (w_fd w) g ∧ w_rd w3 = rd' ∧ w_edge w3 = false) as (H3 & Ht3 & Hf3 & Hrd3 & He3).
  { cbn [Wakeup.happens happen]. rewrite Hti2. destruct Hp as [-> |[reply ->]]; [by split_and!|].
    split; [done|]. split; [|by split_and!]. cbn -[insert].
    rewrite list_lookup_insert_eq; [done|]. by eapply lookup_lt_Some. }
  set (w4 := goto (set_fd w3 f') i (WCall ch idx) PWaiting).
  assert (happens w3 [HPoll i] = Some w4) as H4.
  { cbn [Wakeup.happens happen]. unfold poll_task. rewrite Ht3, Hf3, Hread. done. }
  exists w4. split_and!.
  - cbn [Wakeup.happens] in H2, H3, H4 |- *.
    destruct (happen _ _ w (HPoll j)) as [wa|]; [|done]. cbn [mbind option_bind] in *.
    destruct (happen _ _ wa (HPoll j)) as [wb|]; [|done]. cbn [mbind option_bind] in *.
    injection H2 as ->. destruct (happen _ _ w2 (HSent i (Ok ()))) as [wc|]; [|done].
    cbn [mbind option_bind] in *. injection H3 as ->. done.
  - unfold msg_fut. cbn [w4 goto set_fd w_rd]. by rewrite Hrd3, Ho.
  - intros l w'' Hl Hrun. apply (asleep_stays w4 i (WCall ch idx) l w''); [|done..].
    split_and!; [|done..]. cbn. by rewrite list_lookup_insert_eq by (by eapply lookup_lt_Some).
Qed.
End lost.

(** ** On one thread *)

Section one_thread.
Context `{BasicMarshal} (dbg : bool)
  (hash_iter : gmap bytes CallHierarchy → list (bytes * CallHierarchy)).
Context `{!AsyncFd} `{!AsyncFdLaws}.

(** Where a task lets others run, if its replies go out at once. *)
Definition settled (p : pc) : bool :=
  match p with PFresh | PWaiting | PDone _ => true | _ => false end.

Definition others_settled (w : world) (i : nat) : Prop :=
  ∀ j x p, j ≠ i → w_tasks w !! j = Some (x, p) → settled p = true.

(** What can happen next on one thread: a task goes on until it is settled, and the driver
    runs between the tasks.  Data may arrive at any time. *)
Definition allowed (w : world) (h : happening) : Prop :=
  match h with
  | HPoll i | HSent i _ => others_settled w i
  | HArrive r => r ≠ Err WouldBlock
  | HReport => ∀ i x p, w_tasks w !! i = Some (x, p) → settled p = true
  end.

Inductive one_thread : world → list happening → world → Prop :=
| one_thread_nil w : one_thread w [] w
| one_thread_cons w h w1 l w2 :
    allowed w h → happen dbg hash_iter w h = Some w1 → one_thread w1 l w2 → one_thread w (h :: l) w2.

(** The rules and paths stay as they are. *)
Definition same_rules (rd rd' : RecvData) : Prop :=
  sig_matches rd' = sig_matches rd ∧ hierarchy rd' = hierarchy rd.

(** A channel has one call. *)
Definition unique_senders (rd : RecvData) : Prop :=
  ∀ i j ch, reply_map rd !! i = Some ch → reply_map rd !! j = Some ch → i = j.

(** A task takes with its closure whatever the sorting would put into its own queue, which
    is open as long as the rules and paths stay. *)
Definition selective (rd0 : RecvData) (x : waiter) : Prop :=
  match x with
  | WCall _ _ => True
  | WQueue q open pred =>
      (∀ msg h, pred msg h ≠ Err WouldBlock) ∧
      (∀ rd rd', same_rules rd rd' → open rd = open rd') ∧
      ∀ rd msg rd', same_rules rd0 rd → pred msg (hierarchy rd) = Ok false →
        sort_msg dbg hash_iter rd msg = Ok rd' → queued q rd' = queued q rd
  end.

Lemma same_rules_trans rd1 rd2 rd3 : same_rules rd1 rd2 → same_rules rd2 rd3 → same_rules rd1 rd3.
Proof. unfold same_rules. intros [? ?] [? ?]. split; congruence. Qed.

Lemma sort_msg_rules rd msg rd' : sort_msg dbg hash_iter rd msg = Ok rd' → same_rules rd rd'.
Proof. intros Hs. by destruct (sort_msg_reading dbg hash_iter _ _ _ Hs) as (? & ? & _). Qed.

(** Nothing is ready for a waiter, in terms of the state. *)
Lemma msg_fut_none x rd :
  msg_fut x rd = None ↔
  match x with
  | WCall ch idx => oneshots rd !! ch = None ∧ reply_map rd !! idx = Some ch
  | WQueue q open _ => queued q rd = [] ∧ open rd = true
  end.
Proof.
  destruct x as [ch idx|q open pred]; cbn.
  - destruct (oneshots rd !! ch); [split; [done|by intros [? _]]|].
    destruct (decide _); split; [done..|by intros [_ ?]].
  - unfold poll_queue, take_queued, queued. destruct (chans rd !! q) as [[|m l]|]; cbn;
      [|split; [done|by intros [? _]]|]; destruct (open rd); split; try done; by intros [_ ?].
Qed.

(** It only depends on the channels and the rules. *)
Lemma msg_fut_same rd0 x rd rd' :
  selective rd0 x → same_rules rd rd' → chans rd' = chans rd → oneshots rd' = oneshots rd →
  reply_map rd' = reply_map rd → msg_fut x rd = None → msg_fut x rd' = None.
Proof.
  intros Hx Hr Hc Ho Hm. rewrite !msg_fut_none. destruct x as [ch idx|q open pred]; [by rewrite Ho, Hm|].
  unfold queued. rewrite Hc. destruct Hx as (_ & Hopen & _). by rewrite (Hopen rd rd' Hr).
Qed.

(** A message its own closure refuses goes elsewhere. *)
Lemma sort_msg_elsewhere rd0 x rd msg rd' :
  selective rd0 x → same_rules rd0 rd → unique_senders rd →
  waiter_pred x msg (hierarchy rd) = Ok false → sort_msg dbg hash_iter rd msg = Ok rd' →
  msg_fut x rd = None → msg_fut x rd' = None.
Proof.
  intros Hx Hr0 Hu Hp Hs. rewrite !msg_fut_none.
  destruct x as [ch idx|q open pred]; cbn in Hp.
  - intros [Ho Hm]. apply res_pred_false in Hp.
    split; [|by eapply (sort_msg_keeps dbg hash_iter)].
    unfold sort_msg in Hs. destruct (typ msg) eqn:Ht; [done| | | |].
    2, 3: destruct (response_serial (dynheader msg)) as [i|] eqn:Hi; cbn in Hs; [|done];
      destruct (reply_map rd !! i) as [c|] eqn:Hc; injection Hs as <-; [|done]; cbn;
      rewrite lookup_insert_ne; [done|]; intros ->;
      apply Hp; rewrite (Hu idx i ch Hm Hc); split; [auto|done].
    + destruct (send _ _ _ _ _); cbn in Hs; [|done..]. by injection Hs as <-.
    + destruct (queue_sig _ _ _); cbn in Hs; [|done..]. by injection Hs as <-.
  - intros [Hq Ho]. destruct Hx as (_ & Hopen & Hsort).
    rewrite (Hsort rd msg rd' Hr0 Hp Hs). split; [done|].
    rewrite <- (Hopen rd rd'); [done|]. by eapply sort_msg_rules.
Qed.

Lemma sort_msg_senders rd msg rd' :
  sort_msg dbg hash_iter rd msg = Ok rd' → unique_senders rd → unique_senders rd'.
Proof.
  unfold sort_msg. intros Hs Hu. destruct (typ msg); [done| | | |].
  2, 3: destruct (response_serial (dynheader msg)) as [i|]; cbn in Hs; [|done];
    destruct (reply_map rd !! i); injection Hs as <-; [|done]; unfold unique_senders; cbn;
    intros a b c [_ Ha]%lookup_delete_Some [_ Hb]%lookup_delete_Some; by eapply Hu.
  - destruct (send _ _ _ _ _); cbn in Hs; [|done..]. by injection Hs as <-.
  - destruct (queue_sig _ _ _); cbn in Hs; [|done..]. by injection Hs as <-.
Qed.

Lemma waiter_pred_err rd0 x msg h : selective rd0 x → waiter_pred x msg h ≠ Err WouldBlock.
Proof. destruct x as [ch idx|q open pred]; [intros _; apply res_pred_no_err|by intros (? & _)]. Qed.

(** A run of [queue_msg] of a task: it ends without a message only when it read
    everything, and then nothing is in the task's own channel. *)
Lemma queue_msg_awake rd0 x l rd r rd' :
  queue_msg dbg hash_iter l (waiter_pred x) rd = (r, rd') → r ≠ Panic →
  selective rd0 x → same_rules rd0 rd → unique_senders rd → Err WouldBlock ∉ l →
  same_rules rd0 rd' ∧ unique_senders rd' ∧ Err WouldBlock ∉ inbox rd' ∧
  (r = Err WouldBlock → inbox rd' = []) ∧
  (msg_fut x rd = None → match r with Ok (_, true) | Err WouldBlock => msg_fut x rd' = None | _ => True end).
Proof.
  intros Hq Hr Hx. revert rd Hq. induction l as [|[msg|er|] l IH]; intros rd; cbn [queue_msg].
  - intros [= <- <-] Hr0 Hu _. split_and!; [done|done|apply not_elem_of_nil|done|].
    intros Hm. by apply (msg_fut_same rd0 x rd (set_inbox rd [])).
  - intros Hq Hr0 Hu Hcalm. assert (Err WouldBlock ∉ l) as Hcalm' by set_solver.
    assert (msg_fut x rd = None → msg_fut x (take_msg rd l msg) = None) as Htake
      by (by apply (msg_fut_same rd0 x rd (take_msg rd l msg))).
    destruct (waiter_pred x msg _) as [[|]|er|] eqn:Hp; cbn [take_msg hierarchy] in Hp.
    + injection Hq as <- <-. by split_and!.
    + destruct (sort_msg _ _ _ msg) as [rd1|reply|] eqn:Hs; [|injection Hq as <- <-; by split_and!|].
      2: { by injection Hq as <- <-. }
      assert (same_rules rd0 rd1) as Hr1.
      { apply (same_rules_trans rd0 (take_msg rd l msg)); [done|]. by eapply sort_msg_rules. }
      assert (unique_senders rd1) as Hu1 by (by eapply sort_msg_senders).
      destruct (IH rd1 Hq Hr1 Hu1 Hcalm') as (? & ? & ? & ? & Hidle). split_and!; [done..|].
      intros Hm. apply Hidle. by eapply (sort_msg_elsewhere rd0 x (take_msg rd l msg) msg); [..|apply Htake].
    + injection Hq as <- <-. split_and!; [done..| |].
      * intros [= ->]. by eapply waiter_pred_err in Hp.
      * intros _. destruct er; try done. by eapply waiter_pred_err in Hp.
    + by injection Hq as <- <-.
  - intros [= <- <-] Hr0 Hu Hcalm. assert (er ≠ WouldBlock) as Hne by (intros ->; apply Hcalm; by left).
    split_and!; [done|done|cbn; set_solver|congruence|]. intros _. by destruct er.
  - by intros [= <- <-].
Qed.

(** A message another task takes from its channel is none of this one. *)
Lemma msg_fut_other rd0 x y rd r rd' :
  selective rd0 x → msg_fut y rd = Some (r, rd') → msg_fut x rd = None →
  same_rules rd rd' ∧ inbox rd' = inbox rd ∧ reply_map rd' = reply_map rd ∧ msg_fut x rd' = None.
Proof.
  intros Hx Hy Hm. destruct y as [ch idx|q open pred]; cbn in Hy.
  - assert (rd' = rd) as ->; [|by split_and!].
    destruct (oneshots rd !! ch); [by injection Hy|]. by destruct (decide _); [|injection Hy].
  - unfold poll_queue, take_queued in Hy. destruct (chans rd !! q) as [[|m l]|] eqn:Hq;
      [destruct (open rd); [done|]; injection Hy as _ <-; by split_and!| |
       destruct (open rd); [done|]; injection Hy as _ <-; by split_and!].
    injection Hy as _ <-. split_and!; [done..|]. rewrite msg_fut_none in *.
    destruct x as [ch idx|q' open' pred']; [done|]. destruct Hm as [Hm Ho]. destruct Hx as (_ & Hopen & _).
    rewrite <- (Hopen rd) by done. split; [|done]. unfold queued in *. cbn.
    rewrite lookup_insert_ne; [done|]. intros ->. by rewrite Hq in Hm.
Qed.

(** ** Nobody sleeps on a message *)

(** Between two steps, on one thread. *)
Record awake (rd0 : RecvData) (w : world) : Prop := {
  aw_selective i x p : w_tasks w !! i = Some (x, p) → selective rd0 x;
  aw_rules : same_rules rd0 (w_rd w);
  aw_senders : unique_senders (w_rd w);
  aw_calm : Err WouldBlock ∉ inbox (w_rd w);
  (** What can be read is known, or about to be reported. *)
  aw_edge : inbox (w_rd w) ≠ [] → w_edge w = true ∨ fd_ready (w_fd w) = true;
  (** Readiness was reported to everybody who waits. *)
  aw_ready i x : fd_ready (w_fd w) = true → w_tasks w !! i = Some (x, PWaiting) →
    fd_woken (w_fd w) i = true;
  (** So was what is in the channels. *)
  aw_fut i x : w_tasks w !! i = Some (x, PWaiting) → msg_fut x (w_rd w) ≠ None →
    fd_woken (w_fd w) i = true ∨ w_edge w = true;
  aw_clear i x g : w_tasks w !! i = Some (x, PClearing g) → inbox (w_rd w) ≠ [] → w_edge w = true;
  aw_idle i x p : w_tasks w !! i = Some (x, p) →
    match p with PToReadable | PClearing _ | PSending _ => msg_fut x (w_rd w) = None | _ => True end;
}.

(** One task goes on while the others are settled. *)
Lemma awake_goto rd0 w i x p0 p f rd :
  awake rd0 w → others_settled w i → w_tasks w !! i = Some (x, p0) →
  same_rules rd0 rd → unique_senders rd → Err WouldBlock ∉ inbox rd →
  (inbox rd ≠ [] → w_edge w = true ∨ fd_ready f = true) →
  (∀ j, j ≠ i → fd_woken f j = fd_woken (w_fd w) j) →
  (fd_ready f = true → fd_ready (w_fd w) = true) →
  (∀ j y, j ≠ i → w_tasks w !! j = Some (y, PWaiting) → msg_fut y rd ≠ None →
     msg_fut y (w_rd w) ≠ None ∨ inbox (w_rd w) ≠ []) →
  match p with
  | PWaiting => (fd_ready f = true → fd_woken f i = true) ∧
      (msg_fut x rd ≠ None → fd_woken f i = true ∨ w_edge w = true)
  | PClearing _ => (inbox rd ≠ [] → w_edge w = true) ∧ msg_fut x rd = None
  | PToReadable | PSending _ => msg_fut x rd = None
  | _ => True
  end →
  awake rd0 (goto (set_rd (set_fd w f) rd) i x p).
Proof.
  intros Haw Hset Hi Hr Hu Hc He Hwk Hrd Hfut Hp.
  assert (∀ j t, <[i := (x, p)]> (w_tasks w) !! j = Some t →
    (j = i ∧ t = (x, p)) ∨ (j ≠ i ∧ w_tasks w !! j = Some t)) as Hcase.
  { intros j t Hj. destruct (decide (j = i)) as [->|Hne].
    - rewrite list_lookup_insert_eq in Hj by (by eapply lookup_lt_Some). left. by injection Hj as <-.
    - rewrite list_lookup_insert_ne in Hj by done. by right. }
  split; cbn; [|done|done|done|done|..].
  - intros j y q [[-> [= -> ->]]|[_ Hj]]%Hcase; by eapply aw_selective.
  - intros j y Hf [[-> [= -> <-]]|[Hne Hj]]%Hcase; [by apply Hp|].
    rewrite Hwk by done. eapply aw_ready; [done|by apply Hrd|done].
  - intros j y [[-> [= -> <-]]|[Hne Hj]]%Hcase Hm; [by apply Hp|]. rewrite Hwk by done.
    destruct (Hfut j y Hne Hj Hm) as [Hm'|Hin]; [by eapply aw_fut|].
    destruct (aw_edge _ _ Haw Hin) as [?|?]; [by right|left]. by eapply aw_ready.
  - intros j y g [[-> [= -> <-]]|[Hne Hj]]%Hcase; [by apply Hp|].
    by specialize (Hset j y _ Hne Hj).
  - intros j y q [[-> [= -> ->]]|[Hne Hj]]%Hcase; [by destruct p; try apply Hp|].
    specialize (Hset j y q Hne Hj). by destruct q.
Qed.

(** The poll of a channel. *)
Lemma awake_fut rd0 w i x p0 r rd :
  awake rd0 w → others_settled w i → w_tasks w !! i = Some (x, p0) →
  msg_fut x (w_rd w) = Some (r, rd) → awake rd0 (goto (set_rd w rd) i x (PDone r)).
Proof.
  intros Haw Hset Hi Hm.
  assert (same_rules (w_rd w) rd ∧ inbox rd = inbox (w_rd w) ∧ reply_map rd = reply_map (w_rd w))
    as (Hr & Hin & Hrm).
  { destruct x as [ch idx|q open pred]; cbn in Hm.
    - destruct (oneshots _ !! ch); [injection Hm as _ <-; by split_and!|].
      destruct (decide _); [done|]. injection Hm as _ <-; by split_and!.
    - unfold poll_queue, take_queued in Hm. destruct (chans (w_rd w) !! q) as [[|m l]|];
        [destruct (open (w_rd w)); [done|]| |destruct (open (w_rd w)); [done|]];
        injection Hm as _ <-; by split_and!. }
  apply (awake_goto rd0 w i x p0 (PDone r) (w_fd w) rd); try done.
  - eapply same_rules_trans; [apply Haw|done].
  - unfold unique_senders. rewrite Hrm. apply Haw.
  - rewrite Hin. apply Haw.
  - rewrite Hin. apply Haw.
  - intros j y _ Hj Hy. left. intros Hy0. apply Hy.
    by apply (msg_fut_other rd0 y x (w_rd w) r rd (aw_selective _ _ Haw _ _ _ Hj) Hm Hy0).
Qed.

(** A run of [queue_msg]. *)
Lemma awake_queue rd0 w i x g r rd w' :
  awake rd0 w → others_settled w i → w_tasks w !! i = Some (x, PGuarded g) →
  msg_fut x (w_rd w) = None →
  queue_msg dbg hash_iter (inbox (w_rd w)) (waiter_pred x) (w_rd w) = (r, rd) →
  after_queue w i x g (r, rd) = Some w' → awake rd0 w'.
Proof.
  intros Haw Hset Hi Hm Hq Hw'.
  assert (r ≠ Panic) as Hnp by (intros ->; done).
  destruct (queue_msg_awake rd0 x _ _ _ _ Hq Hnp (aw_selective _ _ Haw _ _ _ Hi) (aw_rules _ _ Haw)
    (aw_senders _ _ Haw) (aw_calm _ _ Haw)) as (Hr & Hu & Hc & Hempty & Hidle).
  specialize (Hidle Hm).
  destruct (queue_msg_took dbg hash_iter _ _ _ _ _ Hq Hnp) as (c & rest & Hin & Ht & _).
  assert (inbox rd ≠ [] → inbox (w_rd w) ≠ []) as Hmore.
  { rewrite (took_inbox _ _ _ _ Ht). intros Hne He. rewrite Hin in He. by apply app_nil in He as [_ ?]. }
  assert (∀ j y, j ≠ i → w_tasks w !! j = Some (y, PWaiting) → msg_fut y rd ≠ None →
    msg_fut y (w_rd w) ≠ None ∨ inbox (w_rd w) ≠ []) as Hothers.
  { intros j y _ Hj Hy. destruct (inbox (w_rd w)) as [|r0 l] eqn:Hi0; [|by right]. left. intros Hy0.
    apply Hy. cbn in Hq. injection Hq as _ <-.
    by apply (msg_fut_same rd0 y (w_rd w) (set_inbox (w_rd w) []) (aw_selective _ _ Haw _ _ _ Hj)). }
  assert (∀ p, match p with
    | PWaiting | PToReadable => False
    | PClearing _ => (inbox rd ≠ [] → w_edge w = true) ∧ msg_fut x rd = None
    | PSending _ => msg_fut x rd = None
    | _ => True
    end → awake rd0 (goto (set_rd w rd) i x p)) as Hgo.
  { intros p Hp. apply (awake_goto rd0 w i x (PGuarded g) p (w_fd w) rd); try done.
    - intros Hne. by apply (aw_edge _ _ Haw), Hmore.
    - by destruct p. }
  cbn [after_queue] in Hw'. destruct r as [[msg [|]]|er|]; [| | |done].
  - injection Hw' as <-. by apply Hgo.
  - injection Hw' as <-. by apply Hgo.
  - destruct er; injection Hw' as <-; apply Hgo; try done. split; [|done].
    by rewrite Hempty by done.
Qed.

Lemma awake_poll rd0 w i w' :
  awake rd0 w → others_settled w i → poll_task dbg hash_iter w i = Some w' → awake rd0 w'.
Proof.
  intros Haw Hset Hp. unfold poll_task in Hp.
  destruct (w_tasks w !! i) as [[x p]|] eqn:Hi; [|by injection Hp as <-].
  pose proof (aw_idle _ _ Haw _ _ _ Hi) as Hidle.
  assert (∀ f p', (inbox (w_rd w) ≠ [] → w_edge w = true ∨ fd_ready f = true) →
    (∀ j, j ≠ i → fd_woken f j = fd_woken (w_fd w) j) →
    (fd_ready f = true → fd_ready (w_fd w) = true) →
    match p' with
    | PWaiting => (fd_ready f = true → fd_woken f i = true) ∧
        (msg_fut x (w_rd w) ≠ None → fd_woken f i = true ∨ w_edge w = true)
    | PClearing _ | PSending _ => False
    | PToReadable => msg_fut x (w_rd w) = None
    | _ => True
    end → awake rd0 (goto (set_fd w f) i x p')) as Hgo.
  { intros f p' He Hwk Hrd Hp'.
    apply (awake_goto rd0 w i x p p' f (w_rd w)); try done; [apply Haw..| |by destruct p'].
    intros j y _ _ Hy. by left. }
  destruct p as [| | |g|g|reply|r].
  - destruct (msg_fut x (w_rd w)) as [[r rd]|] eqn:Hm; injection Hp as <-; [by eapply awake_fut|].
    apply (Hgo (w_fd w) PToReadable); [apply Haw|done..].
  - injection Hp as <-. destruct (fd_ready (w_fd w)) eqn:Hf.
    + destruct (readable_ready (w_fd w) i Hf) as (g & f' & -> & Hf' & _ & Hw). apply Hgo; auto.
    + destruct (readable_waits (w_fd w) i Hf) as (f' & -> & Hf' & Hwi & Hw). apply Hgo; [|done|congruence|].
      * intros Hne. destruct (aw_edge _ _ Haw Hne); [by left|congruence].
      * split; [congruence|done].
  - injection Hp as <-. destruct (fd_woken (w_fd w) i) eqn:Hwi.
    + destruct (again_woken (w_fd w) i Hwi) as (g & f' & -> & Hf' & _ & Hw).
      apply Hgo; [rewrite Hf'; apply Haw|done|congruence|done].
    + rewrite again_waits by done. apply Hgo; [apply Haw|done..|].
      split; [intros Hf; by rewrite (aw_ready _ _ Haw i x Hf Hi) in Hwi|by apply (aw_fut _ _ Haw)].
  - destruct (msg_fut x (w_rd w)) as [[r rd]|] eqn:Hm; [injection Hp as <-; by eapply awake_fut|].
    destruct (lock_held w); [by injection Hp as <-|].
    destruct (queue_msg _ _ _ _ _) as [r rd] eqn:Hq. by eapply awake_queue.
  - injection Hp as <-. destruct (clear_ready_spec (w_fd w) g) as [Hf Hw].
    apply Hgo; [|done| |done].
    + intros Hne. left. by eapply aw_clear.
    + rewrite Hf. intros [? _]%andb_true_iff. done.
  - by injection Hp as <-.
  - by injection Hp as <-.
Qed.

Lemma awake_happen rd0 w h w' :
  awake rd0 w → allowed w h → happen dbg hash_iter w h = Some w' → awake rd0 w'.
Proof.
  intros Haw Hal Hw. destruct h as [i|i r|r|]; cbn [happen allowed] in Hw, Hal.
  - by eapply awake_poll.
  - destruct (w_tasks w !! i) as [[x p]|] eqn:Hi; [|by injection Hw as <-].
    destruct p as [| | |g|g|reply|r0]; try (by injection Hw as <-).
    pose proof (aw_idle _ _ Haw _ _ _ Hi) as Hidle. cbn in Hidle.
    assert (∀ p', match p' with PToReadable | PDone _ => True | _ => False end → awake rd0 (goto w i x p')) as Hgo.
    { intros p' Hp'. apply (awake_goto rd0 w i x (PSending reply) p' (w_fd w) (w_rd w)); try done;
        [apply Haw..| |by destruct p']. intros j y _ _ Hy. by left. }
    destruct r as [?|er|]; [| |done]; injection Hw as <-; by apply Hgo.
  - injection Hw as <-. split; cbn; try apply Haw.
    + rewrite elem_of_app. intros [Hin|Hin]; [by apply Haw in Hin|].
      apply list_elem_of_singleton in Hin. congruence.
    + by left.
    + by right.
    + done.
    + intros i x p Hi. pose proof (aw_idle _ _ Haw _ _ _ Hi) as Hidle.
      pose proof (aw_selective _ _ Haw _ _ _ Hi) as Hx.
      destruct p; try done; by apply (msg_fut_same rd0 x (w_rd w)).
  - injection Hw as <-. destruct (w_edge w); [|done].
    destruct (io_event_spec (w_fd w)) as [Hr Hwk].
    split; cbn; try apply Haw; try (intros; by rewrite ?Hr, ?Hwk; auto).
    intros i x g Hi. by specialize (Hal i x _ Hi).
Qed.

(** [one_thread] as a check. *)
Definition settled_but (o : option nat) (w : world) : bool :=
  forallb (λ t : nat * (waiter * pc), bool_decide (o = Some t.1) || settled t.2.2)
    (imap (λ i t, (i, t)) (w_tasks w)).

Definition allowed_check (w : world) (h : happening) : bool :=
  match h with
  | HPoll i | HSent i _ => settled_but (Some i) w
  | HArrive r => match r with Err WouldBlock => false | _ => true end
  | HReport => settled_but None w
  end.

Fixpoint thread_check (w : world) (l : list happening) : bool :=
  match l with
  | [] => true
  | h :: l' => allowed_check w h && match happen dbg hash_iter w h with
                                    | Some w' => thread_check w' l'
                                    | None => true
                                    end
  end.

Lemma settled_but_spec o w :
  settled_but o w = true → ∀ j x p, o ≠ Some j → w_tasks w !! j = Some (x, p) → settled p = true.
Proof.
  unfold settled_but. rewrite forallb_forall. intros Hall j x p Hne Hj.
  assert ((j, (x, p)) ∈ imap (λ i t, (i, t)) (w_tasks w)) as Hin.
  { apply list_elem_of_lookup. exists j. by rewrite list_lookup_imap, Hj. }
  apply list_elem_of_In, Hall in Hin. cbn in Hin. by rewrite bool_decide_eq_false_2 in Hin.
Qed.

Lemma checked_one_thread w l w' :
  thread_check w l = true → happens dbg hash_iter w l = Some w' → one_thread w l w'.
Proof.
  revert w. induction l as [|h l IH]; intros w; cbn [thread_check happens]; [intros _ [= <-]; constructor|].
  intros [Hal Hl]%andb_true_iff. destruct (happen _ _ w h) as [w1|] eqn:Hw; [|done].
  cbn [mbind option_bind]. intros Hr. apply (one_thread_cons w h w1); [|done|by apply IH].
  destruct h as [i|i r|r|]; cbn in Hal |- *; [| |by intros ->|].
  - intros j x p Hne. apply (settled_but_spec (Some i) w Hal). congruence.
  - intros j x p Hne. apply (settled_but_spec (Some i) w Hal). congruence.
  - intros j x p. by apply (settled_but_spec None w Hal).
Qed.

(** The world before anybody was polled. *)
Record fresh_world (w : world) : Prop := {
  fw_tasks i x p : w_tasks w !! i = Some (x, p) → p = PFresh ∧ selective (w_rd w) x;
  fw_senders : unique_senders (w_rd w);
  fw_calm : Err WouldBlock ∉ inbox (w_rd w);
  fw_edge : inbox (w_rd w) ≠ [] → w_edge w = true ∨ fd_ready (w_fd w) = true;
}.

Lemma fresh_awake w : fresh_world w → awake (w_rd w) w.
Proof.
  intros Hw. pose proof (fw_tasks w Hw) as Ht. split; try apply Hw; try done.
  - intros i x _ Hi. by destruct (Ht i x _ Hi).
  - intros i x Hi. by destruct (Ht i x _ Hi).
  - intros i x g Hi. by destruct (Ht i x _ Hi).
  - intros i x p Hi. by destruct (Ht i x p Hi) as [-> _].
Qed.

Lemma one_thread_awake rd0 w l w' : one_thread w l w' → awake rd0 w → awake rd0 w'.
Proof. induction 1 as [|w h w1 l w2 Hal Hw _ IH]; [done|]. intros Haw. apply IH. by eapply awake_happen. Qed.

(** C8: on one thread nobody sleeps on a message.  Any number of tasks wait for answers
    and queues, each with a closure that takes what the sorting would put into its own
    queue; they run in any order, data arrives at any time, and the replies [get_msg]
    sends go out at once.  Whenever a task waits for the socket, all being settled, and
    there is a message in its channel, or anything to read at all, it has been woken or
    the driver is about to wake it; and with a message in its channel, its next turns end
    with that message. *)
Theorem nobody_sleeps w l w' i x :
  fresh_world w → one_thread w l w' →
  (∀ j y p, w_tasks w' !! j = Some (y, p) → settled p = true) →
  w_tasks w' !! i = Some (x, PWaiting) →
  (msg_fut x (w_rd w') ≠ None ∨ inbox (w_rd w') ≠ [] →
     fd_woken (w_fd w') i = true ∨ w_edge w' = true) ∧
  ∀ r rd, msg_fut x (w_rd w') = Some (r, rd) →
    ∃ w'', happens dbg hash_iter w' [HReport; HPoll i; HPoll i] = Some w'' ∧
      w_tasks w'' !! i = Some (x, PDone r).
Proof.
  intros Hfresh Hl Hset Hi. pose proof (one_thread_awake _ _ _ _ Hl (fresh_awake w Hfresh)) as Haw.
  assert (msg_fut x (w_rd w') ≠ None → fd_woken (w_fd w') i = true ∨ w_edge w' = true) as Hfut
    by (by apply (aw_fut _ _ Haw)).
  split.
  - intros [Hm|Hin]; [by apply Hfut|]. destruct (aw_edge _ _ Haw Hin) as [?|?]; [by right|left].
    by eapply aw_ready.
  - intros r rd Hm. cbn [happens happen mbind option_bind].
    set (w1 := if w_edge w' then MkWorld (io_event (w_fd w')) false (w_rd w') (w_tasks w') else w').
    assert (w_tasks w1 = w_tasks w' ∧ w_rd w1 = w_rd w' ∧ fd_woken (w_fd w1) i = true) as (Ht1 & Hrd1 & Hwk1).
    { unfold w1. destruct (w_edge w') eqn:He; cbn.
      - split_and!; [done..|]. apply io_event_spec.
      - split_and!; [done..|]. destruct Hfut; [by rewrite Hm|done|done]. }
    destruct (again_woken (w_fd w1) i Hwk1) as (g & f' & Hg & _).
    unfold poll_task at 2. rewrite Ht1, Hi, Hg. cbn [await_readable mbind option_bind].
    unfold poll_task. cbn -[insert msg_fut]. rewrite Ht1, Hrd1.
    rewrite list_lookup_insert_eq by (by eapply lookup_lt_Some). rewrite Hm.
    eexists. split; [done|]. cbn -[insert].
    rewrite list_lookup_insert_eq; [done|]. rewrite length_insert, Ht1. by eapply lookup_lt_Some.
Qed.

(** ** The closures of [get_signal] and [get_call] *)

Lemma selective_signal rd0 r q :
  (∀ y msg, y ∈ sig_matches rd0 → r_queue y = Some q → matches y msg = true → matches r msg = true) →
  (∀ ws h, find_inner ws (hierarchy rd0) = Some h → handler_queue h ≠ Some q) →
  selective rd0 (WQueue q (signal_open q) (sig_pred r)).
Proof.
  intros Hr Hh. split; [done|]. split; [intros rd rd' [Hs _]; unfold signal_open; by rewrite Hs|].
  intros rd msg rd' [Hs Hhi] [= Hm] Hsort. unfold sort_msg in Hsort. destruct (typ msg) eqn:Ht; [done| | | |].
  2, 3: destruct (response_serial _) as [idx|]; cbn in Hsort; [|done];
    destruct (reply_map rd !! idx); by injection Hsort as <-.
  - destruct (send _ _ _ _ _) as [c| |] eqn:Hc; cbn in Hsort; [|done..]. injection Hsort as <-.
    destruct (send_queue dbg hash_iter _ _ _ _ Hc) as (vs & q' & _ & _ & Hrec & ->).
    unfold queued. cbn. rewrite lookup_insert_ne; [done|]. intros ->. rewrite Hhi in Hrec.
    by destruct Hrec as [[p (_ & Hf & _)]|(_ & Hf & _)]; destruct (Hh _ _ Hf).
  - destruct (queue_sig _ _ _) as [c| |] eqn:Hc; cbn in Hsort; [|done..]. injection Hsort as <-.
    unfold queued. cbn. f_equal. rewrite Hs in Hc. clear Ht Hs Hhi Hh. revert Hr Hc.
    induction (sig_matches rd0) as [|y l IH]; cbn [queue_sig]; intros Hr; [by intros [= <-]|].
    destruct (matches y msg) eqn:Hy; [|apply IH; intros z m ?; apply Hr; by right].
    destruct (r_queue y) as [q'|] eqn:Hq; cbn; [|done]. intros [= <-].
    rewrite lookup_insert_ne; [done|]. intros ->. rewrite (Hr y msg) in Hm; [done|by left|done..].
Qed.

Lemma selective_call rd0 ws q h :
  Forall element ws → queues_unique (hierarchy rd0) → find_inner ws (hierarchy rd0) = Some h →
  handler_queue h = Some q → (∀ y, y ∈ sig_matches rd0 → r_queue y ≠ Some q) →
  selective rd0 (WQueue q (call_open dbg (mk_path ws) q) (call_pred dbg (mk_path ws))).
Proof.
  intros Hws Hu Hf Hq Hr. split; [intros; apply call_pred_no_err|].
  split; [intros rd rd' [_ Hh]; unfold call_open; by rewrite Hh|].
  intros rd msg rd' [Hs Hhi] Hp Hsort. unfold sort_msg in Hsort. destruct (typ msg) eqn:Ht; [done| | | |].
  2, 3: destruct (response_serial _) as [idx|]; cbn in Hsort; [|done];
    destruct (reply_map rd !! idx); by injection Hsort as <-.
  - destruct (send _ _ _ _ _) as [c| |] eqn:Hc; cbn in Hsort; [|done..]. injection Hsort as <-.
    destruct (send_queue dbg hash_iter _ _ _ _ Hc) as (vs & q' & Hvs & Hobj & Hrec & ->).
    unfold queued. cbn. rewrite lookup_insert_ne; [done|]. intros ->. rewrite Hhi in Hrec, Hp.
    apply send_inner_queue in Hrec. pose proof (is_match_sent _ ws vs h q Hu Hf Hq Hrec) as Hm.
    unfold call_pred in Hp. rewrite Ht, Hobj in Hp. cbn in Hp. unfold from_str in Hp.
    rewrite validate_str_mk_path in Hp by done. cbn in Hp. unfold is_match in Hp.
    rewrite !components_path in Hp by done. cbn in Hp. injection Hp as Hp. by rewrite Hm in Hp.
  - destruct (queue_sig _ _ _) as [c| |] eqn:Hc; cbn in Hsort; [|done..]. injection Hsort as <-.
    unfold queued. cbn. f_equal. rewrite Hs in Hc. clear Ht Hs Hhi Hp Hf Hu. revert Hr Hc.
    induction (sig_matches rd0) as [|y l IH]; cbn [queue_sig]; intros Hr; [by intros [= <-]|].
    destruct (matches y msg); [|apply IH; intros z ?; apply Hr; by right].
    destruct (r_queue y) as [q'|] eqn:Hy; cbn; [|done]. intros [= <-].
    rewrite lookup_insert_ne; [done|]. intros ->. by destruct (Hr y); [left|].
Qed.
End one_thread.

(** ** An instance: readiness with a tick

    Tokio keeps the readiness with a counter of events, which a guard remembers, and a list
    of those who wait. *)
Record tick_fd := MkTick { t_ready : bool; t_tick : nat; t_asleep : list nat }.

#[export] Instance tick_async : AsyncFd := {|
  Fd := tick_fd;
  Guard := nat;
  fd_ready := t_ready;
  fd_woken f i := bool_decide (i ∉ t_asleep f);
  fd_current f g := bool_decide (g = t_tick f);
  readable f i :=
    if t_ready f then (Some (t_tick f), f)
    else (None, MkTick false (t_tick f) (i :: t_asleep f));
  readable_again f i := (if bool_decide (i ∉ t_asleep f) then Some (t_tick f) else None, f);
  clear_ready f g :=
    if bool_decide (g = t_tick f) then MkTick false (t_tick f) (t_asleep f) else f;
  io_event f := MkTick true (S (t_tick f)) [];
|}.

#[export] Instance tick_async_laws : AsyncFdLaws.
Proof.
  split; cbn.
  - intros f i Hf. rewrite Hf. exists (t_tick f), f. split_and!; try done. by apply bool_decide_eq_true_2.
  - intros f i Hf. rewrite Hf. eexists. split; [done|]. cbn. split_and!; [done| |].
    + apply bool_decide_eq_false_2. intros Hn. apply Hn. by left.
    + intros j Hj. apply bool_decide_ext. set_solver.
  - intros f i Hi. rewrite Hi. exists (t_tick f), f. split_and!; try done. by apply bool_decide_eq_true_2.
  - intros f i Hi. by rewrite Hi.
  - intros f g. destruct (bool_decide (g = t_tick f)); cbn;
      (split; [|done]); [by rewrite andb_false_r|by rewrite andb_true_r].
  - intros f. split; [done|]. intros j. apply bool_decide_eq_true_2. apply not_elem_of_nil.
Qed.

(** ** Concrete runs *)

#[local] Existing Instance text_marshal.

(** Two calls, of serials 1 and 2. *)
Definition two_waiting : world :=
  MkWorld (MkTick false 0 []) false
    (set_reply_map (recv_data rpc_new) (<[1%N := 0]> (<[2%N := 1]> ∅)))
    [(WCall 0 1, PFresh); (WCall 1 2, PFresh)].

Lemma two_waiting_fresh : fresh_world true map_to_list two_waiting.
Proof.
  split; [|intros i j ch|apply not_elem_of_nil|done].
  - intros [|[|i]] x p Hi; cbn in Hi; try done; injection Hi as <- <-; by split.
  - cbn. rewrite !lookup_insert_Some, !lookup_empty. naive_solver.
Qed.

(** The second waits; the answer of the first comes in; the second has the guard, and the
    first, on another thread, has looked into its channel. *)
Definition before_race : list happening :=
  [HPoll 1; HPoll 1; HArrive (Ok (reply_to 1 TReply)); HReport; HPoll 1; HPoll 0].

Lemma wakeup_lost_witness :
  ∃ w w', happens true map_to_list two_waiting before_race = Some w ∧
    happens true map_to_list w [HPoll 1; HPoll 1; HSent 0 (Ok ()); HPoll 0] = Some w' ∧
    msg_fut (WCall 0 1) (w_rd w') = Some (Ok (reply_to 1 TReply), w_rd w') ∧
    ∀ l w'', existsb is_arrival l = false → happens true map_to_list w' l = Some w'' →
      w_tasks w'' !! 0 = Some (WCall 0 1, PWaiting).
Proof.
  destruct (happens true map_to_list two_waiting before_race) as [w|] eqn:Hw;
    [|vm_compute in Hw; discriminate Hw].
  destruct (wakeup_lost true map_to_list w 0 1 0 1 PToReadable (WCall 1 2) 1 (reply_to 1 TReply))
    as (w' & Hw'); [done|..].
  - vm_compute in Hw. by injection Hw as <-.
  - by left.
  - vm_compute in Hw. by injection Hw as <-.
  - vm_compute in Hw. by injection Hw as <-.
  - vm_compute in Hw. by injection Hw as <-.
  - vm_compute in Hw. by injection Hw as <-.
  - vm_compute in Hw. by injection Hw as <-.
  - vm_compute in Hw. injection Hw as <-. by vm_compute.
  - vm_compute in Hw. by injection Hw as <-.
  - vm_compute in Hw. by injection Hw as <-.
  - by split; [left|].
  - by exists w, w'.
Defined.

(** The same on one thread, when the first is still sending a reply: it has read a call
    that nobody handles. *)
Definition while_sending : list happening :=
  [HPoll 0; HPoll 0; HArrive (Ok call_out); HReport; HPoll 0; HPoll 0;
   HArrive (Ok (reply_to 1 TReply)); HReport; HPoll 1; HPoll 1; HPoll 1; HPoll 1; HPoll 1;
   HSent 0 (Ok ()); HPoll 0; HReport; HPoll 0; HPoll 1].

Example asleep_while_sending :
  ∃ w, happens true map_to_list two_waiting while_sending = Some w ∧
    w_tasks w = [(WCall 0 1, PWaiting); (WCall 1 2, PWaiting)] ∧ asleep w 0 (WCall 0 1) ∧
    oneshots (w_rd w) !! 0 = Some (reply_to 1 TReply).
Proof.
  destruct (happens true map_to_list two_waiting while_sending) as [w|] eqn:Hw;
    [|vm_compute in Hw; discriminate Hw].
  exists w. split; [done|]. vm_compute in Hw. injection Hw as <-. by split_and!.
Qed.

(** On one thread the second reads the answer of the first, which was woken too. *)
Definition both_turns : list happening :=
  [HPoll 0; HPoll 0; HPoll 1; HPoll 1; HArrive (Ok (reply_to 1 TReply)); HReport;
   HPoll 1; HPoll 1; HPoll 1; HPoll 1].

Lemma nobody_sleeps_witness :
  ∃ w' w'', one_thread true map_to_list two_waiting both_turns w' ∧
    w_tasks w' !! 0 = Some (WCall 0 1, PWaiting) ∧
    happens true map_to_list w' [HReport; HPoll 0; HPoll 0] = Some w'' ∧
    w_tasks w'' !! 0 = Some (WCall 0 1, PDone (Ok (reply_to 1 TReply))).
Proof.
  assert (∃ w', one_thread true map_to_list two_waiting both_turns w' ∧
    happens true map_to_list two_waiting both_turns = Some w') as (w' & Hl & Hw).
  { destruct (happens true map_to_list two_waiting both_turns) as [w'|] eqn:Hw;
      [|vm_compute in Hw; discriminate Hw].
    exists w'. split; [|done]. apply checked_one_thread; [by vm_compute|done]. }
  vm_compute in Hw.
  destruct (nobody_sleeps true map_to_list two_waiting both_turns w' 0 (WCall 0 1)
    two_waiting_fresh Hl) as [_ Hdone].
  - injection Hw as <-. intros [|[|j]] y p; vm_compute; intros; by simplify_eq.
  - injection Hw as <-. by vm_compute.
  - destruct (Hdone (Ok (reply_to 1 TReply)) (w_rd w')) as (w'' & Hw'' & Hd).
    + injection Hw as <-. by vm_compute.
    + exists w', w''. split; [exact Hl|]. split; [|by split]. injection Hw as <-. by vm_compute.
Defined.
