(* ===== verification/RoundTrip.v ===== *)
(** * lib.rs: a method call from one program to another and back

    Two [RpcConn]s on one bus.  The parts meet here: the caller numbers and sends the call,
    the bus forwards its bytes, the receive state of the callee parses them, [get_call]
    returns the message, the callee answers with [make_response], and the bytes of the
    response, parsed by the caller's receive state, finish the future of the call. *)

From S2P Require Import Prelude Utils Body StdPath ObjPath Message Header DBusWire Hierarchy.
From S2P Require Import MatchRule Sender Recv Rpc Client Queues Conn Progress.
From Stdlib Require Import Lia.

(** What the bus does to a message: it adds the name of its sender. *)
Definition forwarded (name : bytes) (msg : MarshalledMessage) : MarshalledMessage :=
  let d := dynheader msg in
  set_dyn msg (MkDyn (interface d) (member d) (object d) (destination d) (Message.serial d)
    (Some name) (signature d) (error_name d) (response_serial d) (num_fds d)).

Section wire.
Context `{WireLib} `{RecvLib} `{!WireLaws} `{!RecvLaws}.
Context {Ty : Type} (parse_description : bytes → outcome UnmarshalError (list Ty))
  (validate_marshalled : ByteOrder → nat → bytes → Ty → outcome UnmarshalError nat).
Context (dbg : bool) (rem_capacity : nat) (Hcap : 4096 ≤ rem_capacity).

#[local] Abbreviation sendable := (sendable parse_description validate_marshalled dbg).

(** A receive state between two messages, at whose socket the bytes arrive, returns the
    message, and keeps what follows. *)
Definition arrives (b : bytes) (msg : MarshalledMessage) : Prop :=
  ∀ rs sock rest,
    recv_inv rs [] → Recv.with_fd rs = false → unread rs (incoming sock) = b ++ rest →
    Forall delivers (Recv.reads sock) → length (incoming sock) ≤ length (Recv.reads sock) →
    ∃ rs' sock',
      Recv.get_next_message parse_description validate_marshalled dbg rem_capacity rs sock
        = (Ok msg, rs', sock') ∧
      recv_inv rs' [] ∧ unread rs' (incoming sock') = rest.

Lemma sent_arrives msg n :
  sendable msg → (0 < n < u32_mod)%N →
  ∃ hdr, marshal_header dbg msg n = Ok hdr ∧ arrives (hdr ++ buf (m_body msg)) (stamped msg n).
Proof.
  intros Hs Hn.
  destruct (marshal_header_shape dbg msg n [] (snd_ok _ _ _ _ Hs)) as (enc & hdr & Hm & _).
  exists hdr. split; [done|].
  intros rs sock rest Hinv Hwf Hu Hans Hlen.
  assert (entry_bytes parse_description validate_marshalled dbg (msg, n) (hdr ++ buf (m_body msg)))
    as He by (split; [done|]; split; [done|]; by exists hdr).
  destruct (entry_parse parse_description validate_marshalled dbg rem_capacity Hcap _ _ rest He)
    as (h & d & body & Hp & Hst). cbn [fst snd] in Hst.
  destruct (get_next_message_complete parse_description validate_marshalled dbg rem_capacity Hcap
    rs [] sock h d body (length (hdr ++ buf (m_body msg)))) as (rs' & sock' & Hg & Hinv' & Hrest);
    [done|done|by rewrite Hu|rewrite Hst; apply (snd_check _ _ _ _ Hs)|done|done|].
  exists rs', sock'. rewrite Hg, Hst. split_and!; [done..|].
  rewrite Hrest, Hu. cbn [app]. apply drop_app_length.
Qed.

(** ** The two programs *)

Context `{BasicMarshal} (hash_iter : gmap bytes CallHierarchy → list (bytes * CallHierarchy)).

(** [get_call] of a path whose queue is empty waits, and returns the next message if it is
    a call the path is to answer. *)
Lemma get_call_next ws q s msg vs :
  Forall element ws → Forall element vs →
  get_queue (E:=ErrorKind) dbg (hierarchy (recv_data s)) (mk_path ws) = Ok (Some q) →
  take_queued (recv_data s) q = None → inbox (recv_data s) = [] →
  typ msg = TCall → object (dynheader msg) = Some (mk_path vs) →
  is_match (E:=ErrorKind) dbg (hierarchy (recv_data s)) (mk_path ws) (mk_path vs) = Ok true →
  ∃ s', exec dbg hash_iter (Running (get_call dbg (mk_path ws))) [alone; alone; arrival msg] s =
      Some (Running (Ret (Ok msg)), s') ∧ outgoing s' = outgoing s.
Proof.
  intros Hws Hvs Hq Htake Hin Ht Ho Hm.
  unfold get_call, from_str. rewrite validate_str_mk_path by done.
  cbn [mbind outcome_bind mret outcome_ret].
  change [alone; alone; arrival msg] with ([alone] ++ [alone; arrival msg]).
  rewrite exec_app. unfold locked. rewrite exec_locked, Hq. cbn [mbind outcome_bind ok_or option_bind fst snd].
  assert (set_recv_data s (recv_data s) = s) as -> by (by destruct s).
  assert (call_open dbg (mk_path ws) q (recv_data s) = true) as Hopen.
  { unfold call_open. rewrite Hq. by apply bool_decide_eq_true_2. }
  assert (call_pred dbg (mk_path ws) msg (hierarchy (recv_data s)) = Ok true) as Hpred.
  { unfold call_pred. rewrite Ht, Ho. cbn [mbind outcome_bind unwrap]. unfold from_str.
    rewrite validate_str_mk_path by done. cbn [mbind outcome_bind mret outcome_ret unwrap].
    exact Hm. }
  assert (client_step dbg hash_iter
    (Running (Fetch q (call_open dbg (mk_path ws) q) (call_pred dbg (mk_path ws))
       (λ msg, Ret (Ok msg)))) alone s =
    Some (Fetching q (call_open dbg (mk_path ws) q) (call_pred dbg (mk_path ws))
       (λ msg, Ret (Ok msg)), s)) as Hstep1.
  { unfold client_step. cbn [others alone Rpc.run mbind option_bind]. unfold poll_queue.
    by rewrite Htake, Hopen. }
  set (s1 := set_recv_data s (set_inbox (recv_data s) [Ok msg])).
  assert (∃ s2, get_msg_step dbg hash_iter s1 (call_pred dbg (mk_path ws)) = Some (Some (Ok msg), s2) ∧
    outgoing s2 = outgoing s) as (s2 & Hget & Hout).
  { unfold get_msg_step, s1. cbn [set_recv_data set_inbox recv_data inbox queue_msg].
    match goal with |- context [call_pred _ _ _ ?h] => change h with (hierarchy (recv_data s)) end.
    rewrite Hpred. by eexists. }
  exists s2. split; [|done]. cbn [exec]. rewrite Hstep1. cbn [mbind option_bind].
  unfold client_step. cbn [others arrival Rpc.run mbind option_bind io Rpc.step].
  rewrite Hin. cbn [app]. fold s1. unfold poll_queue.
  assert (take_queued (recv_data s1) q = None) as -> by (unfold take_queued in *; cbn; by destruct (chans (recv_data s) !! q) as [[|? ?]|]).
  assert (call_open dbg (mk_path ws) q (recv_data s1) = true) as -> by exact Hopen.
  by rewrite Hget.
Qed.

(** a method call and its answer.  A caller sends a call; the bus forwards it with the
    caller's name; the callee waits in [get_call] of a path the call is for, and answers
    with [make_response] and any body; the bus forwards that.  Then the bytes of the call
    arrive at the callee as the message with the caller's serial, [get_call] returns it,
    the response is addressed to the caller's name, its bytes arrive at the caller, and the
    future of the call, which has sent nothing else, ends with it, body and signature as
    the callee made them. *)
Theorem call_round_trip n s ws vs q t call name name' :
  conn_ok n s → (N.of_nat n < u32_mod - 2)%N → inbox (recv_data s) = [] →
  expects_reply call = true → sendable (forwarded name call) →
  object (dynheader call) = Some (mk_path vs) → Forall element vs → Forall element ws →
  get_queue (E:=ErrorKind) dbg (hierarchy (recv_data t)) (mk_path ws) = Ok (Some q) →
  take_queued (recv_data t) q = None → inbox (recv_data t) = [] →
  is_match (E:=ErrorKind) dbg (hierarchy (recv_data t)) (mk_path ws) (mk_path vs) = Ok true →
  let i := next_idx (serial s) in
  let got := stamped (forwarded name call) i in
  (∃ hdr, marshal_header dbg (forwarded name call) i = Ok hdr ∧
     arrives (hdr ++ buf (m_body call)) got) ∧
  (∃ t', exec dbg hash_iter (Running (get_call dbg (mk_path ws))) [alone; alone; arrival got] t =
     Some (Running (Ret (Ok got)), t')) ∧
  ∀ b k, (0 < k < u32_mod)%N →
    let resp := set_body (make_response (dynheader got)) b in
    let ans := stamped (forwarded name' resp) k in
    sendable (forwarded name' resp) →
    destination (dynheader resp) = Some name ∧
    (∃ hdr, marshal_header dbg (forwarded name' resp) k = Ok hdr ∧ arrives (hdr ++ buf b) ans) ∧
    (∃ s', exec dbg hash_iter (Running (Call call (λ msg, Ret (Ok msg)))) [alone; arrival ans] s =
        Some (Running (Ret (Ok ans)), s') ∧ outgoing s' = outgoing s ++ [call]) ∧
    buf (m_body ans) = buf b ∧ (buf b ≠ [] → sig (m_body ans) = sig b).
Proof.
  intros Hok Hn His Hexp Hcall Ho Hvs Hws Hq Htake Hit Hm i got.
  assert (0 < i < u32_mod)%N as Hi by apply allocate_idx_spec, (ok_counter _ _ Hok).
  assert (typ call = TCall) as Ht.
  { unfold expects_reply in Hexp. apply andb_true_iff in Hexp as [Ht _].
    by apply bool_decide_eq_true in Ht. }
  split; [exact (sent_arrives _ _ Hcall Hi)|]. split.
  - destruct (get_call_next ws q t got vs) as (t' & He & _); [done..|]. by exists t'.
  - intros b k Hk resp ans Hresp. split; [done|]. split; [exact (sent_arrives _ _ Hresp Hk)|].
    split; [|split; [done|]].
    + destruct (call_undisturbed dbg hash_iter (λ msg, Ret (Ok msg)) call ans n s)
        as (s' & He & Hout & _); [done..|by split; [left|]|]. by exists s'.
    + intros Hb. cbn. unfold sig_sent. cbn. by destruct (decide (buf b = [])).
Qed.

(** ** While other tasks work *)

(** [get_call] of a path, with one call for it on the way and nothing in its queue,
    returns that call. *)
Lemma get_call_gets ws vs q msg v0 v1 vs1 vs2 n t t' s' :
  Forall element ws → Forall element vs → typ msg = TCall → object (dynheader msg) = Some (mk_path vs) →
  conn_ok n t → (N.of_nat (n + work (v0 :: v1 :: vs1 ++ vs2)) < u32_mod)%N →
  answers_calls ws q t → call_route dbg ws vs q (recv_data t) → queued q (recv_data t) = [] →
  Forall (quiet dbg hash_iter (call_route dbg ws vs q) q msg) (v0 :: v1 :: vs1 ++ vs2) →
  Forall (λ v, Forall (spares_call dbg ws q) (others v)) (v0 :: v1 :: vs1 ++ vs2) →
  no_failure (inbox (recv_data t) ++ arrivals (v0 :: v1 :: vs1 ++ vs2)) →
  (∀ m, m ∈ msgs (inbox (recv_data t) ++ arrivals (v0 :: v1 :: vs1 ++ vs2)) → call_under ws m → m = msg) →
  msg ∈ msgs (inbox (recv_data t) ++ arrivals (v0 :: v1 :: vs1)) →
  exec dbg hash_iter (Running (get_call dbg (mk_path ws))) (v0 :: v1 :: vs1 ++ vs2) t = Some (t', s') →
  length (inbox (recv_data t) ++ arrivals (v0 :: v1 :: vs1)) < length vs2 →
  ∃ t2, resumed dbg hash_iter (Running (get_call dbg (mk_path ws))) (v0 :: v1 :: vs1 ++ vs2) t
    (λ m, Ret (Ok m)) msg t2.
Proof.
  intros Hws Hvs Ht Ho Hok Hn Hans HRt Hempty Hquiet Hspare Hcalm Honly Hmsg He Hlen.
  destruct (get_call_completes dbg hash_iter ws vs q msg v0 v1 vs1 vs2 t t' s')
    as (m & t2 & Hr & Hm); [done..|by rewrite Hempty|done|done|].
  rewrite Hempty in Hm. assert (call_under ws m) as Hu.
  { destruct Hr as (pre & post & Hsplit & Hpre). rewrite Hsplit in Hn, Hspare.
    rewrite work_app in Hn. apply Forall_app in Hspare as [Hspare _].
    destruct (exec_result dbg hash_iter (keeps_calls ws q) (call_post ws q) (get_call dbg (mk_path ws)) pre n t
      (Ok m) t2) as (s1 & _ & _ & Hu); [done|lia| |by apply get_call_wp|done|done].
    eapply Forall_impl; [exact Hspare|]. intros v Hv a x y Ha. rewrite Forall_forall in Hv.
    apply step_keeps_calls. by apply Hv. }
  rewrite (Honly m Hm Hu) in Hr. by exists t2.
Qed.

(** C3: a method call and its answer, between two busy programs.  On either side other
    tasks make and drop calls, read the socket and edit rules and paths in every turn,
    within the serials of a cycle, and the sockets do not fail.
    The bytes of the call, which the bus forwards with the caller's name, are the message
    that arrives at the callee; if it is the one call for the path that comes in while
    [get_call] waits with an empty queue, and nobody takes it or changes where it goes,
    [get_call] returns it.
    The response made for it is addressed to the caller, and its bytes are the message
    that arrives there; if it is the first answer to the call's serial that comes in, the
    call ends with it, body and signature as the callee made them.  Each side needs as
    many turns after the arrival as results came in, and one more. *)
Theorem busy_call_round_trip n s s1 w0 ws1 ws2 r call name name' vs :
  conn_ok n s → (N.of_nat (n + work (w0 :: ws1 ++ ws2)) < u32_mod)%N →
  expects_reply call = true → Forall (λ w, io w = Ok ()) (w0 :: ws1 ++ ws2) →
  Rpc.run dbg hash_iter s (others w0) = Some s1 →
  no_failure (inbox (recv_data s1) ++ arrivals (ws1 ++ ws2)) →
  exec dbg hash_iter (Running (Call call (λ m, Ret (Ok m)))) (w0 :: ws1 ++ ws2) s = Some r →
  length (inbox (recv_data s1) ++ arrivals ws1) < length ws2 →
  sendable (forwarded name call) → object (dynheader call) = Some (mk_path vs) → Forall element vs →
  let i := next_idx (serial s1) in
  let got := stamped (forwarded name call) i in
  (∃ hdr, marshal_header dbg (forwarded name call) i = Ok hdr ∧ arrives (hdr ++ buf (m_body call)) got) ∧
  (∀ ws q v0 v1 vs1 vs2 m t r',
    Forall element ws → conn_ok m t → (N.of_nat (m + work (v0 :: v1 :: vs1 ++ vs2)) < u32_mod)%N →
    answers_calls ws q t → call_route dbg ws vs q (recv_data t) → queued q (recv_data t) = [] →
    Forall (quiet dbg hash_iter (call_route dbg ws vs q) q got) (v0 :: v1 :: vs1 ++ vs2) →
    Forall (λ v, Forall (spares_call dbg ws q) (others v)) (v0 :: v1 :: vs1 ++ vs2) →
    no_failure (inbox (recv_data t) ++ arrivals (v0 :: v1 :: vs1 ++ vs2)) →
    (∀ x, x ∈ msgs (inbox (recv_data t) ++ arrivals (v0 :: v1 :: vs1 ++ vs2)) → call_under ws x → x = got) →
    got ∈ msgs (inbox (recv_data t) ++ arrivals (v0 :: v1 :: vs1)) →
    exec dbg hash_iter (Running (get_call dbg (mk_path ws))) (v0 :: v1 :: vs1 ++ vs2) t = Some r' →
    length (inbox (recv_data t) ++ arrivals (v0 :: v1 :: vs1)) < length vs2 →
    ∃ t2, resumed dbg hash_iter (Running (get_call dbg (mk_path ws))) (v0 :: v1 :: vs1 ++ vs2) t
      (λ x, Ret (Ok x)) got t2) ∧
  ∀ b k, (0 < k < u32_mod)%N →
    let resp := set_body (make_response (dynheader got)) b in
    let ans := stamped (forwarded name' resp) k in
    sendable (forwarded name' resp) →
    destination (dynheader resp) = Some name ∧
    (∃ hdr, marshal_header dbg (forwarded name' resp) k = Ok hdr ∧ arrives (hdr ++ buf b) ans) ∧
    is_answer i ans ∧
    (first_answer i (msgs (inbox (recv_data s1) ++ arrivals ws1)) = Some ans →
     ∃ s2, resumed dbg hash_iter (Running (Call call (λ m, Ret (Ok m)))) (w0 :: ws1 ++ ws2) s
       (λ m, Ret (Ok m)) ans s2) ∧
    buf (m_body ans) = buf b ∧ (buf b ≠ [] → sig (m_body ans) = sig b).
Proof.
  intros Hok Hn Hexp Hio Hrun Hcalm He Hlen Hcall Ho Hvs i got. destruct r as [tk s'].
  assert (0 < i < u32_mod)%N as Hi.
  { destruct (run_ok dbg hash_iter n s (others w0) s1 Hok) as (m & _ & Hok1); [|done|].
    - unfold work in Hn. cbn [sum_list_with] in Hn. lia.
    - apply allocate_idx_spec, (ok_counter _ _ Hok1). }
  assert (typ call = TCall) as Ht.
  { unfold expects_reply in Hexp. apply andb_true_iff in Hexp as [Ht _].
    by apply bool_decide_eq_true in Ht. }
  split; [exact (sent_arrives _ _ Hcall Hi)|]. split.
  - intros ws q v0 v1 vs1 vs2 m t [tk' t'] Hws **. by eapply (get_call_gets ws vs q got).
  - intros b k Hk resp ans Hresp. split; [done|]. split; [exact (sent_arrives _ _ Hresp Hk)|].
    split; [by split; [left|]|]. split; [|split; [done|]].
    + intros Hans. by apply (call_completes_aux dbg hash_iter (λ m, Ret (Ok m)) call w0 ws1 ws2 n s s1 ans tk s').
    + intros Hb. cbn. unfold sig_sent. cbn. by destruct (decide (buf b = [])).
Qed.
End wire.

(** ** A ping and its answer *)

(** The call with the caller's name; the callee answers every path, and with the number
    of the call and one more. *)
Definition count_call : MarshalledMessage := forwarded (lit "org.caller") count_msg.

Definition callee : option RpcConn :=
  Rpc.run (H:=text_marshal) true map_to_list rpc_new [AInsertCallPath (lit "/") AQueue 1].

Definition count_resp : MarshalledMessage :=
  set_body (make_response (dynheader (stamped count_call 1)))
    (MkBody (u32_bytes LittleEndian 43) (lit "u") [] LittleEndian).

Definition count_ans : MarshalledMessage := forwarded (lit "org.callee") count_resp.

Lemma count_call_sendable : sendable split_types check_u32 true count_call.
Proof.
  split; [|done|by vm_compute|done|by vm_compute| |].
  - split; [by vm_compute|done| |done]. intros p [= <-]. by vm_compute.
  - intros n hdr Hm. vm_compute in Hm. injection Hm as <-. by vm_compute.
  - intros n. vm_compute. reflexivity.
Qed.

Lemma count_ans_sendable : sendable split_types check_u32 true count_ans.
Proof.
  split; [|done|by vm_compute|done|by vm_compute| |].
  - split; [by vm_compute| |done|done]. intros n [= <-]. by vm_compute.
  - intros n hdr Hm. vm_compute in Hm. injection Hm as <-. by vm_compute.
  - intros n. vm_compute. reflexivity.
Qed.

Lemma call_round_trip_witness :
  ∃ t t' s', callee = Some t ∧
    exec (H:=text_marshal) true map_to_list (Running (get_call true (lit "/")))
      [alone; alone; arrival (stamped count_call 1)] t =
      Some (Running (Ret (Ok (stamped count_call 1))), t') ∧
    exec (H:=text_marshal) true map_to_list (Running (Call count_msg (λ msg, Ret (Ok msg))))
      [alone; arrival (stamped count_ans 9)] rpc_new =
      Some (Running (Ret (Ok (stamped count_ans 9))), s') ∧
    buf (m_body (stamped count_ans 9)) = u32_bytes LittleEndian 43.
Proof.
  destruct callee as [t|] eqn:Ht; [|vm_compute in Ht; discriminate Ht].
  destruct (call_round_trip (H3:=text_marshal) split_types check_u32 true 4096 (le_n _) map_to_list
    0 rpc_new [] [lit "org"; lit "freedesktop"; lit "DBus"] 1 t count_msg (lit "org.caller") (lit "org.callee"))
    as (_ & (t' & Hget) & Hans).
  - exact rpc_new_ok.
  - reflexivity.
  - reflexivity.
  - reflexivity.
  - exact count_call_sendable.
  - reflexivity.
  - repeat first [apply List.Forall_nil | apply List.Forall_cons; [split; [done|]|]]; by repeat constructor.
  - apply List.Forall_nil.
  - vm_compute in Ht. injection Ht as <-. vm_compute. reflexivity.
  - vm_compute in Ht. injection Ht as <-. vm_compute. reflexivity.
  - vm_compute in Ht. injection Ht as <-. vm_compute. reflexivity.
  - vm_compute in Ht. injection Ht as <-. vm_compute. reflexivity.
  - destruct (Hans (MkBody (u32_bytes LittleEndian 43) (lit "u") [] LittleEndian) 9%N)
      as (_ & _ & (s' & Hs & _) & Hb & _); [by split|exact count_ans_sendable|].
    by exists t, t', s'.
Defined.

(** ** The same between busy programs

    On either side a future of another call reads what came in. *)

Definition busy_resp : MarshalledMessage :=
  set_body (make_response (dynheader (stamped count_call 2)))
    (MkBody (u32_bytes LittleEndian 43) (lit "u") [] LittleEndian).

Definition busy_ans : MarshalledMessage := stamped (forwarded (lit "org.callee") busy_resp) 9.

Lemma busy_ans_sendable : sendable split_types check_u32 true (forwarded (lit "org.callee") busy_resp).
Proof.
  split; [|done|by vm_compute|done|by vm_compute| |].
  - split; [by vm_compute| |done|done]. intros n [= <-]. by vm_compute.
  - intros n hdr Hm. vm_compute in Hm. injection Hm as <-. by vm_compute.
  - intros n. vm_compute. reflexivity.
Qed.

#[local] Existing Instance text_marshal.

Definition caller_turns : list turn := [MkTurn [AArrive (Ok busy_ans); APoll 0] (Ok ())].

Definition callee_turn : turn :=
  MkTurn [ACall call_out true; AArrive (Ok (stamped count_call 2)); APoll 0] (Ok ()).

Definition callee_edits : list action := [AInsertCallPath (lit "/") AQueue 1].

Definition bus_path : list bytes := [lit "org"; lit "freedesktop"; lit "DBus"].

Lemma bus_path_elements : Forall element bus_path.
Proof.
  repeat first [apply List.Forall_nil | apply List.Forall_cons; [split; [done|]|]]; by repeat constructor.
Qed.

(** The callee waits for calls of every path. *)
Lemma callee_ready :
  ∃ t m, callee = Some t ∧ conn_ok m t ∧ m ≤ 1 ∧ answers_calls [] 1 t ∧
    call_route true [] bus_path 1 (recv_data t) ∧ queued 1 (recv_data t) = [] ∧ inbox (recv_data t) = [].
Proof.
  destruct callee as [t|] eqn:Ht; [|vm_compute in Ht; discriminate Ht].
  destruct (run_ok true map_to_list 0 rpc_new callee_edits t rpc_new_ok eq_refl Ht) as (m & Hm & Hok).
  exists t, m. split_and!; [done|done|done| | | |].
  - apply (reachable_queues true map_to_list callee_edits t) with (HQueue 1).
    + exact Ht.
    + apply NoDup_singleton.
    + vm_compute in Ht. injection Ht as <-. by vm_compute.
    + done.
  - split; [vm_compute in Ht; injection Ht as <-; by vm_compute|].
    apply send_inner_queue. vm_compute in Ht. injection Ht as <-. by vm_compute.
  - vm_compute in Ht. injection Ht as <-. by vm_compute.
  - vm_compute in Ht. injection Ht as <-. by vm_compute.
Qed.

Lemma callee_turns_quiet :
  Forall (quiet true map_to_list (call_route true [] bus_path 1) 1 (stamped count_call 2))
    (alone :: callee_turn :: [] ++ [alone; alone]).
Proof.
  pose proof (call_route_route true map_to_list [] bus_path 1 (stamped count_call 2)
    bus_path_elements eq_refl eq_refl) as HR.
  repeat first [apply List.Forall_nil | apply List.Forall_cons]; (split; [reflexivity|]); cbn [others];
    repeat first [apply List.Forall_nil | apply List.Forall_cons];
    (apply leaves_plain; [exact HR|reflexivity|reflexivity|by intros rd _ []]).
Qed.

Lemma busy_call_round_trip_witness :
  ∃ t t2 s2, callee = Some t ∧
    resumed true map_to_list (Running (get_call true (mk_path []))) (alone :: callee_turn :: [] ++ [alone; alone])
      t (λ x, Ret (Ok x)) (stamped count_call 2) t2 ∧
    resumed true map_to_list (Running (Call count_msg (λ m, Ret (Ok m))))
      (first_turn :: caller_turns ++ [alone; alone]) rpc_new (λ m, Ret (Ok m)) busy_ans s2 ∧
    buf (m_body busy_ans) = u32_bytes LittleEndian 43.
Proof.
  destruct callee_ready as (t & m & Ht & Hok & Hm & Hans & HRt & Hempty & Hin).
  destruct (Rpc.run true map_to_list rpc_new (others first_turn)) as [s1|] eqn:Hr;
    [|vm_compute in Hr; discriminate Hr].
  destruct (exec true map_to_list (Running (Call count_msg (λ m, Ret (Ok m))))
    (first_turn :: caller_turns ++ [alone; alone]) rpc_new) as [r|] eqn:He;
    [|vm_compute in He; discriminate He].
  destruct (exec true map_to_list (Running (get_call true (mk_path [])))
    (alone :: callee_turn :: [] ++ [alone; alone]) t) as [r'|] eqn:He';
    [|vm_compute in Ht; injection Ht as <-; vm_compute in He'; discriminate He'].
  destruct (busy_call_round_trip (H3:=text_marshal) split_types check_u32 true 4096 (le_n _) map_to_list
    0 rpc_new s1 first_turn caller_turns [alone; alone] r count_msg (lit "org.caller") (lit "org.callee")
    bus_path) as (_ & Hget & Hback).
  - exact rpc_new_ok.
  - by vm_compute.
  - reflexivity.
  - repeat first [apply List.Forall_nil | apply List.Forall_cons; [reflexivity|]].
  - exact Hr.
  - vm_compute in Hr. injection Hr as <-.
    repeat first [apply List.Forall_nil | apply List.Forall_cons; [by eexists|]].
  - exact He.
  - vm_compute in Hr. injection Hr as <-. vm_compute. lia.
  - exact count_call_sendable.
  - reflexivity.
  - exact bus_path_elements.
  - assert (next_idx (Rpc.serial s1) = 2%N) as Hi by (vm_compute in Hr; injection Hr as <-; by vm_compute).
    rewrite Hi in Hget, Hback.
    destruct (Hget [] 1 alone callee_turn [] [alone; alone] m t r') as (t2 & Hr1);
      [apply List.Forall_nil|exact Hok|cbn; unfold u32_mod; lia|exact Hans|exact HRt|exact Hempty
      |exact callee_turns_quiet| | | | |exact He'| |].
    + repeat first [apply List.Forall_nil | apply List.Forall_cons]; cbn;
        repeat first [apply List.Forall_nil | apply List.Forall_cons]; split; done.
    + rewrite Hin. repeat first [apply List.Forall_nil | apply List.Forall_cons; [by eexists|]].
    + rewrite Hin. cbn. by intros x Hx%list_elem_of_singleton _.
    + rewrite Hin. cbn. by apply list_elem_of_singleton.
    + rewrite Hin. cbn. lia.
    + destruct (Hback (MkBody (u32_bytes LittleEndian 43) (lit "u") [] LittleEndian) 9%N)
        as (_ & _ & _ & Hs & Hb & _); [by split|exact busy_ans_sendable|].
      destruct Hs as (s2 & Hs); [vm_compute in Hr; injection Hr as <-; vm_compute; reflexivity|].
      exists t, t2, s2. split_and!; [exact Ht|exact Hr1|exact Hs|exact Hb].
Defined.
